(* ===== verification/_CoqProject ===== *)
-Q . S2P
Prelude.v
GoString.v
Diag.v
Token.v
Lexer.v
LexerFacts.v
LexerSim.v
LexerPos.v
LexerProps.v
LexerText.v
Ast.v
Symbols.v
SymbolFacts.v
SymbolProps.v
Flow.v
FlowWalk.v
FlowFacts.v
FlowQuery.v
FlowProps.v
Traverse.v
Exec.v
FlowPath.v
TraverseFacts.v
TraverseNames.v
TraverseSpec.v
TraverseRules.v
TraverseLeaves.v
TraverseStores.v
TraverseCases.v
TraverseFunction.v
TraverseParts.v
TraversePatterns.v
TraverseVisit.v
TraverseProgram.v
TraverseProps.v
TraverseExamples.v
TextFacts.v
Jsdoc.v
JsdocProps.v
Mangle.v
MangleProps.v
Types.v
TypePrint.v
TypeKeys.v
TypeFacts.v
TypeUnion.v
Denote.v
TypeProps.v
UnionProps.v
TypeQuery.v
Fallthrough.v
FallthroughProps.v
Stream.v
StreamFacts.v
StreamProps.v
Expr.v
ParsePrimary.v
ParseExpr.v
Grammar.v
ParseWp.v
ParseRules.v
ParseLists.v
ParseMembers.v
ParseArrow.v
ParsePrimaries.v
ParseCalls.v
ParseOperators.v
ParseProps.v
Stmt.v
Recovery.v
DiagList.v
RecoverWp.v
RecoverLists.v
ParseStmt.v
StmtGrammar.v
StmtRules.v
VarRules.v
StmtSound.v
StmtProps.v
