(* ===== verification/Prelude.v ===== *)
(** * The KlainMainLang front end, verified

    KlainMainLang compiles TypeScript to LLVM.  The program (Go, under src/) is a
    pipeline: the lexer cuts the source into tokens, the parser builds the
    syntax tree of ast/, the binder resolves every name and builds a
    control-flow graph, the checker gives every expression a type, the resolver
    joins files into one program, and codegen/llvm prints LLVM text and drives
    the C runtime.  This library models the front end's data structures and
    algorithms and proves what makes them correct.

    ** The parts

    - This file: results of Go code ([outcome]: a value, an error, a run-time
      panic, or the model's own out-of-fuel), the state monad [M], its weakest
      preconditions [wp] with the tactics [wp_step] and [wp_steps], and loops.
    - GoString.v: Go strings as byte strings, UTF-8 decoding and encoding, the
      functions of strings, strconv and unicode the code calls.  Unicode's
      letter and digit classes are a type class ([Unicode]) with the facts the
      scanner relies on; [ascii_unicode] is an instance.
    - Diag.v: diag/diag.go and the scanner's messages of diag/messages.go.
    - Token.v, Lexer.v: lexer/token.go and lexer/lexer.go, one definition per
      function; the switch of [nextToken] is cut into [operator], [separator],
      [readToken] and the comments.  LexerFacts.v has its invariant, LexerSim.v
      what a scan does not depend on (for [Rewind]), LexerPos.v positions,
      reachable states, and what the mode of a scan decides.  LexerProps.v: every scan ends in a token, the tokens of
      a source cover it, positions lead back to bytes, rewinding repeats a scan.
      LexerText.v: what is read as which token, for identifiers and keywords,
      strings with escapes, numbers, punctuators (longest match).
    - Ast.v: the syntax nodes of ast/nodes.go the binder's code looks into.
    - Symbols.v: binder/symbol.go and the declaration half of binder/binder.go:
      symbol tables, clashes, scopes, hoisting, resolution; SymbolFacts.v the
      invariant, the operations as a state machine and its reachable states;
      SymbolProps.v the theorems.
    - Flow.v: binder/flow.go: the builder's operations on the graph and all the
      queries.  A [*FlowNode] is an index into [nodes]; node 0 is
      [unreachableFlow].  FlowWalk.v: the loops of [walkBack] and
      [GuardedSinceStore] decide reachability, stated by the nearest stores and
      entries on the paths of the graph; FlowFacts.v: the builder's invariant
      and state machine; FlowQuery.v and FlowProps.v: what each query answers,
      in terms of paths.
    - Traverse.v: the traversal of binder/binder.go, which makes the calls the
      two files above are about: [visitNode] with one definition per case and
      per method it calls, for both passes, and [BindWith].  The identity of a
      syntax node keys the tables of the [Binding].
    - Exec.v: what a program does, as far as stores are concerned, told without
      the graph: the executions of a syntax tree as traces of stores and scope
      entries with the way they end ([now], of which [At] is one still under
      way; [inside] for one call of a function); and its plan, the same code in the
      order the traversal visits it, with the identities it uses.
    - FlowPath.v: a path of the graph that passes the events of a trace.
      TraverseFacts.v, TraverseNames.v: what every operation keeps of the state
      and of the scopes.  TraverseSpec.v: what a visit of a piece of code
      promises ([spec]: its executions are paths of the graph from the flow
      before to the flow after, to the targets of its jumps and to its uses);
      TraverseRules.v: the rules to compose promises.  TraverseLeaves.v to
      TraverseVisit.v prove the promise of each case and, by induction on the
      tree, of [visit]; TraverseProgram.v that of both passes.  TraverseProps.v
      has the theorems, TraverseExamples.v programs the graph does not show
      truly.
    - Stream.v: the tokens the parser reads on demand (parser/parser.go): the
      fields of [Parser] are its lists of tokens, scanner states and re-read
      indexes; [rescanAt] reads a token again under another mode, [rewind]
      undoes a guess.  StreamFacts.v: what those lists stand for, a function from
      places to modes ([reading]); StreamProps.v: the theorems.
    - Expr.v, ParsePrimary.v, ParseExpr.v: parser/parser_exprs.go and
      parser/parser_literals.go with the destructuring patterns of
      parser/parser_stmts.go, one definition per method, over the tokens of
      Stream.v.  A production that the code calls again deeper goes through
      [Self]; [productions] ties the knot, as [patterns] does for patterns.  What
      is read by parts that are not modelled (types, blocks, functions, classes)
      is opaque ([Opaque]) and read by operations of an interface ([Elsewhere]).  Grammar.v: the grammar of
      expressions, [Spells] with a level of precedence from 0 to 17, and the
      languages of those parts ([Languages]).  ParseWp.v, ParseRules.v: what a production sees of the
      parser ([point]), the tokens between two points ([upto]), the weakest
      precondition [wpp], the promise [good] and its rules.  ParseLists.v to
      ParseOperators.v prove the promise of each production (ParseMembers.v those of
      patterns and object literals); ParseProps.v has the
      theorems and an instance of the interface ([Plain]).
    - Stmt.v, Recovery.v, ParseStmt.v: parser/recovery.go, the statements of
      control flow and the declarations of variables (with the tags of their doc
      comments, and destructuring) of parser/parser_stmts.go, [desugarRequire] of
      parser/parser_require.go and the list of statements of [ParseProgram].  The
      state is that of the tokens with what recovery keeps (the
      lists under way, the diagnostics); an operation on the tokens is lifted to
      it.  How another declaration is parsed is an interface ([Declarations]).
      DiagList.v: the list of diagnostics, in order.  RecoverWp.v: [notes], what a
      statement sees besides the tokens, and what all keep of it; and [skips],
      the search for a place to go on.  RecoverLists.v: the
      promise of a production of statements ([sound]) and that lists of
      them keep it whatever fails in them.  StmtGrammar.v: the grammar
      ([Sentence], [Program]).  StmtRules.v, VarRules.v (variables) and StmtSound.v prove
      the promise of each statement; StmtProps.v has the theorems, an instance of the interface
      ([PlainStmt]) and the recovery of a program with errors, computed.
    - Fallthrough.v: codegen/llvm/emit_fallthrough.go, whether a body can end
      without returning a value; FallthroughProps.v: the ways a statement can
      complete, and that the analysis is right about them.
    - Jsdoc.v: jsdoc/parser.go and [typedefSource] of parser/parser.go;
      JsdocProps.v: reading back a comment as written.
    - TextFacts.v, Mangle.v, MangleProps.v: the name mangling of ast/nodes.go,
      which other parts undo when they print a name.
    - Types.v: checker/types.go.  A [*Type] is an index into the interner's
      [heap]; every constructor of types is an operation that builds a key and
      interns under it.  TypePrint.v: [Type.String].  TypeKeys.v: a [request] is
      what a constructor is asked for, and keys of requests are equal only for
      requests of the same shape; TypeFacts.v: the heap's invariant, and
      that a constructor interns its request; TypeUnion.v: what [union] answers,
      also when asked again; Denote.v: the values a type stands for.
      TypeProps.v, UnionProps.v, TypeQuery.v: the theorems.

    ** What the theorems show

    The properties are the theorems whose comment starts with an id (C1, C2, ...).
    They state, per component, that operations keep their invariants and
    always answer (no panic, no nil pointer, no endless loop), what each
    function computes on every branch, and the round trips between what is
    written and what is read back.  For the binder as a whole they state that
    it answers on every tree, that the graph it builds has the executions of
    the program as paths, and from both, with what the queries answer in terms
    of paths, that a read it calls definitely assigned follows a store in
    every execution.  For the parser they state that it always answers,
    whatever the text; that what it answers without a diagnostic is spelled by
    the tokens of the text, in the grammar; that after an error the list of the
    program is read to the end of the text, and where each list goes on; and
    that what is reported is in order and nothing is lost.  Each theorem with a hypothesis is applied
    to a concrete state in the theorem named after it with [_witness].
    Examples show by computation where the code departs from what it means to
    do (comments of an Example say how).

    ** Bounds and fuel

    A scanning loop runs at most once per rune left plus one ([fuel]); every
    round consumes a rune, and the totality theorems of the scanner show the
    bound is never met.  A walk of the flow graph has [walk_fuel]: a round per
    node and two per predecessor, shown to suffice for every graph the builder
    makes.  A loop of the parser has a round for each rune of the source and two
    more ([rounds]), and productions, statements and [else if] chains have
    that much depth: each round and each production deeper comes after a token, and
    every token has a rune, so the measure is the number of tokens left ([left]);
    [expression_total] and [program_total] show the bound is never met.  [visit] recurses on the tree with a fuel that is at least the number of
    visits the tree takes ([cost] of its plan).  [add_member] of a union needs two rounds, since a union's members are
    no unions.  [derives_from] has the code's own bound of 64.  [TypeString] and
    [UnmangleText] have explicit fuel: the code follows pointers or repeats
    without a bound.  Positions and the int of [UnmangleText] are 64-bit where
    they may wrap ([wrap64]); line and column counters are unbounded integers.

    ** Hypotheses

    The theorems on the traversal are about trees in which every node has an
    identity of its own ([tree_ok]), as Go pointers do.  The executions of a
    program are paths of its graph if every labeled loop gets its own label
    ([labels_ok]) and if the code is [regular]: it is evaluated in the order
    and as often as the binder visits it, as far as stores are concerned, and
    has no try statement, whose catch clause the graph enters from the state
    before it.  TraverseExamples.v has programs for which the theorem fails
    without.

    What the interfaces of the parser ask for ([ElsewhereOk], [DeclarationsOk]):
    an operation consumes a sentence of its language, a token at least, given
    that the productions it calls do; it puts nothing back, keeps what has
    been reported, and where it fails it says why.  [Plain] and [PlainStmt] are
    operations that do.  A block inside an expression (the body of an arrow
    function) is parsed by [Elsewhere], so what recovery reports inside it is not
    seen in the diagnostics modelled here.  The grammar lets a semicolon be left
    out; where it may be is decided by [parseSemicolon] on the next token.

    The address of a symbol as [%p] prints it is a function on symbols, injective
    and in hexadecimal ([Addresses]).  What the object types stand for is a
    parameter of the theorem on unions.  The interner's keys tell types apart
    when property names, labels and class names hold no character the key
    uses ([clean]); where they do, two types may be one ([object_key_collision]).

    ** Not modelled

    In the parser: declarations (functions, classes, enums, interfaces,
    type aliases, namespaces, imports, exports, [declare]), types and dynamic
    imports, what a doc comment's type means (parser/jsdoc_types.go) and how
    [NumberKey] writes a number (both parameters), declaration files, and the passes of [ParseProgram] after its
    list; the binder's traversal of classes, enums, namespaces, ambient
    modules, library files and worker modules, of a qualified [new], and its
    tables of type annotations; the checker beyond types.go (relations, generics, narrowing, the checks themselves):
    planned in this order.  Module resolution, packaging, the package manager
    and the driver are file and process handling.  codegen/llvm prints LLVM
    text whose meaning is given by LLVM and a C runtime, outside what a model
    here could state.  ast/walk_generated.go is generated; WriteJSON of
    diag/diag.go is output. *)

From stdpp Require Export base list gmap strings sorting.
From Stdlib Require Export ZArith Lia.

(** ** Results of Go code

    A Go function that returns [(T, error)], may index out of range, and may
    loop, is a state transformer with four outcomes.  [Panic] is a run-time
    panic (index out of range, nil dereference).  [OutOfFuel] is the model's
    own answer when a loop's iteration bound was too small: the termination
    theorems show it never happens. *)

Inductive outcome (E A : Type) : Type :=
  | Ok (a : A)
  | Err (e : E)
  | Panic
  | OutOfFuel.
Arguments Ok {E A} a.
Arguments Err {E A} e.
Arguments Panic {E A}.
Arguments OutOfFuel {E A}.

Definition M (S E A : Type) : Type := S → outcome E A * S.

Section monad.
Context {S E : Type}.

#[global] Instance M_ret : MRet (M S E) := λ A a s, (Ok a, s).

#[global] Instance M_bind : MBind (M S E) := λ A B k m s,
  match m s with
  | (Ok a, s') => k a s'
  | (Err e, s') => (Err e, s')
  | (Panic, s') => (Panic, s')
  | (OutOfFuel, s') => (OutOfFuel, s')
  end.

Definition get : M S E S := λ s, (Ok s, s).
Definition gets {A} (f : S → A) : M S E A := λ s, (Ok (f s), s).
Definition modify (f : S → S) : M S E unit := λ s, (Ok tt, f s).
Definition throw {A} (e : E) : M S E A := λ s, (Err e, s).
Definition panic {A} : M S E A := λ s, (Panic, s).

(** The value of an index expression [xs[i]]: a panic when out of range. *)
Definition index {A} (xs : list A) (i : nat) : M S E A :=
  match xs !! i with Some a => mret a | None => panic end.

(** A Go [for] loop with loop-carried variables [L]; the body answers
    [inl] to go round again and [inr] to leave. *)
Fixpoint loop {L B} (fuel : nat) (body : L → M S E (L + B)) (x : L) : M S E B :=
  match fuel with
  | O => λ s, (OutOfFuel, s)
  | Datatypes.S fuel =>
      r ← body x;
      match r with
      | inl x' => loop fuel body x'
      | inr b => mret b
      end
  end.

(** [wp m Q X s]: run from [s], [m] neither panics nor runs out of fuel,
    its result satisfies [Q] and its error [X]. *)
Definition wp {A} (m : M S E A) (Q : A → S → Prop) (X : E → S → Prop) (s : S) : Prop :=
  match m s with
  | (Ok a, s') => Q a s'
  | (Err e, s') => X e s'
  | _ => False
  end.

Lemma wp_ret {A} (a : A) (Q : A → S → Prop) X s : Q a s → wp (mret a) Q X s.
Proof. done. Qed.

Lemma wp_bind {A B} (m : M S E A) (k : A → M S E B) Q X s :
  wp m (λ a s', wp (k a) Q X s') X s → wp (m ≫= k) Q X s.
Proof. unfold wp, mbind, M_bind. destruct (m s) as [[] ?]; done. Qed.

Lemma wp_mono {A} (m : M S E A) (Q Q' : A → S → Prop) (X X' : E → S → Prop) s :
  wp m Q X s → (∀ a s', Q a s' → Q' a s') → (∀ e s', X e s' → X' e s') → wp m Q' X' s.
Proof. unfold wp. destruct (m s) as [[] ?]; naive_solver. Qed.

Lemma wp_and {A} (m : M S E A) (Q Q' : A → S → Prop) (X X' : E → S → Prop) s :
  wp m Q X s → wp m Q' X' s → wp m (λ a s', Q a s' ∧ Q' a s') (λ e s', X e s' ∧ X' e s') s.
Proof. unfold wp. destruct (m s) as [[] ?]; naive_solver. Qed.

Lemma wp_get Q X s : Q s s → wp get Q X s.
Proof. done. Qed.

Lemma wp_gets {A} (f : S → A) (Q : A → S → Prop) X s : Q (f s) s → wp (gets f) Q X s.
Proof. done. Qed.

Lemma wp_modify f (Q : unit → S → Prop) X s : Q tt (f s) → wp (modify f) Q X s.
Proof. done. Qed.

Lemma wp_throw {A} e (Q : A → S → Prop) (X : E → S → Prop) s : X e s → wp (throw e) Q X s.
Proof. done. Qed.

Lemma wp_index {A} (xs : list A) i a (Q : A → S → Prop) X s :
  xs !! i = Some a → Q a s → wp (index xs i) Q X s.
Proof. unfold index. intros ->. done. Qed.

(** Loop rule: [I] is the invariant, [m] a measure every round decreases. *)
Lemma wp_loop_var {L B} (I : L → S → Prop) (m : L → S → nat) (body : L → M S E (L + B)) Q X :
  (∀ x s, I x s →
     wp (body x)
        (λ r s', match r with inl x' => I x' s' ∧ m x' s' < m x s | inr b => Q b s' end) X s) →
  ∀ fuel x s, I x s → m x s < fuel → wp (loop fuel body x) Q X s.
Proof.
  intros Hbody fuel. induction fuel as [|fuel IH]; intros x s HI Hm; [lia|].
  cbn [loop]. apply wp_bind. eapply wp_mono; [by apply Hbody| |done].
  intros [x'|b] s'; [intros [HI' Hlt]; apply IH; [done|lia] | by intros; apply wp_ret].
Qed.

(** The rule with a measure of the state alone. *)
Lemma wp_loop {L B} (I : L → S → Prop) (m : S → nat) (body : L → M S E (L + B)) Q X :
  (∀ x s, I x s →
     wp (body x)
        (λ r s', match r with inl x' => I x' s' ∧ m s' < m s | inr b => Q b s' end) X s) →
  ∀ fuel x s, I x s → m s < fuel → wp (loop fuel body x) Q X s.
Proof. apply (wp_loop_var I (λ _, m)). Qed.
End monad.

Create HintDb klain discriminated.
Create Rewrite HintDb klain.

(** Symbolic execution of a monadic definition under [wp]. *)
Ltac wp_step :=
  lazymatch goal with
  | |- wp (mret _) _ _ _ => apply wp_ret
  | |- wp (mbind _ _) _ _ _ => apply wp_bind
  | |- wp get _ _ _ => apply wp_get
  | |- wp (gets _) _ _ _ => apply wp_gets
  | |- wp (modify _) _ _ _ => apply wp_modify
  | |- wp (throw _) _ _ _ => apply wp_throw
  end.
Ltac wp_steps := repeat (wp_step; cbv beta).

(** Split every [if] and boolean conjunction the symbolic execution met. *)
Ltac bool_cases :=
  repeat match goal with
  | H : _ && _ = true |- _ => apply andb_true_iff in H as [? ?]
  | H : _ || _ = false |- _ => apply orb_false_iff in H as [? ?]
  | H : negb _ = true |- _ => apply negb_true_iff in H
  | H : negb _ = false |- _ => apply negb_false_iff in H
  | H : Z.eqb _ _ = true |- _ => apply Z.eqb_eq in H
  | H : Z.eqb _ _ = false |- _ => apply Z.eqb_neq in H
  | H : Z.leb _ _ = true |- _ => apply Z.leb_le in H
  | H : Z.leb _ _ = false |- _ => apply Z.leb_gt in H
  | H : Z.ltb _ _ = true |- _ => apply Z.ltb_lt in H
  | H : Z.ltb _ _ = false |- _ => apply Z.ltb_ge in H
  | H : Nat.eqb _ _ = true |- _ => apply Nat.eqb_eq in H
  | H : Nat.eqb _ _ = false |- _ => apply Nat.eqb_neq in H
  | H : Nat.leb _ _ = true |- _ => apply Nat.leb_le in H
  | H : Nat.leb _ _ = false |- _ => apply Nat.leb_gt in H
  | H : Nat.ltb _ _ = true |- _ => apply Nat.ltb_lt in H
  | H : Nat.ltb _ _ = false |- _ => apply Nat.ltb_ge in H
  end.
