(* ===== verification/GoString.v ===== *)
(** * Go strings, runes and the standard-library string functions the code uses

    A Go string is a sequence of bytes: Rocq's [string].  A rune is a [Z].
    UTF-8 decoding and encoding are Go's (package unicode/utf8): a malformed
    byte decodes to U+FFFD with width 1, and a rune that is not a Unicode
    scalar value encodes as U+FFFD.  The Unicode category tables are a class
    with the facts about ASCII the code relies on. *)

From S2P Require Import Prelude.
From Stdlib Require Import Ascii.
Open Scope Z_scope.

Abbreviation rune := Z (only parsing).

Definition byte_val (a : ascii) : Z := Z.of_N (N_of_ascii a).
Definition byte_of (z : Z) : ascii := ascii_of_N (Z.to_N z).

Lemma byte_val_range a : 0 ≤ byte_val a < 256.
Proof. unfold byte_val. pose proof (N_ascii_bounded a). lia. Qed.

Lemma byte_val_of z : 0 ≤ z < 256 → byte_val (byte_of z) = z.
Proof. intros. unfold byte_val, byte_of. rewrite N_ascii_embedding by lia. lia. Qed.

Lemma byte_of_val a : byte_of (byte_val a) = a.
Proof. unfold byte_val, byte_of. rewrite N2Z.id. apply ascii_N_embedding. Qed.

Definition in_range (lo hi z : Z) : bool := (lo <=? z) && (z <=? hi).

(** ** UTF-8 *)

Definition RuneError : rune := 0xFFFD.

(** A rune that [utf8.AppendRune] encodes as itself. *)
Definition valid_rune (r : rune) : bool :=
  in_range 0 0xD7FF r || in_range 0xE000 0x10FFFF r.

Definition encode_valid (r : rune) : string :=
  if r <? 0x80 then String (byte_of r) EmptyString
  else if r <? 0x800 then
    String (byte_of (0xC0 + r / 64)) (String (byte_of (0x80 + r mod 64)) EmptyString)
  else if r <? 0x10000 then
    String (byte_of (0xE0 + r / 4096)) (String (byte_of (0x80 + r / 64 mod 64))
      (String (byte_of (0x80 + r mod 64)) EmptyString))
  else
    String (byte_of (0xF0 + r / 262144)) (String (byte_of (0x80 + r / 4096 mod 64))
      (String (byte_of (0x80 + r / 64 mod 64)) (String (byte_of (0x80 + r mod 64)) EmptyString))).

(** [strings.Builder.WriteRune]. *)
Definition encode_rune (r : rune) : string :=
  encode_valid (if valid_rune r then r else RuneError).

(** [string(runes)]. *)
Definition encode (rs : list rune) : string := foldr (λ r s, encode_rune r +:+ s) EmptyString rs.

Definition cont (a : ascii) : bool := in_range 0x80 0xBF (byte_val a).
Definition low6 (a : ascii) : Z := byte_val a - 0x80.

(** The admissible second bytes after a three- or four-byte lead byte. *)
Definition second3 (b0 b1 : Z) : bool :=
  if b0 =? 0xE0 then in_range 0xA0 0xBF b1
  else if b0 =? 0xED then in_range 0x80 0x9F b1
  else in_range 0x80 0xBF b1.
Definition second4 (b0 b1 : Z) : bool :=
  if b0 =? 0xF0 then in_range 0x90 0xBF b1
  else if b0 =? 0xF4 then in_range 0x80 0x8F b1
  else in_range 0x80 0xBF b1.

(** [utf8.DecodeRuneInString]: the first rune of a string and its width
    (0 for the empty string). *)
Definition decode_rune (s : string) : rune * nat :=
  match s with
  | EmptyString => (RuneError, 0%nat)
  | String a s1 =>
      let b0 := byte_val a in
      if b0 <? 0x80 then (b0, 1%nat)
      else if in_range 0xC2 0xDF b0 then
        match s1 with
        | String b _ => if cont b then ((b0 - 0xC0) * 64 + low6 b, 2%nat) else (RuneError, 1%nat)
        | _ => (RuneError, 1%nat)
        end
      else if in_range 0xE0 0xEF b0 then
        match s1 with
        | String b (String c _) =>
            if second3 b0 (byte_val b) && cont c
            then ((b0 - 0xE0) * 4096 + low6 b * 64 + low6 c, 3%nat) else (RuneError, 1%nat)
        | _ => (RuneError, 1%nat)
        end
      else if in_range 0xF0 0xF4 b0 then
        match s1 with
        | String b (String c (String d _)) =>
            if second4 b0 (byte_val b) && cont c && cont d
            then ((b0 - 0xF0) * 262144 + low6 b * 4096 + low6 c * 64 + low6 d, 4%nat)
            else (RuneError, 1%nat)
        | _ => (RuneError, 1%nat)
        end
      else (RuneError, 1%nat)
  end.

Arguments decode_rune : simpl never.

(** [for i, r := range s]: each rune with its byte offset.  [skip] bytes are
    still part of the rune decoded last. *)
Fixpoint range_string (skip off : nat) (s : string) : list (nat * rune) :=
  match s with
  | EmptyString => []
  | String _ s' =>
      match skip with
      | S k => range_string k (S off) s'
      | O => let '(r, w) := decode_rune s in (off, r) :: range_string (w - 1) (S off) s'
      end
  end.

(** [[]rune(s)]. *)
Definition runes_of (s : string) : list rune := (range_string 0 0 s).*2.

(** ** String append *)

Lemma append_cons a s t : String a s +:+ t = String a (s +:+ t).
Proof. done. Qed.

Lemma append_nil_l t : EmptyString +:+ t = t.
Proof. done. Qed.

Lemma append_assoc s t u : (s +:+ t) +:+ u = s +:+ (t +:+ u).
Proof. induction s as [|a s IH]; [done|]. by rewrite !append_cons, IH. Qed.

Lemma append_nil_r s : s +:+ EmptyString = s.
Proof. induction s as [|a s IH]; [done|]. by rewrite append_cons, IH. Qed.

Lemma length_append s t : String.length (s +:+ t) = (String.length s + String.length t)%nat.
Proof. induction s as [|a s IH]; [done|]. rewrite append_cons. simpl. lia. Qed.

#[export] Hint Rewrite append_cons append_nil_l append_nil_r append_assoc length_append : klain.

(** ** Facts about UTF-8 *)

Lemma decode_rune_width s : s ≠ EmptyString → (1 ≤ (decode_rune s).2 ≤ 4)%nat.
Proof.
  intros Hs. destruct s as [|a s1]; [done|]. unfold decode_rune.
  repeat case_match; simpl; lia.
Qed.

Lemma encode_valid_nonempty r : ∃ a s, encode_valid r = String a s.
Proof. unfold encode_valid. repeat case_match; eauto. Qed.

Ltac rune_bools :=
  repeat match goal with
  | H : in_range _ _ _ = true |- _ => unfold in_range in H
  | H : in_range _ _ _ = false |- _ => unfold in_range in H; apply andb_false_iff in H
  | H : _ ∨ _ |- _ => destruct H
  end; bool_cases.

Lemma encode_valid_decode r s :
  valid_rune r = true →
  decode_rune (encode_valid r +:+ s) = (r, String.length (encode_valid r)).
Proof.
  intros Hv. unfold valid_rune in Hv. apply orb_true_iff in Hv.
  assert (0 ≤ r ≤ 0x10FFFF ∧ (r ≤ 0xD7FF ∨ 0xE000 ≤ r)) as [Hr Hsur]
    by (destruct Hv; rune_bools; lia).
  clear Hv. unfold encode_valid.
  pose proof (Z.div_mod r 64 ltac:(done)). pose proof (Z.mod_pos_bound r 64 ltac:(lia)).
  pose proof (Z.div_mod (r / 64) 64 ltac:(done)). pose proof (Z.mod_pos_bound (r / 64) 64 ltac:(lia)).
  pose proof (Z.div_mod (r / 64 / 64) 64 ltac:(done)).
  pose proof (Z.mod_pos_bound (r / 64 / 64) 64 ltac:(lia)).
  replace (r / 4096) with (r / 64 / 64) by (rewrite Z.div_div by lia; done).
  replace (r / 262144) with (r / 64 / 64 / 64) by (rewrite !Z.div_div by lia; done).
  set (m0 := r mod 64) in *. set (q1 := r / 64) in *.
  set (m1 := q1 mod 64) in *. set (q2 := q1 / 64) in *.
  set (m2 := q2 mod 64) in *. set (q3 := q2 / 64) in *.
  clearbody m0 q1 m1 q2 m2 q3.
  destruct (Z.ltb_spec r 0x80); [|destruct (Z.ltb_spec r 0x800); [|destruct (Z.ltb_spec r 0x10000)]];
    rewrite ?append_cons, ?append_nil_l; unfold decode_rune; cbn [String.length];
    unfold cont, low6, second3, second4, in_range;
    rewrite ?byte_val_of by lia.
  all: repeat match goal with
       | |- context [?x <? ?y] => first [rewrite (proj2 (Z.ltb_lt x y)) by lia | rewrite (proj2 (Z.ltb_ge x y)) by lia]
       | |- context [?x <=? ?y] => first [rewrite (proj2 (Z.leb_le x y)) by lia | rewrite (proj2 (Z.leb_gt x y)) by lia]
       | |- context [?x =? ?y] => destruct (Z.eqb_spec x y)
       end; cbn [andb]; try (f_equal; lia); try lia.
  all: repeat match goal with
       | |- context [?x <=? ?y] => destruct (Z.leb_spec x y); cbn [andb]
       end; try (f_equal; lia); try lia.
Qed.

Lemma range_string_app_skip k off s1 s2 :
  k = String.length s1 → range_string k off (s1 +:+ s2) = range_string 0 (off + k) s2.
Proof.
  revert off k. induction s1 as [|a s1 IH]; intros off k ->.
  { rewrite append_nil_l. f_equal. simpl. lia. }
  rewrite append_cons. cbn [range_string String.length]. rewrite (IH (S off) (String.length s1)) by done. f_equal; lia.
Qed.

Lemma range_string_encode_valid r off s :
  valid_rune r = true →
  range_string 0 off (encode_valid r +:+ s) =
    (off, r) :: range_string 0 (off + String.length (encode_valid r)) s.
Proof.
  intros Hv. pose proof (encode_valid_decode r s Hv) as Hd.
  destruct (encode_valid_nonempty r) as (a & t & E). rewrite E in *.
  rewrite append_cons in *. cbn [range_string]. rewrite Hd. cbn [String.length].
  rewrite range_string_app_skip by lia. do 2 f_equal. lia.
Qed.

Lemma range_string_encode rs off :
  Forall (λ r, valid_rune r = true) rs → (range_string 0 off (encode rs)).*2 = rs.
Proof.
  intros H. revert off. induction H as [|r rs Hr _ IH]; intros off; [done|].
  cbn [encode foldr]. unfold encode_rune at 1. rewrite Hr.
  rewrite range_string_encode_valid by done. cbn. f_equal. apply IH.
Qed.

Lemma runes_of_encode rs : Forall (λ r, valid_rune r = true) rs → runes_of (encode rs) = rs.
Proof. apply range_string_encode. Qed.

Lemma range_string_bounds k off s i r :
  (i, r) ∈ range_string k off s → (off + k ≤ i < off + String.length s)%nat.
Proof.
  revert k off. induction s as [|a s IH]; intros k off; simpl; [by intros ?%elem_of_nil|].
  destruct k as [|k].
  - pose proof (decode_rune_width (String a s) ltac:(done)) as Hw.
    destruct (decode_rune (String a s)) as [r0 w]. cbn in Hw. intros [[= -> ->]|Hin]%elem_of_cons; [lia|].
    apply IH in Hin. lia.
  - intros Hin%IH. lia.
Qed.

Lemma range_string_sorted k off s : StronglySorted lt (range_string k off s).*1.
Proof.
  revert k off. induction s as [|a s IH]; intros k off; [constructor|].
  cbn [range_string]. destruct k as [|k]; [|apply IH].
  destruct (decode_rune (String a s)) as [r w]. cbn. constructor; [apply IH|].
  apply Forall_forall. intros i Hi. apply list_elem_of_fmap in Hi as ([j r'] & -> & Hin).
  apply range_string_bounds in Hin. simpl. lia.
Qed.

Lemma encode_cons x xs : encode (x :: xs) = encode_rune x +:+ encode xs.
Proof. done. Qed.

Lemma encode_app xs ys : encode (xs ++ ys) = encode xs +:+ encode ys.
Proof. induction xs as [|x xs IH]; [done|]. cbn [app]. by rewrite !encode_cons, IH, append_assoc. Qed.

#[export] Hint Rewrite encode_app : klain.

(** ** Character classes (package unicode)

    The category tables are those of the Go release the compiler is built
    with: a parameter.  The laws are what the scanner relies on: the ASCII
    part of the tables, and that the general categories do not overlap. *)

(** [unicode.IsSpace]: the White_Space property. *)
Definition IsSpace (r : rune) : bool :=
  in_range 9 13 r || (r =? 0x20) || (r =? 0x85) || (r =? 0xA0) || (r =? 0x1680)
  || in_range 0x2000 0x200A r || (r =? 0x2028) || (r =? 0x2029) || (r =? 0x202F)
  || (r =? 0x205F) || (r =? 0x3000).

Definition ascii_letter (r : rune) : bool := in_range 0x41 0x5A r || in_range 0x61 0x7A r.
Definition ascii_digit (r : rune) : bool := in_range 0x30 0x39 r.
Definition ascii_print (r : rune) : bool := in_range 0x20 0x7E r.

Class Unicode := {
  IsLetter : rune → bool;
  IsDigit : rune → bool;
  IsPrint : rune → bool;
  IsLetter_ascii r : 0 ≤ r < 128 → IsLetter r = ascii_letter r;
  IsDigit_ascii r : 0 ≤ r < 128 → IsDigit r = ascii_digit r;
  IsPrint_ascii r : 0 ≤ r < 128 → IsPrint r = ascii_print r;
  IsLetter_not_digit r : IsLetter r = true → IsDigit r = false;
  IsLetter_not_space r : IsLetter r = true → IsSpace r = false ∧ r ≠ 0xFEFF;
  IsDigit_not_space r : IsDigit r = true → IsSpace r = false ∧ r ≠ 0xFEFF;
}.

Lemma ascii_letter_not_digit r : ascii_letter r = true → ascii_digit r = false.
Proof.
  unfold ascii_letter, ascii_digit. intros H. apply orb_true_iff in H.
  apply not_true_is_false. intros H'. rune_bools; lia.
Qed.

Lemma not_IsSpace_graph r : 0x21 ≤ r < 0x7F → IsSpace r = false ∧ r ≠ 0xFEFF.
Proof.
  intros Hr. split; [|lia]. apply not_true_is_false. unfold IsSpace.
  rewrite !orb_true_iff. intros H. rune_bools; lia.
Qed.

Lemma ascii_letter_not_space r : ascii_letter r = true → IsSpace r = false ∧ r ≠ 0xFEFF.
Proof.
  unfold ascii_letter. intros H. apply orb_true_iff in H. apply not_IsSpace_graph. rune_bools; lia.
Qed.

Lemma ascii_digit_not_space r : ascii_digit r = true → IsSpace r = false ∧ r ≠ 0xFEFF.
Proof. unfold ascii_digit. intros H. apply not_IsSpace_graph. rune_bools; lia. Qed.

(** The tables cut down to ASCII: the instance the examples run with. *)
Definition ascii_unicode : Unicode := {|
  IsLetter := ascii_letter; IsDigit := ascii_digit; IsPrint := ascii_print;
  IsLetter_ascii _ _ := eq_refl; IsDigit_ascii _ _ := eq_refl; IsPrint_ascii _ _ := eq_refl;
  IsLetter_not_digit := ascii_letter_not_digit;
  IsLetter_not_space := ascii_letter_not_space;
  IsDigit_not_space := ascii_digit_not_space
|}.

(** ** Byte-level operations of package strings *)

Definition str_byte (z : Z) : string := String (byte_of z) EmptyString.
Definition is_byte (z : Z) (a : ascii) : bool := byte_val a =? z.

(** [s[i:]] and [s[:i]]. *)
Fixpoint drop_str (i : nat) (s : string) : string :=
  match i, s with S i, String _ s => drop_str i s | _, _ => s end.
Fixpoint take_str (i : nat) (s : string) : string :=
  match i, s with S i, String a s => String a (take_str i s) | _, _ => EmptyString end.

(** [strings.IndexByte], as an option. *)
Fixpoint index_of (p : ascii → bool) (s : string) : option nat :=
  match s with
  | EmptyString => None
  | String a s => if p a then Some O else S <$> index_of p s
  end.

(** [strings.HasPrefix]. *)
Fixpoint has_prefix (s pre : string) : bool :=
  match pre, s with
  | EmptyString, _ => true
  | String a pre, String b s => bool_decide (a = b) && has_prefix s pre
  | _, _ => false
  end.

Fixpoint rev_str_onto (s acc : string) : string :=
  match s with EmptyString => acc | String a s => rev_str_onto s (String a acc) end.
Definition rev_str (s : string) : string := rev_str_onto s EmptyString.

(** [strings.HasSuffix]. *)
Definition has_suffix (s suf : string) : bool := has_prefix (rev_str s) (rev_str suf).
Definition trim_prefix (s pre : string) : string :=
  if has_prefix s pre then drop_str (String.length pre) s else s.
Definition trim_suffix (s suf : string) : string :=
  if has_suffix s suf then take_str (String.length s - String.length suf) s else s.

(** The byte offset of the first rune that is not a space. *)
Definition leading_spaces (s : string) : nat :=
  match filter (λ p : nat * rune, IsSpace p.2 = false) (range_string 0 0 s) with
  | (i, _) :: _ => i
  | [] => String.length s
  end.
(** The byte offset just past the last rune that is not a space. *)
Definition trailing_end (s : string) : nat :=
  match filter (λ p : nat * rune, IsSpace p.2 = false) (rev (range_string 0 0 s)) with
  | (i, _) :: _ => i + (decode_rune (drop_str i s)).2
  | [] => O
  end.
(** [strings.TrimSpace]: strip the runes [IsSpace] holds of from both ends. *)
Definition trim_space (s : string) : string :=
  drop_str (leading_spaces s) (take_str (trailing_end s) s).

(** [strings.Join]. *)
Fixpoint join (sep : string) (ss : list string) : string :=
  match ss with
  | [] => EmptyString
  | [s] => s
  | s :: ss => s +:+ sep +:+ join sep ss
  end.

(** [strings.Split] on a byte. *)
Fixpoint split_byte (p : ascii → bool) (s : string) : list string :=
  match s with
  | EmptyString => [EmptyString]
  | String a s' =>
      if p a then EmptyString :: split_byte p s'
      else match split_byte p s' with
           | w :: ws => String a w :: ws
           | [] => [String a EmptyString]
           end
  end.

(** [strconv.Itoa]. *)
Fixpoint digits_aux (fuel : nat) (z : Z) (acc : string) : string :=
  match fuel with
  | O => acc
  | S fuel =>
      let acc := String (byte_of (0x30 + z mod 10)) acc in
      if z <? 10 then acc else digits_aux fuel (z / 10) acc
  end.
Definition itoa_nonneg (z : Z) : string := digits_aux (S (Z.to_nat (Z.log2 z))) z EmptyString.
Definition itoa (z : Z) : string :=
  if z <? 0 then String (byte_of 0x2D) (itoa_nonneg (- z)) else itoa_nonneg z.

Definition hex_digit (d : Z) : ascii := byte_of (if d <? 10 then 0x30 + d else 0x61 + d - 10).
Fixpoint hex_pad (n : nat) (z : Z) (acc : string) : string :=
  match n with O => acc | S n => hex_pad n (z / 16) (String (hex_digit (z mod 16)) acc) end.

(** [strings.Index] of a string, as an option. *)
Fixpoint index_str (s sub : string) : option nat :=
  if has_prefix s sub then Some O
  else match s with EmptyString => None | String _ s => S <$> index_str s sub end.
(** [strings.LastIndex]. *)
Fixpoint last_index_str (s sub : string) : option nat :=
  match s with
  | EmptyString => if has_prefix s sub then Some O else None
  | String _ s' =>
      match last_index_str s' sub with
      | Some i => Some (S i)
      | None => if has_prefix s sub then Some O else None
      end
  end.
(** [strings.ReplaceAll] of a string that is not empty: [skip] bytes are part
    of an occurrence already replaced. *)
Fixpoint replace_go (old new : string) (skip : nat) (s : string) : string :=
  match s with
  | EmptyString => EmptyString
  | String a s' =>
      match skip with
      | S skip => replace_go old new skip s'
      | O => if has_prefix s old then new +:+ replace_go old new (String.length old - 1) s'
             else String a (replace_go old new 0 s')
      end
  end.
Definition replace_all (s old new : string) : string := replace_go old new 0 s.

(** A 64-bit int. *)
Definition wrap64 (z : Z) : Z := (z + 2 ^ 63) mod 2 ^ 64 - 2 ^ 63.

Lemma wrap64_small z : - 2 ^ 63 ≤ z < 2 ^ 63 → wrap64 z = z.
Proof. intros Hz. unfold wrap64. rewrite Z.mod_small; lia. Qed.
