(* ===== verification/Diag.v ===== *)
(** * Diagnostics (src/diag/diag.go, src/diag/messages.go)

    The message table entries the scanner reports, the [Diagnostic] record,
    the per-file [List], the error values that carry diagnostics and the
    byte offset of a line and column. *)

From S2P Require Import Prelude GoString.
Open Scope Z_scope.

Definition FirstOwnCode : Z := 90000.

Inductive Severity := Error | Warning.
Definition Severity_String (s : Severity) : string :=
  match s with Warning => "warning" | Error => "error" end.

(** [ErrorKind] and [Phase] are named string types. *)
Definition SyntaxError : string := "SyntaxError".
Definition ReferenceError : string := "ReferenceError".
Definition TypeError : string := "TypeError".
Definition RangeError : string := "RangeError".
Definition Unsupported : string := "".
Definition TypeScriptError : string := "TypeScript".
Definition PhaseParse : string := "parse".
Definition PhaseResolution : string := "resolution".
Definition PhaseCheck : string := "check".

Record Message := mkMessage {
  Code : Z; MSeverity : Severity; Kind : string; MPhase : string; MText : string }.

Definition syntax (code : Z) (text : string) : Message :=
  mkMessage code Error SyntaxError PhaseParse text.

(** ** The scanner's messages *)
Definition UnexpectedCharacter := syntax 1127 "unexpected character %q".
Definition NumericSeparatorPlacement :=
  syntax 6188 "numeric separator '_' must be between two digits".
Definition IdentAfterNumeric :=
  syntax 1351 "an identifier or keyword cannot immediately follow a numeric literal".
Definition NumericSeparatorLegacy :=
  syntax 6188 "a numeric separator '_' is not allowed in a legacy octal or non-octal-decimal literal".
Definition BigIntDecimalPoint := syntax 1353 "a BigInt literal cannot contain a decimal point".
Definition BigIntExponent := syntax 1352 "a BigInt literal cannot contain an exponent".
Definition RegexFlagsMsg := syntax 1499 "invalid regular expression flags".
Definition BigIntLegacyOctal :=
  syntax 1121 "a BigInt literal cannot use a legacy-octal / non-octal-decimal form".
Definition UnterminatedString := syntax 1002 "unterminated string literal".
Definition InvalidHexEscape := syntax 1125 "invalid hexadecimal escape sequence".
Definition InvalidUnicodeEscape := syntax 1125 "invalid Unicode escape sequence".
Definition CodePointOutOfRange := syntax 1198 "Unicode code point out of range".
Definition UnterminatedRegExp := syntax 1161 "unterminated regular expression literal".
Definition UnterminatedTemplate := syntax 1160 "unterminated template literal".

(** ** Formatting

    The verbs the message table uses: [%s] of a string, [%q] of a rune,
    [%d] of an integer.  A verb without an argument prints as fmt prints it. *)
Inductive FmtArg := FStr (s : string) | FRune (r : rune) | FInt (z : Z).

Section fmt.
Context `{Unicode}.

(** [strconv.QuoteRune]. *)
Definition escape_rune (r : rune) : string :=
  let r := if valid_rune r then r else RuneError in
  if (r =? 0x27) || (r =? 0x5C) then str_byte 0x5C +:+ encode_rune r
  else if IsPrint r then encode_rune r
  else if r =? 7 then "\a" else if r =? 8 then "\b" else if r =? 12 then "\f"
  else if r =? 10 then "\n" else if r =? 13 then "\r" else if r =? 9 then "\t"
  else if r =? 11 then "\v"
  else if (r <? 0x20) || (r =? 0x7F) then "\x" +:+ hex_pad 2 r ""
  else if r <? 0x10000 then "\u" +:+ hex_pad 4 r ""
  else "\U" +:+ hex_pad 8 r "".
Definition quote_rune (r : rune) : string := "'" +:+ escape_rune r +:+ "'".

Definition fmt_arg (a : FmtArg) : string :=
  match a with FStr s => s | FRune r => quote_rune r | FInt z => itoa z end.

(** [fmt.Sprintf]. *)
Fixpoint sprintf (f : string) (args : list FmtArg) : string :=
  match f with
  | EmptyString => ""
  | String c f' =>
      if is_byte 0x25 c then
        match f' with
        | EmptyString => "%!(NOVERB)"
        | String v f'' =>
            if is_byte 0x25 v then String v (sprintf f'' args)
            else match args with
                 | a :: args => fmt_arg a +:+ sprintf f'' args
                 | [] => "%!" +:+ String v "(MISSING)" +:+ sprintf f'' []
                 end
        end
      else String c (sprintf f' args)
  end.
End fmt.

(** ** Positions and diagnostics *)
Record Pos := mkPos { Line : Z; Col : Z }.
#[export] Instance Pos_eq_dec : EqDecision Pos.
Proof. solve_decision. Defined.

Record Span := mkSpan { File : string; SPos : Pos; Start : Z; End_ : Z }.
Record Related := mkRelated { RSpan : Span; RText : string }.
Record Diagnostic := mkDiagnostic {
  DMessage : Message; DText : string; DSpan : Span;
  DRelated : list Related; DHint : string; DPayload : gmap string string }.

(** [diag.New]. *)
Definition New `{Unicode} (m : Message) (sp : Span) (args : list FmtArg) : Diagnostic :=
  mkDiagnostic m (sprintf (MText m) args) sp [] "" ∅.

Definition Diagnostic_Code (d : Diagnostic) : Z := Code (DMessage d).

(** [Diagnostic.Error]. *)
Definition Diagnostic_Error (d : Diagnostic) : string :=
  let p := SPos (DSpan d) in
  if Line p =? 0 then DText d
  else itoa (Line p) +:+ ":" +:+ itoa (Col p) +:+ ": " +:+ DText d.

(** [Diagnostic.Located]. *)
Definition Located (d : Diagnostic) : string :=
  if bool_decide (File (DSpan d) = "") then Diagnostic_Error d
  else File (DSpan d) +:+ ": " +:+ Diagnostic_Error d.

(** ** The diagnostics of one file *)
Record List := mkList { items : list Diagnostic }.

(** [List.Add]: refused when the last diagnostic is at the same position. *)
Definition Add (l : List) (d : Diagnostic) : bool * List :=
  match last (items l) with
  | Some e =>
      if bool_decide (SPos (DSpan e) = SPos (DSpan d)) && bool_decide (File (DSpan e) = File (DSpan d))
      then (false, l)
      else (true, mkList (items l ++ [d]))
  | None => (true, mkList (items l ++ [d]))
  end.
Definition Len (l : List) : nat := length (items l).
Definition Items (l : List) : list Diagnostic := items l.

(** ** Errors

    What a Go [error] of this program can be: a diagnostic, an [Errors], any
    other error, or [fmt.Errorf] wrapping one with [%w]. *)
Inductive GoError :=
  | EDiagnostic (d : Diagnostic)
  | EErrors (ds : list Diagnostic)
  | EOther (text : string)
  | EWrap (prefix : string) (e : GoError).

(** [(Errors).Error]. *)
Definition Errors_Error (ds : list Diagnostic) : string :=
  join (str_byte 10) (map Located ds).

Fixpoint Error_text (e : GoError) : string :=
  match e with
  | EDiagnostic d => Diagnostic_Error d
  | EErrors ds => Errors_Error ds
  | EOther t => t
  | EWrap p e => p +:+ ": " +:+ Error_text e
  end.

(** [List.Err]. *)
Definition List_Err (l : List) : option GoError :=
  if bool_decide (length (items l) = 0%nat) then None else Some (EErrors (items l)).

(** [errors.As] for the target types [Errors] and [Diagnostic] pointer. *)
Fixpoint as_Errors (e : GoError) : option (list Diagnostic) :=
  match e with EErrors ds => Some ds | EWrap _ e => as_Errors e | _ => None end.
Fixpoint as_Diagnostic (e : GoError) : option Diagnostic :=
  match e with EDiagnostic d => Some d | EWrap _ e => as_Diagnostic e | _ => None end.

(** [diag.As]; nil is [None]. *)
Definition As (e : GoError) : option (list Diagnostic) :=
  match as_Errors e with
  | Some es => Some es
  | None => match as_Diagnostic e with Some d => Some [d] | None => None end
  end.

Definition set_file (file : string) (d : Diagnostic) : Diagnostic :=
  let sp := DSpan d in
  mkDiagnostic (DMessage d) (DText d) (mkSpan file (SPos sp) (Start sp) (End_ sp))
    (DRelated d) (DHint d) (DPayload d).

(** [diag.InFile]; an empty [Errors] is the nil slice [As] cannot be told from. *)
Definition InFile (e : GoError) (file : string) : GoError :=
  match As e with
  | None => EWrap file e
  | Some ds => EErrors (map (set_file file) ds)
  end.

(** ** [diag.Offsets]

    The byte offset of a 1-based line and column; a column counts runes and
    a line starts after a line feed byte. *)
Fixpoint line_starts_from (i : nat) (s : string) : list nat :=
  match s with
  | EmptyString => []
  | String a s => if is_byte 10 a then S i :: line_starts_from (S i) s else line_starts_from (S i) s
  end.
Definition line_starts (src : string) : list nat := 0%nat :: line_starts_from 0 src.

(** [n] turns of the loop [for c := 1; c < col && off < len(src); c++]. *)
Fixpoint step_cols (n off : nat) (src : string) : nat :=
  match n with
  | O => off
  | S n =>
      if (off <? String.length src)%nat
      then step_cols n (off + (decode_rune (drop_str off src)).2) src
      else off
  end.

Definition Offsets (src : string) (line col : Z) : Z :=
  let starts := line_starts src in
  if (line <? 1) || (Z.of_nat (length starts) <? line) || (col <? 1) then -1
  else match starts !! Z.to_nat (line - 1) with
       | Some off => Z.of_nat (step_cols (Z.to_nat (col - 1)) off src)
       | None => -1
       end.

Example Offsets_ex : Offsets (encode [0x61; 10; 0xE9; 0x62]) 2 2 = 4.
Proof. reflexivity. Qed.
