(* ===== verification/Token.v ===== *)
(** * Tokens (src/lexer/token.go)

    The token types in the order the source numbers them, their names, the
    keyword table, and the [Token] record. *)

From S2P Require Import Prelude GoString Diag.
Open Scope Z_scope.

(** ** Token types *)
Inductive TokenType :=
  | NUMBER | BIGINT | STRING | IDENT | PRIVATE_NAME | LET | CONST | VAR | FUNCTION | RETURN | FOR
  | WHILE | IF | ELSE | TRUE | FALSE | NULL | UNDEFINED | NEW | TYPEOF | VOID | SWITCH | CASE
  | DEFAULT | BREAK | CONTINUE | THROW | TRY | CATCH | FINALLY | DO | AWAIT | YIELD | IMPORT
  | EXPORT | ELLIPSIS | CLASS | THIS | INSTANCEOF | EXTENDS | SUPER | STATIC | PRIVATE | PROTECTED
  | PUBLIC | IMPLEMENTS | PLUS | MINUS | STAR | POW | SLASH | PERCENT | ASSIGN | EQ | NEQ
  | STRICT_EQ | STRICT_NEQ | LT | GT | LTE | GTE | AND | OR | NOT | INC | DEC | PLUS_ASSIGN
  | MINUS_ASSIGN | STAR_ASSIGN | POW_ASSIGN | SLASH_ASSIGN | PERCENT_ASSIGN | BITAND | BITOR
  | BITXOR | BITNOT | LSHIFT | RSHIFT | URSHIFT | AND_ASSIGN | OR_ASSIGN | XOR_ASSIGN
  | LSHIFT_ASSIGN | RSHIFT_ASSIGN | URSHIFT_ASSIGN | LOGICAL_AND_ASSIGN | LOGICAL_OR_ASSIGN
  | NULLISH_ASSIGN | LPAREN | RPAREN | LBRACE | RBRACE | LBRACKET | RBRACKET | SEMICOLON | COLON
  | COMMA | DOT | QUESTION | NULLISH | OPTIONAL_DOT | ARROW | AT | TEMPLATE_NO_SUB | TEMPLATE_HEAD
  | TEMPLATE_MIDDLE | TEMPLATE_TAIL | REGEX | ILLEGAL | EOF.

(** The number [iota] gives each token type. *)
Definition TokenType_code (t : TokenType) : nat :=
  match t with
  | NUMBER => 0 | BIGINT => 1 | STRING => 2 | IDENT => 3 | PRIVATE_NAME => 4 | LET => 5
  | CONST => 6 | VAR => 7 | FUNCTION => 8 | RETURN => 9 | FOR => 10 | WHILE => 11 | IF => 12
  | ELSE => 13 | TRUE => 14 | FALSE => 15 | NULL => 16 | UNDEFINED => 17 | NEW => 18 | TYPEOF => 19
  | VOID => 20 | SWITCH => 21 | CASE => 22 | DEFAULT => 23 | BREAK => 24 | CONTINUE => 25
  | THROW => 26 | TRY => 27 | CATCH => 28 | FINALLY => 29 | DO => 30 | AWAIT => 31 | YIELD => 32
  | IMPORT => 33 | EXPORT => 34 | ELLIPSIS => 35 | CLASS => 36 | THIS => 37 | INSTANCEOF => 38
  | EXTENDS => 39 | SUPER => 40 | STATIC => 41 | PRIVATE => 42 | PROTECTED => 43 | PUBLIC => 44
  | IMPLEMENTS => 45 | PLUS => 46 | MINUS => 47 | STAR => 48 | POW => 49 | SLASH => 50
  | PERCENT => 51 | ASSIGN => 52 | EQ => 53 | NEQ => 54 | STRICT_EQ => 55 | STRICT_NEQ => 56
  | LT => 57 | GT => 58 | LTE => 59 | GTE => 60 | AND => 61 | OR => 62 | NOT => 63 | INC => 64
  | DEC => 65 | PLUS_ASSIGN => 66 | MINUS_ASSIGN => 67 | STAR_ASSIGN => 68 | POW_ASSIGN => 69
  | SLASH_ASSIGN => 70 | PERCENT_ASSIGN => 71 | BITAND => 72 | BITOR => 73 | BITXOR => 74
  | BITNOT => 75 | LSHIFT => 76 | RSHIFT => 77 | URSHIFT => 78 | AND_ASSIGN => 79 | OR_ASSIGN => 80
  | XOR_ASSIGN => 81 | LSHIFT_ASSIGN => 82 | RSHIFT_ASSIGN => 83 | URSHIFT_ASSIGN => 84
  | LOGICAL_AND_ASSIGN => 85 | LOGICAL_OR_ASSIGN => 86 | NULLISH_ASSIGN => 87 | LPAREN => 88
  | RPAREN => 89 | LBRACE => 90 | RBRACE => 91 | LBRACKET => 92 | RBRACKET => 93 | SEMICOLON => 94
  | COLON => 95 | COMMA => 96 | DOT => 97 | QUESTION => 98 | NULLISH => 99 | OPTIONAL_DOT => 100
  | ARROW => 101 | AT => 102 | TEMPLATE_NO_SUB => 103 | TEMPLATE_HEAD => 104
  | TEMPLATE_MIDDLE => 105 | TEMPLATE_TAIL => 106 | REGEX => 107 | ILLEGAL => 108 | EOF => 109
  end.

Definition TokenTypes : list TokenType :=
  [NUMBER; BIGINT; STRING; IDENT; PRIVATE_NAME; LET; CONST; VAR; FUNCTION; RETURN; FOR; WHILE; IF;
   ELSE; TRUE; FALSE; NULL; UNDEFINED; NEW; TYPEOF; VOID; SWITCH; CASE; DEFAULT; BREAK; CONTINUE;
   THROW; TRY; CATCH; FINALLY; DO; AWAIT; YIELD; IMPORT; EXPORT; ELLIPSIS; CLASS; THIS; INSTANCEOF;
   EXTENDS; SUPER; STATIC; PRIVATE; PROTECTED; PUBLIC; IMPLEMENTS; PLUS; MINUS; STAR; POW; SLASH;
   PERCENT; ASSIGN; EQ; NEQ; STRICT_EQ; STRICT_NEQ; LT; GT; LTE; GTE; AND; OR; NOT; INC; DEC;
   PLUS_ASSIGN; MINUS_ASSIGN; STAR_ASSIGN; POW_ASSIGN; SLASH_ASSIGN; PERCENT_ASSIGN; BITAND; BITOR;
   BITXOR; BITNOT; LSHIFT; RSHIFT; URSHIFT; AND_ASSIGN; OR_ASSIGN; XOR_ASSIGN; LSHIFT_ASSIGN;
   RSHIFT_ASSIGN; URSHIFT_ASSIGN; LOGICAL_AND_ASSIGN; LOGICAL_OR_ASSIGN; NULLISH_ASSIGN; LPAREN;
   RPAREN; LBRACE; RBRACE; LBRACKET; RBRACKET; SEMICOLON; COLON; COMMA; DOT; QUESTION; NULLISH;
   OPTIONAL_DOT; ARROW; AT; TEMPLATE_NO_SUB; TEMPLATE_HEAD; TEMPLATE_MIDDLE; TEMPLATE_TAIL; REGEX;
   ILLEGAL; EOF].

Lemma TokenTypes_code t : TokenTypes !! TokenType_code t = Some t.
Proof. by destruct t. Qed.

#[export] Instance TokenType_code_inj : Inj (=) (=) TokenType_code.
Proof. intros t u E. pose proof (TokenTypes_code t) as Ht. rewrite E, TokenTypes_code in Ht. congruence. Qed.

#[export] Instance TokenType_eq_dec : EqDecision TokenType.
Proof.
  intros t u. destruct (decide (TokenType_code t = TokenType_code u)) as [E|E].
  - left. by apply (inj TokenType_code).
  - right. congruence.
Defined.

#[export] Instance TokenType_countable : Countable TokenType :=
  inj_countable TokenType_code (λ n, TokenTypes !! n) TokenTypes_code.

Definition tok_eqb (t u : TokenType) : bool := bool_decide (t = u).

(** ** Names and keywords *)

(** The table [tokenNames], read by [TokenType.String]. *)
Definition TokenType_String (t : TokenType) : string :=
  match t with
  | NUMBER => "NUMBER" | BIGINT => "BIGINT" | STRING => "STRING" | IDENT => "IDENT"
  | PRIVATE_NAME => "PRIVATE_NAME" | LET => "let" | CONST => "const" | VAR => "var"
  | FUNCTION => "function" | RETURN => "return" | FOR => "for" | WHILE => "while" | IF => "if"
  | ELSE => "else" | TRUE => "true" | FALSE => "false" | NULL => "null" | UNDEFINED => "undefined"
  | NEW => "new" | TYPEOF => "typeof" | VOID => "void" | SWITCH => "switch" | CASE => "case"
  | DEFAULT => "default" | BREAK => "break" | CONTINUE => "continue" | THROW => "throw"
  | TRY => "try" | CATCH => "catch" | FINALLY => "finally" | DO => "do" | AWAIT => "await"
  | YIELD => "yield" | IMPORT => "import" | EXPORT => "export" | ELLIPSIS => "..."
  | CLASS => "class" | THIS => "this" | INSTANCEOF => "instanceof" | EXTENDS => "extends"
  | SUPER => "super" | STATIC => "static" | PRIVATE => "private" | PROTECTED => "protected"
  | PUBLIC => "public" | IMPLEMENTS => "implements" | PLUS => "+" | MINUS => "-" | STAR => "*"
  | POW => "**" | SLASH => "/" | PERCENT => "%" | ASSIGN => "=" | EQ => "==" | NEQ => "!="
  | STRICT_EQ => "===" | STRICT_NEQ => "!==" | LT => "<" | GT => ">" | LTE => "<=" | GTE => ">="
  | AND => "&&" | OR => "||" | NOT => "!" | INC => "++" | DEC => "--" | PLUS_ASSIGN => "+="
  | MINUS_ASSIGN => "-=" | STAR_ASSIGN => "*=" | POW_ASSIGN => "**=" | SLASH_ASSIGN => "/="
  | PERCENT_ASSIGN => "%=" | BITAND => "&" | BITOR => "|" | BITXOR => "^" | BITNOT => "~"
  | LSHIFT => "<<" | RSHIFT => ">>" | URSHIFT => ">>>" | AND_ASSIGN => "&=" | OR_ASSIGN => "|="
  | XOR_ASSIGN => "^=" | LSHIFT_ASSIGN => "<<=" | RSHIFT_ASSIGN => ">>=" | URSHIFT_ASSIGN => ">>>="
  | LOGICAL_AND_ASSIGN => "&&=" | LOGICAL_OR_ASSIGN => "||=" | NULLISH_ASSIGN => "??="
  | LPAREN => "(" | RPAREN => ")" | LBRACE => "{" | RBRACE => "}" | LBRACKET => "["
  | RBRACKET => "]" | SEMICOLON => ";" | COLON => ":" | COMMA => "," | DOT => "." | QUESTION => "?"
  | NULLISH => "??" | OPTIONAL_DOT => "?." | ARROW => "=>" | AT => "@"
  | TEMPLATE_NO_SUB => "TEMPLATE_NO_SUB" | TEMPLATE_HEAD => "TEMPLATE_HEAD"
  | TEMPLATE_MIDDLE => "TEMPLATE_MIDDLE" | TEMPLATE_TAIL => "TEMPLATE_TAIL" | REGEX => "REGEX"
  | ILLEGAL => "ILLEGAL" | EOF => "EOF"
  end.

(** The table [keywords]. *)
Definition keywords : list (string * TokenType) :=
  [("let", LET); ("const", CONST); ("var", VAR); ("function", FUNCTION); ("return", RETURN);
   ("for", FOR); ("while", WHILE); ("if", IF); ("else", ELSE); ("true", TRUE); ("false", FALSE);
   ("null", NULL); ("undefined", UNDEFINED); ("new", NEW); ("typeof", TYPEOF); ("void", VOID);
   ("switch", SWITCH); ("case", CASE); ("default", DEFAULT); ("break", BREAK);
   ("continue", CONTINUE); ("throw", THROW); ("try", TRY); ("catch", CATCH); ("finally", FINALLY);
   ("do", DO); ("await", AWAIT); ("yield", YIELD); ("import", IMPORT); ("export", EXPORT);
   ("class", CLASS); ("this", THIS); ("instanceof", INSTANCEOF); ("extends", EXTENDS);
   ("super", SUPER); ("static", STATIC); ("private", PRIVATE); ("protected", PROTECTED);
   ("public", PUBLIC); ("implements", IMPLEMENTS)].

Definition keywords_map : gmap string TokenType := list_to_map keywords.

Definition LookupIdent (s : string) : TokenType :=
  match keywords_map !! s with Some t => t | None => IDENT end.

(** [keywordTypes], built from the table once. *)
Definition keywordTypes : gset TokenType := list_to_set (keywords.*2).

Definition IsKeyword (t : TokenType) : bool := bool_decide (t ∈ keywordTypes).

(** ** Tokens *)

(** [TokenFlags] is a bit set with one bit. *)
Definition PrecedingLineBreak : Z := 1.

Record Token := mkToken {
  Type_ : TokenType; Literal : string; RegexFlags : string; Raw : string;
  TLine : Z; TCol : Z; TPos : nat; TEnd : nat; Flags : Z; Doc : string;
  TErr : option Diagnostic }.

Definition zeroToken : Token := mkToken NUMBER "" "" "" 0 0 0 0 0 "" None.

(** [Token.HasPrecedingLineBreak]. *)
Definition HasPrecedingLineBreak (t : Token) : bool :=
  negb (Z.land (Flags t) PrecedingLineBreak =? 0).

Definition with_Raw (t : Token) (raw : string) : Token :=
  mkToken (Type_ t) (Literal t) (RegexFlags t) raw (TLine t) (TCol t) (TPos t) (TEnd t)
    (Flags t) (Doc t) (TErr t).
Definition with_RegexFlags (t : Token) (fs : string) : Token :=
  mkToken (Type_ t) (Literal t) fs (Raw t) (TLine t) (TCol t) (TPos t) (TEnd t)
    (Flags t) (Doc t) (TErr t).

(** ** Facts *)

Lemma tok_eqb_eq t u : tok_eqb t u = true ↔ t = u.
Proof. apply bool_decide_eq_true. Qed.

Lemma keywords_NoDup : NoDup (keywords.*1) ∧ NoDup (keywords.*2).
Proof. split; apply (bool_decide_unpack _); vm_compute; exact I. Qed.

Lemma IsKeyword_spec t : IsKeyword t = true ↔ ∃ s, LookupIdent s = t ∧ t ≠ IDENT.
Proof.
  unfold IsKeyword, keywordTypes, LookupIdent. rewrite bool_decide_eq_true, elem_of_list_to_set.
  split.
  - intros Hin. assert (t ≠ IDENT) as Hne.
    { intros ->. revert Hin. apply (bool_decide_unpack _). vm_compute. exact I. }
    apply list_elem_of_fmap in Hin as ([k v] & -> & Hin). exists k. split; [|done].
    unfold keywords_map. by rewrite (elem_of_list_to_map_1 _ k v (proj1 keywords_NoDup) Hin).
  - intros (s & E & Hne). destruct (keywords_map !! s) as [v|] eqn:Hl; [|congruence].
    subst v. apply elem_of_list_to_map_2 in Hl. apply list_elem_of_fmap. by exists (s, t).
Qed.
