(* ===== verification/Lexer.v ===== *)
(** * The scanner (src/lexer/lexer.go)

    The [Lexer] record has the source's fields; every method is a definition
    in the monad [LexM] of state transformers over it, whose error is a
    diagnostic.  [for l.pos < len(l.src)] loops run with one round of fuel
    per remaining rune and one more, which LexerFacts shows is enough. *)

From S2P Require Import Prelude GoString Diag Token.
From Stdlib Require Import Ascii.
Open Scope Z_scope.

(** The code of an ASCII character. *)
Notation "'ch' c" :=
  (ltac:(let v := eval vm_compute in (byte_val c%char) in exact v))
  (at level 9, c constr at level 0, only parsing).

Inductive ScanMode := ScanDefault | ScanGlueGreater | ScanRegex | ScanNoRegex.
#[export] Instance ScanMode_eq_dec : EqDecision ScanMode.
Proof. solve_decision. Defined.

Record Lexer := mkLexer {
  src : list rune;
  offs : list nat;
  pos : nat;
  line : Z;
  col : Z;
  templateStack : list Z; (* the innermost open substitution first *)
  mode : ScanMode;
  sawNL : bool;
  startPos : nat;
  startNL : bool;
  pendingDoc : string;
  Docs : gmap nat string;
  lastSig : TokenType }.

(** [lexer.New]. *)
Definition New (s : string) : Lexer :=
  mkLexer (runes_of s) ((range_string 0 0 s).*1 ++ [String.length s])
    0 1 1 [] ScanDefault false 0 false "" ∅ SEMICOLON.

(** ** Saved states *)
Record State := mkState {
  st_pos : nat; st_line : Z; st_col : Z; st_templateStack : list Z;
  st_lastSig : TokenType; st_sawNL : bool; st_pendingDoc : string }.

Definition Mark (l : Lexer) : State :=
  mkState (pos l) (line l) (col l) (templateStack l) (lastSig l) (sawNL l) (pendingDoc l).

Definition Rewind (st : State) (l : Lexer) : Lexer :=
  mkLexer (src l) (offs l) (st_pos st) (st_line st) (st_col st) (st_templateStack st) (mode l)
    (st_sawNL st) (startPos l) (startNL l) (st_pendingDoc st) (Docs l) (st_lastSig st).

(** ** Field updates *)
Definition set_mode (m : ScanMode) (l : Lexer) : Lexer :=
  mkLexer (src l) (offs l) (pos l) (line l) (col l) (templateStack l) m (sawNL l)
    (startPos l) (startNL l) (pendingDoc l) (Docs l) (lastSig l).
Definition set_sawNL (b : bool) (l : Lexer) : Lexer :=
  mkLexer (src l) (offs l) (pos l) (line l) (col l) (templateStack l) (mode l) b
    (startPos l) (startNL l) (pendingDoc l) (Docs l) (lastSig l).
Definition set_lastSig (t : TokenType) (l : Lexer) : Lexer :=
  mkLexer (src l) (offs l) (pos l) (line l) (col l) (templateStack l) (mode l) (sawNL l)
    (startPos l) (startNL l) (pendingDoc l) (Docs l) t.
Definition set_stack (ts : list Z) (l : Lexer) : Lexer :=
  mkLexer (src l) (offs l) (pos l) (line l) (col l) ts (mode l) (sawNL l)
    (startPos l) (startNL l) (pendingDoc l) (Docs l) (lastSig l).
Definition set_start (p : nat) (nl : bool) (l : Lexer) : Lexer :=
  mkLexer (src l) (offs l) (pos l) (line l) (col l) (templateStack l) (mode l) (sawNL l)
    p nl (pendingDoc l) (Docs l) (lastSig l).
Definition set_doc (d : string) (l : Lexer) : Lexer :=
  mkLexer (src l) (offs l) (pos l) (line l) (col l) (templateStack l) (mode l) (sawNL l)
    (startPos l) (startNL l) d (Docs l) (lastSig l).
Definition set_Docs (m : gmap nat string) (l : Lexer) : Lexer :=
  mkLexer (src l) (offs l) (pos l) (line l) (col l) (templateStack l) (mode l) (sawNL l)
    (startPos l) (startNL l) (pendingDoc l) m (lastSig l).

(** ** Characters *)

Definition isLineTerminator (c : rune) : bool :=
  (c =? 10) || (c =? 13) || (c =? 0x2028) || (c =? 0x2029).

(** [hexDigitVal]; the pair's false is [None]. *)
Definition hexDigitVal (c : rune) : option Z :=
  if in_range (ch "0") (ch "9") c then Some (c - ch "0")
  else if in_range (ch "a") (ch "f") c then Some (c - ch "a" + 10)
  else if in_range (ch "A") (ch "F") c then Some (c - ch "A" + 10)
  else None.

(** Go's [l.src[i]] where the code has checked [i < len(l.src)], else 0. *)
Definition rune_at (l : Lexer) (i : nat) : rune := match src l !! i with Some c => c | None => 0 end.

Definition peek_of (l : Lexer) : rune := rune_at l (pos l).
Definition peekAt_of (n : nat) (l : Lexer) : rune := rune_at l (pos l + n).

(** The state after [advance] over the rune [c]. *)
Definition past (c : rune) (l : Lexer) : Lexer :=
  mkLexer (src l) (offs l) (S (pos l))
    (if c =? 10 then line l + 1 else line l) (if c =? 10 then 1 else col l + 1)
    (templateStack l) (mode l) (isLineTerminator c || sawNL l)
    (startPos l) (startNL l) (pendingDoc l) (Docs l) (lastSig l).

Definition step (l : Lexer) : Lexer :=
  match src l !! pos l with Some c => past c l | None => l end.

Section scanner.
Context `{U : Unicode}.

Definition LexM : Type → Type := M Lexer Diagnostic.

#[global] Instance LexM_ret : MRet LexM := M_ret.
#[global] Instance LexM_bind : MBind LexM := M_bind.

Definition peek : LexM rune := gets peek_of.
Definition peekAt (n : nat) : LexM rune := gets (peekAt_of n).

Definition advance : LexM rune := λ l, (Ok (peek_of l), step l).

(** The test [l.pos < len(l.src)]. *)
Definition more : LexM bool := gets (λ l, (pos l <? length (src l))%nat).

Definition fuel (l : Lexer) : nat := S (length (src l) - pos l).

(** [for l.pos < len(l.src) { body }]: [inl] goes round, [inr] leaves; when
    the input ends the loop leaves with [done]. *)
Definition scanning {L B} (body : L → LexM (L + B)) (done : L → B) (x : L) : LexM B :=
  l ← get;
  loop (fuel l) (λ x, more ≫= λ b : bool, if b then body x else mret (inr (done x))) x.

Definition errAt {A} (line col : Z) (m : Message) (args : list FmtArg) : LexM A :=
  l ← get;
  a ← index (offs l) (startPos l);
  b ← index (offs l) (pos l);
  throw (Diag.New m (mkSpan "" (mkPos line col) (Z.of_nat a) (Z.of_nat b)) args).

(** The rune index that [Offset] reaches for a line: past [line - 1] line feeds. *)
Fixpoint skip_lines (ln : Z) (line : Z) (i : nat) (rs : list rune) : nat :=
  match rs with
  | [] => i
  | c :: rs =>
      if ln <? line then skip_lines (if c =? 10 then ln + 1 else ln) line (S i) rs else i
  end.

Definition Offset (line col : Z) : LexM nat :=
  if (line <? 1) || (col <? 1) then mret 0%nat
  else
    l ← get;
    let i := (skip_lines 1 line 0 (src l) + Z.to_nat (col - 1))%nat in
    index (offs l) (if (length (src l) <? i)%nat then length (src l) else i).

Definition skipWhitespace : LexM unit :=
  scanning (λ _, c ← peek;
                 if IsSpace c || (c =? 0xFEFF) then advance ≫= λ _, mret (inl tt)
                 else mret (inr tt))
    (λ _, tt) tt.

Definition tok (typ : TokenType) (lit : string) (line col : Z) : LexM Token :=
  l ← get;
  a ← index (offs l) (startPos l);
  b ← index (offs l) (pos l);
  modify (set_doc "") ≫= λ _,
  mret (mkToken typ lit "" "" line col a b
          (if startNL l then PrecedingLineBreak else 0) (pendingDoc l) None).

(** ** Numbers *)

Definition readDigitRun (buf : string) (isDigit : rune → bool) (line col : Z) : LexM string :=
  scanning
    (λ '(buf, lastWasDigit),
       c ← peek;
       if isDigit c then advance ≫= λ r, mret (inl (buf +:+ encode_rune r, true))
       else if c =? ch "_" then
         n ← peekAt 1;
         if negb lastWasDigit || negb (isDigit n) then errAt line col NumericSeparatorPlacement []
         else advance ≫= λ _, mret (inl (buf, false))
       else mret (inr buf))
    fst (buf, false).

Definition isHexDigit (c : rune) : bool :=
  in_range (ch "0") (ch "9") c || in_range (ch "a") (ch "f") c || in_range (ch "A") (ch "F") c.
Definition isBinDigit (c : rune) : bool := (c =? ch "0") || (c =? ch "1").
Definition isOctDigit (c : rune) : bool := in_range (ch "0") (ch "7") c.

(** The hex, binary and octal arms of [readNumberBody]. *)
Definition readPrefixed (isDigit : rune → bool) (line col : Z) : LexM Token :=
  r0 ← advance;
  r1 ← advance;
  buf ← readDigitRun (encode_rune r0 +:+ encode_rune r1) isDigit line col;
  c ← peek;
  if c =? ch "n" then advance ≫= λ _, tok BIGINT buf line col
  else tok NUMBER buf line col.

(** The digits and the decimal point of a decimal literal: the text, whether
    a point was read, and whether the last rune was a digit. *)
Definition readDecimal (legacyLeadingZero : bool) (line col : Z) : LexM (string * bool * bool) :=
  scanning
    (λ '(buf, hasDot, lastWasDigit),
       c ← peek;
       n ← peekAt 1;
       if IsDigit c then advance ≫= λ r, mret (inl (buf +:+ encode_rune r, hasDot, true))
       else if (c =? ch ".") && negb hasDot && IsDigit n then
         advance ≫= λ r, mret (inl (buf +:+ encode_rune r, true, false))
       else if (c =? ch ".") && negb hasDot && negb legacyLeadingZero && lastWasDigit then
         advance ≫= λ _, mret (inr (buf, true, false))
       else if c =? ch "_" then
         if legacyLeadingZero then errAt line col NumericSeparatorLegacy []
         else if negb lastWasDigit || negb (IsDigit n) then
           errAt line col NumericSeparatorPlacement []
         else advance ≫= λ _, mret (inl (buf, hasDot, false))
       else mret (inr (buf, hasDot, lastWasDigit)))
    id (""%string, false, false).

(** The optional exponent: the text with it, and whether there was one. *)
Definition readExponent (buf : string) (line col : Z) : LexM (string * bool) :=
  c ← peek;
  n1 ← peekAt 1;
  n2 ← peekAt 2;
  if ((c =? ch "e") || (c =? ch "E"))
     && (IsDigit n1 || (((n1 =? ch "+") || (n1 =? ch "-")) && IsDigit n2)) then
    r ← advance;
    let buf := buf +:+ encode_rune r in
    s ← peek;
    buf ← (if (s =? ch "+") || (s =? ch "-") then advance ≫= λ r, mret (buf +:+ encode_rune r)
           else mret buf);
    buf ← readDigitRun buf IsDigit line col;
    mret (buf, true)
  else mret (buf, false).

Definition readNumberBody (line col : Z) : LexM Token :=
  c0 ← peek;
  c1 ← peekAt 1;
  if (c0 =? ch "0") && ((c1 =? ch "x") || (c1 =? ch "X")) then readPrefixed isHexDigit line col
  else if (c0 =? ch "0") && ((c1 =? ch "b") || (c1 =? ch "B")) then readPrefixed isBinDigit line col
  else if (c0 =? ch "0") && ((c1 =? ch "o") || (c1 =? ch "O")) then readPrefixed isOctDigit line col
  else
    let legacyLeadingZero := (c0 =? ch "0") && (in_range (ch "0") (ch "9") c1 || (c1 =? ch "_")) in
    '(buf, hasDot, _) ← readDecimal legacyLeadingZero line col;
    '(buf, hasExp) ← readExponent buf line col;
    c ← peek;
    if c =? ch "n" then
      if (hasDot : bool) then errAt line col BigIntDecimalPoint []
      else if (hasExp : bool) then errAt line col BigIntExponent []
      else if legacyLeadingZero then errAt line col BigIntLegacyOctal []
      else advance ≫= λ _, tok BIGINT buf line col
    else tok NUMBER buf line col.

Definition readNumber (line col : Z) : LexM Token :=
  t ← readNumberBody line col;
  c ← peek;
  if IsLetter c || (c =? ch "_") || (c =? ch "$") || (c =? ch "\")
  then errAt line col IdentAfterNumeric []
  else mret t.

(** ** Strings *)

(** [readHexEscape]; its false is [None]. *)
Fixpoint readHexEscape_from (n : nat) (val : Z) : LexM (option Z) :=
  match n with
  | O => mret (Some val)
  | S n =>
      c ← peek;
      match hexDigitVal c with
      | None => mret None
      | Some d => advance ≫= λ _, readHexEscape_from n (val * 16 + d)
      end
  end.
Definition readHexEscape (n : nat) : LexM (option Z) := readHexEscape_from n 0.

(** The further digits of a legacy octal escape. *)
Fixpoint octal_more (n : nat) (val : Z) : LexM Z :=
  match n with
  | O => mret val
  | S n =>
      c ← peek;
      if (c <? ch "0") || (ch "7" <? c) then mret val
      else r ← advance; octal_more n (val * 8 + (r - ch "0"))
  end.

(** The digits of a brace-delimited Unicode escape: its value and their number. *)
Definition braced_digits (line col : Z) : LexM (Z * nat) :=
  scanning
    (λ '(val, n),
       c ← peek;
       if c =? ch "}" then mret (inr (val, n))
       else match hexDigitVal c with
            | None => errAt line col InvalidUnicodeEscape []
            | Some d =>
                advance ≫= λ _,
                let val := val * 16 + d in
                if 0x10FFFF <? val then errAt line col CodePointOutOfRange []
                else mret (inl (val, S n))
            end)
    id (0, 0%nat).

(** Such an escape past its opening brace. *)
Definition unicode_braced (line col : Z) : LexM Z :=
  '(val, n) ← braced_digits line col;
  c ← peek;
  if (n =? 0)%nat || negb (c =? ch "}") then errAt line col InvalidUnicodeEscape []
  else advance ≫= λ _, mret val.

(** [scanStringEscape]: the buffer with the escape's text appended. *)
Definition scanStringEscape (buf : string) (line col : Z) : LexM string :=
  esc ← advance;
  if esc =? ch "n" then mret (buf +:+ str_byte 10)
  else if esc =? ch "t" then mret (buf +:+ str_byte 9)
  else if esc =? ch "r" then mret (buf +:+ str_byte 13)
  else if esc =? ch "b" then mret (buf +:+ str_byte 8)
  else if esc =? ch "f" then mret (buf +:+ str_byte 12)
  else if esc =? ch "v" then mret (buf +:+ str_byte 11)
  else if (esc =? ch "\") || (esc =? 0x22) || (esc =? ch "'") || (esc =? ch "`") then
    mret (buf +:+ encode_rune esc)
  else if in_range (ch "0") (ch "7") esc then
    val ← octal_more (if ch "3" <? esc then 1 else 2) (esc - ch "0");
    mret (buf +:+ encode_rune val)
  else if esc =? ch "x" then
    v ← readHexEscape 2;
    match v with
    | None => errAt line col InvalidHexEscape []
    | Some v => mret (buf +:+ encode_rune v)
    end
  else if esc =? ch "u" then
    c ← peek;
    if c =? ch "{" then
      advance ≫= λ _,
      val ← unicode_braced line col;
      mret (buf +:+ encode_rune val)
    else
      v ← readHexEscape 4;
      match v with
      | None => errAt line col InvalidUnicodeEscape []
      | Some v => mret (buf +:+ encode_rune v)
      end
  else if (esc =? 10) || (esc =? 0x2028) || (esc =? 0x2029) then mret buf
  else if esc =? 13 then
    c ← peek;
    if c =? 10 then advance ≫= λ _, mret buf else mret buf
  else if esc =? 0 then errAt line col UnterminatedString []
  else mret (buf +:+ encode_rune esc).

(** The characters of a literal after its opening quote; [None] when the
    input ends before the closing one. *)
Definition string_body (quote : rune) (line col : Z) : string → LexM (option string) :=
  scanning
    (λ buf,
       c ← peek;
       if c =? quote then advance ≫= λ _, mret (inr (Some buf))
       else if c =? ch "\" then
         advance ≫= λ _,
         buf ← scanStringEscape buf line col;
         mret (inl buf)
       else if ((c =? 10) || (c =? 13)) && negb (quote =? ch "`") then
         errAt line col UnterminatedString []
       else advance ≫= λ r, mret (inl (buf +:+ encode_rune r)))
    (λ _, None).

Definition readString (line col : Z) : LexM Token :=
  quote ← advance;
  r ← string_body quote line col "";
  match r with
  | Some buf => tok STRING buf line col
  | None => errAt line col UnterminatedString []
  end.

(** ** Regular expressions *)

Definition regexIllegalAfter (t : TokenType) : bool :=
  match t with
  | IDENT | NUMBER | BIGINT | STRING | PRIVATE_NAME
  | TEMPLATE_NO_SUB | TEMPLATE_TAIL
  | TRUE | FALSE | NULL | UNDEFINED
  | THIS | SUPER
  | RPAREN | RBRACKET | RBRACE
  | INC | DEC => true
  | _ => false
  end.

Definition regexAllowed (l : Lexer) : bool := negb (regexIllegalAfter (lastSig l)).

Definition regex_flag_letters : list rune := runes_of "dgimsuvy".

Fixpoint valid_flags (seen : list rune) (cs : list rune) : bool :=
  match cs with
  | [] => true
  | c :: cs =>
      if negb (bool_decide (c ∈ regex_flag_letters)) || bool_decide (c ∈ seen) then false
      else valid_flags (c :: seen) cs
  end.
Definition validRegexFlags (fs : string) : bool := valid_flags [] (runes_of fs).

(** The pattern, from after the opening slash to past the closing one. *)
Definition regex_pattern (line col : Z) : LexM string :=
  l ← get;
  loop (fuel l)
    (λ '(pattern, inClass),
       m ← more;
       c ← peek;
       if negb m || (c =? 10) then errAt line col UnterminatedRegExp []
       else if c =? ch "\" then
         r ← advance;
         let pattern := pattern +:+ encode_rune r in
         m ← more;
         c ← peek;
         if negb m || (c =? 10) then errAt line col UnterminatedRegExp []
         else advance ≫= λ r, mret (inl (pattern +:+ encode_rune r, inClass))
       else if c =? ch "[" then advance ≫= λ r, mret (inl (pattern +:+ encode_rune r, true))
       else if c =? ch "]" then advance ≫= λ r, mret (inl (pattern +:+ encode_rune r, false))
       else if (c =? ch "/") && negb inClass then advance ≫= λ _, mret (inr pattern)
       else advance ≫= λ r, mret (inl (pattern +:+ encode_rune r, inClass)))
    (""%string, false).

Definition regex_flags : string → LexM string :=
  scanning
    (λ flags, c ← peek;
              if IsLetter c then advance ≫= λ r, mret (inl (flags +:+ encode_rune r))
              else mret (inr flags))
    id.

Definition readRegex (line col : Z) : LexM Token :=
  advance ≫= λ _,
  pattern ← regex_pattern line col;
  fs ← regex_flags "";
  if (bool_decide (ch "u" ∈ runes_of fs) && bool_decide (ch "v" ∈ runes_of fs))
     || negb (validRegexFlags fs)
  then errAt line col RegexFlagsMsg []
  else t ← tok REGEX pattern line col; mret (with_RegexFlags t fs).

(** ** Identifiers *)

Definition isIdentPart (c : rune) : bool :=
  IsLetter c || IsDigit c || (c =? ch "_") || (c =? ch "$").
Definition isIdentStart (c : rune) : bool := IsLetter c || (c =? ch "_") || (c =? ch "$").

(** The loop [readIdent] and [readPrivateName] share. *)
Definition readIdentParts (buf : string) : LexM string :=
  scanning
    (λ buf, c ← peek;
            if isIdentPart c then advance ≫= λ r, mret (inl (buf +:+ encode_rune r))
            else mret (inr buf))
    id buf.

Definition readIdent (line col : Z) : LexM Token :=
  lit ← readIdentParts "";
  tok (LookupIdent lit) lit line col.

Definition readPrivateName (line col : Z) : LexM Token :=
  r ← advance;
  buf ← readIdentParts (encode_rune r);
  tok PRIVATE_NAME buf line col.

(** ** Templates *)

(** [strings.ReplaceAll] of CR LF, then of CR, by LF. *)
Fixpoint replace_crlf (s : string) : string :=
  match s with
  | EmptyString => s
  | String a s0 =>
      match s0 with
      | EmptyString => s
      | String b s' =>
          if is_byte 13 a && is_byte 10 b then String b (replace_crlf s')
          else String a (replace_crlf s0)
      end
  end.
Fixpoint replace_cr (s : string) : string :=
  match s with
  | EmptyString => ""
  | String a s => String (if is_byte 13 a then byte_of 10 else a) (replace_cr s)
  end.
Definition normalizeLineTerminators (s : string) : string :=
  match index_of (is_byte 13) s with
  | None => s
  | Some _ => replace_cr (replace_crlf s)
  end.

(** [string(l.src[from:l.pos])]. *)
Definition src_slice (from to : nat) (l : Lexer) : string :=
  encode (take (to - from) (drop from (src l))).

(** Cooked text, raw text, and whether the backtick ended the segment;
    [None] when the input ends first. *)
Definition template_body (rawStart : nat) : string → LexM (option (string * string * bool)) :=
  scanning
    (λ buf,
       c ← peek;
       n ← peekAt 1;
       if c =? ch "`" then
         l ← get;
         advance ≫= λ _,
         mret (inr (Some (buf, normalizeLineTerminators (src_slice rawStart (pos l) l), true)))
       else if (c =? ch "$") && (n =? ch "{") then
         l ← get;
         advance ≫= λ _, advance ≫= λ _,
         mret (inr (Some (buf, normalizeLineTerminators (src_slice rawStart (pos l) l), false)))
       else if c =? ch "\" then
         advance ≫= λ _,
         l ← get;
         buf ← scanStringEscape buf (line l) (col l);
         mret (inl buf)
       else if c =? 13 then
         advance ≫= λ _,
         m ← more;
         c ← peek;
         (if m && (c =? 10) then advance ≫= λ _, mret tt else mret tt) ≫= λ _,
         mret (inl (buf +:+ str_byte 10))
       else advance ≫= λ r, mret (inl (buf +:+ encode_rune r)))
    (λ _, None).

Definition readTemplateSegment : LexM (string * string * bool) :=
  rawStart ← gets pos;
  r ← template_body rawStart "";
  match r with
  | Some seg => mret seg
  | None => errAt 0 0 UnterminatedTemplate []
  end.

(** What [readTemplateHead] and [readTemplatePart] do with a segment. *)
Definition template_token (whole open : TokenType) (line col : Z) : LexM Token :=
  '(seg, raw, atEnd) ← readTemplateSegment;
  if (atEnd : bool) then t ← tok whole seg line col; mret (with_Raw t raw)
  else
    modify (λ l, set_stack (0 :: templateStack l) l) ≫= λ _,
    t ← tok open seg line col; mret (with_Raw t raw).

Definition readTemplateHead (line col : Z) : LexM Token :=
  advance ≫= λ _, template_token TEMPLATE_NO_SUB TEMPLATE_HEAD line col.

Definition readTemplatePart (line col : Z) : LexM Token :=
  template_token TEMPLATE_TAIL TEMPLATE_MIDDLE line col.

(** ** Punctuators *)

(** A punctuator's token, with the runes of it already consumed. *)
Definition punct (t : TokenType) (lit : string) (line col : Z) : LexM Token := tok t lit line col.

(** If the next rune is [c], consume it and go on with [k], else [e]. *)
Definition eat {A} (c : rune) (k e : LexM A) : LexM A :=
  p ← peek; if p =? c then advance ≫= λ _, k else e.

(** The operator arms of [nextToken]'s switch; [None] for another rune. *)
Definition operator (c : rune) (line col : Z) : option (LexM Token) :=
  let tk t lit := punct t lit line col in
  if c =? ch "+" then Some
    (eat (ch "+") (tk INC "++") (eat (ch "=") (tk PLUS_ASSIGN "+=") (tk PLUS "+")))
  else if c =? ch "-" then Some
    (eat (ch "-") (tk DEC "--") (eat (ch "=") (tk MINUS_ASSIGN "-=") (tk MINUS "-")))
  else if c =? ch "*" then Some
    (eat (ch "*") (eat (ch "=") (tk POW_ASSIGN "**=") (tk POW "**"))
       (eat (ch "=") (tk STAR_ASSIGN "*=") (tk STAR "*")))
  else if c =? ch "/" then Some (eat (ch "=") (tk SLASH_ASSIGN "/=") (tk SLASH "/"))
  else if c =? ch "%" then Some (eat (ch "=") (tk PERCENT_ASSIGN "%=") (tk PERCENT "%"))
  else if c =? ch "=" then Some
    (eat (ch "=") (eat (ch "=") (tk STRICT_EQ "===") (tk EQ "=="))
       (eat (ch ">") (tk ARROW "=>") (tk ASSIGN "=")))
  else if c =? ch "!" then Some
    (eat (ch "=") (eat (ch "=") (tk STRICT_NEQ "!==") (tk NEQ "!=")) (tk NOT "!"))
  else if c =? ch "<" then Some
    (eat (ch "<") (eat (ch "=") (tk LSHIFT_ASSIGN "<<=") (tk LSHIFT "<<"))
       (eat (ch "=") (tk LTE "<=") (tk LT "<")))
  else if c =? ch ">" then Some
    (m ← gets mode;
     if negb (bool_decide (m = ScanGlueGreater)) then tk GT ">"
     else
       eat (ch ">")
         (eat (ch ">")
            (eat (ch "=") (tk URSHIFT_ASSIGN ">>>=") (tk URSHIFT ">>>"))
            (eat (ch "=") (tk RSHIFT_ASSIGN ">>=") (tk RSHIFT ">>")))
         (eat (ch "=") (tk GTE ">=") (tk GT ">")))
  else if c =? ch "&" then Some
    (eat (ch "&") (eat (ch "=") (tk LOGICAL_AND_ASSIGN "&&=") (tk AND "&&"))
       (eat (ch "=") (tk AND_ASSIGN "&=") (tk BITAND "&")))
  else if c =? ch "|" then Some
    (eat (ch "|") (eat (ch "=") (tk LOGICAL_OR_ASSIGN "||=") (tk OR "||"))
       (eat (ch "=") (tk OR_ASSIGN "|=") (tk BITOR "|")))
  else if c =? ch "^" then Some (eat (ch "=") (tk XOR_ASSIGN "^=") (tk BITXOR "^"))
  else if c =? ch "~" then Some (tk BITNOT "~")
  else None.

(** The arms for brackets, separators and the rest. *)
Definition separator (c : rune) (line col : Z) : option (LexM Token) :=
  let tk t lit := punct t lit line col in
  if c =? ch "(" then Some (tk LPAREN "(")
  else if c =? ch ")" then Some (tk RPAREN ")")
  else if c =? ch "{" then Some
    (modify (λ l, match templateStack l with
                  | top :: rest => set_stack (top + 1 :: rest) l
                  | [] => l
                  end) ≫= λ _,
     tk LBRACE "{")
  else if c =? ch "}" then Some
    (ts ← gets templateStack;
     match ts with
     | top :: rest =>
         if top =? 0 then modify (set_stack rest) ≫= λ _, readTemplatePart line col
         else modify (set_stack (top - 1 :: rest)) ≫= λ _, tk RBRACE "}"
     | [] => tk RBRACE "}"
     end)
  else if c =? ch "[" then Some (tk LBRACKET "[")
  else if c =? ch "]" then Some (tk RBRACKET "]")
  else if c =? ch ";" then Some (tk SEMICOLON ";")
  else if c =? ch ":" then Some (tk COLON ":")
  else if c =? ch "," then Some (tk COMMA ",")
  else if c =? ch "." then Some
    (p0 ← peek;
     p1 ← peekAt 1;
     if (p0 =? ch ".") && (p1 =? ch ".")
     then advance ≫= λ _, advance ≫= λ _, tk ELLIPSIS "..."
     else tk DOT ".")
  else if c =? ch "?" then Some
    (eat (ch "?") (eat (ch "=") (tk NULLISH_ASSIGN "??=") (tk NULLISH "??"))
       (eat (ch ".") (tk OPTIONAL_DOT "?.") (tk QUESTION "?")))
  else if c =? ch "@" then Some (tk AT "@")
  else None.

(** ** The next token *)

(** A line comment: up to the line feed. *)
Definition line_comment : LexM unit :=
  scanning (λ _, c ← peek;
                 if negb (c =? 10) then advance ≫= λ _, mret (inl tt) else mret (inr tt))
    (λ _, tt) tt.

(** The text of a block comment, up to and past its end. *)
Definition comment_body : string → LexM string :=
  scanning
    (λ buf,
       c ← peek;
       n ← peekAt 1;
       if (c =? ch "*") && (n =? ch "/") then
         advance ≫= λ _, advance ≫= λ _, mret (inr buf)
       else advance ≫= λ r, mret (inl (buf +:+ encode_rune r)))
    id.

(** Record a doc comment. *)
Definition save_doc (buf : string) : LexM unit :=
  let doc := trim_space buf in
  l ← get;
  o ← index (offs l) (startPos l);
  modify (λ l, set_Docs (<[o := doc]> (Docs l)) (set_doc doc l)).

(** A block comment, whose text is kept when it is a doc comment. *)
Definition block_comment : LexM unit :=
  advance ≫= λ _, advance ≫= λ _,
  c ← peek;
  let isJSDoc := c =? ch "*" in
  (if isJSDoc then advance ≫= λ _, mret tt else mret tt) ≫= λ _,
  buf ← comment_body "";
  if isJSDoc then save_doc buf else mret tt.

(** [nextToken] past whitespace and comments: the rune at [pos] starts the token. *)
Definition readToken : LexM Token :=
  l ← get;
  let line := line l in
  let col := col l in
  let c := peek_of l in
  let n := peekAt_of 1 l in
  if (c =? ch "/") && (bool_decide (mode l = ScanRegex)
                       || (bool_decide (mode l = ScanDefault) && regexAllowed l))
  then readRegex line col
  else if IsDigit c || ((c =? ch ".") && IsDigit n) then readNumber line col
  else if c =? ch "`" then readTemplateHead line col
  else if (c =? 0x22) || (c =? ch "'") then readString line col
  else if isIdentStart c then readIdent line col
  else if (c =? ch "#") && isIdentStart n then readPrivateName line col
  else
    advance ≫= λ _,
    match operator c line col with
    | Some k => k
    | None =>
        match separator c line col with
        | Some k => k
        | None => errAt line col UnexpectedCharacter [FRune c]
        end
    end.

Fixpoint nextToken (n : nat) : LexM Token :=
  match n with
  | O => λ l, (OutOfFuel, l)
  | S n =>
      skipWhitespace ≫= λ _,
      modify (λ l, set_start (pos l) (sawNL l) l) ≫= λ _,
      m ← more;
      l ← get;
      if negb m then tok EOF "" (line l) (col l)
      else if (peek_of l =? ch "/") && (peekAt_of 1 l =? ch "/") then
        line_comment ≫= λ _, nextToken n
      else if (peek_of l =? ch "/") && (peekAt_of 1 l =? ch "*") then
        block_comment ≫= λ _, nextToken n
      else readToken
  end.

Definition NextToken : LexM Token :=
  modify (set_sawNL false) ≫= λ _,
  l ← get;
  t ← nextToken (fuel l);
  modify (set_lastSig (Type_ t)) ≫= λ _,
  mret t.

(** [Scan]: an error becomes an ILLEGAL token. *)
Definition Scan (m : ScanMode) : LexM Token := λ l,
  match NextToken (set_mode m l) with
  | (Ok t, l) => (Ok t, set_mode ScanDefault l)
  | (Err e, l) =>
      let l := set_mode ScanDefault l in
      (a ← index (offs l) (startPos l);
       b ← index (offs l) (pos l);
       mret (mkToken ILLEGAL (Diagnostic_Error e) "" "" (line l) (col l) a b 0 "" (Some e))) l
  | (Panic, l) => (Panic, l)
  | (OutOfFuel, l) => (OutOfFuel, l)
  end.

(** The driver the parser is: scan until EOF or an ILLEGAL token. *)
Fixpoint scanAll (n : nat) (m : ScanMode) : LexM (list Token) :=
  match n with
  | O => λ l, (OutOfFuel, l)
  | S n =>
      t ← Scan m;
      if tok_eqb (Type_ t) EOF || tok_eqb (Type_ t) ILLEGAL then mret [t]
      else ts ← scanAll n m; mret (t :: ts)
  end.
End scanner.

(** ** Sample runs, on the ASCII tables *)
Definition tokens_of (s : string) : list (TokenType * string) :=
  match scanAll (U := ascii_unicode) 100 ScanDefault (New s) with
  | (Ok ts, _) => map (λ t, (Type_ t, Literal t)) ts
  | _ => []
  end.

Example tokens_ex1 : tokens_of "let x1 = 0x1_f + 1.5e-3;" =
  [(LET, "let"); (IDENT, "x1"); (ASSIGN, "="); (NUMBER, "0x1f"); (PLUS, "+");
   (NUMBER, "1.5e-3"); (SEMICOLON, ";"); (EOF, "")]%string.
Proof. vm_compute. reflexivity. Qed.

Example tokens_ex2 : tokens_of "`a${ {b} }c` / /x[/]y/gi" =
  [(TEMPLATE_HEAD, "a"); (LBRACE, "{"); (IDENT, "b"); (RBRACE, "}"); (TEMPLATE_TAIL, "c");
   (SLASH, "/"); (REGEX, "x[/]y"); (EOF, "")]%string.
Proof. vm_compute. reflexivity. Qed.
