(* ===== verification/LexerFacts.v ===== *)
(** * The scanner's invariant

    [wf] is the well-formedness of a scanner state and [ev] how a state may
    evolve while one token is read; every method of Lexer is shown to stay
    within them, to terminate within its fuel and never to index out of
    range.  LexerProps states the properties that follow. *)

From S2P Require Import Prelude GoString Diag Token Lexer.
From Stdlib Require Import Ascii.
Open Scope Z_scope.

(** ** Line and column of a rune index *)

Definition lc_step (p : Z * Z) (c : rune) : Z * Z :=
  if c =? 10 then (p.1 + 1, 1) else (p.1, p.2 + 1).
Definition linecol (rs : list rune) : Z * Z := foldl lc_step (1, 1) rs.
(** The line and column of the rune at index [i]. *)
Definition linecol_at (rs : list rune) (i : nat) : Z * Z := linecol (take i rs).

Arguments linecol_at : simpl never.

Lemma linecol_snoc rs c : linecol (rs ++ [c]) = lc_step (linecol rs) c.
Proof. unfold linecol. by rewrite foldl_app. Qed.

Lemma linecol_at_S rs i c : rs !! i = Some c → linecol_at rs (S i) = lc_step (linecol_at rs i) c.
Proof. intros H. unfold linecol_at. rewrite (take_S_r _ _ _ H). apply linecol_snoc. Qed.

(** A line terminator between two rune indices. *)
Definition has_lt (rs : list rune) (i j : nat) : bool :=
  existsb isLineTerminator (take (j - i) (drop i rs)).

Arguments has_lt : simpl never.

Lemma has_lt_refl rs i : has_lt rs i i = false.
Proof. unfold has_lt. by rewrite Nat.sub_diag. Qed.

Lemma has_lt_S rs i c : rs !! i = Some c → has_lt rs i (S i) = isLineTerminator c.
Proof.
  intros H. unfold has_lt. replace (S i - i)%nat with 1%nat by lia.
  rewrite (drop_S _ c) by done. cbn. by rewrite orb_false_r.
Qed.

Lemma has_lt_trans rs i j k :
  (i ≤ j ≤ k)%nat → has_lt rs i k = has_lt rs i j || has_lt rs j k.
Proof.
  intros. unfold has_lt. replace (k - i)%nat with ((j - i) + (k - j))%nat by lia.
  rewrite <- take_take_drop, existsb_app, drop_drop. do 3 f_equal. f_equal; lia.
Qed.

(** ** Well-formed states *)

Record wf (l : Lexer) : Prop := {
  wf_offs : length (offs l) = S (length (src l));
  wf_sorted : StronglySorted lt (offs l);
  wf_pos : (pos l ≤ length (src l))%nat;
  wf_start : (startPos l ≤ pos l)%nat;
  wf_lc : (line l, col l) = linecol_at (src l) (pos l);
  wf_stack : Forall (λ d, 0 ≤ d) (templateStack l) }.

Record ev (l l' : Lexer) : Prop := {
  ev_wf : wf l';
  ev_src : src l' = src l;
  ev_offs : offs l' = offs l;
  ev_mode : mode l' = mode l;
  ev_startPos : startPos l' = startPos l;
  ev_startNL : startNL l' = startNL l;
  ev_lastSig : lastSig l' = lastSig l;
  ev_pos : (pos l ≤ pos l')%nat;
  ev_sawNL : sawNL l' = sawNL l || has_lt (src l) (pos l) (pos l') }.

#[export] Hint Resolve wf_offs wf_sorted wf_pos wf_start wf_lc wf_stack ev_wf ev_pos : klain.

Lemma ev_refl l : wf l → ev l l.
Proof. constructor; try done. by rewrite has_lt_refl, orb_false_r. Qed.

Lemma ev_trans l1 l2 l3 : ev l1 l2 → ev l2 l3 → ev l1 l3.
Proof.
  intros [? Hs ? ? ? ? ? ? Hn] [? ? ? ? ? ? ? ? Hn']. constructor; [done|congruence..|lia|].
  rewrite Hn', Hn, Hs, (has_lt_trans _ (pos l1) (pos l2) (pos l3)) by lia. by rewrite orb_assoc.
Qed.

#[export] Hint Resolve ev_refl : klain.

Lemma StronglySorted_snoc (xs : list nat) n :
  StronglySorted lt xs → Forall (λ i, (i < n)%nat) xs → StronglySorted lt (xs ++ [n]).
Proof.
  induction 1 as [|x xs Hs IH Hx]; intros Hn; [repeat constructor|].
  apply Forall_cons in Hn as [Hxn Hn]. cbn. constructor; [by apply IH|].
  apply Forall_app. split; [done|by repeat constructor].
Qed.

Lemma New_wf s : wf (New s).
Proof.
  constructor; cbn; [| |lia|lia|done|constructor].
  - rewrite length_app. unfold runes_of. rewrite !length_fmap. simpl. lia.
  - apply StronglySorted_snoc; [apply range_string_sorted|].
    apply Forall_forall. intros i Hi. apply list_elem_of_fmap in Hi as ([j r] & -> & Hi).
    apply range_string_bounds in Hi. simpl. lia.
Qed.

Lemma wf_offs_lookup l i : wf l → (i ≤ length (src l))%nat → ∃ o, offs l !! i = Some o.
Proof. intros H Hi. apply lookup_lt_is_Some. rewrite (wf_offs _ H). lia. Qed.

(** ** Moving *)

Lemma past_wf l c : wf l → src l !! pos l = Some c → wf (past c l).
Proof.
  intros H Hc. constructor; cbn; try apply H.
  - apply lookup_lt_Some in Hc. lia.
  - pose proof (wf_start _ H). lia.
  - rewrite (linecol_at_S _ _ c Hc), <- (wf_lc _ H). unfold lc_step. by destruct (c =? 10).
Qed.

Lemma step_ev l : wf l → ev l (step l).
Proof.
  intros H. unfold step. destruct (src l !! pos l) as [c|] eqn:Hc; [|by apply ev_refl].
  constructor; cbn; try done; [by apply past_wf|lia|].
  rewrite (has_lt_S _ _ c) by done. apply orb_comm.
Qed.

Lemma step_pos l : (pos l < length (src l))%nat → pos (step l) = S (pos l).
Proof. intros H. unfold step. apply lookup_lt_is_Some in H as [c ->]. done. Qed.

Lemma set_stack_ev l ts : wf l → Forall (λ d, 0 ≤ d) ts → ev l (set_stack ts l).
Proof. intros [] Hts. constructor; [constructor| ..]; cbn; try done. by rewrite has_lt_refl, orb_false_r. Qed.

Lemma set_doc_ev l d : wf l → ev l (set_doc d l).
Proof. intros []. constructor; [constructor| ..]; cbn; try done. by rewrite has_lt_refl, orb_false_r. Qed.

Lemma set_Docs_ev l d : wf l → ev l (set_Docs d l).
Proof. intros []. constructor; [constructor| ..]; cbn; try done. by rewrite has_lt_refl, orb_false_r. Qed.

Section facts.
Context `{U : Unicode}.

(** [good m]: from any well-formed state [m] finishes, in an evolution of it. *)
Definition good {A} (m : LexM A) : Prop :=
  ∀ l, wf l → wp m (λ _ l', ev l l') (λ _ l', ev l l') l.

(** Symbolic execution steps relative to a starting state [l0]. *)
Lemma use_good {A} (m : LexM A) l0 l (Q : A → Lexer → Prop) X :
  good m → ev l0 l →
  (∀ a l', ev l0 l' → (pos l ≤ pos l')%nat → Q a l') → (∀ e l', ev l0 l' → X e l') →
  wp m Q X l.
Proof.
  intros Hm He HQ HX. eapply wp_mono; [apply Hm, He| |]; cbv beta.
  - intros a l' He'. apply HQ; [by eapply ev_trans|apply He'].
  - intros e l' He'. apply HX. by eapply ev_trans.
Qed.

Lemma wp_advance l0 l (Q : rune → Lexer → Prop) X :
  ev l0 l →
  (∀ l', ev l0 l' → l' = step l → (pos l ≤ pos l')%nat →
     ((pos l < length (src l))%nat → pos l' = S (pos l)) → Q (peek_of l) l') →
  wp advance Q X l.
Proof.
  intros He HQ. unfold wp, advance. pose proof (step_ev l (ev_wf _ _ He)) as Hs.
  apply HQ; [by eapply ev_trans|done|apply Hs|apply step_pos].
Qed.

Lemma wp_errAt {A} l0 l line col m args (Q : A → Lexer → Prop) X :
  ev l0 l → (∀ e, X e l) → wp (errAt line col m args) Q X l.
Proof.
  intros He HX. unfold errAt.
  destruct (wf_offs_lookup l (startPos l)) as [a Ha];
    [apply He|pose proof (wf_start _ (ev_wf _ _ He)); pose proof (wf_pos _ (ev_wf _ _ He)); lia|].
  destruct (wf_offs_lookup l (pos l)) as [b Hb]; [apply He|apply He|].
  wp_steps. eapply wp_index; [done|]. wp_steps. eapply wp_index; [done|]. wp_steps. apply HX.
Qed.

(** A [scanning] loop whose body moves forward whenever it goes round. *)
Lemma wp_scanning {L B} (I : L → Lexer → Prop) (body : L → LexM (L + B)) done Q X :
  (∀ x l, I x l → (pos l < length (src l))%nat →
     wp (body x) (λ r l', match r with
                          | inl x' => I x' l' ∧ src l' = src l ∧ (pos l < pos l')%nat
                                      ∧ (pos l' ≤ length (src l))%nat
                          | inr b => Q b l'
                          end) X l) →
  (∀ x l, I x l → (length (src l) ≤ pos l)%nat → Q (done x) l) →
  ∀ x l, I x l → wp (scanning body done x) Q X l.
Proof.
  intros Hbody Hdone x l HI. unfold scanning. wp_steps. unfold fuel.
  apply (wp_loop I (λ l, length (src l) - pos l)%nat); [|done|lia].
  clear x l HI. intros x l HI. wp_steps. unfold more. wp_steps.
  destruct (Nat.ltb_spec (pos l) (length (src l))) as [Hlt|Hge].
  - eapply wp_mono; [by apply Hbody| |done]. intros [x'|b] l'; [|done].
    intros (? & Hsrc & ? & ?). split; [done|]. rewrite Hsrc. lia.
  - wp_steps. by apply Hdone.
Qed.

(** The same rule relative to the state [l0] the loop starts in. *)
Lemma wp_scanning_ev {L B} (I : L → Lexer → Prop) (body : L → LexM (L + B)) done Q X l0 x :
  wf l0 → I x l0 →
  (∀ x l, ev l0 l → I x l → (pos l < length (src l))%nat →
     wp (body x) (λ r l', match r with
                          | inl x' => ev l0 l' ∧ I x' l' ∧ (pos l < pos l')%nat
                          | inr b => Q b l'
                          end) X l) →
  (∀ x l, ev l0 l → I x l → (length (src l) ≤ pos l)%nat → Q (done x) l) →
  wp (scanning body done x) Q X l0.
Proof.
  intros Hwf HI Hbody Hdone.
  apply (wp_scanning (λ x l, ev l0 l ∧ I x l)); [|intros ?? [? ?]; by apply Hdone|by split; [apply ev_refl|]].
  intros x' l [He HIl] Hlt. eapply wp_mono; [by apply Hbody| |done].
  intros [x''|b] l'; [|done]. intros (He' & ? & ?).
  assert (src l' = src l) as Hsrc by (by rewrite (ev_src _ _ He'), (ev_src _ _ He)).
  split; [by split|]. split; [done|]. split; [done|].
  rewrite <- Hsrc. apply wf_pos, He'.
Qed.

(** The same loop when nothing is claimed about the loop variables. *)
Lemma good_scanning {L B} (body : L → LexM (L + B)) done x :
  (∀ x l, wf l → (pos l < length (src l))%nat →
     wp (body x) (λ r l', ev l l' ∧ match r with
                                    | inl _ => (pos l < pos l')%nat
                                    | inr _ => True
                                    end) (λ _ l', ev l l') l) →
  good (scanning body done x).
Proof.
  intros Hbody l0 Hwf.
  apply (wp_scanning (λ _ l, ev l0 l)); [|done|by apply ev_refl].
  intros x' l He Hlt. eapply wp_mono; [apply Hbody; [apply He|done]| |]; cbv beta.
  - intros [x''|b] l' [He' Hp]; [|by eapply ev_trans].
    split_and!; [by eapply ev_trans|apply He'|done|].
    rewrite <- (ev_src _ _ He'). apply He'.
  - intros e l' He'. by eapply ev_trans.
Qed.
End facts.

(** [lex] executes a method symbolically from an evolution [l0] of the start
    state, splitting its tests, and leaves the final states. *)
Ltac lex_step :=
  lazymatch goal with
  | |- wp (if ?b then _ else _) _ _ _ => destruct b eqn:?
  | |- wp (let '(_, _) := ?p in _) _ _ _ => destruct p
  | |- wp (match ?o with Some _ => _ | None => _ end) _ _ _ => destruct o eqn:?
  | |- wp peek _ _ _ => unfold peek; apply wp_gets
  | |- wp (peekAt _) _ _ _ => unfold peekAt; apply wp_gets
  | |- wp more _ _ _ => unfold more; apply wp_gets
  | |- wp advance _ _ ?l =>
      match goal with He : ev ?l0 l |- _ =>
        apply (wp_advance l0 l _ _ He); let l' := fresh "l" in intros l' ? ? ? ? end
  | |- wp (errAt _ _ _ _) _ _ ?l =>
      match goal with He : ev ?l0 l |- _ => apply (wp_errAt l0 l); [exact He|intros ?] end
  | |- _ => wp_step
  end; cbv beta iota zeta.

Ltac lex_done :=
  repeat match goal with |- _ ∧ _ => split end;
  solve [assumption | exact I | lia | eauto 3 with klain].

Ltac lex_use H :=
  match goal with
  | He : ev ?l0 ?l |- wp _ _ _ ?l => apply (use_good _ l0 l _ _ H He); [intros ? ? ? ?|intros ? ? ?]
  end.

(** Call a method whose goodness is a hint of database [klain]. *)
Ltac lex_call :=
  match goal with
  | He : ev ?l0 ?l |- wp _ _ _ ?l =>
      eapply (use_good _ l0 l); [solve [auto with klain nocore]|exact He|intros ? ? ? ?|intros ? ? ?];
      cbv beta iota
  end.

Ltac lex := repeat (first [lex_step | lex_call]); try lex_done.
Ltac lex_good :=
  unfold good; intros;
  match goal with H : wf ?l |- _ => pose proof (ev_refl l H) end; lex.

Section good.
Context `{U : Unicode}.

Lemma good_ret {A} (a : A) : good (mret a).
Proof. lex_good. Qed.

Lemma good_errAt {A} line col m args : good (errAt (A := A) line col m args).
Proof. lex_good. Qed.

Lemma good_skipWhitespace : good skipWhitespace.
Proof. apply good_scanning. intros []. lex_good. Qed.

Lemma good_line_comment : good line_comment.
Proof. apply good_scanning. intros []. lex_good. Qed.

Lemma good_readDigitRun buf isDigit line col : good (readDigitRun buf isDigit line col).
Proof. apply good_scanning. intros [??]. lex_good. Qed.

Lemma good_readDecimal leg line col : good (readDecimal leg line col).
Proof. apply good_scanning. intros [[??]?]. lex_good. Qed.

#[local] Hint Resolve good_readDigitRun good_readDecimal good_skipWhitespace good_line_comment : klain.

Lemma good_readExponent buf line col : good (readExponent buf line col).
Proof. unfold readExponent. lex_good. Qed.

Lemma good_readHexEscape_from n val : good (readHexEscape_from n val).
Proof. revert val. induction n as [|n IH]; intros val; cbn [readHexEscape_from]; lex_good. Qed.

Lemma good_readHexEscape n : good (readHexEscape n).
Proof. apply good_readHexEscape_from. Qed.

Lemma good_octal_more n val : good (octal_more n val).
Proof. revert val. induction n as [|n IH]; intros val; cbn [octal_more]; lex_good. Qed.

Lemma good_braced_digits line col : good (braced_digits line col).
Proof. apply good_scanning. intros [??]. lex_good. Qed.

#[local] Hint Resolve good_readExponent good_readHexEscape good_octal_more good_braced_digits : klain.

Lemma good_unicode_braced line col : good (unicode_braced line col).
Proof. unfold unicode_braced. lex_good. Qed.

#[local] Hint Resolve good_unicode_braced : klain.

Lemma good_scanStringEscape buf line col : good (scanStringEscape buf line col).
Proof. unfold scanStringEscape. lex_good. Qed.

End good.

#[export] Hint Resolve good_readDigitRun good_readDecimal good_skipWhitespace good_line_comment
  good_readExponent good_readHexEscape good_octal_more good_braced_digits good_unicode_braced
  good_scanStringEscape : klain.

(** ** Methods that return a token *)

(** What the position fields of a token mean in the state it was read in. *)
Record tok_at (ln cl : Z) (t : Token) (l : Lexer) : Prop := {
  at_line : TLine t = ln;
  at_col : TCol t = cl;
  at_pos : offs l !! startPos l = Some (TPos t);
  at_end : offs l !! pos l = Some (TEnd t);
  at_flags : Flags t = if startNL l then PrecedingLineBreak else 0;
  at_err : TErr t = None;
  at_type : Type_ t ≠ ILLEGAL }.

Definition lit_type (t : TokenType) : Prop := t ≠ ILLEGAL ∧ t ≠ EOF.

Lemma LookupIdent_type s : lit_type (LookupIdent s).
Proof.
  unfold LookupIdent. destruct (keywords_map !! s) as [t|] eqn:H; [|by split].
  apply elem_of_list_to_map_2, (list_elem_of_fmap_2 snd) in H. revert H.
  cbn [snd]. intros H. revert t H. apply Forall_forall.
  repeat (constructor; [by split|]). constructor.
Qed.

Section tokens.
Context `{U : Unicode}.

Definition tgood (ln cl : Z) (m : LexM Token) : Prop :=
  ∀ l, wf l →
    wp m (λ t l', ev l l' ∧ tok_at ln cl t l' ∧ lit_type (Type_ t)) (λ _ l', ev l l') l.

Lemma use_tgood ln cl m l0 l (Q : Token → Lexer → Prop) X :
  tgood ln cl m → ev l0 l →
  (∀ t l', ev l0 l' → (pos l ≤ pos l')%nat → tok_at ln cl t l' → lit_type (Type_ t) → Q t l') →
  (∀ e l', ev l0 l' → X e l') →
  wp m Q X l.
Proof.
  intros Hm He HQ HX. eapply wp_mono; [apply Hm, He| |]; cbv beta.
  - intros t l' (He' & Ht & Hl). apply HQ; [by eapply ev_trans|apply He'|done|done].
  - intros e l' He'. apply HX. by eapply ev_trans.
Qed.

Lemma wp_tok l0 l typ lit ln cl (Q : Token → Lexer → Prop) X :
  ev l0 l → typ ≠ ILLEGAL →
  (∀ t l', ev l0 l' → pos l' = pos l → tok_at ln cl t l' → Type_ t = typ → Literal t = lit →
     Q t l') →
  wp (tok typ lit ln cl) Q X l.
Proof.
  intros He Hty HQ. pose proof (ev_wf _ _ He) as Hwf. unfold tok.
  destruct (wf_offs_lookup l (startPos l)) as [a Ha];
    [done|pose proof (wf_start _ Hwf); pose proof (wf_pos _ Hwf); lia|].
  destruct (wf_offs_lookup l (pos l)) as [b Hb]; [done|apply Hwf|].
  wp_steps. eapply wp_index; [done|]. wp_steps. eapply wp_index; [done|]. wp_steps.
  apply HQ; try done. eapply ev_trans; [done|by apply set_doc_ev].
Qed.

Lemma tok_at_Raw ln cl t l raw : tok_at ln cl t l → tok_at ln cl (with_Raw t raw) l.
Proof. intros []. by constructor. Qed.
Lemma tok_at_flags ln cl t l fs : tok_at ln cl t l → tok_at ln cl (with_RegexFlags t fs) l.
Proof. intros []. by constructor. Qed.
End tokens.

#[export] Hint Resolve LookupIdent_type tok_at_Raw tok_at_flags : klain.

Ltac lit_type_tac :=
  repeat match goal with H : Type_ _ = _ |- _ => rewrite H end;
  first [assumption | apply LookupIdent_type | by split].

Ltac lex_tok :=
  match goal with
  | He : ev ?l0 ?l |- wp (tok _ _ _ _) _ _ ?l =>
      apply (wp_tok l0 l); [exact He|by try apply LookupIdent_type|intros ? ? ? ? ? ? ?]; cbv beta iota
  | He : ev ?l0 ?l |- wp _ _ _ ?l =>
      eapply (use_tgood _ _ _ l0 l); [first [eassumption | solve [auto with klain nocore]]|exact He|intros ? ? ? ? ? ?|intros ? ? ?];
      cbv beta iota
  end.
Ltac lext := repeat (first [lex_step | lex_call | lex_tok]);
  repeat match goal with |- _ ∧ _ => split end;
  try first [lex_done | solve [cbn [Type_ with_Raw with_RegexFlags]; lit_type_tac]].
Ltac tgood_tac :=
  unfold tgood; intros;
  match goal with H : wf ?l |- _ => pose proof (ev_refl l H) end; lext.

Section tgood.
Context `{U : Unicode}.

Lemma tgood_readPrefixed isDigit ln cl : tgood ln cl (readPrefixed isDigit ln cl).
Proof. unfold readPrefixed. tgood_tac. Qed.

#[local] Hint Resolve tgood_readPrefixed : klain.

Lemma tgood_readNumberBody ln cl : tgood ln cl (readNumberBody ln cl).
Proof. unfold readNumberBody. tgood_tac. Qed.

#[local] Hint Resolve tgood_readNumberBody : klain.

Lemma tgood_readNumber ln cl : tgood ln cl (readNumber ln cl).
Proof. unfold readNumber. tgood_tac. Qed.

Lemma good_string_body quote ln cl x : good (string_body quote ln cl x).
Proof. apply good_scanning. intros ?. lex_good. Qed.

Lemma good_regex_pattern ln cl : good (regex_pattern ln cl).
Proof.
  intros l0 Hwf. unfold regex_pattern. wp_steps.
  apply (wp_loop (λ _ l, ev l0 l) (λ l, length (src l) - pos l)%nat);
    [|by apply ev_refl|unfold fuel; lia].
  intros [pattern inClass] l He. assert (src l = src l0) as Hsrc by apply He.
  lex; bool_cases; lazymatch goal with |- _ ∧ _ => split; [assumption|] end;
    repeat match goal with H : ev l0 ?l' |- _ => apply ev_src in H end;
    repeat match goal with H : src _ = src l0 |- _ => rewrite H in *; clear H end; lia.
Qed.

Lemma good_regex_flags x : good (regex_flags x).
Proof. apply good_scanning. intros ?. lex_good. Qed.

Lemma good_readIdentParts buf : good (readIdentParts buf).
Proof. apply good_scanning. intros ?. lex_good. Qed.

Lemma good_template_body rawStart x : good (template_body rawStart x).
Proof. apply good_scanning. intros ?. lex_good. Qed.

#[local] Hint Resolve good_string_body good_regex_pattern good_regex_flags good_readIdentParts
  good_template_body tgood_readNumber : klain.

Lemma tgood_readString ln cl : tgood ln cl (readString ln cl).
Proof. unfold readString. tgood_tac. Qed.

Lemma tgood_readRegex ln cl : tgood ln cl (readRegex ln cl).
Proof. unfold readRegex. tgood_tac. Qed.

Lemma tgood_readIdent ln cl : tgood ln cl (readIdent ln cl).
Proof. unfold readIdent. tgood_tac. Qed.

Lemma tgood_readPrivateName ln cl : tgood ln cl (readPrivateName ln cl).
Proof. unfold readPrivateName. tgood_tac. Qed.

Lemma good_readTemplateSegment : good readTemplateSegment.
Proof. unfold readTemplateSegment. lex_good. Qed.
End tgood.

#[export] Hint Resolve good_string_body good_regex_pattern good_regex_flags good_readIdentParts
  good_template_body good_readTemplateSegment tgood_readNumber tgood_readString tgood_readRegex
  tgood_readIdent tgood_readPrivateName : klain.

(** ** Punctuators and templates *)

Section punct.
Context `{U : Unicode}.

Lemma ev_push l0 l : ev l0 l → ev l0 (set_stack (0 :: templateStack l) l).
Proof.
  intros He. eapply ev_trans; [done|]. apply set_stack_ev; [apply He|].
  constructor; [lia|by eapply wf_stack, ev_wf].
Qed.

Lemma tgood_template_token whole open ln cl :
  lit_type whole → lit_type open → tgood ln cl (template_token whole open ln cl).
Proof.
  intros [Hw1 Hw2] [Ho1 Ho2] l0 Hwf. pose proof (ev_refl l0 Hwf). unfold template_token. wp_steps.
  lex_call; [|assumption]. destruct a as [[seg raw] atEnd]. destruct atEnd.
  - wp_steps. eapply wp_tok; [eassumption|done|]. intros t l1 ? ? ? Ht ?. wp_steps. lext.
  - wp_steps. eapply wp_tok; [by apply ev_push|done|]. intros t l1 ? ? ? Ht ?. wp_steps. lext.
Qed.

Lemma tgood_readTemplatePart ln cl : tgood ln cl (readTemplatePart ln cl).
Proof. unfold readTemplatePart. apply (tgood_template_token TEMPLATE_TAIL TEMPLATE_MIDDLE); by split. Qed.

Lemma tgood_punct t lit ln cl : lit_type t → tgood ln cl (punct t lit ln cl).
Proof. intros [? ?]. unfold punct. tgood_tac. Qed.

Lemma tgood_eat c k e ln cl : tgood ln cl k → tgood ln cl e → tgood ln cl (eat c k e).
Proof. intros. unfold eat. tgood_tac. Qed.

Lemma tgood_mode k e ln cl :
  tgood ln cl k → tgood ln cl e →
  tgood ln cl (m ← gets mode; if negb (bool_decide (m = ScanGlueGreater)) then k else e).
Proof. intros. tgood_tac. Qed.

Lemma tgood_operator c ln cl k : operator c ln cl = Some k → tgood ln cl k.
Proof.
  unfold operator.
  repeat match goal with
    | |- (if ?b then _ else _) = _ → _ => destruct b; [intros [= <-]|]
    end; [..|done].
  all: repeat first [apply tgood_mode | apply tgood_eat | apply tgood_punct; by split].
Qed.

Lemma tgood_separator c ln cl k : separator c ln cl = Some k → tgood ln cl k.
Proof.
  unfold separator.
  repeat match goal with
    | |- (if ?b then _ else _) = _ → _ => destruct b; [intros [= <-]|]
    end; [..|done].
  all: try solve [repeat first [apply tgood_eat | apply tgood_punct; by split]].
  - intros l0 Hwf. pose proof (ev_refl l0 Hwf). wp_steps.
    assert (ev l0 (match templateStack l0 with
                   | top :: rest => set_stack (top + 1 :: rest) l0 | [] => l0 end)) as He.
    { pose proof (wf_stack _ Hwf) as Hs. destruct (templateStack l0) as [|top rest]; [done|].
      apply set_stack_ev; [done|]. apply Forall_cons in Hs as [? ?]. constructor; [lia|done]. }
    eapply use_tgood; [apply tgood_punct; by split|exact He|by intros|by intros].
  - intros l0 Hwf. pose proof (ev_refl l0 Hwf). pose proof (wf_stack _ Hwf) as Hs. wp_steps.
    destruct (templateStack l0) as [|top rest]; [apply tgood_punct; [by split|done]|].
    apply Forall_cons in Hs as [? ?]. destruct (top =? 0) eqn:E; wp_steps; bool_cases.
    + eapply use_tgood; [apply tgood_readTemplatePart|by apply set_stack_ev|by intros|by intros].
    + eapply use_tgood; [apply tgood_punct; by split|apply set_stack_ev; [done|]|by intros|by intros].
      constructor; [lia|done].
  - unfold punct. tgood_tac.
Qed.
End punct.

#[export] Hint Resolve tgood_readTemplatePart : klain.

(** ** Progress: a token that is read is not empty *)

Section progress.
Context `{U : Unicode}.

(** [moves m l]: from [l] the method [m] moves forward. *)
Definition moves {A} (m : LexM A) (l : Lexer) : Prop :=
  wp m (λ _ l', ev l l' ∧ (pos l < pos l')%nat) (λ _ l', ev l l') l.

Lemma moves_tgood m ln cl l :
  tgood ln cl m → moves m l → wf l →
  wp m (λ t l', ev l l' ∧ tok_at ln cl t l' ∧ lit_type (Type_ t) ∧ (pos l < pos l')%nat)
    (λ _ l', ev l l') l.
Proof.
  intros Hm Hv Hwf. eapply wp_mono; [apply (wp_and _ _ _ _ _ _ (Hm l Hwf) Hv)| |].
  - intros t l' [(?&?&?) [??]]. done.
  - by intros e l' [? _].
Qed.

Lemma moves_readIdentParts buf l :
  wf l → (pos l < length (src l))%nat → isIdentPart (peek_of l) = true →
  moves (readIdentParts buf) l.
Proof.
  intros Hwf Hlt Hid. unfold moves, readIdentParts.
  apply (wp_scanning_ev (λ _ l', l' = l ∨ (pos l < pos l')%nat)); [done|by left| |].
  - intros x l1 He Hl1 Hlt1. lex; destruct Hl1 as [->|?]; try congruence; lex_done.
  - intros x l1 He [->|?] ?; [lia|done].
Qed.

Lemma moves_readDecimal leg ln cl l :
  wf l → (pos l < length (src l))%nat →
  IsDigit (peek_of l) || (peek_of l =? ch ".") && IsDigit (peekAt_of 1 l) = true →
  moves (readDecimal leg ln cl) l.
Proof.
  intros Hwf Hlt Hd. unfold moves, readDecimal.
  apply (wp_scanning_ev (λ '(_, hasDot, _) l', (l' = l ∧ hasDot = false) ∨ (pos l < pos l')%nat));
    [done|by left| |].
  - intros [[x hasDot] lwd] l1 He Hl1 Hlt1.
    lex; destruct Hl1 as [[-> ->]|?]; try lex_done.
    exfalso. destruct (IsDigit (peek_of l)), (peek_of l =? 46), (IsDigit (peekAt_of 1 l)); done.
  - intros [[x hasDot] lwd] l1 He [[-> ?]|?] ?; [lia|done].
Qed.

#[local] Hint Resolve good_ret : klain.

Lemma moves_readNumber ln cl l :
  wf l → (pos l < length (src l))%nat →
  IsDigit (peek_of l) || (peek_of l =? ch ".") && IsDigit (peekAt_of 1 l) = true →
  moves (readNumber ln cl) l.
Proof.
  intros Hwf Hlt Hd. unfold moves, readNumber, readNumberBody. pose proof (ev_refl l Hwf).
  repeat lex_step.
  4: eapply wp_mono; [by apply moves_readDecimal| |by intros];
     cbv beta; intros [[buf hasDot] ?] l' [? ?]; lext.
  all: unfold readPrefixed; lext.
Qed.

Lemma moves_readIdent ln cl l :
  wf l → (pos l < length (src l))%nat → isIdentStart (peek_of l) = true →
  moves (readIdent ln cl) l.
Proof.
  intros Hwf Hlt Hd. unfold moves, readIdent. wp_steps.
  eapply wp_mono; [apply moves_readIdentParts; [done..|]| |by intros].
  { unfold isIdentStart, isIdentPart in *. destruct (IsLetter (peek_of l)), (IsDigit (peek_of l)); done. }
  cbv beta. intros lit l' [? ?]. lext.
Qed.

Lemma moves_readString ln cl l :
  wf l → (pos l < length (src l))%nat → moves (readString ln cl) l.
Proof. intros Hwf Hlt. pose proof (ev_refl l Hwf). unfold moves, readString. lext. Qed.

Lemma moves_readRegex ln cl l :
  wf l → (pos l < length (src l))%nat → moves (readRegex ln cl) l.
Proof. intros Hwf Hlt. pose proof (ev_refl l Hwf). unfold moves, readRegex. lext. Qed.

Lemma moves_readPrivateName ln cl l :
  wf l → (pos l < length (src l))%nat → moves (readPrivateName ln cl) l.
Proof. intros Hwf Hlt. pose proof (ev_refl l Hwf). unfold moves, readPrivateName. lext. Qed.
End progress.

(** ** Reading a token *)

Section reading.
Context `{U : Unicode}.

Lemma set_Docs_doc_ev l d m : wf l → ev l (set_Docs m (set_doc d l)).
Proof.
  intros H. eapply ev_trans; [by apply set_doc_ev|]. apply set_Docs_ev. by apply set_doc_ev.
Qed.

Lemma good_comment_body x : good (comment_body x).
Proof. apply good_scanning. intros ?. lex_good. Qed.

#[local] Hint Resolve good_comment_body : klain.

Lemma moves_block_comment l :
  wf l → (pos l < length (src l))%nat → moves block_comment l.
Proof.
  intros Hwf Hlt. unfold moves, block_comment. pose proof (ev_refl l Hwf).
  assert (∀ buf l', ev l l' → (pos l < pos l')%nat →
    wp (save_doc buf) (λ _ l', ev l l' ∧ (pos l < pos l')%nat) (λ _ l', ev l l') l') as Hdoc.
  { intros buf l' He Hp. unfold save_doc. wp_steps.
    destruct (wf_offs_lookup l' (startPos l')) as [o Ho];
      [apply He|pose proof (wf_start _ (ev_wf _ _ He)); pose proof (wf_pos _ (ev_wf _ _ He)); lia|].
    eapply wp_index; [done|]. wp_steps. split; [|done].
    eapply ev_trans; [done|]. apply set_Docs_doc_ev, He. }
  lext; apply Hdoc; [done|lia].
Qed.

Lemma moves_line_comment l :
  wf l → (pos l < length (src l))%nat → peek_of l ≠ 10 → moves line_comment l.
Proof.
  intros Hwf Hlt Hc. unfold moves, line_comment.
  apply (wp_scanning_ev (λ _ l', l' = l ∨ (pos l < pos l')%nat)); [done|by left| |].
  - intros x l1 He Hl1 Hlt1. lex; destruct Hl1 as [->|?]; lex_done.
  - intros x l1 He [->|?] ?; [lia|done].
Qed.

Lemma readToken_spec l :
  wf l → (pos l < length (src l))%nat →
  wp readToken
    (λ t l', ev l l' ∧ tok_at (line l) (col l) t l' ∧ lit_type (Type_ t) ∧ (pos l < pos l')%nat)
    (λ _ l', ev l l') l.
Proof.
  intros Hwf Hlt. pose proof (ev_refl l Hwf). unfold readToken. wp_steps.
  lex_step; [apply moves_tgood; [apply tgood_readRegex|by apply moves_readRegex|done]|].
  lex_step; [apply moves_tgood; [apply tgood_readNumber|by apply moves_readNumber|done]|].
  lex_step.
  { unfold readTemplateHead. wp_step. eapply wp_advance; [done|]. intros l' He _ _ Hp.
    specialize (Hp Hlt).
    eapply (use_tgood _ _ _ l l'); [apply tgood_template_token; by split|done| |by intros].
    intros t l'' ????. repeat match goal with |- _ ∧ _ => split end; try done; lia. }
  lex_step; [apply moves_tgood; [apply tgood_readString|by apply moves_readString|done]|].
  lex_step; [apply moves_tgood; [apply tgood_readIdent|by apply moves_readIdent|done]|].
  lex_step; [apply moves_tgood; [apply tgood_readPrivateName|by apply moves_readPrivateName|done]|].
  wp_step. eapply wp_advance; [done|]. intros l' He _ _ Hp. specialize (Hp Hlt).
  destruct (operator _ _ _) as [k|] eqn:Hk;
    [eapply use_tgood; [by eapply tgood_operator|done| |by intros]; intros t l'' ????;
     repeat match goal with |- _ ∧ _ => split end; try done; lia|].
  destruct (separator _ _ _) as [k|] eqn:Hk';
    [eapply use_tgood; [by eapply tgood_separator|done| |by intros]; intros t l'' ????;
     repeat match goal with |- _ ∧ _ => split end; try done; lia|].
  by eapply wp_errAt.
Qed.

(** What one call of the scanner does: [t] is the token of [l'] at [startPos l']. *)
Record reads (l : Lexer) (t : Token) (l' : Lexer) : Prop := {
  rd_wf : wf l';
  rd_src : src l' = src l;
  rd_offs : offs l' = offs l;
  rd_mode : mode l' = mode l;
  rd_start : (pos l ≤ startPos l')%nat;
  rd_at : tok_at (linecol_at (src l) (startPos l')).1 (linecol_at (src l) (startPos l')).2 t l';
  rd_NL : startNL l' = sawNL l || has_lt (src l) (pos l) (startPos l');
  rd_progress : Type_ t ≠ EOF → (startPos l' < pos l')%nat;
  rd_eof : Type_ t = EOF → pos l' = length (src l) }.

Record keeps (l l' : Lexer) : Prop := {
  kp_wf : wf l'; kp_src : src l' = src l; kp_offs : offs l' = offs l;
  kp_mode : mode l' = mode l; kp_pos : (pos l ≤ pos l')%nat }.

Lemma ev_keeps l l' : ev l l' → keeps l l'.
Proof. intros []. by constructor. Qed.

Lemma keeps_trans l1 l2 l3 : keeps l1 l2 → keeps l2 l3 → keeps l1 l3.
Proof. intros [] []. constructor; [done|congruence..|lia]. Qed.

Lemma reads_ev l1 l2 t l3 : ev l1 l2 → reads l2 t l3 → reads l1 t l3.
Proof.
  intros He [? Hs ? ? Hst Hat HNL ? ?]. destruct He.
  constructor; try done; try congruence; try lia.
  - by rewrite HNL, ev_sawNL0, ev_src0, (has_lt_trans _ (pos l1) (pos l2) (startPos l3)), orb_assoc by lia.
  - intros HE. rewrite <- ev_src0. auto.
Qed.

Lemma set_start_wf l nl : wf l → wf (set_start (pos l) nl l).
Proof. intros []. by constructor. Qed.

(** A token read from where the scanner stood. *)
Lemma ev_reads l t l' :
  ev (set_start (pos l) (sawNL l) l) l' → wf l → tok_at (line l) (col l) t l' →
  (Type_ t ≠ EOF → (pos l < pos l')%nat) → (Type_ t = EOF → pos l' = length (src l)) →
  reads l t l'.
Proof.
  intros [? ? ? ? Hst HNL ? ? ?] Hwf Ht Hp HE. cbn in *.
  constructor; try done; rewrite ?Hst; try done.
  - rewrite <- (wf_lc _ Hwf). done.
  - by rewrite HNL, has_lt_refl, orb_false_r.
Qed.

Lemma nextToken_spec n l :
  wf l → (length (src l) - pos l < n)%nat →
  wp (nextToken n) (λ t l', reads l t l') (λ _ l', keeps l l') l.
Proof.
  revert l. induction n as [|n IH]; intros l Hwf Hn; [lia|]. cbn [nextToken].
  pose proof (ev_refl l Hwf). wp_step. lex_call; [|by apply ev_keeps]. clear a.
  rename l' into l1. wp_steps. set (l2 := set_start (pos l1) (sawNL l1) l1).
  assert (wf l1) as Hwf1 by eauto with klain.
  assert (wf l2) as Hwf2 by by apply set_start_wf.
  assert (keeps l l2) as Hk by (eapply keeps_trans; [by apply ev_keeps|by constructor]).
  assert (∀ t l', reads l2 t l' → reads l t l') as Hl2.
  { intros t l' []. apply (reads_ev l l1); [done|]. by constructor. }
  assert (length (src l1) = length (src l)) as Hlen by (f_equal; by apply ev_src).
  assert (length (src l1) - pos l1 < S n)%nat as Hn1 by (pose proof (ev_pos l l1); apply ev_pos in H0; lia).
  assert (∀ (m : LexM unit), moves m l2 →
    wp m (λ _, wp (nextToken n) (λ t l', reads l t l') (λ _ l', keeps l l')) (λ _ l', keeps l l') l2)
    as Hcomment.
  { intros m Hm. eapply wp_mono; [apply Hm| |].
    - intros [] l3 [He Hp]. pose proof (ev_src _ _ He) as Hs3. cbn in Hs3, Hp.
      pose proof (wf_pos _ (ev_wf _ _ He)) as Hp3. rewrite Hs3 in Hp3.
      eapply wp_mono; [apply IH; [by eapply ev_wf|rewrite Hs3; lia]| |].
      + intros t l' Hr. apply Hl2. by eapply reads_ev.
      + intros e l' Hr. eapply keeps_trans; [done|]. eapply keeps_trans; [by apply ev_keeps|done].
    - intros e l' He. eapply keeps_trans; [done|by apply ev_keeps]. }
  unfold more. wp_steps. destruct (Nat.ltb_spec (pos l2) (length (src l2))) as [Hlt|Hge]; cbn [negb].
  2: { eapply (wp_tok l2 l2); [by apply ev_refl|done|]. intros t l' He _ Ht Hty _.
       pose proof (wf_pos _ Hwf1). pose proof (ev_pos _ _ He). pose proof (wf_pos _ (ev_wf _ _ He)) as Hp.
       rewrite (ev_src _ _ He) in Hp. cbn in *.
       apply (reads_ev l l1); [done|]. apply ev_reads; [exact He|exact Hwf1|exact Ht|by rewrite Hty|lia]. }
  lex_step; [wp_step; apply Hcomment, moves_line_comment; bool_cases; try done; lia|].
  lex_step; [wp_step; apply Hcomment, moves_block_comment; done|].
  eapply wp_mono; [by apply readToken_spec| |].
  - cbv beta. intros t l' (He & Ht & [? ?] & Hp). apply (reads_ev l l1); [done|]. by apply ev_reads.
  - intros e l' He. eapply keeps_trans; [done|by apply ev_keeps].
Qed.

Lemma NextToken_spec l :
  wf l →
  wp NextToken (λ t l', reads (set_sawNL false l) t l' ∧ lastSig l' = Type_ t) (λ _ l', keeps l l') l.
Proof.
  intros Hwf. unfold NextToken. wp_steps.
  assert (wf (set_sawNL false l)) by (destruct Hwf; by constructor).
  assert (keeps l (set_sawNL false l)) by by constructor.
  eapply wp_mono; [apply nextToken_spec; [done|unfold fuel; lia]| |].
  - intros t l' [[] ? ? ? ? [] ? ? ?]. wp_steps. split; [|done]. constructor; try done; by constructor.
  - intros e l' ?. by eapply keeps_trans.
Qed.

(** The outcome of [Scan]: a token, or an ILLEGAL one that holds the diagnostic. *)
Lemma Scan_spec m l :
  wf l →
  ∃ t l', Scan m l = (Ok t, l') ∧ wf l' ∧ src l' = src l ∧ offs l' = offs l ∧ mode l' = ScanDefault ∧
    ((Type_ t ≠ ILLEGAL ∧ reads (set_mode m (set_sawNL false l)) t (set_mode m l') ∧ lastSig l' = Type_ t)
     ∨ (Type_ t = ILLEGAL ∧ (pos l ≤ pos l')%nat ∧
        ∃ d, TErr t = Some d ∧ Literal t = Diagnostic_Error d)).
Proof.
  intros Hwf. assert (wf (set_mode m l)) as Hwfm by (destruct Hwf; by constructor).
  pose proof (NextToken_spec _ Hwfm) as Hs. unfold wp in Hs. unfold Scan.
  destruct (NextToken (set_mode m l)) as [[t|e| |] l'] eqn:Hn; [..|done|done].
  - destruct Hs as [Hr Hsig]. exists t, (set_mode ScanDefault l'). split; [done|].
    pose proof (at_type _ _ _ _ (rd_at _ _ _ Hr)). pose proof (rd_mode _ _ _ Hr).
    split; [destruct (rd_wf _ _ _ Hr); by constructor|].
    split; [by apply Hr|]. split; [by apply Hr|]. split; [done|]. left.
    split; [done|]. split; [|done]. destruct Hr as [[] ? ? ? ? [] ? ? ?].
    constructor; try done; by constructor.
  - set (l1 := set_mode ScanDefault l'). destruct Hs as [[] ? ? ? ?].
    assert (wf l1) as Hwf1 by by constructor.
    destruct (wf_offs_lookup l1 (startPos l1)) as [a Ha]; [done|cbn; lia|].
    destruct (wf_offs_lookup l1 (pos l1)) as [b Hb]; [done|cbn; lia|].
    unfold index. rewrite Ha. unfold mbind, M_bind, mret at 1, M_ret. rewrite Hb.
    eexists _, l1. split; [reflexivity|]. split_and!; try done. right.
    split_and!; [done|done|]. by eexists.
Qed.
End reading.
