(* ===== verification/LexerSim.v ===== *)
(** * What a scan does not depend on

    The scanner's [Docs] table, and the start of the token read last, are
    written but never read by the next scan: two scanners that agree on
    everything else scan the same token.  This is what makes [Rewind], which
    restores neither, sound.  The mode is read only where a token starts with
    [>] or [/]. *)

From S2P Require Import Prelude GoString Diag Token Lexer LexerFacts.
Open Scope Z_scope.

(** [sim b]: agreement on all fields but [Docs]; if [Restarted], not on the
    start of the token being read, and if [Remoded], not on the mode. *)
Inductive agreement := Same | Restarted | Remoded.
Record sim (b : agreement) (l1 l2 : Lexer) : Prop := {
  sim_src : src l1 = src l2;
  sim_offs : offs l1 = offs l2;
  sim_pos : pos l1 = pos l2;
  sim_line : line l1 = line l2;
  sim_col : col l1 = col l2;
  sim_stack : templateStack l1 = templateStack l2;
  sim_mode : b ≠ Remoded → mode l1 = mode l2;
  sim_sawNL : sawNL l1 = sawNL l2;
  sim_doc : pendingDoc l1 = pendingDoc l2;
  sim_lastSig : lastSig l1 = lastSig l2;
  sim_start : b ≠ Restarted → startPos l1 = startPos l2 ∧ startNL l1 = startNL l2 }.

#[export] Instance sim_equiv b : Equivalence (sim b).
Proof.
  split.
  - intros l. by constructor.
  - intros l1 l2 []. constructor; try done; intros H; [by rewrite sim_mode0|destruct (sim_start0 H); by split].
  - intros l1 l2 l3 [] []. constructor; try congruence; intros H; [by rewrite sim_mode0, sim_mode1|].
    destruct (sim_start0 H), (sim_start1 H). split; congruence.
Qed.

(** Rewrite the fields of one scanner to those of the other. *)
Ltac sim_rw H :=
  rewrite ?(sim_src _ _ _ H), ?(sim_offs _ _ _ H), ?(sim_pos _ _ _ H), ?(sim_line _ _ _ H),
    ?(sim_col _ _ _ H), ?(sim_stack _ _ _ H), ?(sim_sawNL _ _ _ H),
    ?(sim_doc _ _ _ H), ?(sim_lastSig _ _ _ H);
  try rewrite !(sim_mode _ _ _ H ltac:(first [assumption|discriminate]));
  try rewrite !(proj1 (sim_start _ _ _ H ltac:(first [assumption|discriminate])));
  try rewrite !(proj2 (sim_start _ _ _ H ltac:(first [assumption|discriminate]))).
Ltac sim_rw_all :=
  repeat match goal with
  | H : sim ?b ?l1 ?l2 |- _ =>
      unfold peek_of, peekAt_of, rune_at, fuel, regexAllowed, src_slice in *; progress (sim_rw H)
  end.

#[export] Instance step_proper b : Proper (sim b ==> sim b) step.
Proof.
  intros l1 l2 H. unfold step. rewrite (sim_src _ _ _ H), (sim_pos _ _ _ H).
  destruct (_ !! _) as [c|]; [|done]. destruct H.
  constructor; cbn; try done; try congruence; destruct (c =? 10); congruence.
Qed.
#[export] Instance set_stack_proper b ts : Proper (sim b ==> sim b) (set_stack ts).
Proof. intros l1 l2 []. by constructor. Qed.
#[export] Instance set_doc_proper b d : Proper (sim b ==> sim b) (set_doc d).
Proof. intros l1 l2 []. by constructor. Qed.
#[export] Instance set_mode_proper b m : Proper (sim b ==> sim b) (set_mode m).
Proof. intros l1 l2 []. by constructor. Qed.
#[export] Instance set_sawNL_proper b v : Proper (sim b ==> sim b) (set_sawNL v).
Proof. intros l1 l2 []. by constructor. Qed.
#[export] Instance set_lastSig_proper b t : Proper (sim b ==> sim b) (set_lastSig t).
Proof. intros l1 l2 []. by constructor. Qed.
Lemma set_Docs_sim b d1 d2 l1 l2 : sim b l1 l2 → sim b (set_Docs d1 l1) (set_Docs d2 l2).
Proof. intros []. by constructor. Qed.

Section rel.
Context `{U : Unicode}.

(** [rel b b' m1 m2]: from [sim b] states, equal outcomes in [sim b'] states. *)
Definition rel (b b' : agreement) {A} (m1 m2 : LexM A) : Prop :=
  ∀ l1 l2, sim b l1 l2 → (m1 l1).1 = (m2 l2).1 ∧ sim b' (m1 l1).2 (m2 l2).2.
(** A method that respects [sim b]. *)
Abbreviation resp b m := (rel b b m m).

Lemma rel_ret b {A} (a : A) : resp b (mret a).
Proof. by intros l1 l2 H. Qed.
Lemma rel_throw b {A} e : resp b (throw (A := A) e).
Proof. by intros l1 l2 H. Qed.
Lemma rel_index b {A} (xs : list A) i : resp b (index xs i).
Proof. intros l1 l2 H. unfold index. by destruct (xs !! i). Qed.
Lemma rel_advance b : resp b advance.
Proof. intros l1 l2 H. unfold advance. cbn. split; [by sim_rw_all|by rewrite H]. Qed.
Lemma rel_modify b f : Proper (sim b ==> sim b) f → resp b (modify f).
Proof. intros Hf l1 l2 H. split; [done|]. by apply Hf. Qed.
Lemma rel_gets b {A} (f : Lexer → A) :
  (∀ l1 l2, sim b l1 l2 → f l1 = f l2) → resp b (gets f).
Proof. intros Hf l1 l2 H. cbn. split; [by f_equal; apply Hf|done]. Qed.

Lemma rel_bind b1 b2 b3 {A B} (m1 m2 : LexM A) (k1 k2 : A → LexM B) :
  rel b1 b2 m1 m2 → (∀ a, rel b2 b3 (k1 a) (k2 a)) → (∀ l1 l2, sim b2 l1 l2 → sim b3 l1 l2) →
  rel b1 b3 (m1 ≫= k1) (m2 ≫= k2).
Proof.
  intros Hm Hk H23 l1 l2 H. destruct (Hm l1 l2 H) as [Hr Hs]. unfold mbind, LexM_bind, M_bind.
  destruct (m1 l1) as [o1 s1], (m2 l2) as [o2 s2]. cbn in *. subst o2.
  destruct o1; [by apply Hk|by split; [|apply H23]..].
Qed.

Lemma resp_bind b {A B} (m1 m2 : LexM A) (k1 k2 : A → LexM B) :
  rel b b m1 m2 → (∀ a, rel b b (k1 a) (k2 a)) → rel b b (m1 ≫= k1) (m2 ≫= k2).
Proof. intros. by eapply rel_bind. Qed.

Lemma resp_get b {B} (k1 k2 : Lexer → LexM B) :
  (∀ l1 l2, sim b l1 l2 → rel b b (k1 l1) (k2 l2)) → rel b b (get ≫= k1) (get ≫= k2).
Proof. intros Hk l1 l2 H. by apply Hk. Qed.

Lemma resp_loop b {L B} n (body : L → LexM (L + B)) x :
  (∀ x, resp b (body x)) → resp b (loop n body x).
Proof.
  intros Hb. revert x. induction n as [|n IH]; intros x; [by intros l1 l2 H|].
  cbn [loop]. apply resp_bind; [apply Hb|]. intros [x'|r]; [apply IH|apply rel_ret].
Qed.

Lemma rel_more b : resp b more.
Proof. apply rel_gets. intros l1 l2 H. by sim_rw_all. Qed.

Lemma resp_scanning b {L B} (body : L → LexM (L + B)) done x :
  (∀ x, resp b (body x)) → resp b (scanning body done x).
Proof.
  intros Hb. unfold scanning. apply resp_get. intros l1 l2 H. sim_rw_all.
  apply resp_loop. intros x'. apply resp_bind; [apply rel_more|]. intros []; [apply Hb|apply rel_ret].
Qed.

Lemma rel_errAt b {A} line col m args : b ≠ Restarted → resp b (errAt (A := A) line col m args).
Proof.
  intros Hb. unfold errAt. apply resp_get. intros l1 l2 H. sim_rw_all.
  repeat (apply resp_bind; [apply rel_index|intros ?]). apply rel_throw.
Qed.

Lemma rel_tok b t lit line col : b ≠ Restarted → resp b (tok t lit line col).
Proof.
  intros Hb. unfold tok. apply resp_get. intros l1 l2 H. sim_rw_all.
  repeat (apply resp_bind; [apply rel_index|intros ?]).
  apply resp_bind; [apply rel_modify, _|intros ?]. apply rel_ret.
Qed.
End rel.
Abbreviation resp b m := (rel b b m m).

#[export] Hint Resolve rel_ret rel_throw rel_index rel_advance rel_more rel_errAt rel_tok : klain.

(** [resp] of a method, from its structure. *)
Ltac resp_step :=
  lazymatch goal with
  | |- rel _ _ (mbind _ get) _ =>
      let H := fresh "Hsim" in apply resp_get; intros ? ? H; unfold src_slice; sim_rw_all
  | |- rel _ _ (mbind _ _) _ => apply resp_bind; [|intros ?]
  | |- rel _ _ (match ?x with _ => _ end) _ => destruct x eqn:?
  | |- rel _ _ (scanning _ _ _) _ => apply resp_scanning; intros ?
  | |- rel _ _ (loop _ _ _) _ => apply resp_loop; intros ?
  | |- rel _ _ peek _ => unfold peek
  | |- rel _ _ (peekAt _) _ => unfold peekAt
  | |- rel _ _ (gets _) _ =>
      let H := fresh "Hsim" in apply rel_gets; intros ? ? H; by sim_rw_all
  | |- rel _ _ (modify _) _ => apply rel_modify; try exact _
  | |- rel _ _ _ _ => solve [auto 2 with klain nocore]
  end.
Ltac resp_tac := cbv zeta beta; repeat (resp_step; cbv zeta beta).

Section resp.
Context `{U : Unicode} (b : agreement) (Hb : b ≠ Restarted).

Lemma resp_skipWhitespace : resp b skipWhitespace.
Proof. unfold skipWhitespace. resp_tac. Qed.
Lemma resp_readDigitRun buf f ln cl : resp b (readDigitRun buf f ln cl).
Proof. unfold readDigitRun. resp_tac. Qed.
Lemma resp_readDecimal leg ln cl : resp b (readDecimal leg ln cl).
Proof. unfold readDecimal. resp_tac. Qed.
#[local] Hint Resolve resp_skipWhitespace resp_readDigitRun resp_readDecimal : klain.
Lemma resp_readExponent buf ln cl : resp b (readExponent buf ln cl).
Proof. unfold readExponent. resp_tac. Qed.
#[local] Hint Resolve resp_readExponent : klain.
Lemma resp_readNumber ln cl : resp b (readNumber ln cl).
Proof. unfold readNumber, readNumberBody, readPrefixed. resp_tac. Qed.
Lemma resp_readHexEscape_from n v : resp b (readHexEscape_from n v).
Proof. revert v. induction n; intros v; cbn [readHexEscape_from]; resp_tac. Qed.
Lemma resp_octal_more n v : resp b (octal_more n v).
Proof. revert v. induction n; intros v; cbn [octal_more]; resp_tac. Qed.
#[local] Hint Resolve resp_readNumber resp_readHexEscape_from resp_octal_more : klain.
Lemma resp_scanStringEscape buf ln cl : resp b (scanStringEscape buf ln cl).
Proof. unfold scanStringEscape, readHexEscape, unicode_braced, braced_digits. resp_tac. Qed.
#[local] Hint Resolve resp_scanStringEscape : klain.
Lemma resp_readString ln cl : resp b (readString ln cl).
Proof. unfold readString, string_body. resp_tac. Qed.
Lemma resp_readRegex ln cl : resp b (readRegex ln cl).
Proof. unfold readRegex, regex_pattern, regex_flags. resp_tac. Qed.
Lemma resp_readIdent ln cl : resp b (readIdent ln cl).
Proof. unfold readIdent, readIdentParts. resp_tac. Qed.
Lemma resp_readPrivateName ln cl : resp b (readPrivateName ln cl).
Proof. unfold readPrivateName, readIdentParts. resp_tac. Qed.
Lemma resp_readTemplateSegment : resp b readTemplateSegment.
Proof. unfold readTemplateSegment, template_body. resp_tac. Qed.
#[local] Hint Resolve resp_readString resp_readRegex resp_readIdent resp_readPrivateName
  resp_readTemplateSegment : klain.
Lemma resp_template_token w o ln cl : resp b (template_token w o ln cl).
Proof.
  unfold template_token. resp_tac. intros l1 l2 H. rewrite (sim_stack _ _ _ H). by rewrite H.
Qed.
#[local] Hint Resolve resp_template_token : klain.
Lemma resp_separator c ln cl k : separator c ln cl = Some k → resp b k.
Proof.
  unfold separator.
  repeat match goal with
    | |- (if ?b then _ else _) = _ → _ => destruct b; [intros [= <-]|]
    end; [..|done].
  all: unfold eat, punct, readTemplatePart; resp_tac.
  intros l1 l2 H. rewrite (sim_stack _ _ _ H). destruct (templateStack l2); [done|]. by rewrite H.
Qed.
Lemma resp_line_comment : resp b line_comment.
Proof. unfold line_comment. resp_tac. Qed.
Lemma resp_block_comment : resp b block_comment.
Proof.
  unfold block_comment, comment_body, save_doc. resp_tac.
  intros l3 l4 H. apply set_Docs_sim. by rewrite H.
Qed.
#[local] Hint Resolve resp_line_comment resp_block_comment : klain.
End resp.
#[export] Hint Extern 1 (_ ≠ Restarted) => discriminate : klain.
#[export] Hint Resolve resp_skipWhitespace resp_readNumber resp_readString resp_readRegex resp_readIdent resp_readPrivateName
  resp_template_token resp_line_comment resp_block_comment : klain.

Section scan.
Context `{U : Unicode}.

(** The runes before which the mode is read. *)
Definition moded (c : rune) : bool := (c =? 0x3E) || (c =? 0x2F).

Lemma resp_operator b c ln cl k :
  b ≠ Restarted → (b = Remoded → moded c = false) → operator c ln cl = Some k → resp b k.
Proof.
  intros Hb Hc. unfold operator.
  repeat match goal with
    | |- (if ?b then _ else _) = _ → _ => destruct b eqn:?; [intros [= <-]|]
    end; [..|done]; bool_cases.
  9: assert (b ≠ Remoded) as Hm by (intros ->; specialize (Hc eq_refl); by subst c).
  all: unfold eat, punct; resp_tac.
Qed.

(** The arms of [readToken], [rx] telling whether a [/] starts a regular expression. *)
Definition arms (c n : rune) (line col : Z) (rx : bool) : LexM Token :=
  if rx then readRegex line col
  else if IsDigit c || ((c =? 0x2E) && IsDigit n) then readNumber line col
  else if c =? 0x60 then readTemplateHead line col
  else if (c =? 0x22) || (c =? 0x27) then readString line col
  else if isIdentStart c then readIdent line col
  else if (c =? 0x23) && isIdentStart n then readPrivateName line col
  else
    advance ≫= λ _,
    match operator c line col with
    | Some k => k
    | None => match separator c line col with Some k => k | None => Lexer.errAt line col UnexpectedCharacter [FRune c] end
    end.
Definition regex_here (l : Lexer) : bool :=
  (peek_of l =? 0x2F) && (bool_decide (mode l = ScanRegex) || (bool_decide (mode l = ScanDefault) && regexAllowed l)).
Lemma readToken_arms l : readToken l = arms (peek_of l) (peekAt_of 1 l) (line l) (col l) (regex_here l) l.
Proof. done. Qed.
Lemma resp_arms b c n ln cl rx :
  b ≠ Restarted → (b = Remoded → moded c = false) → resp b (arms c n ln cl rx).
Proof.
  intros Hb Hc. unfold arms. resp_tac; unfold readTemplateHead; [resp_tac|by eapply resp_operator|by eapply resp_separator].
Qed.
Lemma resp_readToken b l1 l2 :
  b ≠ Restarted → (b = Remoded → moded (peek_of l1) = false) → sim b l1 l2 →
  (readToken l1).1 = (readToken l2).1 ∧ sim b (readToken l1).2 (readToken l2).2.
Proof.
  intros Hb Hc H. rewrite !readToken_arms.
  assert (peek_of l1 = peek_of l2) as Hp by (unfold peek_of, rune_at; by sim_rw H).
  assert (peekAt_of 1 l1 = peekAt_of 1 l2) as Hp1 by (unfold peekAt_of, rune_at; by sim_rw H).
  assert (regex_here l1 = regex_here l2) as Hr.
  { unfold regex_here, regexAllowed. rewrite <- Hp, (sim_lastSig _ _ _ H).
    destruct (peek_of l1 =? 0x2F) eqn:Hs; [|done]. rewrite (sim_mode _ _ _ H); [done|].
    intros ->. specialize (Hc eq_refl). unfold moded in Hc. rewrite Hs in Hc. by destruct (_ =? _). }
  rewrite Hr, <- Hp, <- Hp1, (sim_line _ _ _ H), (sim_col _ _ _ H). by apply resp_arms.
Qed.
Lemma resp_readToken_same : resp Same readToken.
Proof. intros l1 l2 H. by apply resp_readToken. Qed.
#[local] Hint Resolve resp_readToken_same : klain.

Lemma sim_weaken b l1 l2 : sim Same l1 l2 → sim b l1 l2.
Proof. intros []. constructor; auto with klain. Qed.

Lemma rel_start : rel Restarted Same (modify (λ l, set_start (pos l) (sawNL l) l))
                    (modify (λ l, set_start (pos l) (sawNL l) l)).
Proof. intros l1 l2 []. split; [done|]. constructor; try done. intros _. by apply sim_mode0. Qed.

Lemma bind_ok {A B} (m : LexM A) (k : A → LexM B) l a l' :
  m l = (Ok a, l') → (m ≫= k) l = k a l'.
Proof. unfold mbind, LexM_bind, M_bind. by intros ->. Qed.

Lemma skipWhitespace_ok l : ∃ l', skipWhitespace l = (Ok tt, l').
Proof.
  assert (wp skipWhitespace (λ _ _, True) (λ _ _, False) l) as H.
  { unfold skipWhitespace. apply (wp_scanning (λ _ _, True)); [|done|done]. intros [] l1 _ Hlt.
    unfold peek. wp_steps. destruct (_ || _); wp_steps; [|done].
    unfold wp at 1, advance, step. destruct (lookup_lt_is_Some_2 _ _ Hlt) as [c ->]. wp_steps.
    split_and!; try done; cbn; lia. }
  unfold wp in H. destruct (skipWhitespace l) as [[[]| | |] l']; try done. by exists l'.
Qed.

Lemma resp_nextToken n : (0 < n)%nat → rel Restarted Same (nextToken n) (nextToken n).
Proof.
  assert (∀ n, resp Same (nextToken n)) as Hstrict.
  { clear n. intros n. induction n as [|n IH]; [by intros l1 l2 H|]. cbn [nextToken].
    apply resp_bind; [apply resp_skipWhitespace|intros _].
    apply resp_bind; [apply rel_modify; intros l1 l2 []; by constructor|intros _].
    resp_tac; apply IH. }
  intros Hn. destruct n as [|n]; [lia|]. cbn [nextToken].
  intros l1 l2 H. destruct (resp_skipWhitespace Restarted l1 l2 H) as [_ Hsk].
  destruct (skipWhitespace_ok l1) as [l1' E1], (skipWhitespace_ok l2) as [l2' E2].
  rewrite E1, E2 in Hsk. rewrite (bind_ok _ _ _ _ _ E1), (bind_ok _ _ _ _ _ E2).
  refine (rel_bind Restarted Same Same _ _ _ _ rel_start _ _ l1' l2' Hsk); [|done].
  intros _. resp_tac; apply Hstrict.
Qed.

Lemma resp_NextToken : rel Restarted Same NextToken NextToken.
Proof.
  intros l1 l2 H. unfold NextToken.
  pose proof (set_sawNL_proper Restarted false l1 l2 H) as H0.
  unfold mbind, LexM_bind, M_bind, modify, get.
  set (n1 := fuel (set_sawNL false l1)). assert (n1 = fuel (set_sawNL false l2)) as <- by (subst n1; by sim_rw_all).
  destruct (resp_nextToken n1 ltac:(subst n1; unfold fuel; lia) _ _ H0) as [Hr Hs].
  destruct (nextToken n1 (set_sawNL false l1)) as [o1 s1], (nextToken n1 (set_sawNL false l2)) as [o2 s2].
  cbn in *. subst o2. destruct o1; cbn; split; try done. by rewrite Hs.
Qed.

(** [Scan] depends neither on [Docs] nor on where the last token started. *)
Lemma resp_Scan m : rel Restarted Same (Scan m) (Scan m).
Proof.
  intros l1 l2 H. unfold Scan.
  destruct (resp_NextToken _ _ (set_mode_proper Restarted m l1 l2 H)) as [Hr Hs].
  destruct (NextToken (set_mode m l1)) as [o1 s1], (NextToken (set_mode m l2)) as [o2 s2].
  cbn in Hr, Hs. subst o2. pose proof (set_mode_proper Same ScanDefault s1 s2 Hs) as Hm.
  destruct o1 as [t|e| |]; try by split.
  set (s1' := set_mode ScanDefault s1) in *. set (s2' := set_mode ScanDefault s2) in *.
  clearbody s1' s2'. cbv zeta. unfold index, mbind, LexM_bind, M_bind. sim_rw_all.
  destruct (offs s2' !! startPos s2'), (offs s2' !! pos s2'); by split.
Qed.
End scan.
