(* ===== verification/LexerPos.v ===== *)
(** * Positions and reachable states of the scanner

    The two ways back from a line and column to a byte offset, the states a
    parser can bring the scanner to by scanning, marking and rewinding, and
    the invariant they keep. *)

From S2P Require Import Prelude GoString Diag Token Lexer LexerFacts LexerSim.
From Stdlib Require Import Ascii.

Open Scope Z_scope.

(** ** From a line and column back to a rune index *)

Lemma skip_lines_here L i rs : skip_lines L L i rs = i.
Proof. destruct rs; cbn; [done|]. by rewrite Z.ltb_irrefl. Qed.

(** Skipping the lines before the line of the rune at [j] stops at the start
    of that line, from which the column counts. *)
Lemma skip_lines_column rs ln c0 i j :
  (j ≤ length rs)%nat → 1 ≤ c0 →
  let '(L, C) := foldl lc_step (ln, c0) (take j rs) in
  ln ≤ L ∧ 1 ≤ C ∧
  (if ln =? L then C = c0 + Z.of_nat j
   else (skip_lines ln L i rs + Z.to_nat (C - 1) = i + j)%nat).
Proof.
  revert ln c0 i j. induction rs as [|c rs IH]; intros ln c0 i j Hj Hc0.
  { destruct j; cbn in *; [|lia]. rewrite Z.eqb_refl. lia. }
  destruct j as [|j]; [cbn; rewrite Z.eqb_refl; lia|].
  cbn [take foldl skip_lines]. unfold lc_step at 2. cbn [fst snd] in *. cbn [length] in Hj.
  destruct (c =? 10) eqn:Hc.
  - specialize (IH (ln + 1) 1 (S i) j ltac:(lia) ltac:(lia)).
    destruct (foldl lc_step _ _) as [L C]. destruct IH as (? & ? & IH).
    assert ((ln =? L) = false) as -> by (apply Z.eqb_neq; lia).
    assert ((ln <? L) = true) as -> by (apply Z.ltb_lt; lia).
    split; [lia|]. split; [done|]. destruct (Z.eqb_spec (ln + 1) L) as [<-|]; [|lia].
    rewrite skip_lines_here. lia.
  - specialize (IH ln (c0 + 1) (S i) j ltac:(lia) ltac:(lia)).
    destruct (foldl lc_step _ _) as [L C]. destruct IH as (? & ? & IH).
    split; [done|]. split; [done|]. destruct (Z.eqb_spec ln L) as [<-|]; [lia|].
    assert ((ln <? L) = true) as -> by (apply Z.ltb_lt; lia). lia.
Qed.

Lemma linecol_at_start rs j :
  (j ≤ length rs)%nat →
  let '(L, C) := linecol_at rs j in
  1 ≤ L ∧ 1 ≤ C ∧ (skip_lines 1 L 0 rs + Z.to_nat (C - 1) = j)%nat.
Proof.
  intros Hj. pose proof (skip_lines_column rs 1 1 0 j Hj ltac:(lia)) as H.
  unfold linecol_at, linecol. destruct (foldl lc_step _ _) as [L C]. destruct H as (? & ? & H).
  split; [done|]. split; [done|]. destruct (Z.eqb_spec 1 L) as [<-|]; [|done].
  rewrite skip_lines_here. lia.
Qed.

(** ** The decoded string *)

Lemma range_string_skip k off s : range_string k off s = range_string 0 (off + Nat.min k (String.length s)) (drop_str k s).
Proof.
  revert off s. induction k as [|k IH]; intros off s.
  { cbn. f_equal. lia. }
  destruct s as [|a s]; [done|]. cbn [range_string drop_str String.length]. rewrite IH.
  f_equal. cbn. lia.
Qed.

Lemma decode_rune_fits s : s ≠ EmptyString → (1 ≤ (decode_rune s).2 ≤ String.length s)%nat.
Proof.
  intros Hs. destruct s as [|a s1]; [done|]. unfold decode_rune.
  repeat case_match; cbn [snd String.length]; lia.
Qed.

Lemma range_string_step off s r w :
  s ≠ EmptyString → decode_rune s = (r, w) →
  range_string 0 off s = (off, r) :: range_string 0 (off + w) (drop_str w s).
Proof.
  intros Hs Hd. pose proof (decode_rune_fits s Hs) as Hw. rewrite Hd in Hw. cbn in Hw.
  destruct s as [|a s]; [done|]. cbn [range_string]. rewrite Hd. f_equal.
  destruct w as [|w]; [lia|]. rewrite range_string_skip. cbn [drop_str String.length Nat.sub] in *.
  rewrite Nat.sub_0_r, Nat.min_l by lia. f_equal. lia.
Qed.

Lemma drop_str_length k s : String.length (drop_str k s) = (String.length s - k)%nat.
Proof.
  revert s. induction k as [|k IH]; intros s; [cbn; lia|]. destruct s; cbn; [done|apply IH].
Qed.

Lemma drop_str_drop i j s : drop_str i (drop_str j s) = drop_str (j + i) s.
Proof.
  revert s. induction j as [|j IH]; intros s; [done|]. destruct s; cbn; [|apply IH].
  by destruct i.
Qed.

(** The byte offset of every rune of [s] and of its end, as [New] lists them. *)
Definition offsets (off : nat) (s : string) : list nat :=
  (range_string 0 off s).*1 ++ [(off + String.length s)%nat].

Lemma offsets_step off s r w :
  s ≠ EmptyString → decode_rune s = (r, w) →
  offsets off s = off :: offsets (off + w) (drop_str w s).
Proof.
  intros Hs Hd. unfold offsets. rewrite (range_string_step off s r w) by done. cbn.
  pose proof (decode_rune_fits s Hs) as Hw. rewrite Hd in Hw. cbn in Hw.
  rewrite drop_str_length. do 3 f_equal. lia.
Qed.

(** Induction over the runes of a string. *)
Lemma string_rune_ind (P : string → Prop) :
  P EmptyString →
  (∀ s r w, s ≠ EmptyString → decode_rune s = (r, w) → P (drop_str w s) → P s) →
  ∀ s, P s.
Proof.
  intros H0 HS s. remember (String.length s) as n eqn:Hn. revert s Hn.
  induction (lt_wf n) as [n _ IH]. intros s ->. destruct (decide (s = EmptyString)) as [->|Hs]; [done|].
  destruct (decode_rune s) as [r w] eqn:Hd. pose proof (decode_rune_fits s Hs) as Hw.
  rewrite Hd in Hw. cbn in Hw. eapply HS; [done|done|].
  eapply IH; [|done]. rewrite drop_str_length. lia.
Qed.

Lemma range_string_off k off off' s : (range_string k off s).*2 = (range_string k off' s).*2.
Proof.
  revert k off off'. induction s as [|a s IH]; intros k off off'; [done|]. destruct k; cbn; [|apply IH].
  destruct (decode_rune _). cbn. f_equal. apply IH.
Qed.

Lemma runes_of_step s r w :
  s ≠ EmptyString → decode_rune s = (r, w) → runes_of s = r :: runes_of (drop_str w s).
Proof.
  intros Hs Hd. unfold runes_of. rewrite (range_string_step 0 s r w) by done. cbn. f_equal.
  apply range_string_off.
Qed.

Lemma step_cols_offsets s base :
  ∀ k j s0, drop_str base s0 = s → (base ≤ String.length s0)%nat →
    ∀ o o', offsets base s !! j = Some o → offsets base s !! (j + k)%nat = Some o' →
    step_cols k o s0 = o'.
Proof.
  revert base. induction s as [|s r w Hs Hd IH] using string_rune_ind; intros base k j s0 Hs0 Hb o o'.
  - unfold offsets. cbn. rewrite Nat.add_0_r. destruct j as [|j]; [|done]. intros [= ->].
    destruct k; [by intros [= ->]|done].
  - pose proof (decode_rune_fits s Hs) as Hw. rewrite Hd in Hw. cbn in Hw.
    assert (String.length s = String.length s0 - base)%nat as Hlen by (by rewrite <- Hs0, drop_str_length).
    rewrite (offsets_step base s r w) by done.
    assert (drop_str (base + w) s0 = drop_str w s) as Hs1 by (by rewrite <- Hs0, drop_str_drop).
    destruct j as [|j].
    + cbn [lookup list_lookup Nat.add]. intros [= <-]. destruct k as [|k]; [by intros [= ->]|].
      cbn [list_lookup step_cols]. intros Ho'.
      assert ((base <? String.length s0)%nat = true) as -> by (apply Nat.ltb_lt; lia).
      rewrite Hs0, Hd. cbn [snd]. eapply (IH (base + w)%nat k 0%nat); [done|lia| |done].
      destruct (decide (drop_str w s = "")) as [->|Hne]; [unfold offsets; cbn; f_equal; lia|].
      destruct (decode_rune (drop_str w s)) as [r' w'] eqn:Hd'.
      by rewrite (offsets_step _ _ r' w').
    + cbn. intros Ho Ho'. eapply (IH (base + w)%nat); [done|lia|done..].
Qed.

(** A line feed byte is never part of a longer rune. *)
Lemma is_byte_high a : (byte_val a <? 0x80) = false → is_byte 10 a = false.
Proof. unfold is_byte. intros. bool_cases. apply Z.eqb_neq. lia. Qed.

Lemma cont_high b : cont b = true → is_byte 10 b = false.
Proof. unfold cont. intros. rune_bools. apply is_byte_high, Z.ltb_ge. lia. Qed.

Lemma second3_high b0 b : second3 b0 (byte_val b) = true → is_byte 10 b = false.
Proof.
  unfold second3. intros H. apply is_byte_high, Z.ltb_ge.
  repeat case_match; rune_bools; lia.
Qed.

Lemma second4_high b0 b : second4 b0 (byte_val b) = true → is_byte 10 b = false.
Proof.
  unfold second4. intros H. apply is_byte_high, Z.ltb_ge.
  repeat case_match; rune_bools; lia.
Qed.

Lemma line_starts_step i s r w :
  s ≠ EmptyString → decode_rune s = (r, w) →
  line_starts_from i s =
    (if r =? 10 then [(i + w)%nat] else []) ++ line_starts_from (i + w) (drop_str w s).
Proof.
  intros Hs Hd. destruct s as [|a s1]; [done|]. clear Hs. unfold decode_rune in Hd.
  assert ((RuneError =? 10) = false) as HE by done.
  assert (∀ x, (byte_val x <? 128) = false → is_byte 10 x = false) as Hh by apply is_byte_high.
  repeat (case_match; try done); simplify_eq; rewrite ?HE;
    repeat match goal with
    | H : _ && _ = true |- _ => apply andb_true_iff in H as [? ?]
    | H : cont _ = true |- _ => pose proof (cont_high _ H); revert H
    | H : second3 _ _ = true |- _ => pose proof (second3_high _ _ H); revert H
    | H : second4 _ _ = true |- _ => pose proof (second4_high _ _ H); revert H
    end; intros; cbn [line_starts_from drop_str].
  all: try (rewrite Hh by done).
  all: repeat match goal with H : is_byte 10 _ = false |- _ => rewrite H; clear H end.
  all: try (replace (i + 1)%nat with (S i) by lia; unfold is_byte in *;
            repeat match goal with H : (_ =? 10) = _ |- _ => rewrite H; clear H end; done).
  all: try (cbn; f_equal; lia).
  all: exfalso; unfold cont, second3, second4, low6 in *; repeat case_match; rune_bools; lia.
Qed.

Lemma skip_lines_shift ln L i rs : skip_lines ln L i rs = (i + skip_lines ln L 0 rs)%nat.
Proof.
  revert ln i. induction rs as [|c rs IH]; intros ln i; cbn; [lia|].
  destruct (ln <? L); [|lia]. rewrite (IH _ (S i)), (IH _ 1%nat). lia.
Qed.

Lemma line_starts_lookup s : ∀ off ln c0 j L C,
  1 ≤ c0 → (j ≤ length (runes_of s))%nat → foldl lc_step (ln, c0) (take j (runes_of s)) = (L, C) → ln < L →
  line_starts_from off s !! Z.to_nat (L - ln - 1) =
  offsets off s !! skip_lines ln L 0 (runes_of s).
Proof.
  induction s as [|s r w Hs Hd IH] using string_rune_ind; intros off ln c0 j L C Hc0 Hj Hf Hlt.
  { destruct j; [|cbn in Hj; lia]. cbn in Hf. simplify_eq. lia. }
  rewrite (runes_of_step s r w) in * by done. destruct j as [|j]; [cbn in Hf; simplify_eq; lia|].
  cbn [take foldl length] in Hf, Hj. unfold lc_step in Hf at 2. cbn [fst snd] in Hf.
  rewrite (line_starts_step off s r w), (offsets_step off s r w) by done.
  cbn [skip_lines]. assert ((ln <? L) = true) as -> by (by apply Z.ltb_lt).
  rewrite skip_lines_shift. cbn [Nat.add lookup list_lookup].
  destruct (r =? 10) eqn:Hr; cbn [app].
  - destruct (decide (ln + 1 = L)) as [<-|Hne].
    + replace (Z.to_nat (ln + 1 - ln - 1)) with 0%nat by lia. rewrite skip_lines_here. cbn.
      destruct (decide (drop_str w s = "")) as [->|Hne]; [cbn; f_equal; lia|].
      destruct (decode_rune (drop_str w s)) as [r' w'] eqn:Hd'.
      by rewrite (offsets_step _ _ r' w').
    + assert (ln + 1 ≤ L).
      { pose proof (skip_lines_column (runes_of (drop_str w s)) (ln + 1) 1 0 j ltac:(lia) ltac:(lia)) as H.
        rewrite Hf in H. lia. }
      replace (Z.to_nat (L - ln - 1)) with (S (Z.to_nat (L - (ln + 1) - 1))) by lia. cbn [list_lookup].
      eapply (IH _ _ _ j); [|lia|exact Hf|lia]; lia.
  - eapply (IH _ _ _ j); [|lia|exact Hf|lia]; lia.
Qed.

(** [Offsets] inverts the scanner's line and column, whatever bytes the source has. *)
Lemma Offsets_linecol s i o L C :
  offsets 0 s !! i = Some o → linecol_at (runes_of s) i = (L, C) → Offsets s L C = Z.of_nat o.
Proof.
  intros Ho Hlc. assert (i ≤ length (runes_of s))%nat as Hi.
  { apply lookup_lt_Some in Ho. unfold offsets in Ho. rewrite length_app in Ho.
    unfold runes_of. rewrite !length_fmap in *. cbn in Ho. lia. }
  pose proof (linecol_at_start (runes_of s) i Hi) as Hst. rewrite Hlc in Hst.
  destruct Hst as (HL & HC & Hst). set (k := skip_lines 1 L 0 (runes_of s)) in *.
  assert (line_starts s !! Z.to_nat (L - 1) = offsets 0 s !! k) as Hls.
  { subst k. unfold line_starts. destruct (decide (L = 1)) as [->|Hne].
    - rewrite skip_lines_here. cbn. destruct (decide (s = "")) as [->|Hs]; [done|].
      destruct (decode_rune s) as [r w] eqn:Hd. by rewrite (offsets_step 0 s r w).
    - replace (Z.to_nat (L - 1)) with (S (Z.to_nat (L - 1 - 1))) by lia. cbn [lookup list_lookup].
      by eapply line_starts_lookup; [|exact Hi|exact Hlc|lia]. }
  destruct (lookup_lt_is_Some_2 (offsets 0 s) k) as [b Hb]; [apply lookup_lt_Some in Ho; lia|].
  rewrite Hb in Hls. unfold Offsets. pose proof (lookup_lt_Some _ _ _ Hls) as Hlen.
  assert ((L <? 1) || (Z.of_nat (length (line_starts s)) <? L) || (C <? 1) = false) as ->.
  { rewrite !orb_false_iff, !Z.ltb_ge. lia. }
  rewrite Hls. f_equal. eapply (step_cols_offsets s 0 _ k s); [done|lia|exact Hb|].
  by rewrite Hst.
Qed.

(** ** The states a parser can bring the scanner to *)

Section reachable.
Context `{U : Unicode}.

(** The parser scans in any mode, and goes back to any state it marked. *)
Inductive reachable (s : string) : Lexer → Prop :=
  | reach_New : reachable s (New s)
  | reach_Scan m l t l' : reachable s l → Scan m l = (Ok t, l') → reachable s l'
  | reach_Rewind l0 l : reachable s l0 → reachable s l → reachable s (Rewind (Mark l0) l).

(** [t] is the token scanned from the rune index [i], and [j] its end. *)
Definition scanned (s : string) (i : nat) (t : Token) (j : nat) : Prop :=
  ∃ a, (i ≤ a ≤ j)%nat
    ∧ offsets 0 s !! a = Some (TPos t) ∧ offsets 0 s !! j = Some (TEnd t)
    ∧ linecol_at (runes_of s) a = (TLine t, TCol t)
    ∧ HasPrecedingLineBreak t = has_lt (runes_of s) i a
    ∧ (Type_ t ≠ EOF → (a < j)%nat) ∧ (Type_ t = EOF → j = length (runes_of s)).

(** A state the next scan can start from: well formed once a start is set. *)
Record ready (s : string) (l : Lexer) : Prop := {
  ready_wf : wf (set_start 0 false l);
  ready_src : src l = runes_of s;
  ready_offs : offs l = offsets 0 s;
  ready_mode : mode l = ScanDefault }.

Lemma New_ready s : ready s (New s).
Proof. split; [|done..]. pose proof (New_wf s) as []. by constructor. Qed.

Lemma Scan_ready s m l :
  ready s l →
  ∃ t l', Scan m l = (Ok t, l') ∧ ready s l' ∧
    ((Type_ t ≠ ILLEGAL ∧ scanned s (pos l) t (pos l') ∧ lastSig l' = Type_ t)
     ∨ (Type_ t = ILLEGAL ∧ (pos l ≤ pos l')%nat ∧
        ∃ d, TErr t = Some d ∧ Literal t = Diagnostic_Error d)).
Proof.
  intros [Hwf Hsrc Hoffs _].
  destruct (Scan_spec m _ Hwf) as (t & l2 & Hsc & Hwf2 & Hsrc2 & Hoffs2 & Hmode & Ht).
  assert (sim Restarted l (set_start 0 false l)) as Hsim by by constructor.
  destruct (resp_Scan m _ _ Hsim) as [Hr Hs]. rewrite Hsc in Hr, Hs.
  destruct (Scan m l) as [o l1]. cbn in Hr, Hs. subst o. exists t, l1. split; [done|].
  destruct (sim_start _ _ _ Hs ltac:(done)) as [Hst HNL]. cbn in Hsrc2, Hoffs2.
  split; [split|].
  - destruct Hwf2. constructor; cbn; sim_rw_all; try done. lia.
  - rewrite (sim_src _ _ _ Hs). congruence.
  - rewrite (sim_offs _ _ _ Hs). congruence.
  - by sim_rw_all.
  - rewrite (sim_pos _ _ _ Hs), (sim_lastSig _ _ _ Hs).
    destruct Ht as [(Hty & Hrd & Hsig)|?]; [left|by right]. split; [done|]. split; [|done].
    destruct Hrd as [_ _ _ _ Hp [Hln Hcl Hps Hen Hfl _ _] HN Hpr Heof]. cbn in *. rewrite Hoffs2, Hoffs, Hsrc in *.
    exists (startPos l2). split_and!; try done; [apply Hwf2|..].
    + by rewrite Hln, Hcl, <- surjective_pairing.
    + unfold HasPrecedingLineBreak. rewrite Hfl, <- HN. by destruct (startNL l2).
Qed.

Lemma Rewind_ready s l0 l : ready s l0 → ready s l → ready s (Rewind (Mark l0) l).
Proof.
  intros [[] Hs ? ?] [_ Hs' Ho' ?]. cbn in *. split; [constructor|done..]; cbn;
    rewrite ?Hs', ?Ho', <- ?Hs; try done; try lia; congruence.
Qed.

Lemma reachable_ready s l : reachable s l → ready s l.
Proof.
  induction 1 as [|m l t l' _ IH Hsc|]; [apply New_ready| |by apply Rewind_ready].
  destruct (Scan_ready s m l IH) as (t' & l'' & Hsc' & H & _). congruence.
Qed.

(** A chain of tokens that covers the source from rune index [i] on. *)
Inductive tokens_from (s : string) : nat → list Token → Prop :=
  | tokens_end i t : Type_ t = EOF → scanned s i t (length (runes_of s)) → tokens_from s i [t]
  | tokens_illegal i t d : Type_ t = ILLEGAL → TErr t = Some d → tokens_from s i [t]
  | tokens_cons i t j ts :
      Type_ t ≠ EOF → Type_ t ≠ ILLEGAL → scanned s i t j → tokens_from s j ts →
      tokens_from s i (t :: ts).

Lemma scanAll_ready s m n l :
  ready s l → (length (runes_of s) - pos l + 1 < n)%nat →
  ∃ ts l', scanAll n m l = (Ok ts, l') ∧ tokens_from s (pos l) ts.
Proof.
  revert l. induction n as [|n IH]; intros l Hl Hn; [lia|]. cbn [scanAll].
  destruct (Scan_ready s m l Hl) as (t & l1 & Hsc & Hl1 & Ht).
  rewrite (bind_ok _ _ _ _ _ Hsc).
  destruct Ht as [(Hty & Hscn & _)|(Hty & Hp & d & Hd & _)].
  - destruct (tok_eqb (Type_ t) EOF) eqn:He.
    + apply tok_eqb_eq in He. exists [t], l1. split; [done|]. apply tokens_end; [done|].
      pose proof Hscn as (a & ? & ? & ? & ? & ? & ? & Heof). by rewrite Heof in Hscn.
    + assert (Type_ t ≠ EOF) as Hne by (by intros ?%tok_eqb_eq; congruence).
      destruct (tok_eqb (Type_ t) ILLEGAL) eqn:Hi; [by apply tok_eqb_eq in Hi|]. cbn [orb].
      pose proof Hscn as (a & ? & ? & ? & ? & ? & Hlt & _). specialize (Hlt Hne).
      pose proof (wf_pos _ (ready_wf _ _ Hl1)) as Hp1. cbn in Hp1. rewrite (ready_src _ _ Hl1) in Hp1.
      destruct (IH l1 Hl1) as (ts & l2 & Hts & Hch); [lia|]. rewrite (bind_ok _ _ _ _ _ Hts).
      exists (t :: ts), l2. split; [done|]. by eapply tokens_cons.
  - rewrite Hty. cbn. exists [t], l1. split; [done|]. by eapply tokens_illegal.
Qed.
End reachable.

(** The scanner's own [Offset] inverts the line and column of every rune. *)
Lemma Offset_linecol `{U : Unicode} l i o L C :
  offs l !! i = Some o → (i ≤ length (src l))%nat → linecol_at (src l) i = (L, C) →
  Offset L C l = (Ok o, l).
Proof.
  intros Ho Hi Hlc. pose proof (linecol_at_start _ _ Hi) as H. rewrite Hlc in H. destruct H as (HL & HC & Hs).
  unfold Offset. assert ((L <? 1) || (C <? 1) = false) as -> by (rewrite orb_false_iff, !Z.ltb_ge; lia).
  unfold mbind, LexM_bind, M_bind, get. cbv zeta. rewrite Hs.
  assert ((length (src l) <? i)%nat = false) as -> by (by apply Nat.ltb_ge).
  unfold index. by rewrite Ho.
Qed.

(** ** What the mode of a scan decides

    Under two modes the same token is scanned, unless it starts with [>] or
    [/] and is one of [mode_types] under both. *)

Definition mode_types : list TokenType :=
  [GT; GTE; RSHIFT; RSHIFT_ASSIGN; URSHIFT; URSHIFT_ASSIGN; SLASH; SLASH_ASSIGN; REGEX; ILLEGAL].

Section modes.
Context `{U : Unicode}.

Definition answers (m : LexM Token) : Prop := ∀ l t l', m l = (Ok t, l') → Type_ t ∈ mode_types.

Lemma answers_bind {A} (m : LexM A) k : (∀ a, answers (k a)) → answers (m ≫= k).
Proof. intros H l t l'. unfold mbind, LexM_bind, M_bind. destruct (m l) as [[a| | |] l1]; try done. apply H. Qed.
Lemma answers_tok t lit ln cl : t ∈ mode_types → answers (tok t lit ln cl).
Proof.
  intros Ht l u l'. unfold tok, get, index, modify, mbind, LexM_bind, M_bind.
  destruct (offs l !! startPos l), (offs l !! pos l); try done. by intros [= <- _].
Qed.
Lemma answers_throw ln cl m args : answers (Lexer.errAt ln cl m args).
Proof. apply answers_bind. intros l. apply answers_bind. intros a. apply answers_bind. by intros b l1 t l'. Qed.
Lemma answers_readRegex ln cl : answers (readRegex ln cl).
Proof.
  unfold readRegex. do 3 (apply answers_bind; intros ?). destruct (_ || _); [apply answers_throw|].
  intros l u l'. unfold mbind, LexM_bind, M_bind. destruct (tok REGEX _ _ _ l) as [[t| | |] l1] eqn:Ht; try done.
  intros [= <- _]. cbn. by apply answers_tok in Ht; [|set_solver].
Qed.
Lemma answers_eat c k e : answers k → answers e → answers (eat c k e).
Proof. intros. unfold eat. apply answers_bind. intros x. destruct (_ =? _); [by apply answers_bind|done]. Qed.

Lemma answers_moded c n ln cl rx : moded c = true → answers (arms c n ln cl rx).
Proof.
  unfold moded, arms. intros [->%Z.eqb_eq| ->%Z.eqb_eq]%orb_true_iff;
    destruct rx; try apply answers_readRegex; unfold isIdentStart; rewrite IsDigit_ascii, IsLetter_ascii by lia; cbn;
    apply answers_bind; intros _; [apply answers_bind; intros m; destruct (negb _)|];
    repeat apply answers_eat; apply answers_tok; set_solver.
Qed.

Definition answered (o : outcome Diagnostic Token * Lexer) : Prop := match o.1 with Ok t => Type_ t ∈ mode_types | _ => True end.
Lemma answers_answered m l : answers m → answered (m l).
Proof. intros H. unfold answered. destruct (m l) as [[t| | |] l'] eqn:E; try done. by apply (H l t l'). Qed.

(** The outcomes of a scan under two modes. *)
Definition alike (o1 o2 : outcome Diagnostic Token * Lexer) : Prop :=
  (o1.1 = o2.1 ∧ sim Remoded o1.2 o2.2) ∨ (answered o1 ∧ answered o2).

Lemma alike_bind {A} (m1 m2 : LexM A) k1 k2 l1 l2 :
  rel Remoded Remoded m1 m2 → sim Remoded l1 l2 → (∀ a l1 l2, sim Remoded l1 l2 → alike (k1 a l1) (k2 a l2)) →
  alike ((m1 ≫= k1) l1) ((m2 ≫= k2) l2).
Proof.
  intros Hm Hl Hk. destruct (Hm l1 l2 Hl) as [Hr Hs]. unfold mbind, LexM_bind, M_bind.
  destruct (m1 l1) as [o1 s1], (m2 l2) as [o2 s2]. cbn in *. subst o2.
  destruct o1 as [a| | |]; [by apply Hk|by left..].
Qed.

Lemma nextToken_alike n l1 l2 : sim Remoded l1 l2 → alike (nextToken n l1) (nextToken n l2).
Proof.
  revert l1 l2. induction n as [|n IH]; intros l1 l2 H; [by left|]. cbn [nextToken].
  apply alike_bind; [apply resp_skipWhitespace|done|]. clear l1 l2 H. intros _ l1 l2 H.
  apply alike_bind; [|done|].
  { apply rel_modify. intros l3 l4 []. constructor; try done. }
  clear l1 l2 H. intros _ l1 l2 H.
  apply alike_bind; [apply rel_more|done|]. clear l1 l2 H. intros b l1 l2 H.
  unfold get, mbind, LexM_bind, M_bind.
  assert (peek_of l1 = peek_of l2) as Hp by (unfold peek_of, rune_at; by sim_rw H).
  assert (peekAt_of 1 l1 = peekAt_of 1 l2) as Hp1 by (unfold peekAt_of, rune_at; by sim_rw H).
  rewrite Hp, Hp1, (sim_line _ _ _ H), (sim_col _ _ _ H). destruct (negb b).
  { left. by apply rel_tok. }
  destruct (_ && _).
  { refine (alike_bind line_comment line_comment _ _ l1 l2 _ H _); [by apply resp_line_comment|intros _; apply IH]. }
  destruct (_ && _).
  { refine (alike_bind block_comment block_comment _ _ l1 l2 _ H _); [by apply resp_block_comment|intros _; apply IH]. }
  destruct (moded (peek_of l1)) eqn:Hm.
  - right. rewrite !readToken_arms. split; apply answers_answered, answers_moded; [done|by rewrite <- Hp].
  - left. by apply resp_readToken.
Qed.

(** Scanned under two modes, a token is the same, with the same state after it,
    or is one of [mode_types] in both. *)
Lemma Scan_alike s m m' l :
  ready s l → ∃ t l1 t' l2, Scan m l = (Ok t, l1) ∧ Scan m' l = (Ok t', l2) ∧
    ((t = t' ∧ Mark l1 = Mark l2) ∨ (Type_ t ∈ mode_types ∧ Type_ t' ∈ mode_types)).
Proof.
  intros Hl. destruct (Scan_ready s m l Hl) as (t & l1 & H1 & _).
  destruct (Scan_ready s m' l Hl) as (t' & l2 & H2 & _). exists t, l1, t', l2. split_and!; [done|done|].
  assert (∀ m t l1, Scan m l = (Ok t, l1) → answered (NextToken (set_mode m l)) → Type_ t ∈ mode_types) as Hmt.
  { intros m0 t0 l0 Hsc. unfold Scan in Hsc. unfold answered. destruct (NextToken _) as [[u|e| |] lu]; try done.
    - by injection Hsc as <- _.
    - unfold index, mbind, LexM_bind, M_bind in Hsc. destruct (offs _ !! startPos _), (offs _ !! pos _); try done.
      injection Hsc as <- _. intros _. cbn. set_solver. }
  assert (sim Remoded (set_sawNL false (set_mode m l)) (set_sawNL false (set_mode m' l))) as Hsim by by constructor.
  assert (alike (NextToken (set_mode m l)) (NextToken (set_mode m' l))) as [[Hr Hs]|[Ha Ha']].
  { unfold NextToken, modify, get, mbind, LexM_bind, M_bind.
    change (fuel (set_sawNL false (set_mode m' l))) with (fuel (set_sawNL false (set_mode m l))).
    set (n := fuel _). destruct (nextToken_alike n _ _ Hsim) as [[Hr Hs]|[Ha Ha']];
      destruct (nextToken n (set_sawNL false (set_mode m l))) as [o1 s1], (nextToken n (set_sawNL false (set_mode m' l))) as [o2 s2];
      cbn in *; [left|right].
    - subst o2. destruct o1; cbn; split; try done. destruct Hs. by constructor.
    - unfold answered in *. cbn in *. split; [destruct o1|destruct o2]; done. }
  - left. unfold Scan in H1, H2. destruct (NextToken (set_mode m l)) as [o1 s1], (NextToken (set_mode m' l)) as [o2 s2].
    cbn in *. subst o2. destruct Hs. destruct o1 as [u|e| |]; try done; simplify_eq.
    + split; [done|]. unfold Mark. cbn. by f_equal.
    + unfold index, mbind, mret, LexM_bind, LexM_ret, M_bind, M_ret in *. cbn in *.
      destruct (sim_start ltac:(done)) as [Hst _].
      rewrite sim_offs, Hst, sim_pos in H1. destruct (offs s2 !! startPos s2), (offs s2 !! pos s2); try done.
      simplify_eq. unfold Mark. cbn. split; congruence.
  - right. eauto.
Qed.
End modes.
