(* ===== verification/LexerProps.v ===== *)
(** * Properties of the scanner: totality, positions, rescanning *)

From S2P Require Import Prelude GoString Diag Token Lexer LexerFacts LexerSim LexerPos.
Open Scope Z_scope.

Section props.
Context `{U : Unicode}.

(** C5: in every state a parser can bring it to, by scanning in any mode and
    by rewinding to any state it marked, [Scan] answers: it never indexes out
    of range and its loops end.  Its answer is an ILLEGAL token that carries
    the diagnostic, or a token whose line, column and byte range are those
    of a rune range of the source that starts at or after the end of the
    token before, is not empty unless the source has ended, and whose
    line-break flag says whether a line terminator lies between the two. *)
Theorem scan_total s l m :
  reachable s l →
  ∃ t l', Scan m l = (Ok t, l') ∧ reachable s l' ∧ mode l' = ScanDefault
    ∧ (if decide (Type_ t = ILLEGAL)
       then ∃ d, TErr t = Some d ∧ Literal t = Diagnostic_Error d
       else scanned s (pos l) t (pos l')).
Proof.
  intros Hl. destruct (Scan_ready s m l (reachable_ready _ _ Hl)) as (t & l' & Hsc & Hr & Ht).
  exists t, l'. split; [done|]. split; [by eapply reach_Scan|]. split; [by apply Hr|].
  case_decide; destruct Ht as [(? & ? & _)|(? & _ & ?)]; done.
Qed.

(** C3: the scan of a whole source, in any mode, ends within one token per
    rune and one more, and its tokens follow each other through the source
    without overlap up to EOF or to the first ILLEGAL token. *)
Theorem scanAll_tokens s m :
  ∃ ts l', scanAll (length (runes_of s) + 2) m (New s) = (Ok ts, l') ∧ tokens_from s 0 ts.
Proof. apply (scanAll_ready s m _ (New s) (New_ready s)). cbn. lia. Qed.

(** C28: the line and column a token reports lead back to its first byte,
    both by the scanner's own [Offset] and by [diag.Offsets], for any bytes
    (the source need not be valid UTF-8). *)
Theorem position_roundtrip s l m t l' :
  reachable s l → Scan m l = (Ok t, l') → Type_ t ≠ ILLEGAL →
  Offset (TLine t) (TCol t) l' = (Ok (TPos t), l') ∧
  Offsets s (TLine t) (TCol t) = Z.of_nat (TPos t).
Proof.
  intros Hl Hsc Hty. destruct (Scan_ready s m l (reachable_ready _ _ Hl)) as (t1 & l1 & Hsc1 & Hr & Ht).
  rewrite Hsc in Hsc1. simplify_eq. destruct Ht as [(_ & (a & Ha & Hp & _ & Hlc & _) & _)|[? _]]; [|done].
  split; [|by eapply Offsets_linecol]. destruct Hr as [Hwf Hs Ho _].
  pose proof (wf_pos _ Hwf) as Hpos. cbn in Hpos.
  apply (Offset_linecol l1 a); [by rewrite Ho|lia|by rewrite Hs].
Qed.

(** Rewinding to a marked state and scanning again yields the token
    that was scanned there, and leaves the scanner at the same position,
    whatever was scanned in between and although [Rewind] restores neither
    the start of the last token nor the doc comments collected since. *)
Theorem rewind_rescan s l l2 m :
  reachable s l → reachable s l2 →
  (Scan m (Rewind (Mark l) l2)).1 = (Scan m l).1
  ∧ Mark (Scan m (Rewind (Mark l) l2)).2 = Mark (Scan m l).2.
Proof.
  intros [_ Hs Ho Hm]%reachable_ready [_ Hs2 Ho2 Hm2]%reachable_ready.
  assert (sim Restarted (Rewind (Mark l) l2) l) as Hsim by (constructor; cbn; congruence).
  destruct (resp_Scan m _ _ Hsim) as [Hr Hl]. split; [done|].
  unfold Mark. destruct Hl as [_ _ ? ? ? ? _ ? ? ? _]. by f_equal.
Qed.
End props.

(** ** Instances on a small source *)

Lemma scan_total_witness :
  ∃ t l', Scan (U := ascii_unicode) ScanRegex (New "/a/g") = (Ok t, l') ∧ Type_ t = REGEX.
Proof.
  destruct (scan_total (U := ascii_unicode) "/a/g" (New "/a/g") ScanRegex (reach_New _))
    as (t & l' & Hsc & _).
  exists t, l'. split; [exact Hsc|]. vm_compute in Hsc. by injection Hsc as <- _.
Defined.

Definition sample_source : string := "a" +:+ str_byte 10 +:+ " b".
Definition sample_token : Token :=
  mkToken IDENT "b" "" "" 2 2 3 4 PrecedingLineBreak "" None.
Definition sample_state : Lexer := (Scan (U := ascii_unicode) ScanDefault (New sample_source)).2.
Definition sample_end : Lexer := (Scan (U := ascii_unicode) ScanDefault sample_state).2.

Lemma sample_state_reachable : reachable (U := ascii_unicode) sample_source sample_state.
Proof.
  apply (reach_Scan (U := ascii_unicode) _ ScanDefault (New sample_source)
           (mkToken IDENT "a" "" "" 1 1 0 1 0 "" None)); [apply reach_New|].
  vm_compute. reflexivity.
Qed.

Lemma position_roundtrip_witness :
  Scan (U := ascii_unicode) ScanDefault sample_state = (Ok sample_token, sample_end) ∧
  Offset 2 2 sample_end = (Ok 3%nat, sample_end) ∧ Offsets sample_source 2 2 = 3.
Proof.
  assert (Scan (U := ascii_unicode) ScanDefault sample_state = (Ok sample_token, sample_end)) as H
    by (vm_compute; reflexivity).
  split; [exact H|].
  exact (position_roundtrip (U := ascii_unicode) sample_source sample_state ScanDefault
           sample_token sample_end sample_state_reachable H ltac:(done)).
Defined.

Lemma rewind_rescan_witness :
  (Scan (U := ascii_unicode) ScanDefault (Rewind (Mark (New sample_source)) sample_state)).1
  = (Scan (U := ascii_unicode) ScanDefault (New sample_source)).1.
Proof.
  exact (proj1 (rewind_rescan (U := ascii_unicode) sample_source _ _ ScanDefault
                  (reach_New _) sample_state_reachable)).
Defined.
