(* ===== verification/LexerText.v ===== *)
(** * What the scanner makes of a text

    Execution on a state whose remaining runes are known: the tokens that
    identifiers, string literals, prefixed numbers and punctuators become. *)

From S2P Require Import Prelude GoString Diag Token Lexer LexerFacts LexerSim.
From Stdlib Require Import Ascii.
Open Scope Z_scope.

(** The runes not consumed yet, and the state after consuming some of them. *)
Definition rest (l : Lexer) : list rune := drop (pos l) (src l).
Definition adv (cs : list rune) (l : Lexer) : Lexer := foldl (λ l c, past c l) l cs.

Definition head_is (p : rune → bool) (rs : list rune) : bool :=
  match rs with c :: _ => p c | [] => false end.

Lemma rest_cons l c r : rest l = c :: r → src l !! pos l = Some c ∧ drop (S (pos l)) (src l) = r.
Proof.
  unfold rest. intros H. assert (src l !! pos l = Some c) as Hc.
  { rewrite <- (Nat.add_0_r (pos l)), <- lookup_drop, H. done. }
  split; [done|]. rewrite (drop_S _ c) in H by done. by injection H.
Qed.

Lemma rest_peek l c r : rest l = c :: r → peek_of l = c.
Proof. intros [H _]%rest_cons. unfold peek_of, rune_at. by rewrite H. Qed.

Lemma rest_peekAt l n : peekAt_of n l = match rest l !! n with Some c => c | None => 0 end.
Proof. unfold peekAt_of, rune_at, rest. by rewrite lookup_drop. Qed.

Lemma rest_peek_of l : peek_of l = match rest l with c :: _ => c | [] => 0 end.
Proof.
  unfold peek_of. rewrite <- (Nat.add_0_r (pos l)). fold (peekAt_of 0 l). rewrite rest_peekAt.
  by destruct (rest l).
Qed.

Lemma rest_past l c r : rest l = c :: r → rest (past c l) = r.
Proof. intros [_ H]%rest_cons. unfold rest. done. Qed.

Lemma rest_length l : (pos l ≤ length (src l))%nat → length (rest l) = (length (src l) - pos l)%nat.
Proof. intros. unfold rest. by rewrite length_drop. Qed.

Lemma rest_more l c r : rest l = c :: r → (pos l < length (src l))%nat.
Proof. intros [H _]%rest_cons. by eapply lookup_lt_Some. Qed.

Lemma rest_end l : rest l = [] → (length (src l) ≤ pos l)%nat.
Proof. unfold rest. intros H%(f_equal length). rewrite length_drop in H. cbn in H. lia. Qed.

Lemma adv_app cs ds l : adv (cs ++ ds) l = adv ds (adv cs l).
Proof. unfold adv. by rewrite foldl_app. Qed.

Lemma rest_adv cs l r : rest l = cs ++ r → rest (adv cs l) = r.
Proof.
  revert l. induction cs as [|c cs IH]; intros l H; [done|]. cbn. apply IH. by eapply rest_past.
Qed.

Lemma adv_fields cs l :
  src (adv cs l) = src l ∧ offs (adv cs l) = offs l ∧ pos (adv cs l) = (pos l + length cs)%nat
  ∧ startPos (adv cs l) = startPos l ∧ startNL (adv cs l) = startNL l
  ∧ pendingDoc (adv cs l) = pendingDoc l ∧ mode (adv cs l) = mode l
  ∧ templateStack (adv cs l) = templateStack l.
Proof.
  revert l. induction cs as [|c cs IH]; intros l; [cbn; by rewrite Nat.add_0_r|].
  change (adv (c :: cs) l) with (adv cs (past c l)).
  destruct (IH (past c l)) as (-> & -> & -> & -> & -> & -> & -> & ->). cbn.
  split_and!; try done; lia.
Qed.

Lemma adv_lastSig cs l : lastSig (adv cs l) = lastSig l.
Proof. revert l. induction cs as [|c cs IH]; intros l; [done|apply (IH (past c l))]. Qed.

Lemma adv_pos cs l : pos (adv cs l) = (pos l + length cs)%nat.
Proof. apply adv_fields. Qed.

Section exec.
Context `{U : Unicode}.

Lemma exec_advance l c r : rest l = c :: r → advance l = (Ok c, past c l).
Proof.
  intros H. unfold advance. rewrite (rest_peek l c r H). apply rest_cons in H as [H _].
  unfold step. by rewrite H.
Qed.

Lemma bind_advance {A} l c r (k : rune → LexM A) :
  rest l = c :: r → (advance ≫= k) l = k c (past c l).
Proof. intros H. by rewrite (bind_ok _ _ _ _ _ (exec_advance l c r H)). Qed.

Lemma bind_gets {A B} (f : Lexer → A) (k : A → LexM B) l : (gets f ≫= k) l = k (f l) l.
Proof. done. Qed.
Lemma bind_get {B} (k : Lexer → LexM B) l : (get ≫= k) l = k l l.
Proof. done. Qed.
Lemma bind_modify {B} f (k : unit → LexM B) l : (modify f ≫= k) l = k tt (f l).
Proof. done. Qed.
Lemma bind_ret {A B} (a : A) (k : A → LexM B) l : (mret a ≫= k) l = k a l.
Proof. done. Qed.
Lemma bind_peek {B} (k : rune → LexM B) l : (peek ≫= k) l = k (peek_of l) l.
Proof. done. Qed.
Lemma bind_peekAt {B} n (k : rune → LexM B) l : (peekAt n ≫= k) l = k (peekAt_of n l) l.
Proof. done. Qed.
Lemma bind_err {A B} (m : LexM A) (k : A → LexM B) l e l' :
  m l = (Err e, l') → (m ≫= k) l = (Err e, l').
Proof. unfold mbind, LexM_bind, M_bind. by intros ->. Qed.
Lemma bind_bind {A B C} (m : LexM A) (k : A → LexM B) (k' : B → LexM C) l :
  ((m ≫= k) ≫= k') l = (m ≫= λ a, (k a ≫= k')) l.
Proof. unfold mbind, LexM_bind, M_bind. by destruct (m l) as [[] ?]. Qed.

(** Big-step runs of a [scanning] loop. *)
Inductive scans {L B} (body : L → LexM (L + B)) (done : L → B) : L → Lexer → outcome Diagnostic B → Lexer → Prop :=
  | scans_end x l : rest l = [] → scans body done x l (Ok (done x)) l
  | scans_leave x l c r b l' :
      rest l = c :: r → body x l = (Ok (inr b), l') → scans body done x l (Ok b) l'
  | scans_fail x l c r e l' :
      rest l = c :: r → body x l = (Err e, l') → scans body done x l (Err e) l'
  | scans_round x l c r x' l1 o l' :
      rest l = c :: r → body x l = (Ok (inl x'), l1) →
      src l1 = src l → (pos l < pos l1)%nat → scans body done x' l1 o l' →
      scans body done x l o l'.

Lemma scans_run {L B} (body : L → LexM (L + B)) done x l o l' :
  scans body done x l o l' → scanning body done x l = (o, l').
Proof.
  intros H. unfold scanning. rewrite bind_get.
  assert (∀ n, (length (src l) - pos l < n)%nat →
    loop n (λ x, more ≫= λ b : bool, if b then body x else mret (inr (done x))) x l = (o, l')) as Hn;
    [|apply Hn; unfold fuel; lia].
  induction H as [x l He|x l c r b l' Hc Hb|x l c r e l' Hc Hb|x l c r x' l1 o l' Hc Hb Hs Hp _ IH];
    intros [|n] Hn; try lia; cbn [loop].
  - apply rest_end in He. unfold more.
    rewrite bind_bind, bind_gets. assert ((pos l <? length (src l))%nat = false) as -> by (by apply Nat.ltb_ge).
    done.
  - apply rest_more in Hc. unfold more. rewrite bind_bind, bind_gets.
    assert ((pos l <? length (src l))%nat = true) as -> by (by apply Nat.ltb_lt).
    by rewrite (bind_ok _ _ _ _ _ Hb).
  - apply rest_more in Hc. unfold more. rewrite bind_bind, bind_gets.
    assert ((pos l <? length (src l))%nat = true) as -> by (by apply Nat.ltb_lt).
    by rewrite (bind_err _ _ _ _ _ Hb).
  - apply rest_more in Hc. unfold more. rewrite bind_bind, bind_gets.
    assert ((pos l <? length (src l))%nat = true) as -> by (by apply Nat.ltb_lt).
    rewrite (bind_ok _ _ _ _ _ Hb). apply IH. rewrite Hs. lia.
Qed.

Lemma exec_tok l t lit ln cl :
  wf l →
  ∃ a b, offs l !! startPos l = Some a ∧ offs l !! pos l = Some b ∧
    tok t lit ln cl l =
      (Ok (mkToken t lit "" "" ln cl a b (if startNL l then PrecedingLineBreak else 0)
             (pendingDoc l) None), set_doc "" l).
Proof.
  intros Hwf. destruct (wf_offs_lookup l (startPos l)) as [a Ha];
    [done|pose proof (wf_start _ Hwf); pose proof (wf_pos _ Hwf); lia|].
  destruct (wf_offs_lookup l (pos l)) as [b Hb]; [done|apply Hwf|].
  exists a, b. split; [done|]. split; [done|]. unfold tok. rewrite bind_get.
  unfold index. rewrite Ha, Hb. done.
Qed.

Lemma adv_wf cs l r : wf l → rest l = cs ++ r → wf (adv cs l).
Proof.
  revert l. induction cs as [|c cs IH]; intros l Hwf Hr; [done|]. cbn. apply IH; [|by eapply rest_past].
  apply rest_cons in Hr as [Hr _]. by apply past_wf.
Qed.

(** ** White space *)

Definition is_blank (c : rune) : bool := IsSpace c || (c =? 0xFEFF).

Lemma exec_skipWhitespace ws l r :
  rest l = ws ++ r → Forall (λ c, is_blank c = true) ws → head_is is_blank r = false →
  skipWhitespace l = (Ok tt, adv ws l).
Proof.
  intros Hr Hws Hh. unfold skipWhitespace. apply scans_run. revert l Hr.
  induction Hws as [|c ws Hc Hws IH]; intros l Hr.
  - destruct r as [|c r]; [by apply scans_end|]. eapply scans_leave; [done|].
    unfold peek. rewrite bind_gets, (rest_peek l c r) by done. cbn in Hh. unfold is_blank in Hh.
    by rewrite Hh.
  - eapply scans_round with (l1 := past c l); [done| |done| |apply IH; by eapply rest_past]; [|cbn; lia].
    unfold peek. rewrite bind_gets, (rest_peek l c (ws ++ r)) by done. unfold is_blank in Hc. rewrite Hc.
    by rewrite (bind_advance l c (ws ++ r)).
Qed.

(** The scanner at the first rune of a token, after the blanks before it. *)
Definition at_token (ws : list rune) (l : Lexer) : Lexer :=
  let l := adv ws (set_sawNL false l) in set_start (pos l) (sawNL l) l.

Lemma adv_sawNL ws l : sawNL (adv ws l) = existsb isLineTerminator ws || sawNL l.
Proof.
  revert l. induction ws as [|c ws IH]; intros l; [done|].
  change (adv (c :: ws) l) with (adv ws (past c l)). rewrite IH. cbn.
  by rewrite orb_assoc, (orb_comm (existsb _ _)).
Qed.

Lemma at_token_wf ws l r : wf l → rest l = ws ++ r → wf (at_token ws l).
Proof.
  intros Hwf Hr. unfold at_token. cbv zeta. apply set_start_wf.
  eapply (adv_wf ws _ r); [destruct Hwf; by constructor|done].
Qed.

Lemma at_token_rest ws l r : rest l = ws ++ r → rest (at_token ws l) = r.
Proof. intros H. unfold at_token. cbv zeta. exact (rest_adv ws (set_sawNL false l) r H). Qed.

Lemma exec_NextToken ws l c r :
  rest l = ws ++ c :: r → Forall (λ c, is_blank c = true) ws → is_blank c = false →
  (c =? ch "/") && (head_is (Z.eqb (ch "/")) r || head_is (Z.eqb (ch "*")) r) = false →
  NextToken l = (t ← readToken; modify (set_lastSig (Type_ t)) ≫= λ _, mret t) (at_token ws l).
Proof.
  intros Hr Hws Hc Hcom. unfold NextToken. rewrite bind_modify, bind_get. unfold fuel at 1. cbn [nextToken].
  set (l1 := set_sawNL false l). assert (rest l1 = ws ++ c :: r) as Hr1 by done.
  rewrite bind_bind, (bind_ok _ _ _ _ _ (exec_skipWhitespace ws l1 (c :: r) Hr1 Hws Hc)).
  rewrite bind_bind, bind_modify. fold (at_token ws l).
  change (set_start _ _ _) with (at_token ws l).
  pose proof (at_token_rest ws l (c :: r) Hr) as Hr2. unfold more.
  rewrite bind_bind, bind_gets, bind_bind, bind_get.
  assert ((pos (at_token ws l) <? length (src (at_token ws l)))%nat = true) as ->
    by (apply Nat.ltb_lt; by eapply rest_more). cbn [negb].
  rewrite (rest_peek _ _ _ Hr2), rest_peekAt, Hr2. cbn [lookup list_lookup].
  destruct (c =? 47); [|done]. cbn [andb] in *. apply orb_false_iff in Hcom as [Hcom1 Hcom2].
  destruct r as [|c1 r]; [done|]. cbn [head_is list_lookup] in *. rewrite (Z.eqb_sym c1), Hcom1, (Z.eqb_sym c1), Hcom2. done.
Qed.
End exec.

(** ** Results *)

Section reads_as.
Context `{U : Unicode}.

(** From [l], whose rest is the blanks [ws], the runes [text] and then [r],
    the next token is [typ] with literal [lit], made of exactly [text]. *)
Definition reads_as (l : Lexer) (ws text r : list rune) (typ : TokenType) (lit : string) : Prop :=
  ∃ t l', NextToken l = (Ok t, l') ∧ Type_ t = typ ∧ Literal t = lit
    ∧ pos l' = (pos l + length ws + length text)%nat ∧ rest l' = r
    ∧ offs l !! (pos l + length ws)%nat = Some (TPos t) ∧ offs l !! pos l' = Some (TEnd t)
    ∧ HasPrecedingLineBreak t = existsb isLineTerminator ws.

Definition not_comment (c : rune) (r : list rune) : Prop :=
  (c =? ch "/") && (head_is (Z.eqb (ch "/")) r || head_is (Z.eqb (ch "*")) r) = false.

Lemma reads_as_intro l ws c text r typ lit ln cl :
  wf l → rest l = ws ++ (c :: text) ++ r → Forall (λ c, is_blank c = true) ws → is_blank c = false →
  not_comment c (text ++ r) →
  readToken (at_token ws l) = tok typ lit ln cl (adv (c :: text) (at_token ws l)) →
  reads_as l ws (c :: text) r typ lit.
Proof.
  intros Hwf Hr Hws Hc Hcom Hrt.
  pose proof (exec_NextToken ws l c (text ++ r) Hr Hws Hc Hcom) as Hn.
  pose proof (at_token_rest ws l _ Hr) as Hr1. set (l1 := at_token ws l) in *.
  assert (wf (adv (c :: text) l1)) as Hwf2 by (eapply adv_wf; [by eapply at_token_wf|done]).
  pose proof (adv_fields (c :: text) l1) as (Hs & Ho & Hp & Hsp & HN & _).
  pose proof (adv_fields ws (set_sawNL false l)) as (Hs1 & Ho1 & Hp1 & _).
  destruct (exec_tok _ typ lit ln cl Hwf2) as (a & b & Ha & Hb & Ht).
  rewrite Ht in Hrt. rewrite (bind_ok _ _ _ _ _ Hrt) in Hn.
  assert (pos l1 = (pos l + length ws)%nat) as Hpl by exact Hp1.
  assert (offs l1 = offs l) as Hol by exact Ho1.
  assert (startPos l1 = pos l1) as Hst by done.
  assert (startNL l1 = existsb isLineTerminator ws) as Hnl.
  { change (startNL l1) with (sawNL (adv ws (set_sawNL false l))). rewrite adv_sawNL. apply orb_false_r. }
  eexists _, _. split; [exact Hn|]. split; [done|]. split; [done|].
  change (pos (set_lastSig _ _)) with (pos (adv (c :: text) l1)).
  change (rest (set_lastSig _ _)) with (rest (adv (c :: text) l1)).
  rewrite Hp, Hpl. split; [done|]. split; [by apply (rest_adv (c :: text) l1 r)|].
  rewrite Hsp, Hst, Hpl, Ho, Hol in Ha. rewrite Hp, Hpl, Ho, Hol in Hb.
  split; [done|]. split; [done|]. unfold HasPrecedingLineBreak. cbn -[adv]. rewrite HN, Hnl.
  by destruct (existsb _ ws).
Qed.
End reads_as.

(** ** Identifiers and keywords *)

Section idents.
Context `{U : Unicode}.

Lemma identStart_not c v :
  isIdentStart c = true → 0 ≤ v < 128 → ascii_letter v || (v =? 95) || (v =? 36) = false → (c =? v) = false.
Proof.
  intros Hc Hv Hn. apply Z.eqb_neq. intros ->. unfold isIdentStart in Hc.
  by rewrite IsLetter_ascii, Hn in Hc.
Qed.

Lemma identStart_digit c : isIdentStart c = true → IsDigit c = false.
Proof.
  unfold isIdentStart. intros [[Hc| ->%Z.eqb_eq]%orb_true_iff| ->%Z.eqb_eq]%orb_true_iff;
    [by apply IsLetter_not_digit|by rewrite IsDigit_ascii..].
Qed.

Lemma identStart_blank c : isIdentStart c = true → is_blank c = false.
Proof.
  unfold isIdentStart, is_blank. intros [[Hc| ->%Z.eqb_eq]%orb_true_iff| ->%Z.eqb_eq]%orb_true_iff; [|done..].
  destruct (IsLetter_not_space c Hc) as [-> ?]. by apply Z.eqb_neq.
Qed.

Lemma exec_readIdentParts w l r buf :
  rest l = w ++ r → Forall (λ c, isIdentPart c = true) w → head_is isIdentPart r = false →
  readIdentParts buf l = (Ok (buf +:+ encode w), adv w l).
Proof.
  intros Hr Hw Hh. unfold readIdentParts. apply scans_run. revert l buf Hr.
  induction Hw as [|c w Hc Hw IH]; intros l buf Hr.
  - rewrite append_nil_r. destruct r as [|c r]; [by apply scans_end|]. eapply scans_leave; [done|].
    rewrite bind_peek, (rest_peek l c r) by done. cbn in Hh. by rewrite Hh.
  - eapply scans_round with (l1 := past c l); [done| |done| |]; [|cbn; lia|].
    + rewrite bind_peek, (rest_peek l c (w ++ r)) by done. rewrite Hc.
      by rewrite (bind_advance l c (w ++ r)).
    + rewrite encode_cons, <- append_assoc. apply IH. by eapply rest_past.
Qed.

(** C37: after blanks, an identifier is scanned up to its first rune that cannot
    continue it: its literal is its text, and its type is the one the keyword
    table gives that text, or IDENT; the token has its exact byte range, and
    the line-break flag exactly when the blanks hold a line terminator. *)
Theorem ident_scan l ws c w r :
  wf l → rest l = ws ++ (c :: w) ++ r → Forall (λ c, is_blank c = true) ws →
  isIdentStart c = true → Forall (λ c, isIdentPart c = true) w → head_is isIdentPart r = false →
  reads_as l ws (c :: w) r (LookupIdent (encode (c :: w))) (encode (c :: w)).
Proof.
  intros Hwf Hr Hws Hc Hw Hh. pose proof (λ v, identStart_not c v Hc) as Hne.
  pose proof (at_token_rest ws l _ Hr) as Hr1.
  eapply (reads_as_intro l ws c w r _ _ _ _ Hwf Hr Hws); [by apply identStart_blank| |].
  { unfold not_comment. by rewrite Hne. }
  unfold readToken. rewrite bind_get. cbv zeta. rewrite (rest_peek _ _ _ Hr1).
  rewrite (Hne 47), (Hne 46), (Hne 96), (Hne 34), (Hne 39), (identStart_digit c Hc), Hc by done.
  cbn [andb orb]. unfold readIdent.
  erewrite bind_ok; [|eapply (exec_readIdentParts (c :: w)); [exact Hr1| |done]];
    [rewrite append_nil_l; reflexivity|].
  constructor; [|done]. unfold isIdentStart, isIdentPart in *. by destruct (IsLetter c), (IsDigit c).
Qed.
End idents.

(** ** String literals *)

(** The value of hexadecimal digits, after those already read. *)
Fixpoint hex_value (acc : Z) (ds : list rune) : option Z :=
  match ds with
  | [] => Some acc
  | d :: ds => match hexDigitVal d with Some v => hex_value (acc * 16 + v) ds | None => None end
  end.

(** The single-character escapes. *)
Definition simple_escapes : list (rune * rune) :=
  [(ch "n", 10); (ch "t", 9); (ch "r", 13); (ch "b", 8); (ch "f", 12); (ch "v", 11);
   (ch "\", ch "\"); (0x22, 0x22); (ch "'", ch "'"); (ch "`", ch "`")].

(** [spells q v text]: between two quotes [q] the runes [text] are one character,
    escape sequence or line continuation, with the value [v]. *)
Inductive spells (q : rune) : list rune → list rune → Prop :=
  | spells_char c : c ≠ q → c ≠ ch "\" → c ≠ 10 → c ≠ 13 → spells q [c] [c]
  | spells_simple e c : (e, c) ∈ simple_escapes → spells q [c] [ch "\"; e]
  | spells_hex d1 d2 v : hex_value 0 [d1; d2] = Some v → spells q [v] [ch "\"; ch "x"; d1; d2]
  | spells_unicode d1 d2 d3 d4 v :
      hex_value 0 [d1; d2; d3; d4] = Some v → spells q [v] [ch "\"; ch "u"; d1; d2; d3; d4]
  | spells_braced ds v :
      ds ≠ [] → hex_value 0 ds = Some v → v ≤ 0x10FFFF →
      spells q [v] ([ch "\"; ch "u"; ch "{"] ++ ds ++ [ch "}"])
  | spells_continuation c : c ∈ [10; 0x2028; 0x2029] → spells q [] [ch "\"; c]
  | spells_crlf : spells q [] [ch "\"; 13; 10].

Lemma hexDigitVal_bounds c d : hexDigitVal c = Some d → 0 ≤ d < 16.
Proof. unfold hexDigitVal. repeat case_match; intros; simplify_eq; rune_bools; lia. Qed.

Lemma hex_value_ge ds acc v : 0 ≤ acc → hex_value acc ds = Some v → acc ≤ v.
Proof.
  revert acc. induction ds as [|d ds IH]; intros acc Ha; cbn; [intros [= ->]; lia|].
  destruct (hexDigitVal d) as [x|] eqn:Hd; [|done]. apply hexDigitVal_bounds in Hd.
  intros H. apply IH in H; lia.
Qed.

Section strings.
Context `{U : Unicode}.

Lemma exec_readHexEscape ds l r acc v :
  rest l = ds ++ r → hex_value acc ds = Some v →
  readHexEscape_from (length ds) acc l = (Ok (Some v), adv ds l).
Proof.
  revert l acc. induction ds as [|d ds IH]; intros l acc Hr Hv; cbn in Hv |- *; [by simplify_eq|].
  rewrite bind_peek, (rest_peek l d (ds ++ r)) by done.
  destruct (hexDigitVal d) as [x|]; [|done]. rewrite (bind_advance l d (ds ++ r)) by done.
  apply IH; [by eapply rest_past|done].
Qed.

Lemma exec_braced_digits ds l r ln cl acc v n :
  rest l = ds ++ ch "}" :: r → 0 ≤ acc → hex_value acc ds = Some v → v ≤ 0x10FFFF →
  scans (λ '(val, n),
       c ← peek;
       if c =? ch "}" then mret (inr (val, n))
       else match hexDigitVal c with
            | None => errAt ln cl InvalidUnicodeEscape []
            | Some d =>
                advance ≫= λ _,
                let val := val * 16 + d in
                if 0x10FFFF <? val then errAt ln cl CodePointOutOfRange []
                else mret (inl (val, S n))
            end) id (acc, n) l (Ok (v, n + length ds)%nat) (adv ds l).
Proof.
  revert l acc n. induction ds as [|d ds IH]; intros l acc n Hr Ha Hv Hm.
  - cbn in Hv. simplify_eq. eapply scans_leave; [done|].
    rewrite bind_peek, (rest_peek l _ _ Hr). cbn. by rewrite Nat.add_0_r.
  - cbn [hex_value] in Hv. destruct (hexDigitVal d) as [x|] eqn:Hd; [|done].
    pose proof (hexDigitVal_bounds _ _ Hd). pose proof (hex_value_ge ds (acc * 16 + x) v ltac:(lia) Hv).
    eapply scans_round with (l1 := past d l) (x' := (acc * 16 + x, S n)); [done| |done| |].
    + rewrite bind_peek, (rest_peek l _ _ Hr), Hd.
      assert ((d =? 125) = false) as -> by (apply Z.eqb_neq; by intros ->).
      rewrite (bind_advance l _ _ _ Hr). cbv zeta.
      by assert ((0x10FFFF <? acc * 16 + x) = false) as -> by (apply Z.ltb_ge; lia).
    + cbn. lia.
    + cbn [length]. rewrite Nat.add_succ_r. apply (IH (past d l) _ (S n)); [by eapply rest_past|lia|done|done].
Qed.

Lemma exec_unicode_braced ds l r ln cl v :
  rest l = ds ++ ch "}" :: r → ds ≠ [] → hex_value 0 ds = Some v → v ≤ 0x10FFFF →
  unicode_braced ln cl l = (Ok v, adv (ds ++ [ch "}"]) l).
Proof.
  intros Hr Hne Hv Hm. unfold unicode_braced.
  pose proof (scans_run _ _ _ _ _ _ (exec_braced_digits ds l r ln cl 0 v 0%nat Hr ltac:(lia) Hv Hm)) as Hd.
  unfold braced_digits. rewrite (bind_ok _ _ _ _ _ Hd). cbn [Nat.add].
  pose proof (rest_adv ds l _ Hr) as Hr1. rewrite bind_peek, (rest_peek _ _ _ Hr1).
  destruct ds as [|d ds]; [done|]. cbn [length Nat.eqb orb negb Z.eqb Pos.eqb].
  rewrite (bind_advance _ _ _ _ Hr1), adv_app. done.
Qed.

(** One escape sequence, past its backslash. *)
Lemma exec_escape q v text l r ln cl buf :
  spells q v (ch "\" :: text) → rest l = text ++ r →
  scanStringEscape buf ln cl l = (Ok (buf +:+ encode v), adv text l).
Proof.
  intros Hs Hr. inversion Hs as [c ? Hc|e c Hin|d1 d2 x Hx|d1 d2 d3 d4 x Hx|ds x Hne Hx Hm|c Hin|];
    subst; cbn [app] in *; try done; unfold scanStringEscape.
  - rewrite (bind_advance _ _ _ _ Hr).
    repeat (apply elem_of_cons in Hin as [[= -> ->]|Hin]; [reflexivity|]).
    by apply elem_of_nil in Hin.
  - rewrite (bind_advance _ _ _ _ Hr). cbn -[adv readHexEscape past]. unfold readHexEscape.
    erewrite bind_ok; [|eapply (exec_readHexEscape [d1; d2]); [exact (rest_past _ _ _ Hr)|done]].
    by rewrite append_nil_r.
  - rewrite (bind_advance _ _ _ _ Hr). pose proof (rest_past _ _ _ Hr) as Hr1. cbn -[adv readHexEscape past unicode_braced].
    rewrite bind_peek, (rest_peek _ _ _ Hr1).
    assert ((d1 =? 123) = false) as ->.
    { apply Z.eqb_neq. intros ->. done. }
    erewrite bind_ok; [|eapply (exec_readHexEscape [d1; d2; d3; d4]); [exact Hr1|done]].
    by rewrite append_nil_r.
  - rewrite (bind_advance _ _ _ _ Hr). pose proof (rest_past _ _ _ Hr) as Hr1. cbn -[adv readHexEscape past unicode_braced].
    rewrite bind_peek, (rest_peek _ _ _ Hr1). cbn [Z.eqb Pos.eqb]. rewrite (bind_advance _ _ _ _ Hr1).
    apply rest_past in Hr1. rewrite <- app_assoc in Hr1.
    erewrite bind_ok; [|eapply exec_unicode_braced; [exact Hr1|done..]].
    by rewrite append_nil_r.
  - rewrite (bind_advance _ _ _ _ Hr). rewrite append_nil_r.
    repeat (apply elem_of_cons in Hin as [->|Hin]; [done|]). by apply elem_of_nil in Hin.
  - rewrite (bind_advance _ _ _ _ Hr), append_nil_r. pose proof (rest_past _ _ _ Hr) as Hr1. cbn -[adv readHexEscape past unicode_braced].
    rewrite bind_peek, (rest_peek _ _ _ Hr1). cbn [Z.eqb Pos.eqb]. by rewrite (bind_advance _ _ _ _ Hr1).
Qed.

(** Texts between quotes and their values. *)
Inductive spells_all (q : rune) : list rune → list rune → Prop :=
  | spells_nil : spells_all q [] []
  | spells_cons v text vs texts :
      spells q v text → spells_all q vs texts → spells_all q (v ++ vs) (text ++ texts).

Lemma exec_string_body q v text l r ln cl buf :
  spells_all q v text → q ≠ ch "\" → rest l = text ++ q :: r →
  string_body q ln cl buf l = (Ok (Some (buf +:+ encode v)), adv (text ++ [q]) l).
Proof.
  intros Hs Hq Hr. unfold string_body. apply scans_run. revert l buf Hr.
  induction Hs as [|v text vs texts Hv Hs IH]; intros l buf Hr.
  - rewrite append_nil_r. eapply scans_leave; [done|].
    by rewrite bind_peek, (rest_peek _ _ _ Hr), Z.eqb_refl, (bind_advance _ _ _ _ Hr).
  - rewrite <- app_assoc in Hr |- *. rewrite encode_app, <- append_assoc, adv_app.
    pose proof (rest_adv text l _ Hr) as Hr1.
    assert (0 < length text)%nat as Hlen by (by destruct Hv; cbn; lia).
    pose proof (adv_fields text l) as (Hsrc & _ & Hpos & _).
    assert (∃ c cs, text = c :: cs) as (c & cs & ->) by (destruct text; [cbn in Hlen; lia|eauto]).
    eapply scans_round with (l1 := adv (c :: cs) l); [done| |done|lia|apply IH; exact Hr1].
    rewrite bind_peek, (rest_peek _ _ _ Hr). destruct (Z.eqb_spec c (ch "\")) as [->|Hbs].
    + assert ((ch "\" =? q) = false) as -> by (by apply Z.eqb_neq).
      rewrite (bind_advance _ _ _ _ Hr). apply rest_past in Hr.
      by rewrite (bind_ok _ _ _ _ _ (exec_escape q v cs _ _ ln cl buf Hv Hr)).
    + inversion Hv; subst; try done.
      repeat match goal with |- context [?x =? ?y] =>
        assert ((x =? y) = false) as -> by (by apply Z.eqb_neq) end. cbn [orb andb].
      rewrite (bind_advance _ _ _ _ Hr). cbn. by rewrite append_nil_r.
Qed.

End strings.

(** ** Digits with separators *)

Section digits.
Context `{U : Unicode}.
Context (isDigit : rune → bool) (Hus : isDigit (ch "_") = false) (Hz : isDigit 0 = false).

(** [groups prev v text]: [text] is the digits [v] with single underscores
    between digits; [prev] says whether a digit comes before it. *)
Inductive groups : bool → list rune → list rune → Prop :=
  | groups_end prev : groups prev [] []
  | groups_digit prev c v text :
      isDigit c = true → groups true v text → groups prev (c :: v) (c :: text)
  | groups_sep c v text :
      isDigit c = true → groups true v text → groups true (c :: v) (ch "_" :: c :: text).

Definition digit_or_sep (c : rune) : bool := isDigit c || (c =? ch "_").

Lemma bind_errAt_Ok {A B} ln cl m args (k : A → LexM B) l b l' :
  (errAt ln cl m args ≫= k) l = (Ok b, l') → False.
Proof.
  unfold errAt. rewrite bind_bind, bind_get. unfold index.
  destruct (offs l !! startPos l); [|done]. by destruct (offs l !! pos l).
Qed.

#[local] Abbreviation digit_body ln cl :=
  (λ '(buf, lastWasDigit),
     c ← peek;
     if isDigit c then advance ≫= λ r, mret (inl (buf +:+ encode_rune r, true))
     else if c =? ch "_" then
       n ← peekAt 1;
       if negb lastWasDigit || negb (isDigit n) then errAt ln cl NumericSeparatorPlacement []
       else advance ≫= λ _, mret (inl (buf, false))
     else mret (inr buf)) (only parsing).

Lemma scans_digits prev v text l r buf ln cl :
  groups prev v text → rest l = text ++ r → head_is digit_or_sep r = false →
  scans (digit_body ln cl) fst (buf, prev) l (Ok (buf +:+ encode v)) (adv text l).
Proof.
  intros Hg Hr Hh. revert l buf Hr.
  assert (∀ c r' l buf p, rest l = c :: r' → isDigit c = true →
    (digit_body ln cl) (buf, p) l = (Ok (inl (buf +:+ encode_rune c, true)), past c l)) as Hdig.
  { intros c r' l buf p Hr Hc. by rewrite bind_peek, (rest_peek _ _ _ Hr), Hc, (bind_advance _ _ _ _ Hr). }
  induction Hg as [prev|prev c v text Hc Hg IH|c v text Hc Hg IH]; intros l buf Hr.
  - rewrite append_nil_r. destruct r as [|c r]; [by apply (scans_end _ fst (buf, prev))|].
    cbn in Hh. apply orb_false_iff in Hh as [Hh1 Hh2]. eapply scans_leave; [exact Hr|].
    by rewrite bind_peek, (rest_peek _ _ _ Hr), Hh1, Hh2.
  - eapply scans_round with (l1 := past c l); [exact Hr|by eapply Hdig|done|cbn; lia|].
    rewrite encode_cons, <- append_assoc. apply IH. by eapply rest_past.
  - pose proof (rest_past _ _ _ Hr) as Hr1.
    eapply scans_round with (l1 := past (ch "_") l) (x' := (buf, false)); [exact Hr| |done|cbn; lia|].
    { rewrite bind_peek, (rest_peek _ _ _ Hr), Hus. cbn [Z.eqb Pos.eqb].
      rewrite bind_peekAt, rest_peekAt, Hr. cbn. rewrite Hc. cbn. by rewrite (bind_advance _ _ _ _ Hr). }
    eapply scans_round with (l1 := past c (past (ch "_") l)); [exact Hr1|by eapply Hdig|done|cbn; lia|].
    rewrite encode_cons, <- append_assoc. apply IH. by eapply rest_past.
Qed.

Lemma exec_readDigitRun v text l r buf ln cl :
  groups false v text → rest l = text ++ r → head_is digit_or_sep r = false →
  readDigitRun buf isDigit ln cl l = (Ok (buf +:+ encode v), adv text l).
Proof. intros. unfold readDigitRun. apply scans_run. by eapply scans_digits. Qed.

(** Conversely, a run that succeeds has read well-separated digits. *)
Lemma readDigitRun_inv n l buf prev ln cl res l' :
  loop n (λ x, more ≫= λ b : bool, if b then digit_body ln cl x else mret (inr x.1)) (buf, prev) l = (Ok res, l') →
  ∃ v text r, rest l = text ++ r ∧ groups prev v text ∧ head_is digit_or_sep r = false
    ∧ res = buf +:+ encode v ∧ l' = adv text l.
Proof.
  revert l buf prev. induction n as [|n IH]; intros l buf prev; [done|]. cbn [loop].
  unfold more. rewrite bind_bind, bind_gets.
  destruct (rest l) as [|c r] eqn:Hr.
  { apply rest_end in Hr. assert ((pos l <? length (src l))%nat = false) as -> by (by apply Nat.ltb_ge).
    intros [= <- <-]. exists [], [], []. split_and!; try done; [constructor|by rewrite append_nil_r]. }
  assert ((pos l <? length (src l))%nat = true) as -> by (apply Nat.ltb_lt; by eapply rest_more).
  cbv beta iota. rewrite bind_bind, bind_peek, (rest_peek _ _ _ Hr). destruct (isDigit c) eqn:Hc.
  { rewrite bind_bind, (bind_advance _ _ _ _ Hr), bind_ret.
    intros (v & text & r' & Hr' & Hg & Hh & -> & ->)%IH. rewrite (rest_past _ _ _ Hr) in Hr'. subst r.
    exists (c :: v), (c :: text), r'. split_and!; try done; [by constructor|].
    by rewrite encode_cons, append_assoc. }
  destruct (c =? ch "_") eqn:Hu.
  - rewrite bind_bind, bind_peekAt, rest_peekAt, Hr. cbn [lookup list_lookup].
    destruct prev; cbn [negb orb].
    2: { by intros ?%bind_errAt_Ok. }
    destruct r as [|c1 r]; cbn [lookup list_lookup]; rewrite ?Hz; cbn [negb].
    { by intros ?%bind_errAt_Ok. }
    destruct (isDigit c1) eqn:Hc1; cbn [negb].
    2: { by intros ?%bind_errAt_Ok. }
    rewrite bind_bind, (bind_advance _ _ _ _ Hr), bind_ret.
    intros (v & text & r' & Hr' & Hg & Hh & -> & ->)%IH. rewrite (rest_past _ _ _ Hr) in Hr'.
    apply Z.eqb_eq in Hu as ->. inversion Hg as [|? c' v' text' Hc' Hg'|]; subst.
    { cbn in Hr'. subst r'. cbn in Hh. unfold digit_or_sep in Hh. by rewrite Hc1 in Hh. }
    cbn in Hr'. simplify_eq. exists (c' :: v'), (ch "_" :: c' :: text'), r'.
    split_and!; try done. by constructor.
  - rewrite bind_ret. intros [= <- <-]. exists [], [], (c :: r).
    split_and!; try done; [constructor| |by rewrite append_nil_r].
    cbn. unfold digit_or_sep. by rewrite Hc, Hu.
Qed.

(** [readDigitRun] accepts exactly the well-separated digit sequences, and
    drops their separators. *)
(** C38: [readDigitRun] succeeds exactly on digits with single separators between
    digits, and answers the digits without them; a separator anywhere else
    (first, last, doubled) makes it fail. *)
Theorem digit_separators buf ln cl l res l' :
  readDigitRun buf isDigit ln cl l = (Ok res, l') ↔
  ∃ v text r, rest l = text ++ r ∧ groups false v text ∧ head_is digit_or_sep r = false
    ∧ res = buf +:+ encode v ∧ l' = adv text l.
Proof.
  split; [apply readDigitRun_inv|]. intros (v & text & r & Hr & Hg & Hh & -> & ->).
  by eapply exec_readDigitRun.
Qed.
End digits.

(** ** Prefixed numbers *)

Definition prefixed_digit (x : rune) : rune → bool :=
  if (x =? ch "x") || (x =? ch "X") then isHexDigit
  else if (x =? ch "b") || (x =? ch "B") then isBinDigit else isOctDigit.
Definition base_letters : list rune := [ch "x"; ch "X"; ch "b"; ch "B"; ch "o"; ch "O"].

Section prefixed.
Context `{U : Unicode}.

Lemma prefixed_digit_sep x : prefixed_digit x (ch "_") = false.
Proof. unfold prefixed_digit. by repeat case_match. Qed.

(** What may not follow a numeric literal. *)
Definition number_end (r : list rune) : bool :=
  negb (head_is (λ c, isIdentStart c || (c =? ch "\")) r).

Lemma bind_eq {A B} (m1 m2 : LexM A) (k : A → LexM B) l1 l2 :
  m1 l1 = m2 l2 → (m1 ≫= k) l1 = (m2 ≫= k) l2.
Proof. unfold mbind, LexM_bind, M_bind. by intros ->. Qed.

Lemma bind_tok_end t lit ln cl l r :
  wf l → rest l = r → number_end r = true →
  (tok t lit ln cl ≫= λ t, c ← peek;
     if IsLetter c || (c =? ch "_") || (c =? ch "$") || (c =? ch "\")
     then errAt ln cl IdentAfterNumeric [] else mret t) l = tok t lit ln cl l.
Proof.
  intros Hwf Hr He. destruct (exec_tok l t lit ln cl Hwf) as (a & b & _ & _ & Ht).
  rewrite (bind_ok _ _ _ _ _ Ht), Ht, bind_peek.
  change (peek_of (set_doc "" l)) with (peek_of l). rewrite rest_peek_of, Hr.
  destruct r as [|c r]; [by rewrite IsLetter_ascii|]. unfold number_end in He.
  apply negb_true_iff in He. cbn in He. unfold isIdentStart in He. by rewrite He.
Qed.

Lemma exec_readPrefixed d x v text (big : bool) r l ln cl :
  rest l = ch "0" :: x :: text ++ (if big then [ch "n"] else []) ++ r →
  d (ch "_") = false → d (ch "n") = false → d 0 = false → groups d false v text →
  (big = true ∨ head_is (λ c, digit_or_sep d c || (c =? ch "n")) r = false) →
  readPrefixed d ln cl l =
  tok (if big then BIGINT else NUMBER) (encode (ch "0" :: x :: v)) ln cl
    (adv (ch "0" :: x :: text ++ if big then [ch "n"] else []) l).
Proof.
  intros Hr Hus Hn Hz Hg Hend. unfold readPrefixed. rewrite (bind_advance _ _ _ _ Hr).
  apply rest_past in Hr. rewrite (bind_advance _ _ _ _ Hr). apply rest_past in Hr.
  set (l1 := past x _) in *. pose proof (rest_adv text l1 _ Hr) as Hr1.
  assert (head_is (digit_or_sep d) ((if big then [ch "n"] else []) ++ r) = false) as Hh.
  { destruct Hend as [-> |Hh]; [cbn; unfold digit_or_sep; by rewrite Hn|]. destruct big; [cbn; unfold digit_or_sep; by rewrite Hn|].
    destruct r; [done|]. cbn in *. by apply orb_false_iff in Hh as [? _]. }
  erewrite bind_ok; [|by eapply exec_readDigitRun]. rewrite bind_peek, rest_peek_of, Hr1.
  rewrite !encode_cons, append_assoc.
  destruct big; cbn [app] in *.
  - cbn [Z.eqb Pos.eqb]. rewrite (bind_advance _ _ _ _ Hr1). f_equal.
    symmetry. exact (adv_app text [ch "n"] l1).
  - rewrite app_nil_r. destruct Hend as [|Hend]; [done|].
    destruct r as [|c r]; [done|]. cbn in Hend. apply orb_false_iff in Hend as [_ ->]. done.
Qed.

(** C36: a hexadecimal, binary or octal literal with digits and well-placed
    separators is scanned to a NUMBER, or to a BIGINT when it ends in n, whose
    literal is the text without the separators and the suffix. *)
Theorem prefixed_number_scan l ws x v text (big : bool) r :
  wf l → rest l = ws ++ (ch "0" :: x :: text ++ if big then [ch "n"] else []) ++ r →
  Forall (λ c, is_blank c = true) ws → x ∈ base_letters →
  groups (prefixed_digit x) false v text →
  (big = true ∨ head_is (digit_or_sep (prefixed_digit x)) r = false) → number_end r = true →
  reads_as l ws (ch "0" :: x :: text ++ if big then [ch "n"] else []) r
    (if big then BIGINT else NUMBER) (encode (ch "0" :: x :: v)).
Proof.
  intros Hwf Hr Hws Hx Hg Hh He. pose proof (at_token_rest ws l _ Hr) as Hr1.
  eapply (reads_as_intro l ws _ _ r _ _ _ _ Hwf Hr Hws); [done..|].
  unfold readToken. rewrite bind_get. cbv zeta. rewrite (rest_peek _ _ _ Hr1).
  rewrite (IsDigit_ascii 48) by done. cbn [andb orb Z.eqb Pos.eqb].
  change (ascii_digit 48) with true. cbn [orb]. unfold readNumber, readNumberBody.
  rewrite bind_bind, bind_peek, bind_bind, bind_peekAt, (rest_peek _ _ _ Hr1), rest_peekAt, Hr1.
  cbn [lookup list_lookup Z.eqb Pos.eqb andb app].
  assert (wf (adv (ch "0" :: x :: text ++ if big then [ch "n"] else []) (at_token ws l))) as Hwf1
    by (eapply adv_wf; [by eapply at_token_wf|done]).
  pose proof (rest_adv _ _ _ Hr1) as Hr2. cbn [app] in Hr1. rewrite <- app_assoc in Hr1.
  assert (big = true ∨ head_is (λ c, digit_or_sep (prefixed_digit x) c || (c =? ch "n")) r = false) as Hh'.
  { destruct Hh as [?|Hh]; [by left|right]. destruct r as [|c r]; [done|]. cbn in *.
    rewrite Hh. cbn. apply Z.eqb_neq. intros ->. unfold number_end in He. cbn in He.
    unfold isIdentStart in He. by rewrite IsLetter_ascii in He. }
  erewrite <- (bind_tok_end _ _ _ _ _ _ Hwf1 Hr2 He).
  apply bind_eq.
  assert (∀ d, prefixed_digit x = d → d (ch "n") = false ∧ d 0 = false) as Hd.
  { unfold prefixed_digit. intros d <-. by repeat case_match. }
  specialize (Hd _ eq_refl) as [Hn Hz]. pose proof (prefixed_digit_sep x) as Hus.
  pose proof (exec_readPrefixed _ x v text big r _ (line (at_token ws l)) (col (at_token ws l))
                Hr1 Hus Hn Hz Hg Hh') as Hp.
  repeat (apply elem_of_cons in Hx as [->|Hx]; [exact Hp|]). by apply elem_of_nil in Hx.
Qed.
End prefixed.

(** ** Punctuators *)

(** The punctuators whose token depends on nothing but the text, in no
    particular order: the braces also depend on the template stack. *)
Definition punctuators : list (string * TokenType) :=
  [("+", PLUS); ("++", INC); ("+=", PLUS_ASSIGN); ("-", MINUS); ("--", DEC); ("-=", MINUS_ASSIGN);
   ("*", STAR); ("**", POW); ("**=", POW_ASSIGN); ("*=", STAR_ASSIGN); ("/", SLASH); ("/=", SLASH_ASSIGN);
   ("%", PERCENT); ("%=", PERCENT_ASSIGN); ("=", ASSIGN); ("==", EQ); ("===", STRICT_EQ); ("=>", ARROW);
   ("!", NOT); ("!=", NEQ); ("!==", STRICT_NEQ);
   ("<", LT); ("<=", LTE); ("<<", LSHIFT); ("<<=", LSHIFT_ASSIGN);
   (">", GT); (">=", GTE); (">>", RSHIFT); (">>=", RSHIFT_ASSIGN); (">>>", URSHIFT); (">>>=", URSHIFT_ASSIGN);
   ("&", BITAND); ("&&", AND); ("&=", AND_ASSIGN); ("&&=", LOGICAL_AND_ASSIGN);
   ("|", BITOR); ("||", OR); ("|=", OR_ASSIGN); ("||=", LOGICAL_OR_ASSIGN);
   ("^", BITXOR); ("^=", XOR_ASSIGN); ("~", BITNOT);
   ("(", LPAREN); (")", RPAREN); ("[", LBRACKET); ("]", RBRACKET); (";", SEMICOLON); (":", COLON);
   (",", COMMA); (".", DOT); ("...", ELLIPSIS);
   ("?", QUESTION); ("??", NULLISH); ("??=", NULLISH_ASSIGN); ("?.", OPTIONAL_DOT); ("@", AT)]%string.

(** The runes of an ASCII text. *)
Fixpoint ascii_runes (s : string) : list rune :=
  match s with EmptyString => [] | String a s => byte_val a :: ascii_runes s end.

Fixpoint is_prefix (p rs : list rune) : bool :=
  match p, rs with
  | [], _ => true
  | c :: p, d :: rs => (d =? c) && is_prefix p rs
  | _ :: _, [] => false
  end.

(** A longer one that begins with a closing angle bracket is a token only in
    the mode that glues them. *)
Definition in_mode (m : ScanMode) (p : string) : bool :=
  negb (has_prefix p ">") || (String.length p =? 1)%nat || bool_decide (m = ScanGlueGreater).

(** The longest entry of a table that the text begins with. *)
Fixpoint longest (m : ScanMode) (tbl : list (string * TokenType)) (rs : list rune) : option (string * TokenType) :=
  match tbl with
  | [] => None
  | (p, t) :: tbl =>
      let best := longest m tbl rs in
      if in_mode m p && is_prefix (ascii_runes p) rs
         && match best with Some (q, _) => (String.length q <? String.length p)%nat | None => true end
      then Some (p, t) else best
  end.

(** Only the entries with the right first rune matter. *)
Definition starts_with (c : rune) (e : string * TokenType) : bool :=
  match ascii_runes e.1 with a :: _ => a =? c | [] => true end.

Lemma longest_starting m tbl c r :
  longest m tbl (c :: r) = longest m (List.filter (starts_with c) tbl) (c :: r).
Proof.
  induction tbl as [|[p t] tbl IH]; [done|]. cbn [longest List.filter]. rewrite IH.
  unfold starts_with at 3. cbn [fst]. destruct (ascii_runes p) as [|a p'] eqn:Hp.
  - cbn [longest]. by rewrite Hp.
  - destruct (Z.eqb_spec a c) as [->|Hne]; [cbn [longest]; by rewrite Hp|].
    cbn [is_prefix]. assert ((c =? a) = false) as -> by (by apply Z.eqb_neq). by rewrite andb_false_r.
Qed.

Section punctuators.
Context `{U : Unicode}.

Lemma exec_eat {A} c (k e : LexM A) l r :
  rest l = r → (0 =? c) = false →
  eat c k e l = match r with c1 :: _ => if c1 =? c then k (past c1 l) else e l | [] => e l end.
Proof.
  intros Hr Hc. unfold eat. rewrite bind_peek, rest_peek_of, Hr. destruct r as [|c1 r]; [by rewrite Hc|].
  destruct (c1 =? c); [|done]. by rewrite (bind_advance _ _ _ _ Hr).
Qed.

Definition munch (m : ScanMode) (c : rune) (r : list rune) (k : LexM Token) (ln cl : Z) : Prop :=
  ∀ l, rest l = r → mode l = m →
    ∃ p t, longest m punctuators (c :: r) = Some (p, t) ∧
      k l = tok t p ln cl (adv (tail (ascii_runes p)) l).

(** One rune of lookahead. *)
Ltac look :=
  match goal with
  | H : rest ?l = _ |- context [eat ?c ?k ?e ?l] => rewrite (exec_eat c k e l _ H) by done
  | H : rest ?l = ?d :: _ |- context [past ?d ?l] =>
      lazymatch goal with _ : rest (past d l) = _ |- _ => fail | _ => pose proof (rest_past l d _ H) end
  | |- context [match ?r with [] => _ | _ :: _ => _ end] => is_var r; destruct r as [|? r]
  | |- context [?d =? ?c] => is_var d; destruct (Z.eqb_spec d c); [subst d|]
  end.
Ltac settle :=
  rewrite longest_starting;
  match goal with |- context [List.filter ?f punctuators] =>
    let v := eval vm_compute in (List.filter f punctuators) in change (List.filter f punctuators) with v end;
  cbv [longest in_mode is_prefix ascii_runes has_prefix];
  repeat match goal with
  | |- context [byte_val ?a] => let v := eval vm_compute in (byte_val a) in change (byte_val a) with v
  | |- context [?d =? ?c] =>
      first [ let b := eval vm_compute in (d =? c) in
              lazymatch b with true => idtac | false => idtac end; change (d =? c) with b
            | rewrite (proj2 (Z.eqb_neq d c)) by assumption ]
  end; cbn.
Ltac munch_tac :=
  repeat look;
  lazymatch goal with |- ∃ _ _, _ ∧ tok ?t ?p _ _ _ = _ => exists p, t end;
  (split; [settle; reflexivity|reflexivity]).

Lemma munch_operator m c r ln cl k :
  operator c ln cl = Some k → munch m c r k ln cl.
Proof.
  unfold operator.
  repeat match goal with
    | |- (if ?c =? ?v then _ else _) = _ → _ => destruct (Z.eqb_spec c v) as [->|]; [intros [= <-]|]
    end; [..|done]; unfold munch, punct; intros l Hr Hm.
  1-8: munch_tac.
  1: { rewrite bind_gets, Hm. destruct (bool_decide (m = ScanGlueGreater)) eqn:Hg; cbn [negb].
    all: repeat look; lazymatch goal with |- ∃ _ _, _ ∧ tok ?t ?p _ _ _ = _ => exists p, t end;
      (split; [settle; rewrite Hg; reflexivity|reflexivity]). }
  all: munch_tac.
Qed.

Lemma munch_separator m c r ln cl k :
  separator c ln cl = Some k → c ≠ ch "{" → c ≠ ch "}" → munch m c r k ln cl.
Proof.
  unfold separator.
  repeat match goal with
    | |- (if ?c =? ?v then _ else _) = _ → _ => destruct (Z.eqb_spec c v) as [->|]; [intros [= <-]|]
    end; [..|done]; intros ??; try done; unfold munch, punct; intros l Hr Hm.
  8: { rewrite bind_peek, bind_peekAt, rest_peek_of, rest_peekAt, Hr.
       destruct r as [|c1 [|c2 r]]; cbn -[longest punctuators adv ascii_runes past]; 
         repeat (match goal with |- context [(?d =? 46) && _] => is_var d; destruct (Z.eqb_spec d 46); [subst d|]
                 | |- context [if ?d =? 46 then _ else _] => is_var d; destruct (Z.eqb_spec d 46); [subst d|] end;
                 cbn [andb Z.eqb Pos.eqb]);
         repeat match goal with H : rest ?l = _ :: _ |- context [(advance ≫= _) ?l] =>
           rewrite (bind_advance _ _ _ _ H); apply rest_past in H end; munch_tac. }
  all: munch_tac.
Qed.

(** The mode in which a slash is a punctuator. *)
Definition slash_divides (l : Lexer) : bool :=
  negb (bool_decide (mode l = ScanRegex) || (bool_decide (mode l = ScanDefault) && regexAllowed l)).

Definition punct_starts : list rune :=
  Eval vm_compute in remove_dups (map (λ e, match ascii_runes e.1 with c :: _ => c | [] => 0 end) punctuators).

Lemma longest_starts m c r e : longest m punctuators (c :: r) = Some e → c ∈ punct_starts.
Proof.
  rewrite longest_starting. destruct (decide (c ∈ punct_starts)) as [|Hn]; [done|].
  assert (List.filter (starts_with c) punctuators = []) as ->; [|done].
  assert (Forall (λ e, ∃ x, x ∈ punct_starts ∧ starts_with c e = (x =? c)) punctuators) as Hall.
  { repeat (constructor; [eexists; split; [|reflexivity]; apply (bool_decide_unpack _); vm_compute; exact I|]). constructor. }
  induction Hall as [|e' es (x & Hx & He) _ IH]; [done|]. cbn [List.filter]. rewrite He, IH.
  destruct (Z.eqb_spec x c) as [->|]; [by destruct Hn|done].
Qed.

Lemma longest_prefix m tbl rs p t :
  longest m tbl rs = Some (p, t) → is_prefix (ascii_runes p) rs = true ∧ (p, t) ∈ tbl.
Proof.
  induction tbl as [|[p' t'] tbl IH]; [done|]. cbn [longest].
  destruct (_ && _) eqn:H.
  - intros [= -> ->]. bool_cases. split; [done|by left].
  - intros [? ?]%IH. split; [done|by right].
Qed.

Lemma is_prefix_app p rs : is_prefix p rs = true → rs = p ++ drop (length p) rs.
Proof.
  revert rs. induction p as [|c p IH]; intros rs; [done|]. destruct rs as [|d rs]; [done|]. cbn.
  intros [->%Z.eqb_eq H]%andb_true_iff. f_equal. by apply IH.
Qed.

Lemma length_ascii_runes s : length (ascii_runes s) = String.length s.
Proof. induction s as [|a s IH]; cbn; congruence. Qed.

(** C23: a punctuator is scanned by maximal munch: the token is the longest entry
    of the punctuator table the text begins with (a longer one than a single
    closing angle bracket only in the mode that glues them), unless the text
    starts a comment, a regular expression or a number. *)
Theorem punctuator_scan l ws c r p t :
  wf l → rest l = ws ++ c :: r → Forall (λ c, is_blank c = true) ws →
  not_comment c r → (c = ch "/" → slash_divides l = true) → (c = ch "." → head_is IsDigit r = false) →
  longest (mode l) punctuators (c :: r) = Some (p, t) →
  reads_as l ws (ascii_runes p) (drop (String.length p - 1) r) t p.
Proof.
  intros Hwf Hr Hws Hcom Hslash Hdot Hlong. pose proof (at_token_rest ws l _ Hr) as Hr1.
  assert (mode (at_token ws l) = mode l ∧ lastSig (at_token ws l) = lastSig l) as [Hm Hsig].
  { unfold at_token. cbv zeta. cbn -[adv]. pose proof (adv_fields ws (set_sawNL false l)) as (_ & _ & _ & _ & _ & _ & Hm & _).
    rewrite Hm, adv_lastSig. by split. }
  assert (Forall (λ c, is_blank c = false ∧ IsDigit c = false ∧ isIdentStart c = false
    ∧ (c =? 96) = false ∧ (c =? 34) || (c =? 39) = false ∧ (c =? 35) = false ∧ c ≠ ch "{" ∧ c ≠ ch "}"
    ∧ (is_Some (operator c (line (at_token ws l)) (col (at_token ws l)))
       ∨ is_Some (separator c (line (at_token ws l)) (col (at_token ws l))))) punct_starts) as Hstarts.
  { repeat (constructor; [split; [done|]; rewrite IsDigit_ascii by done; unfold isIdentStart;
      rewrite IsLetter_ascii by done; split_and!; try done; first [by left|by right]|]). constructor. }
  apply longest_starts in Hlong as Hc. rewrite Forall_forall in Hstarts.
  destruct (Hstarts c Hc) as (Hb & Hdg & Hid & Hbt & Hq & Hh & Hlb & Hrb & Hk). clear Hstarts.
  assert (∃ k, readToken (at_token ws l) = k (past c (at_token ws l)) ∧
    munch (mode l) c r k (line (at_token ws l)) (col (at_token ws l))) as (k & Hrt & Hmu).
  { unfold readToken. rewrite bind_get. cbv zeta.
    rewrite (rest_peek _ _ _ Hr1), rest_peekAt, Hr1, Hm, Hdg, Hid, Hbt, Hq, Hh.
    assert ((c =? 47) && (bool_decide (mode l = ScanRegex)
      || bool_decide (mode l = ScanDefault) && regexAllowed (at_token ws l)) = false) as ->.
    { destruct (Z.eqb_spec c 47) as [->|]; [|done]. specialize (Hslash eq_refl).
      unfold slash_divides, regexAllowed in *. rewrite Hsig. by apply negb_true_iff in Hslash. }
    assert (false || (c =? 46) && IsDigit (match (c :: r) !! 1%nat with Some c => c | None => 0 end) = false) as ->.
    { destruct (Z.eqb_spec c 46) as [->|]; [|done]. specialize (Hdot eq_refl). cbn.
      destruct r; [by rewrite IsDigit_ascii|done]. }
    cbn [andb]. rewrite (bind_advance _ _ _ _ Hr1).
    destruct (operator c _ _) as [k|] eqn:Hop; [eexists; split; [done|by eapply munch_operator]|].
    destruct (separator c _ _) as [k|] eqn:Hsep; [eexists; split; [done|by eapply munch_separator]|].
    by destruct Hk as [[? ?]|[? ?]]. }
  destruct (Hmu (past c (at_token ws l)) (rest_past _ _ _ Hr1) ltac:(done)) as (p' & t' & Hl' & Hk').
  rewrite Hlong in Hl'. simplify_eq. rewrite Hk' in Hrt.
  destruct (longest_prefix _ _ _ _ _ Hlong) as [Hpre Hin]. apply is_prefix_app in Hpre.
  assert (∃ text, ascii_runes p' = c :: text) as [text Htext].
  { assert (Forall (λ e, e.1 ≠ ""%string) punctuators) as Hne
      by (repeat (constructor; [done|]); constructor).
    rewrite Forall_forall in Hne. specialize (Hne _ Hin). cbn in Hne. destruct p' as [|a p']; [done|].
    cbn in Hpre |- *. injection Hpre as -> _. by eexists. }
  rewrite Htext in *. cbn [tail] in Hrt. 
  assert (drop (length (c :: text)) (c :: r) = drop (String.length p' - 1) r) as Hd.
  { rewrite <- length_ascii_runes, Htext. cbn. by rewrite Nat.sub_0_r. }
  rewrite Hd in Hpre. cbn [app] in Hpre. injection Hpre as Hpre.
  eapply reads_as_intro; [done|by rewrite <- app_comm_cons, <- Hpre|done..|by rewrite <- Hpre|exact Hrt].
Qed.
End punctuators.

(** ** The theorems on sample texts *)

Definition blank_line : list rune := [32; 10].

Lemma ident_scan_witness :
  reads_as (U := ascii_unicode) (New (encode (blank_line ++ ascii_runes "typeof x")))
    blank_line (ascii_runes "typeof") (ascii_runes " x") TYPEOF "typeof".
Proof.
  exact (ident_scan (U := ascii_unicode) (New (encode (blank_line ++ ascii_runes "typeof x"))) blank_line (ch "t") (ascii_runes "ypeof") (ascii_runes " x")
           (New_wf _) eq_refl ltac:(by repeat constructor) eq_refl ltac:(by repeat constructor) eq_refl).
Defined.


Lemma prefixed_number_scan_witness :
  reads_as (U := ascii_unicode) (New "0xA_1n;") [] (ascii_runes "0xA_1n") [ch ";"] BIGINT "0xA1".
Proof.
  refine (prefixed_number_scan (U := ascii_unicode) (New "0xA_1n;") [] (ch "x") (ascii_runes "A1")
            (ascii_runes "A_1") true [ch ";"] (New_wf _) eq_refl ltac:(constructor) _ _ (or_introl eq_refl) eq_refl).
  - by left.
  - apply groups_digit; [done|]. apply groups_sep; [done|]. constructor.
Defined.

Lemma digit_separators_witness :
  ∃ l', readDigitRun (U := ascii_unicode) "" isBinDigit 1 1 (New "1_0") = (Ok "10"%string, l').
Proof.
  eexists. apply (digit_separators (U := ascii_unicode) isBinDigit eq_refl eq_refl "" 1 1 (New "1_0")).
  exists (ascii_runes "10"), (ascii_runes "1_0"), []. split; [done|]. split; [|by repeat split].
  apply groups_digit; [done|]. apply groups_sep; [done|]. constructor.
Defined.

Lemma punctuator_scan_witness :
  reads_as (U := ascii_unicode) (New "??=b") [] (ascii_runes "??=") [ch "b"] NULLISH_ASSIGN "??=".
Proof.
  exact (punctuator_scan (U := ascii_unicode) (New "??=b") [] (ch "?") (ascii_runes "?=b") "??=" NULLISH_ASSIGN
           (New_wf _) eq_refl ltac:(constructor) eq_refl ltac:(done) ltac:(done) eq_refl).
Defined.

(** ** Where the scanner departs from the language *)

(** The second star of an empty block comment is taken for the start of a doc
    comment, so that the comment does not end there. *)
Example empty_block_comment : tokens_of "a /**/ b" = [(IDENT, "a"); (EOF, "")]%string.
Proof. vm_compute. reflexivity. Qed.

(** A block comment the input ends in is no error. *)
Example unterminated_block_comment : tokens_of "a /* b" = [(IDENT, "a"); (EOF, "")]%string.
Proof. vm_compute. reflexivity. Qed.

(** A conditional whose first branch begins with a point is an optional chain. *)
Example optional_chain_digit :
  tokens_of "a?.5:1" = [(IDENT, "a"); (OPTIONAL_DOT, "?."); (NUMBER, "5"); (COLON, ":"); (NUMBER, "1"); (EOF, "")]%string.
Proof. vm_compute. reflexivity. Qed.

(** The two halves of a surrogate pair become two replacement characters. *)
Example surrogate_pair :
  tokens_of "'\uD83D\uDE00'" = [(STRING, encode [RuneError; RuneError]); (EOF, ""%string)].
Proof. vm_compute. reflexivity. Qed.
