(* ===== verification/Ast.v ===== *)
(** * Syntax nodes (src/ast/nodes.go), as far as the binder looks into them

    A node is a Go pointer: [nid] is its identity.  The constructors and field
    names are the source's; of a node's fields only those the modelled code
    reads are kept, and the node types it only passes through are
    [OtherNode], with their children in the order of [ForEachChild]. *)

From S2P Require Import Prelude Diag.
Open Scope Z_scope.

(** [TAKeyword] is the keyword of an annotation that is a keyword type, else empty. *)
Record TypeAnnotation := mkTypeAnnotation { TAName : string; Nullable : bool; TAKeyword : string }.

(** The parts of function-like nodes are one record for the three of them:
    [Body] is an arrow function's [Block], [ExprBody] its [Body].  A pattern's
    [SubArray] or [SubObject] that is nil is [None]. *)
Unset Elimination Schemes.
Inductive Node := mkNode (id : nat) (pos : Pos) (kind : NodeKind)
with NodeKind :=
  (* expressions *)
  | Identifier (Name : string)
  | ThisExpression
  | SuperExpression
  | UnaryExpression (Op : string) (Arg : Node)
  | UpdateExpression (Arg : Node)
  | BinaryExpression (Op : string) (Left Right : Node)
  | ConditionalExpression (Test Consequent Alternate : Node)
  | AssignmentExpression (Op : string) (Left Right : Node)
  | NonNullExpression (Arg : Node)
  | CallExpression (Callee : Node) (Args : list Node) (Optional ChainEnd : bool)
  | NewExpression (ClassName : string) (Callee : option Node) (Args : list Node)
  | MemberExpression (Object : Node) (Property : string) (Optional ChainEnd : bool)
  | IndexExpression (Object Index : Node) (Optional ChainEnd : bool)
  | ArrayLiteral (Elements : list Node)
  | ObjectLiteral (Properties : list ObjectProperty)
  | SpreadElement (Arg : Node)
  | StringLiteral (Value : string)
  | BooleanLiteral (Value : bool)
  | NullLiteral (IsUndefined Void : bool)
  | FunctionExpression (Name : string) (Fn : FunctionData)
  | ArrowFunction (Fn : FunctionData)
  (* statements *)
  | BlockStatement (Body : list Node)
  | ExpressionStatement (Expr : Node)
  | VarDeclaration (Kind Name : string) (TypeAnnot : option TypeAnnotation) (Init : option Node)
      (Ambient Definite : bool)
  | ArrayDestructuring (Kind : string) (Elems : list ArrayPatternElem) (Init : option Node)
  | ObjectDestructuring (Kind : string) (Props : list DestructProp) (Init : option Node)
  | FunctionDeclaration (Name : string) (Ambient : bool) (Fn : FunctionData)
  | InterfaceDeclaration (Name : string)
  | TypeAliasDeclaration (Name : string)
  | ImportDeclaration (Locals : list string) (Namespace : string)
  | ExportDeclaration (Decl : option Node)
  | IfStatement (Test : Node) (Consequent : option Block) (Alternate : option Node)
  | ForStatement (Init Test : option Node) (Update : list Node) (Body : option Block)
  | WhileStatement (Test : Node) (Body : option Block)
  | DoWhileStatement (Body : option Block) (Test : Node)
  | ForOfStatement (Kind VarName : string) (ArrayPattern : list ArrayPatternElem)
      (ObjectPattern : list DestructProp) (Iterable : Node) (Body : option Block)
  | ForInStatement (Kind VarName : string) (Object : Node) (Body : option Block)
  | LabeledStatement (Label : string) (Body : Node)
  | BreakStatement (Label : string)
  | ContinueStatement (Label : string)
  | ReturnStatement (Value : option Node)
  | ThrowStatement (Argument : option Node)
  | SwitchStatement (Discriminant : Node) (Cases : list SwitchCase)
  | TryStatement (Body : option Block) (Catch : option CatchClause) (Finally : option Block)
  (* the rest *)
  | OtherNode (type_ : string) (Children : list Node)
with Block := mkBlock (bid : nat) (bpos : Pos) (BBody : list Node)
with FunctionData := mkFunction (TypeParams : list string) (Params : list Param) (FBody : option Block)
    (ExprBody : option Node) (IsAsync IsGenerator : bool) (ReturnType : option TypeAnnotation)
with Param := mkParam (PName : string) (PDefault : option Node) (PArrayPattern : list ArrayPatternElem)
    (PObjectPattern : list DestructProp) (PDecorators : list Node)
with ArrayPatternElem := mkElem (EName : string) (EDefault : option Node)
    (ESubArray : option (list ArrayPatternElem)) (ESubObject : option (list DestructProp))
with DestructProp := mkProp (KeyExpr : option Node) (Local : string) (DDefault : option Node)
    (DSubArray : option (list ArrayPatternElem)) (DSubObject : option (list DestructProp))
with ObjectProperty := mkProperty (PKeyExpr : option Node) (PValue : Node)
with SwitchCase := mkCase (CTest : option Node) (CBody : list Node)
with CatchClause := mkCatch (CParam : string) (CObjectPattern : list DestructProp) (CatchBody : option Block).
Set Elimination Schemes.

Definition nid (n : Node) : nat := match n with mkNode i _ _ => i end.
Definition npos (n : Node) : Pos := match n with mkNode _ p _ => p end.
Definition nkind (n : Node) : NodeKind := match n with mkNode _ _ k => k end.

(** A block as the statement it is. *)
Definition as_node (b : Block) : Node := match b with mkBlock i p body => mkNode i p (BlockStatement body) end.
Definition stmts_of (b : Block) : list Node := match b with mkBlock _ _ body => body end.
Definition block_id (b : Block) : nat := match b with mkBlock i _ _ => i end.

Definition type_params (f : FunctionData) : list string := match f with mkFunction tps _ _ _ _ _ _ => tps end.
Definition params (f : FunctionData) : list Param := match f with mkFunction _ ps _ _ _ _ _ => ps end.
Definition fn_body (f : FunctionData) : option Block := match f with mkFunction _ _ b _ _ _ _ => b end.
Definition expr_body (f : FunctionData) : option Node := match f with mkFunction _ _ _ e _ _ _ => e end.
Definition is_async (f : FunctionData) : bool := match f with mkFunction _ _ _ _ a _ _ => a end.
Definition is_generator (f : FunctionData) : bool := match f with mkFunction _ _ _ _ _ g _ => g end.
Definition return_type (f : FunctionData) : option TypeAnnotation := match f with mkFunction _ _ _ _ _ _ t => t end.
Definition param_name (p : Param) : string := match p with mkParam n _ _ _ _ => n end.
