(* ===== verification/Symbols.v ===== *)
(** * Symbols, scopes and declarations (src/binder/symbol.go, src/binder/binder.go)

    Scopes and symbols are Go objects the binder shares by pointer: they live
    in the two lists of the [binder] state and a pointer is an index.  The
    operations are those of the declaring pass: enter and leave a scope,
    declare a name, remember and check hoisted variables; and the name
    resolution of the second. *)

From S2P Require Import Prelude GoString Diag Ast.
Open Scope Z_scope.

(** ** Symbol flags: a 32-bit mask *)

Definition SymbolFlags := Z.
Definition FunctionScopedVariable : SymbolFlags := 2 ^ 0.
Definition BlockScopedVariable : SymbolFlags := 2 ^ 1.
Definition Property : SymbolFlags := 2 ^ 2.
Definition EnumMember : SymbolFlags := 2 ^ 3.
Definition Function : SymbolFlags := 2 ^ 4.
Definition Class_ : SymbolFlags := 2 ^ 5.
Definition Interface : SymbolFlags := 2 ^ 6.
Definition ConstEnum : SymbolFlags := 2 ^ 7.
Definition RegularEnum : SymbolFlags := 2 ^ 8.
Definition TypeParameter : SymbolFlags := 2 ^ 9.
Definition TypeAlias : SymbolFlags := 2 ^ 10.
Definition Alias : SymbolFlags := 2 ^ 11.
Definition NamespaceModule : SymbolFlags := 2 ^ 12.
Definition TypeModule : SymbolFlags := 2 ^ 13.

Definition Enum : SymbolFlags := Z.lor RegularEnum ConstEnum.
Definition Variable_ : SymbolFlags := Z.lor FunctionScopedVariable BlockScopedVariable.
Definition Value : SymbolFlags :=
  foldr Z.lor 0 [Variable_; Property; EnumMember; Function; Class_; Enum; Alias; NamespaceModule].
Definition Type_ : SymbolFlags :=
  foldr Z.lor 0 [Class_; Interface; Enum; EnumMember; TypeParameter; TypeAlias; Alias].

(** The test [f & mask != 0]. *)
Definition has (f mask : SymbolFlags) : bool := negb (Z.land f mask =? 0).

Inductive DeclKind := VarLike | Lexical | TypeOnly | NamespaceDecl | NameOnly.
#[export] Instance DeclKind_eq_dec : EqDecision DeclKind.
Proof. solve_decision. Defined.

Inductive Clash := NoClash | Redeclaration | UnsupportedMerge | DuplicateImplementation.
#[export] Instance Clash_eq_dec : EqDecision Clash.
Proof. solve_decision. Defined.

Record Declaration := mkDeclaration {
  DNode : option Node; DPos : Pos; Flags : SymbolFlags; Kind : DeclKind; Plain : bool; Body : bool }.

Definition is_kind (k : DeclKind) (d : Declaration) : bool := bool_decide (Kind d = k).

(** [functionImplementation]. *)
Definition functionImplementation (d : Declaration) : bool :=
  match DNode d with
  | Some n => match nkind n with
              | FunctionDeclaration _ ambient f =>
                  has (Flags d) Function && bool_decide (is_Some (fn_body f)) && negb ambient
              | _ => false
              end
  | None => false
  end.

(** [clashes]. *)
Definition clashes (a b : Declaration) (annexB : bool) : Clash :=
  if annexB && (Flags a =? Function) && (Flags b =? Function) && Plain a && Plain b then NoClash
  else if is_kind NameOnly a || is_kind NameOnly b then NoClash
  else if is_kind TypeOnly a || is_kind TypeOnly b then
    if negb (is_kind TypeOnly a) && negb (is_kind TypeOnly b) then NoClash
    else if has (Flags a) TypeParameter && has (Flags b) TypeParameter then Redeclaration
    else if has (Flags a) TypeAlias || has (Flags b) TypeAlias then
      let other := if has (Flags a) TypeAlias then b else a in
      if has (Flags other) (Z.lor (Z.lor (Z.lor Interface TypeAlias) Class_) Enum) then Redeclaration
      else NoClash
    else NoClash
  else if is_kind NamespaceDecl a || is_kind NamespaceDecl b then
    let other := if is_kind NamespaceDecl a then b else a in
    if negb (has (Flags other) (Z.lor (Z.lor (Z.lor (Z.lor Function Class_) Enum) NamespaceModule) TypeModule))
    then Redeclaration else NoClash
  else if has (Flags a) Enum && has (Flags b) Enum then
    if Z.land (Flags a) Enum =? Z.land (Flags b) Enum then UnsupportedMerge else Redeclaration
  else if is_kind Lexical a || is_kind Lexical b then Redeclaration
  else if negb annexB && functionImplementation a && functionImplementation b then DuplicateImplementation
  else NoClash.

(** ** Tables that keep insertion order *)

Abbreviation SymId := nat (only parsing).
Abbreviation ScopeId := nat (only parsing).

Record Table := mkTable { names : list string; m : gmap string SymId; aliases : gmap string SymId }.
Definition emptyTable : Table := mkTable [] ∅ ∅.

Definition Get (t : Table) (name : string) : option SymId :=
  match m t !! name with Some s => Some s | None => aliases t !! name end.

Definition alias (t : Table) (name : string) (s : SymId) : Table :=
  match m t !! name with
  | Some _ => t
  | None => mkTable (names t) (m t) (<[name := s]> (aliases t))
  end.

Definition Len (t : Table) : nat := length (names t).

(** [put] of the symbol [s] named [name]. *)
Definition put (t : Table) (name : string) (s : SymId) : Table :=
  mkTable (match m t !! name with Some _ => names t | None => names t ++ [name] end)
    (<[name := s]> (m t)) (aliases t).

(** What [Each] calls its argument on, in order; nil is [None]. *)
Definition Each (t : Table) : list (option SymId) := map (λ n, m t !! n) (names t).

(** ** Scopes and symbols *)

Inductive ScopeKind :=
  ModuleScope | FunctionScope | BlockScope | CatchScope | NameScope | EnumScope | NamespaceScope.
#[export] Instance ScopeKind_eq_dec : EqDecision ScopeKind.
Proof. solve_decision. Defined.

Record Symbol := mkSymbol {
  ID : nat; SName : string; SFlags : SymbolFlags; Declarations : list Declaration;
  SScope : option ScopeId; Implicit : bool }.

Record Scope := mkScope {
  ScKind : ScopeKind; ScNode : option Node; Parent : option ScopeId; Symbols : Table;
  Inline : bool; ParamArguments : option SymId }.

Record Conflict := mkConflict { CSymbol : SymId; CDecl : Declaration; CClash : Clash }.

(** A var declared in a nested scope, and the scopes it hoists through. *)
Record hoist := mkHoist { hsym : SymId; hdecl : Declaration; through : list ScopeId }.

Record binder := mkBinder {
  scopes : list Scope;
  symbols : list Symbol;
  scopeOf : gmap (nat * nat) ScopeId; (* by the opening node and tag *)
  opened : gmap nat ScopeId;
  cur : option ScopeId;
  declaring : bool;
  annexB : bool;
  plain : bool;
  inBody : bool;
  inParams : bool;
  bodyScope : option ScopeId;
  paramScope : option ScopeId;
  nsPrefix : string;
  Conflicts : list Conflict;
  hoists : list hoist }.

Definition set_scopes (scs : list Scope) (b : binder) : binder :=
  mkBinder scs (symbols b) (scopeOf b) (opened b) (cur b) (declaring b) (annexB b) (plain b) (inBody b)
    (inParams b) (bodyScope b) (paramScope b) (nsPrefix b) (Conflicts b) (hoists b).
Definition set_symbols (ss : list Symbol) (b : binder) : binder :=
  mkBinder (scopes b) ss (scopeOf b) (opened b) (cur b) (declaring b) (annexB b) (plain b) (inBody b)
    (inParams b) (bodyScope b) (paramScope b) (nsPrefix b) (Conflicts b) (hoists b).
Definition set_cur (s : option ScopeId) (b : binder) : binder :=
  mkBinder (scopes b) (symbols b) (scopeOf b) (opened b) s (declaring b) (annexB b) (plain b) (inBody b)
    (inParams b) (bodyScope b) (paramScope b) (nsPrefix b) (Conflicts b) (hoists b).
Definition set_opened (k : gmap (nat * nat) ScopeId) (o : gmap nat ScopeId) (b : binder) : binder :=
  mkBinder (scopes b) (symbols b) k o (cur b) (declaring b) (annexB b) (plain b) (inBody b)
    (inParams b) (bodyScope b) (paramScope b) (nsPrefix b) (Conflicts b) (hoists b).
Definition set_Conflicts (cs : list Conflict) (b : binder) : binder :=
  mkBinder (scopes b) (symbols b) (scopeOf b) (opened b) (cur b) (declaring b) (annexB b) (plain b) (inBody b)
    (inParams b) (bodyScope b) (paramScope b) (nsPrefix b) cs (hoists b).
Definition set_hoists (hs : list hoist) (b : binder) : binder :=
  mkBinder (scopes b) (symbols b) (scopeOf b) (opened b) (cur b) (declaring b) (annexB b) (plain b) (inBody b)
    (inParams b) (bodyScope b) (paramScope b) (nsPrefix b) (Conflicts b) hs.

(** A method of the binder: it has no errors, but a nil pointer panics. *)
Definition BindM : Type → Type := M binder Empty_set.
#[export] Instance BindM_ret : MRet BindM := M_ret.
#[export] Instance BindM_bind : MBind BindM := M_bind.

(** Following a pointer. *)
Definition deref {A} (p : option A) : BindM A := match p with Some a => mret a | None => panic end.
Definition scope (s : ScopeId) : BindM Scope := b ← get; index (scopes b) s.
Definition symbol (s : SymId) : BindM Symbol := b ← get; index (symbols b) s.
Definition update_scope (s : ScopeId) (f : Scope → Scope) : BindM unit :=
  modify (λ b, set_scopes (alter f s (scopes b)) b).
Definition update_symbol (s : SymId) (f : Symbol → Symbol) : BindM unit :=
  modify (λ b, set_symbols (alter f s (symbols b)) b).

(** [for !p(s) { s = s.Parent }] from the scope [s]: the first scope outwards
    [p] holds of. *)
Definition outward (p : Scope → bool) (s : ScopeId) : BindM ScopeId :=
  b ← get;
  loop (S (length (scopes b)))
    (λ s, sc ← scope s;
          if p sc then mret (inr s) else s ← deref (Parent sc); mret (inl s)) s.

Definition is_scope (k : ScopeKind) (sc : Scope) : bool := bool_decide (ScKind sc = k).

(** [containerOf], [functionOf] and [functionScope]. *)
Definition containerOf (s : ScopeId) : BindM ScopeId :=
  outward (λ sc, negb (negb (is_scope FunctionScope sc) && negb (is_scope ModuleScope sc) || Inline sc)) s.
Definition functionOf (s : ScopeId) : BindM ScopeId :=
  outward (λ sc, is_scope FunctionScope sc || is_scope ModuleScope sc) s.
Definition functionScope : BindM ScopeId :=
  c ← gets cur; s ← deref c;
  outward (λ sc, is_scope FunctionScope sc || is_scope ModuleScope sc || is_scope NamespaceScope sc) s.

(** ** Entering and leaving scopes *)

(** [enter]: [key] is the identity of [node], which need not be a syntax node. *)
Definition enter (key : nat) (node : option Node) (tag : nat) (kind : ScopeKind) : BindM ScopeId :=
  b ← get;
  s ← match scopeOf b !! (key, tag) with
      | Some s => mret s
      | None =>
          let s := length (scopes b) in
          let o := match node with
                   | Some _ => if (tag =? 0)%nat && negb (bool_decide (is_Some (opened b !! key)))
                               then <[key := s]> (opened b) else opened b
                   | None => opened b
                   end in
          modify (λ b, set_opened (<[(key, tag) := s]> (scopeOf b)) o
                         (set_scopes (scopes b ++ [mkScope kind node (cur b) emptyTable false None]) b)) ≫= λ _,
          mret s
      end;
  modify (set_cur (Some s)) ≫= λ _,
  mret s.

Definition leave : BindM unit :=
  c ← gets cur; s ← deref c; sc ← scope s; modify (set_cur (Parent sc)).

(** ** Declaring *)

(** [onlyBody]. *)
Definition onlyBody (sym : Symbol) : bool :=
  if Implicit sym || (length (Declarations sym) =? 0)%nat then false
  else forallb Body (Declarations sym).

(** The clash of [d] with the first earlier declaration it has one with. *)
Fixpoint firstClash (prevs : list Declaration) (d : Declaration) (annexB : bool) : Clash :=
  match prevs with
  | [] => NoClash
  | p :: prevs =>
      let c := clashes p d annexB in
      if bool_decide (c = NoClash) then firstClash prevs d annexB else c
  end.

(** A new symbol with the declaration [d]. *)
Definition declare_fresh (s : ScopeId) (name : string) (flags : SymbolFlags) (d : Declaration) :
    BindM (option SymId) :=
  id ← gets (λ b, length (symbols b));
  modify (λ b, set_symbols (symbols b ++ [mkSymbol (S id) name flags [d] (Some s) false]) b) ≫= λ _,
  update_scope s (λ sc, mkScope (ScKind sc) (ScNode sc) (Parent sc) (put (Symbols sc) name id)
                          (Inline sc) (ParamArguments sc)) ≫= λ _,
  mret (Some id).

Definition report (id : SymId) (d : Declaration) (c : Clash) : BindM unit :=
  if bool_decide (c = NoClash) then mret tt
  else modify (λ b, set_Conflicts (Conflicts b ++ [mkConflict id d c]) b).

(** A further declaration [d] of the symbol [id]. *)
Definition declare_again (id : SymId) (sym : Symbol) (flags : SymbolFlags) (d : Declaration) :
    BindM (option SymId) :=
  annexB ← gets annexB;
  report id d (firstClash (Declarations sym) d annexB) ≫= λ _,
  update_symbol id (λ sym, mkSymbol (ID sym) (SName sym) (Z.lor (SFlags sym) flags)
                             (Declarations sym ++ [d]) (SScope sym) (Implicit sym)) ≫= λ _,
  mret (Some id).

(** The declaration [declare] makes in state [b]. *)
Definition new_decl (b : binder) (s : ScopeId) (flags : SymbolFlags) (kind : DeclKind)
    (node : option Node) : Declaration :=
  mkDeclaration node (match node with Some n => npos n | None => mkPos 0 0 end) flags kind
    (plain b) (inBody b && bool_decide (Some s = bodyScope b)).

(** The name it declares: a namespace's members lose the mangled prefix. *)
Definition table_name (b : binder) (sc : Scope) (name : string) : string :=
  if negb (bool_decide (nsPrefix b = "")) && is_scope NamespaceScope sc
  then trim_prefix name (nsPrefix b) else name.

(** [declare]; nil is [None]. *)
Definition declare (sp : option ScopeId) (name : string) (flags : SymbolFlags) (kind : DeclKind)
    (node : option Node) : BindM (option SymId) :=
  b ← get;
  if negb (declaring b) || bool_decide (name = "") then mret None
  else
    s ← deref sp;
    sc ← scope s;
    let name := table_name b sc name in
    let d := new_decl b s flags kind node in
    match Get (Symbols sc) name with
    | Some id =>
        sym ← symbol id;
        if negb (Implicit sym) then declare_again id sym flags d
        else
          (if Body d then update_scope s (λ sc, mkScope (ScKind sc) (ScNode sc) (Parent sc) (Symbols sc)
                                                  (Inline sc) (Some id))
           else mret tt) ≫= λ _,
          declare_fresh s name flags d
    | None => declare_fresh s name flags d
    end.

(** The implicit [arguments] of a function that is not an arrow (in [function]). *)
Definition declareArguments (s : ScopeId) : BindM unit :=
  b ← get;
  sc ← scope s;
  if declaring b && bool_decide (Get (Symbols sc) "arguments" = None) then
    r ← declare (Some s) "arguments" FunctionScopedVariable NameOnly None;
    match r with
    | Some id => update_symbol id (λ sym, mkSymbol (ID sym) (SName sym) (SFlags sym) [] (SScope sym) true)
    | None => mret tt
    end
  else mret tt.

(** A function called where it is written is part of its caller (in [function]). *)
Definition markInline (s : ScopeId) : BindM unit :=
  update_scope s (λ sc, mkScope (ScKind sc) (ScNode sc) (Parent sc) (Symbols sc) true (ParamArguments sc)).

(** The scopes from [s] outwards, up to and without [target]. *)
Definition scopes_through (s target : ScopeId) : BindM (list ScopeId) :=
  b ← get;
  loop (S (length (scopes b)))
    (λ '(s, acc), if bool_decide (s = target) then mret (inr acc)
                  else sc ← scope s; s' ← deref (Parent sc); mret (inl (s', acc ++ [s])))
    (s, []).

(** [declareVariable]. *)
Definition declareVariable (kind name : string) (node : option Node) : BindM unit :=
  c ← gets cur;
  if bool_decide (kind = "var") then
    target ← functionScope;
    r ← declare (Some target) name FunctionScopedVariable VarLike node;
    match r with
    | Some id =>
        s ← deref c;
        if bool_decide (s = target) then mret tt
        else
          thr ← scopes_through s target;
          sym ← symbol id;
          d ← deref (last (Declarations sym));
          modify (λ b, set_hoists (hoists b ++ [mkHoist id d thr]) b)
    | None => mret tt
    end
  else declare c name BlockScopedVariable Lexical node ≫= λ _, mret tt.

(** [functionDeclKind]. *)
Definition functionDeclKind : BindM DeclKind :=
  c ← gets cur; s ← deref c; sc ← scope s;
  mret (if is_scope BlockScope sc || is_scope CatchScope sc then Lexical else VarLike).

(** One hoisted var of [checkHoists]: the first scope it hoists through that
    declares its name lexically gives a conflict. *)
Fixpoint check_through (name : string) (d : Declaration) (thr : list ScopeId) : BindM unit :=
  match thr with
  | [] => mret tt
  | s :: thr =>
      sc ← scope s;
      match Get (Symbols sc) name with
      | None => check_through name d thr
      | Some id =>
          sym ← symbol id;
          if existsb (is_kind Lexical) (Declarations sym)
          then modify (λ b, set_Conflicts (Conflicts b ++ [mkConflict id d Redeclaration]) b)
          else check_through name d thr
      end
  end.

Fixpoint check_hoists (hs : list hoist) : BindM unit :=
  match hs with
  | [] => mret tt
  | h :: hs =>
      sym ← symbol (hsym h);
      check_through (SName sym) (hdecl h) (through h) ≫= λ _, check_hoists hs
  end.
Definition checkHoists : BindM unit := hs ← gets hoists; check_hoists hs.

(** ** Resolving *)

(** [resolveName]; nil is [None]. *)
Definition resolveName (name : string) : BindM (option SymId) :=
  b ← get;
  loop (S (S (length (scopes b))))
    (λ so, match so with
           | None => mret (inr None)
           | Some s =>
               sc ← scope s;
               match Get (Symbols sc) name with
               | None => mret (inl (Parent sc))
               | Some id =>
                   sym ← symbol id;
                   if negb (has (SFlags sym) Value) then mret (inl (Parent sc))
                   else if inParams b && bool_decide (Some s = paramScope b) && onlyBody sym then
                     match ParamArguments sc with
                     | Some a => if bool_decide (name = "arguments") then mret (inr (Some a))
                                 else mret (inl (Parent sc))
                     | None => mret (inl (Parent sc))
                     end
                   else mret (inr (Some id))
               end
           end)
    (cur b).
