(* ===== verification/SymbolFacts.v ===== *)
(** * The binder's invariant: symbols and scopes *)

From S2P Require Import Prelude GoString Diag Ast Symbols.
Open Scope Z_scope.

(** ** Clashes *)

(** What the binder declares as a namespace has a namespace's flags. *)
Definition decl_ok (d : Declaration) : Prop :=
  Kind d = NamespaceDecl → has (Flags d) (Z.lor NamespaceModule TypeModule) = true.

Lemma has_lor f a b : has f (Z.lor a b) = has f a || has f b.
Proof.
  unfold has. rewrite Z.land_lor_distr_r. apply eq_true_iff_eq.
  rewrite orb_true_iff, !negb_true_iff, !Z.eqb_neq, Z.lor_eq_0_iff.
  destruct (decide (Z.land f a = 0)), (decide (Z.land f b = 0)); tauto.
Qed.

Lemma clashes_comm a b annexB : decl_ok a → decl_ok b → clashes a b annexB = clashes b a annexB.
Proof.
  unfold decl_ok, clashes, is_kind. intros Ha Hb. rewrite !has_lor in *.
  assert (annexB && (Flags a =? Function) && (Flags b =? Function) && Plain a && Plain b
          = annexB && (Flags b =? Function) && (Flags a =? Function) && Plain b && Plain a) as ->.
  { destruct annexB, (Flags a =? Function), (Flags b =? Function), (Plain a), (Plain b); done. }
  destruct (annexB && _ && _ && _ && _); [done|].
  rewrite (Z.eqb_sym (Z.land (Flags b) Enum)).
  assert (∀ x, has (Flags b) x && has (Flags a) x = has (Flags a) x && has (Flags b) x) as Hx
    by (intros; apply andb_comm).
  assert (∀ x, has (Flags b) x || has (Flags a) x = has (Flags a) x || has (Flags b) x) as Hy
    by (intros; apply orb_comm).
  assert (negb annexB && functionImplementation b && functionImplementation a
          = negb annexB && functionImplementation a && functionImplementation b) as ->
    by (by rewrite <- !andb_assoc, (andb_comm (functionImplementation b))).
  rewrite !Hx, !Hy. clear Hx Hy.
  destruct (Kind a), (Kind b);
    repeat match goal with H : _ = _ → _ |- _ => first [specialize (H eq_refl)|clear H] end;
    repeat match goal with |- context [bool_decide (?x = ?y)] =>
      first [change (bool_decide (x = y)) with true|change (bool_decide (x = y)) with false] end;
    cbn [orb andb negb]; try done.
  all: rewrite ?has_lor in *.
  all: destruct (has (Flags a) TypeAlias) eqn:Ea, (has (Flags b) TypeAlias) eqn:Eb; rewrite ?Ea, ?Eb;
    rewrite ?orb_true_r, ?orb_true_l, ?orb_false_r, ?orb_false_l; try done.
  all: repeat match goal with H : _ || _ = true |- _ => apply orb_true_iff in H as [H|H] end;
    repeat match goal with H : has _ _ = true |- _ => rewrite H; clear H end;
    rewrite ?orb_true_r, ?orb_true_l; try done.
Qed.

(** ** First clashes *)

Lemma firstClash_NoClash prevs d annexB :
  firstClash prevs d annexB = NoClash ↔ Forall (λ p, clashes p d annexB = NoClash) prevs.
Proof.
  induction prevs as [|p prevs IH]; cbn; [by split|].
  case_bool_decide as Hc.
  - rewrite IH. split; [by constructor|by inversion 1].
  - split; [by intros ?|by inversion 1].
Qed.

(** The declarations, of those declared in order after [prevs], that clash. *)
Fixpoint reported (annexB : bool) (prevs ds : list Declaration) : list (Declaration * Clash) :=
  match ds with
  | [] => []
  | d :: ds =>
      let c := firstClash prevs d annexB in
      (if bool_decide (c = NoClash) then [] else [(d, c)]) ++ reported annexB (prevs ++ [d]) ds
  end.

(** No two declarations of a list, nor one of them and one before it, clash. *)
Definition compatible (annexB : bool) (ds : list Declaration) : Prop :=
  ∀ i j d e, (i < j)%nat → ds !! i = Some d → ds !! j = Some e → clashes d e annexB = NoClash.

Lemma compatible_snoc annexB ds d :
  compatible annexB (ds ++ [d]) ↔ compatible annexB ds ∧ Forall (λ p, clashes p d annexB = NoClash) ds.
Proof.
  split.
  - intros H. split.
    + intros i j x y Hij Hx Hy. apply (H i j); [done|by apply lookup_app_l_Some..].
    + apply Forall_lookup. intros i x Hx. apply (H i (length ds)); [by apply lookup_lt_Some in Hx|..].
      * by apply lookup_app_l_Some.
      * by rewrite list_lookup_middle.
  - intros [H Hd] i j x y Hij Hx Hy. rewrite Forall_lookup in Hd.
    apply lookup_app_Some in Hy as [Hy|[Hlen Hy]].
    + apply (H i j); [done| |done]. apply lookup_app_Some in Hx as [?|[? _]]; [done|].
      apply lookup_lt_Some in Hy. lia.
    + assert (j = length ds) as ->.
      { apply lookup_lt_Some in Hy. cbn in Hy. lia. }
      rewrite Nat.sub_diag in Hy. injection Hy as <-.
      apply lookup_app_Some in Hx as [Hx|[? _]]; [by eapply Hd|lia].
Qed.

Lemma reported_nil annexB prevs ds :
  compatible annexB prevs → (reported annexB prevs ds = [] ↔ compatible annexB (prevs ++ ds)).
Proof.
  revert prevs. induction ds as [|d ds IH]; intros prevs Hp; cbn; [by rewrite app_nil_r|].
  assert (prevs ++ d :: ds = (prevs ++ [d]) ++ ds) as -> by (by rewrite <- app_assoc).
  case_bool_decide as Hc.
  - apply firstClash_NoClash in Hc. cbn. apply IH. by apply compatible_snoc.
  - split; [done|]. intros H. exfalso. apply Hc, firstClash_NoClash.
    apply (compatible_snoc annexB prevs d). intros i j x y Hij Hx Hy.
    apply (H i j); [done|by apply lookup_app_l_Some..].
Qed.

Lemma compatible_perm annexB ds ds' :
  Forall decl_ok ds → ds ≡ₚ ds' → compatible annexB ds → compatible annexB ds'.
Proof.
  intros Hok Hp H. symmetry in Hp. apply Permutation_inj in Hp as [Hlen (f & Hf & Hlk)].
  intros i j d e Hij Hd He. rewrite Hlk in Hd, He. rewrite Forall_lookup in Hok.
  destruct (Nat.lt_total (f i) (f j)) as [Hlt|[Heq|Hgt]].
  - by apply (H (f i) (f j)).
  - apply Hf in Heq. lia.
  - rewrite clashes_comm by eauto. by apply (H (f j) (f i)).
Qed.

(** ** The invariant *)

Record table_ok (ss : list Symbol) (s : ScopeId) (t : Table) : Prop := {
  tbl_nodup : NoDup (names t);
  tbl_names : ∀ n, n ∈ names t ↔ is_Some (m t !! n);
  tbl_syms : ∀ n id, m t !! n = Some id →
    ∃ sym, ss !! id = Some sym ∧ SName sym = n ∧ SScope sym = Some s;
  tbl_aliases : ∀ n id, aliases t !! n = Some id → (id < length ss)%nat }.

Record scope_ok (ss : list Symbol) (s : ScopeId) (sc : Scope) : Prop := {
  sc_parent : match Parent sc with Some p => (p < s)%nat | None => ScKind sc = ModuleScope end;
  sc_table : table_ok ss s (Symbols sc);
  sc_args : ∀ id, ParamArguments sc = Some id → (id < length ss)%nat;
  sc_inline : Inline sc = true → ScKind sc = FunctionScope }.

Definition symbol_ok (id : SymId) (sym : Symbol) : Prop :=
  ID sym = S id ∧
  if Implicit sym then Declarations sym = []
  else Declarations sym ≠ [] ∧ SFlags sym = foldr Z.lor 0 (map Flags (Declarations sym)).

Record wf (b : binder) : Prop := {
  wf_scopes : ∀ s sc, scopes b !! s = Some sc → scope_ok (symbols b) s sc;
  wf_symbols : ∀ id sym, symbols b !! id = Some sym → symbol_ok id sym;
  wf_scoped : ∀ id sym, symbols b !! id = Some sym → ∃ s, SScope sym = Some s ∧ (s < length (scopes b))%nat;
  wf_cur : ∀ s, cur b = Some s → (s < length (scopes b))%nat;
  wf_opened : ∀ k s, scopeOf b !! k = Some s → (s < length (scopes b))%nat;
  wf_hoists : Forall (λ h, (hsym h < length (symbols b))%nat ∧
                           Forall (λ s, (s < length (scopes b))%nat) (through h)) (hoists b);
  wf_conflicts : Forall (λ c, CClash c ≠ NoClash ∧ (CSymbol c < length (symbols b))%nat) (Conflicts b) }.

(** What no operation takes back: scopes and symbols stay where they are, with
    their name, kind and parent, and conflicts are only added. *)
Record grows (b b' : binder) : Prop := {
  gr_scopes : ∀ s sc, scopes b !! s = Some sc → ∃ sc', scopes b' !! s = Some sc' ∧
    ScKind sc' = ScKind sc ∧ Parent sc' = Parent sc ∧ (Inline sc = true → Inline sc' = true);
  gr_symbols : ∀ id sym, symbols b !! id = Some sym → ∃ sym', symbols b' !! id = Some sym' ∧
    SName sym' = SName sym ∧ SScope sym' = SScope sym ∧ Implicit sym' = Implicit sym ∧
    Declarations sym `prefix_of` Declarations sym';
  gr_conflicts : Conflicts b `prefix_of` Conflicts b' }.

#[export] Instance grows_preorder : PreOrder grows.
Proof.
  split.
  - intros b. constructor; [eauto|eauto 10|done].
  - intros b1 b2 b3 [H1 H2 H3] [H4 H5 H6]. constructor.
    + intros s sc (sc' & Hsc & <- & <- & Hi)%H1. apply H4 in Hsc as (sc'' & ? & ? & ? & ?).
      exists sc''. split_and!; auto.
    + intros id sym (sym' & Hs & <- & <- & <- & Hp)%H2. apply H5 in Hs as (sym'' & ? & ? & ? & ? & ?).
      exists sym''. split_and!; try done. by etrans.
    + by etrans.
Qed.

Lemma grows_scopes_length b b' : grows b b' → (length (scopes b) ≤ length (scopes b'))%nat.
Proof.
  intros H. destruct (decide (length (scopes b) = 0%nat)) as [|Hne]; [lia|].
  destruct (lookup_lt_is_Some_2 (scopes b) (length (scopes b) - 1)) as [sc Hsc]; [lia|].
  apply (gr_scopes _ _ H) in Hsc as (? & Hsc & _). apply lookup_lt_Some in Hsc. lia.
Qed.

(** ** Walking outwards *)

Section walk.
Context (b : binder) (Hwf : wf b).

Lemma wp_scope s (Q : Scope → binder → Prop) X :
  (s < length (scopes b))%nat → (∀ sc, scopes b !! s = Some sc → Q sc b) → wp (scope s) Q X b.
Proof.
  intros Hs HQ. unfold scope. wp_steps. apply lookup_lt_is_Some in Hs as [sc Hsc].
  eapply wp_index; [done|by apply HQ].
Qed.

Lemma wp_symbol id (Q : Symbol → binder → Prop) X :
  (id < length (symbols b))%nat → (∀ sym, symbols b !! id = Some sym → Q sym b) → wp (symbol id) Q X b.
Proof.
  intros Hs HQ. unfold symbol. wp_steps. apply lookup_lt_is_Some in Hs as [sym Hsym].
  eapply wp_index; [done|by apply HQ].
Qed.

(** A chain of scopes outwards, [p] holding of each but the last. *)
Inductive chain (p : ScopeId → Scope → Prop) : ScopeId → ScopeId → Prop :=
  | chain_here s : chain p s s
  | chain_up s sc s' t : scopes b !! s = Some sc → p s sc → Parent sc = Some s' → chain p s' t → chain p s t.

Lemma chain_inv p s t :
  chain p s t → s = t ∨ ∃ sc s', scopes b !! s = Some sc ∧ Parent sc = Some s' ∧ chain p s' t.
Proof. destruct 1; [by left|right; eauto]. Qed.

Lemma wp_outward p s (Q : ScopeId → binder → Prop) X :
  (s < length (scopes b))%nat →
  (∀ r sc, Parent sc = None → scopes b !! r = Some sc → p sc = true) →
  (∀ t sc, scopes b !! t = Some sc → p sc = true → chain (λ _ sc, p sc = false) s t → Q t b) →
  wp (outward p s) Q X b.
Proof.
  intros Hs Hroot HQ. unfold outward. wp_steps.
  apply (wp_loop_var (λ s' b', b' = b ∧ (s' < length (scopes b))%nat
           ∧ (∀ t, chain (λ _ sc, p sc = false) s' t → chain (λ _ sc, p sc = false) s t)) (λ s' _, s')).
  2: by split_and!. 2: lia.
  intros s' b' (-> & Hs' & Hch). wp_steps. apply wp_scope; [done|]. intros sc Hsc.
  destruct (p sc) eqn:Hp; wp_steps.
  - eapply HQ; [done..|]. apply Hch, chain_here.
  - pose proof (sc_parent _ _ _ (wf_scopes b Hwf s' sc Hsc)) as Hpar.
    destruct (Parent sc) as [s''|] eqn:Hs''; [|by rewrite (Hroot s' sc) in Hp].
    cbn [deref]. wp_steps. apply lookup_lt_Some in Hsc as Hlt. split; [|lia]. split_and!; [done|lia|].
    intros t Ht. apply Hch. by eapply chain_up.
Qed.

Lemma wp_scopes_through s target (Q : list ScopeId → binder → Prop) X :
  (s < length (scopes b))%nat → (∃ p, chain p s target) →
  (∀ thr, Forall (λ s, (s < length (scopes b))%nat) thr → Q thr b) →
  wp (scopes_through s target) Q X b.
Proof.
  intros Hs Hc HQ. unfold scopes_through. wp_steps.
  apply (wp_loop_var (λ '(s', acc) b', b' = b ∧ (s' < length (scopes b))%nat
           ∧ (∃ p, chain p s' target) ∧ Forall (λ s, (s < length (scopes b))%nat) acc) (λ '(s', _) _, s')).
  2: by split_and!. 2: lia.
  intros [s' acc] b' (-> & Hs' & (p & Hch) & Hacc). case_bool_decide as Ht; wp_steps; [by apply HQ|].
  apply wp_scope; [done|]. intros sc Hsc.
  apply chain_inv in Hch as [->|(sc' & s'' & Hsc' & Hpar & Hch')]; [done|].
  assert (sc' = sc) as -> by congruence. rewrite Hpar. cbn [deref]. wp_steps.
  pose proof (sc_parent _ _ _ (wf_scopes b Hwf s' sc Hsc)) as Hlt. rewrite Hpar in Hlt.
  split; [|done]. split_and!; [done|lia|by eexists|]. apply Forall_app. by repeat constructor.
Qed.
End walk.

(** ** Preservation *)

Lemma foldr_lor_snoc xs x : foldr Z.lor 0 (xs ++ [x]) = Z.lor (foldr Z.lor 0 xs) x.
Proof. induction xs as [|y xs IH]; cbn; [by rewrite Z.lor_0_r|]. by rewrite IH, Z.lor_assoc. Qed.

Lemma put_ok ss s t name id sym :
  table_ok ss s t → ss !! id = Some sym → SName sym = name → SScope sym = Some s →
  table_ok ss s (put t name id).
Proof.
  intros [Hnd Hn Hs Ha] Hid Hname Hsc. constructor; cbn; [| | |done].
  - destruct (m t !! name) eqn:Hm; [done|]. apply NoDup_app. split_and!; [done| |apply NoDup_singleton].
    intros x Hx ->%list_elem_of_singleton. apply Hn in Hx as [? ?]. congruence.
  - intros n. rewrite lookup_insert_is_Some'. destruct (m t !! name) eqn:Hm.
    + rewrite Hn. split; [by right|]. intros [->|?]; [by eexists|done].
    + rewrite elem_of_app, list_elem_of_singleton, Hn. split; [intros [?| ->]; auto|intros [<-|?]; auto].
  - intros n i. rewrite lookup_insert_Some. intros [[<- <-]|[? ?]]; [by eexists|by apply Hs].
Qed.

Lemma table_ok_mono ss ss' s t :
  (∀ id sym, ss !! id = Some sym → ∃ sym', ss' !! id = Some sym' ∧ SName sym' = SName sym ∧ SScope sym' = SScope sym) →
  table_ok ss s t → table_ok ss' s t.
Proof.
  intros Hss [Hnd Hn Hs Ha]. constructor; [done|done| |].
  - intros n id (sym & Hsym & <- & <-)%Hs. apply Hss in Hsym as (sym' & ? & ? & ?). by exists sym'.
  - intros n id Hid%Ha. apply lookup_lt_is_Some in Hid as [sym Hsym].
    apply Hss in Hsym as (sym' & Hsym' & _). by apply lookup_lt_Some in Hsym'.
Qed.

Lemma scope_ok_mono ss ss' s sc :
  (∀ id sym, ss !! id = Some sym → ∃ sym', ss' !! id = Some sym' ∧ SName sym' = SName sym ∧ SScope sym' = SScope sym) →
  scope_ok ss s sc → scope_ok ss' s sc.
Proof.
  intros Hss [Hp Ht Ha Hi]. constructor; [done|by eapply table_ok_mono| |done].
  intros id Hid%Ha. apply lookup_lt_is_Some in Hid as [sym Hsym].
  apply Hss in Hsym as (sym' & Hsym' & _). by apply lookup_lt_Some in Hsym'.
Qed.

(** Updating a symbol or a scope in place, or adding a symbol. *)
Lemma alter_symbol_wf b id f :
  wf b →
  (∀ sym, symbols b !! id = Some sym → symbol_ok id sym → symbol_ok id (f sym) ∧
     SName (f sym) = SName sym ∧ SScope (f sym) = SScope sym ∧ Implicit (f sym) = Implicit sym ∧
     Declarations sym `prefix_of` Declarations (f sym)) →
  wf (set_symbols (alter f id (symbols b)) b) ∧ grows b (set_symbols (alter f id (symbols b)) b).
Proof.
  intros [Hsc Hsy Hsd Hcur Hop Hho Hco] Hf.
  assert (∀ i sym, symbols b !! i = Some sym → ∃ sym', alter f id (symbols b) !! i = Some sym' ∧
    SName sym' = SName sym ∧ SScope sym' = SScope sym ∧ Implicit sym' = Implicit sym ∧
    Declarations sym `prefix_of` Declarations sym') as Hal.
  { intros i sym Hi. destruct (decide (i = id)) as [->|Hne].
    - exists (f sym). rewrite list_lookup_alter_eq, Hi. split; [done|]. by apply Hf, Hsy.
    - exists sym. by rewrite list_lookup_alter_ne. }
  split.
  - constructor; cbn; rewrite ?length_alter; try done.
    + intros s sc Hs. eapply scope_ok_mono; [|by apply Hsc]. intros i sym Hi.
      destruct (Hal i sym Hi) as (sym' & ? & ? & ? & _). eauto.
    + intros i sym Hi. destruct (decide (i = id)) as [->|Hne].
      * rewrite list_lookup_alter_eq in Hi. apply fmap_Some in Hi as (sym0 & Hi & ->). by apply Hf, Hsy.
      * rewrite list_lookup_alter_ne in Hi by done. by apply Hsy.
    + intros i sym Hi. destruct (decide (i = id)) as [->|Hne].
      * rewrite list_lookup_alter_eq in Hi. apply fmap_Some in Hi as (sym0 & Hi & ->).
        destruct (Hf sym0 Hi (Hsy _ _ Hi)) as (_ & _ & -> & _). by eapply Hsd.
      * rewrite list_lookup_alter_ne in Hi by done. by eapply Hsd.
  - constructor; cbn; [eauto 10|done|done].
Qed.

(** The same for a symbol that an earlier state did not have. *)
Lemma alter_new_symbol_wf b0 b id f :
  wf b → grows b0 b → (length (symbols b0) ≤ id)%nat →
  (∀ sym, symbols b !! id = Some sym → symbol_ok id sym → symbol_ok id (f sym) ∧
     SName (f sym) = SName sym ∧ SScope (f sym) = SScope sym ∧ True) →
  wf (set_symbols (alter f id (symbols b)) b) ∧ grows b0 (set_symbols (alter f id (symbols b)) b).
Proof.
  intros [Hsc Hsy Hsd Hcur Hop Hho Hco] [Hg1 Hg2 Hg3] Hid Hf.
  assert (∀ i sym, symbols b !! i = Some sym → ∃ sym', alter f id (symbols b) !! i = Some sym' ∧
    SName sym' = SName sym ∧ SScope sym' = SScope sym) as Hal.
  { intros i sym Hi. destruct (decide (i = id)) as [->|Hne].
    - exists (f sym). rewrite list_lookup_alter_eq, Hi. destruct (Hf sym Hi (Hsy _ _ Hi)) as (_ & ? & ? & _). by split_and!.
    - exists sym. by rewrite list_lookup_alter_ne. }
  split.
  - constructor; cbn; rewrite ?length_alter; try done.
    + intros s sc Hs. eapply scope_ok_mono; [exact Hal|by apply Hsc].
    + intros i sym Hi. destruct (decide (i = id)) as [->|Hne].
      * rewrite list_lookup_alter_eq in Hi. apply fmap_Some in Hi as (sym0 & Hi & ->). by apply Hf, Hsy.
      * rewrite list_lookup_alter_ne in Hi by done. by apply Hsy.
    + intros i sym Hi. destruct (decide (i = id)) as [->|Hne].
      * rewrite list_lookup_alter_eq in Hi. apply fmap_Some in Hi as (sym0 & Hi & ->).
        destruct (Hf sym0 Hi (Hsy _ _ Hi)) as (_ & _ & -> & _). by eapply Hsd.
      * rewrite list_lookup_alter_ne in Hi by done. by eapply Hsd.
  - constructor; cbn; [done| |done]. intros i sym Hi. apply lookup_lt_Some in Hi as Hlt.
    destruct (Hg2 _ _ Hi) as (sym' & Hs' & Hrest). exists sym'. by rewrite list_lookup_alter_ne by lia.
Qed.

Lemma alter_scope_wf b s f :
  wf b →
  (∀ sc, scopes b !! s = Some sc → scope_ok (symbols b) s sc → scope_ok (symbols b) s (f sc) ∧
     ScKind (f sc) = ScKind sc ∧ Parent (f sc) = Parent sc ∧ (Inline sc = true → Inline (f sc) = true)) →
  wf (set_scopes (alter f s (scopes b)) b) ∧ grows b (set_scopes (alter f s (scopes b)) b).
Proof.
  intros [Hsc Hsy Hsd Hcur Hop Hho Hco] Hf. split.
  - constructor; cbn; rewrite ?length_alter; try done. intros i sc Hi. destruct (decide (i = s)) as [->|Hne].
    + rewrite list_lookup_alter_eq in Hi. apply fmap_Some in Hi as (sc0 & Hi & ->). by apply Hf, Hsc.
    + rewrite list_lookup_alter_ne in Hi by done. by apply Hsc.
  - constructor; cbn; [|eauto 10|done]. intros i sc Hi. destruct (decide (i = s)) as [->|Hne].
    + exists (f sc). rewrite list_lookup_alter_eq, Hi. split; [done|]. by apply Hf, Hsc.
    + exists sc. by rewrite list_lookup_alter_ne.
Qed.

Lemma add_symbol_wf b sym :
  wf b → symbol_ok (length (symbols b)) sym →
  (∃ s, SScope sym = Some s ∧ (s < length (scopes b))%nat) →
  wf (set_symbols (symbols b ++ [sym]) b) ∧ grows b (set_symbols (symbols b ++ [sym]) b).
Proof.
  intros [Hsc Hsy Hsd Hcur Hop Hho Hco] Hsym Hscp.
  assert (∀ i x, symbols b !! i = Some x → (symbols b ++ [sym]) !! i = Some x) as Hl
    by (intros; by apply lookup_app_l_Some).
  split.
  - constructor; cbn; rewrite ?length_app; try done.
    + intros s sc Hs. eapply scope_ok_mono; [|by apply Hsc]. eauto.
    + intros i x Hi. apply lookup_app_Some in Hi as [Hi|[Hi Hx]]; [by apply Hsy|].
      apply list_lookup_singleton_Some in Hx as [Hx <-]. by replace i with (length (symbols b)) by lia.
    + intros i x Hi. apply lookup_app_Some in Hi as [Hi|[Hi Hx]]; [by eapply Hsd|].
      by apply list_lookup_singleton_Some in Hx as [_ <-].
    + eapply Forall_impl; [exact Hho|]. intros h [? ?]. split; [lia|done].
    + eapply Forall_impl; [exact Hco|]. intros c [? ?]. split; [done|lia].
  - constructor; cbn; [eauto 10|eauto 10|done].
Qed.

Lemma add_conflict_wf b c :
  wf b → CClash c ≠ NoClash → (CSymbol c < length (symbols b))%nat →
  wf (set_Conflicts (Conflicts b ++ [c]) b) ∧ grows b (set_Conflicts (Conflicts b ++ [c]) b).
Proof.
  intros [Hsc Hsy Hsd Hcur Hop Hho Hco] ??. split.
  - constructor; cbn; try done. apply Forall_app. by repeat constructor.
  - constructor; cbn; [eauto 10..|]. by apply prefix_app_r.
Qed.

(** The fields an operation that declares leaves alone. *)
Definition same_place (b b' : binder) : Prop :=
  cur b' = cur b ∧ declaring b' = declaring b ∧ annexB b' = annexB b ∧ nsPrefix b' = nsPrefix b
  ∧ scopeOf b' = scopeOf b ∧ length (scopes b') = length (scopes b) ∧ hoists b' = hoists b
  ∧ inParams b' = inParams b.

Section preserve.
Lemma wp_enter key node tag kind b X :
  wf b → (cur b = None → kind = ModuleScope) →
  wp (enter key node tag kind)
    (λ s b', wf b' ∧ grows b b' ∧ cur b' = Some s ∧ (s < length (scopes b'))%nat) X b.
Proof.
  intros Hwf Hmod. unfold enter. wp_steps. destruct (scopeOf b !! (key, tag)) as [s|] eqn:Hs; wp_steps.
  - assert (s < length (scopes b))%nat by by eapply wf_opened.
    destruct Hwf. split_and!; [constructor; cbn; try done; by intros ? [= <-]|constructor; cbn; eauto 10|done|done].
  - destruct Hwf as [Hsc Hsy Hsd Hcur Hop Hho Hco]. cbn. split_and!.
    + constructor; cbn; rewrite ?length_app; cbn.
      * intros s sc Hsc'. apply lookup_app_Some in Hsc' as [?|[Hge Hsc']]; [by apply Hsc|].
        apply list_lookup_singleton_Some in Hsc' as [? <-]. constructor; cbn; [| |done..].
        { destruct (cur b) as [c|] eqn:Hc; [|by apply Hmod]. specialize (Hcur c eq_refl). lia. }
        constructor; cbn; [constructor| | |]; intros n; rewrite ?lookup_empty; [|done..].
        split; [by intros ?%elem_of_nil|by intros [? ?]].
      * done.
      * intros id sym (s & ? & ?)%Hsd. exists s. split; [done|lia].
      * intros ? [= <-]. lia.
      * intros k s. rewrite lookup_insert_Some. intros [[<- <-]|[_ Hk]]; [lia|]. apply Hop in Hk. lia.
      * eapply Forall_impl; [exact Hho|]. intros h [? Hth]. split; [done|].
        eapply Forall_impl; [exact Hth|]. cbn. lia.
      * done.
    + constructor; cbn; [|eauto 10|done]. intros s sc Hs'. exists sc. split; [|done]. by apply lookup_app_l_Some.
    + done.
    + rewrite length_app. cbn. lia.
Qed.

Lemma wp_leave b s sc p X :
  wf b → cur b = Some s → scopes b !! s = Some sc → Parent sc = p →
  wp leave (λ _ b', wf b' ∧ grows b b' ∧ cur b' = p) X b.
Proof.
  intros Hwf Hc Hs Hp. unfold leave. wp_steps. rewrite Hc. cbn [deref]. wp_steps.
  apply wp_scope; [by eapply lookup_lt_Some|]. intros sc' Hs'. assert (sc' = sc) as -> by congruence.
  wp_steps. pose proof (sc_parent _ _ _ (wf_scopes _ Hwf _ _ Hs)) as Hlt. rewrite Hp in *.
  apply lookup_lt_Some in Hs. destruct Hwf. split_and!; [constructor; cbn; try done|constructor; cbn; eauto 10|done].
  intros s0 ->. lia.
Qed.

(** What the two ways of declaring leave behind. *)
Definition declared (b : binder) (s : ScopeId) (name : string) (flags : SymbolFlags) (d : Declaration)
    (r : option SymId) (b' : binder) : Prop :=
  wf b' ∧ grows b b' ∧ same_place b b' ∧
  ∃ id sc sym, r = Some id ∧ scopes b' !! s = Some sc ∧ symbols b' !! id = Some sym ∧
    Get (Symbols sc) name = Some id ∧ last (Declarations sym) = Some d ∧
    (has flags Value = true → has (SFlags sym) Value = true).

Lemma declared_trans b b1 s name flags d r b' :
  grows b b1 → same_place b b1 → declared b1 s name flags d r b' → declared b s name flags d r b'.
Proof.
  intros Hg (?&?&?&?&?&?&?&?) (Hwf & Hg' & (?&?&?&?&?&?&?&?) & Hr). split; [done|]. split; [by etrans|].
  split; [|done]. split_and!; congruence.
Qed.

Lemma wp_declare_fresh s name flags kind node b X d :
  wf b → (s < length (scopes b))%nat → d = new_decl b s flags kind node →
  wp (declare_fresh s name flags d)
    (λ r b', declared b s name flags d r b' ∧ r = Some (length (symbols b))) X b.
Proof.
  intros Hwf Hs ->. set (d := new_decl _ _ _ _ _). unfold declare_fresh, update_scope. wp_steps.
  set (sym := mkSymbol (S (length (symbols b))) name flags [d] (Some s) false).
  destruct (add_symbol_wf b sym) as [Hwf1 Hgr1]; [done|split; [done|split; [done|cbn; by rewrite Z.lor_0_r]]|by exists s|].
  set (b1 := set_symbols _ b) in *.
  assert (symbols b1 !! length (symbols b) = Some sym) as Hnew by (cbn; by rewrite list_lookup_middle).
  destruct (lookup_lt_is_Some_2 _ _ Hs) as [sc Hsc].
  edestruct (alter_scope_wf b1 s) as [Hwf2 Hgr2]; [done| |split; [split; [exact Hwf2|]|done]].
  { intros sc0 _ [Hp Ht Ha Hi]. split; [|done]. constructor; cbn; [done| |done..]. by eapply put_ok. }
  split; [by etrans|]. split; [unfold same_place; cbn; by rewrite length_alter|].
  eexists _, _, sym. split; [done|]. split; [cbn; by rewrite list_lookup_alter_eq, Hsc|]. split; [exact Hnew|].
  split; [|done]. unfold Get. cbn. by rewrite lookup_insert_eq.
Qed.

Lemma wp_declare_fresh1 s name flags kind node b X d :
  wf b → (s < length (scopes b))%nat → d = new_decl b s flags kind node →
  wp (declare_fresh s name flags d) (declared b s name flags d) X b.
Proof. intros. eapply wp_mono; [by eapply wp_declare_fresh|by intros r b' [? _]|done]. Qed.

Lemma has_lor_l f g mask : has f mask = true → has (Z.lor g f) mask = true.
Proof.
  unfold has. rewrite !negb_true_iff, !Z.eqb_neq, !(Z.land_comm _ mask), Z.land_lor_distr_r.
  intros H [_ H0]%Z.lor_eq_0_iff. done.
Qed.

Lemma again_ok id sym d :
  Implicit sym = false → symbol_ok id sym →
  symbol_ok id (mkSymbol (ID sym) (SName sym) (Z.lor (SFlags sym) (Flags d)) (Declarations sym ++ [d])
                  (SScope sym) (Implicit sym)).
Proof.
  unfold symbol_ok. cbn. intros -> (? & ? & Hfl). split; [done|]. split; [by intros [_ ?]%app_nil|].
  rewrite map_app. change (map Flags [d]) with [Flags d]. by rewrite foldr_lor_snoc, <- Hfl.
Qed.

Lemma wp_report id d c b (Q : unit → binder → Prop) X :
  wf b → (id < length (symbols b))%nat →
  (∀ b1, wf b1 → grows b b1 → same_place b b1 → symbols b1 = symbols b → scopes b1 = scopes b → Q tt b1) →
  wp (report id d c) Q X b.
Proof.
  intros Hwf Hid HQ. unfold report. case_bool_decide as Hc; wp_steps; [by apply HQ|].
  destruct (add_conflict_wf b (mkConflict id d c)) as [Hwf1 Hgr1]; [done..|]. by apply HQ.
Qed.

Lemma wp_declare_again s sc name id sym flags d b X :
  wf b → scopes b !! s = Some sc → Get (Symbols sc) name = Some id → symbols b !! id = Some sym →
  Implicit sym = false → Flags d = flags →
  wp (declare_again id sym flags d) (declared b s name flags d) X b.
Proof.
  intros Hwf Hsc Hget Hsym Himp <-. unfold declare_again, update_symbol. wp_steps.
  apply wp_report; [done|by eapply lookup_lt_Some|]. intros b1 Hwf1 Hgr1 Hsp Hsy Hscs.
  wp_steps. edestruct (alter_symbol_wf b1 id) as [Hwf2 Hgr2]; [done| |split; [exact Hwf2|]].
  { intros sym0 Hsym0 Hok. assert (sym0 = sym) as -> by congruence.
    split_and!; [by apply again_ok|done..|]. by apply prefix_app_r. }
  split; [by etrans|]. split; [exact Hsp|].
  eexists id, sc, _. split; [done|]. split; [cbn; by rewrite Hscs|].
  split; [cbn; by rewrite list_lookup_alter_eq, Hsy, Hsym|]. split; [done|].
  split; [cbn; by rewrite last_snoc|cbn; apply has_lor_l].
Qed.

Lemma Get_lt b s sc name id :
  wf b → scopes b !! s = Some sc → Get (Symbols sc) name = Some id → (id < length (symbols b))%nat.
Proof.
  intros Hwf Hsc Hget. destruct (sc_table _ _ _ (wf_scopes _ Hwf _ _ Hsc)) as [_ _ Htb Hal]. unfold Get in Hget.
  destruct (m (Symbols sc) !! name) eqn:Hm; [|by eapply Hal].
  injection Hget as ->. apply Htb in Hm as (sym & Hsym & _). by eapply lookup_lt_Some.
Qed.

(** [declare]: a symbol of the scope has the new declaration as its last. *)
Lemma wp_declare s sc name flags kind node b X :
  wf b → scopes b !! s = Some sc →
  wp (declare (Some s) name flags kind node)
    (λ r b', if negb (declaring b) || bool_decide (name = "") then r = None ∧ b' = b
             else declared b s (table_name b sc name) flags (new_decl b s flags kind node) r b') X b.
Proof.
  intros Hwf Hsc. unfold declare. wp_steps.
  destruct (negb (declaring b) || bool_decide (name = "")); wp_steps; [done|].
  cbn [deref]. wp_steps. apply lookup_lt_Some in Hsc as Hs. apply wp_scope; [done|]. intros sc' Hsc'.
  assert (sc' = sc) as -> by congruence. wp_steps. cbv zeta.
  destruct (Get _ _) as [id|] eqn:Hget; [|by eapply wp_declare_fresh1].
  wp_steps. apply wp_symbol; [by eapply Get_lt|]. intros sym Hsym.
  destruct (Implicit sym) eqn:Himp; cbn [negb]; [|by eapply wp_declare_again]. wp_steps.
  destruct (Body _); unfold update_scope; wp_steps; [|by eapply wp_declare_fresh1].
  destruct (alter_scope_wf b s (λ sc, mkScope (ScKind sc) (ScNode sc) (Parent sc) (Symbols sc) (Inline sc) (Some id)))
    as [Hwf1 Hgr1]; [done| |].
  { intros sc0 _ [Hp Ht Ha Hi]. split; [|done]. constructor; cbn; [done..| |done].
    intros ? ?; simplify_eq/=. by eapply Get_lt. }
  eapply wp_mono; [eapply (wp_declare_fresh1 s _ flags kind node); [done|cbn; by rewrite length_alter|done]| |done].
  intros r b'. apply declared_trans; [done|]. unfold same_place. cbn. by rewrite length_alter.
Qed.

Lemma wf_cur_scope b : wf b → is_Some (cur b) → ∃ s sc, cur b = Some s ∧ scopes b !! s = Some sc.
Proof.
  intros Hwf [s Hc]. pose proof (wf_cur _ Hwf s Hc) as Hs. apply lookup_lt_is_Some in Hs as [sc Hsc]. eauto.
Qed.

Lemma module_root b r sc : wf b → Parent sc = None → scopes b !! r = Some sc → ScKind sc = ModuleScope.
Proof. intros Hwf Hp Hr. pose proof (sc_parent _ _ _ (wf_scopes _ Hwf _ _ Hr)) as H. by rewrite Hp in H. Qed.

Definition hoists_here (sc : Scope) : bool :=
  is_scope FunctionScope sc || is_scope ModuleScope sc || is_scope NamespaceScope sc.

Lemma chain_lt b p s t : wf b → (s < length (scopes b))%nat → chain b p s t → (t < length (scopes b))%nat.
Proof.
  intros Hwf Hs. induction 1 as [|s sc s' t Hsc Hp Hpar Hch IH]; [done|]. apply IH.
  pose proof (sc_parent _ _ _ (wf_scopes _ Hwf _ _ Hsc)) as Hlt. rewrite Hpar in Hlt. lia.
Qed.

Lemma wp_functionScope b s (Q : ScopeId → binder → Prop) X :
  wf b → cur b = Some s →
  (∀ t sc, scopes b !! t = Some sc → hoists_here sc = true → chain b (λ _ sc, hoists_here sc = false) s t → Q t b) →
  wp functionScope Q X b.
Proof.
  intros Hwf Hc HQ. unfold functionScope. wp_steps. rewrite Hc. cbn [deref]. wp_steps.
  pose proof (wf_cur _ Hwf s Hc) as Hs. apply wp_outward; [done|done| |done]. intros r sc Hp Hr.
  unfold is_scope. rewrite (module_root b r sc) by done. done.
Qed.

(** Walking outwards sees the same chain after an operation that only grows. *)
Lemma chain_grows b b' p s t : grows b b' → chain b p s t → chain b' (λ _ _, True) s t.
Proof.
  intros Hg. induction 1 as [|s sc s' t Hsc Hp Hpar Hch IH]; [constructor|].
  destruct (gr_scopes _ _ Hg _ _ Hsc) as (sc' & Hsc' & _ & Hpar' & _).
  eapply chain_up; [done|done|by rewrite Hpar'|done].
Qed.

Lemma add_hoist_wf b h :
  wf b → (hsym h < length (symbols b))%nat → Forall (λ s, (s < length (scopes b))%nat) (through h) →
  wf (set_hoists (hoists b ++ [h]) b) ∧ grows b (set_hoists (hoists b ++ [h]) b).
Proof.
  intros [Hsc Hsy Hsd Hcur Hop Hho Hco] ??. split; [|constructor; cbn; eauto 10].
  constructor; cbn; try done. apply Forall_app. by repeat constructor.
Qed.

Lemma wp_declareVariable kind name node b X :
  wf b → is_Some (cur b) → wp (declareVariable kind name node) (λ _ b', wf b' ∧ grows b b' ∧ cur b' = cur b) X b.
Proof.
  intros Hwf Hsome. destruct (wf_cur_scope b Hwf Hsome) as (s & sc & Hc & Hsc). apply lookup_lt_Some in Hsc as Hs.
  unfold declareVariable. wp_steps. case_bool_decide; wp_steps.
  - eapply wp_functionScope; [done..|]. intros t tsc Ht _ Hch. wp_steps.
    eapply wp_mono; [by eapply wp_declare| |done]. cbv beta. intros r b1 Hr.
    destruct (negb _ || _); [destruct Hr as [-> ->]; by wp_steps|].
    destruct Hr as (Hwf1 & Hgr1 & (Hc1 & _ & _ & _ & _ & Hlen & _) & id & sc1 & sym & -> & Hsc1 & Hsym & _ & Hlast & _).
    rewrite Hc. cbn [deref]. wp_steps. case_bool_decide; wp_steps; [by rewrite Hc1|].
    apply wp_scopes_through; [done|by rewrite Hlen|by eexists; eapply chain_grows|]. intros thr Hthr. wp_steps.
    apply wp_symbol; [by eapply lookup_lt_Some|]. intros sym' Hsym'. assert (sym' = sym) as -> by congruence.
    rewrite Hlast. cbn [deref]. wp_steps.
    destruct (add_hoist_wf b1 (mkHoist id (new_decl b t FunctionScopedVariable VarLike node) thr)) as [Hwf2 Hgr2];
      [done|by eapply lookup_lt_Some|done|].
    split; [done|]. split; [by etrans|cbn; congruence].
  - rewrite Hc. eapply wp_mono; [by eapply wp_declare| |done]. cbv beta. intros r b1 Hr. wp_steps.
    destruct (negb _ || _); [by destruct Hr as [-> ->]|].
    destruct Hr as (Hwf1 & Hgr1 & (Hc1 & _) & _). by rewrite Hc1.
Qed.

Lemma wp_check_through name d thr b X :
  wf b → Forall (λ s, (s < length (scopes b))%nat) thr →
  wp (check_through name d thr) (λ _ b', wf b' ∧ grows b b' ∧ cur b' = cur b) X b.
Proof.
  intros Hwf. induction 1 as [|s thr Hs Hthr IH]; cbn [check_through]; wp_steps; [done|].
  apply wp_scope; [done|]. intros sc Hsc. destruct (Get _ _) as [id|] eqn:Hget; [|done]. wp_steps.
  apply wp_symbol; [by eapply Get_lt|]. intros sym Hsym. destruct (existsb _ _); [|done]. wp_steps.
  destruct (add_conflict_wf b (mkConflict id d Redeclaration)) as [Hwf2 Hgr2]; [done|done|by eapply Get_lt|done].
Qed.

Lemma grows_hoist_ok b b' h :
  grows b b' → (hsym h < length (symbols b))%nat ∧ Forall (λ s, (s < length (scopes b))%nat) (through h) →
  (hsym h < length (symbols b'))%nat ∧ Forall (λ s, (s < length (scopes b'))%nat) (through h).
Proof.
  intros Hg [Hid Hth]. split.
  - apply lookup_lt_is_Some in Hid as [sym Hsym]. destruct (gr_symbols _ _ Hg _ _ Hsym) as (? & Hs & _).
    by apply lookup_lt_Some in Hs.
  - eapply Forall_impl; [exact Hth|]. intros s Hs. pose proof (grows_scopes_length _ _ Hg). cbn in *. lia.
Qed.

Lemma wp_checkHoists b X :
  wf b → wp checkHoists (λ _ b', wf b' ∧ grows b b' ∧ cur b' = cur b) X b.
Proof.
  intros Hwf. unfold checkHoists. wp_steps.
  assert (∀ hs b1, wf b1 → grows b b1 → cur b1 = cur b →
    Forall (λ h, (hsym h < length (symbols b1))%nat ∧ Forall (λ s, (s < length (scopes b1))%nat) (through h)) hs →
    wp (check_hoists hs) (λ _ b', wf b' ∧ grows b b' ∧ cur b' = cur b) X b1) as Hall;
    [|apply Hall; [done..|by apply wf_hoists]].
  induction hs as [|h hs IH]; intros b1 Hwf1 Hg1 Hc1 Hhs; cbn [check_hoists]; wp_steps; [done|].
  apply Forall_cons in Hhs as [[Hid Hth] Hhs]. apply wp_symbol; [done|]. intros sym Hsym. wp_steps.
  eapply wp_mono; [by apply wp_check_through| |done]. cbv beta. intros _ b2 (Hwf2 & Hg2 & Hc2).
  apply IH; [done|by etrans|congruence|]. eapply Forall_impl; [exact Hhs|]. intros ? ?. by eapply grows_hoist_ok.
Qed.

Lemma wp_declareArguments s sc b X :
  wf b → scopes b !! s = Some sc → ScKind sc = FunctionScope →
  wp (declareArguments s) (λ _ b', wf b' ∧ grows b b' ∧ same_place b b') X b.
Proof.
  intros Hwf Hsc Hkind. apply lookup_lt_Some in Hsc as Hs. unfold declareArguments. wp_steps.
  apply wp_scope; [done|]. intros sc' Hsc'. assert (sc' = sc) as -> by congruence.
  destruct (declaring b) eqn:Hd; cbn [andb]; [|by wp_steps; unfold same_place].
  case_bool_decide as Hget; [|by wp_steps; unfold same_place]. wp_steps.
  unfold declare. wp_steps. rewrite Hd. cbn [negb orb]. rewrite bool_decide_false by done.
  cbn [deref]. wp_steps. apply wp_scope; [done|]. intros sc' Hsc''. assert (sc' = sc) as -> by congruence.
  cbv zeta. assert (table_name b sc "arguments" = "arguments"%string) as ->.
  { unfold table_name, is_scope. rewrite Hkind. by rewrite andb_false_r. }
  rewrite Hget. eapply wp_mono; [by eapply (wp_declare_fresh s _ _ NameOnly None)| |done]. cbv beta.
  intros r b1 [(Hwf1 & Hgr1 & Hsp & id & sc1 & sym & _ & Hsc1 & Hsym & _) ->]. unfold update_symbol. wp_steps.
  set (f := λ sym, mkSymbol (ID sym) (SName sym) (SFlags sym) [] (SScope sym) true).
  destruct (alter_new_symbol_wf b b1 (length (symbols b)) f) as [Hwf2 Hgr2]; [done..| |by split].
  intros sym0 _ [Hid _]. by split_and!.
Qed.

End preserve.

(** ** Declaring one name again and again *)

Definition request : Type := SymbolFlags * DeclKind * option Node.

Fixpoint declare_all (s : ScopeId) (name : string) (reqs : list request) : BindM unit :=
  match reqs with
  | [] => mret tt
  | (flags, kind, node) :: reqs =>
      declare (Some s) name flags kind node ≫= λ _, declare_all s name reqs
  end.

(** The declarations the requests make in state [b]. *)
Definition decls_of (b : binder) (s : ScopeId) (reqs : list request) : list Declaration :=
  map (λ '(flags, kind, node), new_decl b s flags kind node) reqs.

(** Scope [s] has the symbol [id] for [name], with the declarations [ds]. *)
Definition holds (b : binder) (s : ScopeId) (name : string) (id : SymId) (ds : list Declaration) : Prop :=
  ∃ sc sym, scopes b !! s = Some sc ∧ Get (Symbols sc) (table_name b sc name) = Some id ∧
    symbols b !! id = Some sym ∧ Implicit sym = false ∧ Declarations sym = ds.

(** The fields a declaration depends on. *)
Definition same_mode (b b' : binder) : Prop :=
  declaring b' = declaring b ∧ annexB b' = annexB b ∧ nsPrefix b' = nsPrefix b ∧ plain b' = plain b
  ∧ inBody b' = inBody b ∧ bodyScope b' = bodyScope b.

Lemma same_mode_decls b b' s reqs : same_mode b b' → decls_of b' s reqs = decls_of b s reqs.
Proof.
  intros (_ & _ & _ & Hp & Hi & Hb). unfold decls_of. apply map_ext. intros [[flags kind] node].
  unfold new_decl. by rewrite Hp, Hi, Hb.
Qed.

Lemma exec_declare_again b s name id ds flags kind node :
  declaring b = true → name ≠ ""%string → holds b s name id ds →
  let d := new_decl b s flags kind node in
  let c := firstClash ds d (annexB b) in
  ∃ b', declare (Some s) name flags kind node b = (Ok (Some id), b') ∧ same_mode b b'
    ∧ holds b' s name id (ds ++ [d])
    ∧ Conflicts b' = Conflicts b ++ (if bool_decide (c = NoClash) then [] else [mkConflict id d c]).
Proof.
  intros Hd Hn (sc & sym & Hsc & Hget & Hsym & Himp & <-) d c.
  set (b1 := set_Conflicts (Conflicts b ++ if bool_decide (c = NoClash) then [] else [mkConflict id d c]) b).
  eexists. split; [|].
  - unfold declare, mbind, BindM_bind, M_bind, get. rewrite Hd. cbn [negb orb]. rewrite bool_decide_false by done.
    cbn [deref mret BindM_ret M_ret]. unfold scope, index, mbind, BindM_bind, M_bind, get, M_ret, mret. rewrite Hsc. cbv zeta.
    rewrite Hget. unfold symbol, index, mbind, BindM_bind, M_bind, get, M_ret, mret. rewrite Hsym, Himp. cbn [negb].
    unfold declare_again, gets, mbind, BindM_bind, M_bind. fold d c.
    assert (report id d c b = (Ok tt, b1)) as ->.
    { unfold report, b1. case_bool_decide; [|done]. rewrite app_nil_r. by destruct b. }
    unfold update_symbol, modify. reflexivity.
  - split; [done|]. split; [|done].
    exists sc, (mkSymbol (ID sym) (SName sym) (Z.lor (SFlags sym) flags) (Declarations sym ++ [d])
                  (SScope sym) (Implicit sym)).
    split; [done|]. split; [done|]. split; [|done]. cbn. by rewrite list_lookup_alter_eq, Hsym.
Qed.

Lemma exec_declare_fresh b s sc name flags kind node :
  declaring b = true → name ≠ ""%string → scopes b !! s = Some sc →
  Get (Symbols sc) (table_name b sc name) = None →
  ∃ b' id, declare (Some s) name flags kind node b = (Ok (Some id), b') ∧ same_mode b b'
    ∧ holds b' s name id [new_decl b s flags kind node] ∧ Conflicts b' = Conflicts b.
Proof.
  intros Hd Hn Hsc Hget. eexists _, _. split; [|].
  - unfold declare, mbind, BindM_bind, M_bind, get. rewrite Hd. cbn [negb orb]. rewrite bool_decide_false by done.
    cbn [deref mret BindM_ret M_ret]. unfold scope, index, mbind, BindM_bind, M_bind, get, M_ret, mret. rewrite Hsc. cbv zeta.
    rewrite Hget. unfold declare_fresh, gets, modify, update_scope, mbind, BindM_bind, M_bind. reflexivity.
  - split; [done|]. split; [|done]. eexists _, _.
    split; [cbn; by rewrite list_lookup_alter_eq, Hsc|]. split; [unfold Get; cbn; by rewrite lookup_insert_eq|].
    split; [cbn; by rewrite list_lookup_middle|done].
Qed.

Lemma exec_declare_all b s name id ds reqs :
  declaring b = true → name ≠ ""%string → holds b s name id ds →
  ∃ b', declare_all s name reqs b = (Ok tt, b') ∧ holds b' s name id (ds ++ decls_of b s reqs)
    ∧ Conflicts b' = Conflicts b ++ map (λ '(d, c), mkConflict id d c) (reported (annexB b) ds (decls_of b s reqs)).
Proof.
  revert b ds. induction reqs as [|[[flags kind] node] reqs IH]; intros b ds Hd Hn Hh; cbn [declare_all].
  { exists b. cbn. by rewrite !app_nil_r. }
  destruct (exec_declare_again b s name id ds flags kind node Hd Hn Hh) as (b1 & Hrun & Hm & Hh1 & Hc1).
  pose proof Hm as (Hd1 & Ha1 & _).
  destruct (IH b1 _ ltac:(congruence) Hn Hh1) as (b' & Hrun' & Hh' & Hc').
  exists b'. unfold mbind, BindM_bind, M_bind. rewrite Hrun. split; [done|].
  rewrite (same_mode_decls b b1), Ha1 in * by done. cbn. rewrite <- app_assoc in Hh'. split; [done|].
  rewrite Hc', Hc1, map_app, <- app_assoc. do 2 f_equal. by case_bool_decide.
Qed.

Lemma declare_all_fresh b s sc name r reqs :
  declaring b = true → name ≠ ""%string → scopes b !! s = Some sc →
  Get (Symbols sc) (table_name b sc name) = None →
  ∃ b' id, declare_all s name (r :: reqs) b = (Ok tt, b') ∧ holds b' s name id (decls_of b s (r :: reqs))
    ∧ Conflicts b' = Conflicts b
        ++ map (λ '(d, c), mkConflict id d c) (reported (annexB b) [] (decls_of b s (r :: reqs))).
Proof.
  intros Hd Hn Hsc Hget. destruct r as [[flags kind] node]. cbn [declare_all].
  destruct (exec_declare_fresh b s sc name flags kind node Hd Hn Hsc Hget) as (b1 & id & Hrun & Hm & Hh1 & Hc1).
  pose proof Hm as (Hd1 & Ha1 & _).
  destruct (exec_declare_all b1 s name id _ reqs ltac:(congruence) Hn Hh1) as (b' & Hrun' & Hh' & Hc').
  exists b', id. unfold mbind, BindM_bind, M_bind. rewrite Hrun. split; [done|].
  rewrite (same_mode_decls b b1), Ha1, Hc1 in * by done. cbn. by rewrite bool_decide_true by done.
Qed.

(** ** Resolving a name *)

(** The symbol scope [s] itself offers for [name]: a value, and in a parameter's
    default not one that only the body declares. *)
Definition offers (b : binder) (name : string) (s : ScopeId) (sc : Scope) : option SymId :=
  match Get (Symbols sc) name with
  | None => None
  | Some id =>
      match symbols b !! id with
      | None => None
      | Some sym =>
          if negb (has (SFlags sym) Value) then None
          else if inParams b && bool_decide (Some s = paramScope b) && onlyBody sym
          then if bool_decide (name = "arguments"%string) then ParamArguments sc else None
          else Some id
      end
  end.

(** The nearest scope outwards that offers the name. *)
Inductive resolves (b : binder) (name : string) : option ScopeId → option SymId → Prop :=
  | resolves_none : resolves b name None None
  | resolves_here s sc id : scopes b !! s = Some sc → offers b name s sc = Some id → resolves b name (Some s) (Some id)
  | resolves_up s sc r : scopes b !! s = Some sc → offers b name s sc = None → resolves b name (Parent sc) r →
      resolves b name (Some s) r.

Lemma resolves_total b name p :
  wf b → (∀ s, p = Some s → (s < length (scopes b))%nat) → ∃ r, resolves b name p r.
Proof.
  intros Hwf Hp. destruct p as [s|]; [|eexists; constructor]. specialize (Hp s eq_refl).
  induction (lt_wf s) as [s _ IH]. apply lookup_lt_is_Some in Hp as [sc Hsc].
  destruct (offers b name s sc) as [id|] eqn:Ho; [eexists; by eapply resolves_here|].
  pose proof (sc_parent _ _ _ (wf_scopes _ Hwf _ _ Hsc)) as Hpar. apply lookup_lt_Some in Hsc as Hlt.
  destruct (Parent sc) as [s'|] eqn:Hs'.
  - destruct (IH s') as [r Hr]; [done|lia|]. exists r. eapply resolves_up; [done..|by rewrite Hs'].
  - exists None. eapply resolves_up; [done..|]. rewrite Hs'. constructor.
Qed.

Lemma resolveName_spec b name :
  wf b → ∃ r, resolveName name b = (Ok r, b) ∧ resolves b name (cur b) r.
Proof.
  intros Hwf. destruct (resolves_total b name (cur b) Hwf (wf_cur _ Hwf)) as [r Hr]. exists r. split; [|done].
  assert (wp (resolveName name) (λ r' b', r' = r ∧ b' = b) (λ _ _, False) b) as Hrun.
  2: { unfold wp in Hrun. destruct (resolveName name b) as [[| | |] b']; try done. by destruct Hrun as [-> ->]. }
  unfold resolveName. wp_steps.
  apply (wp_loop_var (λ p b', b' = b ∧ (∀ s, p = Some s → (s < length (scopes b))%nat) ∧ resolves b name p r)
           (λ p _, match p with Some s => S s | None => 0%nat end)).
  - intros p b' (-> & Hp & Hres). destruct p as [s|]; [|wp_steps; by inversion Hres].
    specialize (Hp s eq_refl). wp_steps. apply wp_scope; [done|]. intros sc Hsc.
    pose proof (sc_parent _ _ _ (wf_scopes _ Hwf _ _ Hsc)) as Hpar.
    assert (offers b name s sc = None → wp (mret (inl (Parent sc)) : BindM (option ScopeId + option SymId))
      (λ r' b', match r' with
        | inl p => (b' = b ∧ (∀ s, p = Some s → (s < length (scopes b))%nat) ∧ resolves b name p r)
                   ∧ (match p with Some s => S s | None => 0 end < S s)%nat
        | inr r' => r' = r ∧ b' = b end) (λ _ _, False) b) as Hup.
    { intros Hnone. wp_steps. inversion Hres as [|? sc' ? Hsc' Ho|? sc' ? Hsc' _ Hres']; subst; simplify_eq.
      split; [split_and!; [done| |done]|]; destruct (Parent sc); try done; try lia.
      intros ? [= <-]. lia. }
    assert (∀ id, offers b name s sc = Some id → Some id = r) as Hhere.
    { intros id Ho. inversion Hres as [|? sc' id' Hsc' Ho'|? sc' ? Hsc' Ho' _]; subst; simplify_eq; congruence. }
    unfold offers in Hup, Hhere. destruct (Get (Symbols sc) name) as [id|] eqn:Hget; [|by apply Hup].
    wp_steps. apply wp_symbol; [by eapply Get_lt|]. intros sym Hsym. rewrite Hsym in Hup, Hhere.
    destruct (negb (has (SFlags sym) Value)); [by apply Hup|].
    destruct (inParams b && _ && _); [|wp_steps; split; [by apply Hhere|done]].
    destruct (ParamArguments sc) as [a|].
    + case_bool_decide; [wp_steps; split; [by apply Hhere|done]|by apply Hup].
    + apply Hup. by case_bool_decide.
  - split; [done|]. split; [apply wf_cur, Hwf|done].
  - destruct (cur b) as [s|] eqn:Hc; [|lia]. pose proof (wf_cur _ Hwf s Hc). lia.
Qed.

(** A value declared in the current scope is what its name then resolves to. *)
Lemma declare_resolves b s sc name flags kind node :
  wf b → cur b = Some s → scopes b !! s = Some sc → declaring b = true → name ≠ ""%string →
  table_name b sc name = name → has flags Value = true → inParams b = false →
  ∃ id b', declare (Some s) name flags kind node b = (Ok (Some id), b') ∧ resolveName name b' = (Ok (Some id), b').
Proof.
  intros Hwf Hc Hsc Hd Hn Htn Hv Hip.
  pose proof (wp_declare s sc name flags kind node b (λ _ _, False) Hwf Hsc) as Hrun.
  rewrite Hd, Htn in Hrun. cbn [negb orb] in Hrun. rewrite bool_decide_false in Hrun by done. unfold wp in Hrun.
  destruct (declare (Some s) name flags kind node b) as [[r| | |] b']; try done.
  destruct Hrun as (Hwf' & _ & (Hcur & _ & _ & _ & _ & _ & _ & Hip') & id & sc' & sym & -> & Hsc' & Hsym & Hget & _ & Hval).
  exists id, b'. split; [done|]. destruct (resolveName_spec b' name Hwf') as (r & Hr & Hres). rewrite Hr.
  rewrite Hcur, Hc in Hres.
  assert (offers b' name s sc' = Some id) as Ho.
  { unfold offers. rewrite Hget, Hsym, (Hval Hv), Hip', Hip. done. }
  inversion Hres as [|? sc1 id' Hsc1 Ho'|? sc1 ? Hsc1 Ho' _]; subst; simplify_eq; congruence.
Qed.

(** ** The binder as a state machine *)

Inductive op :=
  | Enter (key : nat) (node : option Node) (tag : nat) (kind : ScopeKind)
  | Leave
  | AddName (name : string) (flags : SymbolFlags) (kind : DeclKind) (node : option Node)
  | AddVariable (kind name : string) (node : option Node)
  | DeclareArguments
  | MarkInline
  | CheckHoists
  | Resolve (name : string).

Definition run_op (o : op) : BindM unit :=
  match o with
  | Enter key node tag kind => enter key node tag kind ≫= λ _, mret tt
  | Leave => leave
  | AddName name flags kind node => c ← gets cur; declare c name flags kind node ≫= λ _, mret tt
  | AddVariable kind name node => declareVariable kind name node
  | DeclareArguments => c ← gets cur; s ← deref c; declareArguments s
  | MarkInline => c ← gets cur; s ← deref c; markInline s
  | CheckHoists => checkHoists
  | Resolve name => resolveName name ≫= λ _, mret tt
  end.

(** When the traversal performs it: it declares inside a scope, arguments in a
    function's, and enters an outermost scope for a module only. *)
Definition allowed (o : op) (b : binder) : Prop :=
  match o with
  | Enter _ _ _ kind => cur b = None → kind = ModuleScope
  | Leave | AddName _ _ _ _ | AddVariable _ _ _ => is_Some (cur b)
  | DeclareArguments | MarkInline => ∃ s sc, cur b = Some s ∧ scopes b !! s = Some sc ∧ ScKind sc = FunctionScope
  | CheckHoists | Resolve _ => True
  end.

(** What the traversal sets directly. *)
Definition set_mode (declaring plain inBody inParams : bool) (bodyScope paramScope : option ScopeId)
    (nsPrefix : string) (b : binder) : binder :=
  mkBinder (scopes b) (symbols b) (scopeOf b) (opened b) (cur b) declaring (annexB b) plain inBody
    inParams bodyScope paramScope nsPrefix (Conflicts b) (hoists b).

Definition start (annexB : bool) : binder :=
  mkBinder [] [] ∅ ∅ None true annexB false false false None None "" [] [].

Inductive reachable (annexB : bool) : binder → Prop :=
  | reach_start : reachable annexB (start annexB)
  | reach_op o b b' : reachable annexB b → allowed o b → run_op o b = (Ok tt, b') → reachable annexB b'
  | reach_mode d p i ip bs ps ns b : reachable annexB b → reachable annexB (set_mode d p i ip bs ps ns b)
  | reach_cur s b : reachable annexB b → (∀ x, s = Some x → (x < length (scopes b))%nat) →
      reachable annexB (set_cur s b).

Lemma run_op_wf o b : wf b → allowed o b → wp (run_op o) (λ _ b', wf b' ∧ grows b b') (λ _ _, False) b.
Proof.
  intros Hwf Ha. destruct o; cbn [run_op allowed] in *.
  - wp_steps. eapply wp_mono; [by apply wp_enter| |done]. cbv beta. intros s b' (? & ? & _). by wp_steps.
  - destruct (wf_cur_scope b Hwf Ha) as (s & sc & Hc & Hsc).
    eapply wp_mono; [by eapply wp_leave| |done]. cbv beta. by intros _ b' (? & ? & _).
  - destruct (wf_cur_scope b Hwf Ha) as (s & sc & Hc & Hsc). wp_steps. rewrite Hc.
    eapply wp_mono; [by eapply wp_declare| |done]. cbv beta. intros r b' Hr. wp_steps.
    destruct (negb _ || _); [by destruct Hr as [_ ->]|]. by destruct Hr as (? & ? & _).
  - eapply wp_mono; [by apply wp_declareVariable| |done]. cbv beta. by intros _ b' (? & ? & _).
  - destruct Ha as (s & sc & Hc & Hsc & Hk). wp_steps. rewrite Hc. cbn [deref]. wp_steps.
    eapply wp_mono; [by eapply wp_declareArguments| |done]. cbv beta. by intros _ b' (? & ? & _).
  - destruct Ha as (s & sc & Hc & Hsc & Hk). wp_steps. rewrite Hc. cbn [deref]. wp_steps.
    unfold markInline, update_scope. wp_steps. apply alter_scope_wf; [done|].
    intros sc' Hsc' [Hp Ht Hi _]. split; [|done]. assert (sc' = sc) as -> by congruence. by constructor.
  - eapply wp_mono; [by apply wp_checkHoists| |done]. cbv beta. by intros _ b' (? & ? & _).
  - destruct (resolveName_spec b name Hwf) as (r & Hr & _). wp_steps. unfold wp. rewrite Hr. by wp_steps.
  Unshelve. all: exact (λ _ _, False).
Qed.

Lemma start_wf annexB : wf (start annexB).
Proof. by constructor; cbn. Qed.

Lemma reachable_wf annexB b : reachable annexB b → wf b.
Proof.
  induction 1 as [|o b b' _ IH Ha Hrun|d p i ip bs ps ns b _ IH|s b _ IH Hs].
  - apply start_wf.
  - pose proof (run_op_wf o b IH Ha) as H. unfold wp in H. rewrite Hrun in H. apply H.
  - destruct IH. by constructor.
  - destruct IH. by constructor.
Qed.
