(* ===== verification/SymbolProps.v ===== *)
(** * Properties of symbols, scopes and declarations *)

From S2P Require Import Prelude GoString Diag Ast Symbols SymbolFacts.
Open Scope Z_scope.

(** C32: whatever the traversal of a program does with the binder, entering and
    leaving scopes, declaring names, variables and [arguments], checking the
    hoisted variables, resolving names, in any order it allows itself, the
    operation neither follows a nil pointer nor loops; it keeps the invariant
    (every table lists its names once and in order, every entry of it is a
    symbol of that name and scope whose flags are those of its declarations,
    scopes form a tree rooted in modules) and only adds to what was there. *)
Theorem binder_total annexB b o :
  reachable annexB b → allowed o b →
  ∃ b', run_op o b = (Ok tt, b') ∧ reachable annexB b' ∧ wf b' ∧ grows b b'.
Proof.
  intros Hr Ha. pose proof (run_op_wf o b (reachable_wf _ _ Hr) Ha) as H. unfold wp in H.
  destruct (run_op o b) as [[[]| | |] b'] eqn:Hrun; try done. destruct H as [Hwf Hg].
  exists b'. split; [done|]. split; [|done]. by eapply reach_op.
Qed.

(** Whether and how two declarations of one name clash does not depend on
    which comes first. *)
Theorem clashes_symmetric a b annexB :
  decl_ok a → decl_ok b → clashes a b annexB = clashes b a annexB.
Proof. apply clashes_comm. Qed.

(** C30: declaring one name several times in a scope that did not have it
    reports a conflict exactly when two of the declarations clash; whether one
    is reported does not depend on the order of the declarations. *)
Theorem declare_conflicts b s sc name reqs reqs' :
  declaring b = true → name ≠ ""%string → scopes b !! s = Some sc →
  Get (Symbols sc) (table_name b sc name) = None →
  Forall decl_ok (decls_of b s reqs) → reqs ≡ₚ reqs' →
  ∃ b1 b2, declare_all s name reqs b = (Ok tt, b1) ∧ declare_all s name reqs' b = (Ok tt, b2)
    ∧ (Conflicts b1 = Conflicts b ↔ compatible (annexB b) (decls_of b s reqs))
    ∧ (Conflicts b2 = Conflicts b ↔ Conflicts b1 = Conflicts b).
Proof.
  intros Hd Hn Hsc Hget Hok Hp.
  assert (∀ rs, ∃ b1, declare_all s name rs b = (Ok tt, b1)
    ∧ (Conflicts b1 = Conflicts b ↔ compatible (annexB b) (decls_of b s rs))) as Hall.
  { intros rs. destruct rs as [|r rs]; [by exists b|].
    destruct (declare_all_fresh b s sc name r rs Hd Hn Hsc Hget) as (b1 & id & Hrun & _ & Hc).
    exists b1. split; [done|].
    assert (compatible (annexB b) []) as Hnil by done.
    rewrite Hc. etrans; [|exact (reported_nil _ [] (decls_of b s (r :: rs)) Hnil)]. split.
    - intros H%(f_equal length). rewrite length_app, length_map in H. apply length_zero_iff_nil. lia.
    - intros ->. by rewrite app_nil_r. }
  destruct (Hall reqs) as (b1 & Hr1 & Hc1), (Hall reqs') as (b2 & Hr2 & Hc2).
  exists b1, b2. do 3 (split; [done|]). rewrite Hc1, Hc2.
  assert (decls_of b s reqs ≡ₚ decls_of b s reqs') as Hp' by (by apply Permutation_map).
  split; apply compatible_perm; [|by symmetry|done|done]. by rewrite <- Hp'.
Qed.

(** C31: [resolveName] answers the symbol of the nearest scope outwards that
    offers the name as a value, and nil when none does; in a parameter's
    default the function's own scope does not offer what only its body
    declares. *)
Theorem resolve_nearest annexB b name :
  reachable annexB b → ∃ r, resolveName name b = (Ok r, b) ∧ resolves b name (cur b) r.
Proof. intros Hr. apply resolveName_spec. by eapply reachable_wf. Qed.

(** After a value is declared in the current scope its name resolves to the
    symbol the declaration returned, also when an outer scope has the name. *)
Theorem declare_then_resolve annexB b s sc name flags kind node :
  reachable annexB b → cur b = Some s → scopes b !! s = Some sc → declaring b = true → name ≠ ""%string →
  table_name b sc name = name → has flags Value = true → inParams b = false →
  ∃ id b', declare (Some s) name flags kind node b = (Ok (Some id), b')
    ∧ resolveName name b' = (Ok (Some id), b').
Proof. intros Hr. apply declare_resolves. by eapply reachable_wf. Qed.

(** ** Instances: a module with one name *)

Definition module_state : binder := (run_op (Enter 0 None 0 ModuleScope) (start false)).2.
Definition module_scope : Scope := mkScope ModuleScope None None emptyTable false None.

Lemma module_reachable : reachable false module_state.
Proof. apply (reach_op false (Enter 0 None 0 ModuleScope) (start false)); [apply reach_start|done|done]. Qed.

Lemma binder_total_witness :
  ∃ b', run_op (AddName "x" BlockScopedVariable Lexical None) module_state = (Ok tt, b') ∧ wf b'.
Proof.
  destruct (binder_total false module_state (AddName "x" BlockScopedVariable Lexical None)
    module_reachable ltac:(by eexists)) as (b' & Hrun & _ & Hwf & _).
  exists b'. split; [exact Hrun|exact Hwf].
Defined.

Definition let_decl : Declaration := mkDeclaration None (mkPos 1 1) BlockScopedVariable Lexical false false.
Definition namespace_decl : Declaration := mkDeclaration None (mkPos 2 1) NamespaceModule NamespaceDecl false false.

Lemma clashes_symmetric_witness :
  clashes let_decl namespace_decl false = Redeclaration ∧
  clashes let_decl namespace_decl false = clashes namespace_decl let_decl false.
Proof. split; [reflexivity|]. apply (clashes_symmetric let_decl namespace_decl false); done. Defined.

Definition let_var : list request :=
  [(BlockScopedVariable, Lexical, None); (FunctionScopedVariable, VarLike, None)].
Definition var_let : list request :=
  [(FunctionScopedVariable, VarLike, None); (BlockScopedVariable, Lexical, None)].

Lemma declare_conflicts_witness :
  ∃ b1 b2, declare_all 0 "x" let_var module_state = (Ok tt, b1)
    ∧ declare_all 0 "x" var_let module_state = (Ok tt, b2)
    ∧ (Conflicts b1 = [] ↔ compatible false (decls_of module_state 0 let_var))
    ∧ (Conflicts b2 = [] ↔ Conflicts b1 = []).
Proof.
  apply (declare_conflicts module_state 0 module_scope "x" let_var var_let); try reflexivity.
  - discriminate.
  - repeat constructor; discriminate.
  - apply perm_swap.
Defined.

Lemma resolve_nearest_witness :
  ∃ r, resolveName "x" module_state = (Ok r, module_state) ∧ r = None.
Proof.
  destruct (resolve_nearest false module_state "x" module_reachable) as (r & Hr & _).
  exists r. split; [exact Hr|]. vm_compute in Hr. by injection Hr.
Defined.

Lemma declare_then_resolve_witness :
  ∃ id b', declare (Some 0%nat) "x" BlockScopedVariable Lexical None module_state = (Ok (Some id), b')
    ∧ resolveName "x" b' = (Ok (Some id), b').
Proof.
  apply (declare_then_resolve false module_state 0 module_scope); try reflexivity; [exact module_reachable|discriminate].
Defined.
