(* ===== verification/Flow.v ===== *)
(** * The control-flow graph (src/binder/flow.go)

    A flow node is a Go object shared by pointer: the nodes live in the list
    [nodes] and a pointer is an index, [None] for nil.  Node 0 is
    [unreachableFlow].  The builder's operations run in the state [builder];
    the queries walk the finished graph of a [Binding]. *)

From S2P Require Import Prelude GoString Diag Ast Symbols.
Open Scope Z_scope.

Abbreviation FlowId := nat (only parsing).

(** ** Flow nodes: the kinds are a 16-bit mask *)

Definition FlowStart : Z := 2 ^ 0.
Definition FlowScopeStart : Z := 2 ^ 1.
Definition FlowBranchLabel : Z := 2 ^ 2.
Definition FlowLoopLabel : Z := 2 ^ 3.
Definition FlowAssignment : Z := 2 ^ 4.
Definition FlowUnreachable : Z := 2 ^ 5.
Definition FlowTrueCondition : Z := 2 ^ 6.
Definition FlowFalseCondition : Z := 2 ^ 7.
Definition FlowSwitchClause : Z := 2 ^ 8.
Definition FlowCall : Z := 2 ^ 9.
Definition FlowPropertyAssignment : Z := 2 ^ 10.

Record FlowNode := mkFlowNode {
  FFlags : Z;
  Antecedent : option FlowId;
  Antecedents : list FlowId;
  FScope : option ScopeId;
  FSymbol : option SymId;
  FNode : option Node;
  Clause : Z;
  FInit : bool;
  FAssign : bool;
  Outer : option FlowId }.

(** A node with the given flags and predecessor, its other fields zero. *)
Definition plain_node (flags : Z) (ante : option FlowId) : FlowNode :=
  mkFlowNode flags ante [] None None None 0 false false None.

Definition unreachableFlow : FlowId := 0%nat.
Definition unreachable_node : FlowNode := plain_node FlowUnreachable None.

(** ** The builder *)

(** A statement being visited, and the symbols assigned in it whose position
    it extends. *)
Record stmtFrame := mkStmtFrame { fstart : Z; assigned : list SymId }.

Record builder := mkBuilder {
  bnd : binder;
  nodes : list FlowNode;
  flow : FlowId;
  container : option ScopeId;
  fnScope : option ScopeId;
  exceptionTargets : list FlowId;
  storing : option Node;
  ord : Z;
  stmts : list stmtFrame; (* the outermost first *)
  stores : gmap SymId (list (option Node));
  foreignStores : gset SymId;
  declOrd : gmap SymId Z;
  lastAssign : gmap SymId Z }.

Definition set_nodes (ns : list FlowNode) (b : builder) : builder :=
  mkBuilder (bnd b) ns (flow b) (container b) (fnScope b) (exceptionTargets b) (storing b) (ord b)
    (stmts b) (stores b) (foreignStores b) (declOrd b) (lastAssign b).
Definition set_flow (f : FlowId) (b : builder) : builder :=
  mkBuilder (bnd b) (nodes b) f (container b) (fnScope b) (exceptionTargets b) (storing b) (ord b)
    (stmts b) (stores b) (foreignStores b) (declOrd b) (lastAssign b).
Definition set_ord (o : Z) (ss : list stmtFrame) (la : gmap SymId Z) (b : builder) : builder :=
  mkBuilder (bnd b) (nodes b) (flow b) (container b) (fnScope b) (exceptionTargets b) (storing b) o
    ss (stores b) (foreignStores b) (declOrd b) la.
Definition set_stores (st : gmap SymId (list (option Node))) (fs : gset SymId) (b : builder) : builder :=
  mkBuilder (bnd b) (nodes b) (flow b) (container b) (fnScope b) (exceptionTargets b) (storing b) (ord b)
    (stmts b) st fs (declOrd b) (lastAssign b).
Definition set_declOrd (d : gmap SymId Z) (b : builder) : builder :=
  mkBuilder (bnd b) (nodes b) (flow b) (container b) (fnScope b) (exceptionTargets b) (storing b) (ord b)
    (stmts b) (stores b) (foreignStores b) d (lastAssign b).

Definition set_bnd (bd : binder) (b : builder) : builder :=
  mkBuilder bd (nodes b) (flow b) (container b) (fnScope b) (exceptionTargets b) (storing b) (ord b)
    (stmts b) (stores b) (foreignStores b) (declOrd b) (lastAssign b).

(** What the traversal sets directly: the current path, the function it is in,
    the open try statements and the store it visits. *)
Definition set_walk (f : FlowId) (c fs : option ScopeId) (ts : list FlowId) (st : option Node) (b : builder) : builder :=
  mkBuilder (bnd b) (nodes b) f c fs ts st (ord b) (stmts b) (stores b) (foreignStores b) (declOrd b) (lastAssign b).

Definition FlowM : Type → Type := M builder Empty_set.
#[export] Instance FlowM_ret : MRet FlowM := M_ret.
#[export] Instance FlowM_bind : MBind FlowM := M_bind.

(** A query of the scopes and symbols, which this pass does not change. *)
Definition ask {A} (q : BindM A) : FlowM A := λ b, ((q (bnd b)).1, b).

(** An operation on the scopes and symbols. *)
Definition lift {A} (m : BindM A) : FlowM A := λ b, let (r, bd) := m (bnd b) in (r, set_bnd bd b).

Definition flowing (b : builder) : bool := negb (declaring (bnd b)).

(** [&FlowNode{...}]. *)
Definition alloc (n : FlowNode) : FlowM FlowId := λ b,
  (Ok (length (nodes b)), set_nodes (nodes b ++ [n]) b).

(** [addAntecedent]; nil is [None]. *)
Definition add_to (f : FlowId) (l : FlowNode) : FlowNode :=
  if bool_decide (f ∈ Antecedents l) then l
  else mkFlowNode (FFlags l) (Antecedent l) (Antecedents l ++ [f]) (FScope l) (FSymbol l) (FNode l)
         (Clause l) (FInit l) (FAssign l) (Outer l).
Definition addAntecedent (label : FlowId) (f : option FlowId) : FlowM unit :=
  match f with
  | None => mret tt
  | Some f =>
      if (f =? unreachableFlow)%nat then mret tt
      else modify (λ b, set_nodes (alter (add_to f) label (nodes b)) b)
  end.

Fixpoint addAntecedents (label : FlowId) (fs : list FlowId) : FlowM unit :=
  match fs with
  | [] => mret tt
  | f :: fs => addAntecedent label (Some f) ≫= λ _, addAntecedents label fs
  end.

(** [newLabel]. *)
Definition newLabel (flags : Z) (fs : list FlowId) : FlowM FlowId :=
  l ← alloc (plain_node flags None);
  addAntecedents l fs ≫= λ _,
  mret l.

Definition flow_node (f : FlowId) : FlowM FlowNode := b ← get; index (nodes b) f.

(** [finish]. *)
Definition finish (label : FlowId) : FlowM FlowId :=
  n ← flow_node label;
  mret (if (length (Antecedents n) =? 0)%nat then unreachableFlow else label).

(** [join]. *)
Definition join (fs : list FlowId) : FlowM FlowId := l ← newLabel FlowBranchLabel fs; finish l.

(** [maxOrd], the largest int. *)
Definition maxOrd : Z := 2 ^ 63 - 1.

(** The value a Go map of integers has for a key. *)
Definition at_key (m : gmap SymId Z) (s : SymId) : Z := match m !! s with Some o => o | None => 0 end.

(** The loop of [markAssignment]: the outermost statement that begins after
    the declaration takes the symbol; [None] when there is none. *)
Fixpoint extend_first (decl : Z) (sym : SymId) (ss : list stmtFrame) : option (list stmtFrame) :=
  match ss with
  | [] => None
  | s :: ss =>
      if decl <? fstart s then Some (mkStmtFrame (fstart s) (assigned s ++ [sym]) :: ss)
      else cons s <$> extend_first decl sym ss
  end.

(** [markAssignment]. *)
Definition markAssignment (sym : SymId) : FlowM unit :=
  b ← get;
  s ← ask (symbol sym);
  sc ← ask (deref (SScope s));
  home ← ask (functionOf sc);
  if negb (bool_decide (fnScope b = Some home)) then
    modify (λ b, set_ord (ord b) (stmts b) (<[sym := maxOrd]> (lastAssign b)) b)
  else
    match extend_first (at_key (declOrd b) sym) sym (stmts b) with
    | Some ss => modify (λ b, set_ord (ord b) ss (lastAssign b) b)
    | None =>
        if at_key (lastAssign b) sym <? ord b
        then modify (λ b, set_ord (ord b) (stmts b) (<[sym := ord b]> (lastAssign b)) b)
        else mret tt
    end.

(** The first statement of [assignFlow]: a store by another function. *)
Definition note_foreign (sym : option SymId) : FlowM unit :=
  match sym with
  | None => mret tt
  | Some id =>
      b ← get;
      s ← ask (symbol id);
      match SScope s, container b with
      | Some sc, Some c =>
          home ← ask (containerOf sc);
          if bool_decide (c = home) then mret tt
          else modify (λ b, set_stores (stores b) ({[id]} ∪ foreignStores b) b)
      | _, _ => mret tt
      end
  end.

Fixpoint add_to_targets (ts : list FlowId) (f : FlowId) : FlowM unit :=
  match ts with
  | [] => mret tt
  | t :: ts => addAntecedent t (Some f) ≫= λ _, add_to_targets ts f
  end.

(** [assignFlow]. *)
Definition assignFlow (sym : option SymId) (init assign : bool) : FlowM unit :=
  note_foreign sym ≫= λ _,
  b ← get;
  match sym with
  | None => mret tt
  | Some id =>
      if negb (flowing b) then mret tt
      else
        modify (λ b, set_stores (<[id := (match stores b !! id with Some l => l | None => [] end) ++ [storing b]]> (stores b))
                       (foreignStores b) b) ≫= λ _,
        (if init then modify (λ b, set_declOrd (<[id := ord b]> (declOrd b)) b)
         else if assign then markAssignment id else mret tt) ≫= λ _,
        b ← get;
        if (flow b =? unreachableFlow)%nat then mret tt
        else
          f ← alloc (mkFlowNode FlowAssignment (Some (flow b)) [] None (Some id) (storing b) 0 init assign None);
          modify (set_flow f) ≫= λ _,
          add_to_targets (exceptionTargets b) f
  end.

(** [switchClause]. *)
Definition switchClause (f : FlowId) (sw : Node) (clause : Z) : FlowM FlowId :=
  b ← get;
  if negb (flowing b) || (f =? unreachableFlow)%nat then mret f
  else alloc (mkFlowNode FlowSwitchClause (Some f) [] None None (Some sw) clause false false None).

(** [condition]; a nil condition is [None]. *)
Definition condition (f : FlowId) (cond : option Node) (truthy : bool) : FlowM FlowId :=
  b ← get;
  match cond with
  | None => mret f
  | Some _ =>
      if negb (flowing b) || (f =? unreachableFlow)%nat then mret f
      else alloc (mkFlowNode (if truthy then FlowTrueCondition else FlowFalseCondition) (Some f) []
                    None None cond 0 false false None)
  end.

(** [scopeStartFlow]. *)
Definition scopeStartFlow (s : ScopeId) : FlowM unit :=
  b ← get;
  if negb (flowing b) || (flow b =? unreachableFlow)%nat then mret tt
  else
    f ← alloc (mkFlowNode FlowScopeStart (Some (flow b)) [] (Some s) None None 0 false false None);
    modify (set_flow f).

(** [unreachable]. *)
Definition unreachable : FlowM unit :=
  b ← get; if flowing b then modify (set_flow unreachableFlow) else mret tt.

(** The visiting of one node in the resolving pass ([visit]): its position and,
    for the statements that extend assignments, its frame. *)
Definition enterStmt (extends : bool) : FlowM unit :=
  modify (λ b, set_ord (ord b + 1)
                 (if extends then stmts b ++ [mkStmtFrame (ord b + 1) []] else stmts b) (lastAssign b) b).

Definition extend_last (o : Z) (la : gmap SymId Z) (sym : SymId) : gmap SymId Z :=
  if at_key la sym <? o then <[sym := o]> la else la.
Definition leaveStmt : FlowM unit :=
  b ← get;
  top ← match last (stmts b) with Some t => mret t | None => panic end;
  modify (λ b, set_ord (ord b) (take (length (stmts b) - 1) (stmts b))
                 (foldl (extend_last (ord b)) (lastAssign b) (assigned top)) b).

(** [thisScope]: the scope whose [this] is meant in [s]. *)
Definition thisScope (s : option ScopeId) : BindM (option ScopeId) :=
  b ← get;
  loop (S (S (length (scopes b))))
    (λ so, match so with
           | None => mret (inr None)
           | Some s =>
               sc ← scope s;
               if is_scope ModuleScope sc then mret (inr (Some s))
               else
                 let arrow := match ScNode sc with
                              | Some f => match nkind f with ArrowFunction _ => true | _ => false end
                              | None => false
                              end in
                 if is_scope FunctionScope sc && negb arrow then mret (inr (Some s))
                 else mret (inl (Parent sc))
           end)
    s.

(** ** Walking the graph backwards *)

(** What a path does at a node: it ends with the fact, or at the start of the
    symbol's scope, or for another reason; or goes on to the one predecessor
    (nil is [None]), or to each of several. *)
Inductive verdict :=
  | Hit
  | Miss
  | End_
  | Go (f : option FlowId)
  | Fork (fs : list FlowId).

Section walk.
Context {A : Type} (g : list FlowNode) (judge : FlowNode → verdict) (hit : A → FlowNode → A)
  (enough : bool → bool → bool).

(** The loops of [walkBack] and [GuardedSinceStore]: [f] is the inner loop's
    node, [stack] the outer loop's (its top first).  [enough] ends the walk
    when a node would be popped; [hit] is the side effect of the fact. *)
Fixpoint walk (n : nat) (f : option FlowId) (stack : list FlowId) (seen : gset FlowId)
    (found missed : bool) (a : A) : option (bool * bool * A) :=
  match n with
  | O => None
  | S n =>
      match f with
      | Some f =>
          match g !! f with
          | None => None
          | Some node =>
              if has (FFlags node) FlowUnreachable || bool_decide (f ∈ seen)
              then walk n None stack seen found missed a
              else
                let seen := {[f]} ∪ seen in
                match judge node with
                | Hit => walk n None stack seen true missed (hit a node)
                | Miss => walk n None stack seen found true a
                | End_ => walk n None stack seen found missed a
                | Go f' => walk n f' stack seen found missed a
                | Fork fs => walk n None (rev fs ++ stack) seen found missed a
                end
          end
      | None =>
          match stack with
          | [] => Some (found, missed, a)
          | f :: stack =>
              if enough found missed then Some (found, missed, a)
              else walk n (Some f) stack seen found missed a
          end
      end
  end.

(** Enough rounds: one for each node and two for each predecessor. *)
Definition walk_fuel : nat := (3 + sum_list (map (λ n, 1 + 2 * length (Antecedents n)) g))%nat.
Definition walk_from (f : FlowId) (a : A) : option (bool * bool * A) :=
  walk walk_fuel None [f] ∅ false false a.
End walk.

(** The switch of [walkBack]. *)
Definition judge_back (home : ScopeId) (sym : SymId) (scope : ScopeId) (fact : FlowNode → bool)
    (f : FlowNode) : verdict :=
  if has (FFlags f) FlowAssignment then
    if bool_decide (FSymbol f = Some sym) && fact f then Hit else Go (Antecedent f)
  else if has (FFlags f) FlowScopeStart then
    if bool_decide (FScope f = Some scope) then Miss else Go (Antecedent f)
  else if has (FFlags f) (foldr Z.lor 0 [FlowTrueCondition; FlowFalseCondition; FlowSwitchClause; FlowCall;
                                         FlowPropertyAssignment]) then Go (Antecedent f)
  else if has (FFlags f) FlowStart then
    if bool_decide (FScope f = Some home) then Miss else End_
  else Fork (Antecedents f).

(** [walkBack]; [hit] is the side effect of a fact that holds. *)
Definition walkBack {A} (g : list FlowNode) (home : ScopeId) (sym : SymId) (scope : ScopeId)
    (fact : FlowNode → bool) (hit : A → FlowNode → A) (f : FlowId) (a : A) : option (bool * bool * A) :=
  walk_from g (judge_back home sym scope fact) hit andb f a.

(** ** The binding *)

(** The result tables the queries read, keyed by the identity of an identifier. *)
Record Binding := mkBinding {
  scopesym : binder;
  graph : list FlowNode;
  refs : gmap nat SymId;
  refFlow : gmap nat FlowId;
  refContainer : gmap nat ScopeId;
  refScope : gmap nat ScopeId;
  refOrd : gmap nat Z;
  written : gset nat;
  asserted_ : gset nat;
  undefinedRefs : gmap nat SymId;
  foreign : gset SymId;
  storesTo : gmap SymId (list (option Node));
  last_assign : gmap SymId Z;
  exported : gset nat;
  fnScopes : gmap nat ScopeId;
  Module_ : ScopeId;
  Script : bool;
  accesses : list Node }.

(** A query: a nil pointer, or a walk out of fuel, is [None]. *)
Definition run_bind {A} (b : Binding) (q : BindM A) : option A :=
  match (q (scopesym b)).1 with Ok a => Some a | _ => None end.

(** [ExemptFromAssignment]. *)
Definition ExemptFromAssignment (ta : option TypeAnnotation) : bool :=
  match ta with
  | None => false
  | Some ta => bool_decide (TAName ta = "any") || bool_decide (TAName ta = "unknown") || Nullable ta
  end.

(** [tdzKind]. *)
Definition tdzKind (sym : Symbol) : bool :=
  existsb (λ d, is_kind Lexical d && has (Symbols.Flags d) (foldr Z.lor 0 [BlockScopedVariable; Class_; Enum]))
    (Declarations sym).

(** [trackedForAssignment]. *)
Definition trackedForAssignment (sym : Symbol) : bool :=
  match Declarations sym with
  | [d] =>
      match DNode d with
      | Some n =>
          match nkind n with
          | VarDeclaration _ _ ta init ambient definite =>
              negb ambient && negb definite && bool_decide (init = None) && bool_decide (is_Some ta)
              && negb (ExemptFromAssignment ta)
          | _ => false
          end
      | None => false
      end
  | _ => false
  end.

(** [alwaysTrue]. *)
Definition alwaysTrue (test : option Node) : bool :=
  match test with
  | None => true
  | Some n => match nkind n with BooleanLiteral v => v | _ => false end
  end.

(** A reference the flow queries look at: its symbol, flow node and the
    symbol's home, when the reference is in the function that declares it. *)
Record local_ref := mkLocalRef { lr_sym : SymId; lr_symbol : Symbol; lr_scope : ScopeId; lr_home : ScopeId; lr_flow : FlowId }.

(** The guard [sym == nil || f == nil || b.refContainer[id] != containerOf(sym.Scope)]:
    [Some None] when it holds. *)
Definition local (b : Binding) (id : nat) : option (option local_ref) :=
  match refs b !! id, refFlow b !! id with
  | Some s, Some f =>
      sym ← run_bind b (symbol s);
      sc ← SScope sym;
      home ← run_bind b (containerOf sc);
      if bool_decide (refContainer b !! id = Some home)
      then Some (Some (mkLocalRef s sym sc home f)) else Some None
  | _, _ => Some None
  end.

Definition back {A} (b : Binding) (r : local_ref) (fact : FlowNode → bool) (hit : A → FlowNode → A) (a : A) :=
  walkBack (graph b) (lr_home r) (lr_sym r) (lr_scope r) fact hit (lr_flow r) a.
Definition back_plain (b : Binding) (r : local_ref) (fact : FlowNode → bool) : option (bool * bool) :=
  '(found, missed, _) ← back b r fact (λ a _, a) tt;
  Some (found, missed).

(** What [FlowDiagnostics] reports of one access. *)
Inductive flow_report := UsedBeforeDeclaration | UsedBeforeAssigned.

Definition flow_diagnostic (b : Binding) (definite : bool) (id : Node) : option (option flow_report) :=
  lr ← local b (nid id);
  match lr with
  | None => Some None
  | Some r =>
      let sym := lr_symbol r in
      if bool_decide (nid id ∈ written b) then
        if tdzKind sym then
          '(found, missed) ← back_plain b r FInit;
          Some (if missed && negb found then Some UsedBeforeDeclaration else None)
        else Some None
      else
        dead ← (if tdzKind sym then '(found, missed) ← back_plain b r FInit; Some (missed && negb found)
                else Some false);
        if (dead : bool) then Some (Some UsedBeforeDeclaration)
        else if definite && trackedForAssignment sym && negb (bool_decide (nid id ∈ asserted_ b)) then
          '(_, missed) ← back_plain b r FAssign;
          Some (if (missed : bool) then Some UsedBeforeAssigned else None)
        else Some None
  end.

(** [FlowDiagnostics]: the reads and writes reported, in source order. *)
Definition FlowDiagnostics (b : Binding) (definite : bool) : option (list (Node * flow_report)) :=
  rs ← mapM (λ id, r ← flow_diagnostic b definite id; Some (id, r)) (accesses b);
  Some (omap (λ '(id, r), match r with Some r => Some (id, r) | None => None end) rs).

(** A store by [x = v] whose target is a name. *)
Definition plain_store (n : option Node) : bool :=
  match n with
  | Some n => match nkind n with
              | AssignmentExpression _ l _ => match nkind l with Identifier _ => true | _ => false end
              | _ => false
              end
  | None => false
  end.

(** [DefinitelyAssigned]. *)
Definition DefinitelyAssigned (b : Binding) (id : nat) : option bool :=
  lr ← local b id;
  match lr with
  | None => Some false
  | Some r =>
      if bool_decide (id ∈ written b) || negb (trackedForAssignment (lr_symbol r)) then Some false
      else
        '(found, missed, allPlain) ← back b r FAssign (λ p n, p && plain_store (FNode n)) true;
        Some (found && negb missed && allPlain)
  end.

(** The stores [ReachingStores] lets through. *)
Definition reaching_store (n : option Node) : bool :=
  match n with
  | Some n => match nkind n with
              | VarDeclaration _ _ _ init _ _ => bool_decide (is_Some init)
              | AssignmentExpression op l _ =>
                  match nkind l with Identifier _ => bool_decide (op = "="%string) | _ => false end
              | _ => false
              end
  | None => false
  end.

(** [ReachingStores]: the stores, and its [ok]. *)
Definition ReachingStores (b : Binding) (id : nat) : option (list (option Node) * bool) :=
  lr ← local b id;
  match lr with
  | None => Some ([], false)
  | Some r =>
      let ds := Declarations (lr_symbol r) in
      if bool_decide (id ∈ written b) || negb (length ds =? 1)%nat || bool_decide (lr_sym r ∈ foreign b)
      then Some ([], false)
      else
        match ds with
        | d :: _ =>
            match DNode d with
            | Some n =>
                match nkind n with
                | VarDeclaration _ _ _ _ false _ =>
                    '(found, missed, (plain, ss)) ←
                      back b r FAssign (λ '(plain, ss) n, (plain && reaching_store (FNode n), ss ++ [FNode n]))
                        (true, []);
                    Some (ss, found && negb missed && plain)
                | _ => Some ([], false)
                end
            | None => Some ([], false)
            end
        | [] => Some ([], false)
        end
  end.

(** [excludesUndefined]; the test of an identifier, and of a literal that is
    undefined (or, loosely, null). *)
Definition isSym (b : Binding) (sym : SymId) (e : Node) : bool :=
  match nkind e with Identifier _ => bool_decide (refs b !! nid e = Some sym) | _ => false end.
Definition absent (b : Binding) (e : Node) (loose : bool) : bool :=
  match nkind e with
  | NullLiteral u _ => (u && bool_decide (undefinedRefs b !! nid e = None)) || (loose && negb u)
  | _ => false
  end.
Definition excludesUndefined (b : Binding) (c : Node) (sym : SymId) (branch : bool) : bool :=
  match nkind c with
  | Identifier _ => branch && isSym b sym c
  | UnaryExpression op arg => bool_decide (op = "!"%string) && negb branch && isSym b sym arg
  | BinaryExpression op x y =>
      let (l, r) := if negb (isSym b sym x) then (y, x) else (x, y) in
      let typeof := match nkind l with
                    | UnaryExpression o a => bool_decide (o = "typeof"%string) && isSym b sym a
                    | _ => false
                    end in
      if typeof then
        match nkind r with
        | StringLiteral v =>
            if bool_decide (v = "undefined"%string) then false
            else eqb (bool_decide (op = "==="%string) || bool_decide (op = "=="%string)) branch
        | _ => false
        end
      else if negb (isSym b sym l) then false
      else if bool_decide (op = "!=="%string) || bool_decide (op = "!="%string) then
        branch && absent b r (bool_decide (op = "!="%string))
      else if bool_decide (op = "==="%string) || bool_decide (op = "=="%string) then
        negb branch && absent b r (bool_decide (op = "=="%string))
      else false
  | _ => false
  end.

(** The switch of [GuardedSinceStore]: a store, or a start, ends the walk. *)
Definition judge_guard (b : Binding) (sym : SymId) (scope : ScopeId) (f : FlowNode) : verdict :=
  if has (FFlags f) FlowAssignment then
    if bool_decide (FSymbol f = Some sym) then Hit else Go (Antecedent f)
  else if has (FFlags f) (Z.lor FlowTrueCondition FlowFalseCondition) then
    match FNode f with
    | Some c => if excludesUndefined b c sym (has (FFlags f) FlowTrueCondition) then End_ else Go (Antecedent f)
    | None => Go (Antecedent f)
    end
  else if has (FFlags f) (foldr Z.lor 0 [FlowSwitchClause; FlowCall; FlowPropertyAssignment]) then Go (Antecedent f)
  else if has (FFlags f) FlowScopeStart && negb (bool_decide (FScope f = Some scope)) then Go (Antecedent f)
  else if has (FFlags f) (Z.lor FlowStart FlowScopeStart) then Miss
  else Fork (Antecedents f).

(** [GuardedSinceStore]: it answers false at the first node that ends the walk,
    where nothing is left to do but leave both loops. *)
Definition GuardedSinceStore (b : Binding) (id : nat) : option bool :=
  lr ← local b id;
  match lr with
  | None => Some false
  | Some r =>
      if bool_decide (id ∈ written b) || bool_decide (lr_sym r ∈ foreign b) then Some false
      else
        '(found, missed, _) ← walk_from (graph b) (judge_guard b (lr_sym r) (lr_scope r)) (λ a _, a) orb (lr_flow r) tt;
        Some (negb (found || missed))
  end.

(** The loop of [ClosureNarrows] over the functions between the reference and
    the symbol's home: each must be a function expression or an arrow. *)
Fixpoint closures_only (n : nat) (b : Binding) (s : option ScopeId) (home : ScopeId) : option bool :=
  match n with
  | O => None
  | S n =>
      match s with
      | None => Some true
      | Some s =>
          if bool_decide (s = home) then Some true
          else
            sc ← scopes (scopesym b) !! s;
            if negb (is_scope FunctionScope sc) then closures_only n b (Parent sc) home
            else
              match ScNode sc with
              | Some f => match nkind f with
                          | FunctionExpression _ _ | ArrowFunction _ => closures_only n b (Parent sc) home
                          | _ => Some false
                          end
              | None => Some false
              end
      end
  end.

(** The switch of [ClosureNarrows] on the declaration: its answer, or [None]
    when the rest decides. *)
Definition declaration_narrows (b : Binding) (sym : Symbol) (n : Node) : option bool :=
  match nkind n with
  | VarDeclaration kind _ _ _ _ _ =>
      if bool_decide (kind = "const"%string) then Some true
      else if negb (bool_decide (kind = "let"%string)) || bool_decide (nid n ∈ exported b)
              || (Script b && bool_decide (SScope sym = Some (Module_ b))) then Some false
      else None
  | ArrayDestructuring kind _ _ | ObjectDestructuring kind _ _ => Some (bool_decide (kind = "const"%string))
  | FunctionDeclaration _ _ _ | FunctionExpression _ _ | ArrowFunction _ =>
      if negb (has (SFlags sym) FunctionScopedVariable) || negb (bool_decide (SScope sym = fnScopes b !! nid n))
      then Some false else None
  | _ => Some false
  end.

(** [ClosureNarrows]. *)
Definition ClosureNarrows (b : Binding) (id : nat) (s : SymId) : option bool :=
  sym ← run_bind b (symbol s);
  match Declarations sym with
  | [] => Some false
  | d :: _ =>
      match DNode d with
      | None => Some false
      | Some n =>
          match declaration_narrows b sym n with
          | Some r => Some r
          | None =>
              sc ← SScope sym;
              home ← run_bind b (functionOf sc);
              cl ← closures_only (S (S (length (scopes (scopesym b))))) b (refScope b !! id) home;
              if (cl : bool) then
                Some (match last_assign b !! s with
                      | None => true
                      | Some l => l <? match refOrd b !! id with Some o => o | None => 0 end
                      end)
              else Some false
          end
      end
  end.

(** [FlowAt], [StoresTo] and [StoredElsewhere]. *)
Definition FlowAt (b : Binding) (id : nat) : option (option FlowId * bool) :=
  lr ← local b id;
  Some (refFlow b !! id, bool_decide (is_Some lr)).
Definition StoresTo (b : Binding) (sym : SymId) : list (option Node) :=
  match storesTo b !! sym with Some l => l | None => [] end.
Definition StoredElsewhere (b : Binding) (sym : SymId) : bool := bool_decide (sym ∈ foreign b).
