(* ===== verification/FlowWalk.v ===== *)
(** * The walks over the flow graph are reachability

    [walk] (the loops of walkBack and GuardedSinceStore) ends, and what it
    answers is what some path of the graph meets. *)

From S2P Require Import Prelude GoString Diag Ast Symbols Flow.
Open Scope Z_scope.

(** ** What is left to visit *)

Section cost.
Context (seen : gset nat).
(** The rounds the nodes not seen yet can take, the first having index [i]. *)
Fixpoint cost (i : nat) (g : list FlowNode) : nat :=
  match g with
  | [] => 0%nat
  | n :: g => ((if bool_decide (i ∈ seen) then 0 else 1 + 2 * length (Antecedents n)) + cost (S i) g)%nat
  end.
End cost.

Lemma cost_le seen i g : (cost seen i g ≤ sum_list (map (λ n, 1 + 2 * length (Antecedents n)) g))%nat.
Proof. revert i. induction g as [|n g IH]; intros i; [done|]. specialize (IH (S i)). cbn in *. case_bool_decide; lia. Qed.

Lemma cost_skip seen x i g : (x < i)%nat → cost ({[x]} ∪ seen) i g = cost seen i g.
Proof.
  revert i. induction g as [|n g IH]; intros i Hx; cbn; [done|]. rewrite IH by lia.
  assert (bool_decide (i ∈ ({[x]} ∪ seen : gset nat)) = bool_decide (i ∈ seen)) as ->; [|done].
  apply bool_decide_ext. set_unfold. split; [intros [?|?]; [lia|done]|auto].
Qed.

Lemma cost_visit seen x i g n :
  g !! x = Some n → (i + x)%nat ∉ seen →
  (cost ({[(i + x)%nat]} ∪ seen) i g + (1 + 2 * length (Antecedents n)) = cost seen i g)%nat.
Proof.
  revert i x. induction g as [|n' g IH]; intros i x Hx Hs; [done|]. destruct x as [|x]; cbn in Hx |- *.
  - injection Hx as ->. rewrite Nat.add_0_r in *. rewrite cost_skip by lia.
    rewrite bool_decide_true by set_solver. rewrite bool_decide_false by done. lia.
  - replace (i + S x)%nat with (S (i + x)) in * by lia. specialize (IH (S i) x Hx Hs). cbn in IH.
    assert (bool_decide (i ∈ ({[S (i + x)]} ∪ seen : gset nat)) = bool_decide (i ∈ seen)) as ->.
    { apply bool_decide_ext. set_unfold. split; [intros [?|?]; [lia|done]|auto]. }
    lia.
Qed.

(** ** Well-formed graphs *)

(** Every pointer of a node points to a node. *)
Definition node_ok (len : nat) (n : FlowNode) : Prop :=
  (∀ p, Antecedent n = Some p → (p < len)%nat) ∧ Forall (λ p, (p < len)%nat) (Antecedents n).
Definition graph_ok (g : list FlowNode) : Prop := Forall (node_ok (length g)) g.

Definition live (n : FlowNode) : Prop := has (FFlags n) FlowUnreachable = false.

Section reach.
Context (g : list FlowNode) (judge : FlowNode → verdict).

(** A verdict goes on to a node's own predecessors. *)
Definition judge_ok : Prop :=
  ∀ n, match judge n with Go p => p = Antecedent n | Fork fs => fs = Antecedents n | _ => True end.

(** One step backwards along a path. *)
Definition back_edge (f f' : nat) : Prop :=
  ∃ n, g !! f = Some n ∧ live n ∧ (judge n = Go (Some f') ∨ ∃ fs, judge n = Fork fs ∧ f' ∈ fs).

(** Some path backwards from [f] ends at [f'] with the verdict [v]. *)
Definition ends (v : verdict) (f : nat) (n : FlowNode) : Prop :=
  ∃ f', rtc back_edge f f' ∧ g !! f' = Some n ∧ live n ∧ judge n = v.
End reach.

(** ** Paths of a flow graph

    What the queries mean, without the walk's switch: a node's predecessors,
    and the nearest nodes of a kind on the paths back from a node. *)

Definition is_label (n : FlowNode) : Prop := FFlags n = FlowBranchLabel ∨ FFlags n = FlowLoopLabel.

(** A node is of one kind; a label has its predecessors in a list, a start has
    none, any other node has at most one. *)
Definition node_shape (n : FlowNode) : bool :=
  let single := match Antecedents n with [] => true | _ => false end in
  let none := match Antecedent n with None => true | Some _ => false end in
  if bool_decide (FFlags n ∈ [FlowBranchLabel; FlowLoopLabel]) then none
  else if bool_decide (FFlags n = FlowStart) then single && none
  else single && bool_decide (FFlags n ∈ [FlowScopeStart; FlowAssignment; FlowTrueCondition; FlowFalseCondition;
                                            FlowSwitchClause; FlowCall; FlowPropertyAssignment]).
Definition graph_shape (g : list FlowNode) : Prop := ∀ f n, g !! f = Some n → live n → node_shape n = true.

Definition predecessor (n : FlowNode) (f : nat) : Prop := Antecedent n = Some f ∨ f ∈ Antecedents n.

Section paths.
Context (g : list FlowNode) (stop : FlowNode → Prop).

(** One step back from a node that does not stop the path. *)
Definition free_edge (f f' : nat) : Prop := ∃ n, g !! f = Some n ∧ live n ∧ ¬ stop n ∧ predecessor n f'.
(** [n] is the first node to stop some path back from [f]. *)
Definition nearest (f : nat) (n : FlowNode) : Prop :=
  ∃ f', rtc free_edge f f' ∧ g !! f' = Some n ∧ live n ∧ stop n.

Context (judge : FlowNode → verdict).
(** A switch that stops where [stop] does, and else follows the predecessors. *)
Definition judges : Prop := ∀ n, live n → node_shape n = true →
  (stop n ∧ (judge n = Hit ∨ judge n = Miss ∨ judge n = End_))
  ∨ (¬ stop n ∧ judge n ≠ Hit ∧ judge n ≠ Miss
     ∧ ∀ f, (judge n = Go (Some f) ∨ ∃ fs, judge n = Fork fs ∧ f ∈ fs) ↔ predecessor n f).

Lemma ends_nearest v f n :
  graph_shape g → judges → v = Hit ∨ v = Miss → ends g judge v f n ↔ nearest f n ∧ judge n = v.
Proof.
  intros Hg Hj Hv.
  assert (∀ x y, back_edge g judge x y ↔ free_edge x y) as Hedge.
  { intros x y. split.
    - intros (m & Hm & Hl & He). exists m. do 2 (split; [done|]).
      destruct (Hj m Hl (Hg _ _ Hm Hl)) as [[_ Hs]|(Hns & _ & _ & Hp)]; [|split; [done|by apply Hp]].
      exfalso. by destruct Hs as [Hs|[Hs|Hs]]; rewrite Hs in He; destruct He as [?|(? & ? & _)].
    - intros (m & Hm & Hl & Hns & Hp). exists m. do 2 (split; [done|]).
      destruct (Hj m Hl (Hg _ _ Hm Hl)) as [[? _]|(_ & _ & _ & Hpr)]; [done|by apply Hpr]. }
  assert (∀ x y, rtc (back_edge g judge) x y ↔ rtc free_edge x y) as Hrtc.
  { intros x y. split; (induction 1 as [|a b c Hab _ IH]; [done|]; eapply rtc_l; [by apply Hedge|done]). }
  split.
  - intros (f' & Hp & Hn & Hl & Hjn). split; [|done]. exists f'. apply Hrtc in Hp. do 3 (split; [done|]).
    destruct (Hj n Hl (Hg _ _ Hn Hl)) as [[? _]|(_ & ? & ? & _)]; [done|by destruct Hv as [->| ->]].
  - intros [(f' & Hp & Hn & Hl & _) Hjn]. exists f'. apply Hrtc in Hp. done.
Qed.
End paths.

Section walk.
Context {A : Type} (g : list FlowNode) (judge : FlowNode → verdict) (hit : A → FlowNode → A)
  (enough : bool → bool → bool) (f0 : nat) (a0 : A).
Context (Hg : graph_ok g) (Hj : judge_ok judge).

Definition pending (f : option nat) (stack : list nat) : list nat :=
  match f with Some f => f :: stack | None => stack end.

(** The verdict [v] was met at a node already seen. *)
Definition met (seen : gset nat) (v : verdict) (n : FlowNode) : Prop :=
  ∃ x, x ∈ seen ∧ g !! x = Some n ∧ judge n = v.

Definition dead_at (x : nat) : Prop := ∃ n, g !! x = Some n ∧ ¬ live n.

Record winv (f : option nat) (stack : list nat) (seen : gset nat) (found missed : bool) (a : A) : Prop := {
  wi_reach : ∀ x, x ∈ seen ∨ x ∈ pending f stack → rtc (back_edge g judge) f0 x;
  wi_bound : ∀ x, x ∈ pending f stack → (x < length g)%nat;
  wi_live : ∀ x, x ∈ seen → ∃ n, g !! x = Some n ∧ live n;
  wi_found : found = true ↔ ∃ n, met seen Hit n;
  wi_missed : missed = true ↔ ∃ n, met seen Miss n;
  wi_acc : ∃ hs, a = foldl hit a0 hs ∧ ∀ n, n ∈ hs ↔ met seen Hit n;
  wi_closed : ∀ x y, x ∈ seen → back_edge g judge x y → y ∈ seen ∨ y ∈ pending f stack ∨ dead_at y;
  wi_start : f0 ∈ seen ∨ f0 ∈ pending f stack ∨ dead_at f0 }.

Definition reached (v : verdict) (n : FlowNode) : Prop := ends g judge v f0 n.

(** What the walk answers: nothing that no path meets, and, unless it ended
    early, everything that one does. *)
Definition answered (found missed : bool) (a : A) : Prop :=
  (found = true → ∃ n, reached Hit n) ∧ (missed = true → ∃ n, reached Miss n)
  ∧ (∃ hs, a = foldl hit a0 hs ∧ (∀ n, n ∈ hs → reached Hit n)
           ∧ (enough found missed = true ∨ ∀ n, reached Hit n → n ∈ hs))
  ∧ (enough found missed = true
     ∨ ((∃ n, reached Hit n) → found = true) ∧ ((∃ n, reached Miss n) → missed = true)).

Lemma met_reached f stack seen found missed a v n :
  winv f stack seen found missed a → met seen v n → reached v n.
Proof.
  intros HI (x & Hx & Hn & Hv). exists x. destruct (wi_live _ _ _ _ _ _ HI x Hx) as (n' & Hn' & Hl).
  assert (n' = n) as -> by congruence. split; [apply (wi_reach _ _ _ _ _ _ HI); by left|done].
Qed.

(** With nothing pending, all that is reached and alive has been seen. *)
Lemma reached_met seen found missed a v n :
  winv None [] seen found missed a → reached v n → met seen v n.
Proof.
  intros HI (x & Hr & Hn & Hl & Hv).
  assert (x ∈ seen) as Hx; [|by exists x].
  assert (∀ y, y ∈ seen ∨ dead_at y → rtc (back_edge g judge) y x → x ∈ seen) as Hgen.
  { intros y Hy Hyx. induction Hyx as [y|y z x Hyz Hzx IH].
    - destruct Hy as [?|(n' & Hn' & Hd)]; [done|]. assert (n' = n) as -> by congruence. done.
    - destruct Hy as [Hy|(n' & Hn' & Hd)].
      + apply IH; try done. destruct (wi_closed _ _ _ _ _ _ HI y z Hy Hyz) as [?|[Hp|?]]; [by left| |by right].
        by apply elem_of_nil in Hp.
      + destruct Hyz as (n'' & Hn'' & Hl'' & _). assert (n'' = n') as -> by congruence. done. }
  apply (Hgen f0); [|done]. destruct (wi_start _ _ _ _ _ _ HI) as [?|[Hp|?]]; [by left| |by right].
  by apply elem_of_nil in Hp.
Qed.

Lemma winv_answered f stack seen found missed a :
  winv f stack seen found missed a → enough found missed = true ∨ pending f stack = [] →
  answered found missed a.
Proof.
  intros HI Hend. pose proof (λ v n, met_reached _ _ _ _ _ _ v n HI) as Hmr.
  destruct (wi_acc _ _ _ _ _ _ HI) as (hs & Ha & Hhs).
  assert (enough found missed = true ∨ ∀ v n, reached v n → met seen v n) as Hc.
  { destruct Hend as [?|Hp]; [by left|right]. destruct f; [done|]. cbn in Hp. subst stack.
    intros v n. by eapply reached_met. }
  split_and!.
  - intros [n Hn]%(wi_found _ _ _ _ _ _ HI). exists n. by apply Hmr.
  - intros [n Hn]%(wi_missed _ _ _ _ _ _ HI). exists n. by apply Hmr.
  - exists hs. split; [done|]. split; [by intros n ?%Hhs; apply Hmr|].
    destruct Hc as [?|Hc]; [by left|right]. intros n Hn. by apply Hhs, Hc.
  - destruct Hc as [?|Hc]; [by left|right]. split; intros [n Hn].
    + apply (wi_found _ _ _ _ _ _ HI). exists n. by apply Hc.
    + apply (wi_missed _ _ _ _ _ _ HI). exists n. by apply Hc.
Qed.

(** A pending node that is dead or seen is dropped. *)
Lemma winv_drop f stack seen found missed a n :
  winv (Some f) stack seen found missed a → g !! f = Some n → ¬ live n ∨ f ∈ seen →
  winv None stack seen found missed a.
Proof.
  intros [Hr Hb Hl Hf Hm Ha Hc Hs] Hn Hdrop. cbn in *.
  assert (f ∈ seen ∨ dead_at f) as Hd by (destruct Hdrop; [right; by exists n|by left]).
  constructor; cbn; try done.
  - intros x [?|?]; apply Hr; [by left|right; by right].
  - intros x Hx. apply Hb. by right.
  - intros x y Hx Hxy. destruct (Hc x y Hx Hxy) as [?|[[->|?]%elem_of_cons|?]]; tauto.
  - destruct Hs as [?|[[->|?]%elem_of_cons|?]]; tauto.
Qed.

Lemma winv_pop f stack seen found missed a :
  winv None (f :: stack) seen found missed a → winv (Some f) stack seen found missed a.
Proof. intros []. by constructor. Qed.

(** A live node not seen before is visited. *)
Lemma winv_visit f stack seen found missed a n f' fs :
  winv (Some f) stack seen found missed a → g !! f = Some n → live n → f ∉ seen →
  (∀ y, back_edge g judge f y ↔ y ∈ pending f' fs) →
  winv f' (fs ++ stack) ({[f]} ∪ seen)
    (found || match judge n with Hit => true | _ => false end)
    (missed || match judge n with Miss => true | _ => false end)
    (match judge n with Hit => hit a n | _ => a end).
Proof.
  intros [Hr Hb Hl Hf Hm Ha Hc Hs] Hn Hlive Hseen Hnext. cbn in *.
  assert (∀ x, x ∈ pending f' (fs ++ stack) ↔ x ∈ pending f' fs ∨ x ∈ stack) as Hpend.
  { intros x. destruct f'; cbn; rewrite ?elem_of_cons, elem_of_app; tauto. }
  assert (∀ v m, met ({[f]} ∪ seen) v m ↔ (m = n ∧ judge n = v) ∨ met seen v m) as Hmet.
  { intros v m. unfold met. split.
    - intros (x & [->%elem_of_singleton|Hx]%elem_of_union & Hxn & Hv); [left|right; by exists x].
      assert (m = n) as -> by congruence. done.
    - intros [[-> Hv]|(x & Hx & ?)]; [exists f; split; [apply elem_of_union_l; by apply elem_of_singleton|done]|exists x; split; [by apply elem_of_union_r|done]]. }
  constructor.
  - intros x. rewrite Hpend. intros [[->%elem_of_singleton|Hx]%elem_of_union|[Hx|Hx]].
    + apply Hr. right. by left.
    + apply Hr. by left.
    + apply Hnext in Hx. eapply rtc_r; [|done]. apply Hr. right. by left.
    + apply Hr. right. by right.
  - intros x. rewrite Hpend. intros [Hx|Hx]; [|apply Hb; by right]. apply Hnext in Hx.
    destruct Hx as (n' & Hn' & _ & Hjn). assert (n' = n) as -> by congruence.
    pose proof (proj1 (Forall_lookup _ _) Hg f n Hn) as [Hp Hps]. specialize (Hj n).
    destruct Hjn as [Hgo|(fs' & Hfork & Hin)].
    + rewrite Hgo in Hj. by apply Hp.
    + rewrite Hfork in Hj. subst fs'. rewrite Forall_forall in Hps. by apply Hps.
  - intros x [->%elem_of_singleton|Hx]%elem_of_union; [by exists n|by apply Hl].
  - setoid_rewrite Hmet. rewrite orb_true_iff, Hf. split.
    + intros [[m ?]|Hh]; [exists m; by right|exists n; left; split; [done|by destruct (judge n)]].
    + intros [m [[-> Hh]|?]]; [right; by rewrite Hh|left; by exists m].
  - setoid_rewrite Hmet. rewrite orb_true_iff, Hm. split.
    + intros [[m ?]|Hh]; [exists m; by right|exists n; left; split; [done|by destruct (judge n)]].
    + intros [m [[-> Hh]|?]]; [right; by rewrite Hh|left; by exists m].
  - destruct Ha as (hs & -> & Hhs). setoid_rewrite Hmet. destruct (judge n) eqn:Hv.
    1: { exists (hs ++ [n]). split; [by rewrite foldl_app|]. intros m.
         rewrite elem_of_app, list_elem_of_singleton, Hhs. tauto. }
    all: exists hs; split; [done|]; intros m; rewrite Hhs; split; [tauto|intros [[_ ?]|?]; done].
  - intros x y. rewrite Hpend. intros [->%elem_of_singleton|Hx]%elem_of_union Hxy.
    + right. left. left. by apply Hnext.
    + destruct (Hc x y Hx Hxy) as [?|[[->|?]%elem_of_cons|?]]; [left; by apply elem_of_union_r|left; apply elem_of_union_l; by apply elem_of_singleton|tauto..].
  - rewrite Hpend. destruct Hs as [?|[[->|?]%elem_of_cons|?]]; [left; by apply elem_of_union_r|left; apply elem_of_union_l; by apply elem_of_singleton|tauto..].
Qed.

Definition weight (f : option nat) (stack : list nat) (seen : gset nat) : nat :=
  (cost seen 0 g + 2 * length stack + match f with Some _ => 1 | None => 0 end)%nat.

Lemma visit_edges f n :
  g !! f = Some n → live n →
  ∀ y, back_edge g judge f y ↔
    y ∈ pending (match judge n with Go f' => f' | _ => None end)
                (match judge n with Fork fs => rev fs | _ => [] end).
Proof.
  intros Hn Hl y. unfold back_edge. split.
  - intros (n' & Hn' & _ & Hv). assert (n' = n) as -> by congruence. destruct Hv as [->|(fs & -> & Hy)]; cbn.
    + by left.
    + by apply list_elem_of_In, in_rev, list_elem_of_In in Hy.
  - intros Hy. exists n. split; [done|]. split; [done|]. destruct (judge n) as [| | |f'|fs]; try by apply elem_of_nil in Hy.
    + destruct f' as [f'|]; cbn in Hy; [|by apply elem_of_nil in Hy].
      apply list_elem_of_singleton in Hy as ->. by left.
    + right. exists fs. split; [done|]. cbn in Hy. by apply list_elem_of_In, in_rev, list_elem_of_In.
Qed.

(** From any state that keeps the invariant the walk ends with an answer. *)
Lemma walk_answers n f stack seen found missed a :
  winv f stack seen found missed a → (weight f stack seen < n)%nat →
  ∃ found' missed' a', walk g judge hit enough n f stack seen found missed a = Some (found', missed', a')
    ∧ answered found' missed' a'.
Proof.
  revert f stack seen found missed a. induction n as [|n IH]; intros f stack seen found missed a HI Hw; [lia|].
  cbn [walk]. unfold weight in Hw. destruct f as [f|].
  - assert (f < length g)%nat as Hlt by (apply (wi_bound _ _ _ _ _ _ HI); by left).
    destruct (lookup_lt_is_Some_2 _ _ Hlt) as [nd Hnd]. rewrite Hnd.
    destruct (has (FFlags nd) FlowUnreachable || bool_decide (f ∈ seen)) eqn:Hskip.
    + apply IH; [|unfold weight; lia]. eapply winv_drop; [done|done|].
      apply orb_true_iff in Hskip as [Hd|Hd]; [left; unfold live; congruence|right; by apply bool_decide_eq_true in Hd].
    + apply orb_false_iff in Hskip as [Hl Hns]. apply bool_decide_eq_false in Hns.
      pose proof (winv_visit f stack seen found missed a nd _ _ HI Hnd Hl Hns (visit_edges f nd Hnd Hl)) as HI'.
      pose proof (cost_visit seen f 0 g nd Hnd Hns) as Hcost. cbn in Hcost. specialize (Hj nd).
      destruct (judge nd) as [| | |f'|fs]; rewrite ?orb_false_r, ?orb_true_r in HI'; cbn [app] in HI'.
      all: apply IH; [exact HI'|unfold weight; cbn]; try lia.
      * destruct f'; lia.
      * subst fs. rewrite length_app, length_rev. lia.
  - destruct stack as [|f stack].
    + eexists _, _, _. split; [done|]. eapply winv_answered; [done|by right].
    + destruct (enough found missed) eqn:He; [eexists _, _, _; split; [done|]; eapply winv_answered; [done|by left]|].
      apply IH; [by apply winv_pop|]. unfold weight. cbn in *. lia.
Qed.

Lemma walk_from_answers :
  (f0 < length g)%nat →
  ∃ found missed a, walk_from g judge hit enough f0 a0 = Some (found, missed, a) ∧ answered found missed a.
Proof.
  intros Hf0. apply walk_answers.
  - constructor; cbn.
    + intros x [?| ->%list_elem_of_singleton]; [set_solver|done].
    + by intros x ->%list_elem_of_singleton.
    + set_solver.
    + split; [done|]. intros (n & x & ? & _). set_solver.
    + split; [done|]. intros (n & x & ? & _). set_solver.
    + exists []. split; [done|]. intros n. split; [by intros ?%elem_of_nil|intros (x & ? & _); set_solver].
    + set_solver.
    + right. left. by left.
  - unfold weight, walk_fuel. pose proof (cost_le ∅ 0 g). cbn in *. lia.
Qed.
End walk.

(** ** The two walks *)

Lemma judge_back_ok home sym scope fact : judge_ok (judge_back home sym scope fact).
Proof. intros n. unfold judge_back. by repeat case_match; simplify_eq. Qed.

Lemma judge_guard_ok b sym scope : judge_ok (judge_guard b sym scope).
Proof. intros n. unfold judge_guard. by repeat case_match; simplify_eq. Qed.

(** A store to the symbol of which the fact holds. *)
Definition fact_node (sym : SymId) (fact : FlowNode → bool) (n : FlowNode) : Prop :=
  FFlags n = FlowAssignment ∧ FSymbol n = Some sym ∧ fact n = true.
(** The start of the function the symbol is at home in, and the entry of its
    scope, each time it is entered. *)
Definition entry_node (home scope : ScopeId) (n : FlowNode) : Prop :=
  (FFlags n = FlowStart ∧ FScope n = Some home) ∨ (FFlags n = FlowScopeStart ∧ FScope n = Some scope).

(** The paths of [walkBack] stop at such stores and entries. *)
Definition back_stop (home : ScopeId) (sym : SymId) (scope : ScopeId) (fact : FlowNode → bool) (n : FlowNode) : Prop :=
  fact_node sym fact n ∨ entry_node home scope n.

Ltac by_kind n Hk :=
  unfold node_shape in Hk;
  destruct (bool_decide_reflect (FFlags n ∈ [FlowBranchLabel; FlowLoopLabel])) as [Hflags|_];
  [|destruct (bool_decide_reflect (FFlags n = FlowStart)) as [Hflags|_]; apply andb_true_iff in Hk as [Hsingle Hk];
    [|apply bool_decide_eq_true in Hk as Hflags; clear Hk]];
  rewrite ?elem_of_cons, ?elem_of_nil in Hflags.

(** A switch that goes on to a node's predecessors, whichever it has. *)
Lemma judges_one n f : Antecedents n = [] → predecessor n f ↔ Go (Antecedent n) = Go (Some f) ∨ ∃ fs, Go (Antecedent n) = Fork fs ∧ f ∈ fs.
Proof.
  intros H. unfold predecessor. rewrite H. split.
  - intros [->|?%elem_of_nil]; [by left|done].
  - intros [[= ->]|(? & ? & _)]; [by left|done].
Qed.
Lemma judges_many n f : Antecedent n = None → predecessor n f ↔ Fork (Antecedents n) = Go (Some f) ∨ ∃ fs, Fork (Antecedents n) = Fork fs ∧ f ∈ fs.
Proof.
  intros H. unfold predecessor. rewrite H. split.
  - intros [?|?]; [done|]. right. by eexists.
  - intros [?|(fs & [= ->] & ?)]; [done|by right].
Qed.

Lemma shape_single n : (match Antecedents n with [] => true | _ => false end) = true → Antecedents n = [].
Proof. by destruct (Antecedents n). Qed.
Lemma shape_none n : (match Antecedent n with None => true | Some _ => false end) = true → Antecedent n = None.
Proof. by destruct (Antecedent n). Qed.

(** Which arm of a switch a node of a known kind takes. *)
Ltac take_arm :=
  repeat match goal with |- context [has ?a ?b] => let v := eval vm_compute in (has a b) in change (has a b) with v end;
  cbn [andb orb negb]; cbv iota.

Lemma judge_back_judges home sym scope fact : judges (back_stop home sym scope fact) (judge_back home sym scope fact).
Proof.
  intros n Hl Hk. unfold back_stop, fact_node, entry_node, judge_back. by_kind n Hk.
  - apply shape_none in Hk. right.
    assert (FFlags n ≠ FlowAssignment ∧ FFlags n ≠ FlowStart ∧ FFlags n ≠ FlowScopeStart) as (? & ? & ?) by (destruct Hflags as [->|[->|?]]; done).
    split; [tauto|]. destruct Hflags as [->|[->|?]]; [..|done]; take_arm; (do 2 (split; [done|])); intros f; by rewrite judges_many.
  - apply shape_single in Hsingle. apply shape_none in Hk. rewrite Hflags. take_arm. case_bool_decide as Hs.
    + left. split; [right; by left|right; by left].
    + right. split; [by intros [(? & _)|[(_ & ?)|(? & _)]]|]. do 2 (split; [done|]). intros f. rewrite judges_one, Hk by done.
      split; [intros [?|(? & ? & _)]; done|intros [?|(? & ? & _)]; done].
  - apply shape_single in Hsingle. pose proof (judges_one n) as Hp.
    destruct Hflags as [Hf|Hflags]; [|destruct Hflags as [Hf|Hflags]].
    + rewrite Hf. take_arm. case_bool_decide as Hs; [left; split; [right; by right|right; by left]|].
      right. split; [by intros [(? & _)|[(? & _)|(_ & ?)]]|]. do 2 (split; [done|]). intros f. by rewrite judges_one.
    + rewrite Hf. take_arm. destruct (bool_decide_reflect (FSymbol n = Some sym)) as [Hs|Hs], (fact n) eqn:Hfact; cbn [andb].
      1: left; split; [by left|by left].
      all: right; (split; [by intros [(? & ? & ?)|[(? & _)|(? & _)]]|]); do 2 (split; [done|]); intros f; by rewrite judges_one.
    + right. assert (FFlags n ≠ FlowAssignment ∧ FFlags n ≠ FlowStart ∧ FFlags n ≠ FlowScopeStart) as (? & ? & ?)
        by (repeat (destruct Hflags as [->|Hflags]; [done|]); done).
      split; [tauto|]. repeat (destruct Hflags as [->|Hflags]; [take_arm; (do 2 (split; [done|])); intros f; by rewrite judges_one|]). done.
Qed.

Lemma judge_back_hit home sym scope fact n :
  live n → node_shape n = true → back_stop home sym scope fact n →
  (judge_back home sym scope fact n = Hit ↔ fact_node sym fact n) ∧ (judge_back home sym scope fact n = Miss ↔ entry_node home scope n).
Proof.
  intros Hl Hk [(Hf & Hs & Hfact)|[[Hf Hs]|[Hf Hs]]]; unfold judge_back, fact_node, entry_node; rewrite Hf; take_arm.
  - rewrite bool_decide_true, Hfact by done. cbn [andb]. split; [done|]. split; [done|by intros [[? _]|[? _]]].
  - rewrite bool_decide_true by done. split; [split; [done|by intros [? _]]|]. split; [by left|done].
  - rewrite bool_decide_true by done. split; [split; [done|by intros [? _]]|]. split; [by right|done].
Qed.

(** The stores, and the entries, a path back from [f] meets first. *)
Definition meets_fact (g : list FlowNode) (home : ScopeId) (sym : SymId) (scope : ScopeId) (fact : FlowNode → bool) (f : nat)
    (n : FlowNode) : Prop := nearest g (back_stop home sym scope fact) f n ∧ fact_node sym fact n.
Definition meets_entry (g : list FlowNode) (home : ScopeId) (sym : SymId) (scope : ScopeId) (fact : FlowNode → bool) (f : nat)
    (n : FlowNode) : Prop := nearest g (back_stop home sym scope fact) f n ∧ entry_node home scope n.

Lemma ends_back g home sym scope fact f n :
  graph_shape g →
  (ends g (judge_back home sym scope fact) Hit f n ↔ meets_fact g home sym scope fact f n)
  ∧ (ends g (judge_back home sym scope fact) Miss f n ↔ meets_entry g home sym scope fact f n).
Proof.
  intros Hg. unfold meets_fact, meets_entry.
  rewrite !(ends_nearest g (back_stop home sym scope fact)) by (done || apply judge_back_judges || tauto).
  assert (∀ P Q, (nearest g (back_stop home sym scope fact) f n → (P ↔ Q)) →
    (nearest g (back_stop home sym scope fact) f n ∧ P ↔ nearest g (back_stop home sym scope fact) f n ∧ Q)) as Hiff by tauto.
  split; apply Hiff; intros (f' & _ & Hn & Hl & Hs); by apply judge_back_hit; [|eapply Hg|].
Qed.

(** [walkBack]: what it found and what it missed is what some path meets. *)
Lemma walkBack_spec {A} g home sym scope fact (hit : A → FlowNode → A) f a0 :
  graph_ok g → graph_shape g → (f < length g)%nat →
  ∃ found missed hs, walkBack g home sym scope fact hit f a0 = Some (found, missed, foldl hit a0 hs)
    ∧ (found = true ↔ ∃ n, meets_fact g home sym scope fact f n) ∧ (missed = true ↔ ∃ n, meets_entry g home sym scope fact f n)
    ∧ (∀ n, n ∈ hs → meets_fact g home sym scope fact f n)
    ∧ (missed = false → ∀ n, meets_fact g home sym scope fact f n → n ∈ hs).
Proof.
  intros Hg Hsh Hf.
  destruct (walk_from_answers g (judge_back home sym scope fact) hit andb f a0 Hg (judge_back_ok _ _ _ _) Hf)
    as (found & missed & a & Hrun & Hsf & Hsm & (hs & -> & Hsound & Hcomp) & Hall).
  unfold reached in *. setoid_rewrite (λ n, proj1 (ends_back g home sym scope fact f n Hsh)) in Hsf.
  setoid_rewrite (λ n, proj2 (ends_back g home sym scope fact f n Hsh)) in Hsm.
  setoid_rewrite (λ n, proj1 (ends_back g home sym scope fact f n Hsh)) in Hsound.
  setoid_rewrite (λ n, proj1 (ends_back g home sym scope fact f n Hsh)) in Hcomp.
  setoid_rewrite (λ n, proj1 (ends_back g home sym scope fact f n Hsh)) in Hall.
  setoid_rewrite (λ n, proj2 (ends_back g home sym scope fact f n Hsh)) in Hall.
  exists found, missed, hs. split; [exact Hrun|]. split_and!.
  - split; [exact Hsf|]. destruct Hall as [[-> _]%andb_true_iff|[Hall _]]; [done|exact Hall].
  - split; [exact Hsm|]. destruct Hall as [[_ ->]%andb_true_iff|[_ Hall]]; [done|exact Hall].
  - done.
  - intros ->. destruct Hcomp as [H|H]; [by rewrite andb_false_r in H|exact H].
Qed.

(** ** The guards of a read *)

(** A condition, known true or false, that excludes undefined. *)
Definition guard_node (b : Binding) (sym : SymId) (n : FlowNode) : Prop :=
  ∃ c, FNode n = Some c ∧ ((FFlags n = FlowTrueCondition ∧ excludesUndefined b c sym true = true)
                           ∨ (FFlags n = FlowFalseCondition ∧ excludesUndefined b c sym false = true)).
(** What the paths of [GuardedSinceStore] stop at: a guard, a store, a start of
    a function or the entry of the scope. *)
Definition guard_stop (b : Binding) (sym : SymId) (scope : ScopeId) (n : FlowNode) : Prop :=
  guard_node b sym n ∨ (FFlags n = FlowAssignment ∧ FSymbol n = Some sym) ∨ FFlags n = FlowStart
  ∨ (FFlags n = FlowScopeStart ∧ FScope n = Some scope).

Lemma judge_guard_judges b sym scope : judges (guard_stop b sym scope) (judge_guard b sym scope).
Proof.
  intros n Hl Hk. unfold guard_stop, guard_node, judge_guard. by_kind n Hk.
  - apply shape_none in Hk. right.
    assert (FFlags n ≠ FlowTrueCondition ∧ FFlags n ≠ FlowFalseCondition ∧ FFlags n ≠ FlowAssignment ∧ FFlags n ≠ FlowStart
      ∧ FFlags n ≠ FlowScopeStart) as (? & ? & ? & ? & ?) by (destruct Hflags as [->|[->|?]]; done).
    split; [intros [(c & _ & [[? _]|[? _]])|[[? _]|[?|[? _]]]]; done|].
    destruct Hflags as [->|[->|?]]; [..|done]; take_arm; (do 2 (split; [done|])); intros f; by rewrite judges_many.
  - rewrite Hflags. take_arm. left. split; [tauto|tauto].
  - apply shape_single in Hsingle. pose proof (judges_one n) as Hp.
    destruct Hflags as [Hf|[Hf|[Hf|[Hf|Hflags]]]].
    + rewrite Hf. take_arm. case_bool_decide as Hs; cbn [negb]; cbv iota; [left; split; [tauto|tauto]|].
      right. split; [intros [(c & _ & [[? _]|[? _]])|[[? _]|[?|[_ ?]]]]; done|]. do 2 (split; [done|]). intros f. by rewrite judges_one.
    + rewrite Hf. take_arm. case_bool_decide as Hs; [left; split; [tauto|tauto]|].
      right. split; [intros [(c & _ & [[? _]|[? _]])|[[_ ?]|[?|[? _]]]]; done|]. do 2 (split; [done|]). intros f. by rewrite judges_one.
    + rewrite Hf. take_arm. destruct (FNode n) as [c|] eqn:Hn; [destruct (excludesUndefined b c sym true) eqn:He|].
      1: left; split; [left; exists c; tauto|tauto].
      all: right; (split; [intros [(c' & Hc & [[_ ?]|[? _]])|[[? _]|[?|[? _]]]]; first [done|congruence]|]);
        do 2 (split; [done|]); intros f; by rewrite judges_one.
    + rewrite Hf. take_arm. destruct (FNode n) as [c|] eqn:Hn; [destruct (excludesUndefined b c sym false) eqn:He|].
      1: left; split; [left; exists c; tauto|tauto].
      all: right; (split; [intros [(c' & Hc & [[? _]|[_ ?]])|[[? _]|[?|[? _]]]]; first [done|congruence]|]);
        do 2 (split; [done|]); intros f; by rewrite judges_one.
    + right. repeat (destruct Hflags as [Hf|Hflags]; [rewrite Hf; take_arm; split;
        [intros [(c & _ & [[? _]|[? _]])|[[? _]|[?|[? _]]]]; first [done|congruence]|];
        do 2 (split; [done|]); intros f; by rewrite judges_one|]). done.
Qed.

Lemma judge_guard_end b sym scope n :
  guard_stop b sym scope n → judge_guard b sym scope n = Hit ∨ judge_guard b sym scope n = Miss ↔ ¬ guard_node b sym n.
Proof.
  intros Hs. unfold judge_guard. destruct Hs as [(c & Hn & [[Hf He]|[Hf He]])|[[Hf Hs]|[Hf|[Hf Hs]]]].
  - rewrite Hf, Hn. take_arm. rewrite He. split; [by intros [?|?]|]. intros Hno. destruct Hno. exists c. tauto.
  - rewrite Hf, Hn. take_arm. rewrite He. split; [by intros [?|?]|]. intros Hno. destruct Hno. exists c. tauto.
  - rewrite Hf. take_arm. rewrite bool_decide_true by done. split; [|by left]. intros _ (c & _ & [[Hc _]|[Hc _]]); by rewrite Hf in Hc.
  - rewrite Hf. take_arm. split; [|by right]. intros _ (c & _ & [[Hc _]|[Hc _]]); by rewrite Hf in Hc.
  - rewrite Hf. take_arm. rewrite bool_decide_true by done. take_arm. split; [|by right]. intros _ (c & _ & [[Hc _]|[Hc _]]); by rewrite Hf in Hc.
Qed.

(** No path ends at a store or an entry exactly when each stops at a guard. *)
Lemma ends_guard g b sym scope f :
  graph_shape g →
  (∀ v n, v = Hit ∨ v = Miss → ¬ ends g (judge_guard b sym scope) v f n)
  ↔ ∀ n, nearest g (guard_stop b sym scope) f n → guard_node b sym n.
Proof.
  intros Hg. pose proof (λ v n Hv, ends_nearest g _ _ v f n Hg (judge_guard_judges b sym scope) Hv) as He. split.
  - intros Hno n Hn. pose proof Hn as (f' & _ & _ & _ & Hs).
    destruct Hs as [?|Hs]; [done|]. exfalso.
    assert (judge_guard b sym scope n = Hit ∨ judge_guard b sym scope n = Miss) as Hv.
    { apply judge_guard_end; [by right|]. intros (c & _ & Hc).
      destruct Hs as [[Hf _]|[Hf|[Hf _]]]; rewrite Hf in Hc; by destruct Hc as [[? _]|[? _]]. }
    apply (Hno (judge_guard b sym scope n) n Hv). by apply He.
  - intros Hall v n Hv Hn. apply He in Hn as [Hn Hj]; [|done]. pose proof (Hall n Hn) as Hgd. pose proof Hn as (f' & _ & _ & _ & Hs).
    apply (judge_guard_end b sym scope n Hs) in Hgd; [done|]. rewrite Hj. by destruct Hv as [->| ->]; [left|right].
Qed.
