(* ===== verification/FlowFacts.v ===== *)
(** * The flow builder keeps the graph well formed

    One rule per operation of Flow.v's builder, the builder as a state machine
    and the invariant of its reachable states. *)

From S2P Require Import Prelude GoString Diag Ast Symbols SymbolFacts Flow FlowWalk.
Open Scope Z_scope.

(** ** The builder's invariant *)

(** A predecessor is a node that can be reached, never nil nor [unreachableFlow]. *)
Record fnode_ok (g : list FlowNode) (n : FlowNode) : Prop := {
  fn_ante : ∀ p, Antecedent n = Some p → p ≠ unreachableFlow ∧ (p < length g)%nat;
  fn_antes : Forall (λ p, p ≠ unreachableFlow ∧ (p < length g)%nat) (Antecedents n);
  fn_nodup : NoDup (Antecedents n);
  fn_label : Antecedents n ≠ [] → is_label n;
  fn_live : live n;
  fn_shape : node_shape n = true }.

Record bwf (b : builder) : Prop := {
  bw_bnd : wf (bnd b);
  bw_zero : nodes b !! unreachableFlow = Some unreachable_node;
  bw_nodes : ∀ f n, f ≠ unreachableFlow → nodes b !! f = Some n → fnode_ok (nodes b) n;
  bw_flow : (flow b < length (nodes b))%nat;
  bw_targets : Forall (λ t, ∃ n, nodes b !! t = Some n ∧ is_label n) (exceptionTargets b);
  bw_ord : ord b ≤ maxOrd ∧ ∀ s, at_key (lastAssign b) s ≤ maxOrd }.

(** The graph only grows: a node keeps everything but that a label may get
    further predecessors. *)
Definition node_grows (n n' : FlowNode) : Prop :=
  FFlags n' = FFlags n ∧ Antecedent n' = Antecedent n ∧ FScope n' = FScope n ∧ FSymbol n' = FSymbol n
  ∧ FNode n' = FNode n ∧ Clause n' = Clause n ∧ FInit n' = FInit n ∧ FAssign n' = FAssign n
  ∧ Antecedents n `prefix_of` Antecedents n'.
Definition graph_grows (g g' : list FlowNode) : Prop :=
  ∀ f n, g !! f = Some n → ∃ n', g' !! f = Some n' ∧ node_grows n n'.

#[export] Instance graph_grows_preorder : PreOrder graph_grows.
Proof.
  split.
  - intros g f n Hn. exists n. by split_and!.
  - intros g1 g2 g3 H12 H23 f n (n' & Hn' & H)%H12. apply H23 in Hn' as (n'' & Hn'' & H').
    exists n''. split; [done|]. unfold node_grows in *. destruct_and!. split_and!; try congruence. by etrans.
Qed.

Lemma graph_grows_length g g' : graph_grows g g' → (length g ≤ length g')%nat.
Proof.
  intros H. destruct (decide (length g = 0%nat)) as [|Hne]; [lia|].
  destruct (lookup_lt_is_Some_2 g (length g - 1)) as [n Hn]; [lia|].
  apply H in Hn as (? & Hn & _). apply lookup_lt_Some in Hn. lia.
Qed.

Lemma bwf_graph_ok b : bwf b → graph_ok (nodes b).
Proof.
  intros Hb. apply Forall_lookup. intros f n Hn. destruct (decide (f = unreachableFlow)) as [->|Hne].
  - rewrite (bw_zero _ Hb) in Hn. injection Hn as <-. by split; [|constructor].
  - destruct (bw_nodes _ Hb f n Hne Hn) as [Ha Hs _ _ _ _]. split; [by intros p [_ ?]%Ha|].
    eapply Forall_impl; [exact Hs|]. by intros p [_ ?].
Qed.

Lemma bwf_graph_shape b : bwf b → graph_shape (nodes b).
Proof.
  intros Hb f n Hn Hl. apply (fn_shape _ _ (bw_nodes _ Hb f n ltac:(intros ->; rewrite (bw_zero _ Hb) in Hn; by injection Hn as <-) Hn)).
Qed.

Lemma fnode_ok_mono g g' n : (length g ≤ length g')%nat → fnode_ok g n → fnode_ok g' n.
Proof.
  intros Hl [Ha Hs Hnd Hlab Hlive Hshape]. constructor; try done.
  - intros p [? ?]%Ha. split; [done|lia].
  - eapply Forall_impl; [exact Hs|]. intros p [? ?]. split; [done|lia].
Qed.

(** The assignment of a symbol at position [o] is accounted for: the symbol's
    last assignment is no earlier, or an open statement will extend it. *)
Definition covered (b : builder) (s : nat) (o : Z) : Prop :=
  o ≤ at_key (lastAssign b) s ∨ (o ≤ ord b ∧ Exists (λ f, s ∈ assigned f) (stmts b)).
Definition covers (b b' : builder) : Prop := ∀ s o, covered b s o → covered b' s o.

(** What every operation guarantees: the invariant, growth, and the fields that
    only the traversal sets. *)
Record after (b b' : builder) : Prop := {
  af_wf : bwf b';
  af_grows : graph_grows (nodes b) (nodes b');
  af_bnd : bnd b' = bnd b;
  af_targets : exceptionTargets b' = exceptionTargets b;
  af_fns : container b' = container b ∧ fnScope b' = fnScope b;
  af_covers : covers b b' }.

Lemma after_refl b : bwf b → after b b.
Proof. constructor; try done. by intros s o. Qed.
Lemma after_trans b1 b2 b3 : after b1 b2 → after b2 b3 → after b1 b3.
Proof. intros [? ? ? ? [? ?] ?] [? ? ? ? [? ?] ?]. constructor; [done|by etrans|congruence|congruence|split; congruence|unfold covers in *; auto]. Qed.

Lemma after_len b b' : after b b' → (length (nodes b) ≤ length (nodes b'))%nat.
Proof. intros H. apply graph_grows_length, H. Qed.

Lemma Forall_lt_after b b' fs :
  after b b' → Forall (λ f, (f < length (nodes b))%nat) fs → Forall (λ f, (f < length (nodes b'))%nat) fs.
Proof. intros H Hfs. eapply Forall_impl; [exact Hfs|]. intros x Hx. pose proof (after_len _ _ H). cbv beta in *. lia. Qed.

(** A label stays one. *)
Lemma after_label b b' l : after b b' → (∃ n, nodes b !! l = Some n ∧ is_label n) → ∃ n, nodes b' !! l = Some n ∧ is_label n.
Proof.
  intros H (n & Hn & Hl). apply (af_grows _ _ H) in Hn as (n' & Hn' & Hg). exists n'. split; [done|].
  unfold is_label in *. destruct Hg as (-> & _). done.
Qed.

Lemma label_ne_zero b l : bwf b → (∃ n, nodes b !! l = Some n ∧ is_label n) → l ≠ unreachableFlow.
Proof.
  intros Hb (n & Hn & Hl) ->. rewrite (bw_zero _ Hb) in Hn. injection Hn as <-. by destruct Hl.
Qed.

(** ** Where a symbol was last assigned *)

Lemma at_key_extend o la sym s :
  at_key (extend_last o la sym) s = if decide (s = sym) then Z.max (at_key la s) o else at_key la s.
Proof.
  unfold extend_last. destruct (Z.ltb_spec (at_key la sym) o) as [Hlt|Hge].
  - unfold at_key at 1. destruct (decide (s = sym)) as [->|Hne]; [rewrite lookup_insert_eq; lia|by rewrite lookup_insert_ne].
  - case_decide; subst; lia.
Qed.

(** Positions only move on. *)
Lemma at_key_extends o la syms s :
  at_key la s ≤ at_key (foldl (extend_last o) la syms) s
  ∧ (s ∈ syms → o ≤ at_key (foldl (extend_last o) la syms) s).
Proof.
  revert la. induction syms as [|sym syms IH]; intros la; cbn [foldl].
  { split; [done|by intros ?%elem_of_nil]. }
  destruct (IH (extend_last o la sym)) as [Hle Hin]. rewrite at_key_extend in Hle. split.
  - case_decide; lia.
  - intros [->|Hs]%elem_of_cons; [|by apply Hin]. rewrite decide_True in Hle by done. lia.
Qed.

Lemma at_key_extends_le o m la syms :
  o ≤ m → (∀ s, at_key la s ≤ m) → ∀ s, at_key (foldl (extend_last o) la syms) s ≤ m.
Proof.
  intros Ho. revert la. induction syms as [|sym syms IH]; intros la Hla; [done|].
  apply IH. intros s. rewrite at_key_extend. pose proof (Hla s). case_decide; lia.
Qed.

Lemma extend_first_assigned decl sym ss ss' s :
  extend_first decl sym ss = Some ss' →
  (s = sym ∨ Exists (λ f, s ∈ assigned f) ss) → Exists (λ f, s ∈ assigned f) ss'.
Proof.
  revert ss'. induction ss as [|f ss IH]; intros ss' Hx Hs; [done|]. cbn in Hx.
  destruct (decl <? fstart f).
  - injection Hx as <-. destruct Hs as [->|[Hs|Hs]%Exists_cons].
    + apply Exists_cons_hd. cbn. apply elem_of_app. right. by apply elem_of_cons; left.
    + apply Exists_cons_hd. cbn. apply elem_of_app. by left.
    + by apply Exists_cons_tl.
  - destruct (extend_first decl sym ss) as [ss1|] eqn:He; [|done]. injection Hx as <-.
    destruct Hs as [->|[Hs|Hs]%Exists_cons].
    + apply Exists_cons_tl, IH; [done|by left].
    + by apply Exists_cons_hd.
    + apply Exists_cons_tl, IH; [done|by right].
Qed.

Section ops.
Context {X : Empty_set → builder → Prop}.

Lemma wp_alloc b n (Q : nat → builder → Prop) :
  bwf b → fnode_ok (nodes b) n →
  (let b' := set_nodes (nodes b ++ [n]) b in after b b' → nodes b' !! length (nodes b) = Some n → Q (length (nodes b)) b') →
  wp (alloc n) Q X b.
Proof.
  intros [Hbn Hz Hns Hfl Ht Ho] Hn HQ. unfold wp, alloc. apply HQ; [|cbn; by rewrite list_lookup_middle].
  assert (∀ f m, nodes b !! f = Some m → (nodes b ++ [n]) !! f = Some m) as Hl by (intros; by apply lookup_app_l_Some).
  assert (length (nodes b) ≤ length (nodes b ++ [n]))%nat by (rewrite length_app; lia).
  constructor; cbn; try done; [|intros f m Hm; exists m; split; [by apply Hl|by split_and!]|by intros s o].
  constructor; cbn; [done|by apply Hl| |lia| |done].
  - intros f m Hne Hm. eapply fnode_ok_mono; [done|]. apply lookup_app_Some in Hm as [Hm|[_ Hm]]; [by eapply Hns|].
    by apply list_lookup_singleton_Some in Hm as [_ <-].
  - eapply Forall_impl; [exact Ht|]. intros t (m & Hm & ?). exists m. split; [by apply Hl|done].
Qed.

Lemma wp_addAntecedent b l f (Q : unit → builder → Prop) :
  bwf b → (∃ n, nodes b !! l = Some n ∧ is_label n) → (∀ f', f = Some f' → (f' < length (nodes b))%nat) →
  (∀ b', after b b' → flow b' = flow b →
     (∀ n, nodes b !! l = Some n → ∃ n', nodes b' !! l = Some n' ∧
        Antecedents n' = (match f with
          | Some f => if decide (f = unreachableFlow ∨ f ∈ Antecedents n) then Antecedents n else Antecedents n ++ [f]
          | None => Antecedents n end)) → Q tt b') →
  wp (addAntecedent l f) Q X b.
Proof.
  intros Hb Hl Hf HQ. unfold addAntecedent. destruct f as [f|]; [|wp_steps; apply HQ; [by apply after_refl|done|eauto]].
  specialize (Hf f eq_refl). destruct (Nat.eqb_spec f unreachableFlow) as [->|Hne]; wp_steps.
  { apply HQ; [by apply after_refl|done|]. intros n Hn. exists n. rewrite decide_True by (by left). done. }
  pose proof (label_ne_zero b l Hb Hl) as Hl0. destruct Hl as (n & Hn & Hlab).
  assert (Antecedents (add_to f n) = if decide (f = unreachableFlow ∨ f ∈ Antecedents n) then Antecedents n else Antecedents n ++ [f]) as Hadd.
  { unfold add_to. case_bool_decide; [by rewrite decide_True by (by right)|by rewrite decide_False by tauto]. }
  apply HQ; [|done|].
  2: { intros n' Hn'. assert (n' = n) as -> by congruence. exists (add_to f n). split; [|exact Hadd].
       cbn. by rewrite list_lookup_alter_eq, Hn. }
  assert (node_grows n (add_to f n)) as Hgr.
  { unfold add_to. case_bool_decide; [by split_and!|]. split_and!; try done. by apply prefix_app_r. }
  assert (∀ i m, nodes b !! i = Some m → ∃ m', alter (add_to f) l (nodes b) !! i = Some m' ∧ node_grows m m') as Hal.
  { intros i m Hm. destruct (decide (i = l)) as [->|Hi].
    - exists (add_to f n). rewrite list_lookup_alter_eq, Hn. by assert (m = n) as -> by congruence.
    - exists m. rewrite list_lookup_alter_ne by done. by split_and!. }
  constructor; cbn; try done; [|by intros s o]. destruct Hb as [Hbn Hz Hns Hfl Ht Ho]. constructor; cbn; rewrite ?length_alter; try done.
  - by rewrite list_lookup_alter_ne.
  - intros i m Hi Hm. apply (fnode_ok_mono (nodes b)); [by rewrite length_alter|].
    destruct (decide (i = l)) as [->|Hil]; [|rewrite list_lookup_alter_ne in Hm by done; by eapply Hns].
    rewrite list_lookup_alter_eq, Hn in Hm. injection Hm as <-. destruct (Hns l n Hl0 Hn) as [Ha Hs Hnd _ Hlive Hshape].
    unfold add_to in *. case_bool_decide as Hin; [by constructor|]. constructor; cbn; try done.
    + apply Forall_app. by repeat constructor.
    + apply NoDup_app. split_and!; [done| |apply NoDup_singleton]. by intros x Hx ->%list_elem_of_singleton.
    + revert Hshape. unfold node_shape. cbn. rewrite bool_decide_true; [done|]. by destruct Hlab as [->| ->]; [left|right; left].
  - eapply Forall_impl; [exact Ht|]. intros t (m & Hm & Hml). apply Hal in Hm as (m' & Hm' & Hg).
    exists m'. split; [done|]. unfold is_label in *. by destruct Hg as (-> & _).
Qed.

(** The live paths of a list, each once, in order of first occurrence. *)
Definition add_path (ps : list nat) (f : nat) : list nat :=
  if decide (f = unreachableFlow ∨ f ∈ ps) then ps else ps ++ [f].

Lemma wp_addAntecedents b l fs (Q : unit → builder → Prop) n :
  bwf b → nodes b !! l = Some n → is_label n → Forall (λ f, (f < length (nodes b))%nat) fs →
  (∀ b' n', after b b' → flow b' = flow b → nodes b' !! l = Some n' → is_label n' →
     Antecedents n' = foldl add_path (Antecedents n) fs → Q tt b') →
  wp (addAntecedents l fs) Q X b.
Proof.
  intros Hb Hn Hl Hfs HQ. revert b n Hb Hn Hl Hfs HQ. induction fs as [|f fs IH]; intros b n Hb Hn Hl Hfs HQ; cbn [addAntecedents].
  { wp_steps. by apply (HQ b n); [apply after_refl|..]. }
  apply Forall_cons in Hfs as [Hf Hfs]. wp_steps.
  apply wp_addAntecedent; [done|by exists n|by intros ? [= <-]|]. intros b' Haf Hfl Hn'.
  destruct (Hn' n Hn) as (n' & Hn'' & Hants).
  assert (is_label n') as Hl'.
  { destruct (after_label b b' l Haf) as (n0 & Hn0 & ?); [by exists n|]. by assert (n0 = n') as <- by congruence. }
  eapply (IH b' n'); [apply Haf|done|done|by eapply Forall_lt_after|].
  intros b'' n'' Haf' Hfl' Hn3 Hl3 Hants'. eapply HQ; [by eapply after_trans|congruence|done|done|].
  rewrite Hants', Hants. done.
Qed.

Lemma plain_ok g flags :
  live (plain_node flags None) → node_shape (plain_node flags None) = true → fnode_ok g (plain_node flags None).
Proof. constructor; cbn; try done; constructor. Qed.

Lemma wp_newLabel b flags fs (Q : nat → builder → Prop) :
  bwf b → flags = FlowBranchLabel ∨ flags = FlowLoopLabel → Forall (λ f, (f < length (nodes b))%nat) fs →
  (∀ l b' n, after b b' → flow b' = flow b → l ≠ unreachableFlow → nodes b' !! l = Some n → FFlags n = flags →
     Antecedents n = foldl add_path [] fs → Q l b') →
  wp (newLabel flags fs) Q X b.
Proof.
  intros Hb Hfl Hfs HQ. unfold newLabel. wp_steps.
  apply wp_alloc; [done|by apply plain_ok; destruct Hfl as [-> | ->]|]. intros b1 Haf Hnew. wp_steps.
  eapply wp_addAntecedents; [apply Haf|exact Hnew|done|by eapply Forall_lt_after|].
  intros b2 n Haf' Hflow Hn Hlab Hants. wp_steps.
  assert (FFlags n = flags) as Hflags.
  { destruct (af_grows _ _ Haf' _ _ Hnew) as (n' & Hn' & Hg). assert (n' = n) as -> by congruence. by destruct Hg as (-> & _). }
  eapply HQ; [by eapply after_trans|done| |done|done|done].
  eapply label_ne_zero; [apply Haf|]. eexists. split; [exact Hnew|]. done.
Qed.

(** [finish]: the label, or [unreachableFlow] when it has no predecessor. *)
Lemma wp_finish b l n (Q : nat → builder → Prop) :
  nodes b !! l = Some n → Q (if decide (Antecedents n = []) then unreachableFlow else l) b → wp (finish l) Q X b.
Proof.
  intros Hn HQ. unfold finish, flow_node. wp_steps. eapply wp_index; [done|]. wp_steps.
  destruct (Antecedents n); [by rewrite decide_True in HQ|by rewrite decide_False in HQ].
Qed.

Lemma wp_join b fs (Q : nat → builder → Prop) :
  bwf b → Forall (λ f, (f < length (nodes b))%nat) fs →
  (∀ l b' n, after b b' → flow b' = flow b → l ≠ unreachableFlow → nodes b' !! l = Some n → FFlags n = FlowBranchLabel →
     Antecedents n = foldl add_path [] fs →
     Q (if decide (foldl add_path [] fs = []) then unreachableFlow else l) b') →
  wp (join fs) Q X b.
Proof.
  intros Hb Hfs HQ. unfold join. wp_steps. apply wp_newLabel; [done|by left|done|].
  intros l b' n Haf Hfl Hl Hn Hflags Hants. eapply wp_finish; [done|]. rewrite Hants. by eapply HQ.
Qed.
End ops.

(** ** Assignments, conditions, scopes *)

Section ops2.
Context {X : Empty_set → builder → Prop}.

Lemma wp_ask {A} (q : BindM A) b (Q : A → builder → Prop) :
  wp q (λ a _, Q a b) (λ _ _, False) (bnd b) → wp (ask q) Q X b.
Proof. unfold wp, ask. destruct (q (bnd b)) as [[| | |] ?]; done. Qed.

(** The homes of a scope exist. *)
Lemma wp_containerOf bd s (Q : nat → binder → Prop) Y :
  wf bd → (s < length (scopes bd))%nat → (∀ t, (t < length (scopes bd))%nat → Q t bd) → wp (containerOf s) Q Y bd.
Proof.
  intros Hwf Hs HQ. unfold containerOf. apply wp_outward; [done|done| |].
  - intros r sc Hp Hr. pose proof (module_root bd r sc Hwf Hp Hr) as Hm.
    destruct (wf_scopes _ Hwf _ _ Hr) as [_ _ _ Hi]. unfold is_scope. rewrite Hm in *. cbn.
    destruct (Inline sc); [by specialize (Hi eq_refl)|done].
  - intros t sc Ht _ _. apply HQ. by eapply lookup_lt_Some.
Qed.

Lemma wp_functionOf bd s (Q : nat → binder → Prop) Y :
  wf bd → (s < length (scopes bd))%nat → (∀ t, (t < length (scopes bd))%nat → Q t bd) → wp (functionOf s) Q Y bd.
Proof.
  intros Hwf Hs HQ. unfold functionOf. apply wp_outward; [done|done| |].
  - intros r sc Hp Hr. unfold is_scope. by rewrite (module_root bd r sc Hwf Hp Hr).
  - intros t sc Ht _ _. apply HQ. by eapply lookup_lt_Some.
Qed.

(** An operation that leaves the graph and the scopes alone. *)
Definition same_graph (b b' : builder) : Prop :=
  bnd b' = bnd b ∧ nodes b' = nodes b ∧ flow b' = flow b ∧ exceptionTargets b' = exceptionTargets b
  ∧ container b' = container b ∧ fnScope b' = fnScope b ∧ storing b' = storing b ∧ covers b b'
  ∧ ord b' = ord b ∧ ((∀ s, at_key (lastAssign b) s ≤ maxOrd) → ∀ s, at_key (lastAssign b') s ≤ maxOrd).

Ltac same_graph_tac := unfold same_graph, covers; split_and!; try done; by intros.

Lemma same_graph_after b b' : bwf b → same_graph b b' → after b b'.
Proof.
  intros [? ? ? ? ? [? ?]] (Hb & Hn & Hf & Ht & Hc & Hfs & _ & Hcov & Ho & Hla). constructor; [|by rewrite Hn|done..].
  constructor; rewrite ?Hb, ?Hn, ?Hf, ?Ht, ?Ho; auto.
Qed.

Lemma wp_note_foreign b sym (Q : unit → builder → Prop) :
  bwf b → (∀ s, sym = Some s → (s < length (symbols (bnd b)))%nat) →
  (∀ b', same_graph b b' → Q tt b') → wp (note_foreign sym) Q X b.
Proof.
  intros Hb Hs HQ. destruct sym as [id|]; cbn [note_foreign]; [|wp_steps; apply HQ; same_graph_tac].
  specialize (Hs id eq_refl). wp_steps. apply wp_ask, wp_symbol; [done|]. intros s Hsym.
  destruct (wf_scoped _ (bw_bnd _ Hb) _ _ Hsym) as (sc & Hsc & Hlt). rewrite Hsc.
  destruct (container b) as [c|] eqn:Hc; [|wp_steps; apply HQ; same_graph_tac]. wp_steps.
  apply wp_ask, wp_containerOf; [apply Hb|done|]. intros home _.
  case_bool_decide; wp_steps; apply HQ; same_graph_tac.
Qed.

Lemma wp_markAssignment b id (Q : unit → builder → Prop) :
  bwf b → (id < length (symbols (bnd b)))%nat → (∀ b', same_graph b b' → covered b' id (ord b) → Q tt b') →
  wp (markAssignment id) Q X b.
Proof.
  intros Hb Hid HQ. unfold markAssignment. wp_steps. apply wp_ask, wp_symbol; [done|]. intros s Hsym.
  destruct (wf_scoped _ (bw_bnd _ Hb) _ _ Hsym) as (sc & Hsc & Hlt). wp_steps. rewrite Hsc.
  apply wp_ask. cbn [deref]. wp_steps. apply wp_ask, wp_functionOf; [apply Hb|done|]. intros home _.
  pose proof (bw_ord _ Hb) as [Hord Hmaxla].
  assert (∀ o, ord b ≤ o ≤ maxOrd → (o = maxOrd ∨ at_key (lastAssign b) id < o) →
    let b' := set_ord (ord b) (stmts b) (<[id := o]> (lastAssign b)) b in same_graph b b' ∧ covered b' id (ord b)) as Hset.
  { intros o Ho Hmax b'. assert (at_key (lastAssign b') id = o) as Hk by (unfold at_key; cbn; by rewrite lookup_insert_eq).
    assert (∀ s', s' ≠ id → at_key (lastAssign b') s' = at_key (lastAssign b) s') as Hne
      by (intros s' Hs'; unfold at_key; cbn; by rewrite lookup_insert_ne).
    split; [|left; lia]. unfold same_graph. split_and!; try done.
    - intros s' o' [Hle|Hex]; [left|by right].
      destruct (decide (s' = id)) as [->|Hs']; [pose proof (Hmaxla id); lia|by rewrite Hne].
    - intros _ s'. destruct (decide (s' = id)) as [->|Hs']; [lia|by rewrite Hne]. }
  case_bool_decide; cbn [negb]; [|wp_steps; destruct (Hset maxOrd); [lia|by left|by apply HQ]].
  destruct (extend_first _ _ _) as [ss|] eqn:He; wp_steps.
  { apply HQ.
    - unfold same_graph. split_and!; try done. intros s' o' [Hle|[Hle Hex]]; [by left|right; split; [done|]].
      eapply extend_first_assigned; [done|by right].
    - right. split; [done|]. eapply extend_first_assigned; [done|by left]. }
  destruct (Z.ltb_spec (at_key (lastAssign b) id) (ord b)); wp_steps.
  - destruct (Hset (ord b)); [lia|by right|by apply HQ].
  - apply HQ; [same_graph_tac|by left].
Qed.

(** The flow goes on at a new node that follows it. *)
Lemma wp_flow_node b n (Q : unit → builder → Prop) :
  bwf b → Antecedent n = Some (flow b) → flow b ≠ unreachableFlow → Antecedents n = [] → live n → node_shape n = true →
  (∀ b', after b b' → flow b' = length (nodes b) → nodes b' !! flow b' = Some n → Q tt b') →
  wp (f ← alloc n; modify (set_flow f)) Q X b.
Proof.
  intros Hb Ha Hf Has Hl Hsh HQ. wp_steps. apply wp_alloc; [done| |].
  { constructor; rewrite ?Has; try done; [|constructor..].
    intros p Hp. assert (p = flow b) as -> by congruence. split; [done|apply Hb]. }
  intros b' Haf Hnew. wp_steps. apply HQ; [|done|done].
  destruct Haf as [[? ? ? ? ? ?] ? ? ? ? ?]. constructor; cbn; try done. constructor; try done.
  cbn. rewrite length_app. cbn. lia.
Qed.

Lemma wp_add_to_targets b ts f (Q : unit → builder → Prop) :
  bwf b → Forall (λ t, ∃ n, nodes b !! t = Some n ∧ is_label n) ts → (f < length (nodes b))%nat →
  (∀ b', after b b' → flow b' = flow b → Q tt b') → wp (add_to_targets ts f) Q X b.
Proof.
  intros Hb Hts Hf HQ. revert b Hb Hts Hf HQ. induction ts as [|t ts IH]; intros b Hb Hts Hf HQ; cbn [add_to_targets].
  { wp_steps. apply HQ; [by apply after_refl|done]. }
  apply Forall_cons in Hts as [Ht Hts]. wp_steps.
  apply wp_addAntecedent; [done|done|by intros ? [= <-]|]. intros b' Haf Hfl _.
  apply IH; [apply Haf| | |].
  - eapply Forall_impl; [exact Hts|]. intros x Hx. by eapply after_label.
  - pose proof (after_len _ _ Haf). lia.
  - intros b'' Haf' Hfl'. apply HQ; [by eapply after_trans|congruence].
Qed.

(** [assignFlow]: on a live path the flow goes on at an assignment node; a
    store that counts as an assignment is accounted for. *)
Definition assigned_flow (b : builder) (s : nat) (init assign : bool) (b' : builder) : Prop :=
  (if flowing b && negb (flow b =? unreachableFlow)%nat
   then ∃ n, nodes b' !! flow b' = Some n ∧ Antecedent n = Some (flow b) ∧ FFlags n = FlowAssignment
             ∧ FSymbol n = Some s ∧ FInit n = init ∧ FAssign n = assign ∧ FNode n = storing b
   else flow b' = flow b)
  ∧ (flowing b = true → init = false → assign = true → covered b' s (ord b)).

Lemma wp_assignFlow b sym init assign (Q : unit → builder → Prop) :
  bwf b → (∀ s, sym = Some s → (s < length (symbols (bnd b)))%nat) →
  (∀ b', after b b' → match sym with Some s => assigned_flow b s init assign b' | None => flow b' = flow b end → Q tt b') →
  wp (assignFlow sym init assign) Q X b.
Proof.
  intros Hb Hs HQ. unfold assignFlow. wp_steps. apply wp_note_foreign; [done|done|]. intros b1 Hsg1.
  pose proof (same_graph_after _ _ Hb Hsg1) as Haf1.
  destruct Hsg1 as (Hbd1 & _ & Hfl1 & _ & _ & _ & Hst1 & _ & Ho1 & _). wp_steps.
  destruct sym as [id|]; [|wp_steps; by apply HQ]. specialize (Hs id eq_refl). unfold assigned_flow in HQ.
  assert (flowing b1 = flowing b) as Hflow by (unfold flowing; by rewrite Hbd1). rewrite Hflow in *.
  destruct (flowing b) eqn:Hfw; cbn [negb andb] in *; [|wp_steps; by apply HQ]. wp_steps.
  set (b2 := set_stores _ _ b1). assert (after b1 b2) as Haf2 by (apply same_graph_after; [apply Haf1|same_graph_tac]).
  assert (∀ b3, same_graph b2 b3 → (init = false → assign = true → covered b3 id (ord b)) → wp (b ← get;
      if (flow b =? unreachableFlow)%nat then mret tt
      else f ← alloc (mkFlowNode FlowAssignment (Some (flow b)) [] None (Some id) (storing b) 0 init assign None);
        modify (set_flow f) ≫= λ _, add_to_targets (exceptionTargets b) f) Q X b3) as Hrest.
  { intros b3 Hsg Hcov. pose proof (same_graph_after _ _ (af_wf _ _ Haf2) Hsg) as Haf3.
    destruct Hsg as (_ & _ & Hfl3 & _ & _ & _ & Hst3 & _). cbn in Hfl3, Hst3.
    assert (after b b3) as Haf by (do 2 (eapply after_trans; [done|]); done).
    assert (flow b3 = flow b) as Hfl by congruence. assert (storing b3 = storing b) as Hst by congruence.
    rewrite <-Hst, <-Hfl in HQ. wp_steps. destruct (Nat.eqb_spec (flow b3) unreachableFlow) as [He|Hne]; cbn [negb] in *; wp_steps.
    { apply HQ; [done|]. by split; [|intros _]. }
    rewrite Hst. apply wp_alloc; [apply Haf3|constructor; cbn; try done; [|constructor..]|].
    { intros p [= <-]. split; [done|apply Haf3]. }
    intros b4 Haf4 Hnew. wp_steps.
    assert (after b4 (set_flow (length (nodes b3)) b4)) as Haf5.
    { destruct (af_wf _ _ Haf4) as [? ? ? ? ? ?]. constructor; cbn; try done; [|by intros ??]. constructor; try done.
      cbn. by eapply lookup_lt_Some. }
    apply wp_add_to_targets; [apply Haf5|rewrite <-(af_targets _ _ Haf4); apply Haf5|cbn; by eapply lookup_lt_Some|].
    intros b5 Haf6 Hfl5.
    assert (after b3 b5) as Haf7 by (eapply after_trans; [exact Haf4|]; by eapply after_trans).
    apply HQ; [by eapply after_trans|]. split; [|intros _ ? ?; apply (af_covers _ _ Haf7); auto].
    destruct (af_grows _ _ Haf6 _ _ Hnew) as (n & Hn & Hg). cbn in Hfl5. rewrite Hfl5. exists n.
    split; [done|]. destruct Hg as (G1 & G2 & G3 & G4 & G5 & G6 & G7 & G8 & _). cbn in *. split_and!; congruence. }
  destruct init; [wp_steps; apply Hrest; [same_graph_tac|done]|].
  destruct assign; [|wp_steps; apply Hrest; [same_graph_tac|done]].
  apply wp_markAssignment; [apply Haf2|cbn; by rewrite Hbd1|]. intros b3 Hsg Hcov.
  apply Hrest; [done|]. intros _ _. cbn in Hcov. by rewrite <-Ho1.
Qed.
End ops2.

(** ** Branches, scopes, statements *)

(** A branch of a live path is a node of its own that follows it; a dead path,
    or the declaring pass, gives the path back. *)
Definition branch_of (b : builder) (f : nat) (flags : Z) (node : option Node) (clause : Z) (r : nat) (b' : builder) : Prop :=
  if flowing b && negb (f =? unreachableFlow)%nat
  then ∃ n, nodes b' !! r = Some n ∧ r ≠ unreachableFlow ∧ FFlags n = flags ∧ Antecedent n = Some f
            ∧ FNode n = node ∧ Clause n = clause ∧ Antecedents n = []
  else r = f ∧ b' = b.

Section ops3.
Context {X : Empty_set → builder → Prop}.

Lemma after_set_flow b f : bwf b → (f < length (nodes b))%nat → after b (set_flow f b).
Proof. intros [? ? ? ? ? ?] Hf. constructor; cbn; [by constructor|done..|by intros ??]. Qed.

Lemma wp_branch b f n (Q : nat → builder → Prop) :
  bwf b → (f < length (nodes b))%nat → Antecedent n = Some f → Antecedents n = [] → live n → node_shape n = true →
  (∀ r b', after b b' → flow b' = flow b → (r < length (nodes b'))%nat →
     branch_of b f (FFlags n) (FNode n) (Clause n) r b' → Q r b') →
  wp (if negb (flowing b) || (f =? unreachableFlow)%nat then mret f else alloc n) Q X b.
Proof.
  intros Hb Hf Ha Has Hl Hsh HQ. unfold branch_of in HQ.
  destruct (flowing b), (Nat.eqb_spec f unreachableFlow) as [He|Hne]; cbn [negb orb andb] in *;
    try (wp_steps; by apply HQ; [apply after_refl|..]).
  apply wp_alloc; [done| |].
  { constructor; rewrite ?Has; try done; [|constructor..]. intros p Hp. by assert (p = f) as -> by congruence. }
  intros b' Haf Hnew. apply HQ; [done|done|by eapply lookup_lt_Some|]. exists n. split; [done|]. split; [|done].
  pose proof (lookup_lt_Some _ _ _ (bw_zero _ Hb)). unfold unreachableFlow in *. lia.
Qed.

Lemma wp_switchClause b f sw clause (Q : nat → builder → Prop) :
  bwf b → (f < length (nodes b))%nat →
  (∀ r b', after b b' → flow b' = flow b → (r < length (nodes b'))%nat →
     branch_of b f FlowSwitchClause (Some sw) clause r b' → Q r b') →
  wp (switchClause f sw clause) Q X b.
Proof. intros Hb Hf HQ. unfold switchClause. wp_steps. by apply wp_branch. Qed.

Lemma wp_condition b f cond (truthy : bool) (Q : nat → builder → Prop) :
  bwf b → (f < length (nodes b))%nat →
  (∀ r b', after b b' → flow b' = flow b → (r < length (nodes b'))%nat →
     match cond with
     | None => r = f ∧ b' = b
     | Some _ => branch_of b f (if truthy then FlowTrueCondition else FlowFalseCondition) cond 0 r b'
     end → Q r b') →
  wp (condition f cond truthy) Q X b.
Proof.
  intros Hb Hf HQ. unfold condition. wp_steps.
  destruct cond as [c|]; [|wp_steps; by apply HQ; [apply after_refl|..]].
  apply wp_branch; try done; by destruct truthy.
Qed.

Lemma wp_scopeStartFlow b s (Q : unit → builder → Prop) :
  bwf b → (∀ b', after b b' → Q tt b') → wp (scopeStartFlow s) Q X b.
Proof.
  intros Hb HQ. unfold scopeStartFlow. wp_steps.
  destruct (negb (flowing b) || _) eqn:He; [wp_steps; by apply HQ, after_refl|].
  apply orb_false_iff in He as [_ Hne%Nat.eqb_neq]. by apply wp_flow_node; [..|intros; apply HQ].
Qed.

Lemma wp_unreachable b (Q : unit → builder → Prop) :
  bwf b → (∀ b', after b b' → flow b' = (if flowing b then unreachableFlow else flow b) → Q tt b') →
  wp unreachable Q X b.
Proof.
  intros Hb HQ. unfold unreachable. wp_steps. destruct (flowing b); wp_steps; apply HQ; try done; [|by apply after_refl..].
  apply after_set_flow; [done|]. eapply lookup_lt_Some, Hb.
Qed.

Lemma wp_enterStmt b extends (Q : unit → builder → Prop) :
  bwf b → ord b < maxOrd → (∀ b', after b b' → ord b' = ord b + 1 → Q tt b') → wp (enterStmt extends) Q X b.
Proof.
  intros Hb Ho HQ. unfold enterStmt. wp_steps. apply HQ; [|done].
  destruct Hb as [? ? ? ? ? [? ?]]. constructor; cbn; try done.
  - constructor; cbn; try done. split; [lia|done].
  - intros s o [?|[? Hex]]; [by left|right]. cbn. split; [lia|].
    destruct extends; [apply Exists_app; by left|done].
Qed.

(** [leaveStmt]: what was assigned in the statement is assigned at its end. *)
Lemma wp_leaveStmt b t ss (Q : unit → builder → Prop) :
  bwf b → stmts b = ss ++ [t] →
  (∀ b', after b b' → ord b' = ord b → stmts b' = ss →
     (∀ s, at_key (lastAssign b) s ≤ at_key (lastAssign b') s) →
     (∀ s, s ∈ assigned t → ord b ≤ at_key (lastAssign b') s) → Q tt b') →
  wp leaveStmt Q X b.
Proof.
  intros Hb Hss HQ. unfold leaveStmt. wp_steps. rewrite Hss, last_snoc. wp_steps.
  pose proof (at_key_extends (ord b) (lastAssign b) (assigned t)) as Hx.
  assert (take (length (ss ++ [t]) - 1) (ss ++ [t]) = ss) as Htake.
  { rewrite length_app. cbn. replace (length ss + 1 - 1)%nat with (length ss) by lia. apply take_app_length. }
  apply HQ; cbn [ord stmts lastAssign set_ord]; [|done|by rewrite Hss, Htake|intros s; apply Hx|intros s; apply Hx].
  destruct Hb as [? ? ? ? ? [? ?]]. constructor; cbn; try done.
  - constructor; cbn; try done. split; [done|]. by apply at_key_extends_le.
  - intros s o [?|[? Hex]].
    + left. cbn. destruct (Hx s). lia.
    + rewrite Hss in Hex. apply Exists_app in Hex as [Hex|[Hin|Hex%Exists_nil]%Exists_cons]; [| |done].
      * right. cbn. by rewrite Hss, Htake.
      * left. cbn. destruct (Hx s) as [_ Hs]. specialize (Hs Hin). lia.
Qed.
End ops3.


(** ** The builder as a state machine *)

Inductive fop :=
  | OpBinder (o : op)
  | OpLabel (flags : Z) (fs : list nat)
  | OpAdd (l f : nat)
  | OpFinish (l : nat)
  | OpJoin (fs : list nat)
  | OpAssign (sym : option SymId) (init assign : bool)
  | OpCondition (f : nat) (cond : option Node) (truthy : bool)
  | OpSwitch (f : nat) (sw : Node) (clause : Z)
  | OpScope (s : ScopeId)
  | OpDead
  | OpEnter (extends : bool)
  | OpLeave
  | OpFunction (s : ScopeId) (outer : option nat).

Definition run_fop (o : fop) : FlowM unit :=
  match o with
  | OpBinder o => lift (run_op o)
  | OpLabel flags fs => newLabel flags fs ≫= λ _, mret tt
  | OpAdd l f => addAntecedent l (Some f)
  | OpFinish l => f ← finish l; modify (set_flow f)
  | OpJoin fs => f ← join fs; modify (set_flow f)
  | OpAssign sym init assign => assignFlow sym init assign
  | OpCondition f cond truthy => f ← condition f cond truthy; modify (set_flow f)
  | OpSwitch f sw clause => f ← switchClause f sw clause; modify (set_flow f)
  | OpScope s => scopeStartFlow s
  | OpDead => unreachable
  | OpEnter extends => enterStmt extends
  | OpLeave => leaveStmt
  | OpFunction s outer =>
      f ← alloc (mkFlowNode FlowStart None [] (Some s) None None 0 false false outer);
      modify (λ b, set_walk f (Some s) (Some s) [] (storing b) b)
  end.

(** When the traversal performs it: its pointers are to nodes, symbols and
    labels there are, a statement it leaves is open, and it visits fewer nodes
    than an int counts. *)
Definition fallowed (o : fop) (b : builder) : Prop :=
  let node f := (f < length (nodes b))%nat in
  let label l := ∃ n, nodes b !! l = Some n ∧ is_label n in
  match o with
  | OpBinder o => allowed o (bnd b)
  | OpLabel flags fs => (flags = FlowBranchLabel ∨ flags = FlowLoopLabel) ∧ Forall node fs
  | OpAdd l f => label l ∧ node f
  | OpFinish l => label l
  | OpJoin fs => Forall node fs
  | OpAssign sym _ _ => ∀ s, sym = Some s → (s < length (symbols (bnd b)))%nat
  | OpCondition f _ _ | OpSwitch f _ _ => node f
  | OpEnter _ => ord b < maxOrd
  | OpLeave => stmts b ≠ []
  | OpScope _ | OpDead | OpFunction _ _ => True
  end.

(** The stores that count as assignments an operation makes, with their
    position. *)
Definition marks (o : fop) (b : builder) : list (SymId * Z) :=
  match o with
  | OpAssign (Some s) false true => if flowing b then [(s, ord b)] else []
  | _ => []
  end.

Definition fstart_state (annexB : bool) : builder :=
  mkBuilder (start annexB) [unreachable_node] unreachableFlow None None [] None 0 [] ∅ ∅ ∅ ∅.

(** Reachable states, with the assignments made on the way. *)
Inductive freachable (annexB : bool) : builder → list (SymId * Z) → Prop :=
  | freach_start : freachable annexB (fstart_state annexB) []
  | freach_op o b b' log : freachable annexB b log → fallowed o b → run_fop o b = (Ok tt, b') →
      freachable annexB b' (log ++ marks o b)
  | freach_mode d p i ip bs ps ns b log : freachable annexB b log →
      freachable annexB (set_bnd (set_mode d p i ip bs ps ns (bnd b)) b) log
  | freach_cur s b log : freachable annexB b log → (∀ x, s = Some x → (x < length (scopes (bnd b)))%nat) →
      freachable annexB (set_bnd (set_cur s (bnd b)) b) log
  | freach_walk f c fs ts st b log : freachable annexB b log → (f < length (nodes b))%nat →
      Forall (λ t, ∃ n, nodes b !! t = Some n ∧ is_label n) ts →
      freachable annexB (set_walk f c fs ts st b) log.

(** What every step guarantees. *)
Record steps_to (b b' : builder) : Prop := {
  st_wf : bwf b';
  st_graph : graph_grows (nodes b) (nodes b');
  st_bnd : grows (bnd b) (bnd b');
  st_covers : covers b b' }.

Lemma after_steps b b' : after b b' → steps_to b b'.
Proof. intros [? ? Hb ? ? ?]. constructor; try done. by rewrite Hb. Qed.

Lemma set_bnd_steps b bd : bwf b → wf bd → grows (bnd b) bd → steps_to b (set_bnd bd b).
Proof. intros [? ? ? ? ? ?] Hbd Hg. constructor; cbn; [by constructor|done|done|by intros ??]. Qed.

Section machine.
Let X : Empty_set → builder → Prop := λ _ _, False.

Lemma wp_lift (m : BindM unit) b (Q : unit → builder → Prop) :
  wp m (λ _ bd, Q tt (set_bnd bd b)) (λ _ _, False) (bnd b) → wp (lift m) Q X b.
Proof. unfold wp, lift. by destruct (m (bnd b)) as [[[]| | |] bd]. Qed.

Lemma set_flow_steps b b' f : after b b' → (f < length (nodes b'))%nat → steps_to b (set_flow f b').
Proof. intros Haf Hf. apply after_steps. eapply after_trans; [done|]. by apply after_set_flow; [apply Haf|]. Qed.

Lemma fop_steps o b :
  bwf b → fallowed o b →
  wp (run_fop o) (λ _ b', steps_to b b' ∧ Forall (λ m, covered b' m.1 m.2) (marks o b)) X b.
Proof.
  intros Hb Ha. destruct o as [o|flags fs|l f|l|fs|sym init assign|f cond truthy|f sw clause|s| |extends| |s outer];
    cbn [run_fop fallowed marks] in *.
  - apply wp_lift. eapply wp_mono; [apply run_op_wf; [apply Hb|done]| |done]. intros _ bd [Hwf Hg].
    split; [by apply set_bnd_steps|done].
  - destruct Ha as [Hfl Hfs]. wp_steps. apply wp_newLabel; [done..|]. intros l b' n Haf _ _ _ _ _. wp_steps.
    split; [by apply after_steps|done].
  - destruct Ha as [Hl Hf]. apply wp_addAntecedent; [done|done|by intros ? [= <-]|]. intros b' Haf _ _.
    split; [by apply after_steps|done].
  - destruct Ha as (n & Hn & _). wp_steps. eapply wp_finish; [done|]. wp_steps.
    split; [|done]. apply set_flow_steps; [by apply after_refl|].
    destruct (decide _); [eapply lookup_lt_Some, Hb|by eapply lookup_lt_Some].
  - wp_steps. apply wp_join; [done..|]. intros l b' n Haf _ Hl Hn _ _. wp_steps. split; [|done].
    apply set_flow_steps; [done|]. destruct (decide _); [eapply lookup_lt_Some, (bw_zero _ (af_wf _ _ Haf))|by eapply lookup_lt_Some].
  - apply wp_assignFlow; [done..|]. intros b' Haf Hpost. split; [by apply after_steps|].
    destruct sym as [s|], init, assign; try done. destruct (flowing b) eqn:Hf; [|done].
    apply Forall_singleton. by apply Hpost.
  - wp_steps. apply wp_condition; [done..|]. intros r b' Haf _ Hr _. wp_steps. split; [by apply set_flow_steps|done].
  - wp_steps. apply wp_switchClause; [done..|]. intros r b' Haf _ Hr _. wp_steps. split; [by apply set_flow_steps|done].
  - apply wp_scopeStartFlow; [done|]. intros b' Haf. split; [by apply after_steps|done].
  - apply wp_unreachable; [done|]. intros b' Haf _. split; [by apply after_steps|done].
  - apply wp_enterStmt; [done..|]. intros b' Haf _. split; [by apply after_steps|done].
  - destruct (exists_last Ha) as (ss & t & Hss). eapply wp_leaveStmt; [done..|]. intros b' Haf _ _ _ _.
    split; [by apply after_steps|done].
  - wp_steps. apply wp_alloc; [done|constructor; cbn; try done; constructor|]. intros b' Haf Hnew. wp_steps. split; [|done].
    destruct Haf as [[? ? ? ? ? ?] ? Hbd ? ? ?]. constructor; cbn; [|done..].
    constructor; cbn; try done. by eapply lookup_lt_Some.
Qed.
End machine.

Lemma fstart_wf annexB : bwf (fstart_state annexB).
Proof.
  constructor; cbn [bnd nodes flow exceptionTargets ord lastAssign fstart_state]; [apply start_wf|done| |cbn; unfold unreachableFlow; lia|constructor|by split].
  by intros f n Hf [-> _]%list_lookup_singleton_Some.
Qed.

Lemma freachable_wf annexB b log : freachable annexB b log → bwf b ∧ Forall (λ m, covered b m.1 m.2) log.
Proof.
  induction 1 as [|o b b' log _ [IH Hlog] Ha Hrun|d p i ip bs ps ns b log _ [IH Hlog]|s b log _ [IH Hlog] Hs
                  |f c fs ts st b log _ [IH Hlog] Hf Hts].
  - split; [apply fstart_wf|done].
  - pose proof (fop_steps o b IH Ha) as H. unfold wp in H. rewrite Hrun in H. destruct H as [Hst Hm].
    split; [apply Hst|]. apply Forall_app. split; [|done]. eapply Forall_impl; [exact Hlog|].
    intros m. apply Hst.
  - split; [|done]. destruct IH as [[] ? ? ? ? ?]. by repeat (constructor; cbn; try done).
  - split; [|done]. destruct IH as [[] ? ? ? ? ?]. by repeat (constructor; cbn; try done).
  - split; [|done]. destruct IH. by constructor.
Qed.

Lemma elem_of_add_path ps f x : x ∈ add_path ps f ↔ x ∈ ps ∨ (x = f ∧ f ≠ unreachableFlow).
Proof.
  unfold add_path. case_decide as Hd.
  - destruct Hd as [->|Hd]; split; [by left|intros [?|[? ?]]; done|by left|intros [?|[-> ?]]; done].
  - rewrite elem_of_app, list_elem_of_singleton. tauto.
Qed.

Lemma elem_of_live_paths fs x : x ∈ foldl add_path [] fs ↔ x ∈ fs ∧ x ≠ unreachableFlow.
Proof.
  assert (∀ ps, x ∈ foldl add_path ps fs ↔ x ∈ ps ∨ (x ∈ fs ∧ x ≠ unreachableFlow)) as H.
  { induction fs as [|f fs IH]; intros ps; cbn.
    - split; [by left|]. intros [?|[?%elem_of_nil _]]; done.
    - rewrite IH, elem_of_add_path, elem_of_cons. split; [|intros [?|[[->|?] ?]]; tauto].
      intros [[?|[-> ?]]|?]; tauto. }
  rewrite H. split; [intros [?%elem_of_nil|?]; done|by right].
Qed.
