(* ===== verification/FlowQuery.v ===== *)
(** * The queries of a finished binding *)

From S2P Require Import Prelude GoString Diag Ast Symbols SymbolFacts Flow FlowWalk FlowFacts.
Open Scope Z_scope.

(** ** Paths to a reference *)

(** The tables refer to symbols, scopes and flow nodes there are. *)
Record binding_ok (b : Binding) : Prop := {
  bo_bnd : wf (scopesym b);
  bo_graph : graph_ok (graph b);
  bo_shape : graph_shape (graph b);
  bo_refs : map_Forall (λ _ s, (s < length (symbols (scopesym b)))%nat) (refs b);
  bo_flow : map_Forall (λ _ f, (f < length (graph b))%nat) (refFlow b);
  bo_scope : map_Forall (λ _ s, (s < length (scopes (scopesym b)))%nat) (refScope b) }.

(** The query of a reference's own function. *)
Definition is_local (b : Binding) (id : nat) (r : local_ref) : Prop :=
  refs b !! id = Some (lr_sym r) ∧ refFlow b !! id = Some (lr_flow r)
  ∧ symbols (scopesym b) !! lr_sym r = Some (lr_symbol r) ∧ SScope (lr_symbol r) = Some (lr_scope r)
  ∧ run_bind b (containerOf (lr_scope r)) = Some (lr_home r) ∧ refContainer b !! id = Some (lr_home r).

#[local] Arguments back_plain : simpl never.
#[local] Arguments back : simpl never.
#[local] Arguments local : simpl never.

Section queries.
Context (b : Binding) (Hb : binding_ok b).

Lemma run_containerOf s : (s < length (scopes (scopesym b)))%nat → is_Some (run_bind b (containerOf s)).
Proof.
  intros Hs. pose proof (wp_containerOf (scopesym b) s (λ _ _, True) (λ _ _, False) (bo_bnd _ Hb) Hs (λ _ _, I)) as H.
  unfold wp in H. unfold run_bind. destruct (containerOf s (scopesym b)) as [[t|[]| |] ?]; done.
Qed.

Lemma run_functionOf s : (s < length (scopes (scopesym b)))%nat → is_Some (run_bind b (functionOf s)).
Proof.
  intros Hs. pose proof (wp_functionOf (scopesym b) s (λ _ _, True) (λ _ _, False) (bo_bnd _ Hb) Hs (λ _ _, I)) as H.
  unfold wp in H. unfold run_bind. destruct (functionOf s (scopesym b)) as [[t|[]| |] ?]; done.
Qed.

Lemma run_symbol s sym : symbols (scopesym b) !! s = Some sym → run_bind b (symbol s) = Some sym.
Proof. intros H. unfold run_bind, symbol, gets, mbind, M_bind. cbn. unfold index. by rewrite H. Qed.

Lemma local_spec id :
  ∃ lr, local b id = Some lr ∧ ∀ r, lr = Some r ↔ is_local b id r.
Proof.
  unfold local, is_local. destruct (refs b !! id) as [s|] eqn:Hs; [|exists None; split; [done|]; intros r; split; [done|by intros (? & _)]].
  destruct (refFlow b !! id) as [f|] eqn:Hf; [|exists None; split; [done|]; intros r; split; [done|by intros (_ & ? & _)]].
  destruct (lookup_lt_is_Some_2 _ _ (bo_refs _ Hb _ _ Hs)) as [sym Hsym]. rewrite (run_symbol s sym Hsym). cbn.
  destruct (wf_scoped _ (bo_bnd _ Hb) _ _ Hsym) as (sc & Hsc & Hlt). rewrite Hsc. cbn.
  destruct (run_containerOf sc Hlt) as [home Hh]. rewrite Hh. cbn.
  case_bool_decide as Hc; eexists; (split; [done|]); intros r; split.
  - by intros [= <-].
  - destruct r as [s' sym' sc' home' f']; cbn. intros (? & ? & ? & ? & ? & ?). congruence.
  - done.
  - destruct r as [s' sym' sc' home' f']; cbn. intros (? & ? & ? & ? & ? & ?). congruence.
Qed.

(** The stores a path back from the reference meets first, of which the fact
    holds; and where such paths start when they meet none. *)
Definition path_store (r : local_ref) (fact : FlowNode → bool) (n : FlowNode) : Prop :=
  meets_fact (graph b) (lr_home r) (lr_sym r) (lr_scope r) fact (lr_flow r) n.
Definition path_start (r : local_ref) (fact : FlowNode → bool) (n : FlowNode) : Prop :=
  meets_entry (graph b) (lr_home r) (lr_sym r) (lr_scope r) fact (lr_flow r) n.
Definition some_store (r : local_ref) (fact : FlowNode → bool) : Prop := ∃ n, path_store r fact n.
Definition some_start (r : local_ref) (fact : FlowNode → bool) : Prop := ∃ n, path_start r fact n.

Lemma back_spec {A} id r fact (hit : A → FlowNode → A) a :
  is_local b id r →
  ∃ found missed hs, back b r fact hit a = Some (found, missed, foldl hit a hs)
    ∧ (found = true ↔ some_store r fact) ∧ (missed = true ↔ some_start r fact)
    ∧ (∀ n, n ∈ hs → path_store r fact n) ∧ (missed = false → ∀ n, path_store r fact n → n ∈ hs).
Proof.
  intros (_ & Hf & _). apply walkBack_spec; [apply Hb..|]. by eapply (bo_flow _ Hb).
Qed.

Lemma back_plain_spec id r fact :
  is_local b id r →
  ∃ found missed, back_plain b r fact = Some (found, missed)
    ∧ (found = true ↔ some_store r fact) ∧ (missed = true ↔ some_start r fact).
Proof.
  intros Hl. destruct (back_spec id r fact (λ a _, a) tt Hl) as (found & missed & hs & Hrun & Hf & Hm & _).
  exists found, missed. split; [|done]. unfold back_plain. by rewrite Hrun.
Qed.

(** The use is on no path after the declaration has run, and on some before. *)
Definition in_dead_zone (r : local_ref) : Prop :=
  tdzKind (lr_symbol r) = true ∧ some_start r FInit ∧ ¬ some_store r FInit.
(** Some path from the start of the variable's scope stores nothing in it. *)
Definition maybe_unassigned (r : local_ref) : Prop :=
  trackedForAssignment (lr_symbol r) = true ∧ some_start r FAssign.

Lemma dead_zone_spec id r :
  is_local b id r → tdzKind (lr_symbol r) = true →
  ∃ found missed, back_plain b r FInit = Some (found, missed) ∧ (missed && negb found = true ↔ in_dead_zone r).
Proof.
  intros Hl Hk. destruct (back_plain_spec id r FInit Hl) as (found & missed & Hrun & Hf & Hm).
  exists found, missed. split; [done|]. unfold in_dead_zone. rewrite andb_true_iff, negb_true_iff, Hm, <-Hf, <-not_true_iff_false. tauto.
Qed.

Lemma assigned_report (definite : bool) (n : nat) r :
  is_local b n r → ¬ in_dead_zone r → n ∉ written b →
  ∃ rep, (if definite && trackedForAssignment (lr_symbol r) && negb (bool_decide (n ∈ asserted_ b)) then
            ('(_, missed) ← back_plain b r FAssign; Some (if (missed : bool) then Some UsedBeforeAssigned else None))
          else Some None) = Some rep
    ∧ (rep = Some UsedBeforeDeclaration ↔ in_dead_zone r)
    ∧ (rep = Some UsedBeforeAssigned ↔ definite = true ∧ (n ∉ written b) ∧ (n ∉ asserted_ b)
         ∧ ¬ in_dead_zone r ∧ maybe_unassigned r).
Proof.
  intros Hl Hnd Hw. unfold maybe_unassigned. destruct (back_plain_spec _ r FAssign Hl) as (found & missed & Hrun & _ & Hm). rewrite Hrun.
  destruct definite, (trackedForAssignment _), (bool_decide_reflect (n ∈ asserted_ b)); cbn.
  2: { eexists. split; [done|]. destruct missed; split; split; try done.
       - intros _. split_and!; try done. by apply Hm.
       - intros (_ & _ & _ & _ & _ & Hp). by apply Hm in Hp. }
  all: eexists; split; [done|]; split; split; try done; intros (? & ? & ? & ? & ? & ?); done.
Qed.

Lemma flow_diagnostic_spec definite id :
  ∃ rep, flow_diagnostic b definite id = Some rep
    ∧ (rep = Some UsedBeforeDeclaration ↔ ∃ r, is_local b (nid id) r ∧ in_dead_zone r)
    ∧ (rep = Some UsedBeforeAssigned ↔ definite = true ∧ (nid id ∉ written b) ∧ (nid id ∉ asserted_ b) ∧
         ∃ r, is_local b (nid id) r ∧ ¬ in_dead_zone r ∧ maybe_unassigned r).
Proof.
  unfold flow_diagnostic. destruct (local_spec (nid id)) as (lr & -> & Hlr). cbn.
  destruct lr as [r|].
  2: { exists None. split; [done|]. split; (split; [done|]).
       - intros (r & Hr & _). by apply Hlr in Hr.
       - intros (_ & _ & _ & r & Hr & _). by apply Hlr in Hr. }
  assert (is_local b (nid id) r) as Hl by (by apply Hlr).
  assert (∀ r', is_local b (nid id) r' → r' = r) as Huniq by (intros r' Hr'; apply Hlr in Hr'; congruence).
  assert (∀ P : local_ref → Prop, (∃ r', is_local b (nid id) r' ∧ P r') ↔ P r) as Hex.
  { intros P. split; [intros (r' & ->%Huniq & ?); done|by exists r]. }
  pose proof (Hex in_dead_zone) as H1. pose proof (Hex (λ r, ¬ in_dead_zone r ∧ maybe_unassigned r)) as H2.
  cbv beta in H1, H2. setoid_rewrite H1. setoid_rewrite H2. clear H1 H2 Hex Huniq Hlr. assert (tdzKind (lr_symbol r) = false → ¬ in_dead_zone r) as Hnk by (intros Hk [Hk' _]; congruence).
  destruct (tdzKind (lr_symbol r)) eqn:Hk.
  - destruct (dead_zone_spec _ r Hl Hk) as (found & missed & Hrun & Hdz). rewrite Hrun. cbn.
    case_bool_decide as Hw.
    { eexists. split; [done|]. destruct (missed && negb found) eqn:Hd; split; split; try done; try (intros (? & ? & _); done).
      - intros _. by apply Hdz.
      - intros Hdz'%Hdz. done. }
    destruct (missed && negb found) eqn:Hd; cbn.
    { eexists. split; [done|]. split; split; try done; [intros _; by apply Hdz|].
      intros (_ & _ & _ & Hnd & _). by destruct Hnd; apply Hdz. }
    assert (¬ in_dead_zone r) as Hnd by (intros ?%Hdz; done). by apply assigned_report.
  - specialize (Hnk eq_refl). case_bool_decide as Hw; cbn.
    { eexists. split; [done|]. split; split; try done. intros (? & ? & _). done. }
    by apply assigned_report.
Qed.
End queries.

(** ** Stores, guards and closures *)

#[local] Arguments walk_from : simpl never.

Section answers.
Context (b : Binding) (Hb : binding_ok b).

Lemma foldl_flag {A} (p : option Node → bool) (hs : list FlowNode) (f : A → FlowNode → A) ok a :
  foldl (λ '(x, y) n, (x && p (FNode n), f y n)) (ok, a) hs
  = (ok && forallb (λ n, p (FNode n)) hs, foldl f a hs).
Proof.
  revert ok a. induction hs as [|n hs IH]; intros ok a; cbn; [by rewrite andb_true_r|].
  by rewrite IH, andb_assoc.
Qed.

Lemma foldl_and (p : FlowNode → bool) ok hs : foldl (λ x n, x && p n) ok hs = ok && forallb p hs.
Proof. revert ok. induction hs as [|n hs IH]; intros ok; cbn; [by rewrite andb_true_r|]. by rewrite IH, andb_assoc. Qed.

Lemma foldl_snoc_map {A B} (f : A → B) acc hs : foldl (λ ss n, ss ++ [f n]) acc hs = acc ++ map f hs.
Proof. revert acc. induction hs as [|n hs IH]; intros acc; cbn; [by rewrite app_nil_r|]. by rewrite IH, <-app_assoc. Qed.

(** The reads whose stores all are in the function that reads: neither
    written to nor stored to by another function. *)
Definition read_here (id : nat) (r : local_ref) : Prop :=
  is_local b id r ∧ (id ∉ written b) ∧ (lr_sym r ∉ foreign b).

Lemma ReachingStores_spec id :
  ∃ ss ok, ReachingStores b id = Some (ss, ok)
    ∧ (ok = true → ∃ r, read_here id r ∧ some_store b r FAssign ∧ ¬ some_start b r FAssign
         ∧ (∀ n, path_store b r FAssign n → FNode n ∈ ss)
         ∧ (∀ s, s ∈ ss → reaching_store s = true ∧ ∃ n, path_store b r FAssign n ∧ FNode n = s)).
Proof.
  unfold ReachingStores. destruct (local_spec b Hb id) as (lr & -> & Hlr). cbn.
  destruct lr as [r|]; [|by eexists _, _]. assert (is_local b id r) as Hl by (by apply Hlr).
  destruct (_ || _ || _) eqn:Hguard; [by eexists _, _|].
  apply orb_false_iff in Hguard as [[Hw Hone]%orb_false_iff Hfor].
  apply bool_decide_eq_false in Hw, Hfor.
  repeat case_match; simplify_eq; try by eexists _, _.
  destruct (back_spec b Hb id r FAssign (λ '(plain, ss) n, (plain && reaching_store (FNode n), ss ++ [FNode n])) (true, []) Hl)
    as (found & missed & hs & Hrun & Hfound & Hmissed & Hsound & Hcomp).
  rewrite (foldl_flag reaching_store), foldl_snoc_map in Hrun. rewrite Hrun. cbn.
  eexists _, _. split; [done|]. intros [[Hf Hm]%andb_true_iff Hp]%andb_true_iff. apply negb_true_iff in Hm.
  rewrite forallb_forall in Hp. exists r. split; [done|]. split; [by apply Hfound|].
  split; [by intros Hno%Hmissed; congruence|]. split.
  - intros m Hm'. apply list_elem_of_In, in_map, list_elem_of_In. by apply Hcomp.
  - intros s (m & <- & Hm')%list_elem_of_In%in_map_iff.
    split; [by apply Hp|]. exists m. split; [by apply Hsound, list_elem_of_In|done].
Qed.

Lemma DefinitelyAssigned_spec id :
  ∃ r, DefinitelyAssigned b id = Some r
    ∧ (r = true ↔ ∃ l, is_local b id l ∧ (id ∉ written b) ∧ trackedForAssignment (lr_symbol l) = true
         ∧ some_store b l FAssign ∧ ¬ some_start b l FAssign
         ∧ ∀ n, path_store b l FAssign n → plain_store (FNode n) = true).
Proof.
  unfold DefinitelyAssigned. destruct (local_spec b Hb id) as (lr & -> & Hlr). cbn.
  destruct lr as [r|].
  2: { eexists. split; [done|]. split; [done|]. intros (l & Hl & _). by apply Hlr in Hl. }
  assert (is_local b id r) as Hl by (by apply Hlr).
  assert (∀ r', is_local b id r' → r' = r) as Huniq by (intros r' Hr'; apply Hlr in Hr'; congruence).
  destruct (_ || _) eqn:Hguard.
  { eexists. split; [done|]. split; [done|]. intros (l & ->%Huniq & Hw & Ht & _).
    rewrite Ht, bool_decide_false in Hguard by done. done. }
  apply orb_false_iff in Hguard as [Hw%bool_decide_eq_false Ht%negb_false_iff].
  destruct (back_spec b Hb id r FAssign (λ p n, p && plain_store (FNode n)) true Hl)
    as (found & missed & hs & Hrun & Hfound & Hmissed & Hsound & Hcomp).
  rewrite foldl_and in Hrun. rewrite Hrun. cbn. eexists. split; [done|]. split.
  - intros [[Hf Hm]%andb_true_iff Hp]%andb_true_iff. apply negb_true_iff in Hm. rewrite forallb_forall in Hp.
    exists r. do 3 (split; [done|]). split; [by apply Hfound|]. split; [by intros Hno%Hmissed; congruence|].
    intros n Hn. by apply Hp, list_elem_of_In, Hcomp.
  - intros (l & ->%Huniq & _ & _ & Hf%Hfound & Hm & Hp). rewrite Hf. destruct missed; [by destruct Hm; apply Hmissed|].
    cbn. apply forallb_forall. intros n Hn%list_elem_of_In. by apply Hp, Hsound.
Qed.

Lemma GuardedSinceStore_spec id :
  ∃ g, GuardedSinceStore b id = Some g
    ∧ (g = true ↔ ∃ r, read_here id r ∧ ∀ n, nearest (graph b) (guard_stop b (lr_sym r) (lr_scope r)) (lr_flow r) n → guard_node b (lr_sym r) n).
Proof.
  unfold GuardedSinceStore, read_here. destruct (local_spec b Hb id) as (lr & -> & Hlr). cbn.
  destruct lr as [r|].
  2: { eexists. split; [done|]. split; [done|]. intros (l & [Hl _] & _). by apply Hlr in Hl. }
  assert (is_local b id r) as Hl by (by apply Hlr).
  assert (∀ r', is_local b id r' → r' = r) as Huniq by (intros r' Hr'; apply Hlr in Hr'; congruence).
  destruct (_ || _) eqn:Hguard.
  { eexists. split; [done|]. split; [done|]. intros (l & (->%Huniq & Hw & Hf) & _).
    rewrite !bool_decide_false in Hguard by done. done. }
  apply orb_false_iff in Hguard as [Hw%bool_decide_eq_false Hf%bool_decide_eq_false].
  destruct (walk_from_answers (graph b) (judge_guard b (lr_sym r) (lr_scope r)) (λ a _, a) orb (lr_flow r) tt
    (bo_graph _ Hb) (judge_guard_ok _ _ _)) as (found & missed & a & Hrun & Hsf & Hsm & _ & Hall).
  { eapply (bo_flow _ Hb), Hl. }
  rewrite Hrun. cbn. eexists. split; [done|]. rewrite negb_true_iff, orb_false_iff. split.
  - intros [-> ->]. exists r. split; [done|]. apply ends_guard; [apply Hb|]. intros v n Hv Hn.
    destruct Hall as [?|[Hh Hm]]; [done|]. destruct Hv as [-> | ->]; [discriminate Hh|discriminate Hm]; by exists n.
  - intros (l & (->%Huniq & _) & Hno). rewrite <-(ends_guard _ _ _ _ _ (bo_shape _ Hb)) in Hno. split; apply not_true_iff_false.
    + intros (n & Hn)%Hsf. eapply (Hno Hit); [by left|exact Hn].
    + intros (n & Hn)%Hsm. eapply (Hno Miss); [by right|exact Hn].
Qed.

Lemma closures_only_total n s home :
  (match s with Some s => s < n | None => True end)%nat → (∀ x, s = Some x → (x < length (scopes (scopesym b)))%nat) →
  is_Some (closures_only (S n) b s home).
Proof.
  revert s. induction n as [|n IH]; intros s Hs Hlt; (destruct s as [s|]; [|by eexists]); [lia|].
  destruct (lookup_lt_is_Some_2 _ _ (Hlt s eq_refl)) as [sc Hsc].
  cbn [closures_only]. case_bool_decide; [by eexists|]. rewrite Hsc. cbn.
  assert (is_Some (closures_only (S n) b (Parent sc) home)).
  { pose proof (sc_parent _ _ _ (wf_scopes _ (bo_bnd _ Hb) _ _ Hsc)) as Hp.
    specialize (Hlt s eq_refl). apply IH; destruct (Parent sc); try done; [lia|]. intros x [= <-]. lia. }
  destruct (negb _); [done|]. destruct (ScNode sc) as [f|]; [|by eexists]. destruct (nkind f); first [done|by eexists].
Qed.

#[local] Arguments closures_only : simpl never.

Lemma ClosureNarrows_spec id s :
  (s < length (symbols (scopesym b)))%nat →
  ∃ r, ClosureNarrows b id s = Some r
    ∧ (r = true → (∃ sym d n, symbols (scopesym b) !! s = Some sym ∧ head (Declarations sym) = Some d ∧ DNode d = Some n
                     ∧ declaration_narrows b sym n = Some true)
         ∨ last_assign b !! s = None
         ∨ at_key (last_assign b) s < at_key (refOrd b) id).
Proof.
  intros Hs. destruct (lookup_lt_is_Some_2 _ _ Hs) as [sym Hsym]. unfold ClosureNarrows.
  rewrite (run_symbol b s sym Hsym). cbn. destruct (Declarations sym) as [|d ds] eqn:Hds; [by eexists|].
  destruct (DNode d) as [n|] eqn:Hn; [|by eexists].
  destruct (declaration_narrows b sym n) as [r|] eqn:Hdn.
  { exists r. split; [done|]. intros ->. left. exists sym, d, n. rewrite Hds. done. }
  destruct (wf_scoped _ (bo_bnd _ Hb) _ _ Hsym) as (sc & Hsc & Hlt). rewrite Hsc. cbn.
  destruct (run_functionOf b Hb sc Hlt) as [home ->]. cbn.
  destruct (closures_only_total (S (length (scopes (scopesym b)))) (refScope b !! id) home) as [cl Hcl].
  { destruct (refScope b !! id) as [x|] eqn:Hx; [|done]. pose proof (bo_scope _ Hb _ _ Hx). cbn in *. lia. }
  { intros x Hx. by apply (bo_scope _ Hb _ _ Hx). }
  rewrite Hcl. cbn. destruct cl; [|by eexists]. eexists. split; [done|]. unfold at_key.
  destruct (last_assign b !! s) as [l|]; [|by right; left]. intros Hr%Z.ltb_lt. by right; right.
Qed.
End answers.

(** ** Lists of reports *)

Definition reports (rs : list (Node * option flow_report)) : list (Node * flow_report) :=
  omap (λ '(id, r), match r with Some r => Some (id, r) | None => None end) rs.

Lemma elem_of_reports id r rs : (id, r) ∈ reports rs ↔ (id, Some r) ∈ rs.
Proof.
  unfold reports. rewrite list_elem_of_omap. split.
  - intros ([id' [r'|]] & Hin & He); simplify_eq. done.
  - intros Hin. by exists (id, Some r).
Qed.

Lemma reports_sublist rs : (reports rs).*1 `sublist_of` rs.*1.
Proof.
  induction rs as [|[id [r|]] rs IH]; cbn; [done|by apply sublist_skip|by apply sublist_cons].
Qed.

Lemma elem_of_reported (id : Node) (rs : list (Node * option flow_report)) ids :
  rs.*1 = ids → (∃ r, (id, r) ∈ rs) ↔ id ∈ ids.
Proof.
  intros <-. rewrite list_elem_of_fmap. split; [intros [r Hr]; by exists (id, r)|]. intros ([id' r] & -> & Hr). by exists r.
Qed.

Lemma mapM_reports b (Hb : binding_ok b) definite ids :
  ∃ rs, mapM (λ id, r ← flow_diagnostic b definite id; Some (id, r)) ids = Some rs ∧ rs.*1 = ids
    ∧ ∀ id rep, (id, rep) ∈ rs →
        (rep = Some UsedBeforeDeclaration ↔ ∃ r, is_local b (nid id) r ∧ in_dead_zone b r)
        ∧ (rep = Some UsedBeforeAssigned ↔ definite = true ∧ (nid id ∉ written b) ∧ (nid id ∉ asserted_ b) ∧
             ∃ r, is_local b (nid id) r ∧ ¬ in_dead_zone b r ∧ maybe_unassigned b r).
Proof.
  induction ids as [|id ids (rs & Hrs & Hfst & Hrep)]; [exists []; split; [done|]; split; [done|by intros ? ? ?%elem_of_nil]|].
  destruct (flow_diagnostic_spec b Hb definite id) as (rep & Hrun & Hspec).
  exists ((id, rep) :: rs). cbn [mapM]. rewrite Hrun. cbn [mbind option_bind]. rewrite Hrs. cbn. split; [done|].
  split; [by rewrite Hfst|]. intros id' rep' [[= -> ->]|Hin]%elem_of_cons; [done|by apply Hrep].
Qed.
