(* ===== verification/FlowProps.v ===== *)
(** * Properties of the control-flow graph and its queries *)

From S2P Require Import Prelude GoString Diag Ast Symbols SymbolFacts Flow FlowWalk FlowFacts FlowQuery.
Open Scope Z_scope.

(** ** The builder *)


(** [join] answers [unreachableFlow] exactly when every path given is dead;
    otherwise a branch label whose predecessors are the live paths given, each
    once. *)
Theorem join_paths annexB b log fs :
  freachable annexB b log → Forall (λ f, (f < length (nodes b))%nat) fs →
  ∃ r b', join fs b = (Ok r, b') ∧ flow b' = flow b
    ∧ (r = unreachableFlow ↔ ∀ f, f ∈ fs → f = unreachableFlow)
    ∧ (r ≠ unreachableFlow → ∃ n, nodes b' !! r = Some n ∧ FFlags n = FlowBranchLabel ∧ NoDup (Antecedents n)
         ∧ ∀ f, f ∈ Antecedents n ↔ f ∈ fs ∧ f ≠ unreachableFlow).
Proof.
  intros Hr Hfs. pose proof (proj1 (freachable_wf _ _ _ Hr)) as Hb.
  assert (∀ f, f ∈ foldl add_path [] fs ↔ f ∈ fs ∧ f ≠ unreachableFlow) as Hin by (intros f; apply elem_of_live_paths).
  enough (wp (join fs) (λ r b', flow b' = flow b
    ∧ (r = unreachableFlow ↔ ∀ f, f ∈ fs → f = unreachableFlow)
    ∧ (r ≠ unreachableFlow → ∃ n, nodes b' !! r = Some n ∧ FFlags n = FlowBranchLabel ∧ NoDup (Antecedents n)
         ∧ ∀ f, f ∈ Antecedents n ↔ f ∈ fs ∧ f ≠ unreachableFlow)) (λ _ _, False) b) as H.
  { unfold wp in H. destruct (join fs b) as [[r| | |] b']; try done. by exists r, b'. }
  apply wp_join; [done..|]. intros l b' n Haf Hfl Hl Hn Hflags Hants. split; [done|].
  destruct (decide (foldl add_path [] fs = [])) as [He|Hne]; split; try done.
  - split; [|done]. intros _ f Hf. destruct (decide (f = unreachableFlow)) as [|Hd]; [done|].
    assert (f ∈ foldl add_path [] fs) as Hx by (by apply Hin). rewrite He in Hx. by apply elem_of_nil in Hx.
  - split; [done|]. intros Hall. destruct (foldl add_path [] fs) as [|x xs] eqn:Hx; [done|].
    assert (x ∈ fs ∧ x ≠ unreachableFlow) as [Hxf Hxd] by (apply Hin; left). by apply Hall in Hxf.
  - intros _. exists n. split; [done|]. split; [done|]. split; [by eapply fn_nodup, (bw_nodes _ (af_wf _ _ Haf))|].
    intros f. by rewrite Hants.
Qed.

(** ** The queries *)

(** C4: on the graph of any reachable state [walkBack] ends; it has found when
    some path back from the node meets a store to the symbol of which the fact
    holds before it meets an entry of the symbol's scope, it has missed when
    some path meets an entry first, and the fact's effects are of the stores
    such paths meet, of all of them unless it has missed. *)
Theorem walk_back_paths {A} annexB b log home sym scope fact (hit : A → FlowNode → A) f a :
  freachable annexB b log → (f < length (nodes b))%nat →
  let store := meets_fact (nodes b) home sym scope fact f in
  let start := meets_entry (nodes b) home sym scope fact f in
  ∃ found missed hs, walkBack (nodes b) home sym scope fact hit f a = Some (found, missed, foldl hit a hs)
    ∧ (found = true ↔ ∃ n, store n) ∧ (missed = true ↔ ∃ n, start n)
    ∧ (∀ n, n ∈ hs → store n) ∧ (missed = false → ∀ n, store n → n ∈ hs).
Proof.
  intros Hr Hf. pose proof (proj1 (freachable_wf _ _ _ Hr)) as Hb.
  by apply walkBack_spec; [apply bwf_graph_ok|apply bwf_graph_shape|].
Qed.

(** C25: [FlowDiagnostics] reports an access as used before its declaration
    exactly when the binding has a dead zone, some path from the start of its
    scope reaches the access, and no path does after the declaration ran; and
    as used before it is assigned exactly when it is an unasserted read, not
    already reported, of a tracked variable that some path reaches without a
    store; each access at most once, in source order. *)
Theorem flow_diagnostics_paths b definite :
  binding_ok b →
  ∃ out, FlowDiagnostics b definite = Some out ∧ out.*1 `sublist_of` accesses b
    ∧ (∀ id, (id, UsedBeforeDeclaration) ∈ out ↔ id ∈ accesses b ∧ ∃ r, is_local b (nid id) r ∧ in_dead_zone b r)
    ∧ (∀ id, (id, UsedBeforeAssigned) ∈ out ↔ id ∈ accesses b ∧ definite = true ∧ (nid id ∉ written b)
         ∧ (nid id ∉ asserted_ b) ∧ ∃ r, is_local b (nid id) r ∧ ¬ in_dead_zone b r ∧ maybe_unassigned b r).
Proof.
  intros Hb. unfold FlowDiagnostics.
  destruct (mapM_reports b Hb definite (accesses b)) as (rs & -> & Hfst & Hrep). cbn. eexists. split; [done|].
  split; [rewrite <-Hfst; apply reports_sublist|].
  split; intros id; rewrite elem_of_reports, <-(elem_of_reported id rs (accesses b) Hfst).
  - split; [intros Hin; split; [by eexists|]; by apply Hrep in Hin as [Hd _]; apply Hd|].
    intros [[r Hin] Hdz]. pose proof Hin as [Hd _]%Hrep. by rewrite <-(proj2 Hd Hdz).
  - split; [intros Hin; split; [by eexists|]; by apply Hrep in Hin as [_ Hd]; apply Hd|].
    intros [[r Hin] Hdz]. pose proof Hin as [_ Hd]%Hrep. by rewrite <-(proj2 Hd Hdz).
Qed.



(** C27: [GuardedSinceStore] always answers, and it answers true exactly for the
    reads of a variable only this function stores to such that every path back
    meets a condition that excludes undefined before it meets a store, or the
    start of the function or of the variable's scope. *)
Theorem guarded_since_store_paths b id :
  binding_ok b →
  ∃ g, GuardedSinceStore b id = Some g
    ∧ (g = true ↔ ∃ r, read_here b id r ∧ ∀ n, nearest (graph b) (guard_stop b (lr_sym r) (lr_scope r)) (lr_flow r) n → guard_node b (lr_sym r) n).
Proof. intros Hb. by apply GuardedSinceStore_spec. Qed.

(** [ClosureNarrows] always answers; when it answers true for a variable
    whose declaration alone does not decide, every assignment the builder saw
    to it, from any function, was at a position before the reference. *)
Theorem closure_narrows_unassigned annexB st log b id s :
  freachable annexB st log → stmts st = [] → last_assign b = lastAssign st →
  binding_ok b → (s < length (symbols (scopesym b)))%nat →
  (∀ sym d n, symbols (scopesym b) !! s = Some sym → head (Declarations sym) = Some d → DNode d = Some n →
     declaration_narrows b sym n = None) →
  ∃ r, ClosureNarrows b id s = Some r ∧ (r = true → ∀ o, (s, o) ∈ log → 0 < o → o < at_key (refOrd b) id).
Proof.
  intros Hr Hst Hla Hb Hs Hdn. destruct (ClosureNarrows_spec b Hb id s Hs) as (r & Hrun & Hspec).
  exists r. split; [done|]. intros Hrt o Hin Hpos.
  assert (o ≤ at_key (last_assign b) s) as Hle.
  { pose proof (proj2 (freachable_wf _ _ _ Hr)) as Hlog. rewrite Forall_forall in Hlog.
    specialize (Hlog _ Hin). cbn in Hlog. rewrite Hla. destruct Hlog as [?|[_ Hex]]; [done|].
    rewrite Hst in Hex. by apply Exists_nil in Hex. }
  destruct (Hspec Hrt) as [(sym & d & n & H1 & H2 & H3 & H4)|[Hn|Hlt]].
  - by rewrite (Hdn sym d n H1 H2 H3) in H4.
  - unfold at_key in Hle. rewrite Hn in Hle. lia.
  - lia.
Qed.

(** ** A program: [let x: number; if (x) { x = 1; } x;] *)

Definition at_pos : Pos := mkPos 1 1.
Definition decl_x : Node := mkNode 1 at_pos (VarDeclaration "let" "x" (Some (mkTypeAnnotation "number" false "number")) None false false).
Definition test_c : Node := mkNode 2 at_pos (Identifier "x").
Definition store_x : Node :=
  mkNode 3 at_pos (AssignmentExpression "=" (mkNode 4 at_pos (Identifier "x")) (mkNode 5 at_pos (BooleanLiteral true))).
Definition read_x : Node := mkNode 6 at_pos (Identifier "x").

Definition do_op (o : fop) (b : builder) : builder := (run_fop o b).2.
Lemma freach_do annexB o b log log' :
  freachable annexB b log → fallowed o b → (run_fop o b).1 = Ok tt → log' = log ++ marks o b →
  freachable annexB (do_op o b) log'.
Proof.
  intros Hr Ha Hok ->. eapply freach_op; [done..|]. unfold do_op. destruct (run_fop o b) as [r b']. cbn in *. by rewrite Hok.
Qed.

Definition resolving (b : builder) : builder := set_bnd (set_mode false false false false None None "" (bnd b)) b.
Definition at_store (b : builder) : builder :=
  set_walk (flow b) (container b) (fnScope b) (exceptionTargets b) (Some store_x) b.
Definition declared : builder :=
  do_op (OpBinder (AddName "x" BlockScopedVariable Lexical (Some decl_x)))
    (do_op (OpBinder (Enter 0 None 0 ModuleScope)) (fstart_state false)).
(** In the module, on the branch where the condition holds, about to store. *)
Definition in_branch : builder :=
  at_store (do_op (OpCondition 2 (Some test_c) true) (do_op (OpEnter true)
    (do_op (OpAssign (Some 0%nat) true false) (do_op (OpFunction 0 None) (resolving declared))))).
Definition stored : builder := do_op (OpAssign (Some 0%nat) false true) in_branch.
(** After the statement: the paths of the branch and around it join in node 5. *)
Definition finished : builder := do_op OpLeave (do_op (OpJoin [4; 2]%nat) stored).

Lemma in_branch_reachable : freachable false in_branch [].
Proof.
  unfold in_branch, at_store, resolving, declared.
  apply freach_walk; [|vm_compute; lia|constructor].
  do 2 (apply (freach_do _ _ _ []); [|vm_compute; repeat constructor|vm_compute; reflexivity..]).
  apply (freach_do _ _ _ []); [|intros s [= <-]; vm_compute; lia|vm_compute; reflexivity..].
  apply (freach_do _ _ _ []); [|vm_compute; repeat constructor|vm_compute; reflexivity..].
  apply freach_mode. do 2 (apply (freach_do _ _ _ []); [|vm_compute; try done; by eexists|vm_compute; reflexivity..]).
  apply freach_start.
Qed.

Lemma finished_reachable : freachable false finished [(0%nat, 1)].
Proof.
  unfold finished.
  apply (freach_do _ _ _ [(0%nat, 1)]); [|vm_compute; discriminate|vm_compute; reflexivity..].
  apply (freach_do _ _ _ [(0%nat, 1)]); [|vm_compute; repeat constructor|vm_compute; reflexivity..].
  apply (freach_do _ _ _ []); [apply in_branch_reachable| |vm_compute; reflexivity..].
  intros s [= <-]. vm_compute. lia.
Qed.

(** The read [read_x], at flow node [f]. *)
Definition program (f : FlowId) : Binding :=
  mkBinding (bnd finished) (nodes finished) {[6%nat := 0%nat; 2%nat := 0%nat]} {[6%nat := f]} {[6%nat := 0%nat]}
    {[6%nat := 0%nat]} {[6%nat := 3]} ∅ ∅ ∅ ∅ (stores finished) (lastAssign finished) ∅ ∅ 0 false [read_x].

Lemma program_ok f : (f < length (nodes finished))%nat → binding_ok (program f).
Proof.
  intros Hf. pose proof (proj1 (freachable_wf _ _ _ finished_reachable)) as Hb.
  constructor; [apply Hb|by apply bwf_graph_ok|by apply bwf_graph_shape|..]; cbn [refs refFlow refScope graph scopesym program].
  - apply map_Forall_insert_2; [vm_compute; lia|]. apply map_Forall_singleton. vm_compute. lia.
  - by apply map_Forall_singleton.
  - apply map_Forall_singleton. vm_compute. lia.
Qed.


Lemma join_paths_witness :
  ∃ r b', join [0; 4; 2; 4]%nat finished = (Ok r, b') ∧ r ≠ unreachableFlow.
Proof.
  destruct (join_paths false finished [(0%nat, 1)] [0; 4; 2; 4]%nat) as (r & b' & Hrun & _ & Hdead & _).
  - apply finished_reachable.
  - vm_compute. repeat constructor.
  - exists r, b'. split; [exact Hrun|]. intros Hr. discriminate (proj1 Hdead Hr 4%nat). by right; left.
Defined.

Lemma walk_back_paths_witness :
  ∃ found missed hs, walkBack (nodes finished) 0 0 0 FAssign (λ n (_ : FlowNode), S n) 5 0%nat = Some (found, missed, foldl (λ n (_ : FlowNode), S n) 0%nat hs)
    ∧ found = true ∧ missed = true.
Proof.
  destruct (walk_back_paths false finished [(0%nat, 1)] 0%nat 0%nat 0%nat FAssign (λ n (_ : FlowNode), S n) 5%nat 0%nat)
    as (found & missed & hs & Hrun & _).
  - apply finished_reachable.
  - vm_compute. lia.
  - exists found, missed, hs. split; [exact Hrun|]. vm_compute in Hrun. by injection Hrun as <- <- _.
Defined.

Lemma at_node f : (f < 6)%nat → binding_ok (program f).
Proof. intros Hf. by apply program_ok. Qed.

(** After the statement some path has stored nothing: the read is reported. *)
Lemma flow_diagnostics_paths_witness :
  FlowDiagnostics (program 5) true = Some [(read_x, UsedBeforeAssigned)]
  ∧ ∃ r, is_local (program 5) 6 r ∧ maybe_unassigned (program 5) r.
Proof.
  destruct (flow_diagnostics_paths (program 5) true (at_node 5 ltac:(lia))) as (out & Hrun & _ & _ & Ha).
  assert (FlowDiagnostics (program 5) true = Some [(read_x, UsedBeforeAssigned)]) as Hout by (vm_compute; reflexivity).
  split; [exact Hout|]. rewrite Hout in Hrun. injection Hrun as <-.
  destruct (proj1 (Ha read_x)) as (_ & _ & _ & _ & r & Hl & _ & Hm); [by left|]. by exists r.
Defined.



(** Where the condition holds the read is guarded; after the store it is not. *)
Lemma guarded_since_store_paths_witness :
  GuardedSinceStore (program 3) 6 = Some true ∧ GuardedSinceStore (program 4) 6 = Some false.
Proof.
  destruct (guarded_since_store_paths (program 3) 6 (at_node 3 ltac:(lia))) as (r3 & Hrun3 & _).
  destruct (guarded_since_store_paths (program 4) 6 (at_node 4 ltac:(lia))) as (r4 & Hrun4 & _).
  split; [rewrite Hrun3; vm_compute in Hrun3; by injection Hrun3 as <-|rewrite Hrun4; vm_compute in Hrun4; by injection Hrun4 as <-].
Defined.

Lemma closure_narrows_unassigned_witness :
  ClosureNarrows (program 5) 6 0 = Some true ∧ 1 < at_key (refOrd (program 5)) 6.
Proof.
  destruct (closure_narrows_unassigned false finished [(0%nat, 1)] (program 5) 6 0%nat) as (r & Hrun & Hr).
  - apply finished_reachable.
  - vm_compute. reflexivity.
  - reflexivity.
  - apply at_node. lia.
  - vm_compute. lia.
  - intros sym d n Hsym Hd Hn. vm_compute in Hsym. injection Hsym as <-. injection Hd as <-. injection Hn as <-. vm_compute. reflexivity.
  - assert (r = true) as -> by (vm_compute in Hrun; by injection Hrun as <-).
    split; [exact Hrun|]. by apply (Hr eq_refl 1); [left|].
Defined.
