(* ===== verification/Traverse.v ===== *)
(** * The binder's traversal (src/binder/binder.go)

    One definition per case of [visitNode] and per method it calls, over the
    state of both passes: the declaring one and the resolving one.  The methods
    call [visit], which is defined last: here it is a parameter. *)

From S2P Require Import Prelude GoString Diag Ast Symbols Flow.
Open Scope Z_scope.

(** ** The state *)

Record jumpTarget := mkJump {
  jlabel : string; breakTo : FlowId; continueTo : option FlowId; breakOnly : bool }.

(** The fields of [binder] the traversal sets besides the builder's.  [jumps]
    has the innermost target first; a function is told by its identity. *)
Record control := mkControl {
  jumps : list jumpTarget;
  pendingLabel : string;
  writing : bool;
  iife : option nat;
  returnTo : option FlowId }.

(** The tables of the [Binding] the traversal fills, by the identity of the
    syntax node.  The symbol of [this] in a scope is told by the scope. *)
Record tables := mkTables {
  t_refs : gmap nat SymId;
  t_undefinedRefs : gmap nat SymId;
  t_globals : gset nat;
  t_lookupScopes : gmap nat (option ScopeId);
  t_refFlow : gmap nat FlowId;
  t_refContainer : gmap nat (option ScopeId);
  t_refOrd : gmap nat Z;
  t_refScope : gmap nat (option ScopeId);
  t_accesses : list Node;
  t_written : gset nat;
  t_asserted : gset nat;
  t_exported : gset nat;
  t_newTargets : gmap nat SymId;
  t_fnScopes : gmap nat ScopeId;
  t_endFlow : gmap nat FlowId; (* its keys are those of endReachable *)
  t_this : gmap nat (option ScopeId * FlowId * bool) }.

Record trav := mkTrav { bld : builder; ctl : control; tab : tables }.

Definition set_bld (x : builder) (b : trav) : trav := mkTrav x (ctl b) (tab b).
Definition set_ctl (c : control) (b : trav) : trav := mkTrav (bld b) c (tab b).
Definition set_tab (t : tables) (b : trav) : trav := mkTrav (bld b) (ctl b) t.

Definition set_jumps (j : list jumpTarget) (c : control) : control :=
  mkControl j (pendingLabel c) (writing c) (iife c) (returnTo c).
Definition set_pendingLabel (l : string) (c : control) : control :=
  mkControl (jumps c) l (writing c) (iife c) (returnTo c).
Definition set_writing (w : bool) (c : control) : control :=
  mkControl (jumps c) (pendingLabel c) w (iife c) (returnTo c).
Definition set_iife (f : option nat) (c : control) : control :=
  mkControl (jumps c) (pendingLabel c) (writing c) f (returnTo c).
Definition set_returnTo (r : option FlowId) (c : control) : control :=
  mkControl (jumps c) (pendingLabel c) (writing c) (iife c) r.

Definition TravM : Type → Type := M trav Empty_set.
#[export] Instance TravM_ret : MRet TravM := M_ret.
#[export] Instance TravM_bind : MBind TravM := M_bind.

(** An operation of the builder, and one of the scopes and symbols. *)
Definition fl {A} (m : FlowM A) : TravM A := λ b, let (r, x) := m (bld b) in (r, set_bld x b).
Definition bd {A} (m : BindM A) : TravM A := fl (lift m).
Definition control_ (f : control → control) : TravM unit := modify (λ b, set_ctl (f (ctl b)) b).
Definition table_ (f : tables → tables) : TravM unit := modify (λ b, set_tab (f (tab b)) b).

Definition set_storing (st : option Node) : TravM unit :=
  fl (modify (λ b, set_walk (flow b) (container b) (fnScope b) (exceptionTargets b) st b)).
Definition set_targets (ts : list FlowId) : TravM unit :=
  fl (modify (λ b, set_walk (flow b) (container b) (fnScope b) ts (storing b) b)).
Definition set_function (f : FlowId) (c fs : option ScopeId) (ts : list FlowId) : TravM unit :=
  fl (modify (λ b, set_walk f c fs ts (storing b) b)).
Definition here : TravM FlowId := gets (λ b, flow (bld b)).
Definition go (f : FlowId) : TravM unit := fl (modify (set_flow f)).

(** The modes the binder is in, of which each is set and restored on its own. *)
Definition set_params (ip : bool) (ps : option ScopeId) : BindM unit :=
  modify (λ b, mkBinder (scopes b) (symbols b) (scopeOf b) (opened b) (cur b) (declaring b) (annexB b) (plain b)
    (inBody b) ip (bodyScope b) ps (nsPrefix b) (Conflicts b) (hoists b)).
Definition set_body (ib : bool) (bs : option ScopeId) : BindM unit :=
  modify (λ b, mkBinder (scopes b) (symbols b) (scopeOf b) (opened b) (cur b) (declaring b) (annexB b) (plain b)
    ib (inParams b) bs (paramScope b) (nsPrefix b) (Conflicts b) (hoists b)).
Definition set_plain (p : bool) : BindM unit :=
  modify (λ b, mkBinder (scopes b) (symbols b) (scopeOf b) (opened b) (cur b) (declaring b) (annexB b) p
    (inBody b) (inParams b) (bodyScope b) (paramScope b) (nsPrefix b) (Conflicts b) (hoists b)).
Definition set_declaring (d : bool) : BindM unit :=
  modify (λ b, mkBinder (scopes b) (symbols b) (scopeOf b) (opened b) (cur b) d (annexB b) (plain b)
    (inBody b) (inParams b) (bodyScope b) (paramScope b) (nsPrefix b) (Conflicts b) (hoists b)).

(** A loop over a slice. *)
Definition each {A} (f : A → TravM unit) : list A → TravM unit :=
  fix each xs := match xs with [] => mret tt | x :: xs => f x ≫= λ _, each xs end.
Definition opt {A} (f : A → TravM unit) (x : option A) : TravM unit :=
  match x with Some x => f x | None => mret tt end.

(** ** Tests and names *)

(** [iifeCallee]. *)
Definition iifeCallee (e : Node) : bool :=
  match nkind e with
  | FunctionExpression _ f => negb (is_async f) && negb (is_generator f)
  | ArrowFunction f => negb (is_async f)
  | _ => false
  end.

(** [extendsAssignments]. *)
Definition extendsAssignments (n : Node) : bool :=
  match nkind n with
  | VarDeclaration _ _ _ _ _ _ | ExpressionStatement _ | IfStatement _ _ _ | DoWhileStatement _ _ | WhileStatement _ _
  | ForStatement _ _ _ _ | ForInStatement _ _ _ _ | ForOfStatement _ _ _ _ _ _ | SwitchStatement _ _
  | TryStatement _ _ _ => true
  | _ => false
  end.

(** [dottedName]. *)
Fixpoint dottedName (e : Node) : bool :=
  match e with
  | mkNode _ _ (Identifier _ | ThisExpression | SuperExpression) => true
  | mkNode _ _ (MemberExpression o _ optional _) => negb optional && dottedName o
  | _ => false
  end.

(** [rootIdentifier]: the loop, and the test before it. *)
Fixpoint root_is_name (e : Node) : bool :=
  match e with
  | mkNode _ _ (MemberExpression o _ _ _) | mkNode _ _ (IndexExpression o _ _ _) => root_is_name o
  | mkNode _ _ (Identifier _ | ThisExpression) => true
  | _ => false
  end.
Definition rootIdentifier (e : Node) : bool :=
  match nkind e with
  | MemberExpression _ _ _ _ | IndexExpression _ _ _ _ => root_is_name e
  | _ => false
  end.

(** [nonNullTest]: the new nodes are never a key of a table, so that their
    identity is no matter. *)
Definition nonNullTest (x : Node) : Node :=
  mkNode (nid x) (npos x) (BinaryExpression "!=" x (mkNode (nid x) (npos x) (NullLiteral false false))).

(** [arrayPatternNames] and [objectPatternNames]. *)
Fixpoint arrayPatternName (e : ArrayPatternElem) : list string :=
  match e with
  | mkElem name _ (Some sub) _ => concat (map arrayPatternName sub)
  | mkElem name _ None (Some sub) => concat (map objectPatternName sub)
  | mkElem name _ None None => if bool_decide (name = "") then [] else [name]
  end
with objectPatternName (p : DestructProp) : list string :=
  match p with
  | mkProp _ name _ (Some sub) _ => concat (map arrayPatternName sub)
  | mkProp _ name _ None (Some sub) => concat (map objectPatternName sub)
  | mkProp _ name _ None None => if bool_decide (name = "") then [] else [name]
  end.
Definition arrayPatternNames (elems : list ArrayPatternElem) : list string := concat (map arrayPatternName elems).
Definition objectPatternNames (props : list DestructProp) : list string := concat (map objectPatternName props).

(** The children [ForEachChild] passes on, for the nodes [visitNode] has no
    case of its own for or whose case calls it. *)
Definition ForEachChild (n : Node) : list Node :=
  match nkind n with
  | UnaryExpression _ a | NonNullExpression a | SpreadElement a => [a]
  | BinaryExpression _ l r => [l; r]
  | CallExpression callee args _ _ => callee :: args
  | NewExpression _ callee args => option_list callee ++ args
  | MemberExpression o _ _ _ => [o]
  | IndexExpression o i _ _ => [o; i]
  | ArrayLiteral es => es
  | ObjectLiteral ps => concat (map (λ '(mkProperty k v), option_list k ++ [v]) ps)
  | ExportDeclaration d => option_list d
  | ReturnStatement v | ThrowStatement v => option_list v
  | OtherNode _ cs => cs
  | _ => []
  end.

(** [unmangled], and [local]. *)
Definition unmangled (name : string) : BindM string :=
  b ← get;
  if bool_decide (nsPrefix b = "") then mret name
  else
    c ← deref (cur b);
    sc ← scope c;
    mret (if is_scope NamespaceScope sc then trim_prefix name (nsPrefix b) else name).
Definition local_ (name : string) : BindM (option SymId) :=
  b ← get;
  c ← deref (cur b);
  name ← unmangled name;
  sc ← scope c;
  mret (Get (Symbols sc) name).

(** [jumpTarget]: where a break (or, with [cont], a continue) goes. *)
Fixpoint jump_in (ts : list jumpTarget) (label : string) (cont : bool) : option jumpTarget :=
  match ts with
  | [] => None
  | t :: ts =>
      if negb (bool_decide (label = "")) && negb (bool_decide (jlabel t = label)) then jump_in ts label cont
      else if cont && bool_decide (continueTo t = None) then
        if negb (bool_decide (label = "")) then None else jump_in ts label cont
      else if bool_decide (label = "") && breakOnly t then jump_in ts label cont
      else Some t
  end.
Definition findJump (label : string) (cont : bool) : TravM (option jumpTarget) :=
  gets (λ b, jump_in (jumps (ctl b)) label cont).

(** [takeLabel]. *)
Definition takeLabel : TravM string :=
  l ← gets (λ b, pendingLabel (ctl b));
  control_ (set_pendingLabel "") ≫= λ _,
  mret l.

(** A declaration that states the return type never, and [returnsNever]. *)
Definition states_never (d : Declaration) : bool :=
  match DNode d with
  | Some n =>
      match nkind n with
      | FunctionDeclaration _ _ f =>
          match return_type f with Some t => bool_decide (TAKeyword t = "never") | None => false end
      | _ => false
      end
  | None => false
  end.
Definition never_call (refs : gmap nat SymId) (ss : list Symbol) (call : Node) : bool :=
  match nkind call with
  | CallExpression callee _ false _ =>
      match nkind callee with
      | Identifier _ =>
          match refs !! nid callee with
          | Some s =>
              match ss !! s with
              | Some sym => negb (length (Declarations sym) =? 0)%nat && forallb states_never (Declarations sym)
              | None => false
              end
          | None => false
          end
      | _ => false
      end
  | _ => false
  end.
Definition returnsNever (call : Node) : TravM bool :=
  gets (λ b, never_call (t_refs (tab b)) (symbols (bnd (bld b))) call).

Definition flowing_ : TravM bool := gets (λ b, flowing (bld b)).

(** [b.flow = &FlowNode{Flags: flags, Antecedent: b.flow, Node: n}], on a live path. *)
Definition followFlow (flags : Z) (n : Node) : TravM unit :=
  b ← gets bld;
  if flowing b && negb (flow b =? unreachableFlow)%nat then
    f ← fl (alloc (mkFlowNode flags (Some (flow b)) [] None None (Some n) 0 false false None));
    go f
  else mret tt.

(** [b.flow = b.condition(f, cond, truthy)]. *)
Definition goCondition (f : FlowId) (cond : option Node) (truthy : bool) : TravM unit :=
  f ← fl (condition f cond truthy); go f.
Definition goFinish (label : FlowId) : TravM unit := f ← fl (finish label); go f.
Definition goJoin (fs : list FlowId) : TravM unit := f ← fl (join fs); go f.
(** [addAntecedent(label, b.flow)]. *)
Definition addHere (label : FlowId) : TravM unit := f ← here; fl (addAntecedent label (Some f)).

(** ** Leaves *)

Definition set_refs (r : gmap nat SymId) (t : tables) : tables :=
  mkTables r (t_undefinedRefs t) (t_globals t) (t_lookupScopes t) (t_refFlow t) (t_refContainer t) (t_refOrd t)
    (t_refScope t) (t_accesses t) (t_written t) (t_asserted t) (t_exported t) (t_newTargets t) (t_fnScopes t)
    (t_endFlow t) (t_this t).
Definition set_undefinedRefs (r : gmap nat SymId) (t : tables) : tables :=
  mkTables (t_refs t) r (t_globals t) (t_lookupScopes t) (t_refFlow t) (t_refContainer t) (t_refOrd t)
    (t_refScope t) (t_accesses t) (t_written t) (t_asserted t) (t_exported t) (t_newTargets t) (t_fnScopes t)
    (t_endFlow t) (t_this t).
Definition set_lookup (g : gset nat) (l : gmap nat (option ScopeId)) (t : tables) : tables :=
  mkTables (t_refs t) (t_undefinedRefs t) g l (t_refFlow t) (t_refContainer t) (t_refOrd t)
    (t_refScope t) (t_accesses t) (t_written t) (t_asserted t) (t_exported t) (t_newTargets t) (t_fnScopes t)
    (t_endFlow t) (t_this t).
Definition set_access (n : Node) (f : FlowId) (c : option ScopeId) (o : Z) (s : option ScopeId) (t : tables) : tables :=
  mkTables (t_refs t) (t_undefinedRefs t) (t_globals t) (t_lookupScopes t) (<[nid n := f]> (t_refFlow t))
    (<[nid n := c]> (t_refContainer t)) (<[nid n := o]> (t_refOrd t)) (<[nid n := s]> (t_refScope t))
    (t_accesses t ++ [n]) (t_written t) (t_asserted t) (t_exported t) (t_newTargets t) (t_fnScopes t)
    (t_endFlow t) (t_this t).
Definition set_marks (w a e : gset nat) (t : tables) : tables :=
  mkTables (t_refs t) (t_undefinedRefs t) (t_globals t) (t_lookupScopes t) (t_refFlow t) (t_refContainer t) (t_refOrd t)
    (t_refScope t) (t_accesses t) w a e (t_newTargets t) (t_fnScopes t) (t_endFlow t) (t_this t).
Definition set_newTargets (m : gmap nat SymId) (t : tables) : tables :=
  mkTables (t_refs t) (t_undefinedRefs t) (t_globals t) (t_lookupScopes t) (t_refFlow t) (t_refContainer t) (t_refOrd t)
    (t_refScope t) (t_accesses t) (t_written t) (t_asserted t) (t_exported t) m (t_fnScopes t)
    (t_endFlow t) (t_this t).
Definition set_fnScopes (m : gmap nat ScopeId) (e : gmap nat FlowId) (t : tables) : tables :=
  mkTables (t_refs t) (t_undefinedRefs t) (t_globals t) (t_lookupScopes t) (t_refFlow t) (t_refContainer t) (t_refOrd t)
    (t_refScope t) (t_accesses t) (t_written t) (t_asserted t) (t_exported t) (t_newTargets t) m e (t_this t).
Definition set_this (m : gmap nat (option ScopeId * FlowId * bool)) (t : tables) : tables :=
  mkTables (t_refs t) (t_undefinedRefs t) (t_globals t) (t_lookupScopes t) (t_refFlow t) (t_refContainer t) (t_refOrd t)
    (t_refScope t) (t_accesses t) (t_written t) (t_asserted t) (t_exported t) (t_newTargets t) (t_fnScopes t) (t_endFlow t) m.

(** An identifier: a reference, or with [writing] the target of a store. *)
Definition visitIdentifier (n : Node) (name : string) : TravM unit :=
  w ← flowing_;
  if negb w then mret tt
  else
    sym ← bd (resolveName name);
    b ← get;
    (match sym with
     | Some s => table_ (λ t, set_refs (<[nid n := s]> (t_refs t)) t)
     | None => table_ (λ t, set_lookup ({[nid n]} ∪ t_globals t) (<[nid n := cur (bnd (bld b))]> (t_lookupScopes t)) t)
     end) ≫= λ _,
    table_ (set_access n (flow (bld b)) (container (bld b)) (ord (bld b)) (cur (bnd (bld b)))) ≫= λ _,
    if writing (ctl b) then
      table_ (λ t, set_marks ({[nid n]} ∪ t_written t) (t_asserted t) (t_exported t) t) ≫= λ _,
      fl (assignFlow sym false true)
    else mret tt.

(** [this] and [super]. *)
Definition visitThis (n : Node) : TravM unit :=
  w ← flowing_;
  if negb w then mret tt
  else
    b ← get;
    owner ← bd (thisScope (cur (bnd (bld b))));
    o ← bd (deref owner);
    home ← bd (containerOf o);
    table_ (λ t, set_this (<[nid n := (owner, flow (bld b), bool_decide (container (bld b) = Some home))]> (t_this t)) t).

Definition visitNull (n : Node) (isUndefined void : bool) : TravM unit :=
  w ← flowing_;
  if isUndefined && negb void && w then
    sym ← bd (resolveName "undefined");
    match sym with
    | Some s => table_ (λ t, set_undefinedRefs (<[nid n := s]> (t_undefinedRefs t)) t)
    | None => mret tt
    end
  else mret tt.

(** The class of a [new X(...)] that names it without a qualifier. *)
Definition newTarget (n : Node) (className : string) : TravM unit :=
  w ← flowing_;
  if negb w then mret tt
  else
    sym ← bd (resolveName className);
    b ← get;
    match sym with
    | Some s => table_ (λ t, set_newTargets (<[nid n := s]> (t_newTargets t)) t)
    | None => table_ (λ t, set_lookup (t_globals t) (<[nid n := cur (bnd (bld b))]> (t_lookupScopes t)) t)
    end.

(** A name declared in the current scope, its symbol not looked at. *)
Definition declareHere (name : string) (flags : SymbolFlags) (kind : DeclKind) (n : Node) : TravM unit :=
  bd (c ← gets cur; declare c name flags kind (Some n) ≫= λ _, mret tt).
Definition declareIn (s : ScopeId) (n : Node) (name : string) : TravM unit :=
  bd (declare (Some s) name FunctionScopedVariable VarLike (Some n) ≫= λ _, mret tt).

(** [assignNames]. *)
Definition assignName (kind name : string) : TravM unit :=
  if bool_decide (name = "") then mret tt
  else if bool_decide (kind = "var") then s ← bd (resolveName name); fl (assignFlow s false true)
  else s ← bd (local_ name); fl (assignFlow s true true).
Definition assignNames (kind : string) (names : list string) : TravM unit :=
  w ← flowing_;
  if negb w then mret tt else each (assignName kind) names.

(** The names of a pattern or loop head, declared. *)
Definition declareNames (kind : string) (names : list string) (n : Node) : TravM unit :=
  each (λ name, bd (declareVariable kind name (Some n))) names.

(** ** The cases of [visitNode] *)

Section visit.
Variable visit : Node → TravM unit.

(** [statements]; and [visitBody], the block of a loop or catch. *)
Definition statements (ss : list Node) : TravM unit := each visit ss.
Definition visitBody (body : option Block) : TravM unit := opt (λ b, visit (as_node b)) body.
(** [ast.ForEachChild(n, ...)] with [visit]. *)
Definition visitChildren (n : Node) : TravM unit := each visit (ForEachChild n).

(** [initializer]. *)
Definition initializer (d : option Node) : TravM unit :=
  match d with
  | None => mret tt
  | Some d => pre ← here; visit d ≫= λ _, f ← here; goJoin [pre; f]
  end.

(** [patternDefaults], by the parts of a pattern. *)
Fixpoint elemDefaults (e : ArrayPatternElem) : TravM unit :=
  match e with
  | mkElem _ d sa so =>
      initializer d ≫= λ _,
      match sa with Some l => each elemDefaults l | None => mret tt end ≫= λ _,
      match so with Some l => each propDefaults l | None => mret tt end
  end
with propDefaults (p : DestructProp) : TravM unit :=
  match p with
  | mkProp k _ d sa so =>
      opt visit k ≫= λ _,
      initializer d ≫= λ _,
      match sa with Some l => each elemDefaults l | None => mret tt end ≫= λ _,
      match so with Some l => each propDefaults l | None => mret tt end
  end.
Definition patternDefaults (arr : list ArrayPatternElem) (obj : list DestructProp) : TravM unit :=
  each elemDefaults arr ≫= λ _, each propDefaults obj.

(** [bindPattern], by the parts of a pattern. *)
Fixpoint bindElem (kind : string) (e : ArrayPatternElem) : TravM unit :=
  match e with
  | mkElem name d sa so =>
      opt visit d ≫= λ _,
      match sa, so with
      | None, None => assignNames kind [name]
      | _, _ =>
          match sa with Some l => each (bindElem kind) l | None => mret tt end ≫= λ _,
          match so with Some l => each (bindProp kind) l | None => mret tt end
      end
  end
with bindProp (kind : string) (p : DestructProp) : TravM unit :=
  match p with
  | mkProp k name d sa so =>
      opt visit k ≫= λ _,
      opt visit d ≫= λ _,
      match sa, so with
      | None, None => assignNames kind [name]
      | _, _ =>
          match sa with Some l => each (bindElem kind) l | None => mret tt end ≫= λ _,
          match so with Some l => each (bindProp kind) l | None => mret tt end
      end
  end.
Definition bindPattern (kind : string) (arr : list ArrayPatternElem) (obj : list DestructProp) : TravM unit :=
  each (bindElem kind) arr ≫= λ _, each (bindProp kind) obj.

(** [loopBody]. *)
Definition loopBody (exit cont : FlowId) (body : option Block) : TravM unit :=
  l ← takeLabel;
  control_ (λ c, set_jumps (mkJump l exit (Some cont) false :: jumps c) c) ≫= λ _,
  visitBody body ≫= λ _,
  control_ (λ c, set_jumps (tail (jumps c)) c).

Definition visitBlock (n : Node) (body : list Node) : TravM unit :=
  s ← bd (enter (nid n) (Some n) 0 BlockScope);
  fl (scopeStartFlow s) ≫= λ _,
  statements body ≫= λ _,
  bd leave.

Definition visitVarDeclaration (n : Node) (kind name : string) (init : option Node) : TravM unit :=
  bd (declareVariable kind name (Some n)) ≫= λ _,
  opt visit init ≫= λ _,
  set_storing (Some n) ≫= λ _,
  (if negb (bool_decide (kind = "var")) then
     s ← bd (local_ name); fl (assignFlow s true (bool_decide (is_Some init)))
   else if bool_decide (is_Some init) then
     name ← bd (unmangled name); s ← bd (resolveName name); fl (assignFlow s false true)
   else mret tt) ≫= λ _,
  set_storing None.

Definition visitArrayDestructuring (n : Node) (kind : string) (elems : list ArrayPatternElem) (init : option Node) : TravM unit :=
  declareNames kind (arrayPatternNames elems) n ≫= λ _,
  opt visit init ≫= λ _,
  bindPattern kind elems [].
Definition visitObjectDestructuring (n : Node) (kind : string) (props : list DestructProp) (init : option Node) : TravM unit :=
  declareNames kind (objectPatternNames props) n ≫= λ _,
  opt visit init ≫= λ _,
  bindPattern kind [] props.

(** The parameters of [function]: declared, then their defaults visited. *)
Definition declareParam (s : ScopeId) (n : Node) (p : Param) : TravM unit :=
  match p with
  | mkParam name _ arr obj _ =>
      declareIn s n name ≫= λ _,
      each (declareIn s n) (arrayPatternNames arr) ≫= λ _,
      each (declareIn s n) (objectPatternNames obj)
  end.
Definition visitParam (p : Param) : TravM unit :=
  match p with
  | mkParam _ d arr obj decorators =>
      each visit decorators ≫= λ _,
      initializer d ≫= λ _,
      patternDefaults arr obj
  end.
(** A parameter's position, for the one the scope has. *)
Definition notePosition (s : ScopeId) (p : Param) : TravM unit :=
  sc ← bd (scope s);
  match Get (Symbols sc) (param_name p) with
  | Some id => fl (modify (λ b, set_declOrd (<[id := ord b]> (declOrd b)) b))
  | None => mret tt
  end.

(** The part of [function] in the function's scope: parameters and body. *)
Definition functionParts (s : ScopeId) (n : Node) (f : FunctionData) (arrow : bool) : TravM unit :=
  w ← flowing_;
  (if (w : bool) then each (notePosition s) (params f) else mret tt) ≫= λ _,
  (if arrow then mret tt else bd (declareArguments s)) ≫= λ _,
  each (declareParam s n) (params f) ≫= λ _,
  modes ← gets (λ b, bnd (bld b));
  bd (set_params true (Some s)) ≫= λ _,
  each visitParam (params f) ≫= λ _,
  bd (set_params (inParams modes) (paramScope modes)) ≫= λ _,
  bd (set_body true (Some s)) ≫= λ _,
  match fn_body f with
  | Some body =>
      statements (stmts_of body) ≫= λ _,
      b ← gets bld;
      if flowing b && negb (flow b =? unreachableFlow)%nat
      then table_ (λ t, set_fnScopes (t_fnScopes t) (<[block_id body := flow b]> (t_endFlow t)) t)
      else mret tt
  | None => mret tt
  end ≫= λ _,
  opt visit (expr_body f) ≫= λ _,
  bd (set_body (inBody modes) (bodyScope modes)) ≫= λ _,
  bd leave.

(** [function]. *)
Definition function (n : Node) (f : FunctionData) (arrow : bool) : TravM unit :=
  s ← bd (enter (nid n) (Some n) 0 FunctionScope);
  table_ (λ t, set_fnScopes (<[nid n := s]> (t_fnScopes t)) (t_endFlow t) t) ≫= λ _,
  each (λ tp, bd (declare (Some s) tp TypeParameter TypeOnly (Some n) ≫= λ _, mret tt)) (type_params f) ≫= λ _,
  saved ← get;
  control_ (λ c, set_jumps [] (set_iife None c)) ≫= λ _,
  if bool_decide (iife (ctl saved) = Some (nid n)) then
    bd (markInline s) ≫= λ _,
    r ← fl (newLabel FlowBranchLabel []);
    control_ (set_returnTo (Some r)) ≫= λ _,
    set_function (flow (bld saved)) (container (bld saved)) (Some s) (exceptionTargets (bld saved)) ≫= λ _,
    fl (scopeStartFlow s) ≫= λ _,
    functionParts s n f arrow ≫= λ _,
    b ← get;
    (if flowing (bld b) then
       r ← bd (deref (returnTo (ctl b)));
       addHere r ≫= λ _,
       goFinish r
     else mret tt) ≫= λ _,
    control_ (λ c, set_jumps (jumps (ctl saved)) (set_returnTo (returnTo (ctl saved)) c)) ≫= λ _,
    b ← gets bld;
    set_function (flow b) (container b) (fnScope (bld saved)) (exceptionTargets b)
  else
    let closure := match nkind n with FunctionExpression _ _ | ArrowFunction _ => Some (flow (bld saved)) | _ => None end in
    start ← fl (alloc (mkFlowNode FlowStart None [] (Some s) None None 0 false false closure));
    control_ (set_returnTo None) ≫= λ _,
    set_function start (Some s) (Some s) [] ≫= λ _,
    functionParts s n f arrow ≫= λ _,
    control_ (λ c, set_jumps (jumps (ctl saved)) (set_returnTo (returnTo (ctl saved)) c)) ≫= λ _,
    set_function (flow (bld saved)) (container (bld saved)) (fnScope (bld saved)) (exceptionTargets (bld saved)).

Definition visitFunctionDeclaration (n : Node) (name : string) (f : FunctionData) : TravM unit :=
  (match fn_body f with
   | Some _ =>
       bd (set_plain (negb (is_async f) && negb (is_generator f))) ≫= λ _,
       kind ← bd functionDeclKind;
       declareHere name Function kind n ≫= λ _,
       bd (set_plain false)
   | None => mret tt
   end) ≫= λ _,
  function n f false.

Definition visitFunctionExpression (n : Node) (name : string) (f : FunctionData) : TravM unit :=
  let named := negb (bool_decide (name = "")) in
  (if named then
     bd (enter (nid n) (Some n) 1 NameScope) ≫= λ _,
     declareHere name Function NameOnly n
   else mret tt) ≫= λ _,
  function n f false ≫= λ _,
  (if named then bd leave else mret tt).

Definition visitImport (n : Node) (locals : list string) (namespace : string) : TravM unit :=
  each (λ l, declareHere l Alias Lexical n) locals ≫= λ _,
  declareHere namespace Alias Lexical n.

Definition visitIf (test : Node) (consequent : option Block) (alternate : option Node) : TravM unit :=
  visit test ≫= λ _,
  pre ← here;
  goCondition pre (Some test) true ≫= λ _,
  visitBody consequent ≫= λ _,
  thn ← here;
  goCondition pre (Some test) false ≫= λ _,
  opt visit alternate ≫= λ _,
  els ← here;
  goJoin [thn; els].

Definition visitConditional (test consequent alternate : Node) : TravM unit :=
  visit test ≫= λ _,
  pre ← here;
  goCondition pre (Some test) true ≫= λ _,
  visit consequent ≫= λ _,
  thn ← here;
  goCondition pre (Some test) false ≫= λ _,
  visit alternate ≫= λ _,
  els ← here;
  goJoin [thn; els].

(** The short-circuit operators. *)
Definition visitLogical (op : string) (left right : Node) : TravM unit :=
  visit left ≫= λ _,
  pre ← here;
  short ← (if negb (bool_decide (op = "??")) then
             goCondition pre (Some left) (bool_decide (op = "&&")) ≫= λ _,
             fl (condition pre (Some left) (negb (bool_decide (op = "&&"))))
           else mret pre);
  visit right ≫= λ _,
  f ← here;
  goJoin [short; f].

(** [if !alwaysTrue(test) { addAntecedent(exit, b.condition(b.flow, test, false)) }]. *)
Definition exitUnless (test : option Node) (exit : FlowId) : TravM unit :=
  if alwaysTrue test then mret tt
  else f ← here; c ← fl (condition f test false); fl (addAntecedent exit (Some c)).

Definition visitFor (n : Node) (init test : option Node) (update : list Node) (body : option Block) : TravM unit :=
  s ← bd (enter (nid n) (Some n) 0 BlockScope);
  fl (scopeStartFlow s) ≫= λ _,
  opt visit init ≫= λ _,
  f ← here;
  loop ← fl (newLabel FlowLoopLabel [f]);
  go loop ≫= λ _,
  opt visit test ≫= λ _,
  exit ← fl (newLabel FlowBranchLabel []);
  exitUnless test exit ≫= λ _,
  f ← here;
  goCondition f test true ≫= λ _,
  cont ← fl (newLabel FlowBranchLabel []);
  loopBody exit cont body ≫= λ _,
  addHere cont ≫= λ _,
  goFinish cont ≫= λ _,
  each visit update ≫= λ _,
  addHere loop ≫= λ _,
  goFinish exit ≫= λ _,
  bd leave.

Definition visitWhile (test : Node) (body : option Block) : TravM unit :=
  f ← here;
  loop ← fl (newLabel FlowLoopLabel [f]);
  go loop ≫= λ _,
  visit test ≫= λ _,
  exit ← fl (newLabel FlowBranchLabel []);
  exitUnless (Some test) exit ≫= λ _,
  f ← here;
  goCondition f (Some test) true ≫= λ _,
  loopBody exit loop body ≫= λ _,
  addHere loop ≫= λ _,
  goFinish exit.

Definition visitDoWhile (body : option Block) (test : Node) : TravM unit :=
  f ← here;
  loop ← fl (newLabel FlowLoopLabel [f]);
  go loop ≫= λ _,
  exit ← fl (newLabel FlowBranchLabel []);
  cont ← fl (newLabel FlowBranchLabel []);
  loopBody exit cont body ≫= λ _,
  addHere cont ≫= λ _,
  goFinish cont ≫= λ _,
  visit test ≫= λ _,
  f ← here;
  again ← fl (condition f (Some test) true);
  fl (addAntecedent loop (Some again)) ≫= λ _,
  exitUnless (Some test) exit ≫= λ _,
  goFinish exit.

(** [for (... of ...)]: its names, those of the patterns included. *)
Definition visitForOf (n : Node) (kind name : string) (arr : list ArrayPatternElem) (obj : list DestructProp)
    (iterable : Node) (body : option Block) : TravM unit :=
  visit iterable ≫= λ _,
  s ← bd (enter (nid n) (Some n) 0 BlockScope);
  declareNames kind ([name] ++ arrayPatternNames arr ++ objectPatternNames obj) n ≫= λ _,
  f ← here;
  loop ← fl (newLabel FlowLoopLabel [f]);
  go loop ≫= λ _,
  exit ← fl (newLabel FlowBranchLabel [loop]);
  fl (scopeStartFlow s) ≫= λ _,
  assignNames kind [name] ≫= λ _,
  bindPattern kind arr obj ≫= λ _,
  loopBody exit loop body ≫= λ _,
  addHere loop ≫= λ _,
  goFinish exit ≫= λ _,
  bd leave.

Definition visitForIn (n : Node) (kind name : string) (object : Node) (body : option Block) : TravM unit :=
  visit object ≫= λ _,
  s ← bd (enter (nid n) (Some n) 0 BlockScope);
  bd (declareVariable kind name (Some n)) ≫= λ _,
  f ← here;
  loop ← fl (newLabel FlowLoopLabel [f]);
  go loop ≫= λ _,
  exit ← fl (newLabel FlowBranchLabel [loop]);
  fl (scopeStartFlow s) ≫= λ _,
  set_storing (Some n) ≫= λ _,
  assignNames kind [name] ≫= λ _,
  loopBody exit loop body ≫= λ _,
  addHere loop ≫= λ _,
  goFinish exit ≫= λ _,
  bd leave.

Definition visitLabeled (label : string) (body : Node) : TravM unit :=
  match nkind body with
  | ForStatement _ _ _ _ | ForOfStatement _ _ _ _ _ _ | ForInStatement _ _ _ _ | WhileStatement _ _ | DoWhileStatement _ _ =>
      control_ (set_pendingLabel label) ≫= λ _,
      visit body
  | _ =>
      exit ← fl (newLabel FlowBranchLabel []);
      control_ (λ c, set_jumps (mkJump label exit None true :: jumps c) c) ≫= λ _,
      visit body ≫= λ _,
      control_ (λ c, set_jumps (tail (jumps c)) c) ≫= λ _,
      addHere exit ≫= λ _,
      goFinish exit
  end.

(** [break] and [continue]. *)
Definition visitJump (label : string) (cont : bool) : TravM unit :=
  t ← findJump label cont;
  w ← flowing_;
  match t with
  | Some t =>
      if (w : bool) then
        f ← here; fl (addAntecedent (if cont then default unreachableFlow (continueTo t) else breakTo t) (Some f))
      else mret tt
  | None => mret tt
  end ≫= λ _,
  fl unreachable.

Definition visitReturn (n : Node) (is_return : bool) : TravM unit :=
  visitChildren n ≫= λ _,
  b ← get;
  match returnTo (ctl b) with
  | Some r => if is_return && flowing (bld b) then addHere r else mret tt
  | None => mret tt
  end ≫= λ _,
  fl unreachable.

Definition visitExpressionStatement (e : Node) : TravM unit :=
  visit e ≫= λ _,
  w ← flowing_;
  match nkind e with
  | CallExpression _ _ _ _ =>
      if (w : bool) then never ← returnsNever e; if (never : bool) then fl unreachable else mret tt else mret tt
  | _ => mret tt
  end.

Definition visitCall (n callee : Node) (args : list Node) : TravM unit :=
  if iifeCallee callee then
    each visit args ≫= λ _,
    control_ (set_iife (Some (nid callee))) ≫= λ _,
    visit callee ≫= λ _,
    control_ (set_iife None)
  else
    visitChildren n ≫= λ _,
    if dottedName callee then followFlow FlowCall n else mret tt.

(** A store to the symbol of the identifier [l], in the resolving pass. *)
Definition storeTo (l : Node) : TravM unit :=
  w ← flowing_;
  if (w : bool) then b ← gets tab; fl (assignFlow (t_refs b !! nid l) false true) else mret tt.

Definition visitUpdate (arg : Node) : TravM unit :=
  visit arg ≫= λ _,
  match nkind arg with Identifier _ => storeTo arg | _ => mret tt end.

(** [visitTarget]. *)
Fixpoint visitTarget (t : Node) : TravM unit :=
  match t with
  | mkNode _ _ (Identifier _) =>
      saved ← gets (λ b, storing (bld b));
      set_storing (Some t) ≫= λ _,
      control_ (set_writing true) ≫= λ _,
      visit t ≫= λ _,
      set_storing saved ≫= λ _,
      control_ (set_writing false)
  | mkNode _ _ (ArrayLiteral es) => each visitTarget es
  | mkNode _ _ (ObjectLiteral ps) =>
      each (λ '(mkProperty k v), opt visit k ≫= λ _, visitTarget v) ps
  | mkNode _ _ (AssignmentExpression _ l r) => visit r ≫= λ _, visitTarget l
  | mkNode _ _ (SpreadElement a) => visitTarget a
  | _ => visit t
  end.

(** [visitAssignment]: its logical operators, and the rest. *)
Definition visitLogicalAssignment (n : Node) (op : string) (l r : Node) : TravM unit :=
  visit l ≫= λ _,
  pre ← here;
  let test := if bool_decide (op = "??=") then nonNullTest l else l in
  let stores := bool_decide (op = "&&=") in
  goCondition pre (Some test) stores ≫= λ _,
  visit r ≫= λ _,
  set_storing (Some n) ≫= λ _,
  storeTo l ≫= λ _,
  set_storing None ≫= λ _,
  skipped ← fl (condition pre (Some test) (negb stores));
  f ← here;
  goJoin [skipped; f].
Definition visitAssignment (n : Node) (op : string) (l r : Node) : TravM unit :=
  match nkind l with
  | Identifier _ =>
      if bool_decide (op = "&&=") || bool_decide (op = "||=") || bool_decide (op = "??=")
      then visitLogicalAssignment n op l r
      else
        visit r ≫= λ _,
        set_storing (Some n) ≫= λ _,
        (if bool_decide (op = "=") then
           control_ (set_writing true) ≫= λ _,
           visit l ≫= λ _,
           control_ (set_writing false)
         else
           visit l ≫= λ _,
           storeTo l) ≫= λ _,
        set_storing None
  | ArrayLiteral _ | ObjectLiteral _ => visit r ≫= λ _, visitTarget l
  | _ =>
      visit l ≫= λ _,
      visit r ≫= λ _,
      if rootIdentifier l then followFlow FlowPropertyAssignment n else mret tt
  end.

(** The clauses of a switch from the [i]th on; the flow a clause falls through
    with is the last of them. *)
Fixpoint visitCases (n : Node) (pre : FlowId) (i : Z) (cases : list SwitchCase) (through : FlowId) : TravM FlowId :=
  match cases with
  | [] => mret through
  | mkCase test body :: cases =>
      c ← fl (switchClause pre n i);
      goJoin [c; through] ≫= λ _,
      opt visit test ≫= λ _,
      statements body ≫= λ _,
      f ← here;
      visitCases n pre (i + 1) cases f
  end.
Definition visitSwitch (n discriminant : Node) (cases : list SwitchCase) : TravM unit :=
  visit discriminant ≫= λ _,
  s ← bd (enter (nid n) (Some n) 0 BlockScope);
  fl (scopeStartFlow s) ≫= λ _,
  pre ← here;
  exit ← fl (newLabel FlowBranchLabel []);
  l ← takeLabel;
  control_ (λ c, set_jumps (mkJump l exit None false :: jumps c) c) ≫= λ _,
  through ← visitCases n pre 0 cases unreachableFlow;
  control_ (λ c, set_jumps (tail (jumps c)) c) ≫= λ _,
  fl (addAntecedent exit (Some through)) ≫= λ _,
  (if existsb (λ '(mkCase t _), bool_decide (t = None)) cases then mret tt
   else c ← fl (switchClause pre n (-1)); fl (addAntecedent exit (Some c))) ≫= λ _,
  goFinish exit ≫= λ _,
  bd leave.

(** A catch clause, entered in state [pre]; the answer is the flow after the
    statement. *)
Definition visitCatch (n : Node) (pre after : FlowId) (c : CatchClause) : TravM FlowId :=
  match c with
  | mkCatch param pattern body =>
      go pre ≫= λ _,
      s ← bd (enter (nid n) (Some n) 1 CatchScope);
      fl (scopeStartFlow s) ≫= λ _,
      declareIn s n param ≫= λ _,
      each (declareIn s n) (objectPatternNames pattern) ≫= λ _,
      patternDefaults [] pattern ≫= λ _,
      opt (λ b, statements (stmts_of b)) body ≫= λ _,
      bd leave ≫= λ _,
      f ← here;
      fl (join [after; f])
  end.
Definition visitTry (n : Node) (body : option Block) (catch : option CatchClause) (finally : option Block) : TravM unit :=
  pre ← here;
  w ← flowing_;
  exc ← (if bool_decide (is_Some finally) && w then
           exc ← fl (newLabel FlowBranchLabel [pre]);
           ts ← gets (λ b, exceptionTargets (bld b));
           set_targets (ts ++ [exc]) ≫= λ _,
           mret (Some exc)
         else mret None);
  visitBody body ≫= λ _,
  after ← here;
  after ← match catch with Some c => visitCatch n pre after c | None => mret after end;
  match exc with
  | Some _ => ts ← gets (λ b, exceptionTargets (bld b)); set_targets (take (length ts - 1) ts)
  | None => mret tt
  end ≫= λ _,
  match exc with
  | Some exc =>
      if (after =? unreachableFlow)%nat then
        goFinish exc ≫= λ _,
        visitBody finally ≫= λ _,
        go unreachableFlow
      else go after ≫= λ _, visitBody finally
  | None => go after ≫= λ _, visitBody finally
  end.

(** [visitNode]. *)
Definition visitNode (n : Node) : TravM unit :=
  match nkind n with
  | NonNullExpression a =>
      match nkind a with
      | Identifier _ => table_ (λ t, set_marks (t_written t) ({[nid a]} ∪ t_asserted t) (t_exported t) t)
      | _ => mret tt
      end
  | _ => mret tt
  end ≫= λ _,
  match nkind n with
  | ThisExpression | SuperExpression => visitThis n
  | Identifier name => visitIdentifier n name
  | NullLiteral u v => visitNull n u v
  | NewExpression name _ _ => newTarget n name ≫= λ _, visitChildren n
  | BlockStatement body => visitBlock n body
  | VarDeclaration kind name _ init _ _ => visitVarDeclaration n kind name init
  | ArrayDestructuring kind elems init => visitArrayDestructuring n kind elems init
  | ObjectDestructuring kind props init => visitObjectDestructuring n kind props init
  | FunctionDeclaration name _ f => visitFunctionDeclaration n name f
  | FunctionExpression name f => visitFunctionExpression n name f
  | ArrowFunction f => function n f true
  | InterfaceDeclaration name => declareHere name Interface TypeOnly n
  | TypeAliasDeclaration name => declareHere name TypeAlias TypeOnly n
  | ImportDeclaration locals namespace => visitImport n locals namespace
  | ForStatement init test update body => visitFor n init test update body
  | WhileStatement test body => visitWhile test body
  | DoWhileStatement body test => visitDoWhile body test
  | IfStatement test consequent alternate => visitIf test consequent alternate
  | LabeledStatement label body => visitLabeled label body
  | BreakStatement label => visitJump label false
  | ContinueStatement label => visitJump label true
  | ReturnStatement _ => visitReturn n true
  | ThrowStatement _ => visitReturn n false
  | ExpressionStatement e => visitExpressionStatement e
  | CallExpression callee args _ _ => visitCall n callee args
  | AssignmentExpression op l r => visitAssignment n op l r
  | UpdateExpression arg => visitUpdate arg
  | BinaryExpression op l r =>
      if bool_decide (op = "&&") || bool_decide (op = "||") || bool_decide (op = "??")
      then visitLogical op l r else visitChildren n
  | ConditionalExpression test consequent alternate => visitConditional test consequent alternate
  | ForOfStatement kind name arr obj iterable body => visitForOf n kind name arr obj iterable body
  | ForInStatement kind name object body => visitForIn n kind name object body
  | SwitchStatement discriminant cases => visitSwitch n discriminant cases
  | TryStatement body catch finally => visitTry n body catch finally
  | UnaryExpression _ _ | NonNullExpression _ | MemberExpression _ _ _ _ | IndexExpression _ _ _ _ | ArrayLiteral _
  | ObjectLiteral _ | SpreadElement _ | StringLiteral _ | BooleanLiteral _ | ExportDeclaration _ | OtherNode _ _ =>
      visitChildren n
  end.

(** [visit], of the node itself. *)
Definition visit_one (n : Node) : TravM unit :=
  match nkind n with
  | ExportDeclaration (Some d) => table_ (λ t, set_marks (t_written t) (t_asserted t) ({[nid d]} ∪ t_exported t) t)
  | _ => mret tt
  end ≫= λ _,
  w ← flowing_;
  if negb w then visitNode n
  else
    fl (enterStmt (extendsAssignments n)) ≫= λ _,
    visitNode n ≫= λ _,
    if extendsAssignments n then fl leaveStmt else mret tt.
End visit.

(** The recursion, of which [fuel] bounds the depth. *)
Fixpoint visit (fuel : nat) (n : Node) : TravM unit :=
  match fuel with
  | O => λ b, (OutOfFuel, b)
  | S fuel => visit_one (visit fuel) n
  end.

(** ** [BindWith]

    A program without namespaces, worker modules and declaration files: its
    identity and statements. *)
Record Program := mkProgram { prog_id : nat; prog_body : list Node }.
Definition prog_node (p : Program) : Node := mkNode (prog_id p) (mkPos 0 0) (OtherNode "Program" (prog_body p)).

Definition bind_pass (fuel : nat) (p : Program) (declaring : bool) : TravM unit :=
  bd (set_declaring declaring) ≫= λ _,
  bd (modify (set_cur None)) ≫= λ _,
  m ← bd (enter (prog_id p) (Some (prog_node p)) 0 ModuleScope);
  start ← fl (alloc (mkFlowNode FlowStart None [] (Some m) None None 0 false false None));
  ts ← gets (λ b, exceptionTargets (bld b));
  set_function start (Some m) (Some m) ts ≫= λ _,
  each (visit fuel) (prog_body p) ≫= λ _,
  bd leave ≫= λ _,
  if declaring then bd checkHoists else mret tt.

Definition start_binder (annexB : bool) : binder :=
  mkBinder [] [] ∅ ∅ None true annexB false false false None None "" [] [].
Definition start_trav (annexB : bool) : trav :=
  mkTrav (mkBuilder (start_binder annexB) [unreachable_node] unreachableFlow None None [] None 0 [] ∅ ∅ ∅ ∅)
    (mkControl [] "" false None None)
    (mkTables ∅ ∅ ∅ ∅ ∅ ∅ ∅ ∅ [] ∅ ∅ ∅ ∅ ∅ ∅ ∅).

(** The [Binding] of the final state; a scope that is nil is in no table. *)
Definition some_values {A} (m : gmap nat (option A)) : gmap nat A := omap id m.
Definition binding_of (module : ScopeId) (script : bool) (b : trav) : Binding :=
  mkBinding (bnd (bld b)) (nodes (bld b)) (t_refs (tab b)) (t_refFlow (tab b)) (some_values (t_refContainer (tab b)))
    (some_values (t_refScope (tab b))) (t_refOrd (tab b)) (t_written (tab b)) (t_asserted (tab b))
    (t_undefinedRefs (tab b)) (foreignStores (bld b)) (stores (bld b)) (lastAssign (bld b)) (t_exported (tab b))
    (t_fnScopes (tab b)) module script (t_accesses (tab b)).

Definition BindWith (fuel : nat) (annexB script : bool) (p : Program) : outcome Empty_set Binding :=
  match (bind_pass fuel p true ≫= λ _, bind_pass fuel p false) (start_trav annexB) with
  | (Ok _, b) =>
      match scopeOf (bnd (bld b)) !! (prog_id p, 0%nat) with
      | Some m => Ok (binding_of m script b)
      | None => Panic
      end
  | (Err e, _) => Err e
  | (Panic, _) => Panic
  | (OutOfFuel, _) => OutOfFuel
  end.
