(* ===== verification/Exec.v ===== *)
(** * What a program may do

    The executions of a syntax tree, as traces: which stores and scope entries
    happen, in order, and how a piece of code ends.  Values are left out: a
    test may go either way (but a test that is literally true never fails), a
    loop may run any number of times.  This is the reference the flow graph of
    Traverse.v is compared with; it does not mention the graph. *)

From S2P Require Import Prelude Diag Ast Symbols Flow Traverse.

Open Scope Z_scope.

(** ** Events *)

(** What is stored to: through an identifier, or a name being declared. *)
Inductive target := TId (id : nat) | TName (kind name : string).
(** The key of a scope: the node that opens it and a tag. *)
Abbreviation key := (nat * nat)%type (only parsing).
(** A store with the node it is made by, when the language gives it one, and
    whether it initializes the binding and stores a value; entering a scope. *)
Inductive event :=
  | EStore (t : target) (src : option Node) (init assign : bool)
  | EEnter (scope : key).

(** How a piece of code ends: [At id] is not yet, but about to use [id]. *)
Inductive ending := Normal | Break (label : string) | Continue (label : string) | Return | Throw | At (id : nat).
#[export] Instance ending_eq_dec : EqDecision ending.
Proof. solve_decision. Defined.

(** ** Behaviours

    [now] are the executions of the code itself; [inside f tr id] those of the
    functions it creates: one call of the function [f], with the trace [tr],
    that comes to use [id]. *)
Record behaviour := mkBehaviour {
  now : list event → ending → Prop;
  inside : key → list event → nat → Prop }.

Definition nothing : behaviour := mkBehaviour (λ _ _, False) (λ _ _ _, False).
Definition ends_with (o : ending) : behaviour := mkBehaviour (λ tr o', tr = [] ∧ o' = o) (λ _ _ _, False).
Definition skip : behaviour := ends_with Normal.
(** The use of an identifier. *)
Definition use (id : nat) : behaviour :=
  mkBehaviour (λ tr o, tr = [] ∧ (o = Normal ∨ o = At id)) (λ _ _ _, False).
Definition emit (e : event) : behaviour := mkBehaviour (λ tr o, tr = [e] ∧ o = Normal) (λ _ _ _, False).
Definition seq (A B : behaviour) : behaviour :=
  mkBehaviour (λ tr o, (now A tr o ∧ o ≠ Normal) ∨ ∃ t1 t2, tr = t1 ++ t2 ∧ now A t1 Normal ∧ now B t2 o)
    (λ f tr id, inside A f tr id ∨ inside B f tr id).
Definition either (A B : behaviour) : behaviour :=
  mkBehaviour (λ tr o, now A tr o ∨ now B tr o) (λ f tr id, inside A f tr id ∨ inside B f tr id).
(** Some rounds, and the last, which may be cut short. *)
Inductive rounds (A : behaviour) : list event → ending → Prop :=
  | rounds_none : rounds A [] Normal
  | rounds_cut tr o : now A tr o → o ≠ Normal → rounds A tr o
  | rounds_more t1 t2 o : now A t1 Normal → rounds A t2 o → rounds A (t1 ++ t2) o.
Definition star (A : behaviour) : behaviour := mkBehaviour (rounds A) (inside A).

(** The labels that mean the loop labeled [l]: none, and its own. *)
Definition mine (l label : string) : bool := bool_decide (label = "") || bool_decide (label = l).
(** The rounds of a loop's body that go on with the loop, and those that leave it. *)
Definition looped (l : string) (A : behaviour) : behaviour :=
  mkBehaviour (λ tr o, match o with
                       | Normal => now A tr Normal ∨ ∃ l', mine l l' = true ∧ now A tr (Continue l')
                       | Break l' | Continue l' => mine l l' = false ∧ now A tr o
                       | _ => now A tr o
                       end) (inside A).
Definition broken (l : string) (A : behaviour) : behaviour :=
  mkBehaviour (λ tr o, o = Normal ∧ ∃ l', mine l l' = true ∧ now A tr (Break l')) (inside A).
(** A switch is left by a break; a labeled statement by a break to its label. *)
Definition switched (A : behaviour) : behaviour :=
  mkBehaviour (λ tr o, match o with
                       | Normal => now A tr Normal ∨ now A tr (Break "")
                       | Break l' => l' ≠ "" ∧ now A tr o
                       | _ => now A tr o
                       end) (inside A).
Definition labeled (l : string) (A : behaviour) : behaviour :=
  mkBehaviour (λ tr o, match o with
                       | Normal => now A tr Normal ∨ now A tr (Break l)
                       | Break l' | Continue l' => l' ≠ l ∧ now A tr o
                       | _ => now A tr o
                       end) (inside A).
(** A call of a function: its body, up to its return. *)
Definition called (A : behaviour) : behaviour :=
  mkBehaviour (λ tr o, match o with
                       | Normal => now A tr Normal ∨ now A tr Return
                       | Throw | At _ => now A tr o
                       | _ => False
                       end) (inside A).
(** A function, made but not called; [known] when its executions are given. *)
Definition closure (f : key) (known : bool) (A : behaviour) : behaviour :=
  mkBehaviour (now skip) (λ g tr id, (known = true ∧ g = f ∧ now A tr (At id)) ∨ inside A g tr id).

Definition seqs {A} (f : A → behaviour) : list A → behaviour :=
  fix seqs xs := match xs with [] => skip | x :: xs => seq (f x) (seqs xs) end.
Definition maybe {A} (f : A → behaviour) (x : option A) : behaviour :=
  match x with Some x => f x | None => skip end.
(** What is evaluated only sometimes. *)
Definition perhaps (A : behaviour) : behaviour := either skip A.

(** [A] does no more than [B]. *)
Definition sub (A B : behaviour) : Prop :=
  (∀ tr o, now A tr o → now B tr o) ∧ (∀ f tr id, inside A f tr id → inside B f tr id).

(** ** Which trees are modelled *)

Definition all {A} (f : A → bool) : list A → bool :=
  fix all xs := match xs with [] => true | x :: xs => f x && all xs end.
Definition all_opt {A} (f : A → bool) (x : option A) : bool := match x with Some x => f x | None => true end.

(** A loop a label can be given to. *)
Definition is_loop (n : Node) : bool :=
  match nkind n with
  | ForStatement _ _ _ _ | ForOfStatement _ _ _ _ _ _ | ForInStatement _ _ _ _ | WhileStatement _ _ | DoWhileStatement _ _ => true
  | _ => false
  end.

(** Part of an optional chain: what follows may be skipped. *)
Fixpoint chained (e : Node) : bool :=
  match e with
  | mkNode _ _ (CallExpression o _ optional chainEnd) | mkNode _ _ (MemberExpression o _ optional chainEnd)
  | mkNode _ _ (IndexExpression o _ optional chainEnd) => negb chainEnd && (optional || chained o)
  | mkNode _ _ (NonNullExpression o) => chained o
  | _ => false
  end.

(** An expression that stores nothing and enters no scope. *)
Fixpoint quiet (n : Node) : bool :=
  match n with
  | mkNode _ _ k =>
      match k with
      | Identifier _ | ThisExpression | SuperExpression | StringLiteral _ | BooleanLiteral _ | NullLiteral _ _
      | FunctionExpression _ _ | ArrowFunction _ => true
      | UnaryExpression _ a | NonNullExpression a | SpreadElement a | MemberExpression a _ _ _ => quiet a
      | BinaryExpression _ l r | IndexExpression l r _ _ => quiet l && quiet r
      | ConditionalExpression t c a => quiet t && quiet c && quiet a
      | CallExpression callee args _ _ => negb (iifeCallee callee) && quiet callee && all quiet args
      | NewExpression _ callee args => all_opt quiet callee && all quiet args
      | ArrayLiteral es => all quiet es
      | ObjectLiteral ps => all (λ '(mkProperty k v), all_opt quiet k && quiet v) ps
      | OtherNode _ cs => all quiet cs
      | _ => false
      end
  end.

(** A test of every node of a tree. *)
Section everywhere.
Variable p : Node → bool.
Fixpoint everywhere (n : Node) : bool :=
  p n &&
  match n with
  | mkNode _ _ k =>
      match k with
      | Identifier _ | ThisExpression | SuperExpression | StringLiteral _ | BooleanLiteral _ | NullLiteral _ _
      | InterfaceDeclaration _ | TypeAliasDeclaration _ | ImportDeclaration _ _ | BreakStatement _ | ContinueStatement _ => true
      | UnaryExpression _ a | UpdateExpression a | NonNullExpression a | SpreadElement a | MemberExpression a _ _ _
      | ExpressionStatement a | LabeledStatement _ a => everywhere a
      | BinaryExpression _ l r | AssignmentExpression _ l r | IndexExpression l r _ _ => everywhere l && everywhere r
      | ConditionalExpression t c a => everywhere t && everywhere c && everywhere a
      | CallExpression callee args _ _ => everywhere callee && all everywhere args
      | NewExpression _ callee args => all_opt everywhere callee && all everywhere args
      | ArrayLiteral es => all everywhere es
      | ObjectLiteral ps => all (λ '(mkProperty k v), all_opt everywhere k && everywhere v) ps
      | FunctionExpression _ f | ArrowFunction f | FunctionDeclaration _ _ f => everywhere_fn f
      | BlockStatement body => all everywhere body
      | VarDeclaration _ _ _ init _ _ => all_opt everywhere init
      | ArrayDestructuring _ elems init => all everywhere_elem elems && all_opt everywhere init
      | ObjectDestructuring _ props init => all everywhere_prop props && all_opt everywhere init
      | ExportDeclaration d => all_opt everywhere d
      | IfStatement t c a => everywhere t && all_opt everywhere_block c && all_opt everywhere a
      | ForStatement i t u b => all_opt everywhere i && all_opt everywhere t && all everywhere u && all_opt everywhere_block b
      | WhileStatement t b | DoWhileStatement b t => everywhere t && all_opt everywhere_block b
      | ForOfStatement _ _ arr obj e b =>
          all everywhere_elem arr && all everywhere_prop obj && everywhere e && all_opt everywhere_block b
      | ForInStatement _ _ e b => everywhere e && all_opt everywhere_block b
      | ReturnStatement v | ThrowStatement v => all_opt everywhere v
      | SwitchStatement d cs => everywhere d && all (λ '(mkCase t b), all_opt everywhere t && all everywhere b) cs
      | TryStatement b c f =>
          all_opt everywhere_block b
          && all_opt (λ '(mkCatch _ obj b), all everywhere_prop obj && all_opt everywhere_block b) c
          && all_opt everywhere_block f
      | OtherNode _ cs => all everywhere cs
      end
  end
with everywhere_block (b : Block) : bool :=
  match b with mkBlock i pos body => p (mkNode i pos (BlockStatement body)) && all everywhere body end
with everywhere_fn (f : FunctionData) : bool :=
  match f with
  | mkFunction _ ps b e _ _ _ =>
      all (λ '(mkParam _ d arr obj decs),
             all_opt everywhere d && all everywhere_elem arr && all everywhere_prop obj && all everywhere decs) ps
      && all_opt everywhere_block b && all_opt everywhere e
  end
with everywhere_elem (e : ArrayPatternElem) : bool :=
  match e with
  | mkElem _ d sa so => all_opt everywhere d && all_opt (all everywhere_elem) sa && all_opt (all everywhere_prop) so
  end
with everywhere_prop (e : DestructProp) : bool :=
  match e with
  | mkProp k _ d sa so =>
      all_opt everywhere k && all_opt everywhere d && all_opt (all everywhere_elem) sa && all_opt (all everywhere_prop) so
  end.
End everywhere.

(** No statement in the tree takes or gives a label. *)
Definition takes_no_label (n : Node) : bool :=
  match nkind n with
  | ForStatement _ _ _ _ | ForOfStatement _ _ _ _ _ _ | ForInStatement _ _ _ _ | WhileStatement _ _ | DoWhileStatement _ _
  | SwitchStatement _ _ | LabeledStatement _ _ => false
  | _ => true
  end.
Definition no_loops : Node → bool := everywhere takes_no_label.
(** What of a loop is visited before it takes its label has no loop (in a
    function expression) that would take it. *)
Definition plain_heads (n : Node) : bool :=
  match nkind n with
  | ForStatement i t _ _ => all_opt no_loops i && all_opt no_loops t
  | WhileStatement t _ => no_loops t
  | ForOfStatement _ _ arr obj e _ =>
      all (everywhere_elem takes_no_label) arr && all (everywhere_prop takes_no_label) obj && no_loops e
  | ForInStatement _ _ e _ => no_loops e
  | _ => true
  end.
Definition labels_own_loop (n : Node) : bool :=
  match nkind n with LabeledStatement _ body => if is_loop body then plain_heads body else true | _ => true end.
(** Every labeled loop of the tree gets its label. *)
Definition labels_ok : Node → bool := everywhere labels_own_loop.

(** [regular]: nothing in the code itself (the functions it makes apart) is
    evaluated in another order, or less often, than the binder visits it, as
    far as stores are concerned; and there is no try statement. *)
Fixpoint regular (n : Node) : bool :=
  match n with
  | mkNode _ _ k =>
      match k with
      | Identifier _ | ThisExpression | SuperExpression | StringLiteral _ | BooleanLiteral _ | NullLiteral _ _
      | FunctionExpression _ _ | ArrowFunction _ | FunctionDeclaration _ _ _
      | InterfaceDeclaration _ | TypeAliasDeclaration _ | ImportDeclaration _ _ | BreakStatement _ | ContinueStatement _ => true
      | UnaryExpression _ a | UpdateExpression a | NonNullExpression a | SpreadElement a | MemberExpression a _ _ _
      | ExpressionStatement a => regular a
      | LabeledStatement l a =>
          negb (bool_decide (l = "")) && match nkind a with LabeledStatement _ _ => false | _ => regular a end
      | BinaryExpression _ l r => regular l && regular r
      | AssignmentExpression op l r =>
          match nkind l with
          | Identifier _ =>
              regular r && (bool_decide (op ∈ ["="; "&&="; "||="; "??="]) || quiet r)
          | ArrayLiteral _ | ObjectLiteral _ => regular r && regular_target l
          | _ => regular l && regular r
          end
      | IndexExpression o i optional _ => regular o && regular i && (negb (optional || chained o) || quiet i)
      | ConditionalExpression t c a => regular t && regular c && regular a
      | CallExpression callee args optional _ =>
          if iifeCallee callee then
            all regular args && match callee with
                                | mkNode _ _ (FunctionExpression _ f) | mkNode _ _ (ArrowFunction f) => regular_fn f
                                | _ => false
                                end
          else regular callee && all regular args && (negb (optional || chained callee) || all quiet args)
      | NewExpression _ callee args => all_opt regular callee && all regular args
      | ArrayLiteral es => all regular es
      | ObjectLiteral ps => all (λ '(mkProperty k v), all_opt regular k && regular v) ps
      | BlockStatement body => all regular body
      | VarDeclaration _ _ _ init _ _ => all_opt regular init
      | ArrayDestructuring _ elems init => all regular_pattern_elem elems && all_opt regular init
      | ObjectDestructuring _ props init => all regular_pattern_prop props && all_opt regular init
      | ExportDeclaration d => all_opt regular d
      | IfStatement t c a => regular t && all_opt regular_block c && all_opt regular a
      | ForStatement i t u b => all_opt regular i && all_opt regular t && all regular u && all_opt regular_block b
      | WhileStatement t b | DoWhileStatement b t => regular t && all_opt regular_block b
      | ForOfStatement _ _ arr obj e b =>
          all regular_pattern_elem arr && all regular_pattern_prop obj && regular e
          && all_opt regular_block b
      | ForInStatement _ _ e b => regular e && all_opt regular_block b
      | ReturnStatement v | ThrowStatement v => all_opt regular v
      | SwitchStatement d cs => regular d && all (λ '(mkCase t b), all_opt quiet t && all_opt regular t && all regular b) cs
      | TryStatement _ _ _ => false
      | OtherNode _ cs => all regular cs
      end
  end
with regular_block (b : Block) : bool := match b with mkBlock _ _ body => all regular body end
with regular_fn (f : FunctionData) : bool :=
  match f with
  | mkFunction _ ps b e _ _ _ =>
      all (λ '(mkParam _ d arr obj decs),
             all_opt regular d && all regular_default_elem arr && all regular_default_prop obj
             && bool_decide (decs = [])) ps
      && all_opt regular_block b && all_opt regular e
  end
with regular_default_elem (e : ArrayPatternElem) : bool :=
  match e with
  | mkElem _ d sa so =>
      all_opt regular d && all_opt (all regular_default_elem) sa && all_opt (all regular_default_prop) so
  end
with regular_default_prop (e : DestructProp) : bool :=
  match e with
  | mkProp k _ d sa so =>
      all_opt regular k && all_opt regular d && all_opt (all regular_default_elem) sa
      && all_opt (all regular_default_prop) so
  end
with regular_pattern_elem (e : ArrayPatternElem) : bool :=
  match e with
  | mkElem _ d sa so =>
      all_opt quiet d && all_opt regular d && all_opt (all regular_pattern_elem) sa && all_opt (all regular_pattern_prop) so
  end
with regular_pattern_prop (e : DestructProp) : bool :=
  match e with
  | mkProp k _ d sa so =>
      all_opt regular k && all_opt quiet d && all_opt regular d && all_opt (all regular_pattern_elem) sa
      && all_opt (all regular_pattern_prop) so
  end
(** A target of a destructuring assignment: its defaults and members store nothing. *)
with regular_target (t : Node) : bool :=
  match t with
  | mkNode _ _ (Identifier _) => true
  | mkNode _ _ (ArrayLiteral es) => all regular_target es
  | mkNode _ _ (ObjectLiteral ps) => all (λ '(mkProperty k v), all_opt regular k && regular_target v) ps
  | mkNode _ _ (AssignmentExpression _ l r) => quiet r && regular r && regular_target l
  | mkNode _ _ (SpreadElement a) => regular_target a
  | mkNode _ _ (MemberExpression o _ _ _) => quiet o && regular o
  | mkNode _ _ (IndexExpression o i _ _) => quiet o && regular o && quiet i && regular i
  | _ => false
  end.

(** ** The executions of a tree *)

(** A declared name given its value. *)
Definition bind_name (kind name : string) (src : option Node) : behaviour :=
  if bool_decide (name = "") then skip
  else if bool_decide (kind = "var") then emit (EStore (TName kind name) src false true)
  else emit (EStore (TName kind name) src true true).

Section runs.
(** The calls, made as statements, that never return. *)
Variable never : Node → bool.

(** The clauses of a switch whose clause tests [ts] have run: one is chosen, by
    its test or for want of one that is equal, and from its body on the bodies
    of all run. *)
Definition bodies (run : Node → behaviour) : list SwitchCase → behaviour := seqs (λ '(mkCase _ body), seqs run body).
Definition tests (run : Node → behaviour) : list SwitchCase → behaviour := seqs (λ '(mkCase t _), maybe run t).
Fixpoint choose (run : Node → behaviour) (all_tests ts : behaviour) (cases : list SwitchCase) : behaviour :=
  match cases with
  | [] => nothing
  | mkCase test body :: rest =>
      let from := seq (seqs run body) (bodies run rest) in
      match test with
      | Some t => either (seq (seq ts (run t)) from) (choose run all_tests (seq ts (run t)) rest)
      | None => either (seq all_tests from) (choose run all_tests ts rest)
      end
  end.
Definition has_default (cases : list SwitchCase) : bool := existsb (λ '(mkCase t _), bool_decide (t = None)) cases.
Definition clauses (run : Node → behaviour) (cases : list SwitchCase) : behaviour :=
  either (choose run (tests run cases) skip cases) (if has_default cases then nothing else tests run cases).

(** [runs l n]: the executions of [n]; a loop is labeled [l].  Those of a
    function are given when it is [regular_fn]; a try statement has none. *)
Fixpoint runs (l : string) (n : Node) : behaviour :=
  match n with
  | mkNode i _ k =>
      match k with
      | Identifier _ => use i
      | ThisExpression | SuperExpression | StringLiteral _ | BooleanLiteral _ | NullLiteral _ _
      | InterfaceDeclaration _ | TypeAliasDeclaration _ | ImportDeclaration _ _ => skip
      | UnaryExpression _ a | NonNullExpression a | SpreadElement a | MemberExpression a _ _ _ => seq (runs "" a) skip
      | UpdateExpression a =>
          seq (runs "" a) (match nkind a with
                           | Identifier _ => emit (EStore (TId (nid a)) None false true)
                           | _ => skip
                           end)
      | BinaryExpression op x y =>
          if bool_decide (op = "&&") || bool_decide (op = "||") || bool_decide (op = "??")
          then seq (runs "" x) (perhaps (runs "" y)) else seq (runs "" x) (seq (runs "" y) skip)
      | ConditionalExpression t c a => seq (runs "" t) (either (runs "" c) (runs "" a))
      | AssignmentExpression op x y =>
          match nkind x with
          | Identifier _ =>
              let store := emit (EStore (TId (nid x)) (Some n) false true) in
              if bool_decide (op = "&&=") || bool_decide (op = "||=") || bool_decide (op = "??=")
              then seq (runs "" x) (perhaps (seq (runs "" y) store))
              else if bool_decide (op = "=") then seq (runs "" y) (seq (runs "" x) store)
              else seq (runs "" x) (seq (runs "" y) store)
          | ArrayLiteral _ | ObjectLiteral _ => seq (runs "" y) (runs_target x)
          | _ => seq (runs "" x) (runs "" y)
          end
      | CallExpression callee args optional _ =>
          if iifeCallee callee then
            seq (seqs (runs "") args)
              match callee with
              | mkNode j _ (FunctionExpression _ f) | mkNode j _ (ArrowFunction f) =>
                  called (seq (emit (EEnter (j, 0%nat))) (runs_fn f))
              | _ => skip
              end
          else
            seq (runs "" callee)
              (let rest := seqs (runs "") args in if optional || chained callee then perhaps rest else rest)
      | NewExpression _ callee args =>
          match callee with
          | Some c => seq (runs "" c) (seqs (runs "") args)
          | None => seqs (runs "") args
          end
      | IndexExpression o x optional _ =>
          seq (runs "" o) (let rest := seq (runs "" x) skip in if optional || chained o then perhaps rest else rest)
      | ArrayLiteral es => seqs (runs "") es
      | ObjectLiteral ps => seqs (λ '(mkProperty k v), seq (maybe (runs "") k) (runs "" v)) ps
      | FunctionExpression _ f | ArrowFunction f | FunctionDeclaration _ _ f =>
          closure (i, 0%nat) (regular_fn f) (runs_fn f)
      | BlockStatement body => seq (emit (EEnter (i, 0%nat))) (seqs (runs "") body)
      | ExpressionStatement e => seq (runs "" e) (if never e then nothing else skip)
      | VarDeclaration kind name _ init _ _ =>
          seq (maybe (runs "") init)
            (if negb (bool_decide (kind = "var")) then
               emit (EStore (TName kind name) (Some n) true (bool_decide (is_Some init)))
             else if bool_decide (is_Some init) then emit (EStore (TName kind name) (Some n) false true)
             else skip)
      | ArrayDestructuring kind elems init => seq (maybe (runs "") init) (seq (seqs (runs_elem kind) elems) skip)
      | ObjectDestructuring kind props init => seq (maybe (runs "") init) (seq skip (seqs (runs_prop kind) props))
      | ExportDeclaration d => match d with Some d => seq (runs "" d) skip | None => skip end
      | IfStatement t c a => seq (runs "" t) (either (maybe runs_block c) (maybe (runs "") a))
      | ForStatement init test update body =>
          let t := maybe (runs "") test in
          let b := maybe runs_block body in
          seq (emit (EEnter (i, 0%nat)))
            (seq (maybe (runs "") init)
               (seq (star (seq t (seq (looped l b) (seqs (runs "") update))))
                  (either (if alwaysTrue test then nothing else t) (seq t (broken l b)))))
      | WhileStatement test body =>
          let t := runs "" test in
          let b := maybe runs_block body in
          seq (star (seq t (looped l b))) (either (if alwaysTrue (Some test) then nothing else t) (seq t (broken l b)))
      | DoWhileStatement body test =>
          let t := runs "" test in
          let b := maybe runs_block body in
          seq (star (seq (looped l b) t))
            (either (if alwaysTrue (Some test) then nothing else seq (looped l b) t) (broken l b))
      | ForOfStatement kind name arr obj e body =>
          let names := seq (emit (EEnter (i, 0%nat)))
                         (seq (bind_name kind name None)
                            (seq (seqs (runs_elem kind) arr) (seqs (runs_prop kind) obj))) in
          let b := maybe runs_block body in
          seq (runs "" e) (seq (star (seq names (looped l b))) (perhaps (seq names (broken l b))))
      | ForInStatement kind name e body =>
          let names := seq (emit (EEnter (i, 0%nat))) (bind_name kind name (Some n)) in
          let b := maybe runs_block body in
          seq (runs "" e) (seq (star (seq names (looped l b))) (perhaps (seq names (broken l b))))
      | LabeledStatement label body =>
          if is_loop body then runs label body else labeled label (runs "" body)
      | BreakStatement label => ends_with (Break label)
      | ContinueStatement label => ends_with (Continue label)
      | ReturnStatement v => seq (maybe (runs "") v) (ends_with Return)
      | ThrowStatement v => seq (maybe (runs "") v) (ends_with Throw)
      | SwitchStatement d cases =>
          seq (runs "" d) (seq (emit (EEnter (i, 0%nat))) (switched (clauses (runs "") cases)))
      | TryStatement b c f =>
          mkBehaviour (λ _ _, False)
            (inside (seq (maybe runs_block b)
                       (seq match c with
                            | Some (mkCatch _ obj b) => seq (seqs runs_default_prop obj) (maybe (runs_stmts) b)
                            | None => skip
                            end (maybe runs_block f))))
      | OtherNode _ cs => seqs (runs "") cs
      end
  end
with runs_block (b : Block) : behaviour :=
  match b with mkBlock i _ body => seq (emit (EEnter (i, 0%nat))) (seqs (runs "") body) end
with runs_stmts (b : Block) : behaviour := match b with mkBlock _ _ body => seqs (runs "") body end
(** The parameters of a function, and its body. *)
with runs_fn (f : FunctionData) : behaviour :=
  match f with
  | mkFunction _ ps b e _ _ _ =>
      seq (seqs (λ '(mkParam _ d arr obj _),
                   seq (match d with Some d => perhaps (runs "" d) | None => skip end)
                     (seq (seqs runs_default_elem arr) (seqs runs_default_prop obj))) ps)
        (seq (maybe runs_stmts b) (maybe (runs "") e))
  end
with runs_default_elem (e : ArrayPatternElem) : behaviour :=
  match e with
  | mkElem _ d sa so =>
      seq (match d with Some d => perhaps (runs "" d) | None => skip end)
        (seq (match sa with Some l => seqs runs_default_elem l | None => skip end)
           (match so with Some l => seqs runs_default_prop l | None => skip end))
  end
with runs_default_prop (p : DestructProp) : behaviour :=
  match p with
  | mkProp k _ d sa so =>
      seq (maybe (runs "") k)
        (seq (match d with Some d => perhaps (runs "" d) | None => skip end)
           (seq (match sa with Some l => seqs runs_default_elem l | None => skip end)
              (match so with Some l => seqs runs_default_prop l | None => skip end)))
  end
(** A pattern of a declaration. *)
with runs_elem (kind : string) (e : ArrayPatternElem) : behaviour :=
  match e with
  | mkElem name d sa so =>
      seq (match d with Some d => perhaps (runs "" d) | None => skip end)
        (match sa, so with
         | None, None => bind_name kind name None
         | _, _ => seq (match sa with Some l => seqs (runs_elem kind) l | None => skip end)
                     (match so with Some l => seqs (runs_prop kind) l | None => skip end)
         end)
  end
with runs_prop (kind : string) (p : DestructProp) : behaviour :=
  match p with
  | mkProp k name d sa so =>
      seq (maybe (runs "") k)
        (seq (match d with Some d => perhaps (runs "" d) | None => skip end)
           (match sa, so with
            | None, None => bind_name kind name None
            | _, _ => seq (match sa with Some l => seqs (runs_elem kind) l | None => skip end)
                        (match so with Some l => seqs (runs_prop kind) l | None => skip end)
            end))
  end
(** A destructuring target of an assignment. *)
with runs_target (t : Node) : behaviour :=
  match t with
  | mkNode i _ (Identifier _) => seq (use i) (emit (EStore (TId i) (Some t) false true))
  | mkNode _ _ (ArrayLiteral es) => seqs runs_target es
  | mkNode _ _ (ObjectLiteral ps) => seqs (λ '(mkProperty k v), seq (maybe (runs "") k) (runs_target v)) ps
  | mkNode _ _ (AssignmentExpression _ x y) => seq (perhaps (runs "" y)) (runs_target x)
  | mkNode _ _ (SpreadElement a) => runs_target a
  | mkNode _ _ (MemberExpression o _ _ _) => runs "" o
  | mkNode _ _ (IndexExpression o x _ _) => seq (runs "" o) (runs "" x)
  | _ => nothing
  end.
End runs.

(** ** What a traversal of a tree comes across

    How many nodes it visits, which scopes it opens, in which scope, and which
    identifiers it meets; the scope a node opens is told by a key, the node's
    identity and a tag.  A tree in which no node occurs twice has each scope
    and identifier once ([tree_ok]). *)

Record opening := mkOpening { okey : key; okind : ScopeKind; oparent : key }.
Record plan := mkPlan { cost : nat; opens : list opening; idents : list nat }.

Definition p0 : plan := mkPlan 0 [] [].
Definition padd (P Q : plan) : plan := mkPlan (cost P + cost Q) (opens P ++ opens Q) (idents P ++ idents Q).
Definition pvisit (P : plan) : plan := mkPlan (S (cost P)) (opens P) (idents P).
Definition popen (k : key) (kind : ScopeKind) (parent : key) (P : plan) : plan :=
  mkPlan (cost P) (mkOpening k kind parent :: opens P) (idents P).
Definition pident (i : nat) : plan := mkPlan 0 [] [i].
Definition keys (P : plan) : list key := map okey (opens P).
Definition psum {A} (f : A → plan) : list A → plan :=
  fix psum xs := match xs with [] => p0 | x :: xs => padd (f x) (psum xs) end.
Definition popt {A} (f : A → plan) (x : option A) : plan := match x with Some x => f x | None => p0 end.

(** [plan_of k n]: of [n], visited in the scope [k]; [plan_target k n]: of [n]
    as the target of a destructuring assignment. *)
Fixpoint plan_in (target : bool) (k : key) (n : Node) : plan :=
  match n with
  | mkNode i _ kind =>
      let at_ := (i, 0%nat) in
      let visited := pvisit
      match kind with
      | Identifier _ => pident i
      | ThisExpression | SuperExpression | StringLiteral _ | BooleanLiteral _ | NullLiteral _ _
      | InterfaceDeclaration _ | TypeAliasDeclaration _ | ImportDeclaration _ _ | BreakStatement _ | ContinueStatement _ => p0
      | UnaryExpression _ a | NonNullExpression a | SpreadElement a | MemberExpression a _ _ _ => padd (plan_in false k a) p0
      | UpdateExpression a | ExpressionStatement a | LabeledStatement _ a => plan_in false k a
      | BinaryExpression op x y =>
          if bool_decide (op = "&&") || bool_decide (op = "||") || bool_decide (op = "??")
          then padd (plan_in false k x) (plan_in false k y) else padd (plan_in false k x) (padd (plan_in false k y) p0)
      | ConditionalExpression t c a => padd (plan_in false k t) (padd (plan_in false k c) (plan_in false k a))
      | AssignmentExpression op x y =>
          match nkind x with
          | Identifier _ =>
              if bool_decide (op = "&&=") || bool_decide (op = "||=") || bool_decide (op = "??=")
              then padd (plan_in false k x) (plan_in false k y) else padd (plan_in false k y) (plan_in false k x)
          | ArrayLiteral _ | ObjectLiteral _ => padd (plan_in false k y) (plan_in true k x)
          | _ => padd (plan_in false k x) (plan_in false k y)
          end
      | CallExpression callee args _ _ =>
          if iifeCallee callee then padd (psum (plan_in false k) args) (plan_in false k callee)
          else padd (plan_in false k callee) (psum (plan_in false k) args)
      | NewExpression _ callee args => match callee with
                                       | Some c => padd (plan_in false k c) (psum (plan_in false k) args)
                                       | None => psum (plan_in false k) args
                                       end
      | IndexExpression o x _ _ => padd (plan_in false k o) (padd (plan_in false k x) p0)
      | ArrayLiteral es => psum (plan_in false k) es
      | ObjectLiteral ps => psum (λ '(mkProperty x v), padd (popt (plan_in false k) x) (plan_in false k v)) ps
      | FunctionExpression name f =>
          if bool_decide (name = "") then popen at_ FunctionScope k (plan_fn at_ f)
          else popen (i, 1%nat) NameScope k (popen at_ FunctionScope (i, 1%nat) (plan_fn at_ f))
      | ArrowFunction f | FunctionDeclaration _ _ f => popen at_ FunctionScope k (plan_fn at_ f)
      | BlockStatement body => popen at_ BlockScope k (psum (plan_in false at_) body)
      | VarDeclaration _ _ _ init _ _ => popt (plan_in false k) init
      | ArrayDestructuring _ elems init => padd (popt (plan_in false k) init) (padd (psum (plan_elem k) elems) p0)
      | ObjectDestructuring _ props init => padd (popt (plan_in false k) init) (padd p0 (psum (plan_prop k) props))
      | ExportDeclaration d | ReturnStatement d | ThrowStatement d =>
          match d with Some d => padd (plan_in false k d) p0 | None => p0 end
      | IfStatement t c a => padd (plan_in false k t) (padd (popt (plan_block k) c) (popt (plan_in false k) a))
      | ForStatement init test update body =>
          popen at_ BlockScope k
            (padd (popt (plan_in false at_) init)
               (padd (popt (plan_in false at_) test) (padd (popt (plan_block at_) body) (psum (plan_in false at_) update))))
      | WhileStatement test body => padd (plan_in false k test) (popt (plan_block k) body)
      | DoWhileStatement body test => padd (popt (plan_block k) body) (plan_in false k test)
      | ForOfStatement _ _ arr obj e body =>
          padd (plan_in false k e)
            (popen at_ BlockScope k
               (padd (padd (psum (plan_elem at_) arr) (psum (plan_prop at_) obj)) (popt (plan_block at_) body)))
      | ForInStatement _ _ e body => padd (plan_in false k e) (popen at_ BlockScope k (popt (plan_block at_) body))
      | SwitchStatement d cases =>
          padd (plan_in false k d)
            (popen at_ BlockScope k
               (psum (λ '(mkCase t body), padd (popt (plan_in false at_) t) (psum (plan_in false at_) body)) cases))
      | TryStatement b c f =>
          padd (popt (plan_block k) b)
            (padd match c with
                  | Some (mkCatch _ obj body) =>
                      popen (i, 1%nat) CatchScope k
                        (padd (padd p0 (psum (plan_default_prop (i, 1%nat)) obj))
                           (popt (plan_stmts (i, 1%nat)) body))
                  | None => p0
                  end
               (popt (plan_block k) f))
      | OtherNode _ cs => psum (plan_in false k) cs
      end in
      if target then
        match kind with
        | ArrayLiteral es => psum (plan_in true k) es
        | ObjectLiteral ps => psum (λ '(mkProperty x v), padd (popt (plan_in false k) x) (plan_in true k v)) ps
        | AssignmentExpression _ x y => padd (plan_in false k y) (plan_in true k x)
        | SpreadElement a => plan_in true k a
        | _ => visited
        end
      else visited
  end
with plan_block (k : key) (b : Block) : plan :=
  match b with mkBlock i _ body => pvisit (popen (i, 0%nat) BlockScope k (psum (plan_in false (i, 0%nat)) body)) end
with plan_stmts (k : key) (b : Block) : plan := match b with mkBlock _ _ body => psum (plan_in false k) body end
with plan_fn (k : key) (f : FunctionData) : plan :=
  match f with
  | mkFunction _ ps b e _ _ _ =>
      padd (psum (λ '(mkParam _ d arr obj decs),
                    padd (psum (plan_in false k) decs)
                      (padd (popt (plan_in false k) d)
                         (padd (psum (plan_default_elem k) arr) (psum (plan_default_prop k) obj)))) ps)
        (padd (popt (plan_stmts k) b) (popt (plan_in false k) e))
  end
with plan_default_elem (k : key) (e : ArrayPatternElem) : plan :=
  match e with
  | mkElem _ d sa so =>
      padd (popt (plan_in false k) d)
        (padd (popt (psum (plan_default_elem k)) sa) (popt (psum (plan_default_prop k)) so))
  end
with plan_default_prop (k : key) (p : DestructProp) : plan :=
  match p with
  | mkProp x _ d sa so =>
      padd (popt (plan_in false k) x)
        (padd (popt (plan_in false k) d)
           (padd (popt (psum (plan_default_elem k)) sa) (popt (psum (plan_default_prop k)) so)))
  end
with plan_elem (k : key) (e : ArrayPatternElem) : plan :=
  match e with
  | mkElem _ d sa so =>
      padd (popt (plan_in false k) d) (padd (popt (psum (plan_elem k)) sa) (popt (psum (plan_prop k)) so))
  end
with plan_prop (k : key) (p : DestructProp) : plan :=
  match p with
  | mkProp x _ d sa so =>
      padd (popt (plan_in false k) x)
        (padd (popt (plan_in false k) d) (padd (popt (psum (plan_elem k)) sa) (popt (psum (plan_prop k)) so)))
  end.

Abbreviation plan_of := (plan_in false).
Abbreviation plan_target := (plan_in true).
