(* ===== verification/FlowPath.v ===== *)
(** * Traces along the paths of a flow graph

    Which trace a path of a finished graph stands for, and what it means that
    code which begins at one flow node and ends at another has its executions
    on the paths between them.  The rules follow the combinators of Exec.v. *)

From S2P Require Import Prelude Diag Ast Symbols SymbolFacts Flow FlowWalk FlowFacts Traverse Exec.
Open Scope Z_scope.

Section path.
(** The state at the end of both passes. *)
Context (F : trav).

Abbreviation graphF := (nodes (bld F)).
Abbreviation refsF := (t_refs (tab F)).
Abbreviation scopesF := (scopeOf (bnd (bld F))).

(** The node of an event: an assignment made by what makes the store, to the
    symbol the identifier denotes; the entry of a scope. *)
Definition event_at (e : event) (n : FlowNode) : Prop :=
  match e with
  | EStore t src init assign =>
      FFlags n = FlowAssignment ∧ FInit n = init ∧ FAssign n = assign ∧ is_Some (FSymbol n)
      ∧ match src with Some s => FNode n = Some s | None => plain_store (FNode n) = false end
      ∧ match t with TId i => FSymbol n = refsF !! i | TName _ _ => plain_store src = false end
  | EEnter k => FFlags n = FlowScopeStart ∧ is_Some (FScope n) ∧ FScope n = scopesF !! k
  end.
(** A store the graph need not show: its name denotes no symbol, or is declared. *)
Definition unseen (e : event) : Prop :=
  match e with
  | EStore (TId i) _ _ _ => refsF !! i = None
  | EStore (TName _ _) _ _ _ => True
  | EEnter _ => False
  end.
Definition silent (n : FlowNode) : Prop := FFlags n ≠ FlowAssignment ∧ FFlags n ≠ FlowScopeStart.

Inductive path (f : nat) : list event → nat → Prop :=
  | path_here : path f [] f
  | path_silent tr p q n : path f tr p → graphF !! q = Some n → predecessor n p → silent n → path f tr q
  | path_event tr p q n e : path f tr p → graphF !! q = Some n → predecessor n p → event_at e n → path f (tr ++ [e]) q
  | path_unseen tr p e : path f tr p → unseen e → path f (tr ++ [e]) p.

Lemma path_app f g h t1 t2 : path f t1 g → path g t2 h → path f (t1 ++ t2) h.
Proof.
  intros H1. induction 1 as [|tr p q n H IH Hn Hp Hs|tr p q n e H IH Hn Hp He|tr p e H IH He].
  - by rewrite app_nil_r.
  - by eapply path_silent.
  - rewrite app_assoc. by eapply path_event.
  - rewrite app_assoc. by eapply path_unseen.
Qed.

Context (Hzero : graphF !! unreachableFlow = Some unreachable_node).

Lemma path_dead f tr : path f tr unreachableFlow → f = unreachableFlow.
Proof.
  intros H. remember unreachableFlow as z eqn:Hz. induction H as [|tr p q n H IH Hn Hp _|tr p q n e H IH Hn Hp _|tr p e H IH _]; [done| | |auto].
  all: subst q; rewrite Hzero in Hn; injection Hn as <-; by destruct Hp as [?|?%elem_of_nil].
Qed.
Lemma path_live f tr g : path f tr g → f ≠ unreachableFlow → g ≠ unreachableFlow.
Proof. intros H Hf ->. by apply path_dead in H. Qed.

(** ** Code between two flow nodes

    [b] is a state the builder has reached when the code is done.  A jump goes
    to its target's label, which has a predecessor by then; the use of an
    identifier is where the tables say. *)

Record env := mkEnv { ejumps : list jumpTarget; ereturn : option nat; ehome : option ScopeId }.
Definition has_ants (b : trav) (l : nat) : Prop := ∃ n, nodes (bld b) !! l = Some n ∧ Antecedents n ≠ [].

Definition used (f : nat) (tr : list event) (id : nat) (home : option ScopeId) : Prop :=
  ∃ g, t_refFlow (tab F) !! id = Some g ∧ path f tr g ∧ t_refContainer (tab F) !! id = Some home.

Definition ends_at (E : env) (f : nat) (b : trav) (g : nat) (tr : list event) (o : ending) : Prop :=
  match o with
  | Normal => path f tr g
  | Break l => ∀ t, jump_in (ejumps E) l false = Some t → path f tr (breakTo t) ∧ has_ants b (breakTo t)
  | Continue l => ∀ t c, jump_in (ejumps E) l true = Some t → continueTo t = Some c → path f tr c ∧ has_ants b c
  | Return => ∀ r, ereturn E = Some r → path f tr r ∧ has_ants b r
  | Throw => True
  | At id => used f tr id (ehome E)
  end.
(** The executions of [A] begin at [f] and end at [g], or where they jump to. *)
Definition between (E : env) (f : nat) (b : trav) (g : nat) (A : behaviour) : Prop :=
  ∀ tr o, f ≠ unreachableFlow → now A tr o → ends_at E f b g tr o.
Definition passes (f g : nat) : Prop := f ≠ unreachableFlow → path f [] g.

Lemma passes_refl f : passes f f.
Proof. intros _. constructor. Qed.
Lemma passes_trans f g h : passes f g → passes g h → passes f h.
Proof.
  intros H1 H2 Hf. specialize (H1 Hf). apply (path_app f g h [] []); [done|]. apply H2. by eapply path_live.
Qed.
Lemma passes_live f g : passes f g → f ≠ unreachableFlow → g ≠ unreachableFlow.
Proof. intros H Hf. eapply path_live; [by apply H|done]. Qed.

Definition ants_grow (b b' : trav) : Prop := ∀ l, has_ants b l → has_ants b' l.
Lemma graph_ants b b' : graph_grows (nodes (bld b)) (nodes (bld b')) → ants_grow b b'.
Proof.
  intros H l (n & Hn & Ha). destruct (H _ _ Hn) as (n' & Hn' & Hg). exists n'. split; [done|].
  destruct Hg as (_ & _ & _ & _ & _ & _ & _ & _ & [k ->]). intros He. apply Ha. by apply app_eq_nil in He as [-> _].
Qed.

Lemma ends_at_mono E f b b' g tr o : ants_grow b b' → ends_at E f b g tr o → ends_at E f b' g tr o.
Proof.
  intros Hb. destruct o as [|l|l| | |id]; cbn; [done| | | |done|done].
  - intros H t Ht. destruct (H t Ht). auto.
  - intros H t c Ht Hc. destruct (H t c Ht Hc). auto.
  - intros H r Hr. destruct (H r Hr). auto.
Qed.
(** A longer way to the same end. *)
Lemma ends_at_app E f g b h t1 t2 o :
  path f t1 g → ends_at E g b h t2 o → ends_at E f b h (t1 ++ t2) o.
Proof.
  intros H1. destruct o as [|l|l| | |id]; cbn.
  - by apply path_app.
  - intros H t Ht. destruct (H t Ht). split; [by eapply path_app|done].
  - intros H t c Ht Hc. destruct (H t c Ht Hc). split; [by eapply path_app|done].
  - intros H r Hr. destruct (H r Hr). split; [by eapply path_app|done].
  - done.
  - intros (k & ? & ? & ?). exists k. split_and!; [done|by eapply path_app|done].
Qed.

Section rules.
Context (E : env).

Lemma between_sub f b g A B : (∀ tr o, now A tr o → now B tr o) → between E f b g B → between E f b g A.
Proof. intros H HB tr o Hf Hn. by apply HB, H. Qed.
Lemma between_mono f b b' g A : between E f b g A → graph_grows (nodes (bld b)) (nodes (bld b')) → between E f b' g A.
Proof. intros H Hb tr o Hf Hn. eapply ends_at_mono; [by apply graph_ants|by apply H]. Qed.
Lemma between_nothing f b g : between E f b g nothing.
Proof. by intros tr o _ []. Qed.
Lemma between_skip f b g : passes f g → between E f b g skip.
Proof. intros H tr o Hf [-> ->]. by apply H. Qed.
Lemma between_emit f b g e : (f ≠ unreachableFlow → path f [e] g) → between E f b g (emit e).
Proof. intros H tr o Hf [-> ->]. by apply H. Qed.
Lemma between_pre f g b h A : passes f g → between E g b h A → between E f b h A.
Proof.
  intros H HA tr o Hf Hn. apply (ends_at_app E f g b h [] tr); [by apply H|]. apply HA; [by eapply passes_live|done].
Qed.
Lemma between_post f b g h A : between E f b g A → passes g h → between E f b h A.
Proof.
  intros HA H tr o Hf Hn. specialize (HA tr o Hf Hn). destruct o; cbn in *; try done.
  rewrite <-(app_nil_r tr). eapply path_app; [done|]. apply H. by eapply path_live.
Qed.
Lemma between_seq f b g h A B : between E f b g A → between E g b h B → between E f b h (seq A B).
Proof.
  intros HA HB tr o Hf [[Hn Ho]|(t1 & t2 & -> & H1 & H2)].
  - specialize (HA tr o Hf Hn). by destruct o.
  - specialize (HA t1 Normal Hf H1). eapply ends_at_app; [done|]. apply HB; [by eapply path_live|done].
Qed.
Lemma between_either f b g A B : between E f b g A → between E f b g B → between E f b g (either A B).
Proof. intros HA HB tr o Hf [H|H]; [by apply HA|by apply HB]. Qed.
Lemma between_perhaps f b g A : passes f g → between E f b g A → between E f b g (perhaps A).
Proof. intros H HA. apply between_either; [by apply between_skip|done]. Qed.
Lemma between_star f b A : between E f b f A → between E f b f (star A).
Proof.
  intros HA tr o Hf H. cbn in H. induction H as [|tr o H Ho|t1 t2 o H1 H2 IH].
  - apply path_here.
  - by apply HA.
  - eapply ends_at_app; [by apply (HA t1 Normal)|done].
Qed.
End rules.

(** A jump. *)
Lemma between_break E f b l :
  (f ≠ unreachableFlow → ∀ t, jump_in (ejumps E) l false = Some t → passes f (breakTo t) ∧ has_ants b (breakTo t)) →
  between E f b unreachableFlow (ends_with (Break l)).
Proof. intros H tr o Hf [-> ->] t Ht. destruct (H Hf t Ht). auto. Qed.
Lemma between_continue E f b l :
  (f ≠ unreachableFlow → ∀ t c, jump_in (ejumps E) l true = Some t → continueTo t = Some c → passes f c ∧ has_ants b c) →
  between E f b unreachableFlow (ends_with (Continue l)).
Proof. intros H tr o Hf [-> ->] t c Ht Hc. destruct (H Hf t c Ht Hc). auto. Qed.
Lemma between_return E f b :
  (f ≠ unreachableFlow → ∀ r, ereturn E = Some r → passes f r ∧ has_ants b r) →
  between E f b unreachableFlow (ends_with Return).
Proof. intros H tr o Hf [-> ->] r Hr. destruct (H Hf r Hr). auto. Qed.
Lemma between_throw E f b g : between E f b g (ends_with Throw).
Proof. by intros tr o Hf [-> ->]. Qed.

(** Inside a loop, a switch, a labeled statement and a function called in line. *)
Definition in_jump (t : jumpTarget) (E : env) : env := mkEnv (t :: ejumps E) (ereturn E) (ehome E).

Lemma mine_jump l exit cont l' c ts :
  jump_in (mkJump l exit (Some cont) false :: ts) l' c
  = if mine l l' then Some (mkJump l exit (Some cont) false) else jump_in ts l' c.
Proof.
  unfold mine. cbn. rewrite andb_false_r. destruct (bool_decide_reflect (l' = "")) as [->|Hl]; cbn; [by destruct c|].
  destruct (bool_decide_reflect (l = l')) as [->|Hne]; [rewrite bool_decide_true by done|rewrite bool_decide_false by done]; cbn; [|done].
  by destruct c.
Qed.

Section jumps.
Context (E : env) (l : string) (exit : nat).

Lemma between_looped cont f b g h A :
  between (in_jump (mkJump l exit (Some cont) false) E) f b g A → passes g h → (has_ants b cont → passes cont h) →
  between E f b h (looped l A).
Proof.
  intros HA Hg Hc tr o Hf Hn. destruct o as [|l'|l'| | |id]; cbn in Hn.
  - destruct Hn as [Hn|(l' & Hl & Hn)].
    + by apply (between_post _ f b g h A HA Hg tr Normal Hf).
    + destruct (HA tr (Continue l') Hf Hn (mkJump l exit (Some cont) false) cont) as [Hp Ha]; [|done|].
      { cbn [ejumps in_jump]. by rewrite mine_jump, Hl. }
      cbn. rewrite <-(app_nil_r tr). eapply path_app; [done|]. apply Hc; [done|]. by eapply path_live.
  - destruct Hn as [Hl Hn]. intros t Ht. apply (HA tr (Break l') Hf Hn). cbn [ejumps in_jump]. by rewrite mine_jump, Hl.
  - destruct Hn as [Hl Hn]. intros t c Ht. apply (HA tr (Continue l') Hf Hn). cbn [ejumps in_jump]. by rewrite mine_jump, Hl.
  - apply (HA tr Return Hf Hn).
  - done.
  - apply (HA tr (At id) Hf Hn).
Qed.

Lemma between_broken cont f b g h A :
  between (in_jump (mkJump l exit (Some cont) false) E) f b g A → (has_ants b exit → passes exit h) →
  between E f b h (broken l A).
Proof.
  intros HA Hx tr o Hf [-> (l' & Hl & Hn)].
  destruct (HA tr (Break l') Hf Hn (mkJump l exit (Some cont) false)) as [Hp Ha].
  { cbn [ejumps in_jump]. by rewrite mine_jump, Hl. }
  cbn. rewrite <-(app_nil_r tr). eapply path_app; [done|]. apply Hx; [done|]. by eapply path_live.
Qed.

Lemma between_switched f b g h A :
  between (in_jump (mkJump "" exit None false) E) f b g A → passes g h → (has_ants b exit → passes exit h) →
  between E f b h (switched A).
Proof.
  intros HA Hg Hx tr o Hf Hn. destruct o as [|l'|l'| | |id]; cbn in Hn.
  - destruct Hn as [Hn|Hn].
    + by apply (between_post _ f b g h A HA Hg tr Normal Hf).
    + destruct (HA tr (Break "") Hf Hn (mkJump "" exit None false) eq_refl) as [Hp Ha].
      cbn. rewrite <-(app_nil_r tr). eapply path_app; [done|]. apply Hx; [done|]. by eapply path_live.
  - destruct Hn as [Hl Hn]. intros t Ht. apply (HA tr (Break l') Hf Hn). cbn.
    rewrite (bool_decide_false (l' = "")), (bool_decide_false (""%string = l')) by congruence. done.
  - intros t c Ht. apply (HA tr (Continue l') Hf Hn). cbn.
    destruct (bool_decide_reflect (l' = "")) as [->|Hl]; cbn; [done|]. by rewrite bool_decide_false by congruence.
  - apply (HA tr Return Hf Hn).
  - done.
  - apply (HA tr (At id) Hf Hn).
Qed.

Lemma between_labeled f b g h A :
  l ≠ "" →
  between (in_jump (mkJump l exit None true) E) f b g A → passes g h → (has_ants b exit → passes exit h) →
  between E f b h (labeled l A).
Proof.
  intros Hl0 HA Hg Hx tr o Hf Hn.
  assert (∀ l' c, l' ≠ l → jump_in (mkJump l exit None true :: ejumps E) l' c = jump_in (ejumps E) l' c) as Hout.
  { intros l' c Hl. cbn. destruct (bool_decide_reflect (l' = "")) as [->|Hl']; cbn; [|by rewrite bool_decide_false by congruence].
    by destruct c. }
  destruct o as [|l'|l'| | |id]; cbn in Hn.
  - destruct Hn as [Hn|Hn].
    + by apply (between_post _ f b g h A HA Hg tr Normal Hf).
    + destruct (HA tr (Break l) Hf Hn (mkJump l exit None true)) as [Hp Ha].
      { cbn. by rewrite (bool_decide_false (l = "")), bool_decide_true by done. }
      cbn. rewrite <-(app_nil_r tr). eapply path_app; [done|]. apply Hx; [done|]. by eapply path_live.
  - destruct Hn as [Hl Hn]. intros t Ht. apply (HA tr (Break l') Hf Hn). cbn [ejumps in_jump]. by rewrite Hout.
  - destruct Hn as [Hl Hn]. intros t c Ht. apply (HA tr (Continue l') Hf Hn). cbn [ejumps in_jump]. by rewrite Hout.
  - apply (HA tr Return Hf Hn).
  - done.
  - apply (HA tr (At id) Hf Hn).
Qed.

Lemma between_called f b r g h A :
  between (mkEnv [] (Some r) (ehome E)) f b g A → passes g h → (has_ants b r → passes r h) →
  between E f b h (called A).
Proof.
  intros HA Hg Hr tr o Hf Hn. destruct o as [|l'|l'| | |id]; cbn in Hn; try done.
  - destruct Hn as [Hn|Hn].
    + by apply (between_post _ f b g h A HA Hg tr Normal Hf).
    + destruct (HA tr Return Hf Hn r eq_refl) as [Hp Ha].
      cbn. rewrite <-(app_nil_r tr). eapply path_app; [done|]. apply Hr; [done|]. by eapply path_live.
  - apply (HA tr (At id) Hf Hn).
Qed.
End jumps.

(** One call of a function, told by the scope it opens. *)
Definition activated (fn : key) (tr : list event) (id : nat) : Prop :=
  ∃ s f n, scopesF !! fn = Some s ∧ graphF !! f = Some n ∧ FFlags n = FlowStart ∧ FScope n = Some s
    ∧ used f tr id (Some s).
Definition activates (A : behaviour) : Prop := ∀ fn tr id, inside A fn tr id → activated fn tr id.

Lemma activates_sub A B : (∀ fn tr id, inside A fn tr id → inside B fn tr id) → activates B → activates A.
Proof. intros H HB fn tr id Hi. by apply HB, H. Qed.
Lemma activates_seq A B : activates A → activates B → activates (seq A B).
Proof. by intros HA HB fn tr id [?|?]; [apply HA|apply HB]. Qed.
Lemma activates_none A : (∀ fn tr id, ¬ inside A fn tr id) → activates A.
Proof. intros H fn tr id Hi. by apply H in Hi. Qed.
Lemma activates_closure fn known A :
  (known = true → ∀ tr id, now A tr (At id) → activated fn tr id) → activates A → activates (closure fn known A).
Proof. intros H HA g tr id [(Hk & -> & Hn)|Hi]; [by apply H|by apply HA]. Qed.
End path.
