(* ===== verification/TraverseFacts.v ===== *)
(** * What every step of the traversal keeps

    The invariant of the traversal's state, the relation between the states
    before and after a part of it ([moves]), and one rule per operation of
    the builder and of the scopes, stated over that relation. *)

From S2P Require Import Prelude GoString Diag Ast Symbols SymbolFacts Flow FlowWalk FlowFacts Traverse Exec FlowPath.
Open Scope Z_scope.

(** ** The invariant *)

Definition is_target (b : trav) (l : nat) : Prop := ∃ n, nodes (bld b) !! l = Some n ∧ is_label n.

(** The tables refer to symbols, nodes and scopes there are. *)
Record twf (b : trav) : Prop := {
  tw_bld : bwf (bld b);
  tw_refs : map_Forall (λ _ s, (s < length (symbols (bnd (bld b))))%nat) (t_refs (tab b));
  tw_flow : map_Forall (λ _ f, (f < length (nodes (bld b)))%nat) (t_refFlow (tab b));
  tw_scope : map_Forall (λ _ so, ∀ s, so = Some s → (s < length (scopes (bnd (bld b))))%nat) (t_refScope (tab b)) }.

(** Where breaks, continues and returns go. *)
Definition targets_ok (b : trav) : Prop :=
  Forall (λ t, is_target b (breakTo t) ∧ ∀ c, continueTo t = Some c → is_target b c) (jumps (ctl b))
  ∧ ∀ r, returnTo (ctl b) = Some r → is_target b r.

(** A scope is there, of its kind and in its parent. *)
Definition opened_ok (b : trav) (o : opening) : Prop :=
  ∃ s sc p, scopeOf (bnd (bld b)) !! okey o = Some s ∧ scopes (bnd (bld b)) !! s = Some sc ∧ ScKind sc = okind o
    ∧ scopeOf (bnd (bld b)) !! oparent o = Some p ∧ Parent sc = Some p.

(** What a part of the traversal that comes across [P] leaves as it was or
    makes grow. *)
Record core (P : plan) (b b' : trav) : Prop := {
  co_wf : twf b';
  co_graph : graph_grows (nodes (bld b)) (nodes (bld b'));
  co_grows : grows (bnd (bld b)) (bnd (bld b'));
  co_ord : ord (bld b') ≤ ord (bld b) + Z.of_nat (cost P);
  co_stmts : length (stmts (bld b')) = length (stmts (bld b));
  co_kept : ∀ k s, scopeOf (bnd (bld b)) !! k = Some s → scopeOf (bnd (bld b')) !! k = Some s;
  co_fresh : ∀ k, k ∉ keys P → scopeOf (bnd (bld b')) !! k = scopeOf (bnd (bld b)) !! k;
  co_opens : declaring (bnd (bld b)) = true → Forall (opened_ok b') (opens P);
  co_fixed : declaring (bnd (bld b)) = false →
    symbols (bnd (bld b')) = symbols (bnd (bld b)) ∧ scopeOf (bnd (bld b')) = scopeOf (bnd (bld b));
  co_tables : ∀ i, i ∉ idents P →
    t_refs (tab b') !! i = t_refs (tab b) !! i ∧ t_refFlow (tab b') !! i = t_refFlow (tab b) !! i
    ∧ t_refContainer (tab b') !! i = t_refContainer (tab b) !! i;
  co_still : declaring (bnd (bld b)) = true → t_refs (tab b') = t_refs (tab b) }.

(** What it puts back. *)
Record same (b b' : trav) : Prop := {
  sm_cur : cur (bnd (bld b')) = cur (bnd (bld b));
  sm_declaring : declaring (bnd (bld b')) = declaring (bnd (bld b));
  sm_prefix : nsPrefix (bnd (bld b')) = nsPrefix (bnd (bld b));
  sm_home : container (bld b') = container (bld b);
  sm_targets : exceptionTargets (bld b') = exceptionTargets (bld b);
  sm_jumps : jumps (ctl b') = jumps (ctl b);
  sm_return : returnTo (ctl b') = returnTo (ctl b);
  sm_iife : iife (ctl b') = iife (ctl b);
  sm_writing : writing (ctl b') = writing (ctl b);
  sm_storing : plain_store (storing (bld b)) = false → plain_store (storing (bld b')) = false }.

Definition moves (P : plan) (b b' : trav) : Prop := core P b b' ∧ same b b'.

Lemma same_refl b : same b b.
Proof. by constructor. Qed.
Lemma same_trans b1 b2 b3 : same b1 b2 → same b2 b3 → same b1 b3.
Proof. intros [] []. constructor; try congruence. auto. Qed.

Lemma is_target_grows b b' l : graph_grows (nodes (bld b)) (nodes (bld b')) → is_target b l → is_target b' l.
Proof.
  intros H (n & Hn & Hl). destruct (H _ _ Hn) as (n' & Hn' & Hg). exists n'. split; [done|].
  unfold is_label in *. by destruct Hg as (-> & _).
Qed.

Lemma targets_ok_moves P b b' : core P b b' → same b b' → targets_ok b → targets_ok b'.
Proof.
  intros Hc Hs [Hj Hr]. pose proof (co_graph _ _ _ Hc) as Hg. split.
  - rewrite (sm_jumps _ _ Hs). eapply Forall_impl; [exact Hj|]. intros t [Hb Hcont].
    split; [by eapply is_target_grows|]. intros c Hc'. eapply is_target_grows; [done|]. by apply Hcont.
  - intros r. rewrite (sm_return _ _ Hs). intros H. eapply is_target_grows; [done|]. by apply Hr.
Qed.

Lemma opened_ok_core P b b' o : core P b b' → opened_ok b o → opened_ok b' o.
Proof.
  intros Hc (s & sc & p & Hs & Hsc & Hk & Hp & Hpar).
  destruct (gr_scopes _ _ (co_grows _ _ _ Hc) _ _ Hsc) as (sc' & Hsc' & Hk' & Hpar' & _).
  exists s, sc', p. split_and!; try by (eapply co_kept; eauto). all: congruence.
Qed.

Lemma core_refl b : twf b → core p0 b b.
Proof. intros H. constructor; try done. cbn. lia. Qed.

Lemma core_trans P Q b1 b2 b3 :
  declaring (bnd (bld b2)) = declaring (bnd (bld b1)) → core P b1 b2 → core Q b2 b3 → core (padd P Q) b1 b3.
Proof.
  intros Hs H12 H23. constructor; cbn [cost opens idents padd keys].
  - apply H23.
  - etrans; [apply H12|apply H23].
  - etrans; [apply H12|apply H23].
  - pose proof (co_ord _ _ _ H12). pose proof (co_ord _ _ _ H23). lia.
  - rewrite (co_stmts _ _ _ H23). apply H12.
  - intros k s Hk. eapply co_kept; [done|]. by eapply co_kept.
  - unfold keys. cbn [opens padd]. rewrite map_app. intros k Hk. rewrite not_elem_of_app in Hk. destruct Hk.
    rewrite (co_fresh _ _ _ H23) by done. by apply H12.
  - intros Hd. apply Forall_app. split.
    + eapply Forall_impl; [by apply (co_opens _ _ _ H12)|]. intros o. by eapply opened_ok_core.
    + apply (co_opens _ _ _ H23). by rewrite Hs.
  - intros Hd. destruct (co_fixed _ _ _ H12 Hd) as [<- <-]. apply (co_fixed _ _ _ H23). by rewrite Hs.
  - intros i. rewrite not_elem_of_app. intros [Hi Hi'].
    destruct (co_tables _ _ _ H12 i Hi) as (<- & <- & <-). by apply H23.
  - intros Hd. rewrite (co_still _ _ _ H23), (co_still _ _ _ H12); congruence.
Qed.

Lemma moves_refl b : twf b → moves p0 b b.
Proof. split; [by apply core_refl|apply same_refl]. Qed.
Lemma moves_trans P Q b1 b2 b3 : moves P b1 b2 → moves Q b2 b3 → moves (padd P Q) b1 b3.
Proof. intros [? []] []. split; [by eapply core_trans|by eapply same_trans]. Qed.

(** Nothing come across is nothing to add. *)
Lemma core_p0_l P b b' : core (padd p0 P) b b' → core P b b'.
Proof. by destruct P. Qed.
Lemma core_p0_r P b b' : core (padd P p0) b b' → core P b b'.
Proof.
  intros [? ? ? Ho ? ? Hf Hop ? Ht ?]. unfold keys in *. cbn in Ho, Hf, Hop, Ht. rewrite app_nil_r in *.
  constructor; try done. lia.
Qed.
Lemma moves_l P b1 b2 b3 : moves p0 b1 b2 → moves P b2 b3 → moves P b1 b3.
Proof. intros H1 H2. destruct (moves_trans _ _ _ _ _ H1 H2) as [H Hs]. split; [by apply core_p0_l|done]. Qed.
Lemma moves_r P b1 b2 b3 : moves P b1 b2 → moves p0 b2 b3 → moves P b1 b3.
Proof. intros H1 H2. destruct (moves_trans _ _ _ _ _ H1 H2) as [H Hs]. split; [by apply core_p0_r|done]. Qed.

(** ** Operations of the builder

    [kept]: what they do not touch. *)
Definition kept (b b' : builder) : Prop :=
  ord b' = ord b ∧ storing b' = storing b ∧ length (stmts b') = length (stmts b).
Definition keeps {A} (m : FlowM A) : Prop := ∀ b, kept b (m b).2.

Lemma kept_refl b : kept b b.
Proof. done. Qed.
Lemma kept_trans b1 b2 b3 : kept b1 b2 → kept b2 b3 → kept b1 b3.
Proof. unfold kept. intros (? & ? & ?) (? & ? & ?). split_and!; congruence. Qed.

Lemma keeps_ret {A} (a : A) : keeps (mret a).
Proof. intros b. apply kept_refl. Qed.
Lemma keeps_bind {A B} (m : FlowM A) (k : A → FlowM B) : keeps m → (∀ a, keeps (k a)) → keeps (m ≫= k).
Proof.
  intros Hm Hk b. specialize (Hm b). unfold mbind, FlowM_bind, M_bind. destruct (m b) as [[a|e| |] b'] eqn:He; cbn in *; try done.
  eapply kept_trans; [done|]. apply Hk.
Qed.
Lemma keeps_get : keeps get.
Proof. intros b. apply kept_refl. Qed.
Lemma keeps_gets {A} (f : builder → A) : keeps (gets f).
Proof. intros b. apply kept_refl. Qed.
Lemma keeps_ask {A} (q : BindM A) : keeps (ask q).
Proof. intros b. apply kept_refl. Qed.
Lemma keeps_panic {A} : keeps (panic : FlowM A).
Proof. intros b. apply kept_refl. Qed.
Lemma keeps_index {A} (xs : list A) i : keeps (index xs i).
Proof. unfold index. destruct (xs !! i); [apply keeps_ret|apply keeps_panic]. Qed.
Lemma keeps_modify f : (∀ b, kept b (f b)) → keeps (modify f).
Proof. intros H b. apply H. Qed.

Create HintDb keeps discriminated.
Ltac keeps_tac :=
  repeat (simple apply keeps_ret || simple apply keeps_get || simple apply keeps_gets || simple apply keeps_ask
          || simple apply keeps_panic || simple apply keeps_index || (simple apply keeps_bind; [|intros ?])
          || (simple apply keeps_modify; intros ?; done)
          || match goal with |- keeps (match ?x with _ => _ end) => destruct x end || solve [auto with keeps]).

Lemma keeps_alloc n : keeps (alloc n).
Proof. by intros b. Qed.
Lemma keeps_addAntecedent l f : keeps (addAntecedent l f).
Proof. unfold addAntecedent. keeps_tac. Qed.
#[export] Hint Resolve keeps_alloc keeps_addAntecedent : keeps.
Lemma keeps_addAntecedents l fs : keeps (addAntecedents l fs).
Proof. induction fs as [|f fs IH]; cbn [addAntecedents]; keeps_tac. Qed.
#[export] Hint Resolve keeps_addAntecedents : keeps.
Lemma keeps_newLabel flags fs : keeps (newLabel flags fs).
Proof. unfold newLabel. keeps_tac. Qed.
Lemma keeps_finish l : keeps (finish l).
Proof. unfold finish, flow_node. keeps_tac. Qed.
#[export] Hint Resolve keeps_newLabel keeps_finish : keeps.
Lemma keeps_join fs : keeps (join fs).
Proof. unfold join. keeps_tac. Qed.
Lemma keeps_condition f c t : keeps (condition f c t).
Proof. unfold condition. keeps_tac. Qed.
Lemma keeps_switchClause f sw c : keeps (switchClause f sw c).
Proof. unfold switchClause. keeps_tac. Qed.
Lemma keeps_scopeStartFlow s : keeps (scopeStartFlow s).
Proof. unfold scopeStartFlow. keeps_tac. Qed.
Lemma keeps_unreachable : keeps unreachable.
Proof. unfold unreachable. keeps_tac. Qed.
Lemma keeps_targets ts f : keeps (add_to_targets ts f).
Proof. induction ts as [|t ts IH]; cbn [add_to_targets]; keeps_tac. Qed.
#[export] Hint Resolve keeps_targets : keeps.

Lemma extend_first_length decl sym ss ss' : extend_first decl sym ss = Some ss' → length ss' = length ss.
Proof.
  revert ss'. induction ss as [|s ss IH]; intros ss' H; [done|]. cbn in H.
  destruct (decl <? fstart s); [by injection H as <-|]. destruct (extend_first decl sym ss) eqn:He; [|done].
  injection H as <-. cbn. by rewrite (IH _ eq_refl).
Qed.
Lemma keeps_markAssignment s : keeps (markAssignment s).
Proof.
  unfold markAssignment. intros b. unfold mbind, FlowM_bind, M_bind, get. unfold ask.
  destruct (symbol s (bnd b)) as [[sym|e| |] bd1]; cbn; try done.
  destruct (deref (SScope sym) (bnd b)) as [[sc|e| |] bd2]; cbn; try done.
  destruct (functionOf sc (bnd b)) as [[home|e| |] bd3]; cbn; try done.
  destruct (negb _); [done|]. destruct (extend_first _ _ _) as [ss|] eqn:He.
  - apply extend_first_length in He. by split_and!.
  - destruct (_ <? _); done.
Qed.
Lemma keeps_assignFlow s i a : keeps (assignFlow s i a).
Proof.
  unfold assignFlow, note_foreign. apply keeps_bind; [keeps_tac|intros _].
  apply keeps_bind; [apply keeps_get|intros b]. destruct s as [s|]; [|apply keeps_ret].
  destruct (negb _); [apply keeps_ret|]. apply keeps_bind; [by apply keeps_modify|intros _].
  apply keeps_bind; [destruct i; [by apply keeps_modify|destruct a; [apply keeps_markAssignment|apply keeps_ret]]|intros _].
  keeps_tac.
Qed.

#[export] Hint Resolve keeps_join keeps_condition keeps_switchClause keeps_scopeStartFlow keeps_unreachable
  keeps_assignFlow : keeps.

(** ** One operation of the builder *)

Record step (b b' : trav) : Prop := {
  sp_after : after (bld b) (bld b');
  sp_kept : kept (bld b) (bld b');
  sp_ctl : ctl b' = ctl b;
  sp_tab : tab b' = tab b }.

Lemma step_refl b : twf b → step b b.
Proof. intros H. constructor; try done. by apply after_refl, H. Qed.
Lemma step_trans b1 b2 b3 : step b1 b2 → step b2 b3 → step b1 b3.
Proof. intros [] []. constructor; [by eapply after_trans|by eapply kept_trans|congruence|congruence]. Qed.

Lemma step_moves b b' : twf b → step b b' → moves p0 b b'.
Proof.
  intros [Hb Hr Hf Hs] [Ha (Ho & Hst & Hss) Hc Ht].
  pose proof (af_bnd _ _ Ha) as Hbnd. pose proof (after_len _ _ Ha) as Hlen. destruct (af_fns _ _ Ha) as [Hcont _].
  split.
  - constructor; rewrite ?Hbnd, ?Ht, ?Ho; try done; [|apply Ha|cbn; lia].
    constructor; rewrite ?Hbnd, ?Ht; try done; [apply Ha|]. intros i f Hi. specialize (Hf i f Hi). cbv beta in Hf. lia.
  - constructor; rewrite ?Hbnd, ?Hc; try done; [apply Ha|]. by rewrite Hst.
Qed.

Lemma step_wf b b' : twf b → step b b' → twf b'.
Proof. intros Hb Hs. apply (step_moves b b' Hb) in Hs as [Hc _]. apply Hc. Qed.
Lemma step_len b b' f : step b b' → (f < length (nodes (bld b)))%nat → (f < length (nodes (bld b')))%nat.
Proof. intros Hs Hf. pose proof (after_len _ _ (sp_after _ _ Hs)). lia. Qed.
Lemma step_target b b' l : step b b' → is_target b l → is_target b' l.
Proof. intros Hs. apply is_target_grows, (sp_after _ _ Hs). Qed.
Lemma target_lt b l : is_target b l → (l < length (nodes (bld b)))%nat.
Proof. intros (n & Hn & _). by eapply lookup_lt_Some. Qed.
Lemma twf_flow b : twf b → (flow (bld b) < length (nodes (bld b)))%nat.
Proof. intros H. apply H. Qed.
Lemma twf_zero b : twf b → (unreachableFlow < length (nodes (bld b)))%nat.
Proof. intros H. eapply lookup_lt_Some, (bw_zero _ (tw_bld _ H)). Qed.

Section steps.
Context (F : trav) {X : Empty_set → trav → Prop}.

(** The graph is part of the finished one. *)
Definition within (b : trav) : Prop := graph_grows (nodes (bld b)) (nodes (bld F)).
Definition leads (b : trav) (f g : nat) : Prop := within b → passes F f g.

Lemma leads_edge b f l n :
  nodes (bld b) !! l = Some n → predecessor n f → silent n → leads b f l.
Proof.
  intros Hn Hp Hs Hw Hf. destruct (Hw _ _ Hn) as (n' & Hn' & Hg). destruct Hg as (Hfl & Ha & _ & _ & _ & _ & _ & _ & Has).
  eapply (path_silent F f [] f); [constructor|done| |unfold silent in *; by rewrite Hfl].
  destruct Hp as [Hp|Hp]; [left; by rewrite Ha|right]. destruct Has as [k ->]. apply elem_of_app. by left.
Qed.
Lemma leads_refl b f : leads b f f.
Proof. intros _. apply passes_refl. Qed.

Lemma wp_fl {A} (m : FlowM A) b (Q : A → trav → Prop) :
  wp m (λ a x, Q a (set_bld x b)) (λ _ _, False) (bld b) → wp (fl m) Q X b.
Proof. unfold wp, fl. by destruct (m (bld b)) as [[| | |] ?]. Qed.

Lemma wp_keeps {A} (m : FlowM A) b (Q : A → builder → Prop) Y :
  keeps m → wp m (λ a b', kept b b' → Q a b') Y b → wp m Q Y b.
Proof. intros Hk H. specialize (Hk b). unfold wp in *. destruct (m b) as [[| | |] b']; auto. Qed.

(** From the builder's rule: what follows holds after a [step]. *)
Tactic Notation "builder_op" uconstr(rule) :=
  apply wp_fl, wp_keeps; [by auto with keeps|]; apply rule.

Lemma wp_t_newLabel b flags fs (Q : nat → trav → Prop) :
  twf b → flags = FlowBranchLabel ∨ flags = FlowLoopLabel → Forall (λ f, (f < length (nodes (bld b)))%nat) fs →
  (∀ l b', step b b' → flow (bld b') = flow (bld b) → is_target b' l → l ≠ unreachableFlow →
     (∀ f, f ∈ fs → leads b' f l) → (∀ f, f ∈ fs → f ≠ unreachableFlow → has_ants b' l) → Q l b') →
  wp (fl (newLabel flags fs)) Q X b.
Proof.
  intros Hb Hfl Hfs HQ. builder_op wp_newLabel; [apply Hb|done|done|]. intros l x n Haf Hflow Hl0 Hn Hflags Hants Hkept.
  assert (is_label n) as Hlab by (unfold is_label; destruct Hfl as [->| ->]; auto).
  assert (∀ f, f ∈ Antecedents n ↔ f ∈ fs ∧ f ≠ unreachableFlow) as Hin by (intros f; rewrite Hants; apply elem_of_live_paths).
  apply HQ; cbn; [by constructor|done|by exists n|done| |].
  - intros f Hf Hw Hlive. apply (leads_edge (set_bld x b) f l n); try done.
    + right. by apply Hin.
    + split; destruct Hlab as [He|He]; by rewrite He.
  - intros f Hf Hlive. exists n. split; [done|]. intros He. assert (f ∈ Antecedents n) as Hc by (by apply Hin).
    rewrite He in Hc. by apply elem_of_nil in Hc.
Qed.

Lemma wp_t_addAntecedent b l f (Q : unit → trav → Prop) :
  twf b → is_target b l → (f < length (nodes (bld b)))%nat →
  (∀ b', step b b' → flow (bld b') = flow (bld b) → leads b' f l → (f ≠ unreachableFlow → has_ants b' l) → Q tt b') →
  wp (fl (addAntecedent l (Some f))) Q X b.
Proof.
  intros Hb Hl Hf HQ. builder_op wp_addAntecedent; [apply Hb|done|by intros ? [= <-]|]. intros x Haf Hflow Hn Hkept.
  destruct Hl as (n & Hln & Hlab). destruct (Hn n Hln) as (n' & Hn' & Hants).
  assert (silent n') as Hsil.
  { destruct (af_grows _ _ Haf _ _ Hln) as (n0 & Hn0 & (Hfl & _)). assert (n0 = n') as -> by congruence.
    unfold silent. rewrite Hfl. by destruct Hlab as [->| ->]. }
  assert (f ≠ unreachableFlow → f ∈ Antecedents n') as Hin.
  { intros Hlive. rewrite Hants. case_decide as Hd; [by destruct Hd|]. apply elem_of_app. right. by apply list_elem_of_singleton. }
  apply HQ; cbn; [by constructor|done| |].
  - intros Hw Hlive. apply (leads_edge (set_bld x b) f l n'); try done. right. by apply Hin.
  - intros Hlive. exists n'. split; [done|]. intros He. specialize (Hin Hlive). rewrite He in Hin. by apply elem_of_nil in Hin.
Qed.

Lemma wp_addHere b l (Q : unit → trav → Prop) :
  twf b → is_target b l →
  (∀ b', step b b' → flow (bld b') = flow (bld b) → leads b' (flow (bld b)) l →
     (flow (bld b) ≠ unreachableFlow → has_ants b' l) → Q tt b') →
  wp (addHere l) Q X b.
Proof. intros Hb Hl HQ. unfold addHere, here. wp_steps. apply wp_t_addAntecedent; [done..|by apply twf_flow|done]. Qed.

Lemma wp_go b f (Q : unit → trav → Prop) :
  twf b → (f < length (nodes (bld b)))%nat → (∀ b', step b b' → flow (bld b') = f → nodes (bld b') = nodes (bld b) → Q tt b') →
  wp (go f) Q X b.
Proof.
  intros Hb Hf HQ. unfold go. apply wp_fl. wp_steps. apply HQ; [|done|done].
  constructor; try done. apply after_set_flow; [apply Hb|done].
Qed.

Lemma wp_t_branch {A} b f (m : FlowM nat) (k : nat → TravM A) flags node clause (Q : A → trav → Prop) :
  twf b → (f < length (nodes (bld b)))%nat → keeps m → flags ≠ FlowAssignment → flags ≠ FlowScopeStart →
  (∀ (Q' : nat → builder → Prop) Y,
     (∀ r x, after (bld b) x → flow x = flow (bld b) → (r < length (nodes x))%nat →
        ((r = f ∧ x = bld b) ∨ branch_of (bld b) f flags node clause r x) → Q' r x) → wp m Q' Y (bld b)) →
  (∀ r b', step b b' → flow (bld b') = flow (bld b) → (r < length (nodes (bld b')))%nat → leads b' f r → wp (k r) Q X b') →
  wp (fl m ≫= k) Q X b.
Proof.
  intros Hb Hf Hk Hfa Hfs Hm HQ. wp_steps. apply wp_fl, wp_keeps; [done|]. apply Hm. intros r x Haf Hflow Hr Hbr Hkept.
  apply HQ; cbn; [by constructor|done|done|]. intros Hw.
  destruct Hbr as [[-> _]|Hbr]; [apply passes_refl|]. unfold branch_of in Hbr.
  destruct (flowing (bld b) && _); [|destruct Hbr as [-> _]; apply passes_refl].
  destruct Hbr as (n & Hn & _ & Hflags & Hante & _). apply (leads_edge (set_bld x b) f r n Hn); [by left| |done].
  split; congruence.
Qed.

Lemma wp_t_condition {A} b f c truthy (k : nat → TravM A) (Q : A → trav → Prop) :
  twf b → (f < length (nodes (bld b)))%nat →
  (∀ r b', step b b' → flow (bld b') = flow (bld b) → (r < length (nodes (bld b')))%nat → leads b' f r → wp (k r) Q X b') →
  wp (fl (condition f c truthy) ≫= k) Q X b.
Proof.
  intros Hb Hf HQ. eapply (wp_t_branch b f _ k (if truthy then FlowTrueCondition else FlowFalseCondition) c 0);
    [done|done|auto with keeps|by destruct truthy|by destruct truthy| |done].
  intros Q' Y HQ'. apply wp_condition; [apply Hb|done|]. intros r x Haf Hfl Hr Hbr. apply HQ'; [done..|].
  destruct c; [by right|by left].
Qed.
Lemma wp_t_switchClause {A} b f sw i (k : nat → TravM A) (Q : A → trav → Prop) :
  twf b → (f < length (nodes (bld b)))%nat →
  (∀ r b', step b b' → flow (bld b') = flow (bld b) → (r < length (nodes (bld b')))%nat → leads b' f r → wp (k r) Q X b') →
  wp (fl (switchClause f sw i) ≫= k) Q X b.
Proof.
  intros Hb Hf HQ. eapply (wp_t_branch b f _ k FlowSwitchClause (Some sw) i); [done|done|auto with keeps|done|done| |done].
  intros Q' Y HQ'. apply wp_switchClause; [apply Hb|done|]. intros r x Haf Hfl Hr Hbr. apply HQ'; [done..|by right].
Qed.

Lemma wp_goCondition b f c truthy (Q : unit → trav → Prop) :
  twf b → (f < length (nodes (bld b)))%nat →
  (∀ b', step b b' → leads b' f (flow (bld b')) → Q tt b') → wp (goCondition f c truthy) Q X b.
Proof.
  intros Hb Hf HQ. unfold goCondition. apply wp_t_condition; [done..|]. intros r b1 Hs1 Hfl Hr Hl.
  apply wp_go; [by eapply step_wf|done|]. intros b2 Hs2 Hfl2 Hnodes. apply HQ; [by eapply step_trans|].
  rewrite Hfl2. unfold leads, within in *. by rewrite Hnodes.
Qed.

Lemma wp_goFinish b l (Q : unit → trav → Prop) :
  twf b → is_target b l →
  (∀ b', step b b' → nodes (bld b') = nodes (bld b) → (has_ants b l → flow (bld b') = l) → Q tt b') →
  wp (goFinish l) Q X b.
Proof.
  intros Hb (n & Hn & Hlab) HQ. unfold goFinish. wp_steps. apply wp_fl, wp_keeps; [auto with keeps|].
  eapply wp_finish; [done|]. intros _. assert (set_bld (bld b) b = b) as -> by (by destruct b). apply wp_go; [done| |].
  - destruct (decide _); [by apply twf_zero|by eapply lookup_lt_Some].
  - intros b' Hs Hfl Hnodes. apply HQ; [done|done|]. intros (n' & Hn' & Ha). assert (n' = n) as -> by congruence.
    rewrite Hfl, decide_False by done. done.
Qed.

Lemma wp_t_join {A} b fs (k : nat → TravM A) (Q : A → trav → Prop) :
  twf b → Forall (λ f, (f < length (nodes (bld b)))%nat) fs →
  (∀ r b', step b b' → flow (bld b') = flow (bld b) → (r < length (nodes (bld b')))%nat →
     (∀ f, f ∈ fs → leads b' f r) → wp (k r) Q X b') →
  wp (fl (join fs) ≫= k) Q X b.
Proof.
  intros Hb Hfs HQ. wp_steps. builder_op wp_join; [apply Hb|done|]. intros l x n Haf Hflow Hl0 Hn Hflags Hants Hkept.
  assert (step b (set_bld x b)) as Hs by (by constructor).
  assert (∀ f, f ∈ foldl add_path [] fs ↔ f ∈ fs ∧ f ≠ unreachableFlow) as Hin by (intros f; apply elem_of_live_paths).
  apply HQ; [done|done| |].
  - cbn. destruct (decide _); [apply (twf_zero (set_bld x b)); by eapply step_wf|by eapply lookup_lt_Some].
  - intros f Hf Hw Hlive. rewrite decide_False.
    + apply (leads_edge (set_bld x b) f l n); try done; [right; rewrite Hants; by apply Hin|]. unfold silent. by rewrite Hflags.
    + intros He. assert (f ∈ foldl add_path [] fs) as Hc by (by apply Hin). rewrite He in Hc. by apply elem_of_nil in Hc.
Qed.
Lemma wp_goJoin b fs (Q : unit → trav → Prop) :
  twf b → Forall (λ f, (f < length (nodes (bld b)))%nat) fs →
  (∀ b', step b b' → (∀ f, f ∈ fs → leads b' f (flow (bld b'))) → Q tt b') → wp (goJoin fs) Q X b.
Proof.
  intros Hb Hf HQ. unfold goJoin. apply wp_t_join; [done..|]. intros r b1 Hs1 Hfl Hr Hl.
  apply wp_go; [by eapply step_wf|done|]. intros b2 Hs2 Hfl2 Hnodes. apply HQ; [by eapply step_trans|].
  intros f Hin. rewrite Hfl2. specialize (Hl f Hin). unfold leads, within in *. by rewrite Hnodes.
Qed.

Lemma wp_t_unreachable b (Q : unit → trav → Prop) :
  twf b → (∀ b', step b b' → (flowing (bld b) = true → flow (bld b') = unreachableFlow) → Q tt b') →
  wp (fl unreachable) Q X b.
Proof.
  intros Hb HQ. builder_op wp_unreachable; [apply Hb|]. intros x Haf Hfl Hkept.
  apply HQ; [by constructor|]. cbn. intros Hf. by rewrite Hf in Hfl.
Qed.

(** Entering a scope, and storing. *)
Lemma wp_t_scopeStart b s (Q : unit → trav → Prop) :
  twf b →
  (∀ b', step b b' →
     (∀ k, flowing (bld b) = true → within b' → scopeOf (bnd (bld F)) !! k = Some s → flow (bld b) ≠ unreachableFlow →
        path F (flow (bld b)) [EEnter k] (flow (bld b'))) → Q tt b') →
  wp (fl (scopeStartFlow s)) Q X b.
Proof.
  intros Hb HQ. apply wp_fl, wp_keeps; [auto with keeps|]. unfold scopeStartFlow. wp_steps.
  destruct (flowing (bld b)) eqn:Hfw, (Nat.eqb_spec (flow (bld b)) unreachableFlow) as [He|Hne]; cbn [negb orb]; wp_steps.
  2: { apply wp_flow_node; [apply Hb|done|done|done|done|done|]. intros x Haf Hfl Hn Hkept.
       apply HQ; [by constructor|]. cbn. intros k _ Hw Hk Hlive.
       destruct (Hw _ _ Hn) as (n' & Hn' & Hg). destruct Hg as (Hflags & Ha & Hs & _).
       eapply (path_event F _ [] _ _ n' (EEnter k)); [constructor|done|left; by rewrite Ha|].
       cbn. rewrite Hflags, Hs, Hk. done. }
  all: intros Hkept; apply HQ; [constructor; try done; apply after_refl, Hb|]; by intros.
Qed.

(** The store [e], made at this point to the symbol [sym]. *)
Definition stores_now (b : trav) (sym : option SymId) (init assign : bool) (e : event) : Prop :=
  match e with
  | EStore t src init' assign' =>
      init' = init ∧ assign' = assign
      ∧ match src with Some s => storing (bld b) = Some s | None => plain_store (storing (bld b)) = false end
      ∧ match t with TId i => t_refs (tab F) !! i = sym | TName _ _ => plain_store src = false end
  | EEnter _ => False
  end.

Lemma wp_t_assign b sym init assign (Q : unit → trav → Prop) :
  twf b → (∀ s, sym = Some s → (s < length (symbols (bnd (bld b))))%nat) →
  (∀ b', step b b' →
     (∀ e, flowing (bld b) = true → within b' → stores_now b sym init assign e → flow (bld b) ≠ unreachableFlow →
        path F (flow (bld b)) [e] (flow (bld b'))) → Q tt b') →
  wp (fl (assignFlow sym init assign)) Q X b.
Proof.
  intros Hb Hs HQ. builder_op wp_assignFlow; [apply Hb|done|]. intros x Haf Hpost Hkept.
  apply HQ; [by constructor|]. cbn. intros e Hfw Hw He Hlive. destruct e as [t src i a|]; [|done].
  destruct He as (-> & -> & Hsrc & Ht). destruct sym as [s|].
  - destruct Hpost as [Hpost _]. rewrite Hfw, (proj2 (Nat.eqb_neq _ _) Hlive) in Hpost. cbn in Hpost.
    destruct Hpost as (n & Hn & Ha & Hflags & Hsym & Hi & Has & Hnode).
    destruct (Hw _ _ Hn) as (n' & Hn' & Hg). destruct Hg as (Hf' & Ha' & _ & Hs' & Hn'' & _ & Hi' & Has' & _).
    eapply (path_event F _ [] _ _ n' (EStore t src init assign)); [constructor|done|left; congruence|].
    cbn. rewrite Hf', Hi', Has', Hs', Hn'', Hsym, Hnode. split_and!; try done. by destruct t.
  - rewrite Hpost. apply (path_unseen F _ []); [constructor|]. by destruct t.
Qed.
End steps.

(** ** Operations on the scopes and symbols *)

(** What they keep of where the traversal is. *)
Definition place (d d' : binder) : Prop :=
  cur d' = cur d ∧ declaring d' = declaring d ∧ nsPrefix d' = nsPrefix d ∧ scopeOf d' = scopeOf d.
Definition places {A} (m : BindM A) : Prop := ∀ d, place d (m d).2.
(** In the resolving pass no symbol changes. *)
Definition fixes {A} (m : BindM A) : Prop := ∀ d, declaring d = false → symbols (m d).2 = symbols d.
(** A query changes nothing. *)
Definition reads {A} (m : BindM A) : Prop := ∀ d, (m d).2 = d.

Lemma place_trans d1 d2 d3 : place d1 d2 → place d2 d3 → place d1 d3.
Proof. unfold place. intros (? & ? & ? & ?) (? & ? & ? & ?). split_and!; congruence. Qed.

Section binder_ops.
Context {A B : Type}.
Lemma reads_places (m : BindM A) : reads m → places m.
Proof. intros H d. by rewrite H. Qed.
Lemma reads_fixes (m : BindM A) : reads m → fixes m.
Proof. intros H d _. by rewrite H. Qed.
Lemma reads_ret (a : A) : reads (mret a).
Proof. by intros d. Qed.
Lemma reads_get : reads get.
Proof. by intros d. Qed.
Lemma reads_gets (f : binder → A) : reads (gets f).
Proof. by intros d. Qed.
Lemma reads_deref (p : option A) : reads (deref p).
Proof. by destruct p. Qed.
Lemma reads_index (xs : list A) i : reads (index xs i).
Proof. unfold index. by destruct (xs !! i). Qed.
Lemma reads_bind (m : BindM A) (k : A → BindM B) : reads m → (∀ a, reads (k a)) → reads (m ≫= k).
Proof.
  intros Hm Hk d. specialize (Hm d). unfold mbind, BindM_bind, M_bind. destruct (m d) as [[a|e| |] d'] eqn:He; cbn in *; subst; try done.
  apply Hk.
Qed.
Lemma reads_loop {L} fuel (body : L → BindM (L + A)) x : (∀ x, reads (body x)) → reads (loop fuel body x).
Proof.
  intros Hb. revert x. induction fuel as [|fuel IH]; intros x d; cbn [loop]; [done|].
  specialize (Hb x d). unfold mbind, M_bind. destruct (body x d) as [[[x'|a]|e| |] d'] eqn:He; cbn in *; subst; try done. apply IH.
Qed.
Lemma places_bind (m : BindM A) (k : A → BindM B) : places m → (∀ a, places (k a)) → places (m ≫= k).
Proof.
  intros Hm Hk d. specialize (Hm d). unfold mbind, BindM_bind, M_bind. destruct (m d) as [[a|e| |] d'] eqn:He; cbn in *; try done.
  eapply place_trans; [done|apply Hk].
Qed.
Lemma fixes_bind (m : BindM A) (k : A → BindM B) : places m → fixes m → (∀ a, fixes (k a)) → fixes (m ≫= k).
Proof.
  intros Hp Hm Hk d Hd. specialize (Hm d Hd). specialize (Hp d). unfold mbind, BindM_bind, M_bind.
  destruct (m d) as [[a|e| |] d'] eqn:He; cbn in *; try done. rewrite <-Hm. apply Hk. by destruct Hp as (_ & -> & _).
Qed.
End binder_ops.

Ltac reads_tac :=
  repeat (simple apply reads_ret || simple apply reads_get || simple apply reads_gets || simple apply reads_deref
          || simple apply reads_index || (simple apply reads_bind; [|intros ?]) || (simple apply reads_loop; intros ?)
          || match goal with |- reads (match ?x with _ => _ end) => destruct x end).

Lemma reads_scope s : reads (scope s).
Proof. unfold scope. reads_tac. Qed.
Lemma reads_symbol s : reads (symbol s).
Proof. unfold symbol. reads_tac. Qed.
Ltac reads_tac' := repeat (reads_tac; try simple apply reads_scope; try simple apply reads_symbol).
Lemma reads_outward p s : reads (outward p s).
Proof. unfold outward. reads_tac'. Qed.
Lemma reads_functionScope : reads functionScope.
Proof. unfold functionScope. reads_tac. apply reads_outward. Qed.
Lemma reads_containerOf s : reads (containerOf s).
Proof. apply reads_outward. Qed.
Lemma reads_resolveName name : reads (resolveName name).
Proof. unfold resolveName. reads_tac'. Qed.
Lemma reads_thisScope s : reads (thisScope s).
Proof. unfold thisScope. reads_tac'. Qed.
Lemma reads_unmangled name : reads (unmangled name).
Proof. unfold unmangled. reads_tac'. Qed.
Lemma reads_local name : reads (local_ name).
Proof. unfold local_. reads_tac'. apply reads_unmangled. Qed.
Lemma reads_functionDeclKind : reads functionDeclKind.
Proof. unfold functionDeclKind. reads_tac'. Qed.
Lemma reads_scopes_through s t : reads (scopes_through s t).
Proof. unfold scopes_through. reads_tac'. Qed.
