(* ===== verification/TraverseNames.v ===== *)
(** * The traversal's operations on scopes and symbols

    What each keeps of where the traversal is, and its rule over [moves]. *)

From S2P Require Import Prelude GoString Diag Ast Symbols SymbolFacts Flow FlowWalk FlowFacts Traverse Exec FlowPath TraverseFacts.
Open Scope Z_scope.

Lemma places_modify f : (∀ d, place d (f d)) → places (modify f).
Proof. intros H d. apply H. Qed.

Ltac places_tac :=
  repeat (solve [simple apply reads_places; reads_tac'] || (simple apply places_bind; [|intros ?])
          || (simple apply places_modify; intros ?; by split_and!)
          || match goal with |- places (match ?x with _ => _ end) => destruct x end).

Lemma places_declare s name flags kind node : places (declare s name flags kind node).
Proof. unfold declare, declare_again, declare_fresh, report, update_scope, update_symbol. places_tac. Qed.
(** Declaring does nothing in the resolving pass. *)
Lemma declare_resolving s name flags kind node d :
  declaring d = false → declare s name flags kind node d = (Ok None, d).
Proof. intros Hd. unfold declare, get, mbind, BindM_bind, M_bind. by rewrite Hd. Qed.
Lemma fixes_declare s name flags kind node : fixes (declare s name flags kind node).
Proof. intros d Hd. by rewrite declare_resolving. Qed.

Lemma places_declareVariable kind name node : places (declareVariable kind name node).
Proof.
  unfold declareVariable. apply places_bind; [places_tac|intros c]. destruct (bool_decide _).
  - apply places_bind; [apply reads_places, reads_functionScope|intros t].
    apply places_bind; [apply places_declare|intros [id|]]; [|places_tac].
    apply places_bind; [places_tac|intros s]. destruct (bool_decide _); [places_tac|].
    apply places_bind; [apply reads_places, reads_scopes_through|intros thr]. places_tac.
  - apply places_bind; [apply places_declare|intros ?; places_tac].
Qed.
Lemma fixes_declareVariable kind name node : fixes (declareVariable kind name node).
Proof.
  intros d Hd. unfold declareVariable. unfold gets, mbind, BindM_bind, M_bind. cbn. destruct (bool_decide _).
  - pose proof (reads_functionScope d) as Hr. destruct (functionScope d) as [[t|e| |] d'] eqn:He; cbn in *; subst; try done.
    by rewrite declare_resolving.
  - by rewrite declare_resolving.
Qed.

Lemma places_declareArguments s : places (declareArguments s).
Proof.
  unfold declareArguments. apply places_bind; [places_tac|intros b]. apply places_bind; [places_tac|intros sc].
  destruct (_ && _); [|places_tac]. apply places_bind; [apply places_declare|intros [id|]]; unfold update_symbol; places_tac.
Qed.
Lemma fixes_declareArguments s : fixes (declareArguments s).
Proof.
  intros d Hd. unfold declareArguments, get, mbind, BindM_bind, M_bind. pose proof (reads_scope s d) as Hr.
  destruct (scope s d) as [[sc|e| |] d'] eqn:He; cbn in *; subst; try done. by rewrite Hd.
Qed.
Lemma places_markInline s : places (markInline s).
Proof. unfold markInline, update_scope. places_tac. Qed.
Lemma fixes_markInline s : fixes (markInline s).
Proof. by intros d. Qed.
Lemma places_checkHoists : places checkHoists.
Proof.
  unfold checkHoists. apply places_bind; [places_tac|intros hs]. induction hs as [|h hs IH]; cbn [check_hoists]; [places_tac|].
  apply places_bind; [places_tac|intros sym]. apply places_bind; [|done].
  generalize (SName sym), (hdecl h). intros name dd. induction (through h) as [|s thr IHt]; cbn [check_through]; [places_tac|].
  apply places_bind; [places_tac|intros sc]. destruct (Get _ _); [|done].
  apply places_bind; [places_tac|intros sym']. destruct (existsb _ _); [places_tac|done].
Qed.

Create HintDb places discriminated.
#[export] Hint Resolve places_declare places_declareVariable places_declareArguments places_markInline places_checkHoists
  fixes_declare fixes_declareVariable fixes_declareArguments fixes_markInline
  reads_places reads_fixes reads_functionScope reads_containerOf reads_resolveName reads_thisScope reads_unmangled
  reads_local reads_functionDeclKind reads_scope reads_deref reads_gets reads_get : places.

(** ** Rules *)

(** A name resolves to a symbol there is. *)
Lemma resolves_lt b name p id : wf b → resolves b name p (Some id) → (id < length (symbols b))%nat.
Proof.
  intros Hwf H. remember (Some id) as r eqn:Hr. induction H as [|s sc i Hsc Ho|s sc r Hsc _ _ IH]; [done| |auto].
  injection Hr as ->. unfold offers in Ho. destruct (Get (Symbols sc) name) as [j|] eqn:Hget; [|done].
  destruct (symbols b !! j) as [sym|] eqn:Hsym; [|done]. destruct (negb _); [done|].
  destruct (inParams b && _ && _); [|injection Ho as <-; by eapply lookup_lt_Some].
  case_bool_decide; [|done]. by eapply sc_args, Ho; apply (wf_scopes _ Hwf).
Qed.

Section rules.
Context {X : Empty_set → trav → Prop}.

(** The state with other scopes and symbols. *)
Definition with_bnd (d : binder) (b : trav) : trav := set_bld (set_bnd d (bld b)) b.

Lemma wp_bd {A} (m : BindM A) b (Q : A → trav → Prop) :
  wp m (λ a d, Q a (with_bnd d b)) (λ _ _, False) (bnd (bld b)) → wp (bd m) Q X b.
Proof.
  unfold wp, bd, fl, lift, with_bnd. destruct (m (bnd (bld b))) as [[| | |] d]; done.
Qed.

Record names (d d' : binder) : Prop := {
  na_wf : wf d'; na_grows : grows d d'; na_place : place d d';
  na_symbols : declaring d = false → symbols d' = symbols d }.

Lemma grows_symbols_length d d' : grows d d' → (length (symbols d) ≤ length (symbols d'))%nat.
Proof.
  intros H. destruct (decide (length (symbols d) = 0%nat)) as [|Hne]; [lia|].
  destruct (lookup_lt_is_Some_2 (symbols d) (length (symbols d) - 1)) as [s Hs]; [lia|].
  apply (gr_symbols _ _ H) in Hs as (? & Hs & _). apply lookup_lt_Some in Hs. lia.
Qed.

Lemma twf_with_bnd b d : twf b → wf d → grows (bnd (bld b)) d → twf (with_bnd d b).
Proof.
  intros [[] Hr Hf Hs] Hwf Hg. constructor; cbn; [by constructor| |done|].
  - intros i s Hi. specialize (Hr i s Hi). cbv beta in Hr. pose proof (grows_symbols_length _ _ Hg). lia.
  - intros i so Hi s Heq. specialize (Hs i so Hi s Heq). pose proof (grows_scopes_length _ _ Hg). lia.
Qed.

Lemma names_moves b d : twf b → names (bnd (bld b)) d → moves p0 b (with_bnd d b).
Proof.
  intros Hb [Hwf Hg (Hc & Hd & Hp & Hk) Hs]. split; constructor; cbn; rewrite ?Hk; try done; [|by cbn; lia|auto].
  by apply twf_with_bnd.
Qed.

Lemma wp_bd_names {A} (m : BindM A) b (Q : A → trav → Prop) (R : A → binder → Prop) :
  twf b → places m → fixes m → wp m (λ a d, wf d ∧ grows (bnd (bld b)) d ∧ R a d) (λ _ _, False) (bnd (bld b)) →
  (∀ a d, names (bnd (bld b)) d → R a d → moves p0 b (with_bnd d b) → Q a (with_bnd d b)) →
  wp (bd m) Q X b.
Proof.
  intros Hb Hp Hf Hm HQ. apply wp_bd. specialize (Hp (bnd (bld b))). specialize (Hf (bnd (bld b))). unfold wp in *.
  destruct (m (bnd (bld b))) as [[a|e| |] d]; try done. destruct Hm as (Hwf & Hg & HR).
  assert (names (bnd (bld b)) d) as Hn by (by constructor). apply HQ; [done|done|]. by apply names_moves.
Qed.

(** A query. *)
Lemma wp_bd_reads {A} (m : BindM A) b (Q : A → trav → Prop) :
  reads m → wp m (λ a _, Q a b) (λ _ _, False) (bnd (bld b)) → wp (bd m) Q X b.
Proof.
  intros Hr Hm. apply wp_bd. specialize (Hr (bnd (bld b))). unfold wp in *.
  destruct (m (bnd (bld b))) as [[a|e| |] d]; try done. cbn in Hr. subst d.
  unfold with_bnd. by destruct b as [[] ? ?].
Qed.

Lemma wp_t_resolve b name (Q : option SymId → trav → Prop) :
  twf b → (∀ s, (∀ id, s = Some id → (id < length (symbols (bnd (bld b))))%nat) → Q s b) → wp (bd (resolveName name)) Q X b.
Proof.
  intros Hb HQ. apply wp_bd_reads; [auto with places|].
  destruct (resolveName_spec (bnd (bld b)) name) as (r & Hr & Hres); [apply Hb|]. unfold wp. rewrite Hr. apply HQ.
  intros id ->. eapply resolves_lt; [apply Hb|done].
Qed.
End rules.

(** ** Entering a scope, and leaving it *)

Lemma run_enter i node tag kind d :
  ∃ s d', enter i node tag kind d = (Ok s, d') ∧ cur d' = Some s ∧ declaring d' = declaring d ∧ nsPrefix d' = nsPrefix d
    ∧ symbols d' = symbols d
    ∧ ((scopeOf d !! (i, tag) = Some s ∧ scopes d' = scopes d ∧ scopeOf d' = scopeOf d)
       ∨ (scopeOf d !! (i, tag) = None ∧ s = length (scopes d)
          ∧ scopes d' = scopes d ++ [mkScope kind node (cur d) emptyTable false None]
          ∧ scopeOf d' = <[(i, tag) := s]> (scopeOf d))).
Proof.
  unfold enter, get, mbind, BindM_bind, M_bind. destruct (scopeOf d !! (i, tag)) as [s|] eqn:Hs; cbn.
  - exists s. eexists. split; [done|]. cbn. split_and!; try done. left. done.
  - eexists _, _. split; [done|]. cbn. split_and!; try done. right. done.
Qed.

Record entered (k key0 : key) (kind : ScopeKind) (b : trav) (s : nat) (b1 : trav) : Prop := {
  en_state : ∃ d, b1 = with_bnd d b ∧ cur d = Some s ∧ declaring d = declaring (bnd (bld b))
               ∧ nsPrefix d = nsPrefix (bnd (bld b));
  en_key : scopeOf (bnd (bld b1)) !! key0 = Some s;
  en_opened : opened_ok b1 (mkOpening key0 kind k);
  en_core : core (mkPlan 0 [mkOpening key0 kind k] []) b b1 }.

Lemma wp_enter_key {X : Empty_set → trav → Prop} k i node tag kind b c (Q : nat → trav → Prop) :
  twf b → cur (bnd (bld b)) = Some c → scopeOf (bnd (bld b)) !! k = Some c →
  (declaring (bnd (bld b)) = true → scopeOf (bnd (bld b)) !! (i, tag) = None) →
  (declaring (bnd (bld b)) = false → opened_ok b (mkOpening (i, tag) kind k)) →
  (∀ s b1, entered k (i, tag) kind b s b1 → Q s b1) → wp (bd (enter i node tag kind)) Q X b.
Proof.
  intros Hb Hc Hk Hnew Hold HQ. apply wp_bd.
  pose proof (wp_enter i node tag kind (bnd (bld b)) (λ _ _, False) (bw_bnd _ (tw_bld _ Hb)) ltac:(by rewrite Hc)) as Hrun.
  destruct (run_enter i node tag kind (bnd (bld b))) as (s & d & He & Hcur & Hd & Hp & Hsym & Hcase).
  unfold wp in *. rewrite He in *. destruct Hrun as (Hwf & Hg & _ & Hlt). apply HQ.
  pose proof (twf_with_bnd b d Hb Hwf Hg) as Htwf. destruct Hcase as [(Hs & Hsc & Hso)|(Hs & -> & Hsc & Hso)].
  - destruct (declaring (bnd (bld b))) eqn:Hdec; [by rewrite Hnew in Hs|].
    destruct (Hold eq_refl) as (s' & sc & p & Hs' & Hsc' & Hkind & Hpk & Hpar). cbn in Hs', Hkind, Hpk.
    assert (s' = s) as -> by congruence.
    assert (opened_ok (with_bnd d b) (mkOpening (i, tag) kind k)) as Hop.
    { exists s, sc, p. cbn. rewrite Hso, Hsc. by split_and!. }
    constructor; cbn; [exists d; split_and!; congruence|by rewrite Hso|done|].
    constructor; cbn; rewrite ?Hso; try done; [lia|]. intros Hdec'. congruence.
  - destruct (declaring (bnd (bld b))) eqn:Hdec; [|destruct (Hold eq_refl) as (s' & sc & p & Hs' & _); cbn in Hs'; congruence].
    assert (k ≠ (i, tag)) as Hne by congruence.
    assert (scopes d !! length (scopes (bnd (bld b))) = Some (mkScope kind node (Some c) emptyTable false None)) as Hl.
    { rewrite Hsc, Hc. by rewrite list_lookup_middle. }
    assert (scopeOf d !! (i, tag) = Some (length (scopes (bnd (bld b))))) as Hkey by (rewrite Hso; apply lookup_insert_eq).
    assert (∀ k', k' ≠ (i, tag) → scopeOf d !! k' = scopeOf (bnd (bld b)) !! k') as Hother
      by (intros k' Hk'; rewrite Hso; by apply lookup_insert_ne).
    assert (opened_ok (with_bnd d b) (mkOpening (i, tag) kind k)) as Hop.
    { eexists _, _, c. cbn. split_and!; [done|done|done| |done]. rewrite Hother by done. done. }
    constructor; cbn; [exists d; split_and!; congruence|done|done|].
    constructor; cbn; try done; [lia| | | |congruence].
    + intros k' s' Hk'. rewrite Hother; [done|]. intros ->. congruence.
    + intros k' Hk'. apply Hother. intros ->. apply Hk'. by left.
    + intros _. by apply Forall_singleton.
Qed.

(** [leave]: back in the scope the entered one is in. *)
Lemma run_leave d s sc p :
  cur d = Some s → scopes d !! s = Some sc → Parent sc = p → leave d = (Ok tt, set_cur p d).
Proof.
  intros Hc Hs Hp. unfold leave, scope, gets, get, deref, index, mbind, BindM_bind, M_bind. rewrite Hc. cbn. rewrite Hs. cbn. by rewrite Hp.
Qed.

Lemma core_set_cur P b b' c :
  core P b b' → (c < length (scopes (bnd (bld b'))))%nat → core P b (with_bnd (set_cur (Some c) (bnd (bld b'))) b').
Proof.
  intros [[[[]]] ? [] ? ? ? ? Hop ? ? ?] Hc. constructor; cbn; try done.
  constructor; cbn; try done. constructor; cbn; try done. constructor; cbn; try done. by intros ? [= <-].
Qed.

Lemma core_leave k key0 kind b s b1 P b2 c :
  cur (bnd (bld b)) = Some c → scopeOf (bnd (bld b)) !! k = Some c →
  entered k key0 kind b s b1 → core P b1 b2 → cur (bnd (bld b2)) = cur (bnd (bld b1)) →
  leave (bnd (bld b2)) = (Ok tt, set_cur (Some c) (bnd (bld b2)))
  ∧ core (popen key0 kind k P) b (with_bnd (set_cur (Some c) (bnd (bld b2))) b2).
Proof.
  intros Hc Hk Hen Hm Hcur2. destruct (en_state _ _ _ _ _ _ Hen) as (d & Hb1 & Hcur & Hd & Hp).
  pose proof (en_key _ _ _ _ _ _ Hen) as Hkey. destruct (en_opened _ _ _ _ _ _ Hen) as (s' & sc & p & Hs' & Hsc & Hkind & Hpk & Hpar).
  cbn in Hs', Hpk. pose proof (en_core _ _ _ _ _ _ Hen) as Hcore. pose proof (co_kept _ _ _ Hcore _ _ Hk) as Hk1.
  assert (s' = s) as -> by congruence. assert (p = c) as -> by congruence.
  destruct (gr_scopes _ _ (co_grows _ _ _ Hm) _ _ Hsc) as (sc2 & Hsc2 & _ & Hpar2 & _).
  assert (cur (bnd (bld b2)) = Some s) as Hcur2' by (rewrite Hcur2, Hb1; done).
  split; [eapply run_leave; [done|done|congruence]|]. apply core_set_cur.
  - apply (core_trans (mkPlan 0 [mkOpening key0 kind k] []) P b b1 b2); [rewrite Hb1; done|done|done].
  - pose proof (wf_opened _ (bw_bnd _ (tw_bld _ (co_wf _ _ _ Hm))) k c). apply H. by eapply co_kept, Hk1.
Qed.

Lemma moves_leave k key0 kind b s b1 P b2 c :
  cur (bnd (bld b)) = Some c → scopeOf (bnd (bld b)) !! k = Some c →
  entered k key0 kind b s b1 → moves P b1 b2 →
  leave (bnd (bld b2)) = (Ok tt, set_cur (Some c) (bnd (bld b2)))
  ∧ moves (popen key0 kind k P) b (with_bnd (set_cur (Some c) (bnd (bld b2))) b2).
Proof.
  intros Hc Hk Hen [Hm Hs]. destruct (core_leave _ _ _ _ _ _ _ _ _ Hc Hk Hen Hm (sm_cur _ _ Hs)) as [Hrun Hco].
  split; [done|]. split; [done|]. destruct (en_state _ _ _ _ _ _ Hen) as (d & Hb1 & Hcur & Hd & Hp).
  rewrite Hb1 in Hs. destruct Hs. constructor; cbn in *; congruence || auto.
Qed.

(** ** Declaring, and the modes *)

(** Only scopes and symbols change, and the traversal's place does not. *)
Definition renames (b b' : trav) : Prop := ∃ d, b' = with_bnd d b ∧ names (bnd (bld b)) d.

Lemma names_refl d : wf d → names d d.
Proof. by constructor. Qed.
Lemma names_trans d1 d2 d3 : names d1 d2 → names d2 d3 → names d1 d3.
Proof.
  intros [? ? Hp1 Hs1] [? ? Hp2 Hs2]. constructor; [done|by etrans|by eapply place_trans|].
  intros Hd. rewrite Hs2, Hs1; [done..|]. by destruct Hp1 as (_ & -> & _).
Qed.
Lemma renames_refl b : twf b → renames b b.
Proof. intros H. exists (bnd (bld b)). split; [by destruct b as [[] ? ?]|apply names_refl, H]. Qed.
Lemma renames_trans b1 b2 b3 : renames b1 b2 → renames b2 b3 → renames b1 b3.
Proof. intros (d & -> & H1) (d' & -> & H2). exists d'. split; [done|by eapply names_trans]. Qed.
Lemma renames_moves b b' : twf b → renames b b' → moves p0 b b'.
Proof. intros Hb (d & -> & Hn). by apply names_moves. Qed.
Lemma renames_rest b b' :
  renames b b' → ctl b' = ctl b ∧ tab b' = tab b ∧ nodes (bld b') = nodes (bld b) ∧ flow (bld b') = flow (bld b)
                 ∧ storing (bld b') = storing (bld b) ∧ cur (bnd (bld b')) = cur (bnd (bld b))
                 ∧ scopeOf (bnd (bld b')) = scopeOf (bnd (bld b)) ∧ exceptionTargets (bld b') = exceptionTargets (bld b)
                 ∧ container (bld b') = container (bld b) ∧ fnScope (bld b') = fnScope (bld b).
Proof. intros (d & -> & [_ _ (? & ? & ? & ?) _]). by split_and!. Qed.
Lemma renames_scope b b' s sc :
  renames b b' → scopes (bnd (bld b)) !! s = Some sc → ∃ sc', scopes (bnd (bld b')) !! s = Some sc' ∧ ScKind sc' = ScKind sc.
Proof. intros (d & -> & [_ Hg _ _]) Hs. destruct (gr_scopes _ _ Hg _ _ Hs) as (sc' & ? & ? & _). by exists sc'. Qed.

Section names.
Context {X : Empty_set → trav → Prop}.

Lemma wp_renames {A} (m : BindM A) b (Q : A → trav → Prop) :
  twf b → places m → fixes m → wp m (λ a d, wf d ∧ grows (bnd (bld b)) d) (λ _ _, False) (bnd (bld b)) →
  (∀ a b', renames b b' → Q a b') → wp (bd m) Q X b.
Proof.
  intros Hb Hp Hf Hm HQ. eapply (wp_bd_names m b Q (λ _ _, True)); [done..| |].
  - eapply wp_mono; [exact Hm| |done]. cbv beta. by intros a d [? ?].
  - intros a d Hn _ _. apply HQ. by exists d.
Qed.

Lemma declare_wf d s name flags kind node :
  wf d → (s < length (scopes d))%nat →
  wp (declare (Some s) name flags kind node) (λ _ d', wf d' ∧ grows d d') (λ _ _, False) d.
Proof.
  intros Hd [sc Hsc]%lookup_lt_is_Some.
  eapply wp_mono; [by eapply (wp_declare s sc name flags kind node d (λ _ _, False))| |done]. cbv beta. intros r d' Hr.
  destruct (negb _ || _); [by destruct Hr as [_ ->]|]. by destruct Hr as (? & ? & _).
Qed.

Lemma wp_t_declare b s name flags kind node (Q : option SymId → trav → Prop) :
  twf b → (s < length (scopes (bnd (bld b))))%nat → (∀ r b', renames b b' → Q r b') →
  wp (bd (declare (Some s) name flags kind node)) Q X b.
Proof.
  intros Hb Hs HQ. apply wp_renames; [done|auto with places..|apply declare_wf; [apply Hb|done]|done].
Qed.

Lemma places_then {A} (m : BindM A) : places m → places (m ≫= λ _, mret tt).
Proof. intros H. apply places_bind; [done|]. intros _. apply reads_places, reads_ret. Qed.
Lemma fixes_then {A} (m : BindM A) : places m → fixes m → fixes (m ≫= λ _, mret tt).
Proof. intros Hp H. apply fixes_bind; [done..|]. intros _. apply reads_fixes, reads_ret. Qed.

Lemma wp_declare_then b s name flags kind node (Q : unit → trav → Prop) :
  twf b → (s < length (scopes (bnd (bld b))))%nat → (∀ b', renames b b' → Q tt b') →
  wp (bd (declare (Some s) name flags kind node ≫= λ _, mret tt)) Q X b.
Proof.
  intros Hb Hs HQ. apply wp_renames; [done|apply places_then; auto with places|apply fixes_then; auto with places| |by intros []].
  wp_steps. eapply wp_mono; [apply declare_wf; [apply Hb|done]| |done]. cbv beta. intros r d Hr. by wp_steps.
Qed.

Lemma wp_declareHere b c name flags kind n (Q : unit → trav → Prop) :
  twf b → cur (bnd (bld b)) = Some c → (∀ b', renames b b' → Q tt b') → wp (declareHere name flags kind n) Q X b.
Proof.
  intros Hb Hc HQ. unfold declareHere. apply wp_renames; [done| | | |by intros []].
  - apply places_bind; [apply reads_places, reads_gets|]. intros s. apply places_then. auto with places.
  - apply fixes_bind; [apply reads_places, reads_gets|apply reads_fixes, reads_gets|].
    intros s. apply fixes_then; auto with places.
  - wp_steps. rewrite Hc. pose proof (wf_cur _ (bw_bnd _ (tw_bld _ Hb)) c Hc) as Hs.
    eapply wp_mono; [apply declare_wf; [apply Hb|done]| |done]. cbv beta. intros r d Hr. by wp_steps.
Qed.

Lemma wp_t_declareVariable b c kind name node (Q : unit → trav → Prop) :
  twf b → cur (bnd (bld b)) = Some c → (∀ b', renames b b' → Q tt b') → wp (bd (declareVariable kind name node)) Q X b.
Proof.
  intros Hb Hc HQ. apply wp_renames; [done|auto with places..| |by intros []].
  eapply wp_mono; [apply (wp_declareVariable kind name node _ (λ _ _, False)); [apply Hb|by exists c]| |done].
  cbv beta. by intros _ d (? & ? & _).
Qed.

Lemma wp_t_declareArguments b s sc (Q : unit → trav → Prop) :
  twf b → scopes (bnd (bld b)) !! s = Some sc → ScKind sc = FunctionScope → (∀ b', renames b b' → Q tt b') →
  wp (bd (declareArguments s)) Q X b.
Proof.
  intros Hb Hs Hk HQ. apply wp_renames; [done|auto with places..| |by intros []].
  eapply wp_mono; [apply (wp_declareArguments s sc _ (λ _ _, False)); [apply Hb|done..]| |done].
  cbv beta. by intros _ d (? & ? & _).
Qed.

Lemma wp_t_markInline b s sc (Q : unit → trav → Prop) :
  twf b → scopes (bnd (bld b)) !! s = Some sc → ScKind sc = FunctionScope → (∀ b', renames b b' → Q tt b') →
  wp (bd (markInline s)) Q X b.
Proof.
  intros Hb Hs Hk HQ. apply wp_renames; [done|auto with places..| |by intros []].
  unfold markInline, update_scope. wp_steps. apply alter_scope_wf; [apply Hb|].
  intros sc' Hsc' [Hp Ht Hi _]. split; [|done]. assert (sc' = sc) as -> by congruence. by constructor.
Qed.

Lemma wp_t_checkHoists b (Q : unit → trav → Prop) :
  twf b → (∀ d, wf d → grows (bnd (bld b)) d → place (bnd (bld b)) d → Q tt (with_bnd d b)) → wp (bd checkHoists) Q X b.
Proof.
  intros Hb HQ. apply wp_bd. pose proof (places_checkHoists (bnd (bld b))) as Hp.
  pose proof (wp_checkHoists (bnd (bld b)) (λ _ _, False) (bw_bnd _ (tw_bld _ Hb))) as H. unfold wp in *.
  destruct (checkHoists (bnd (bld b))) as [[[]| | |] d]; try done. destruct H as (? & ? & _). by apply HQ.
Qed.

(** Setting a mode. *)
Lemma wp_set_mode b f (Q : unit → trav → Prop) :
  twf b → (∀ d, wf d → wf (f d) ∧ grows d (f d) ∧ place d (f d) ∧ symbols (f d) = symbols d) →
  (∀ b', renames b b' → Q tt b') → wp (bd (modify f)) Q X b.
Proof.
  intros Hb Hf HQ. pose proof (Hf _ (bw_bnd _ (tw_bld _ Hb))) as (Hw & Hg & Hp & Hs). apply wp_bd. wp_steps. apply HQ.
  exists (f (bnd (bld b))). by split; [|constructor].
Qed.
Lemma wp_set_plain b p (Q : unit → trav → Prop) :
  twf b → (∀ b', renames b b' → Q tt b') → wp (bd (set_plain p)) Q X b.
Proof. intros Hb HQ. apply wp_set_mode; [done| |done]. intros d []. split; [by constructor|]. by split; [constructor; cbn; eauto 10|]. Qed.
Lemma wp_set_params b ip ps (Q : unit → trav → Prop) :
  twf b → (∀ b', renames b b' → Q tt b') → wp (bd (set_params ip ps)) Q X b.
Proof. intros Hb HQ. apply wp_set_mode; [done| |done]. intros d []. split; [by constructor|]. by split; [constructor; cbn; eauto 10|]. Qed.
Lemma wp_set_body b ib bs (Q : unit → trav → Prop) :
  twf b → (∀ b', renames b b' → Q tt b') → wp (bd (set_body ib bs)) Q X b.
Proof. intros Hb HQ. apply wp_set_mode; [done| |done]. intros d []. split; [by constructor|]. by split; [constructor; cbn; eauto 10|]. Qed.

(** Queries of the current scope. *)
Lemma wp_functionDeclKind b c (Q : DeclKind → trav → Prop) :
  twf b → cur (bnd (bld b)) = Some c → (∀ k, Q k b) → wp (bd functionDeclKind) Q X b.
Proof.
  intros Hb Hc HQ. apply wp_bd_reads; [auto with places|]. unfold functionDeclKind. wp_steps. rewrite Hc. cbn [deref]. wp_steps.
  apply wp_scope; [by apply (wf_cur _ (bw_bnd _ (tw_bld _ Hb)))|]. intros sc _. by wp_steps.
Qed.
Lemma wp_t_scope b s (Q : Scope → trav → Prop) :
  twf b → (s < length (scopes (bnd (bld b))))%nat → (∀ sc, scopes (bnd (bld b)) !! s = Some sc → Q sc b) → wp (bd (scope s)) Q X b.
Proof. intros Hb Hs HQ. apply wp_bd_reads; [auto with places|]. by apply wp_scope. Qed.
Lemma wp_local b c name (Q : option SymId → trav → Prop) :
  twf b → cur (bnd (bld b)) = Some c → nsPrefix (bnd (bld b)) = "" →
  (∀ s, (∀ id, s = Some id → (id < length (symbols (bnd (bld b))))%nat) → Q s b) → wp (bd (local_ name)) Q X b.
Proof.
  intros Hb Hc Hp HQ. apply wp_bd_reads; [auto with places|]. unfold local_, unmangled. wp_steps. rewrite Hc. cbn [deref]. wp_steps.
  rewrite Hp, bool_decide_true by done. wp_steps.
  apply wp_scope; [by apply (wf_cur _ (bw_bnd _ (tw_bld _ Hb)))|]. intros sc Hsc. wp_steps. apply HQ.
  intros id Hid. eapply Get_lt; [apply Hb|done..].
Qed.
Lemma wp_unmangled b name (Q : string → trav → Prop) :
  nsPrefix (bnd (bld b)) = "" → Q name b → wp (bd (unmangled name)) Q X b.
Proof.
  intros Hp HQ. apply wp_bd_reads; [auto with places|]. unfold unmangled. wp_steps. rewrite Hp, bool_decide_true by done. by wp_steps.
Qed.

(** Something done for each of a list, in scopes that stay. *)
Lemma wp_each_renames {A} (f : A → TravM unit) (s : nat) xs b (Q : unit → trav → Prop) :
  twf b → (s < length (scopes (bnd (bld b))))%nat →
  (∀ x b1 (R : unit → trav → Prop), twf b1 → cur (bnd (bld b1)) = cur (bnd (bld b)) →
     (s < length (scopes (bnd (bld b1))))%nat → (∀ b', renames b1 b' → R tt b') → wp (f x) R X b1) →
  (∀ b', renames b b' → Q tt b') → wp (each f xs) Q X b.
Proof.
  intros Hb Hs Hf. revert Q.
  assert (∀ b1 (Q : unit → trav → Prop), twf b1 → cur (bnd (bld b1)) = cur (bnd (bld b)) →
     (s < length (scopes (bnd (bld b1))))%nat → (∀ b', renames b1 b' → Q tt b') → wp (each f xs) Q X b1) as Hall.
  2: { intros Q HQ. by apply Hall. }
  induction xs as [|x xs IH]; intros b1 Q Hb1 Hc1 Hs1 HQ; cbn [each].
  { wp_steps. by apply HQ, renames_refl. }
  wp_steps. apply Hf; [done..|]. intros b2 Hr. pose proof Hr as (d & -> & Hn).
  apply IH; [by eapply co_wf, (renames_moves _ _ Hb1 Hr)|destruct Hn as [_ _ (Hc & _) _]; cbn; congruence| |].
  - pose proof (grows_scopes_length _ _ (na_grows _ _ Hn)). cbn. lia.
  - intros b3 Hr3. apply HQ. by eapply renames_trans.
Qed.

Lemma wp_declareNames b c kind ns n (Q : unit → trav → Prop) :
  twf b → cur (bnd (bld b)) = Some c → (∀ b', renames b b' → Q tt b') → wp (declareNames kind ns n) Q X b.
Proof.
  intros Hb Hc HQ. apply (wp_each_renames _ c); [done|by apply (wf_cur _ (bw_bnd _ (tw_bld _ Hb)))| |done].
  intros x b1 R Hb1 Hc1 _ HR. eapply wp_t_declareVariable; [done|by rewrite Hc1|done].
Qed.
Lemma wp_declareIns b s n ns (Q : unit → trav → Prop) :
  twf b → (s < length (scopes (bnd (bld b))))%nat → (∀ b', renames b b' → Q tt b') → wp (each (declareIn s n) ns) Q X b.
Proof.
  intros Hb Hs HQ. apply (wp_each_renames _ s); [done..| |done]. intros x b1 R Hb1 _ Hs1 HR. by apply wp_declare_then.
Qed.
Lemma renames_lt b b' s : renames b b' → (s < length (scopes (bnd (bld b))))%nat → (s < length (scopes (bnd (bld b'))))%nat.
Proof. intros (d & -> & Hn) Hs. pose proof (grows_scopes_length _ _ (na_grows _ _ Hn)). cbn. lia. Qed.
Lemma renames_wf b b' : twf b → renames b b' → twf b'.
Proof. intros Hb Hr. by eapply co_wf, (renames_moves _ _ Hb Hr). Qed.
Lemma wp_declareParams b s n ps (Q : unit → trav → Prop) :
  twf b → (s < length (scopes (bnd (bld b))))%nat → (∀ b', renames b b' → Q tt b') → wp (each (declareParam s n) ps) Q X b.
Proof.
  intros Hb Hs HQ. apply (wp_each_renames _ s); [done..| |done]. intros [name d arr obj decs] b1 R Hb1 _ Hs1 HR. cbn.
  wp_steps. apply wp_declare_then; [done..|]. intros b2 H2. pose proof (renames_wf _ _ Hb1 H2) as Hb2. pose proof (renames_lt _ _ _ H2 Hs1) as Hs2.
  wp_steps. apply wp_declareIns; [done..|]. intros b3 H3. wp_steps.
  apply wp_declareIns; [by eapply renames_wf|by eapply renames_lt|]. intros b4 H4. apply HR. by do 2 (eapply renames_trans; [done|]).
Qed.
End names.
