(* ===== verification/TraverseSpec.v ===== *)
(** * The specification of a part of the traversal

    [spec k P l l' B m]: in the scope [k], [m] comes across [P] and ends
    without a panic; the executions [B] are on the paths it adds to the graph;
    the pending label goes from [l] to [l']. *)

From S2P Require Import Prelude GoString Diag Ast Symbols SymbolFacts Flow FlowWalk FlowFacts Traverse Exec.
From S2P Require Import FlowPath TraverseFacts TraverseNames.
Open Scope Z_scope.

(** Ready to come across [P] in the scope [k]: its scopes are new in the
    declaring pass, and there in the resolving one. *)
Record ready (k : key) (P : plan) (b : trav) : Prop := {
  re_wf : twf b;
  re_targets : targets_ok b;
  re_cur : ∃ s, cur (bnd (bld b)) = Some s ∧ scopeOf (bnd (bld b)) !! k = Some s;
  re_prefix : nsPrefix (bnd (bld b)) = "";
  re_ord : ord (bld b) + Z.of_nat (cost P) ≤ maxOrd;
  re_keys : NoDup (keys P);
  re_idents : NoDup (idents P);
  re_fresh : declaring (bnd (bld b)) = true → Forall (λ k, scopeOf (bnd (bld b)) !! k = None) (keys P);
  re_opens : declaring (bnd (bld b)) = false → Forall (opened_ok b) (opens P);
  re_refs : declaring (bnd (bld b)) = false → Forall (λ i, t_refs (tab b) !! i = None) (idents P) }.

(** No special visit is under way. *)
Record idle (b : trav) : Prop := {
  id_iife : iife (ctl b) = None;
  id_writing : writing (ctl b) = false;
  id_storing : plain_store (storing (bld b)) = false }.

Definition pending (l : option string) (b : trav) : Prop := ∀ x, l = Some x → pendingLabel (ctl b) = x.

Lemma keys_app P Q : keys (padd P Q) = keys P ++ keys Q.
Proof. unfold keys. cbn. by rewrite map_app. Qed.

Lemma ready_first k P Q b : ready k (padd P Q) b → ready k P b.
Proof.
  intros [? ? ? ? Ho Hk Hi Hf Hop Hrf]. rewrite keys_app in *. cbn in *. apply NoDup_app in Hk as (? & _ & _). apply NoDup_app in Hi as (? & _ & _).
  constructor; try done; [lia| | |].
  - intros Hd. specialize (Hf Hd). by apply Forall_app in Hf as [? _].
  - intros Hd. specialize (Hop Hd). by apply Forall_app in Hop as [? _].
  - intros Hd. specialize (Hrf Hd). by apply Forall_app in Hrf as [? _].
Qed.

Lemma ready_moves k P Q b b' : ready k (padd P Q) b → moves P b b' → ready k Q b'.
Proof.
  intros [? Ht (s & Hc & Hs) ? Ho Hk Hi Hf Hop Hrf] [Hco Hsm]. rewrite keys_app in *. cbn in *.
  apply NoDup_app in Hk as (? & Hkk & ?). apply NoDup_app in Hi as (_ & Hii & ?).
  constructor; try done.
  - apply Hco.
  - by eapply targets_ok_moves.
  - exists s. rewrite (sm_cur _ _ Hsm). split; [done|]. by eapply co_kept.
  - by rewrite (sm_prefix _ _ Hsm).
  - pose proof (co_ord _ _ _ Hco). lia.
  - rewrite (sm_declaring _ _ Hsm). intros Hd. specialize (Hf Hd). apply Forall_app in Hf as [_ Hf].
    apply Forall_forall. intros x Hx. rewrite Forall_forall in Hf.
    rewrite (co_fresh _ _ _ Hco); [by apply Hf|]. intros Hx'. by eapply Hkk.
  - rewrite (sm_declaring _ _ Hsm). intros Hd. specialize (Hop Hd). apply Forall_app in Hop as [_ Hop].
    eapply Forall_impl; [exact Hop|]. intros o. by eapply opened_ok_core.
  - rewrite (sm_declaring _ _ Hsm). intros Hd. specialize (Hrf Hd). apply Forall_app in Hrf as [_ Hrf].
    apply Forall_forall. intros x Hx. rewrite Forall_forall in Hrf.
    destruct (co_tables _ _ _ Hco x) as (-> & _); [|by apply Hrf]. intros Hx'. by eapply Hii.
Qed.

Lemma ready_p0 k P b b' : ready k P b → moves p0 b b' → ready k P b'.
Proof. intros H Hm. apply (ready_moves k p0 P b b'); [|done]. by destruct H. Qed.
Lemma idle_same b b' : idle b → same b b' → idle b'.
Proof. intros [] []. constructor; try congruence. auto. Qed.

(** A smaller bound on the visits. *)
Lemma ready_cost k P b n : ready k P b → (n ≤ cost P)%nat → ready k (mkPlan n (opens P) (idents P)) b.
Proof. intros []. constructor; cbn; try done. lia. Qed.

Section spec.
(** The state at the end of both passes. *)
Context (F : trav) (Hzero : nodes (bld F) !! unreachableFlow = Some unreachable_node).

(** What there is of [P] in the tables is what the end has. *)
Record later (P : plan) (b : trav) : Prop := {
  la_graph : within F b;
  la_tables : ∀ i, i ∈ idents P →
    t_refs (tab b) !! i = t_refs (tab F) !! i ∧ t_refFlow (tab b) !! i = t_refFlow (tab F) !! i
    ∧ t_refContainer (tab b) !! i = t_refContainer (tab F) !! i;
  la_symbols : symbols (bnd (bld b)) = symbols (bnd (bld F));
  la_scopes : scopeOf (bnd (bld b)) = scopeOf (bnd (bld F)) }.

Lemma later_core P Q b b' :
  later P b' → core Q b b' → declaring (bnd (bld b)) = false → (∀ i, i ∈ idents P → i ∉ idents Q) → later P b.
Proof.
  intros [Hg Ht Hs Hsc] Hc Hd Hdis. destruct (co_fixed _ _ _ Hc Hd) as [Hs' Hsc']. constructor.
  - unfold within in *. etrans; [apply Hc|done].
  - intros i Hi. destruct (co_tables _ _ _ Hc i (Hdis i Hi)) as (<- & <- & <-). by apply Ht.
  - congruence.
  - congruence.
Qed.
Lemma later_back P Q b b' :
  later P b' → moves Q b b' → declaring (bnd (bld b)) = false → (∀ i, i ∈ idents P → i ∉ idents Q) → later P b.
Proof. intros H [Hc _]. by eapply later_core. Qed.
Lemma later_part P Q b : later Q b → (∀ i, i ∈ idents P → i ∈ idents Q) → later P b.
Proof. intros [] H. constructor; auto. Qed.

Definition env_of (b : trav) : env := mkEnv (jumps (ctl b)) (returnTo (ctl b)) (container (bld b)).
Definition claims (b b' : trav) (B : behaviour) : Prop :=
  between F (env_of b) (flow (bld b)) b' (flow (bld b')) B ∧ activates F B.

Record post (P : plan) (l' : option string) (B : behaviour) (b b' : trav) : Prop := {
  po_moves : moves P b b';
  po_label : pending l' b';
  po_claims : flowing (bld b) = true → later P b' → claims b b' B }.

Definition spec (k : key) (P : plan) (l l' : option string) (B : behaviour) (m : TravM unit) : Prop :=
  ∀ b X, ready k P b → idle b → pending l b → wp m (λ _ b', post P l' B b b') X b.

Lemma env_same b b' : same b b' → env_of b' = env_of b.
Proof. intros []. unfold env_of. congruence. Qed.
Lemma flowing_same b b' : same b b' → flowing (bld b') = flowing (bld b).
Proof. intros []. unfold flowing. congruence. Qed.
Lemma flowing_declaring b : flowing (bld b) = true → declaring (bnd (bld b)) = false.
Proof. unfold flowing. by intros ?%negb_true_iff. Qed.

Lemma sub_refl A : sub A A.
Proof. by split. Qed.
Lemma claims_sub b b' A B : sub A B → claims b b' B → claims b b' A.
Proof. intros [Hn Hi] [HB HI]. split; [by eapply between_sub|by eapply activates_sub]. Qed.

Lemma spec_sub k P l l' A B m : spec k P l l' B m → sub A B → spec k P l l' A m.
Proof.
  intros H HAB b X Hr Hid Hl. eapply wp_mono; [by apply H| |done]. cbv beta. intros _ b' [Hm Hl' Hc].
  constructor; [done..|]. intros Hf Hla. eapply claims_sub; [done|]. by apply Hc.
Qed.

(** Doing nothing, and a move of the builder that passes on. *)
Lemma spec_ret k l : spec k p0 l l skip (mret tt).
Proof.
  intros b X Hr Hid Hl. wp_steps. constructor; [apply moves_refl, Hr|done|]. intros _ _. split.
  - apply between_skip, passes_refl.
  - intros ? ? ? [].
Qed.

(** ** What is known part of the way

    The parts done so far come across [P], the rest will come across [R]; the
    arcs are what is known of the graph, once it is the final one's. *)
Record arc := mkArc { aenv : env; afrom : nat; ato : nat; acode : behaviour }.
Definition arc_ok (b : trav) (a : arc) : Prop :=
  between F (aenv a) (afrom a) b (ato a) (acode a) ∧ activates F (acode a).

Record so_far (k : key) (l : option string) (P R : plan) (b0 b : trav) (arcs : list arc) : Prop := {
  sf_ready : ready k R b;
  sf_idle : idle b;
  sf_label : pending l b;
  sf_moves : moves P b0 b;
  sf_known : flowing (bld b0) = true → later P b → Forall (arc_ok b) arcs;
  sf_disjoint : NoDup (idents (padd P R)) }.

Lemma arc_ok_mono b b' a : graph_grows (nodes (bld b)) (nodes (bld b')) → arc_ok b a → arc_ok b' a.
Proof. intros Hg [H1 H2]. split; [by eapply between_mono|done]. Qed.
Lemma skip_activates : activates F skip.
Proof. by intros ? ? ? []. Qed.
Lemma arc_passes b E f g : passes F f g → arc_ok b (mkArc E f g skip).
Proof. intros H. split; [by apply between_skip|apply skip_activates]. Qed.
Lemma passes_arc b E f g : arc_ok b (mkArc E f g skip) → passes F f g.
Proof. intros [H _] Hf. by apply (H [] Normal). Qed.

Lemma sf_start k l R b : ready k R b → idle b → pending l b → so_far k l p0 R b b [].
Proof. intros Hr Hi Hl. constructor; try done; [apply moves_refl, Hr|apply Hr]. Qed.

Lemma padd_p0_l P : padd p0 P = P.
Proof. by destruct P. Qed.
Lemma padd_p0_r P : padd P p0 = P.
Proof. destruct P as [c o i]. unfold padd. cbn. rewrite !app_nil_r. f_equal. lia. Qed.
Lemma padd_assoc P Q R : padd P (padd Q R) = padd (padd P Q) R.
Proof. unfold padd. cbn. rewrite !app_assoc. f_equal. lia. Qed.

Lemma later_moves P Q b b' :
  later (padd P Q) b' → moves Q b b' → declaring (bnd (bld b)) = false → NoDup (idents (padd P Q)) → later P b.
Proof.
  intros Hla Hm Hd Hnd. apply NoDup_app in Hnd as (_ & Hdis & _). eapply later_back; [|done..].
  eapply later_part; [done|]. intros i Hi. cbn. apply elem_of_app. by left.
Qed.

Lemma later_right P Q b : later (padd P Q) b → later Q b.
Proof. intros H. eapply later_part; [done|]. intros i Hi. cbn. apply elem_of_app. by right. Qed.

Lemma sf_advance k l l2 P Q R b0 b b' arcs new :
  so_far k l P (padd Q R) b0 b arcs → moves Q b b' → pending l2 b' →
  (flowing (bld b0) = true → later (padd P Q) b' → Forall (arc_ok b) arcs → Forall (arc_ok b') new) →
  so_far k l2 (padd P Q) R b0 b' (new ++ arcs).
Proof.
  intros [Hr Hi Hl Hm Hk Hnd] Hq Hl2 Hnew.
  assert (NoDup (idents (padd P Q))) as HPQ.
  { rewrite padd_assoc in Hnd. by apply NoDup_app in Hnd as (? & _). }
  constructor; [by eapply ready_moves|eapply idle_same; [done|apply Hq]|done|by eapply moves_trans| |by rewrite <-padd_assoc].
  intros Hf Hla.
  assert (flowing (bld b) = true) as Hfb by (by rewrite (flowing_same _ _ (proj2 Hm))).
  assert (Forall (arc_ok b) arcs) as Hold.
  { apply Hk; [done|]. eapply later_moves; [done..|by apply flowing_declaring|done]. }
  apply Forall_app. split.
  - by apply Hnew.
  - eapply Forall_impl; [exact Hold|]. intros a. apply arc_ok_mono, Hq.
Qed.

(** A part done; an operation that comes across nothing; a conclusion. *)
Lemma sf_part k l l2 P Q R b0 b b' arcs B :
  so_far k l P (padd Q R) b0 b arcs → post Q l2 B b b' →
  so_far k l2 (padd P Q) R b0 b' (mkArc (env_of b0) (flow (bld b)) (flow (bld b')) B :: arcs).
Proof.
  intros Hs [Hm Hl Hc]. apply (sf_advance k l l2 P Q R b0 b b' arcs [_] Hs Hm Hl).
  intros Hf Hla%later_right _. apply Forall_singleton. rewrite <-(env_same _ _ (proj2 (sf_moves _ _ _ _ _ _ _ Hs))).
  apply Hc; [|done]. by rewrite (flowing_same _ _ (proj2 (sf_moves _ _ _ _ _ _ _ Hs))).
Qed.
Lemma sf_op k l l2 P R b0 b b' arcs new :
  so_far k l P R b0 b arcs → moves p0 b b' → pending l2 b' →
  (flowing (bld b0) = true → later P b' → Forall (arc_ok b) arcs → Forall (arc_ok b') new) →
  so_far k l2 P R b0 b' (new ++ arcs).
Proof.
  intros [Hr Hi Hl Hm Hk Hnd] Hq Hl2 Hnew.
  constructor; [by eapply ready_p0|eapply idle_same; [done|apply Hq]|done|by eapply moves_r| |done].
  intros Hf Hla. assert (Forall (arc_ok b) arcs) as Hold.
  { apply Hk; [done|]. eapply (later_back P p0); [done..| |by intros i _ ?%elem_of_nil].
    apply flowing_declaring. by rewrite (flowing_same _ _ (proj2 Hm)). }
  apply Forall_app. split; [by apply Hnew|]. eapply Forall_impl; [exact Hold|]. intros a. apply arc_ok_mono, Hq.
Qed.
Lemma sf_conclude k l P R b0 b arcs a :
  so_far k l P R b0 b arcs → (flowing (bld b0) = true → later P b → Forall (arc_ok b) arcs → arc_ok b a) →
  so_far k l P R b0 b (a :: arcs).
Proof.
  intros Hs Ha. apply (sf_op k l l P R b0 b b arcs [a] Hs); [apply moves_refl, Hs|apply Hs|].
  intros Hf Hw Hold. apply Forall_singleton. auto.
Qed.

Lemma sf_weaken k l P R b0 b arcs arcs' :
  so_far k l P R b0 b arcs → (Forall (arc_ok b) arcs → Forall (arc_ok b) arcs') → so_far k l P R b0 b arcs'.
Proof. intros [Hr Hi Hl Hm Hk Hnd] Hsub. constructor; try done. intros Hf Hla. by apply Hsub, Hk. Qed.
Lemma sf_drop k l P R b0 b arcs arcs' :
  so_far k l P R b0 b arcs → arcs' ⊆ arcs → so_far k l P R b0 b arcs'.
Proof. intros S Hsub. eapply sf_weaken; [done|]. rewrite !Forall_forall. auto. Qed.
Lemma sf_declaring k l P R b0 b arcs arcs' :
  so_far k l P R b0 b arcs → flowing (bld b0) = false → so_far k l P R b0 b arcs'.
Proof. intros [Hr Hi Hl Hm Hk Hnd] Hf. constructor; try done. congruence. Qed.

Lemma sf_post k l P R b0 b arcs B :
  so_far k l P R b0 b arcs →
  (flowing (bld b0) = true → later P b → Forall (arc_ok b) arcs →
     arc_ok b (mkArc (env_of b0) (flow (bld b0)) (flow (bld b)) B)) →
  post P l B b0 b.
Proof.
  intros [Hr Hi Hl Hm Hk Hnd] H. constructor; [done|done|]. intros Hf Hla. apply (H Hf); [done|]. by apply Hk.
Qed.

(** A part that is left with an arc. *)
Lemma wp_part k l l2 P Q R b0 b arcs B m (K : unit → trav → Prop) X :
  so_far k l P (padd Q R) b0 b arcs → spec k Q l l2 B m →
  (∀ b', so_far k l2 (padd P Q) R b0 b' (mkArc (env_of b0) (flow (bld b)) (flow (bld b')) B :: arcs) →
     graph_grows (nodes (bld b)) (nodes (bld b')) → K tt b') →
  wp m K X b.
Proof.
  intros Hs Hm HK. eapply wp_mono; [apply (Hm b X)| |done].
  - eapply ready_first. apply Hs.
  - apply Hs.
  - apply Hs.
  - cbv beta. intros [] b' Hp. apply HK; [by eapply sf_part|apply Hp].
Qed.
Lemma wp_last k l l2 P Q b0 b arcs B m (K : unit → trav → Prop) X :
  so_far k l P Q b0 b arcs → spec k Q l l2 B m →
  (∀ b', so_far k l2 (padd P Q) p0 b0 b' (mkArc (env_of b0) (flow (bld b)) (flow (bld b')) B :: arcs) →
     graph_grows (nodes (bld b)) (nodes (bld b')) → K tt b') →
  wp m K X b.
Proof. intros Hs. rewrite <-(padd_p0_r Q) in Hs. by apply wp_part. Qed.

(** ** Sequences *)

Lemma arc_nothing b E f g : arc_ok b (mkArc E f g nothing).
Proof. split; [by intros ? ? ? []|by intros ? ? ? []]. Qed.
Lemma arc_refl b E f : arc_ok b (mkArc E f f skip).
Proof. apply arc_passes, passes_refl. Qed.
Lemma arc_seq b E f g h A B :
  arc_ok b (mkArc E f g A) → arc_ok b (mkArc E g h B) → arc_ok b (mkArc E f h (seq A B)).
Proof. intros [H1 I1] [H2 I2]. split; [by eapply between_seq|by apply activates_seq]. Qed.
Lemma arc_either b E f g A B :
  arc_ok b (mkArc E f g A) → arc_ok b (mkArc E f g B) → arc_ok b (mkArc E f g (either A B)).
Proof.
  intros [H1 I1] [H2 I2]. split; [by apply between_either|]. intros ? ? ? [?|?]; [by apply I1|by apply I2].
Qed.
Lemma arc_pre b E f g h A : arc_ok b (mkArc E f g skip) → arc_ok b (mkArc E g h A) → arc_ok b (mkArc E f h A).
Proof. intros Hp [H I]. split; [eapply between_pre; [done|by eapply passes_arc|done]|done]. Qed.
Lemma arc_post b E f g h A : arc_ok b (mkArc E f g A) → arc_ok b (mkArc E g h skip) → arc_ok b (mkArc E f h A).
Proof. intros [H I] Hp. split; [eapply between_post; [done..|by eapply passes_arc]|done]. Qed.
Lemma arc_via b E f g h i A :
  arc_ok b (mkArc E f g skip) → arc_ok b (mkArc E g h A) → arc_ok b (mkArc E h i skip) → arc_ok b (mkArc E f i A).
Proof. intros H1 H2 H3. eapply arc_pre; [done|]. by eapply arc_post. Qed.
Lemma arc_sub b E f g A B : sub A B → arc_ok b (mkArc E f g B) → arc_ok b (mkArc E f g A).
Proof. intros [Hn Hi] [H I]. split; [by eapply between_sub|by eapply activates_sub]. Qed.
Lemma arc_perhaps b E f g A : arc_ok b (mkArc E f g skip) → arc_ok b (mkArc E f g A) → arc_ok b (mkArc E f g (perhaps A)).
Proof. intros Hp HA. by apply arc_either. Qed.

Lemma spec_seq k P Q l1 l2 l3 A B m1 m2 :
  spec k P l1 l2 A m1 → spec k Q l2 l3 B m2 → spec k (padd P Q) l1 l3 (seq A B) (m1 ≫= λ _, m2).
Proof.
  intros H1 H2 b X Hr Hid Hl. wp_steps. eapply wp_part; [by apply sf_start|done|]. intros b1 Hs1 _.
  eapply wp_last; [done..|]. intros b2 Hs2 _. rewrite padd_p0_l in Hs2. eapply sf_post; [done|]. intros _ _ Hall.
  inversion_clear Hall as [|? ? HB Hall']. inversion_clear Hall' as [|? ? HA _]. by eapply arc_seq.
Qed.

Lemma spec_each {A} k l (f : A → TravM unit) (P : A → plan) (B : A → behaviour) (xs : list A) :
  (∀ x, x ∈ xs → spec k (P x) l l (B x) (f x)) → spec k (psum P xs) l l (seqs B xs) (each f xs).
Proof.
  induction xs as [|x xs IH]; intros H; cbn [each psum seqs]; [apply spec_ret|].
  apply (spec_seq k (P x) (psum P xs) l l l).
  - apply H. by left.
  - apply IH. intros y Hy. apply H. by right.
Qed.
Lemma spec_opt {A} k l (f : A → TravM unit) (P : A → plan) (B : A → behaviour) (x : option A) :
  (∀ y, x = Some y → spec k (P y) l l (B y) (f y)) → spec k (popt P x) l l (maybe B x) (opt f x).
Proof. destruct x as [x|]; intros H; cbn; [by apply H|apply spec_ret]. Qed.

(** ** Operations that come across nothing *)

Definition node_in (b : trav) (f : nat) : Prop := (f < length (nodes (bld b)))%nat.
Lemma node_in_grows b b' f : graph_grows (nodes (bld b)) (nodes (bld b')) → node_in b f → node_in b' f.
Proof.
  unfold node_in. intros Hg [n Hn]%lookup_lt_is_Some. destruct (Hg _ _ Hn) as (n' & Hn' & _). by eapply lookup_lt_Some.
Qed.
Lemma node_in_flow k R b : ready k R b → node_in b (flow (bld b)).
Proof. intros []. by apply twf_flow. Qed.

Lemma sf_step k l P R b0 b b' arcs new :
  so_far k l P R b0 b arcs → step b b' →
  (flowing (bld b0) = true → later P b' → Forall (arc_ok b') new) → so_far k l P R b0 b' (new ++ arcs).
Proof.
  intros Hs Hst Hn. apply (sf_op k l l P R b0 b b' arcs new Hs); [| |by auto].
  - apply step_moves; [apply (sf_ready _ _ _ _ _ _ _ Hs)|done].
  - intros x Hx. rewrite (sp_ctl _ _ Hst). by apply (sf_label _ _ _ _ _ _ _ Hs).
Qed.
Lemma step_graph b b' : step b b' → graph_grows (nodes (bld b)) (nodes (bld b')).
Proof. intros H. apply (sp_after _ _ H). Qed.

Lemma wp_then_ret {A} (m : TravM A) Q X b : wp (m ≫= mret) Q X b → wp m Q X b.
Proof. unfold wp, mbind, TravM_bind, M_bind. by destruct (m b) as [[| | |] ?]. Qed.

(** Taking a sequence as one. *)
Lemma wp_then {A B} (m : TravM A) (f : A → TravM B) Q X b :
  wp (m ≫= f) Q X b → wp m (λ a b', wp (f a) Q X b') X b.
Proof. unfold wp, mbind, TravM_bind, M_bind. by destruct (m b) as [[| | |] ?]. Qed.
Lemma wp_two {A} (m1 m2 : TravM unit) (f : TravM A) Q X b :
  wp (m1 ≫= λ _, m2) (λ _ b', wp f Q X b') X b → wp m1 (λ _ b', wp (m2 ≫= λ _, f) Q X b') X b.
Proof.
  unfold wp, mbind, TravM_bind, M_bind. destruct (m1 b) as [[| | |] b1]; try done. by destruct (m2 b1) as [[| | |] b2].
Qed.
Lemma wp_three {A} (m1 m2 m3 : TravM unit) (f : TravM A) Q X b :
  wp (m1 ≫= λ _, m2 ≫= λ _, m3) (λ _ b', wp f Q X b') X b →
  wp m1 (λ _ b', wp (m2 ≫= λ _, m3 ≫= λ _, f) Q X b') X b.
Proof.
  unfold wp, mbind, TravM_bind, M_bind. destruct (m1 b) as [[| | |] b1]; try done.
  destruct (m2 b1) as [[| | |] b2]; try done. by destruct (m3 b2) as [[| | |] b3].
Qed.

Section ops.
Context {X : Empty_set → trav → Prop} {k : key} {l : option string} {P R : plan} {b0 b : trav} {arcs : list arc}
  (Hs : so_far k l P R b0 b arcs).
Abbreviation E := (env_of b0).
Abbreviation on b' new := (so_far k l P R b0 b' (new ++ arcs)).
Abbreviation grown b' := (graph_grows (nodes (bld b)) (nodes (bld b'))).

Let Hwf : twf b := re_wf _ _ _ (sf_ready _ _ _ _ _ _ _ Hs).

Lemma wp_sf_goCondition f c truthy (K : unit → trav → Prop) :
  node_in b f → (∀ b', on b' [mkArc E f (flow (bld b')) skip] → grown b' → K tt b') → wp (goCondition f c truthy) K X b.
Proof.
  intros Hf HK. apply (wp_goCondition F); [done..|]. intros b' Hst Hl. apply HK; [|by apply step_graph].
  eapply sf_step; [done..|]. intros _ [Hw _ _ _]. apply Forall_singleton, arc_passes, Hl, Hw.
Qed.
Lemma wp_sf_condition f c truthy (K : nat → trav → Prop) :
  node_in b f →
  (∀ r b', on b' [mkArc E f r skip] → node_in b' r → flow (bld b') = flow (bld b) → grown b' → K r b') →
  wp (fl (condition f c truthy)) K X b.
Proof.
  intros Hf HK. apply wp_then_ret. apply (wp_t_condition F); [done..|]. intros r b' Hst Hfl Hr Hl. wp_steps.
  apply HK; [|done|done|by apply step_graph].
  eapply sf_step; [done..|]. intros _ [Hw _ _ _]. apply Forall_singleton, arc_passes, Hl, Hw.
Qed.
Lemma wp_sf_switchClause f sw i (K : nat → trav → Prop) :
  node_in b f →
  (∀ r b', on b' [mkArc E f r skip] → node_in b' r → flow (bld b') = flow (bld b) → grown b' → K r b') →
  wp (fl (switchClause f sw i)) K X b.
Proof.
  intros Hf HK. apply wp_then_ret. apply (wp_t_switchClause F); [done..|]. intros r b' Hst Hfl Hr Hl. wp_steps.
  apply HK; [|done|done|by apply step_graph].
  eapply sf_step; [done..|]. intros _ [Hw _ _ _]. apply Forall_singleton, arc_passes, Hl, Hw.
Qed.
Lemma wp_sf_goJoin f g (K : unit → trav → Prop) :
  node_in b f → node_in b g →
  (∀ b', on b' [mkArc E f (flow (bld b')) skip; mkArc E g (flow (bld b')) skip] → grown b' → K tt b') →
  wp (goJoin [f; g]) K X b.
Proof.
  intros Hf Hg HK. apply (wp_goJoin F); [done|by repeat constructor|]. intros b' Hst Hl. apply HK; [|by apply step_graph].
  eapply sf_step; [done..|]. intros _ [Hw _ _ _]. repeat constructor; try apply skip_activates; apply between_skip, Hl; try done.
  - by left.
  - right. by left.
Qed.
Lemma wp_sf_newLabel flags fs (K : nat → trav → Prop) :
  flags = FlowBranchLabel ∨ flags = FlowLoopLabel → Forall (node_in b) fs →
  (∀ r b', on b' (map (λ f, mkArc E f r skip) fs) → is_target b' r → r ≠ unreachableFlow →
     (∀ f, f ∈ fs → f ≠ unreachableFlow → has_ants b' r) → flow (bld b') = flow (bld b) → grown b' → K r b') →
  wp (fl (newLabel flags fs)) K X b.
Proof.
  intros Hfl Hfs HK. apply (wp_t_newLabel F); [done..|]. intros r b' Hst Hf Ht H0 Hl Ha.
  apply HK; [|done..|by apply step_graph].
  eapply sf_step; [done..|]. intros _ [Hw _ _ _]. apply Forall_fmap, Forall_forall. intros f Hin. by apply arc_passes, Hl.
Qed.
Lemma wp_sf_addAntecedent r f (K : unit → trav → Prop) :
  is_target b r → node_in b f →
  (∀ b', on b' [mkArc E f r skip] → (f ≠ unreachableFlow → has_ants b' r) → flow (bld b') = flow (bld b) → grown b' → K tt b') →
  wp (fl (addAntecedent r (Some f))) K X b.
Proof.
  intros Ht Hf HK. apply (wp_t_addAntecedent F); [done..|]. intros b' Hst Hfl Hl Ha. apply HK; [|done|done|by apply step_graph].
  eapply sf_step; [done..|]. intros _ [Hw _ _ _]. apply Forall_singleton, arc_passes, Hl, Hw.
Qed.
Lemma wp_sf_addHere r (K : unit → trav → Prop) :
  is_target b r →
  (∀ b', on b' [mkArc E (flow (bld b)) r skip] → (flow (bld b) ≠ unreachableFlow → has_ants b' r) →
     flow (bld b') = flow (bld b) → grown b' → K tt b') →
  wp (addHere r) K X b.
Proof. intros Ht HK. unfold addHere, here. wp_steps. apply wp_sf_addAntecedent; [done|by apply twf_flow|done]. Qed.
Lemma wp_sf_go f (K : unit → trav → Prop) :
  node_in b f → (∀ b', on b' [] → flow (bld b') = f → nodes (bld b') = nodes (bld b) → grown b' → K tt b') → wp (go f) K X b.
Proof.
  intros Hf HK. apply wp_go; [done..|]. intros b' Hst Hfl Hn. apply HK; [|done|done|by apply step_graph]. by eapply sf_step.
Qed.
Lemma wp_sf_goFinish r (K : unit → trav → Prop) :
  is_target b r → (∀ b', on b' [] → (has_ants b' r → flow (bld b') = r) → grown b' → K tt b') → wp (goFinish r) K X b.
Proof.
  intros Ht HK. apply wp_goFinish; [done..|]. intros b' Hst Hn Hfl. apply HK; [by eapply sf_step| |by apply step_graph].
  unfold has_ants in *. by rewrite Hn.
Qed.
Lemma wp_sf_unreachable (K : unit → trav → Prop) :
  (∀ b', on b' [] → (flowing (bld b) = true → flow (bld b') = unreachableFlow) → step b b' → K tt b') → wp (fl unreachable) K X b.
Proof. intros HK. apply wp_t_unreachable; [done|]. intros b' Hst Hfl. apply HK; [|done..]. by eapply sf_step. Qed.

Lemma wp_sf_scopeStart s (K : unit → trav → Prop) :
  cur (bnd (bld b)) = Some s →
  (∀ b', on b' [mkArc E (flow (bld b)) (flow (bld b')) (emit (EEnter k))] → grown b' → K tt b') →
  wp (fl (scopeStartFlow s)) K X b.
Proof.
  intros Hc HK. apply (wp_t_scopeStart F); [done|]. intros b' Hst Hp. apply HK; [|by apply step_graph].
  eapply sf_step; [done..|]. intros Hf [Hw _ _ Hsc]. apply Forall_singleton. split; [|by intros ? ? ? []].
  apply between_emit. intros Hlive. destruct (re_cur _ _ _ (sf_ready _ _ _ _ _ _ _ Hs)) as (s' & Hs' & Hk).
  assert (s' = s) as -> by congruence. apply Hp; [|done| |done].
  - by rewrite (flowing_same _ _ (proj2 (sf_moves _ _ _ _ _ _ _ Hs))).
  - rewrite <-Hsc. rewrite (af_bnd _ _ (sp_after _ _ Hst)). done.
Qed.

(** Declaring, and the modes. *)
Lemma sf_renames b' : renames b b' → so_far k l P R b0 b' arcs.
Proof.
  intros Hr. destruct (renames_rest _ _ Hr) as (Hc & _).
  apply (sf_op k l l P R b0 b b' arcs [] Hs); [by apply renames_moves| |by constructor].
  intros x Hx. rewrite Hc. by apply (sf_label _ _ _ _ _ _ _ Hs).
Qed.

(** A store. *)
Lemma wp_sf_assign sym init assign e (K : unit → trav → Prop) :
  (∀ s, sym = Some s → (s < length (symbols (bnd (bld b))))%nat) →
  (flowing (bld b0) = true → later P b → stores_now F b sym init assign e) →
  (∀ b', on b' [mkArc E (flow (bld b)) (flow (bld b')) (emit e)] → grown b' → K tt b') →
  wp (fl (assignFlow sym init assign)) K X b.
Proof.
  intros Hsym He HK. apply (wp_t_assign F); [done..|]. intros b' Hst Hp. apply HK; [|by apply step_graph].
  eapply sf_step; [done..|]. intros Hf Hla. apply Forall_singleton. split; [|by intros ? ? ? []].
  assert (flowing (bld b) = true) as Hfb by (by rewrite (flowing_same _ _ (proj2 (sf_moves _ _ _ _ _ _ _ Hs)))).
  apply between_emit. intros Hlive. apply Hp; [done|apply Hla| |done].
  apply He; [done|]. apply (later_back P p0 b b'); [done|by apply step_moves|by apply flowing_declaring|].
  by intros i _ Hin%elem_of_nil.
Qed.
(** Going on from a label with what comes here. *)
Lemma wp_sf_fall {A} r (m : unit → TravM A) (K : A → trav → Prop) :
  is_target b r →
  (∀ b', on b' [mkArc E (flow (bld b)) (flow (bld b')) skip] → (has_ants b' r → flow (bld b') = r) → grown b' → wp (m tt) K X b') →
  wp (addHere r) (λ _ b1, wp (goFinish r ≫= m) K X b1) X b.
Proof.
  intros Ht HK. apply (wp_addHere F); [done..|]. intros b1 S1 Hf1 Hl1 Ha1.
  assert (twf b1) as Hwf1 by (by eapply step_wf).
  wp_steps. apply wp_goFinish; [done|by eapply step_target|]. intros b2 S2 Hn2 Hf2. pose proof (step_trans _ _ _ S1 S2) as S12.
  assert (∀ l, has_ants b2 l ↔ has_ants b1 l) as Hants by (intros ?; unfold has_ants; by rewrite Hn2).
  apply HK; [|by rewrite Hants|by apply step_graph].
  eapply sf_step; [done..|]. intros _ [Hw _ _ _]. apply Forall_singleton, arc_passes. intros Hf.
  rewrite Hf2 by auto. apply Hl1; [|done]. unfold within in *. by rewrite <-Hn2.
Qed.
Lemma wp_sf_fall_last r (K : unit → trav → Prop) :
  is_target b r →
  (∀ b', on b' [mkArc E (flow (bld b)) (flow (bld b')) skip] → (has_ants b' r → flow (bld b') = r) → grown b' → K tt b') →
  wp (addHere r) (λ _ b1, wp (goFinish r) K X b1) X b.
Proof.
  intros Ht HK. eapply wp_mono; [apply (wp_sf_fall r mret K Ht)| |done].
  - intros b' S Hf G. wp_steps. by apply HK.
  - cbv beta. intros _ b1. by apply wp_then_ret.
Qed.
Lemma sf_flowing : flowing (bld b) = flowing (bld b0).
Proof. apply (flowing_same _ _ (proj2 (sf_moves _ _ _ _ _ _ _ Hs))). Qed.
End ops.

(** ** Scopes *)

Lemma ready_enter k i tag kind P b s b1 :
  ready k (popen (i, tag) kind k P) b → entered k (i, tag) kind b s b1 → ready (i, tag) P b1.
Proof.
  intros [Hwf Ht Hc Hp Ho Hk Hi Hf Hop Hrf] Hen. pose proof (en_core _ _ _ _ _ _ Hen) as Hcore.
  destruct (en_state _ _ _ _ _ _ Hen) as (d & -> & Hcur & Hd & Hpr).
  assert (((i, tag) ∉ keys P) ∧ NoDup (keys P)) as [Hin Hnd] by (by apply (NoDup_cons (i, tag) (keys P)) in Hk).
  constructor; cbn in *; try done.
  - apply Hcore.
  - exists s. split; [done|]. apply (en_key _ _ _ _ _ _ Hen).
  - congruence.
  - rewrite Hd. intros Hdec. specialize (Hf Hdec). apply Forall_cons in Hf as [_ Hf].
    apply Forall_forall. intros x Hx. rewrite Forall_forall in Hf.
    pose proof (co_fresh _ _ _ Hcore x) as Hfr. cbn in Hfr. rewrite Hfr; [by apply Hf|].
    intros Hx'%list_elem_of_singleton. by subst x.
  - rewrite Hd. intros Hdec. specialize (Hop Hdec). apply Forall_cons in Hop as [_ Hop].
    eapply Forall_impl; [exact Hop|]. intros o. by eapply opened_ok_core.
  - rewrite Hd. exact Hrf.
Qed.

Lemma wp_enter_ready k i node tag kind P b (K : nat → trav → Prop) X :
  ready k (popen (i, tag) kind k P) b →
  (∀ s b1, entered k (i, tag) kind b s b1 → ready (i, tag) P b1 → cur (bnd (bld b1)) = Some s → K s b1) →
  wp (bd (enter i node tag kind)) K X b.
Proof.
  intros Hr HK. destruct (re_cur _ _ _ Hr) as (c & Hc & Hk).
  assert (declaring (bnd (bld b)) = true → scopeOf (bnd (bld b)) !! (i, tag) = None) as Hnew.
  { intros Hd. pose proof (re_fresh _ _ _ Hr Hd) as Hf. by apply Forall_cons in Hf as [? _]. }
  assert (declaring (bnd (bld b)) = false → opened_ok b (mkOpening (i, tag) kind k)) as Hold.
  { intros Hd. pose proof (re_opens _ _ _ Hr Hd) as Hf. by apply Forall_cons in Hf as [? _]. }
  eapply wp_enter_key; [apply Hr|done|done|done|done|]. intros s b1 Hen. pose proof (en_state _ _ _ _ _ _ Hen) as (d & Hb1 & Hcur & _).
  apply HK; [done|by eapply ready_enter|by rewrite Hb1].
Qed.
Lemma wp_enter_scope k i node tag kind P l b (K : nat → trav → Prop) X :
  ready k (popen (i, tag) kind k P) b → idle b → pending l b →
  (∀ s b1, entered k (i, tag) kind b s b1 → ready (i, tag) P b1 → idle b1 → pending l b1 →
     cur (bnd (bld b1)) = Some s → K s b1) →
  wp (bd (enter i node tag kind)) K X b.
Proof.
  intros Hr Hi Hl HK. eapply wp_enter_ready; [exact Hr|]. intros s b1 Hen Hr1 Hc1. pose proof (en_state _ _ _ _ _ _ Hen) as (d & Hb1 & _).
  apply HK; [done|done| | |done].
  - destruct Hi. by rewrite Hb1.
  - by rewrite Hb1.
Qed.

Lemma wp_leave_scope k key0 kind P l b s b1 b2 B (K : unit → trav → Prop) X :
  ready k (popen key0 kind k P) b → entered k key0 kind b s b1 → post P l B b1 b2 →
  (∀ b', post (popen key0 kind k P) l B b b' → flow (bld b') = flow (bld b2) → K tt b') → wp (bd leave) K X b2.
Proof.
  intros Hr Hen [Hm Hl Hc] HK. destruct (re_cur _ _ _ Hr) as (c & Hcur & Hk).
  destruct (moves_leave _ _ _ _ _ _ _ _ _ Hcur Hk Hen Hm) as [Hrun Hm']. apply wp_bd. unfold wp. rewrite Hrun. apply HK; [|done].
  constructor; [done|done|]. intros Hf [Hw Ht Hs Hsc]. pose proof (en_state _ _ _ _ _ _ Hen) as (d & Hb1 & _ & Hd & _).
  destruct Hc as [Hcl Ha].
  - rewrite Hb1. unfold flowing in *. cbn. congruence.
  - by constructor.
  - rewrite Hb1 in Hcl. by split.
Qed.
End spec.
