(* ===== verification/TraverseRules.v ===== *)
(** * One rule for each case of [visitNode]

    What a case comes across and does, from what its parts do.  A mode says how
    much of a behaviour is claimed. *)

From S2P Require Import Prelude GoString Diag Ast Symbols SymbolFacts Flow FlowWalk FlowFacts Traverse Exec.
From S2P Require Import FlowPath TraverseFacts TraverseNames TraverseSpec.
Open Scope Z_scope.

(** ** Modes

    Nothing is claimed of a tree in which a label goes astray; of a tree that
    is not regular only what its functions do. *)
Inductive mode := Blind | Insides | Full.
#[export] Instance mode_eq_dec : EqDecision mode.
Proof. solve_decision. Defined.
Definition lim (m : mode) (A : behaviour) : behaviour :=
  match m with Blind => nothing | Insides => mkBehaviour (λ _ _, False) (inside A) | Full => A end.
Lemma arc_lim F m b E f g A : arc_ok F b (mkArc E f g A) → arc_ok F b (mkArc E f g (lim m A)).
Proof. apply arc_sub. destruct m; (split; [try done; by intros ? ? []|try done; by intros ? ? ? []]). Qed.
Definition lab (m : mode) (l : string) : option string := match m with Blind => None | _ => Some l end.

Ltac lim_tac m := destruct m; (split; [try done; by intros ? ? []|try done; cbn; intros; naive_solver]).

Lemma lim_sub m A B : sub A B → sub (lim m A) (lim m B).
Proof. intros [H1 H2]. lim_tac m. Qed.
Lemma lim_le m A : sub (lim m A) A.
Proof. lim_tac m. Qed.

(** The last step: from the known arcs to what is claimed. *)
Ltac arcs_in H := cbn [app map] in H; rewrite ?Forall_cons in H.
Tactic Notation "arcs_known" hyp(S) "as" simple_intropattern(p) :=
  eapply sf_post; [exact S|]; let H := fresh in intros _ _ H; arcs_in H; destruct H as p.
(** A node there was is still there. *)
Ltac still := first [assumption | eapply node_in_grows; [eassumption|still] | eapply is_target_grows; [eassumption|still]
  | eapply graph_ants; [eassumption|still]].

Section rules.
Context (F : trav) (Hzero : nodes (bld F) !! unreachableFlow = Some unreachable_node).
Context (m : mode) (k : key) (l : option string).
Abbreviation spec := (spec F).

(** ** Sequences *)

Lemma rule_skip : spec k p0 l l (lim m skip) (mret tt).
Proof. eapply spec_sub; [apply spec_ret|apply lim_le]. Qed.
Lemma rule_seq P Q l2 l3 A B m1 m2 :
  spec k P l l2 (lim m A) m1 → spec k Q l2 l3 (lim m B) m2 → spec k (padd P Q) l l3 (lim m (seq A B)) (m1 ≫= λ _, m2).
Proof. intros H1 H2. eapply spec_sub; [eapply (spec_seq F Hzero); [apply H1|apply H2]|lim_tac m]. Qed.
Lemma rule_each {A} (f : A → TravM unit) (P : A → plan) (B : A → behaviour) (xs : list A) :
  (∀ x, x ∈ xs → spec k (P x) l l (lim m (B x)) (f x)) → spec k (psum P xs) l l (lim m (seqs B xs)) (each f xs).
Proof.
  induction xs as [|x xs IH]; intros H; cbn [each psum seqs]; [apply rule_skip|].
  apply rule_seq with (l2 := l); [apply H; by left|]. apply IH. intros y Hy. apply H. by right.
Qed.
Lemma rule_opt {A} (f : A → TravM unit) (P : A → plan) (B : A → behaviour) (x : option A) :
  (∀ y, x = Some y → spec k (P y) l l (lim m (B y)) (f y)) → spec k (popt P x) l l (lim m (maybe B x)) (opt f x).
Proof. destruct x as [x|]; intros H; cbn; [by apply H|apply rule_skip]. Qed.

(** ** Branches *)

Lemma rule_branches Pt Pc Pa A C D (test : Node) m1 m2 m3 :
  spec k Pt l l (lim m A) m1 → spec k Pc l l (lim m C) m2 → spec k Pa l l (lim m D) m3 →
  spec k (padd Pt (padd Pc Pa)) l l (lim m (seq A (either C D)))
    (m1 ≫= λ _, pre ← here; goCondition pre (Some test) true ≫= λ _, m2 ≫= λ _, thn ← here;
     goCondition pre (Some test) false ≫= λ _, m3 ≫= λ _, els ← here; goJoin [thn; els]).
Proof.
  intros H1 H2 H3. eapply (spec_sub F _ _ _ _ _ (seq (lim m A) (either (lim m C) (lim m D)))); [|lim_tac m].
  intros b X Hr Hi Hl. unfold here. wp_steps.
  eapply (wp_part F); [by apply sf_start|done|]. intros b1 S1 _. wp_steps.
  pose proof (node_in_flow _ _ _ (sf_ready _ _ _ _ _ _ _ _ S1)) as Hpre.
  eapply (wp_sf_goCondition F S1); [done|]. intros b2 S2 G2. wp_steps.
  eapply (wp_part F); [done..|]. intros b3 S3 G3. wp_steps.
  pose proof (node_in_flow _ _ _ (sf_ready _ _ _ _ _ _ _ _ S3)) as Hthn.
  eapply (wp_sf_goCondition F S3); [still|]. intros b4 S4 G4. wp_steps.
  eapply (wp_last F); [done..|]. intros b5 S5 G5. wp_steps.
  pose proof (node_in_flow _ _ _ (sf_ready _ _ _ _ _ _ _ _ S5)) as Hels.
  eapply (wp_sf_goJoin F S5); [still|done|]. intros b6 S6 G6.
  rewrite padd_p0_l, <-padd_assoc in S6. arcs_known S6 as (J1 & J2 & HD & C2 & HC & C1 & HA & _).
  eapply (arc_seq F Hzero); [done|]. apply arc_either.
  - by eapply (arc_via F Hzero); [exact C1|..].
  - by eapply (arc_via F Hzero); [exact C2|..].
Qed.

Lemma rule_initializer visit d P A :
  spec k P l l (lim m A) (visit d) → spec k P l l (lim m (perhaps A)) (initializer visit (Some d)).
Proof.
  intros H. eapply (spec_sub F _ _ _ _ _ (perhaps (lim m A))); [|lim_tac m].
  intros b X Hr Hi Hl. unfold initializer, here. wp_steps. pose proof (node_in_flow _ _ _ Hr) as Hpre.
  eapply (wp_last F); [by apply sf_start|done|]. intros b1 S1 G1. wp_steps.
  pose proof (node_in_flow _ _ _ (sf_ready _ _ _ _ _ _ _ _ S1)) as Hf.
  eapply (wp_sf_goJoin F S1); [still|done|]. intros b2 S2 G2. rewrite padd_p0_l in S2.
  arcs_known S2 as (J1 & J2 & HA & _). apply arc_perhaps; [done|]. by eapply (arc_post F Hzero).
Qed.

Lemma rule_logical visit op left right P Q A C :
  spec k P l l (lim m A) (visit left) → spec k Q l l (lim m C) (visit right) →
  spec k (padd P Q) l l (lim m (seq A (perhaps C))) (visitLogical visit op left right).
Proof.
  intros H1 H2. eapply (spec_sub F _ _ _ _ _ (seq (lim m A) (perhaps (lim m C)))); [|lim_tac m].
  intros b X Hr Hi Hl. unfold visitLogical, here. wp_steps.
  eapply (wp_part F); [by apply sf_start|done|]. intros b1 S1 _. wp_steps.
  pose proof (node_in_flow _ _ _ (sf_ready _ _ _ _ _ _ _ _ S1)) as Hpre.
  apply (wp_mono _ (λ short b2, ∃ arcs, so_far F k l (padd p0 P) Q b b2 arcs ∧ node_in b2 short ∧
    ∀ b3, Forall (arc_ok F b3) arcs →
      arc_ok F b3 (mkArc (env_of b) (flow (bld b)) (flow (bld b1)) (lim m A))
      ∧ arc_ok F b3 (mkArc (env_of b) (flow (bld b1)) short skip)
      ∧ arc_ok F b3 (mkArc (env_of b) (flow (bld b1)) (flow (bld b2)) skip)) _ X X); [| |done].
  { destruct (negb _); wp_steps.
    - eapply (wp_sf_goCondition F S1); [done|]. intros b2 S2 G2. wp_steps.
      eapply (wp_sf_condition F S2); [still|]. intros r b3 S3 Hr3 Hf3 G3. eexists. split_and!; [exact S3|done|].
      intros b4 H. arcs_in H. rewrite Hf3. destruct H as (? & ? & ? & _). done.
    - eexists. split_and!; [exact S1|done|]. intros b4 H. arcs_in H. destruct H as (? & _). split_and!; [done|..].
      all: by apply arc_passes, passes_refl. }
  cbv beta. intros short b2 (arcs & S2 & Hs & Harcs). wp_steps.
  eapply (wp_last F); [done..|]. intros b3 S3 G3. wp_steps.
  pose proof (node_in_flow _ _ _ (sf_ready _ _ _ _ _ _ _ _ S3)) as Hf.
  eapply (wp_sf_goJoin F S3); [still|done|]. intros b4 S4 G4. rewrite padd_p0_l in S4.
  arcs_known S4 as (J1 & J2 & HC & Hall). destruct (Harcs _ Hall) as (HA & HS & HP).
  eapply (arc_seq F Hzero); [done|]. apply arc_perhaps.
  - by eapply (arc_pre F Hzero); [exact HS|].
  - by eapply (arc_via F Hzero); [exact HP|..].
Qed.

(** ** Leaving early *)

Lemma never_call_ext refs refs' ss k' e :
  (∀ i, i ∈ idents (plan_of k' e) → refs !! i = refs' !! i) → never_call refs ss e = never_call refs' ss e.
Proof.
  destruct e as [i p kind]. unfold never_call. cbn [nkind]. destruct kind; try done. destruct Optional; [done|].
  destruct Callee as [j q kind]. destruct kind; try done. cbn. intros H. by rewrite H by (by left).
Qed.

Lemma rule_expression_statement visit e A never :
  (∀ e', never e' = never_call (t_refs (tab F)) (symbols (bnd (bld F))) e') →
  spec k (plan_of k e) l l (lim m A) (visit e) →
  spec k (plan_of k e) l l (lim m (seq A (if never e then nothing else skip))) (visitExpressionStatement visit e).
Proof.
  intros Hnv H. eapply (spec_sub F _ _ _ _ _ (seq (lim m A) (if never e then nothing else skip))); [|lim_tac m].
  intros b X Hr Hi Hl. unfold visitExpressionStatement, flowing_. wp_steps.
  eapply (wp_last F); [by apply sf_start|done|]. intros b1 S1 _. wp_steps. rewrite padd_p0_l in S1.
  assert (∀ b2 new, so_far F k l (plan_of k e) p0 b b2 (new ++ [mkArc (env_of b) (flow (bld b)) (flow (bld b1)) (lim m A)]) →
    (flowing (bld b) = true → later F (plan_of k e) b2 → Forall (arc_ok F b2) new →
       arc_ok F b2 (mkArc (env_of b) (flow (bld b1)) (flow (bld b2)) (if never e then nothing else skip))) →
    post F (plan_of k e) l (seq (lim m A) (if never e then nothing else skip)) b b2) as Hfin.
  { intros b2 new S2 Hnew. eapply sf_post; [exact S2|]. intros Hf Hla [Hn HA]%Forall_app.
    eapply (arc_seq F Hzero); [exact (Forall_inv HA)|auto]. }
  assert (never e = false → post F (plan_of k e) l (seq (lim m A) (if never e then nothing else skip)) b b1) as Hret.
  { intros Hne. apply (Hfin b1 []); [done|]. intros _ _ _. rewrite Hne. apply arc_refl. }
  assert ((if negb (never e) then True else match nkind e with CallExpression _ _ _ _ => True | _ => False end)) as Hcall.
  { rewrite Hnv. unfold never_call. destruct (nkind e); try done. by destruct (negb _). }
  destruct (nkind e) eqn:Hk; wp_steps; try (apply Hret; by destruct (never e)).
  destruct (flowing (bld b1)) eqn:Hfl; wp_steps.
  2: { constructor; [apply S1|apply S1|]. rewrite (sf_flowing F S1) in Hfl. congruence. }
  unfold returnsNever. wp_steps.
  assert (∀ b2, tab b2 = tab b1 → symbols (bnd (bld b2)) = symbols (bnd (bld b1)) → later F (plan_of k e) b2 →
    never e = never_call (t_refs (tab b1)) (symbols (bnd (bld b1))) e) as Hsame.
  { intros b2 <- <- Hla. rewrite Hnv, (la_symbols _ _ _ Hla). symmetry. apply (never_call_ext _ _ _ k). apply Hla. }
  destruct (never_call _ _ e) eqn:Hnc; wp_steps.
  - eapply (wp_sf_unreachable F S1). intros b2 S2 Hu Hst. apply (Hfin b2 []); [done|]. intros _ Hla _.
    rewrite (Hsame b2); [apply arc_nothing|apply Hst| |done]. by rewrite (af_bnd _ _ (sp_after _ _ Hst)).
  - apply (Hfin b1 []); [done|]. intros _ Hla _. rewrite (Hsame b1); [apply arc_refl|done..].
Qed.
Lemma jump_in_elem ts label cont t :
  jump_in ts label cont = Some t → t ∈ ts ∧ (cont = true → is_Some (continueTo t)).
Proof.
  induction ts as [|t' ts IH]; [done|]. cbn. intros H.
  destruct (negb _ && negb _); [destruct (IH H); split; [by right|done]|].
  destruct cont; cbn in H.
  - case_bool_decide as Hc; [destruct (negb _); [done|destruct (IH H); split; [by right|done]]|].
    destruct (_ && _); [destruct (IH H); split; [by right|done]|]. injection H as <-. split; [by left|]. intros _.
    by destruct (continueTo t').
  - destruct (_ && _); [destruct (IH H); split; [by right|done]|]. injection H as <-. by split; [left|].
Qed.

(** To the target [r], if there is one, and no further. *)
Lemma wp_leave_to b b1 P R arcs o (to : option nat) (K : unit → trav → Prop) X :
  so_far F k l P R b b1 arcs → (∀ r, to = Some r → is_target b1 r) →
  (∀ b', (∀ r, to = Some r → passes F (flow (bld b1)) r ∧ (flow (bld b1) ≠ unreachableFlow → has_ants b' r)) →
     between F (env_of b) (flow (bld b1)) b' unreachableFlow (ends_with o)) →
  (∀ b', so_far F k l P R b b' (mkArc (env_of b) (flow (bld b1)) (flow (bld b')) (ends_with o) :: arcs) → K tt b') →
  wp (match to with Some r => if flowing (bld b1) then addHere r else mret tt | None => mret tt end)
    (λ _ b', wp (fl unreachable) K X b') X b1.
Proof.
  intros S1 Hto Hbt HK.
  assert (∀ b2 arcs2, so_far F k l P R b b2 arcs2 → arcs ⊆ arcs2 →
    (∀ b3, flowing (bld b) = true → graph_grows (nodes (bld b2)) (nodes (bld b3)) → Forall (arc_ok F b3) arcs2 → ∀ r, to = Some r →
       passes F (flow (bld b1)) r ∧ (flow (bld b1) ≠ unreachableFlow → has_ants b3 r)) →
    wp (fl unreachable) K X b2) as Hend.
  { intros b2 arcs2 S2 Hsub H2. eapply (wp_sf_unreachable F S2). intros b3 S3 Hu Hst. apply HK.
    eapply (sf_drop F _ _ _ _ _ _ (mkArc (env_of b) (flow (bld b1)) (flow (bld b3)) (ends_with o) :: arcs2)).
    2: { intros x [->|Hx]%elem_of_cons; [by left|right; auto]. }
    apply sf_conclude; [done|]. intros Hf Hla Hall. split; [|by intros ? ? ? []].
    rewrite Hu by (by rewrite (sf_flowing F S2)). apply Hbt. apply (H2 b3); [done|by apply step_graph|done]. }
  destruct to as [r|]; [|wp_steps; by eapply Hend].
  destruct (flowing (bld b1)) eqn:Hf; wp_steps.
  - eapply (wp_sf_addHere F S1); [by apply Hto|]. intros b2 S2 Ha Hfl G2. eapply Hend; [done|by intros x Hx; right|].
    intros b3 _ G3 Hall r' [= <-]. arcs_in Hall. destruct Hall as (Hp & _). split; [by eapply passes_arc|].
    intros Hlive. by eapply graph_ants, Ha.
  - eapply Hend; [exact S1|done|]. intros b3 Hf0. rewrite (sf_flowing F S1) in Hf. congruence.
Qed.

Lemma rule_jump label (cont : bool) :
  spec k p0 l l (lim m (ends_with (if cont then Continue label else Break label))) (visitJump label cont).
Proof.
  eapply spec_sub; [|apply lim_le]. intros b X Hr Hi Hl. unfold visitJump, findJump, flowing_. wp_steps.
  pose proof (sf_start F _ _ _ _ Hr Hi Hl) as S0. pose proof (re_targets _ _ _ Hr) as [Hj _]. rewrite Forall_forall in Hj.
  set (t := jump_in (jumps (ctl b)) label cont).
  eapply (wp_leave_to b b p0 p0 [] (if cont then Continue label else Break label) ((λ t, if cont then default unreachableFlow (continueTo t) else breakTo t) <$> t)) in S0;
    [|clear S0..].
  - destruct t; exact S0.
  - intros r Hr'. destruct t as [t'|] eqn:Ht; [|done]. injection Hr' as <-. apply jump_in_elem in Ht as [Hin Hc].
    destruct (Hj _ Hin) as [Hb Hcont]. destruct cont; [|done]. destruct Hc as [c Hc]; [done|]. rewrite Hc. by apply Hcont.
  - intros b' Hto. unfold t in Hto. destruct cont.
    + apply between_continue. intros Hlive t' c Ht Hc. cbn in Ht. rewrite Ht in Hto. destruct (Hto c) as [Hp Ha]; [cbn; by rewrite Hc|]. auto.
    + apply between_break. intros Hlive t' Ht. cbn in Ht. rewrite Ht in Hto. destruct (Hto _ eq_refl) as [Hp Ha]. auto.
  - intros b' S1. arcs_known S1 as (H & _). exact H.
Qed.

Lemma rule_return visit n (is_return : bool) P A :
  spec k P l l (lim m A) (visitChildren visit n) →
  spec k P l l (lim m (seq A (ends_with (if is_return then Return else Throw)))) (visitReturn visit n is_return).
Proof.
  intros H. eapply (spec_sub F _ _ _ _ _ (seq (lim m A) (ends_with (if is_return then Return else Throw)))); [|lim_tac m].
  intros b X Hr Hi Hl. unfold visitReturn. wp_steps. eapply (wp_last F); [by apply sf_start|done|]. intros b1 S1 _. wp_steps.
  rewrite padd_p0_l in S1. pose proof (re_targets _ _ _ (sf_ready _ _ _ _ _ _ _ _ S1)) as [_ Hret].
  pose proof (sm_return _ _ (proj2 (sf_moves _ _ _ _ _ _ _ _ S1))) as Hrt.
  eapply (wp_leave_to b b1 P p0 _ (if is_return then Return else Throw) (if is_return then returnTo (ctl b1) else None)
    (λ _ b', post F P l (seq (lim m A) (ends_with (if is_return then Return else Throw))) b b')) in S1; [|clear S1..].
  - destruct is_return, (returnTo (ctl b1)); exact S1.
  - intros r Hr'. destruct is_return; [by apply Hret|done].
  - intros b' Hto. destruct is_return; [|by apply between_throw]. apply between_return. intros Hlive r Hr'. cbn in Hr'.
    rewrite Hrt in Hto. destruct (Hto _ Hr') as [Hp Ha]. auto.
  - intros b2 S2. arcs_known S2 as (Hj & HA & _). by eapply (arc_seq F Hzero).
Qed.

(** ** Loops *)

(** To leave a loop is to break out of it. *)
Definition exit_arc (E : env) (never_exits : bool) (exit f : nat) : arc :=
  mkArc (in_jump (mkJump "" exit None false) E) f unreachableFlow (if never_exits then nothing else ends_with (Break "")).
Lemma arc_exits b E (never_exits : bool) exit f g h A :
  arc_ok F b (mkArc E f g A) → arc_ok F b (exit_arc E never_exits exit g) → (has_ants b exit → h = exit) →
  arc_ok F b (mkArc E f h (if never_exits then nothing else A)).
Proof.
  intros HA [H _] Hh. destruct never_exits; [apply arc_nothing|]. eapply (arc_post F Hzero); [done|].
  split; [|apply skip_activates]. apply between_skip. intros Hf.
  destruct (H [] (Break "") Hf) with (t := mkJump "" exit None false) as [Hp Ha]; [done..|]. by rewrite Hh.
Qed.
Lemma arc_exit b E exit f g :
  passes F f g → passes F g exit → (g ≠ unreachableFlow → has_ants b exit) → arc_ok F b (exit_arc E false exit f).
Proof.
  intros H1 H2 Ha. split; [|by intros ? ? ? []]. apply between_break. intros Hf t [= <-]. cbn.
  split; [by eapply passes_trans|]. apply Ha. by eapply passes_live.
Qed.

Lemma wp_exitUnless lb P R b0 b arcs test exit (K : unit → trav → Prop) X :
  so_far F k lb P R b0 b arcs → is_target b exit →
  (∀ b', so_far F k lb P R b0 b' (exit_arc (env_of b0) (alwaysTrue test) exit (flow (bld b)) :: arcs) →
     flow (bld b') = flow (bld b) → graph_grows (nodes (bld b)) (nodes (bld b')) → K tt b') →
  wp (exitUnless test exit) K X b.
Proof.
  intros S Ht HK. unfold exitUnless, here. destruct (alwaysTrue test); wp_steps.
  { apply HK; [|done..]. apply sf_conclude; [done|]. intros _ _ _. apply arc_nothing. }
  eapply (wp_sf_condition F S); [by eapply node_in_flow, S|]. intros r b1 S1 Hr Hf1 G1. wp_steps.
  eapply (wp_sf_addAntecedent F S1); [still|done|]. intros b2 S2 Ha Hf2 G2. apply HK; [|congruence|by etrans].
  eapply (sf_drop F _ _ _ _ _ _ (exit_arc (env_of b0) false exit (flow (bld b)) :: _)).
  - apply sf_conclude; [exact S2|]. intros _ _ Hall. arcs_in Hall. destruct Hall as (H2 & H1 & _).
    eapply arc_exit; [by eapply passes_arc|by eapply passes_arc|done].
  - intros x [->|Hx]%elem_of_cons; [by left|]. do 3 right. done.
Qed.

Lemma core_ctl P a a' b b' :
  bld a = bld b → tab a = tab b → bld a' = bld b' → tab a' = tab b' → core P a a' → core P b b'.
Proof. destruct a, a', b, b'. cbn. intros -> -> -> -> [[]]. by constructor. Qed.

(** A part inside a target of breaks. *)
Definition push_jump (t : jumpTarget) : TravM unit := control_ (λ c, set_jumps (t :: jumps c) c).

Definition popped (b : trav) : trav := set_ctl (set_jumps (tail (jumps (ctl b))) (ctl b)) b.

Lemma wp_in_jump {A C} l1 l2 t P Q R b0 b arcs (N : A → trav → list arc) (Z : A → trav → Prop) (m1 : TravM A) (g : A → TravM C)
    (K : C → trav → Prop) X :
  so_far F k l1 P (padd Q R) b0 b arcs → is_target b (breakTo t) → (∀ c, continueTo t = Some c → is_target b c) →
  (∀ b1, ready k Q b1 → idle b1 → pending l1 b1 → env_of b1 = in_jump t (env_of b0) → bld b1 = bld b →
     wp m1 (λ a b', so_far F k l2 Q p0 b1 b' (N a b') ∧ Z a b') X b1) →
  (∀ a b', so_far F k l2 (padd P Q) R b0 (popped b') (N a b' ++ arcs) → Z a b' →
     graph_grows (nodes (bld b)) (nodes (bld b')) → wp (g a) K X b') →
  wp (push_jump t) (λ _ b1, wp (m1 ≫= g) K X b1) X b.
Proof.
  intros S He Hc H HK. unfold push_jump, control_. wp_steps.
  set (b1 := set_ctl _ _). pose proof (sf_ready _ _ _ _ _ _ _ _ S) as Hr. pose proof (sf_idle _ _ _ _ _ _ _ _ S) as Hi.
  assert (ready k (padd Q R) b1) as Hr1.
  { destruct Hr as [[] [Hj Hret]]. constructor; try done. split; [|done]. by constructor; [|exact Hj]. }
  eapply wp_mono; [apply (H b1); [by eapply ready_first|destruct Hi; by constructor|exact (sf_label _ _ _ _ _ _ _ _ S)| |done]| |done].
  { rewrite <-(env_same _ _ (proj2 (sf_moves _ _ _ _ _ _ _ _ S))). done. }
  cbv beta. intros a b2 [[_ _ Hl [Hm Hs] Hk _] Hz].
  assert (moves Q b (popped b2)) as Hmoves.
  { split; [by apply (core_ctl _ b1 b2)|]. pose proof (sm_jumps _ _ Hs) as Hj. destruct Hs.
    constructor; try done. cbn in Hj |- *. by rewrite Hj. }
  apply HK; [|done|apply Hm]. apply (sf_advance F _ _ l2 _ _ _ _ _ (popped b2) _ (N a b2) S Hmoves Hl).
  intros Hf Hla%later_right _. apply Hk; [by rewrite <-(sf_flowing F S) in Hf|destruct Hla; by constructor].
Qed.

Lemma wp_takeLabel lb P R b0 b arcs (K : string → trav → Prop) X :
  so_far F k (lab m lb) P R b0 b arcs →
  (∀ lb' b', (m ≠ Blind → lb' = lb) → so_far F k (lab m "") P R b0 b' arcs → bld b' = bld b → K lb' b') →
  wp takeLabel K X b.
Proof.
  intros S HK. unfold takeLabel, control_. wp_steps. apply HK; [intros Hm; apply (sf_label _ _ _ _ _ _ _ _ S); by destruct m| |done].
  pose proof (re_wf _ _ _ (sf_ready _ _ _ _ _ _ _ _ S)) as Hwf.
  apply (sf_op F k _ (lab m "") P R b0 b _ arcs [] S); [|by destruct m; intros ? [= <-]|by constructor].
  split; [by apply (core_ctl _ b b), core_refl|by constructor].
Qed.

Lemma wp_loopBody visit body lb P Q R b0 b arcs C exit cont (K : unit → trav → Prop) X :
  so_far F k (lab m lb) P (padd Q R) b0 b arcs → is_target b exit → is_target b cont →
  spec k Q (lab m "") (lab m "") (lim m C) (visitBody visit body) →
  (∀ b', so_far F k (lab m "") (padd P Q) R b0 b'
           (mkArc (in_jump (mkJump lb exit (Some cont) false) (env_of b0)) (flow (bld b)) (flow (bld b')) (lim m C) :: arcs) →
     graph_grows (nodes (bld b)) (nodes (bld b')) → K tt b') →
  wp (loopBody visit exit cont body) K X b.
Proof.
  intros S He Hc H HK. unfold loopBody. wp_step. eapply wp_takeLabel; [exact S|]. intros lb' b1 Hlb S1 Hb1. wp_step.
  set (t := mkJump lb' exit (Some cont) false).
  eapply (wp_in_jump (lab m "") (lab m "") t P Q R b0 b1 arcs
    (λ _ b', [mkArc (in_jump t (env_of b0)) (flow (bld b)) (flow (bld b')) (lim m C)]) (λ _ _, True)); [exact S1|..].
  { unfold is_target in *. by rewrite Hb1. }
  { unfold is_target in *. rewrite Hb1. by intros c [= <-]. }
  { intros b2 Hr2 Hi2 Hl2 HE Hb2. eapply (wp_last F); [by apply (sf_start F)|exact H|]. intros b3 S3 _. rewrite padd_p0_l in S3.
    rewrite HE, Hb2, Hb1 in S3. done. }
  cbv beta. rewrite Hb1. intros [] b2 S2 _ G2. unfold control_. wp_steps. fold (popped b2).
  apply (HK (popped b2)); [|done]. destruct (decide (m = Blind)) as [He'|Hne]; [|by rewrite <-(Hlb Hne)].
  eapply (sf_drop F); [apply sf_conclude; [exact S2|]|intros x [->|Hx]%elem_of_cons; [by left|right; by right]].
  intros _ _ _. rewrite He'. apply arc_nothing.
Qed.

Lemma arc_looped b E lb exit cont f g h A :
  arc_ok F b (mkArc (in_jump (mkJump lb exit (Some cont) false) E) f g A) → passes F g h → (has_ants b cont → passes F cont h) →
  arc_ok F b (mkArc E f h (looped lb A)).
Proof. intros [H I] Hg Hc. split; [by eapply between_looped|done]. Qed.
Lemma arc_broken b E lb exit cont f g h A :
  arc_ok F b (mkArc (in_jump (mkJump lb exit (Some cont) false) E) f g A) → (has_ants b exit → h = exit) →
  arc_ok F b (mkArc E f h (broken lb A)).
Proof. intros [H I] Hh. split; [eapply between_broken; [done..|]|done]. intros Ha. rewrite (Hh Ha). apply passes_refl. Qed.
Lemma arc_star b E f A : arc_ok F b (mkArc E f f A) → arc_ok F b (mkArc E f f (star A)).
Proof. intros [H I]. split; [by apply between_star|done]. Qed.

Lemma rule_while visit lb Pt Pb A C test body :
  spec k Pt (lab m lb) (lab m lb) (lim m A) (visit test) → spec k Pb (lab m "") (lab m "") (lim m C) (visitBody visit body) →
  spec k (padd Pt Pb) (lab m lb) (lab m "")
    (lim m (seq (star (seq A (looped lb C))) (either (if alwaysTrue (Some test) then nothing else A) (seq A (broken lb C)))))
    (visitWhile visit test body).
Proof.
  intros H1 H2.
  eapply (spec_sub F _ _ _ _ _ (seq (star (seq (lim m A) (looped lb (lim m C))))
    (either (if alwaysTrue (Some test) then nothing else lim m A) (seq (lim m A) (broken lb (lim m C))))));
    [|destruct (alwaysTrue _); lim_tac m].
  intros b X Hr Hi Hl. unfold visitWhile, here. wp_steps. pose proof (sf_start F _ _ _ _ Hr Hi Hl) as S0.
  eapply (wp_sf_newLabel F S0); [by right|by repeat constructor; eapply node_in_flow|]. intros loop b1 S1 T1 _ _ _ G1. wp_steps.
  eapply (wp_sf_go F S1); [by apply target_lt|]. intros b2 S2 Hf2 _ G2. wp_steps.
  eapply (wp_part F); [exact S2|exact H1|]. intros b3 S3 G3. rewrite Hf2 in S3. wp_steps.
  eapply (wp_sf_newLabel F S3); [by left|constructor|]. intros exit b4 S4 T4 _ _ Hf4 G4. wp_steps. cbn [map app] in S4.
  eapply wp_exitUnless; [exact S4|done|]. intros b5 S5 Hf5 G5. wp_steps. rewrite Hf5, Hf4 in *.
  eapply (wp_sf_goCondition F S5); [by eapply node_in_grows, node_in_flow, S3; etrans|]. intros b6 S6 G6. wp_steps.
  rewrite <-(padd_p0_r Pb) in S6. eapply wp_loopBody; [exact S6|still|still|exact H2|]. intros b7 S7 G7. wp_steps.
  eapply (wp_sf_addHere F S7); [still|]. intros b8 S8 _ _ G8. wp_steps.
  eapply (wp_sf_goFinish F S8); [still|]. intros b9 S9 Hfin G9.
  rewrite padd_p0_l in S9. eapply sf_post; [exact S9|]. intros _ _ Hall. arcs_in Hall.
  destruct Hall as (Hback & Hbody & Hcond & Hexit & HA & Henter & _).
  eapply (arc_pre F Hzero); [exact Henter|]. eapply (arc_seq F Hzero); [|apply arc_either].
  - apply arc_star. eapply (arc_seq F Hzero); [exact HA|]. eapply (arc_pre F Hzero); [exact Hcond|].
    eapply arc_looped; [exact Hbody|by eapply passes_arc|]. intros _. apply passes_refl.
  - by eapply arc_exits.
  - eapply (arc_seq F Hzero); [exact HA|]. eapply (arc_pre F Hzero); [exact Hcond|]. by eapply arc_broken.
Qed.

Lemma rule_do visit lb Pt Pb A C test body :
  spec k Pt (lab m "") (lab m "") (lim m A) (visit test) → spec k Pb (lab m "") (lab m "") (lim m C) (visitBody visit body) →
  spec k (padd Pb Pt) (lab m lb) (lab m "")
    (lim m (seq (star (seq (looped lb C) A)) (either (if alwaysTrue (Some test) then nothing else seq (looped lb C) A) (broken lb C))))
    (visitDoWhile visit body test).
Proof.
  intros H1 H2.
  eapply (spec_sub F _ _ _ _ _ (seq (star (seq (looped lb (lim m C)) (lim m A)))
    (either (if alwaysTrue (Some test) then nothing else seq (looped lb (lim m C)) (lim m A)) (broken lb (lim m C)))));
    [|destruct (alwaysTrue _); lim_tac m].
  intros b X Hr Hi Hl. unfold visitDoWhile, here. wp_steps. pose proof (sf_start F _ _ _ _ Hr Hi Hl) as S0.
  eapply (wp_sf_newLabel F S0); [by right|by repeat constructor; eapply node_in_flow|]. intros loop b1 S1 T1 _ _ _ G1. wp_steps.
  eapply (wp_sf_go F S1); [by apply target_lt|]. intros b2 S2 Hf2 _ G2. wp_steps.
  eapply (wp_sf_newLabel F S2); [by left|constructor|]. intros exit b3 S3 T3 _ _ Hf3 G3. wp_steps.
  eapply (wp_sf_newLabel F S3); [by left|constructor|]. intros cont b4 S4 T4 _ _ Hf4 G4. wp_steps. cbn [map app] in S4.
  eapply wp_loopBody; [exact S4|still|still|exact H2|]. rewrite Hf4, Hf3, Hf2. intros b5 S5 G5. wp_steps.
  eapply (wp_sf_fall F S5); [still|]. intros b6 S6 Hcont G6. wp_steps.
  eapply (sf_conclude F _ _ _ _ _ _ _ (mkArc (env_of b) loop (flow (bld b6)) (looped lb (lim m C)))) in S6.
  2: { intros _ _ Hall. arcs_in Hall. destruct Hall as (Hfall & Hbody & _). eapply arc_looped; [exact Hbody|by eapply passes_arc|].
       intros Ha. rewrite (Hcont Ha). apply passes_refl. }
  eapply (wp_last F); [exact S6|exact H1|]. intros b7 S7 G7. wp_steps.
  pose proof (node_in_flow _ _ _ (sf_ready _ _ _ _ _ _ _ _ S7)) as Hn7.
  eapply (wp_sf_condition F S7); [done|]. intros again b8 S8 Hn8 Hf8 G8. wp_steps.
  eapply (wp_sf_addAntecedent F S8); [still|done|]. intros b9 S9 _ Hf9 G9. wp_steps.
  eapply wp_exitUnless; [exact S9|still|]. rewrite Hf9, Hf8. intros b10 S10 _ G10. wp_steps.
  eapply (wp_sf_goFinish F S10); [still|]. intros b11 S11 Hfin G11.
  rewrite padd_p0_l in S11. arcs_known S11 as (Hexit & Hback & Hagain & HA & Hloop & _ & Hbody & Henter & _).
  assert (arc_ok F b11 (mkArc (env_of b) loop (flow (bld b7)) (seq (looped lb (lim m C)) (lim m A)))) as Hround.
  { by eapply (arc_seq F Hzero). }
  eapply (arc_pre F Hzero); [exact Henter|]. eapply (arc_seq F Hzero); [|apply arc_either].
  - apply arc_star. eapply (arc_post F Hzero); [exact Hround|]. eapply (arc_pre F Hzero); [exact Hagain|exact Hback].
  - by eapply arc_exits.
  - by eapply arc_broken.
Qed.
End rules.

(** ** Scopes *)

Section scopes.
Context (F : trav) (Hzero : nodes (bld F) !! unreachableFlow = Some unreachable_node) (m : mode).
Abbreviation spec := (spec F).

(** Leaving a scope with what is known. *)
Lemma wp_leave_with k key0 kind P l l0 b s b1 b2 arcs B (K : unit → trav → Prop) X :
  ready k (popen key0 kind k P) b → entered k key0 kind b s b1 → so_far F key0 l P l0 b1 b2 arcs →
  (flowing (bld b1) = true → Forall (arc_ok F b2) arcs → arc_ok F b2 (mkArc (env_of b1) (flow (bld b1)) (flow (bld b2)) B)) →
  (∀ b', post F (popen key0 kind k P) l B b b' → K tt b') → wp (bd leave) K X b2.
Proof.
  intros Hr Hen S Ha HK. eapply (wp_leave_scope F); [exact Hr|exact Hen|eapply sf_post; [exact S|]|by intros; apply HK]. auto.
Qed.

Lemma rule_block k l n visit body P A :
  spec (nid n, 0%nat) P l l (lim m A) (statements visit body) →
  spec k (popen (nid n, 0%nat) BlockScope k P) l l (lim m (seq (emit (EEnter (nid n, 0%nat))) A)) (visitBlock visit n body).
Proof.
  intros H. eapply (spec_sub F _ _ _ _ _ (seq (emit (EEnter (nid n, 0%nat))) (lim m A))); [|lim_tac m].
  intros b X Hr Hi Hl. unfold visitBlock. wp_steps. eapply wp_enter_scope; [done..|]. intros s b1 Hen Hr1 Hi1 Hl1 Hc. wp_steps.
  eapply (wp_sf_scopeStart F (sf_start F _ _ _ _ Hr1 Hi1 Hl1)); [done|]. intros b2 S2 G2. wp_steps.
  eapply (wp_last F); [exact S2|exact H|]. intros b3 S3 G3. rewrite padd_p0_l in S3.
  eapply wp_leave_with; [done..|exact S3| |done]. intros _ Hall. arcs_in Hall. destruct Hall as (HA & He & _).
  by eapply (arc_seq F Hzero).
Qed.

Lemma rule_for k lb n visit init test update body Pi Pt Pb Pu A T C U :
  let at_ := (nid n, 0%nat) in
  spec at_ Pi (lab m lb) (lab m lb) (lim m A) (opt visit init) →
  spec at_ Pt (lab m lb) (lab m lb) (lim m T) (opt visit test) →
  spec at_ Pb (lab m "") (lab m "") (lim m C) (visitBody visit body) →
  spec at_ Pu (lab m "") (lab m "") (lim m U) (each visit update) →
  spec k (popen at_ BlockScope k (padd Pi (padd Pt (padd Pb Pu)))) (lab m lb) (lab m "")
    (lim m (seq (emit (EEnter at_)) (seq A (seq (star (seq T (seq (looped lb C) U)))
                                       (either (if alwaysTrue test then nothing else T) (seq T (broken lb C)))))))
    (visitFor visit n init test update body).
Proof.
  intros at_ H1 H2 H3 H4.
  eapply (spec_sub F _ _ _ _ _ (seq (emit (EEnter at_)) (seq (lim m A) (seq (star (seq (lim m T) (seq (looped lb (lim m C)) (lim m U))))
    (either (if alwaysTrue test then nothing else lim m T) (seq (lim m T) (broken lb (lim m C))))))));
    [|destruct (alwaysTrue _); lim_tac m].
  intros b X Hr Hi Hl. unfold visitFor, here. wp_steps.
  eapply wp_enter_scope; [done..|]. intros s b1 Hen Hr1 Hi1 Hl1 Hc. wp_steps.
  eapply (wp_sf_scopeStart F (sf_start F _ _ _ _ Hr1 Hi1 Hl1)); [done|]. intros b2 S2 G2. wp_steps.
  eapply (wp_part F); [exact S2|exact H1|]. intros b3 S3 G3. wp_steps.
  eapply (wp_sf_newLabel F S3); [by right|by repeat constructor; eapply node_in_flow, S3|]. intros loop b4 S4 T4 _ _ _ G4. wp_steps.
  eapply (wp_sf_go F S4); [by apply target_lt|]. intros b5 S5 Hf5 _ G5. wp_steps.
  eapply (wp_part F); [exact S5|exact H2|]. intros b6 S6 G6. rewrite Hf5 in S6. wp_steps.
  eapply (wp_sf_newLabel F S6); [by left|constructor|]. intros exit b7 S7 T7 _ _ Hf7 G7. wp_steps. cbn [map app] in S7.
  eapply wp_exitUnless; [done|exact S7|done|]. intros b8 S8 Hf8 G8. wp_steps. rewrite Hf8, Hf7 in *.
  eapply (wp_sf_goCondition F S8); [by eapply node_in_grows, node_in_flow, S6; etrans|]. intros b9 S9 G9. wp_steps.
  eapply (wp_sf_newLabel F S9); [by left|constructor|]. intros cont b10 S10 T10 _ _ Hf10 G10. wp_steps. cbn [map app] in S10.
  eapply wp_loopBody; [exact S10|still|still|exact H3|]. rewrite Hf10. intros b11 S11 G11. wp_steps.
  eapply (wp_sf_fall F S11); [still|]. intros b12 S12 Hcont G12. wp_steps.
  eapply (sf_conclude F _ _ _ _ _ _ _ (mkArc (env_of b1) (flow (bld b9)) (flow (bld b12)) (looped lb (lim m C)))) in S12.
  2: { intros _ _ Hall. arcs_in Hall. destruct Hall as (Hfall & Hbody & _). eapply arc_looped; [done|exact Hbody|by eapply passes_arc|].
       intros Ha. rewrite (Hcont Ha). apply passes_refl. }
  eapply (wp_last F); [exact S12|exact H4|]. intros b13 S13 G13. wp_steps.
  eapply (wp_sf_addHere F S13); [still|]. intros b14 S14 _ _ G14. wp_steps.
  eapply (wp_sf_goFinish F S14); [still|]. intros b15 S15 Hfin G15. wp_steps.
  rewrite padd_p0_l, <-!padd_assoc in S15. eapply wp_leave_with; [done..|exact S15| |done]. intros _ Hall. arcs_in Hall.
  destruct Hall as (Hback & HU & Hloop & _ & Hbody & Hcond & Hexit & HT & Henter & HA & He & _).
  eapply (arc_seq F Hzero); [exact He|]. eapply (arc_seq F Hzero); [exact HA|]. eapply (arc_pre F Hzero); [exact Henter|].
  eapply (arc_seq F Hzero); [|apply arc_either].
  - apply arc_star. eapply (arc_seq F Hzero); [exact HT|]. eapply (arc_pre F Hzero); [exact Hcond|].
    eapply (arc_seq F Hzero); [exact Hloop|]. by eapply (arc_post F Hzero).
  - by eapply arc_exits.
  - eapply (arc_seq F Hzero); [exact HT|]. eapply (arc_pre F Hzero); [exact Hcond|]. by eapply arc_broken.
Qed.
End scopes.
