(* ===== verification/TraverseLeaves.v ===== *)
(** * The rules of [visitNode]'s leaves and stores

    Identifiers, the nodes only noted in tables, declarations, and what
    assigns to names. *)

From S2P Require Import Prelude GoString Diag Ast Symbols SymbolFacts Flow FlowWalk FlowFacts Traverse Exec.
From S2P Require Import FlowPath TraverseFacts TraverseNames TraverseSpec TraverseRules.
Open Scope Z_scope.

(** ** States that differ in one field *)

Definition with_storing (st : option Node) (b : trav) : trav :=
  set_bld (set_walk (flow (bld b)) (container (bld b)) (fnScope (bld b)) (exceptionTargets (bld b)) st (bld b)) b.

Lemma wp_set_storing st b (K : unit → trav → Prop) X : K tt (with_storing st b) → wp (set_storing st) K X b.
Proof. intros HK. unfold set_storing. apply wp_fl. wp_steps. exact HK. Qed.

Lemma core_storing P b b' st : core P b b' → core P b (with_storing st b').
Proof. intros [[[]] ? ? ? ? ? ? Hop ? ? ?]. constructor; cbn; try done. Qed.
Lemma moves_storing b st :
  twf b → (plain_store (storing (bld b)) = false → plain_store st = false) → moves p0 b (with_storing st b).
Proof. intros Hb Hst. split; [by apply core_storing, core_refl|by constructor]. Qed.

(** Tables apart from those of references. *)
Definition marks (t t' : tables) : Prop :=
  t_refs t' = t_refs t ∧ t_refFlow t' = t_refFlow t ∧ t_refContainer t' = t_refContainer t ∧ t_refScope t' = t_refScope t.

Lemma moves_marks b t : twf b → marks (tab b) t → moves p0 b (set_tab t b).
Proof.
  intros [] (H1 & H2 & H3 & H4). split; [|by constructor].
  constructor; cbn; rewrite ?H1, ?H2, ?H3; try done; [|lia]. constructor; cbn; rewrite ?H1, ?H2, ?H4; done.
Qed.

(** [this] is of a scope there is. *)
Lemma wp_thisScope d s (Q : option ScopeId → binder → Prop) X :
  wf d → (s < length (scopes d))%nat → (∀ t, (t < length (scopes d))%nat → Q (Some t) d) → wp (thisScope (Some s)) Q X d.
Proof.
  intros Hwf Hs HQ. unfold thisScope. wp_steps.
  apply (wp_loop_var (λ so d', d' = d ∧ ∃ t, so = Some t ∧ (t < length (scopes d))%nat)
           (λ so _, match so with Some t => t | None => 0%nat end)); [|by split; [|exists s]|cbn; lia].
  intros so d' (-> & t & -> & Ht). wp_steps. apply wp_scope; [done|]. intros sc Hsc. wp_steps.
  destruct (is_scope ModuleScope sc) eqn:Hm; wp_steps; [by apply HQ|]. destruct (_ && _); wp_steps; [by apply HQ|].
  pose proof (sc_parent _ _ _ (wf_scopes d Hwf t sc Hsc)) as Hpar.
  destruct (Parent sc) as [p|]; [|unfold is_scope in Hm; by rewrite Hpar in Hm].
  split; [|lia]. split; [done|]. exists p. split; [done|lia].
Qed.

Section leaves.
Context (F : trav) (Hzero : nodes (bld F) !! unreachableFlow = Some unreachable_node) (m : mode).
Abbreviation spec := (spec F).

(** ** Nodes that are noted *)

Lemma sf_marks k l P R b0 b arcs t :
  so_far F k l P R b0 b arcs → marks (tab b) t → so_far F k l P R b0 (set_tab t b) arcs.
Proof.
  intros S Ht. apply (sf_op F k l l P R b0 b _ arcs [] S); [apply moves_marks; [apply S|done]|apply S|by constructor].
Qed.

(** Anything that leaves the flow as it is and notes something at most. *)
Lemma spec_noted k l (n : TravM unit) :
  (∀ b X (K : unit → trav → Prop), ready k p0 b → K tt b → (∀ t, marks (tab b) t → K tt (set_tab t b)) → wp n K X b) →
  spec k p0 l l (lim m skip) n.
Proof.
  intros H. eapply spec_sub; [|apply lim_le]. intros b X Hr Hi Hl. pose proof (sf_start F _ _ _ _ Hr Hi Hl) as S0.
  apply H; [done| |].
  - eapply sf_post; [exact S0|]. intros _ _ _. apply arc_refl.
  - intros t Ht. eapply sf_post; [by eapply sf_marks|]. intros _ _ _. apply arc_refl.
Qed.

Lemma rule_null k l n u v : spec k p0 l l (lim m skip) (visitNull n u v).
Proof.
  apply spec_noted. intros b X K Hr HK Ht. unfold visitNull, flowing_. wp_steps. destruct (_ && _); wp_steps; [|done].
  apply wp_t_resolve; [apply Hr|]. intros [s|] _; wp_steps; [|done]. by apply Ht.
Qed.
Lemma rule_this k l n : spec k p0 l l (lim m skip) (visitThis n).
Proof.
  apply spec_noted. intros b X K Hr HK Ht. unfold visitThis, flowing_. wp_steps. destruct (negb _); wp_steps; [done|].
  destruct (re_cur _ _ _ Hr) as (c & Hc & _). pose proof (bw_bnd _ (tw_bld _ (re_wf _ _ _ Hr))) as Hwf.
  apply wp_bd_reads; [auto with places|]. rewrite Hc. apply wp_thisScope; [done|by apply (wf_cur _ Hwf)|]. intros t Hlt. wp_steps.
  apply wp_bd_reads; [apply reads_deref|]. cbn [deref]. wp_steps.
  apply wp_bd_reads; [auto with places|]. apply wp_containerOf; [done..|]. intros home _. wp_steps. by apply Ht.
Qed.
Lemma rule_new_target k l n name : spec k p0 l l (lim m skip) (newTarget n name).
Proof.
  apply spec_noted. intros b X K Hr HK Ht. unfold newTarget, flowing_. wp_steps. destruct (negb _); wp_steps; [done|].
  apply wp_t_resolve; [apply Hr|]. intros [s|] _; wp_steps; by apply Ht.
Qed.
Lemma rule_table k l f : (∀ t, marks t (f t)) → spec k p0 l l (lim m skip) (table_ f).
Proof. intros Hf. apply spec_noted. intros b X K Hr HK Ht. unfold table_. wp_steps. by apply Ht. Qed.

(** ** Declarations *)

Lemma spec_renames k l (n : TravM unit) :
  (∀ b c X (K : unit → trav → Prop), twf b → cur (bnd (bld b)) = Some c → (∀ b', renames b b' → K tt b') → wp n K X b) →
  spec k p0 l l (lim m skip) n.
Proof.
  intros H. eapply spec_sub; [|apply lim_le]. intros b X Hr Hi Hl. pose proof (sf_start F _ _ _ _ Hr Hi Hl) as S0.
  destruct (re_cur _ _ _ Hr) as (c & Hc & _). apply (H b c); [apply Hr|done|]. intros b' Hren.
  eapply sf_post; [by eapply sf_renames|]. intros _ _ _. destruct (renames_rest _ _ Hren) as (_ & _ & _ & -> & _). apply arc_refl.
Qed.

Lemma rule_declareHere k l name flags kind n : spec k p0 l l (lim m skip) (declareHere name flags kind n).
Proof. apply spec_renames. intros. by eapply wp_declareHere. Qed.
Lemma rule_declareVariable k l kind name node : spec k p0 l l (lim m skip) (bd (declareVariable kind name node)).
Proof. apply spec_renames. intros. by eapply wp_t_declareVariable. Qed.
Lemma rule_declareNames k l kind names n : spec k p0 l l (lim m skip) (declareNames kind names n).
Proof. apply spec_renames. intros. by eapply wp_declareNames. Qed.
Lemma renames_cur b b' c : renames b b' → cur (bnd (bld b)) = Some c → cur (bnd (bld b')) = Some c.
Proof. intros Hr Hc. by destruct (renames_rest _ _ Hr) as (_ & _ & _ & _ & _ & -> & _). Qed.
Lemma rule_import k l n locals namespace : spec k p0 l l (lim m skip) (visitImport n locals namespace).
Proof.
  apply spec_renames. intros b c X K Hb Hc HK. unfold visitImport. wp_steps.
  pose proof (wf_cur _ (bw_bnd _ (tw_bld _ Hb)) c Hc) as Hlt.
  apply (wp_each_renames _ c); [done..| |].
  - intros x b1 R Hb1 Hc1 _ HR. eapply wp_declareHere; [done|by rewrite Hc1|done].
  - intros b1 H1. eapply wp_declareHere; [by eapply renames_wf|by eapply renames_cur|].
    intros b2 H2. apply HK. by eapply renames_trans.
Qed.
(** What [visitFunctionDeclaration] does before the function. *)
Definition declares (n : Node) (name : string) (f : FunctionData) : TravM unit :=
  match fn_body f with
  | Some _ =>
      bd (set_plain (negb (is_async f) && negb (is_generator f))) ≫= λ _,
      kind ← bd functionDeclKind;
      declareHere name Function kind n ≫= λ _,
      bd (set_plain false)
  | None => mret tt
  end.
Lemma rule_declares k l n name f : spec k p0 l l (lim m skip) (declares n name f).
Proof.
  apply spec_renames. intros b c X K Hb Hc HK. unfold declares. destruct (fn_body f); wp_steps; [|by apply HK, renames_refl].
  apply wp_set_plain; [done|]. intros b1 H1. wp_steps. pose proof (renames_wf _ _ Hb H1) as Hb1. pose proof (renames_cur _ _ _ H1 Hc) as Hc1.
  eapply wp_functionDeclKind; [done..|]. intros kind. wp_steps. eapply wp_declareHere; [done..|]. intros b2 H2. wp_steps.
  apply wp_set_plain; [by eapply renames_wf|]. intros b3 H3. apply HK. by do 2 (eapply renames_trans; [done|]).
Qed.

(** ** Names that are assigned *)

(** Stores made here to the symbol [name] denotes. *)
Lemma wp_assignName k l P R b0 b arcs kind name src (K : unit → trav → Prop) X :
  so_far F k l P R b0 b arcs → (src = None ∨ src = storing (bld b) ∧ is_Some src) →
  (∀ b', so_far F k l P R b0 b' (mkArc (env_of b0) (flow (bld b)) (flow (bld b')) (bind_name kind name src) :: arcs) →
     graph_grows (nodes (bld b)) (nodes (bld b')) → K tt b') →
  wp (assignName kind name) K X b.
Proof.
  intros S Hsrc HK. pose proof (sf_ready _ _ _ _ _ _ _ _ S) as Hr. destruct (re_cur _ _ _ Hr) as (c & Hc & _).
  assert (∀ init sym, (∀ id, sym = Some id → (id < length (symbols (bnd (bld b))))%nat) →
    bind_name kind name src = emit (EStore (TName kind name) src init true) →
    wp (fl (assignFlow sym init true)) K X b) as Hassign.
  { intros init sym Hsym Hb. eapply (wp_sf_assign F S); [done| |].
    - intros _ _. instantiate (1 := EStore (TName kind name) src init true). split_and!; try done.
      + destruct src as [s|]; [|apply (sf_idle _ _ _ _ _ _ _ _ S)]. destruct Hsrc as [?|[-> _]]; done.
      + destruct Hsrc as [->|[-> _]]; [done|]. apply (sf_idle _ _ _ _ _ _ _ _ S).
    - intros b' S' G'. apply HK; [by rewrite Hb|done]. }
  unfold assignName. unfold bind_name in *. destruct (bool_decide (name = "")).
  { wp_steps. apply HK; [|done]. apply sf_conclude; [done|]. intros _ _ _. apply arc_refl. }
  destruct (bool_decide (kind = "var")); wp_steps.
  - apply wp_t_resolve; [apply Hr|]. intros sym Hsym. wp_steps. by eapply Hassign.
  - eapply wp_local; [apply Hr|done|apply Hr|]. intros sym Hsym. wp_steps. by eapply Hassign.
Qed.
Lemma wp_assignNames k l P R b0 b arcs kind name src (K : unit → trav → Prop) X :
  so_far F k l P R b0 b arcs → (src = None ∨ src = storing (bld b) ∧ is_Some src) →
  (∀ b', so_far F k l P R b0 b' (mkArc (env_of b0) (flow (bld b)) (flow (bld b')) (bind_name kind name src) :: arcs) →
     graph_grows (nodes (bld b)) (nodes (bld b')) → K tt b') →
  wp (assignNames kind [name]) K X b.
Proof.
  intros S Hsrc HK. unfold assignNames, flowing_. wp_steps. destruct (flowing (bld b)) eqn:Hf; cbn [negb]; wp_steps.
  - cbn [each]. wp_steps. eapply wp_assignName; [done..|]. intros b' S' G'. wp_steps. by apply HK.
  - apply HK; [|done]. eapply sf_declaring; [done|]. by rewrite <-(sf_flowing F S).
Qed.
Lemma rule_assignNames k l kind name : spec k p0 l l (lim m (bind_name kind name None)) (assignNames kind [name]).
Proof.
  eapply spec_sub; [|apply lim_le]. intros b X Hr Hi Hl. eapply wp_assignNames; [by apply sf_start|by left|].
  intros b' S' _. arcs_known S' as (HA & _). exact HA.
Qed.

Lemma sf_storing k l P R b0 b arcs st :
  so_far F k l P R b0 b arcs → plain_store st = false → so_far F k l P R b0 (with_storing st b) arcs.
Proof.
  intros S Hst. apply (sf_op F k l l P R b0 b _ arcs [] S); [by apply moves_storing; [apply S|]|apply S|by constructor].
Qed.

Lemma rule_var k l visit n kind name init P A :
  plain_store (Some n) = false → spec k P l l (lim m A) (opt visit init) →
  spec k P l l
    (lim m (seq A (if negb (bool_decide (kind = "var")) then
                     emit (EStore (TName kind name) (Some n) true (bool_decide (is_Some init)))
                   else if bool_decide (is_Some init) then emit (EStore (TName kind name) (Some n) false true)
                   else skip)))
    (visitVarDeclaration visit n kind name init).
Proof.
  intros Hn H. set (B := if negb _ then _ else _). eapply (spec_sub F _ _ _ _ _ (seq (lim m A) B)); [|lim_tac m].
  intros b X Hr Hi Hl. unfold visitVarDeclaration. wp_steps. destruct (re_cur _ _ _ Hr) as (c & Hc & _).
  eapply wp_t_declareVariable; [apply Hr|done|]. intros b1 Hren. wp_steps.
  pose proof (sf_renames F (sf_start F _ _ _ _ Hr Hi Hl) _ Hren) as S1.
  destruct (renames_rest _ _ Hren) as (_ & _ & _ & Hf1 & _).
  eapply (wp_last F); [exact S1|exact H|]. rewrite Hf1. intros b2 S2 G2. wp_steps. rewrite padd_p0_l in S2.
  apply wp_set_storing. wp_steps.
  eapply sf_storing in S2; [|exact Hn]. set (b3 := with_storing (Some n) b2) in *.
  pose proof (sf_ready _ _ _ _ _ _ _ _ S2) as Hr3. destruct (re_cur _ _ _ Hr3) as (c3 & Hc3 & _).
  assert (∀ b4, so_far F k l P p0 b b4
            (mkArc (env_of b) (flow (bld b2)) (flow (bld b4)) B :: [mkArc (env_of b) (flow (bld b)) (flow (bld b2)) (lim m A)]) →
    wp (set_storing None) (λ _ b', post F P l (seq (lim m A) B) b b') X b4) as Hend.
  { intros b4 S4. apply wp_set_storing. apply (sf_storing _ _ _ _ _ _ _ None) in S4; [|done]. arcs_known S4 as (HB & HA & _).
    by eapply (arc_seq F Hzero). }
  assert (∀ init' assign' sym, (∀ id, sym = Some id → (id < length (symbols (bnd (bld b3))))%nat) →
    B = emit (EStore (TName kind name) (Some n) init' assign') →
    wp (fl (assignFlow sym init' assign')) (λ _ b4, wp (set_storing None) (λ _ b', post F P l (seq (lim m A) B) b b') X b4) X b3) as Hassign.
  { intros i' a' sym Hsym HB. eapply (wp_sf_assign F S2); [done|by intros _ _; instantiate (1 := EStore (TName kind name) (Some n) i' a')|].
    intros b4 S4 _. apply Hend. by rewrite HB. }
  destruct (negb (bool_decide (kind = "var"))) eqn:Hk.
  - wp_steps. eapply wp_local; [apply Hr3|done|apply Hr3|]. intros sym Hsym. wp_steps. by apply Hassign.
  - destruct (bool_decide (is_Some init)) eqn:Hi'; wp_steps.
    + apply wp_unmangled; [apply Hr3|]. wp_steps. apply wp_t_resolve; [apply Hr3|]. intros sym Hsym. wp_steps. by apply Hassign.
    + apply Hend. apply sf_conclude; [done|]. intros _ _ _. apply arc_refl.
Qed.

(** ** Loops over a value *)

(** From the loop's label through its names and body. *)
Lemma claims_each b E lb exit loop f1 f2 f3 h N C :
  arc_ok F b (mkArc E loop f1 N) →
  arc_ok F b (mkArc (in_jump (mkJump lb exit (Some loop) false) E) f1 f2 C) → arc_ok F b (mkArc E f2 loop skip) →
  arc_ok F b (mkArc E loop exit skip) → has_ants b exit → (has_ants b exit → h = exit) → arc_ok F b (mkArc E f3 loop skip) →
  arc_ok F b (mkArc E f3 h (seq (star (seq N (looped lb C))) (perhaps (seq N (broken lb C))))).
Proof.
  intros HN Hbody Hback Hexit Ha Hh Henter. eapply (arc_pre F Hzero); [exact Henter|]. rewrite (Hh Ha) in *.
  eapply (arc_seq F Hzero); [apply arc_star|apply arc_perhaps; [exact Hexit|]]; (eapply (arc_seq F Hzero); [exact HN|]).
  - eapply (arc_looped F Hzero); [exact Hbody|by eapply passes_arc|]. intros _. apply passes_refl.
  - by eapply (arc_broken F Hzero).
Qed.

Lemma rule_for_of k lb visit n kind name arr obj iterable body Pe Pp Pb A N C :
  let at_ := (nid n, 0%nat) in
  spec k Pe (lab m lb) (lab m lb) (lim m A) (visit iterable) →
  spec at_ Pp (lab m lb) (lab m lb) (lim m N) (bindPattern visit kind arr obj) →
  spec at_ Pb (lab m "") (lab m "") (lim m C) (visitBody visit body) →
  spec k (padd Pe (popen at_ BlockScope k (padd Pp Pb))) (lab m lb) (lab m "")
    (lim m (let names := seq (emit (EEnter at_)) (seq (bind_name kind name None) N) in
            seq A (seq (star (seq names (looped lb C))) (perhaps (seq names (broken lb C))))))
    (visitForOf visit n kind name arr obj iterable body).
Proof.
  intros at_ H1 H2 H3. unfold visitForOf. cbv zeta. eapply rule_seq; [done|exact H1|]. clear H1.
  set (N' := seq (emit (EEnter at_)) (seq (bind_name kind name None) (lim m N))).
  eapply (spec_sub F _ _ _ _ _ (seq (star (seq N' (looped lb (lim m C)))) (perhaps (seq N' (broken lb (lim m C))))));
    [|unfold N'; lim_tac m].
  intros b X Hr Hi Hl. unfold here. wp_steps.
  eapply wp_enter_scope; [done..|]. intros s b1 Hen Hr1 Hi1 Hl1 Hc. wp_steps.
  eapply wp_declareNames; [apply Hr1|done|]. intros b2 Hren. pose proof (sf_renames F (sf_start F _ _ _ _ Hr1 Hi1 Hl1) _ Hren) as S2.
  pose proof (renames_cur _ _ _ Hren Hc) as Hc2. destruct (renames_rest _ _ Hren) as (_ & _ & _ & Hf2 & _). wp_steps.
  eapply (wp_sf_newLabel F S2); [by right|by repeat constructor; eapply node_in_flow, S2|]. intros loop b3 S3 T3 L0 _ _ G3. wp_steps.
  eapply (wp_sf_go F S3); [by apply target_lt|]. intros b4 S4 Hf4 _ G4. wp_steps. rewrite Hf2 in S4.
  eapply (wp_sf_newLabel F S4); [by left|by repeat constructor; apply target_lt; still|]. intros exit b5 S5 T5 _ Ha5 Hf5 G5. wp_steps.
  specialize (Ha5 loop ltac:(by left) L0). rewrite Hf4 in Hf5.
  assert (cur (bnd (bld b5)) = Some s) as Hc5 by (rewrite (sm_cur _ _ (proj2 (sf_moves _ _ _ _ _ _ _ _ S5))); done).
  eapply (wp_sf_scopeStart F S5); [done|]. rewrite Hf5. intros b6 S6 G6. wp_steps.
  eapply wp_assignNames; [exact S6|by left|]. intros b7 S7 G7. wp_steps.
  eapply (wp_part F); [exact S7|exact H2|]. intros b8 S8 G8. wp_steps.
  rewrite <-(padd_p0_r Pb) in S8. eapply wp_loopBody; [exact S8|still|still|exact H3|]. intros b9 S9 G9. wp_steps.
  eapply (wp_sf_addHere F S9); [still|]. intros b10 S10 _ _ G10. wp_steps.
  eapply (wp_sf_goFinish F S10); [still|]. intros b11 S11 Hfin G11. wp_steps.
  rewrite padd_p0_l in S11. rewrite padd_p0_r in *. eapply wp_leave_with; [done|exact Hen|exact S11| |done]. intros _ Hall. arcs_in Hall.
  destruct Hall as (Hback & Hbody & HN & Hname & He & Hexit & Henter & _).
  eapply claims_each; [|exact Hbody|exact Hback|exact Hexit| |exact Hfin|exact Henter].
  - eapply (arc_seq F Hzero); [exact He|]. by eapply (arc_seq F Hzero).
  - still.
Qed.

Lemma rule_for_in k lb visit n kind name object body Pe Pb A C :
  plain_store (Some n) = false →
  let at_ := (nid n, 0%nat) in
  spec k Pe (lab m lb) (lab m lb) (lim m A) (visit object) →
  spec at_ Pb (lab m "") (lab m "") (lim m C) (visitBody visit body) →
  spec k (padd Pe (popen at_ BlockScope k Pb)) (lab m lb) (lab m "")
    (lim m (let names := seq (emit (EEnter at_)) (bind_name kind name (Some n)) in
            seq A (seq (star (seq names (looped lb C))) (perhaps (seq names (broken lb C))))))
    (visitForIn visit n kind name object body).
Proof.
  intros Hn at_ H1 H3. unfold visitForIn. cbv zeta. eapply rule_seq; [done|exact H1|]. clear H1.
  set (N' := seq (emit (EEnter at_)) (bind_name kind name (Some n))).
  eapply (spec_sub F _ _ _ _ _ (seq (star (seq N' (looped lb (lim m C)))) (perhaps (seq N' (broken lb (lim m C))))));
    [|unfold N'; lim_tac m].
  intros b X Hr Hi Hl. unfold here. wp_steps.
  eapply wp_enter_scope; [done..|]. intros s b1 Hen Hr1 Hi1 Hl1 Hc. wp_steps.
  eapply wp_t_declareVariable; [apply Hr1|done|]. intros b2 Hren. pose proof (sf_renames F (sf_start F _ _ _ _ Hr1 Hi1 Hl1) _ Hren) as S2.
  pose proof (renames_cur _ _ _ Hren Hc) as Hc2. destruct (renames_rest _ _ Hren) as (_ & _ & _ & Hf2 & _). wp_steps.
  eapply (wp_sf_newLabel F S2); [by right|by repeat constructor; eapply node_in_flow, S2|]. intros loop b3 S3 T3 L0 _ _ G3. wp_steps.
  eapply (wp_sf_go F S3); [by apply target_lt|]. intros b4 S4 Hf4 _ G4. wp_steps. rewrite Hf2 in S4.
  eapply (wp_sf_newLabel F S4); [by left|by repeat constructor; apply target_lt; still|]. intros exit b5 S5 T5 _ Ha5 Hf5 G5. wp_steps.
  specialize (Ha5 loop ltac:(by left) L0). rewrite Hf4 in Hf5.
  assert (cur (bnd (bld b5)) = Some s) as Hc5 by (rewrite (sm_cur _ _ (proj2 (sf_moves _ _ _ _ _ _ _ _ S5))); done).
  eapply (wp_sf_scopeStart F S5); [done|]. rewrite Hf5. intros b6 S6 G6. wp_steps.
  apply wp_set_storing. wp_steps. eapply sf_storing in S6; [|exact Hn].
  eapply wp_assignNames; [exact S6|by right|]. cbn [with_storing bld set_bld set_walk flow nodes]. intros b7 S7 G7. wp_steps.
  rewrite <-(padd_p0_r Pb) in S7. eapply wp_loopBody; [exact S7|still|still|exact H3|]. intros b9 S9 G9. wp_steps.
  eapply (wp_sf_addHere F S9); [still|]. intros b10 S10 _ _ G10. wp_steps.
  eapply (wp_sf_goFinish F S10); [still|]. intros b11 S11 Hfin G11. wp_steps.
  rewrite padd_p0_l in S11. rewrite padd_p0_r in *. eapply wp_leave_with; [done|exact Hen|exact S11| |done]. intros _ Hall. arcs_in Hall.
  destruct Hall as (Hback & Hbody & Hname & He & Hexit & Henter & _).
  eapply claims_each; [|exact Hbody|exact Hback|exact Hexit| |exact Hfin|exact Henter]; [|still].
  by eapply (arc_seq F Hzero).
Qed.
End leaves.
