(* ===== verification/TraverseStores.v ===== *)
(** * One visit, and the rules of assignments

    [visit_one] around a case; identifiers as references and as targets. *)

From S2P Require Import Prelude GoString Diag Ast Symbols SymbolFacts Flow FlowWalk FlowFacts Traverse Exec.
From S2P Require Import FlowPath TraverseFacts TraverseNames TraverseSpec TraverseRules TraverseLeaves.
Open Scope Z_scope.

(** ** The position of a visit *)

Definition with_ord (o : Z) (ss : list stmtFrame) (la : gmap SymId Z) (b : trav) : trav :=
  set_bld (set_ord o ss la (bld b)) b.

Lemma core_ord P b o ss la b2 o2 ss2 la2 :
  core P (with_ord o ss la b) b2 → o ≤ ord (bld b) + 1 → bwf (bld (with_ord o2 ss2 la2 b2)) → o2 = ord (bld b2) →
  length ss2 = length (stmts (bld b)) → core (pvisit P) b (with_ord o2 ss2 la2 b2).
Proof.
  intros [[] ? ? Ho ? ? ? Hop ? ? ?] Hlt Hwf -> Hss. constructor; cbn in *; try done. lia.
Qed.

Lemma ready_ord k P b ss la :
  ready k (pvisit P) b → bwf (bld (with_ord (ord (bld b) + 1) ss la b)) → ready k P (with_ord (ord (bld b) + 1) ss la b).
Proof.
  intros [[] Ht Hc Hp Ho Hk Hi Hf Hop Hrf] Hwf. constructor; cbn in *; try done. lia.
Qed.

Lemma bwf_enter b ext :
  bwf (bld b) → ord (bld b) < maxOrd →
  bwf (bld (with_ord (ord (bld b) + 1) (if ext : bool then stmts (bld b) ++ [mkStmtFrame (ord (bld b) + 1) []] else stmts (bld b))
              (lastAssign (bld b)) b)).
Proof.
  intros Hb Ho. apply (wp_enterStmt (X := λ _ _, False) (bld b) ext (λ _ x, bwf x) Hb Ho). intros x Hx _. apply Hx.
Qed.
Lemma wp_t_leaveStmt b t ss (K : unit → trav → Prop) X :
  bwf (bld b) → stmts (bld b) = ss ++ [t] →
  (∀ la, bwf (bld (with_ord (ord (bld b)) ss la b)) → K tt (with_ord (ord (bld b)) ss la b)) → wp (fl leaveStmt) K X b.
Proof.
  intros Hb Hss HK. apply wp_fl.
  pose proof (wp_leaveStmt (X := λ _ _, False) (bld b) t ss (λ _ x, bwf x) Hb Hss (λ x Hx _ _ _ _, af_wf _ _ Hx)) as Hwf.
  assert (take (length (stmts (bld b)) - 1) (stmts (bld b)) = ss) as Htake.
  { rewrite Hss, length_app. cbn. replace (length ss + 1 - 1)%nat with (length ss) by lia. by rewrite take_app_length. }
  assert (last (stmts (bld b)) = Some t) as Hlast by (by rewrite Hss, last_snoc).
  unfold leaveStmt in *. unfold wp, mbind, FlowM_bind, M_bind, get, modify in *. rewrite Hlast in *. cbn in *. rewrite Htake in *.
  by apply HK.
Qed.

Section visits.
Context (F : trav) (Hzero : nodes (bld F) !! unreachableFlow = Some unreachable_node).
Abbreviation spec := (spec F).

Lemma post_ord P l B b o ss la b2 o2 ss2 la2 :
  post F P l B (with_ord o ss la b) b2 → o ≤ ord (bld b) + 1 → bwf (bld (with_ord o2 ss2 la2 b2)) → o2 = ord (bld b2) →
  length ss2 = length (stmts (bld b)) → post F (pvisit P) l B b (with_ord o2 ss2 la2 b2).
Proof.
  intros [[Hm Hs] Hl Hc] Ho Hwf Ho2 Hss. constructor; [split; [by eapply core_ord|]|done|].
  - destruct Hs. by constructor.
  - intros Hf [Hg Ht Hsy Hsc]. by apply Hc.
Qed.

Lemma post_l P l B b0 b b' :
  moves p0 b0 b → flow (bld b) = flow (bld b0) → post F P l B b b' → post F P l B b0 b'.
Proof.
  intros Hm Hf [Hm' Hl Hc]. constructor; [by eapply moves_l|done|]. intros Hfl Hla. unfold claims in *.
  rewrite <-(env_same _ _ (proj2 Hm)), <-Hf. apply Hc; [|done]. by rewrite (flowing_same _ _ (proj2 Hm)).
Qed.

(** [visit]: a case at its position; [c] is the control its result is stated for. *)
Lemma wp_visit_one k P l' B visit n c b0 X :
  ready k (pvisit P) b0 →
  (∀ b, ready k P b → ctl b = ctl b0 → storing (bld b) = storing (bld b0) →
     wp (visitNode visit n) (λ _ b', post F P l' B (set_ctl c b) b') X b) →
  wp (visit_one visit n) (λ _ b', post F (pvisit P) l' B (set_ctl c b0) b') X b0.
Proof.
  intros Hr0 H. unfold visit_one, flowing_. set (rest := λ _ : unit, _).
  assert (∀ t, marks (tab b0) t → let b := set_tab t b0 in
    wp (rest tt) (λ _ b', post F (pvisit P) l' B (set_ctl c b) b') X b) as Hgo.
  { intros t Ht b. assert (moves p0 b0 b) as Hm by (apply moves_marks; [apply Hr0|done]).
    assert (ready k (pvisit P) b) as Hr by (by eapply ready_p0). assert (ctl b = ctl b0) as Hctl by done.
    assert (storing (bld b) = storing (bld b0)) as Hstor by done.
    clearbody b. clear Hr0 Hm. unfold rest. wp_steps.
    destruct (flowing (bld b)) eqn:Hfl; cbn [negb]; wp_steps.
    2: { eapply wp_mono; [apply (H b); [by apply (ready_cost k (pvisit P) b (cost P)) in Hr; [destruct P|cbn; lia]|done..]| |done].
         cbv beta. intros _ b' [[Hc Hs] Hl' _]. constructor; [split; [|done]|done|by unfold flowing in *; cbn; congruence].
         destruct Hc. constructor; cbn; try done. cbn in co_ord. lia. }
    apply wp_fl. unfold enterStmt. wp_steps.
    pose proof (bwf_enter b (extendsAssignments n) (tw_bld _ (re_wf _ _ _ Hr)) ltac:(pose proof (re_ord _ _ _ Hr); cbn in *; lia)) as Hwf1.
    fold (with_ord (ord (bld b) + 1) (if extendsAssignments n then stmts (bld b) ++ [mkStmtFrame (ord (bld b) + 1) []] else stmts (bld b))
              (lastAssign (bld b)) b). set (b1 := with_ord _ _ _ b) in *.
    eapply wp_mono; [apply (H b1); [by apply ready_ord|done..]| |done].
    cbv beta. intros [] b2 Hp. pose proof (co_wf _ _ _ (proj1 (po_moves _ _ _ _ _ _ Hp))) as Hwf2.
    pose proof (co_stmts _ _ _ (proj1 (po_moves _ _ _ _ _ _ Hp))) as Hlen. cbn in Hlen. destruct (extendsAssignments n); wp_steps.
    - destruct (exists_last (l := stmts (bld b2))) as (ss & t' & Hss); [intros He; rewrite He, length_app in Hlen; cbn in Hlen; lia|].
      eapply wp_t_leaveStmt; [apply Hwf2|done|]. intros la Hwf3. eapply (post_ord P l' B (set_ctl c b)); [exact Hp|cbn; lia|done|done|].
      rewrite Hss, !length_app in Hlen. cbn in *. lia.
    - replace b2 with (with_ord (ord (bld b2)) (stmts (bld b2)) (lastAssign (bld b2)) b2) by (by destruct b2 as [[] ? ?]).
      eapply (post_ord P l' B (set_ctl c b)); [exact Hp|cbn; lia| |done|done]. by destruct b2 as [[] ? ?]; apply Hwf2. }
  assert (∀ t, marks (tab b0) t → wp (rest tt) (λ _ b', post F (pvisit P) l' B (set_ctl c b0) b') X (set_tab t b0)) as Hgo'.
  { intros t Ht. eapply wp_mono; [by apply Hgo| |done]. cbv beta. intros _ b' Hp.
    apply (post_l (pvisit P) l' B (set_ctl c b0) (set_ctl c (set_tab t b0))); [|done|exact Hp].
    apply (moves_marks (set_ctl c b0)); [destruct (re_wf _ _ _ Hr0); by constructor|done]. }
  apply wp_bind, (wp_mono _ (λ _ b, ∃ t, marks (tab b0) t ∧ b = set_tab t b0) _ X X); [|cbv beta; intros [] b (t & Ht & ->); by apply Hgo'|done].
  assert (wp (mret tt : TravM unit) (λ _ b, ∃ t, marks (tab b0) t ∧ b = set_tab t b0) X b0) as Hnone.
  { wp_steps. exists (tab b0). split; [done|by destruct b0]. }
  destruct (nkind n); try exact Hnone. destruct Decl; [|exact Hnone]. unfold table_. wp_steps. eexists. split; [|reflexivity]. done.
Qed.
Lemma spec_visit_one k P l l' B visit n :
  spec k P l l' B (visitNode visit n) → spec k (pvisit P) l l' B (visit_one visit n).
Proof.
  intros H b X Hr Hi Hl. replace (λ _ b', post F (pvisit P) l' B b b') with (λ (_ : unit) b', post F (pvisit P) l' B (set_ctl (ctl b) b) b')
    by (by destruct b).
  eapply wp_visit_one; [done|]. intros b1 Hr1 Hc1 Hs1. replace (set_ctl (ctl b) b1) with b1 by (rewrite <-Hc1; by destruct b1).
  apply H; [done| |intros x Hx; rewrite Hc1; by apply Hl]. destruct Hi. constructor; congruence.
Qed.

(** ** Identifiers *)

Definition source_ok (b : trav) (src : option Node) : Prop :=
  match src with Some s => storing (bld b) = Some s | None => plain_store (storing (bld b)) = false end.

Definition identifier_code (w : bool) (i : nat) (src : option Node) : behaviour :=
  if w then seq (use i) (emit (EStore (TId i) src false true)) else use i.

(** The tables with the access of [n]; [t1] has what it refers to. *)
Lemma moves_access n b (sym : option SymId) t1 c :
  twf b → cur (bnd (bld b)) = Some c → (∀ s, sym = Some s → (s < length (symbols (bnd (bld b))))%nat) →
  declaring (bnd (bld b)) = false →
  t_refs t1 = (match sym with Some s => <[nid n := s]> (t_refs (tab b)) | None => t_refs (tab b) end) →
  t_refFlow t1 = <[nid n := flow (bld b)]> (t_refFlow (tab b)) →
  t_refContainer t1 = <[nid n := container (bld b)]> (t_refContainer (tab b)) →
  t_refScope t1 = <[nid n := cur (bnd (bld b))]> (t_refScope (tab b)) →
  moves (pident (nid n)) b (set_tab t1 b).
Proof.
  intros [Hb Hrf Hfl Hsc] Hc Hsym Hd H1 H2 H3 H4. split; [|by constructor]. constructor; cbn; try done; [|lia| |congruence].
  - constructor; cbn; [done|..].
    + rewrite H1. destruct sym as [s|]; [|done]. apply map_Forall_insert_2; [by apply Hsym|done].
    + rewrite H2. apply map_Forall_insert_2; [apply Hb|done].
    + rewrite H4. apply map_Forall_insert_2; [|done]. rewrite Hc. intros ? [= <-]. by apply (wf_cur _ (bw_bnd _ Hb)).
  - intros i Hi. rewrite list_elem_of_singleton in Hi. rewrite H1, H2, H3.
    split_and!; [destruct sym; [by rewrite lookup_insert_ne|done]|by rewrite lookup_insert_ne..].
Qed.

Lemma wp_identifier k n name b (K : unit → trav → Prop) X :
  ready k (pident (nid n)) b →
  (∀ b', moves (pident (nid n)) b b' → storing (bld b') = storing (bld b) → ctl b' = ctl b →
     (flowing (bld b) = true → later F (pident (nid n)) b' → ∀ src, source_ok b src →
        arc_ok F b' (mkArc (env_of b) (flow (bld b)) (flow (bld b')) (identifier_code (writing (ctl b)) (nid n) src))) → K tt b') →
  wp (visitIdentifier n name) K X b.
Proof.
  intros Hr HK. unfold visitIdentifier, flowing_. wp_steps. destruct (flowing (bld b)) eqn:Hfl; cbn [negb]; wp_steps.
  2: { apply HK; try done. pose proof (moves_refl b (re_wf _ _ _ Hr)) as [[] Hs]. split; [|done]. by constructor; cbn in *. }
  destruct (re_cur _ _ _ Hr) as (c & Hc & _). pose proof (flowing_declaring _ Hfl) as Hd.
  apply wp_t_resolve; [apply Hr|]. intros sym Hsym. wp_steps.
  set (t1 := match sym with Some s => set_refs (<[nid n := s]> (t_refs (tab b))) (tab b)
                          | None => set_lookup ({[nid n]} ∪ t_globals (tab b)) (<[nid n := cur (bnd (bld b))]> (t_lookupScopes (tab b))) (tab b) end).
  apply (wp_mono _ (λ _ b', b' = set_tab t1 b) _ X X); [by destruct sym; unfold table_; wp_steps| |done].
  cbv beta. intros [] b' ->. wp_steps. unfold table_ at 1. wp_steps.
  set (t2 := set_access n (flow (bld b)) (container (bld b)) (ord (bld b)) (cur (bnd (bld b))) t1).
  assert (∀ t3, marks t2 t3 → moves (pident (nid n)) b (set_tab t3 b)) as Hmoves.
  { intros t3 (H1 & H2 & H3 & H4). apply (moves_access n b sym t3 c); try done; [apply Hr| | | |].
    all: rewrite ?H1, ?H2, ?H3, ?H4; by destruct sym. }
  assert (∀ t3 b', marks t2 t3 → tab b' = t3 → later F (pident (nid n)) b' →
    sym = t_refs (tab F) !! nid n ∧ arc_ok F b' (mkArc (env_of b) (flow (bld b)) (flow (bld b)) (use (nid n)))) as Huse.
  { intros t3 b' (H1 & H2 & H3 & _) Hb' [_ Ht _ _]. destruct (Ht (nid n)) as (E1 & E2 & E3); [by left|].
    rewrite Hb', H1 in E1. rewrite Hb', H2 in E2. rewrite Hb', H3 in E3. split.
    - rewrite <-E1. unfold t2, t1. destruct sym; cbn; [by rewrite lookup_insert_eq|].
      symmetry. exact (Forall_inv (re_refs _ _ _ Hr Hd)).
    - split; [|by intros ? ? ? []]. intros tr o Hlive [-> [->| ->]]; [constructor|].
      exists (flow (bld b)). rewrite <-E2, <-E3. unfold t2, t1. destruct sym; cbn; rewrite !lookup_insert_eq; (split_and!; [done|constructor|done]). }
  destruct (writing (ctl b)) eqn:Hw; wp_steps.
  2: { apply HK; try done; [by apply Hmoves|]. intros _ Hla src _. by eapply (Huse t2). }
  unfold table_. wp_steps. set (t3 := set_marks _ _ _ _). set (b3 := set_tab t3 b).
  assert (marks t2 t3) as Hm3 by done. pose proof (Hmoves t3 Hm3) as Hmv.
  apply (wp_t_assign F b3); [apply Hmv|by intros s Hs; apply Hsym|]. intros b4 Hst Hev.
  apply HK; [eapply moves_r; [exact Hmv|apply step_moves; [apply Hmv|done]]|by destruct Hst as [_ (_ & -> & _) _ _]|by rewrite (sp_ctl _ _ Hst)|].
  intros _ Hla src Hsrc. destruct (Huse t3 b4) as [Heq Harc]; [done|by rewrite (sp_tab _ _ Hst)|done|].
  unfold identifier_code. eapply (arc_seq F Hzero); [exact Harc|]. split; [|by intros ? ? ? []].
  apply between_emit. intros Hlive. apply Hev; [done|apply Hla| |done].
  cbn. by split_and!.
Qed.

Lemma rule_identifier m k l n name : spec k (pident (nid n)) l l (lim m (use (nid n))) (visitIdentifier n name).
Proof.
  eapply spec_sub; [|apply lim_le]. intros b X Hr Hi Hl. eapply wp_identifier; [exact Hr|]. intros b' Hm Hst Hctl Hc.
  constructor; [done|intros x Hx; rewrite Hctl; by apply Hl|]. intros Hf Hla. destruct Hi as [_ Hw Hs].
  specialize (Hc Hf Hla None Hs). by rewrite Hw in Hc.
Qed.

(** A visit to an identifier, whatever is being stored. *)
Definition visits_identifier (k : key) (n : Node) (m : TravM unit) : Prop :=
  ∀ b (K : unit → trav → Prop) X, ready k (plan_of k n) b →
  (∀ b', moves (plan_of k n) b b' → storing (bld b') = storing (bld b) → ctl b' = ctl b →
     (flowing (bld b) = true → later F (plan_of k n) b' → ∀ src, source_ok b src →
        arc_ok F b' (mkArc (env_of b) (flow (bld b)) (flow (bld b')) (identifier_code (writing (ctl b)) (nid n) src))) → K tt b') →
  wp m K X b.

Lemma visit_one_identifier k n name visit :
  nkind n = Identifier name → visits_identifier k n (visit_one visit n).
Proof.
  intros Hn b K X Hr HK. unfold visit_one, flowing_, extendsAssignments. rewrite Hn. wp_steps.
  assert (plan_of k n = pvisit (pident (nid n))) as Hplan by (destruct n as [i p kind]; cbn in Hn; by subst kind).
  rewrite Hplan in *. destruct (flowing (bld b)) eqn:Hfl; cbn [negb]; wp_steps; unfold visitNode; rewrite Hn; wp_steps.
  2: { eapply wp_identifier; [by apply (ready_cost k _ b 0) in Hr; [|cbn; lia]|]. intros b' [[] Hs] Hst Hctl _.
       apply HK; [split; [|done]; constructor; cbn in *; try done; lia|done..]. }
  apply wp_fl. unfold enterStmt. wp_steps.
  pose proof (bwf_enter b false (tw_bld _ (re_wf _ _ _ Hr)) ltac:(pose proof (re_ord _ _ _ Hr); cbn in *; lia)) as Hwf1. cbn iota in Hwf1.
  fold (with_ord (ord (bld b) + 1) (stmts (bld b)) (lastAssign (bld b)) b). set (b1 := with_ord _ _ _ b) in *.
  eapply wp_identifier; [by apply ready_ord|]. intros b2 [Hc Hs] Hst Hctl Hcl. wp_steps.
  assert (with_ord (ord (bld b2)) (stmts (bld b2)) (lastAssign (bld b2)) b2 = b2) as Heq by (by destruct b2 as [[] ? ?]).
  apply HK; [split| | |]; [|destruct Hs; by constructor|done|done|].
  - rewrite <-Heq. eapply core_ord; [exact Hc|lia| |done|]; [rewrite Heq; apply Hc|apply Hc].
  - intros _ [Hw Ht Hsy Hsc]. by apply Hcl.
Qed.

(** ** While something is stored *)

Lemma core_storing_l P b b' st : core P (with_storing st b) b' → core P b b'.
Proof. intros [[] ? ? ? ? ? ? Hop ? ? ?]. by constructor. Qed.

(** From [b], with [st] for what is stored and in the control [c], to [b2]; [st'] is put back. *)
Lemma sf_stored k l P Q R b0 b arcs st st' c b2 B :
  so_far F k l P (padd Q R) b0 b arcs → moves Q (set_ctl c (with_storing st b)) b2 → plain_store st' = false →
  c = ctl b ∨ c = set_writing true (ctl b) → ctl b2 = c →
  (flowing (bld b0) = true → later F (padd P Q) b2 → arc_ok F b2 (mkArc (env_of b0) (flow (bld b)) (flow (bld b2)) B)) →
  so_far F k l (padd P Q) R b0 (set_ctl (ctl b) (with_storing st' b2))
    (mkArc (env_of b0) (flow (bld b)) (flow (bld b2)) B :: arcs).
Proof.
  intros S [Hc Hs] Hst Hctl Hc2 Harc.
  assert (moves Q b (set_ctl (ctl b) (with_storing st' b2))) as Hm.
  { split; [|destruct Hs; by constructor]. apply (core_ctl Q b (with_storing st' b2)); try done.
    eapply core_storing, core_storing_l. by eapply core_ctl, Hc. }
  apply (sf_advance F _ _ l _ _ _ _ _ _ _ [_] S Hm); [apply S|]. intros Hf [Hw Ht Hsy Hsc] _.
  apply Forall_singleton. apply Harc; [done|]. by constructor.
Qed.

Lemma wp_storeTo l b (K : unit → trav → Prop) X :
  twf b →
  (∀ b', step b b' →
     (flowing (bld b) = true → within F b' → t_refs (tab F) !! nid l = t_refs (tab b) !! nid l → ∀ src, source_ok b src →
        arc_ok F b' (mkArc (env_of b) (flow (bld b)) (flow (bld b')) (emit (EStore (TId (nid l)) src false true)))) → K tt b') →
  wp (storeTo l) K X b.
Proof.
  intros Hb HK. unfold storeTo, flowing_. wp_steps. destruct (flowing (bld b)) eqn:Hf; wp_steps.
  2: { apply HK; [by apply step_refl|done]. }
  apply (wp_t_assign F); [done|intros s Hs; by apply (tw_refs _ Hb _ _ Hs)|]. intros b' Hst Hev. apply HK; [done|].
  intros _ Hw Heq src Hsrc. split; [|by intros ? ? ? []]. apply between_emit. intros Hlive. by apply Hev.
Qed.

Lemma ready_outer k P b c st :
  ready k P b → jumps c = jumps (ctl b) → returnTo c = returnTo (ctl b) → ready k P (set_ctl c (with_storing st b)).
Proof.
  intros [[[[]]] [Hj Hret] ? ? ? ? ? ? ? ?] H1 H2. constructor; try done.
  unfold targets_ok. cbn. rewrite H1, H2. done.
Qed.

Lemma set_ctl_same b : set_ctl (ctl b) b = b.
Proof. by destruct b. Qed.

(** A store through the identifier just visited. *)
Lemma wp_store_only k l P R b0 b arcs i s K X :
  so_far F k l P R b0 b arcs → nid i ∈ idents P →
  (∀ b', so_far F k l P R b0 b'
           (mkArc (env_of b0) (flow (bld b)) (flow (bld b')) (emit (EStore (TId (nid i)) (Some s) false true)) :: arcs) →
     graph_grows (nodes (bld b)) (nodes (bld b')) → K tt b') →
  wp (set_storing (Some s) ≫= λ _, storeTo i ≫= λ _, set_storing None) K X b.
Proof.
  intros S Hi HK. wp_steps. apply wp_set_storing. wp_steps. set (b1 := with_storing _ b).
  assert (ready k R b1) as Hr1.
  { pose proof (ready_outer k R b (ctl b) (Some s) (sf_ready _ _ _ _ _ _ _ _ S) eq_refl eq_refl) as H. exact H. }
  apply wp_storeTo; [apply Hr1|]. intros b2 Hst Harc. wp_steps. apply wp_set_storing.
  assert (so_far F k l P R b0 (set_ctl (ctl b) (with_storing None b2))
    (mkArc (env_of b0) (flow (bld b)) (flow (bld b2)) (emit (EStore (TId (nid i)) (Some s) false true)) :: arcs)) as S2.
  { rewrite <-(padd_p0_r P). rewrite <-(padd_p0_l R) in S.
    eapply (sf_stored k l P p0 R b0 b arcs (Some s) None (ctl b) b2); [done|apply step_moves; [apply Hr1|done]|done|by left|by rewrite (sp_ctl _ _ Hst)|].
    intros Hf [Hw Ht _ _]. pose proof (env_same _ _ (proj2 (sf_moves _ _ _ _ _ _ _ _ S))) as <-.
    apply (Harc ltac:(by rewrite <-(sf_flowing F S) in Hf) Hw); [|done].
    destruct (Ht (nid i)) as (<- & _); [cbn; by rewrite app_nil_r|]. by rewrite (sp_tab _ _ Hst). }
  apply HK; [|apply (step_graph _ _ Hst)]. replace (with_storing None b2) with (set_ctl (ctl b) (with_storing None b2)); [exact S2|].
  assert (ctl b2 = ctl b) as <- by apply (sp_ctl _ _ Hst). done.
Qed.

(** A visit as the target of a store. *)
Lemma wp_written k l P R b0 b arcs t s st' m (K : unit → trav → Prop) X :
  so_far F k l P (padd (plan_of k t) R) b0 b arcs → visits_identifier k t m → plain_store st' = false →
  (∀ b2, ctl b2 = set_writing true (ctl b) →
     so_far F k l (padd P (plan_of k t)) R b0 (set_ctl (ctl b) (with_storing st' b2))
       (mkArc (env_of b0) (flow (bld b)) (flow (bld b2)) (seq (use (nid t)) (emit (EStore (TId (nid t)) (Some s) false true))) :: arcs) →
     K tt b2) →
  wp m K X (set_ctl (set_writing true (ctl b)) (with_storing (Some s) b)).
Proof.
  intros S Hm Hst HK. set (b1 := set_ctl _ _).
  apply Hm; [apply ready_outer; [eapply ready_first, S|done..]|]. intros b2 Hmv Hs2 Hc2 Harc. apply HK; [exact Hc2|].
  eapply sf_stored; [exact S|exact Hmv|exact Hst|by right|exact Hc2|]. intros Hf Hla.
  pose proof (env_same _ _ (proj2 (sf_moves _ _ _ _ _ _ _ _ S))) as <-.
  apply (Harc ltac:(by rewrite <-(sf_flowing F S) in Hf) (later_right F _ _ _ Hla) (Some s) eq_refl).
Qed.

Lemma writing_back b b2 : idle b → ctl b2 = set_writing true (ctl b) → set_writing false (ctl b2) = ctl b.
Proof. intros [_ Hw _] ->. unfold set_writing. cbn. rewrite <-Hw. by destruct (ctl b). Qed.

Lemma wp_store_plain k l P R b0 b arcs t s m (K : unit → trav → Prop) X :
  so_far F k l P (padd (plan_of k t) R) b0 b arcs → visits_identifier k t m →
  (∀ b', so_far F k l (padd P (plan_of k t)) R b0 b'
           (mkArc (env_of b0) (flow (bld b)) (flow (bld b')) (seq (use (nid t)) (emit (EStore (TId (nid t)) (Some s) false true))) :: arcs) →
     K tt b') →
  wp (set_storing (Some s) ≫= λ _, (control_ (set_writing true) ≫= λ _, m ≫= λ _, control_ (set_writing false)) ≫= λ _,
      set_storing None) K X b.
Proof.
  intros S Hm HK. wp_steps. apply wp_set_storing. wp_steps. unfold control_ at 1. wp_steps.
  eapply (wp_written k l P R b0 b arcs t s None); [exact S|exact Hm|done|]. intros b2 Hc2 S2. wp_steps. unfold control_. wp_steps.
  apply wp_set_storing. apply HK. cbn [ctl set_ctl set_bld with_storing bld]. rewrite (writing_back b b2); [exact S2|apply S|done].
Qed.
Lemma wp_store_target k l P R b0 b arcs t m (K : unit → trav → Prop) X :
  so_far F k l P (padd (plan_of k t) R) b0 b arcs → visits_identifier k t m →
  (∀ b', so_far F k l (padd P (plan_of k t)) R b0 b'
           (mkArc (env_of b0) (flow (bld b)) (flow (bld b')) (seq (use (nid t)) (emit (EStore (TId (nid t)) (Some t) false true))) :: arcs) →
     K tt b') →
  wp (saved ← gets (λ b, storing (bld b)); set_storing (Some t) ≫= λ _, control_ (set_writing true) ≫= λ _, m ≫= λ _,
      set_storing saved ≫= λ _, control_ (set_writing false)) K X b.
Proof.
  intros S Hm HK. wp_steps. apply wp_set_storing. wp_steps. unfold control_ at 1. wp_steps.
  eapply (wp_written k l P R b0 b arcs t t (storing (bld b))); [exact S|exact Hm|apply S|]. intros b2 Hc2 S2. wp_steps.
  apply wp_set_storing. wp_steps. unfold control_. wp_steps.
  apply HK. cbn [ctl set_ctl set_bld with_storing bld]. rewrite (writing_back b b2); [exact S2|apply S|done].
Qed.

(** [x op= ...]: the identifier is read, then stored to. *)
Lemma wp_store_compound k l P R b0 b arcs t s m (K : unit → trav → Prop) X :
  nid t ∈ idents (plan_of k t) →
  so_far F k l P (padd (plan_of k t) R) b0 b arcs → visits_identifier k t m →
  (∀ b', so_far F k l (padd P (plan_of k t)) R b0 b'
           (mkArc (env_of b0) (flow (bld b)) (flow (bld b')) (seq (use (nid t)) (emit (EStore (TId (nid t)) (Some s) false true))) :: arcs) →
     K tt b') →
  wp (set_storing (Some s) ≫= λ _, (m ≫= λ _, storeTo t) ≫= λ _, set_storing None) K X b.
Proof.
  intros Hin S Hm HK. wp_steps. apply wp_set_storing. wp_steps. set (b1 := with_storing (Some s) b).
  assert (ready k (padd (plan_of k t) R) b1) as Hr1 by exact (ready_outer k _ b (ctl b) (Some s) (sf_ready _ _ _ _ _ _ _ _ S) eq_refl eq_refl).
  assert (writing (ctl b1) = false) as Hw by apply (sf_idle _ _ _ _ _ _ _ _ S).
  apply Hm; [by eapply ready_first|]. intros b2 Hmv Hs2 Hc2 Harc. wp_steps.
  apply wp_storeTo; [apply Hmv|]. intros b3 Hst Harc'. wp_steps. apply wp_set_storing.
  assert (moves (plan_of k t) b1 b3) as Hmv3 by (eapply moves_r; [exact Hmv|apply step_moves; [apply Hmv|done]]).
  assert (ctl b3 = ctl b) as Hc3 by (by rewrite (sp_ctl _ _ Hst)).
  replace (with_storing None b3) with (set_ctl (ctl b) (with_storing None b3)) by (by rewrite <-Hc3).
  apply HK, (sf_stored k l P (plan_of k t) R b0 b arcs (Some s) None (ctl b) b3); [exact S|exact Hmv3|done|by left|done|]. intros Hf Hla%later_right.
  pose proof (env_same _ _ (proj2 (sf_moves _ _ _ _ _ _ _ _ S))) as HE.
  assert (flowing (bld b1) = true) as Hf1 by (by rewrite <-(sf_flowing F S) in Hf).
  assert (flowing (bld b2) = true) as Hf2 by (by rewrite (flowing_same _ _ (proj2 Hmv))).
  assert (later F (plan_of k t) b2) as Hla2.
  { eapply (later_back F _ p0); [exact Hla|apply step_moves; [apply Hmv|done]|by apply flowing_declaring|by intros i _ ?%elem_of_nil]. }
  specialize (Harc Hf1 Hla2 (Some s) eq_refl). rewrite Hw in Harc. eapply (arc_seq F Hzero).
  - rewrite <-HE. eapply arc_ok_mono; [apply step_graph, Hst|exact Harc].
  - assert (env_of b0 = env_of b2) as -> by (rewrite (env_same _ _ (proj2 Hmv)); by rewrite <-HE).
    apply (Harc' Hf2 (la_graph _ _ _ Hla)); [|by cbn; rewrite Hs2]. destruct (la_tables _ _ _ Hla _ Hin) as (<- & _).
    by rewrite (sp_tab _ _ Hst).
Qed.
End visits.
