(* ===== verification/TraverseCases.v ===== *)
(** * The rules of the remaining cases of [visitNode]

    Assignments and calls, labeled statements, switch and try. *)

From S2P Require Import Prelude GoString Diag Ast Symbols SymbolFacts Flow FlowWalk FlowFacts Traverse Exec.
From S2P Require Import FlowPath TraverseFacts TraverseNames TraverseSpec TraverseRules TraverseLeaves TraverseStores.
Open Scope Z_scope.

(** The arcs wanted, from those there are. *)
Ltac subseteq_tac :=
  let x := fresh in let H := fresh in intros x H; cbn [app] in *; rewrite ?elem_of_app, ?elem_of_cons, ?elem_of_nil in *; tauto.

Section cases.
Context (F : trav) (Hzero : nodes (bld F) !! unreachableFlow = Some unreachable_node) (m : mode).
Abbreviation spec := (spec F).

(** ** Assignments *)

Lemma wp_sf_storeTo k l P R b0 b arcs i (K : unit → trav → Prop) X :
  so_far F k l P R b0 b arcs → nid i ∈ idents P →
  (∀ b', so_far F k l P R b0 b'
           (mkArc (env_of b0) (flow (bld b)) (flow (bld b')) (emit (EStore (TId (nid i)) None false true)) :: arcs) → K tt b') →
  wp (storeTo i) K X b.
Proof.
  intros S Hi HK. pose proof (sf_ready _ _ _ _ _ _ _ _ S) as Hr. apply (wp_storeTo F); [apply Hr|]. intros b' Hst Harc. apply HK.
  apply (sf_step F k l P R b0 b b' arcs [_] S Hst). intros Hf [Hw Ht _ _]. apply Forall_singleton.
  pose proof (env_same _ _ (proj2 (sf_moves _ _ _ _ _ _ _ _ S))) as <-.
  apply (Harc ltac:(by rewrite <-(sf_flowing F S) in Hf) Hw); [|apply (sf_idle _ _ _ _ _ _ _ _ S)].
  destruct (Ht _ Hi) as (<- & _). by rewrite (sp_tab _ _ Hst).
Qed.

Lemma rule_update k l visit arg P A :
  (∀ name, nkind arg = Identifier name → nid arg ∈ idents P) → spec k P l l (lim m A) (visit arg) →
  spec k P l l
    (lim m (seq A (match nkind arg with Identifier _ => emit (EStore (TId (nid arg)) None false true) | _ => skip end)))
    (visitUpdate visit arg).
Proof.
  intros Hin H. set (B := match nkind arg with Identifier _ => _ | _ => _ end).
  eapply (spec_sub F _ _ _ _ _ (seq (lim m A) B)); [|lim_tac m].
  intros b X Hr Hi Hl. unfold visitUpdate. wp_steps. eapply (wp_last F); [by apply sf_start|exact H|].
  intros b1 S1 _. wp_steps. rewrite padd_p0_l in S1.
  assert (B = skip → post F P l (seq (lim m A) B) b b1) as Hskip.
  { intros ->. arcs_known S1 as (HA & _). eapply (arc_seq F Hzero); [exact HA|apply arc_refl]. }
  destruct (nkind arg) eqn:Hk; try (wp_steps; by apply Hskip).
  eapply wp_sf_storeTo; [exact S1|by eapply Hin|]. intros b2 S2. arcs_known S2 as (HB & HA & _). by eapply (arc_seq F Hzero).
Qed.

Lemma rule_logical_assignment k l visit n op x y Px Py A C :
  nid x ∈ idents Px → spec k Px l l (lim m A) (visit x) → spec k Py l l (lim m C) (visit y) →
  spec k (padd Px Py) l l
    (lim m (seq A (perhaps (seq C (emit (EStore (TId (nid x)) (Some n) false true))))))
    (visitLogicalAssignment visit n op x y).
Proof.
  intros Hin H1 H2. set (B := emit _). eapply (spec_sub F _ _ _ _ _ (seq (lim m A) (perhaps (seq (lim m C) B)))); [|lim_tac m].
  intros b X Hr Hi Hl. unfold visitLogicalAssignment, here. wp_steps. set (test := if bool_decide _ then _ else _).
  eapply (wp_part F); [by apply sf_start|exact H1|]. intros b1 S1 _. wp_steps. rewrite padd_p0_l in S1.
  pose proof (node_in_flow _ _ _ (sf_ready _ _ _ _ _ _ _ _ S1)) as Hpre.
  eapply (wp_sf_goCondition F S1); [done|]. intros b2 S2 G2. wp_steps.
  eapply (wp_last F); [exact S2|exact H2|]. intros b3 S3 G3. wp_step. apply wp_three.
  eapply wp_store_only; [exact S3|by apply elem_of_app; left|]. intros b4 S4 G4. wp_steps.
  eapply (wp_sf_condition F S4); [still|]. intros r b5 S5 Hr5 Hf5 G5. wp_steps.
  eapply (wp_sf_goJoin F S5); [done|by eapply node_in_flow, S5|]. rewrite Hf5. intros b6 S6 G6.
  arcs_known S6 as (J1 & J2 & HS & HB & HC & HP & HA & _). eapply (arc_seq F Hzero); [exact HA|]. apply arc_perhaps.
  - by eapply (arc_pre F Hzero); [exact HS|].
  - eapply (arc_via F Hzero); [exact HP| |exact J2]. by eapply (arc_seq F Hzero).
Qed.

Lemma rule_assign k l visit n x y Px Py C (op : string) :
  (∃ name, nkind x = Identifier name) → Px = plan_of k x → nid x ∈ idents Px →
  bool_decide (op = "&&=") || bool_decide (op = "||=") || bool_decide (op = "??=") = false →
  visits_identifier F k x (visit x) → spec k Py l l (lim m C) (visit y) →
  spec k (padd Py Px) l l
    (lim m (seq C (seq (use (nid x)) (emit (EStore (TId (nid x)) (Some n) false true)))))
    (visitAssignment visit n op x y).
Proof.
  intros [name Hx] -> Hin Hop Hv H. set (B := seq (use _) _). eapply (spec_sub F _ _ _ _ _ (seq (lim m C) B)); [|lim_tac m].
  intros b X Hr Hi Hl. unfold visitAssignment. rewrite Hx, Hop. wp_steps.
  eapply (wp_part F); [apply (sf_start F); [by rewrite <-(padd_p0_r (plan_of k x)) in Hr|done..]|exact H|].
  intros b1 S1 _. wp_step. apply wp_then.
  assert (∀ b', so_far F k l (padd (padd p0 Py) (plan_of k x)) p0 b b'
           (mkArc (env_of b) (flow (bld b1)) (flow (bld b')) B :: [mkArc (env_of b) (flow (bld b)) (flow (bld b1)) (lim m C)]) →
    post F (padd Py (plan_of k x)) l (seq (lim m C) B) b b') as Hend.
  { intros b' S'. rewrite padd_p0_l in S'. arcs_known S' as (HB & HC & _). by eapply (arc_seq F Hzero). }
  destruct (bool_decide (op = "=")).
  - eapply wp_store_plain; [exact S1|exact Hv|exact Hend].
  - eapply wp_store_compound; [done|exact Hin|exact S1|exact Hv|exact Hend].
Qed.

(** ** Calls and stores to properties, noted in the flow *)

Lemma wp_followFlow k l P R b0 b arcs flags n (K : unit → trav → Prop) X :
  so_far F k l P R b0 b arcs → flags = FlowCall ∨ flags = FlowPropertyAssignment →
  (∀ b', so_far F k l P R b0 b' (mkArc (env_of b0) (flow (bld b)) (flow (bld b')) skip :: arcs) → K tt b') →
  wp (followFlow flags n) K X b.
Proof.
  intros S Hfl HK. unfold followFlow. wp_steps. destruct (flowing (bld b)) eqn:Hf, (Nat.eqb_spec (flow (bld b)) unreachableFlow) as [He|Hne];
    cbn [negb andb]; wp_steps.
  2: { pose proof (re_wf _ _ _ (sf_ready _ _ _ _ _ _ _ _ S)) as Hwf. set (nd := mkFlowNode _ _ _ _ _ _ _ _ _ _).
       apply wp_fl, wp_keeps; [apply keeps_alloc|]. apply wp_alloc; [apply Hwf| |].
       { destruct Hfl as [-> | ->]; (constructor; try done; [|constructor..]); intros p [= <-]; (split; [done|apply Hwf]). }
       intros x Haf Hn Hk. assert (step b (set_bld x b)) as Hst by (by constructor).
       apply wp_go; [by eapply step_wf|by eapply lookup_lt_Some|]. intros b2 Hst2 Hf2 Hn2. apply HK.
       apply (sf_step F k l P R b0 b b2 arcs [_] S (step_trans _ _ _ Hst Hst2)). intros _ [Hw _ _ _]. apply Forall_singleton, arc_passes.
       rewrite Hf2. apply (leads_edge F b2 _ _ nd); [by rewrite Hn2|by left| |done]. by destruct Hfl as [-> | ->]. }
  all: apply HK, sf_conclude; [done|]; intros _ _ _; apply arc_refl.
Qed.

(** A part, then what is noted of it. *)
Lemma rule_followed k l n flags (note : bool) P A m1 :
  flags = FlowCall ∨ flags = FlowPropertyAssignment → spec k P l l (lim m A) m1 →
  spec k P l l (lim m A) (m1 ≫= λ _, if note then followFlow flags n else mret tt).
Proof.
  intros Hfl H b X Hr Hi Hl. wp_steps. eapply (wp_last F); [by apply sf_start|exact H|]. intros b1 S1 _. wp_steps.
  rewrite padd_p0_l in S1. destruct note; wp_steps.
  - eapply wp_followFlow; [exact S1|done|]. intros b2 S2. arcs_known S2 as (HF & HA & _). by eapply (arc_post F Hzero).
  - arcs_known S1 as (HA & _). exact HA.
Qed.

(** ** Labels *)

(** A body inside a target that only breaks reach, and what it goes on to. *)
Lemma rule_labeled k label (visit : Node → TravM unit) body P A :
  (m = Full → label ≠ "") → spec k P (lab m "") (lab m "") (lim m A) (visit body) →
  spec k P (lab m "") (lab m "") (lim m (labeled label A))
    (exit ← fl (newLabel FlowBranchLabel []);
     push_jump (mkJump label exit None true) ≫= λ _, visit body ≫= λ _,
     control_ (λ c, set_jumps (tail (jumps c)) c) ≫= λ _, addHere exit ≫= λ _, goFinish exit).
Proof.
  intros Hlabel H. eapply (spec_sub F _ _ _ _ _ (labeled label (lim m A))); [|lim_tac m].
  intros b X Hr Hi Hl. wp_steps.
  eapply (wp_sf_newLabel F (sf_start F _ _ _ _ Hr Hi Hl)); [by left|constructor|]. intros exit b1 S1 T1 _ _ Hf1 G1. wp_step.
  rewrite <-(padd_p0_r P) in S1. set (t := mkJump label exit None true).
  eapply (wp_in_jump F k (lab m "") (lab m "") t p0 P p0 b b1 _
    (λ _ b', [mkArc (in_jump t (env_of b)) (flow (bld b)) (flow (bld b')) (lim m A)]) (λ _ _, True)); [exact S1|done|done|..].
  { intros b2 Hr2 Hi2 Hl2 HE Hb2. eapply (wp_last F); [by apply (sf_start F)|exact H|]. intros b3 S3 _. rewrite padd_p0_l in S3.
    rewrite HE, Hb2, Hf1 in S3. done. }
  cbv beta. intros [] b2 S2 _ G2. unfold control_. wp_steps. fold (popped b2). rewrite padd_p0_l, padd_p0_r in *.
  eapply (wp_sf_fall_last F S2); [still|]. intros b3 S3 Hfin G3.
  arcs_known S3 as (Hfall & [HA HI] & _). split; [|exact HI].
  destruct (decide (m = Full)) as [He|Hne].
  - eapply (between_labeled F Hzero); [by apply Hlabel|exact HA|by eapply passes_arc|]. intros Ha. rewrite (Hfin Ha). apply passes_refl.
  - intros tr o Hf Hn. exfalso. destruct m; [|..|done]; destruct o; cbn in Hn; tauto.
Qed.
Lemma rule_labeled_loop k label l' (visit : Node → TravM unit) body P B :
  spec k P (lab m label) l' B (visit body) → spec k P (lab m "") l' B (control_ (set_pendingLabel label) ≫= λ _, visit body).
Proof.
  intros H b X Hr Hi Hl. unfold control_. wp_steps. set (b1 := set_ctl _ b).
  assert (moves p0 b b1) as Hm by (split; [apply (core_ctl _ b b); try done; apply core_refl, Hr|by constructor]).
  eapply wp_mono; [apply (H b1 X); [by eapply ready_p0|by eapply idle_same, Hm|by destruct m; intros ? [= <-]]| |done].
  cbv beta. intros [] b2 Hp. apply (post_l F P l' B b b1); [exact Hm|done|exact Hp].
Qed.

(** ** Switch

    What is visited: from one of the clauses on, each with its test. *)
Definition clause_code (run : Node → behaviour) (c : SwitchCase) : behaviour :=
  match c with mkCase t body => seq (maybe run t) (seqs run body) end.
Definition falls (run : Node → behaviour) : list SwitchCase → behaviour := seqs (clause_code run).
Fixpoint enterings (run : Node → behaviour) (cases : list SwitchCase) : behaviour :=
  match cases with
  | [] => nothing
  | c :: rest => either (seq (clause_code run c) (falls run rest)) (enterings run rest)
  end.

Lemma wp_visitCases k l visit n pre (run : Node → behaviour) (Pc : SwitchCase → plan) cases P0 R b0 b arcs i through
    (K : nat → trav → Prop) X :
  so_far F k l P0 (padd (psum Pc cases) R) b0 b arcs → node_in b pre → node_in b through →
  (∀ c, c ∈ cases → match c with mkCase t body =>
     spec k (Pc c) l l (lim m (clause_code run c)) (opt visit t ≫= λ _, statements visit body) end) →
  (∀ t' b', so_far F k l (padd P0 (psum Pc cases)) R b0 b'
              ([mkArc (env_of b0) pre t' (lim m (enterings run cases)); mkArc (env_of b0) through t' (lim m (falls run cases))] ++ arcs) →
     node_in b' pre → node_in b' t' → graph_grows (nodes (bld b)) (nodes (bld b')) → K t' b') →
  wp (visitCases visit n pre i cases through) K X b.
Proof.
  revert P0 b arcs i through. induction cases as [|[t body] cases IH]; intros P0 b arcs i through S Hpre Hthr H HK.
  { cbn [visitCases psum falls enterings seqs] in *. wp_steps. apply HK; [|done..]. rewrite padd_p0_r. rewrite padd_p0_l in S.
    do 2 (apply sf_conclude; [|intros _ _ _; apply arc_lim; first [apply arc_refl|apply arc_nothing]]). exact S. }
  change (psum Pc (mkCase t body :: cases)) with (padd (Pc (mkCase t body)) (psum Pc cases)) in *. cbn [visitCases].
  rewrite <-padd_assoc in S. unfold here. wp_steps.
  eapply (wp_sf_switchClause F S); [done|]. intros c b1 S1 Hc Hf1 G1. wp_steps.
  eapply (wp_sf_goJoin F S1); [done|still|]. intros b2 S2 G2. wp_step. apply wp_two.
  pose proof (H (mkCase t body) ltac:(by left)) as Hcase. cbn iota in Hcase.
  eapply (wp_part F); [exact S2|exact Hcase|]. intros b3 S3 G3. wp_steps.
  eapply IH; [exact S3|still|by eapply node_in_flow, S3|intros c' Hc'; apply H; by right|].
  intros t' b4 S4 Hp4 Ht4 G4. rewrite <-padd_assoc in S4. apply HK; [|done|done|by do 3 (etrans; [done|])].
  cbn [app] in *. eapply (sf_drop F _ _ _ _ _ _ (mkArc (env_of b0) pre t' (lim m (enterings run (mkCase t body :: cases)))
    :: mkArc (env_of b0) through t' (lim m (falls run (mkCase t body :: cases))) :: _)).
  - apply sf_conclude; [apply sf_conclude; [exact S4|]|]; intros _ _ Hall; arcs_in Hall.
    + destruct Hall as (HE & HF & HC & J1 & J2 & HS & _). eapply arc_sub; [|eapply (arc_pre F Hzero); [exact J2|by eapply (arc_seq F Hzero)]].
      lim_tac m.
    + destruct Hall as (_ & HE & HF & HC & J1 & J2 & HS & _).
      eapply arc_sub; [|apply arc_either; [eapply (arc_pre F Hzero); [exact HS|eapply (arc_pre F Hzero); [exact J1|by eapply (arc_seq F Hzero)]]|exact HE]].
      lim_tac m.
  - subseteq_tac.
Qed.

Lemma arc_switched b E exit f g h A :
  arc_ok F b (mkArc (in_jump (mkJump "" exit None false) E) f g A) → passes F g h → (has_ants b exit → passes F exit h) →
  arc_ok F b (mkArc E f h (switched A)).
Proof. intros [H I] Hg Hh. split; [by eapply between_switched|done]. Qed.

Definition switch_code (run : Node → behaviour) (cases : list SwitchCase) : behaviour :=
  either (enterings run cases) (if has_default cases then nothing else skip).

Lemma rule_switch k visit n d cases Pd Pc A (run : Node → behaviour) :
  let at_ := (nid n, 0%nat) in
  spec k Pd (lab m "") (lab m "") (lim m A) (visit d) →
  (∀ c, c ∈ cases → match c with mkCase t body =>
     spec at_ (Pc c) (lab m "") (lab m "") (lim m (clause_code run c)) (opt visit t ≫= λ _, statements visit body) end) →
  spec k (padd Pd (popen at_ BlockScope k (psum Pc cases))) (lab m "") (lab m "")
    (lim m (seq A (seq (emit (EEnter at_)) (switched (switch_code run cases))))) (visitSwitch visit n d cases).
Proof.
  intros at_ H1 H2. unfold visitSwitch. eapply rule_seq; [done|exact H1|]. clear H1.
  set (B := either (switched (lim m (enterings run cases))) (if has_default cases then nothing else skip)).
  eapply (spec_sub F _ _ _ _ _ (seq (emit (EEnter at_)) B)).
  2: { unfold B, switch_code. destruct (has_default cases), m; (split; [try done; try (by intros ? ? [])|try done; cbn; tauto]); intros tr o Hn.
       all: destruct Hn as [[[_ ->] ?]|(t1 & t2 & -> & ? & Hn)]; [done|right; exists t1, t2; split_and!; [done..|]]; destruct o; cbn in *; tauto. }
  intros b X Hr Hi Hl. unfold here. wp_steps. eapply wp_enter_scope; [done..|]. intros s b1 Hen Hr1 Hi1 Hl1 Hc. wp_steps.
  eapply (wp_sf_scopeStart F (sf_start F _ _ _ _ Hr1 Hi1 Hl1)); [done|]. intros b2 S2 G2. wp_steps.
  pose proof (node_in_flow _ _ _ (sf_ready _ _ _ _ _ _ _ _ S2)) as Hpre.
  eapply (wp_sf_newLabel F S2); [by left|constructor|]. intros exit b3 S3 T3 _ _ Hf3 G3. wp_steps. cbn [map app] in S3.
  eapply wp_takeLabel; [exact S3|]. intros lb b4 Hlb S4 Hb4. wp_step. rewrite <-(padd_p0_r (psum Pc cases)) in S4.
  set (t := mkJump lb exit None false).
  eapply (wp_in_jump F at_ (lab m "") (lab m "") t p0 (psum Pc cases) p0 b1 b4 _
    (λ through b', [mkArc (in_jump t (env_of b1)) (flow (bld b2)) through (lim m (enterings run cases))])
    (λ through b', node_in b' through ∧ node_in b' (flow (bld b2)))); [exact S4|by unfold is_target in *; rewrite Hb4|done|..].
  { intros b5 Hr5 Hi5 Hl5 HE Hb5. rewrite <-(padd_p0_r (psum Pc cases)) in Hr5.
    eapply wp_visitCases; [by apply (sf_start F)|unfold node_in; rewrite Hb5, Hb4; still|by unfold node_in; rewrite Hb5, Hb4; apply twf_zero, S3| |].
    - exact H2.
    - intros t' b6 S6 Hp6 Ht6 _. rewrite padd_p0_l in S6. split; [|done]. rewrite HE in S6.
      eapply (sf_drop F); [exact S6|]. intros x Hx%list_elem_of_singleton. subst x. by left. }
  cbv beta. intros through b5 S5 [Hth Hp5] G5. unfold control_. wp_steps. fold (popped b5). rewrite padd_p0_l in S5.
  assert (is_target (popped b5) exit) as T5.
  { apply (is_target_grows b4); [exact G5|]. unfold is_target. by rewrite Hb4. }
  eapply (wp_sf_addAntecedent F S5); [done|exact Hth|]. intros b6 S6 Ha6 Hf6 G6. wp_steps.
  assert (∀ b7 arcs, graph_grows (nodes (bld b6)) (nodes (bld b7)) →
    so_far F at_ (lab m "") (psum Pc cases) p0 b1 b7 arcs →
    (∀ b', Forall (arc_ok F b') arcs →
       arc_ok F b' (exit_arc (env_of b1) (has_default cases) exit (flow (bld b2)))
       ∧ arc_ok F b' (mkArc (env_of b1) through exit skip)
       ∧ arc_ok F b' (mkArc (in_jump t (env_of b1)) (flow (bld b2)) through (lim m (enterings run cases)))
       ∧ arc_ok F b' (mkArc (env_of b1) (flow (bld b1)) (flow (bld b2)) (emit (EEnter at_)))) →
    wp (goFinish exit ≫= λ _, bd leave)
      (λ _ b', post F (popen at_ BlockScope k (psum Pc cases)) (lab m "") (seq (emit (EEnter at_)) B) b b') X b7) as Hend.
  { intros b7 arcs G7 S7 Harcs. wp_steps. eapply (wp_sf_goFinish F S7); [still|]. intros b8 S8 Hfin G8.
    eapply wp_leave_with; [done|exact Hen|exact S8| |done]. intros Hf Hall. destruct (Harcs _ Hall) as (Hexit & Hthr & Hbody & Henter).
    eapply (arc_seq F Hzero); [exact Henter|]. apply arc_either.
    - destruct (decide (m = Blind)) as [->|Hne].
      { split; [|intros ? ? ? []]. intros tr o _ Hn. destruct o; cbn in Hn; tauto. }
      unfold t in Hbody. rewrite (Hlb Hne) in Hbody. eapply arc_switched; [exact Hbody| |].
      + intros Hlive. specialize (Ha6 Hlive). rewrite Hfin by still. by apply (passes_arc F _ _ _ _ Hthr).
      + intros Ha. rewrite (Hfin Ha). apply passes_refl.
    - eapply (arc_exits F Hzero); [apply arc_refl|exact Hexit|exact Hfin]. }
  fold (has_default cases). destruct (has_default cases) eqn:Hdef; wp_steps.
  - apply wp_then. eapply Hend; [done|apply sf_conclude; [exact S6|intros _ _ _; apply arc_nothing]|]. intros b' Hall. arcs_in Hall.
    destruct Hall as (H0 & Hthr & Hbody & Henter & _). by split_and!.
  - eapply (wp_sf_switchClause F S6); [by eapply node_in_grows, Hp5; etrans|]. intros c b7 S7 Hc7 Hf7 G7. wp_steps.
    eapply (wp_sf_addAntecedent F S7); [still|done|]. intros b8 S8 Ha8 Hf8 G8.
    eapply Hend; [by etrans|eapply (sf_conclude F _ _ _ _ _ _ _ (exit_arc (env_of b1) false exit (flow (bld b2)))); [exact S8|]|].
    + intros _ _ Hall. arcs_in Hall. destruct Hall as (H2' & H1' & _).
      eapply (arc_exit F Hzero); [by eapply passes_arc|by eapply passes_arc|exact Ha8].
    + intros b' Hall. arcs_in Hall. destruct Hall as (He & _ & _ & Hthr & Hbody & Henter & _). by split_and!.
Qed.

(** ** Try

    Only what the functions inside do is claimed. *)
Definition hush (A : behaviour) : behaviour := mkBehaviour (λ _ _, False) (inside A).
Lemma arc_hush b E f g A E' f' g' : arc_ok F b (mkArc E f g A) → arc_ok F b (mkArc E' f' g' (hush A)).
Proof. intros [_ HI]. split; [by intros ? ? ? []|done]. Qed.

Lemma wp_visitCatch k l visit n pre after param pattern body Pc C R P b0 b arcs (K : nat → trav → Prop) X :
  let at_ := (nid n, 1%nat) in
  so_far F k l P (padd (popen at_ CatchScope k Pc) R) b0 b arcs → node_in b pre → node_in b after →
  spec at_ Pc l l C (patternDefaults visit [] pattern ≫= λ _, opt (λ b, statements visit (stmts_of b)) body) →
  (∀ r b', so_far F k l (padd P (popen at_ CatchScope k Pc)) R b0 b' (mkArc (env_of b0) 0 0 (hush C) :: arcs) →
     node_in b' r → graph_grows (nodes (bld b)) (nodes (bld b')) → K r b') →
  wp (visitCatch visit n pre after (mkCatch param pattern body)) K X b.
Proof.
  intros at_ S Hpre Haft H HK. unfold visitCatch, here. wp_steps.
  eapply (wp_sf_go F S); [done|]. intros b1 S1 Hf1 Hn1 G1. wp_steps.
  pose proof (ready_first _ _ _ _ (sf_ready _ _ _ _ _ _ _ _ S1)) as Hr1.
  eapply wp_enter_scope; [exact Hr1|apply S1|apply S1|]. intros s b2 Hen Hr2 Hi2 Hl2 Hc. wp_steps.
  eapply (wp_sf_scopeStart F (sf_start F _ _ _ _ Hr2 Hi2 Hl2)); [done|]. intros b3 S3 G3. wp_steps.
  assert (∀ b', so_far F at_ l p0 Pc b2 b' ([mkArc (env_of b2) (flow (bld b2)) (flow (bld b3)) (emit (EEnter at_))] ++ []) →
    twf b' ∧ (s < length (scopes (bnd (bld b'))))%nat) as Hs.
  { intros b' S'. pose proof (re_wf _ _ _ (sf_ready _ _ _ _ _ _ _ _ S')) as Hwf. split; [done|].
    apply (wf_cur _ (bw_bnd _ (tw_bld _ Hwf))). by rewrite (sm_cur _ _ (proj2 (sf_moves _ _ _ _ _ _ _ _ S'))). }
  destruct (Hs b3 S3) as [Hwf3 Hs3]. apply wp_declare_then; [done..|]. intros b4 Hren4. wp_steps.
  pose proof (sf_renames F S3 _ Hren4) as S4. destruct (Hs b4 S4) as [Hwf4 Hs4].
  apply wp_declareIns; [done..|]. intros b5 Hren5. wp_step. pose proof (sf_renames F S4 _ Hren5) as S5.
  apply wp_two. eapply (wp_last F); [exact S5|exact H|]. intros b6 S6 G6. wp_steps. rewrite padd_p0_l in S6.
  eapply wp_leave_with; [exact Hr1|exact Hen|exact S6| |].
  { intros _ Hall. arcs_in Hall. destruct Hall as ([_ HC] & _).
    instantiate (1 := hush C). split; [by intros ? ? ? []|exact HC]. }
  intros b7 Hp7. wp_steps. pose proof (sf_part F _ _ _ _ _ _ _ _ _ _ _ S1 Hp7) as S7.
  apply wp_then_ret, (wp_t_join F); [apply S7| |].
  { assert (graph_grows (nodes (bld b1)) (nodes (bld b7))) as G7 by apply (po_moves _ _ _ _ _ _ Hp7).
    repeat constructor; [|by eapply node_in_flow, S7]. by apply (node_in_grows b1); [|apply (node_in_grows b)]. }
  intros r b8 Hst Hf8 Hr8 _. wp_steps. apply HK; [|done|].
  - pose proof (sf_step F k l _ R b0 b7 b8 _ [] S7 Hst ltac:(by constructor)) as S8.
    eapply (sf_drop F); [eapply (sf_conclude F _ _ _ _ _ _ _ (mkArc (env_of b0) 0 0 (hush C))); [exact S8|]|subseteq_tac].
    intros _ _ Hall. arcs_in Hall. destruct Hall as (HC & _). by eapply (arc_hush _ _ _ _ (hush C)), HC.
  - do 2 (etrans; [done|]). etrans; [apply (po_moves _ _ _ _ _ _ Hp7)|]. by apply step_graph.
Qed.

(** What is visited of a catch clause, if there is one. *)
Definition catches (k : key) (l : option string) (visit : Node → TravM unit) (n : Node) (c : option CatchClause) (Pc : plan) (C : behaviour) : Prop :=
  match c with
  | Some (mkCatch param pattern body) =>
      ∃ P, Pc = popen (nid n, 1%nat) CatchScope k P
           ∧ spec (nid n, 1%nat) P l l C (patternDefaults visit [] pattern ≫= λ _, opt (λ b, statements visit (stmts_of b)) body)
  | None => Pc = p0 ∧ ∀ f tr id, ¬ inside C f tr id
  end.

Lemma wp_body_catch k l visit n pre body c Pb Pc A C P R b0 b arcs {Z} (g : nat → TravM Z) (K : Z → trav → Prop) X :
  so_far F k l P (padd (padd Pb Pc) R) b0 b arcs → node_in b pre →
  spec k Pb l l A (visitBody visit body) → catches k l visit n c Pc C →
  (∀ r b', so_far F k l (padd P (padd Pb Pc)) R b0 b' (mkArc (env_of b0) 0 0 (hush (seq A C)) :: arcs) →
     node_in b' r → graph_grows (nodes (bld b)) (nodes (bld b')) → wp (g r) K X b') →
  wp (visitBody visit body) (λ _ b', wp (after ← here; after ← match c with Some c => visitCatch visit n pre after c | None => mret after end; g after) K X b') X b.
Proof.
  intros S Hpre H1 H2 HK. rewrite <-padd_assoc in S. eapply (wp_part F); [exact S|exact H1|]. intros b1 S1 G1. unfold here. wp_steps.
  pose proof (node_in_flow _ _ _ (sf_ready _ _ _ _ _ _ _ _ S1)) as Hn1. destruct c as [[param pattern cb]|]; cbn in H2.
  - destruct H2 as (P' & -> & H2). eapply wp_visitCatch; [exact S1|still|done|exact H2|]. intros r b2 S2 Hr G2. wp_steps.
    apply HK; [|done|by etrans]. rewrite <-padd_assoc in S2.
    eapply (sf_drop F); [eapply (sf_conclude F _ _ _ _ _ _ _ (mkArc (env_of b0) 0 0 (hush (seq A C)))); [exact S2|]|subseteq_tac].
    intros _ _ Hall. arcs_in Hall. destruct Hall as ([_ HC] & [_ HA] & _). split; [by intros ? ? ? []|]. by apply activates_seq.
  - destruct H2 as [-> HC]. wp_steps. apply HK; [|done|done]. rewrite padd_p0_r. rewrite padd_p0_l in S1.
    eapply (sf_drop F); [eapply (sf_conclude F _ _ _ _ _ _ _ (mkArc (env_of b0) 0 0 (hush (seq A C)))); [exact S1|]|subseteq_tac].
    intros _ _ Hall. arcs_in Hall. destruct Hall as ([_ HA] & _). split; [by intros ? ? ? []|]. apply activates_seq; [done|]. intros f tr id H. by apply HC in H.
Qed.

Definition with_targets (ts : list nat) (b : trav) : trav :=
  set_bld (set_walk (flow (bld b)) (container (bld b)) (fnScope (bld b)) ts (storing (bld b)) (bld b)) b.
Lemma wp_set_targets ts b (K : unit → trav → Prop) X : K tt (with_targets ts b) → wp (set_targets ts) K X b.
Proof. intros HK. unfold set_targets. apply wp_fl. wp_steps. exact HK. Qed.
Definition targets_in (ts : list nat) (b : trav) : Prop := Forall (is_target b) ts.
Lemma twf_targets ts b : twf b → targets_in ts b → twf (with_targets ts b).
Proof. intros [[] ? ? ?] Ht. constructor; cbn; try done. Qed.
Lemma core_targets P ts ts' b b2 :
  core P (with_targets ts b) b2 → targets_in ts' b2 → core P b (with_targets ts' b2).
Proof.
  intros [Hwf ? ? ? ? ? ? Hop ? ? ?] Ht. constructor; try done. by apply twf_targets.
Qed.

Lemma ready_targets k P ts b : ready k P b → targets_in ts b → ready k P (with_targets ts b).
Proof. intros [Hwf [Hj Hret] ? ? ? ? ? ? Hop ?] Ht. constructor; try done. by apply twf_targets. Qed.

(** The end of a try statement: its finally block. *)
Lemma wp_finally k l visit finally b b3 P Pf A D arcs (stop : bool) X :
  so_far F k l P Pf b b3 arcs → spec k Pf l l D (visitBody visit finally) →
  (∀ b', Forall (arc_ok F b') arcs → activates F A) →
  wp (if stop then visitBody visit finally ≫= λ _, go unreachableFlow else visitBody visit finally)
    (λ _ b', post F (padd P Pf) l (hush (seq A D)) b b') X b3.
Proof.
  intros S3 H HA.
  assert (∀ b4 b', Forall (arc_ok F b') (mkArc (env_of b) (flow (bld b3)) (flow (bld b4)) D :: arcs) →
    arc_ok F b' (mkArc (env_of b) (flow (bld b)) (flow (bld b')) (hush (seq A D)))) as Hend.
  { intros b4 b' Hall. arcs_in Hall. destruct Hall as ([_ HD] & Hall). split; [by intros ? ? ? []|]. apply activates_seq; [by eapply HA|done]. }
  destruct stop; wp_steps; (eapply (wp_last F); [exact S3|exact H|]; intros b4 S4 G4).
  - eapply (wp_sf_go F S4); [apply twf_zero, S4|]. intros b5 S5 _ _ _. eapply sf_post; [exact S5|]. intros _ _ Hall. by eapply Hend.
  - eapply sf_post; [exact S4|]. intros _ _ Hall. by eapply Hend.
Qed.

Lemma rule_try k l visit n body c finally Pb Pc Pf A C D :
  spec k Pb l l (lim m A) (visitBody visit body) → catches k l visit n c Pc (lim m C) →
  spec k Pf l l (lim m D) (visitBody visit finally) →
  spec k (padd Pb (padd Pc Pf)) l l (lim m (hush (seq A (seq C D)))) (visitTry visit n body c finally).
Proof.
  intros H1 H2 H3. eapply (spec_sub F _ _ _ _ _ (hush (seq (hush (seq (lim m A) (lim m C))) (lim m D)))).
  2: { destruct m; (split; [done || by intros ? ? []|try done; cbn; tauto]). }
  rewrite padd_assoc. intros b X Hr Hi Hl. unfold visitTry, flowing_, here. wp_steps.
  pose proof (node_in_flow _ _ _ Hr) as Hpre. set (pre := flow (bld b)).
  set (AC := hush (seq (lim m A) (lim m C))).
  assert (∀ E b' arcs, Forall (arc_ok F b') (mkArc E 0 0 AC :: arcs) → activates F AC) as Hac.
  { intros E b' arcs Hall. by destruct (Forall_inv Hall). }
  destruct (bool_decide (is_Some finally) && flowing (bld b)) eqn:Hex; wp_steps.
  2: { eapply wp_body_catch; [by apply (sf_start F)|exact Hpre|exact H1|exact H2|]. intros after b1 S1 Ha1 G1. wp_steps.
       rewrite padd_p0_l in S1. eapply (wp_sf_go F S1); [exact Ha1|]. intros b2 S2 _ _ _. wp_steps.
       apply (wp_finally k l visit finally b b2 _ Pf AC (lim m D) _ false X S2 H3 (λ b' Hall, Hac _ b' [] Hall)). }
  eapply (wp_sf_newLabel F (sf_start F _ _ _ _ Hr Hi Hl)); [by left|by repeat constructor|]. intros exc b1 S1 T1 _ _ _ G1. wp_steps.
  set (ts := exceptionTargets (bld b1)). apply wp_set_targets. wp_steps. set (b2 := with_targets _ b1).
  assert (targets_in ts b1) as Hts by (apply (bw_targets _ (tw_bld _ (re_wf _ _ _ (sf_ready _ _ _ _ _ _ _ _ S1))))).
  assert (ready k (padd (padd Pb Pc) Pf) b2) as Hr2.
  { apply ready_targets; [apply S1|]. apply Forall_app. split; [done|by apply Forall_singleton]. }
  assert (so_far F k l p0 (padd (padd Pb Pc) p0) b2 b2 []) as S2.
  { rewrite padd_p0_r. apply (sf_start F); [by eapply ready_first|destruct (sf_idle _ _ _ _ _ _ _ _ S1); by constructor|apply (sf_label _ _ _ _ _ _ _ _ S1)]. }
  eapply wp_body_catch; [exact S2| |exact H1|exact H2|]; [by apply (node_in_grows b)|].
  intros after b3 S3 Ha3 G3. rewrite padd_p0_l in S3. wp_steps. apply wp_set_targets.
  assert (take (length (exceptionTargets (bld b3)) - 1) (exceptionTargets (bld b3)) = ts) as ->.
  { rewrite (sm_targets _ _ (proj2 (sf_moves _ _ _ _ _ _ _ _ S3))). cbn. rewrite length_app. cbn.
    replace (length ts + 1 - 1)%nat with (length ts) by lia. by rewrite take_app_length. }
  set (b4 := with_targets ts b3).
  assert (so_far F k l (padd Pb Pc) Pf b b4 [mkArc (env_of b) 0 0 AC]) as S4.
  { pose proof (sf_moves _ _ _ _ _ _ _ _ S3) as [Hc3 Hs3].
    assert (moves (padd Pb Pc) b1 b4) as Hm.
    { split; [|destruct Hs3; by constructor]. eapply core_targets; [exact Hc3|].
      eapply Forall_impl; [exact Hts|]. intros t. by apply is_target_grows. }
    rewrite <-(padd_p0_l (padd Pb Pc)). eapply (sf_drop F); [eapply (sf_advance F _ _ l _ _ _ _ _ b4 _ [mkArc (env_of b) 0 0 AC] S1 Hm)|subseteq_tac].
    - apply (sf_label _ _ _ _ _ _ _ _ S3).
    - intros Hf Hla%later_right _. apply Forall_singleton. split; [by intros ? ? ? []|]. apply (Hac (env_of b2) b3 []).
      apply (sf_known _ _ _ _ _ _ _ _ S3); [by rewrite <-(sf_flowing F S1) in Hf|]. destruct Hla. by constructor. }
  wp_steps. destruct (after =? unreachableFlow)%nat; wp_steps.
  - eapply (wp_sf_goFinish F S4); [apply (is_target_grows b1); [exact G3|done]|]. intros b5 S5 _ _.
    apply (wp_finally k l visit finally b b5 _ Pf AC (lim m D) _ true X S5 H3 (λ b' Hall, Hac _ b' [] Hall)).
  - eapply (wp_sf_go F S4); [exact Ha3|]. intros b5 S5 _ _ _.
    apply (wp_finally k l visit finally b b5 _ Pf AC (lim m D) _ false X S5 H3 (λ b' Hall, Hac _ b' [] Hall)).
Qed.
End cases.
