(* ===== verification/TraverseFunction.v ===== *)
(** * The rules of functions

    [function]: a function on its own, whose executions begin at a flow of
    their own, and one that is called where it is written. *)

From S2P Require Import Prelude GoString Diag Ast Symbols SymbolFacts Flow FlowWalk FlowFacts Traverse Exec.
From S2P Require Import FlowPath TraverseFacts TraverseNames TraverseSpec TraverseRules TraverseLeaves TraverseStores.
From S2P Require Import TraverseCases.
Open Scope Z_scope.

(** ** The function the traversal is in *)

Definition with_function (f : nat) (c fs : option ScopeId) (ts : list nat) (b : trav) : trav :=
  set_bld (set_walk f c fs ts (storing (bld b)) (bld b)) b.
Lemma wp_set_function f c fs ts b (K : unit → trav → Prop) X : K tt (with_function f c fs ts b) → wp (set_function f c fs ts) K X b.
Proof. intros HK. unfold set_function. apply wp_fl. wp_steps. exact HK. Qed.

Lemma twf_function f c fs ts b : twf b → node_in b f → targets_in ts b → twf (with_function f c fs ts b).
Proof. intros [[] ? ? ?] Hf Ht. constructor; cbn; try done. Qed.
Lemma core_function P f c fs ts b b' :
  core P b b' → node_in b' f → targets_in ts b' → core P b (with_function f c fs ts b').
Proof. intros [Hwf ? ? ? ? ? ? Hop ? ? ?] Hf Ht. constructor; try done. by apply twf_function. Qed.
(** The control of a function at its start. *)
Definition fresh (r : option nat) (c : control) : control := mkControl [] (pendingLabel c) (writing c) None r.

Lemma ready_function k P f c fs ts r b :
  ready k P b → node_in b f → targets_in ts b → (∀ x, r = Some x → is_target b x) →
  ready k P (set_ctl (fresh r (ctl b)) (with_function f c fs ts b)).
Proof.
  intros [Hwf [Hj Hret] ? ? ? ? ? ? Hop ?] Hf Ht Hr. constructor; try done.
  destruct (twf_function f c fs ts b Hwf Hf Ht). by constructor.
Qed.

(** ** Its parameters and body *)

Section function.
Context (F : trav) (Hzero : nodes (bld F) !! unreachableFlow = Some unreachable_node) (m : mode).
Abbreviation spec := (spec F).

Lemma wp_notePositions k l P R b0 b arcs s ps (K : unit → trav → Prop) X :
  so_far F k l P R b0 b arcs → cur (bnd (bld b)) = Some s →
  (∀ b', so_far F k l P R b0 b' arcs → bnd (bld b') = bnd (bld b) → flow (bld b') = flow (bld b) → nodes (bld b') = nodes (bld b) → K tt b') →
  wp (each (notePosition s) ps) K X b.
Proof.
  intros S Hc. revert b S Hc K. induction ps as [|p ps IH]; intros b S Hc K HK; cbn [each]; wp_steps; [by apply HK|].
  unfold notePosition. wp_steps. pose proof (re_wf _ _ _ (sf_ready _ _ _ _ _ _ _ _ S)) as Hwf.
  apply wp_t_scope; [done|by apply (wf_cur _ (bw_bnd _ (tw_bld _ Hwf)))|]. intros sc _. wp_steps.
  destruct (Get _ _) as [id|]; wp_steps; [|by apply IH]. apply wp_fl. wp_steps.
  match goal with |- context [set_bld ?x b] => set (b1 := set_bld x b) end.
  assert (step b b1) as Hst.
  { constructor; try done. destruct (tw_bld _ Hwf). constructor; try done. by intros ?. }
  pose proof (sf_step F k l P R b0 b b1 arcs [] S Hst ltac:(by constructor)) as S1. cbn [app] in S1.
  apply IH; [exact S1|exact Hc|]. intros b2 S2 Hb2 Hf2 Hn2. by apply HK.
Qed.

Lemma wp_functionParts k l s n f arrow P1 P2 P3 A1 A2 A3 b0 b arcs (K : unit → trav → Prop) visit X :
  so_far F k l p0 (padd P1 (padd P2 P3)) b0 b arcs → cur (bnd (bld b)) = Some s →
  (∃ sc, scopes (bnd (bld b)) !! s = Some sc ∧ ScKind sc = FunctionScope) →
  spec k P1 l l A1 (each (visitParam visit) (params f)) →
  spec k P2 l l A2 (opt (λ body, statements visit (stmts_of body)) (fn_body f)) →
  spec k P3 l l A3 (opt visit (expr_body f)) →
  (∀ b', so_far F k l (padd P1 (padd P2 P3)) p0 b0 b' (mkArc (env_of b0) (flow (bld b)) (flow (bld b')) (seq A1 (seq A2 A3)) :: arcs) →
     graph_grows (nodes (bld b)) (nodes (bld b')) → wp (bd leave) K X b') →
  wp (functionParts visit s n f arrow) K X b.
Proof.
  intros S Hc Hsc H1 H2 H3 HK. unfold functionParts, flowing_. wp_steps.
  apply (wp_mono _ (λ _ b', so_far F k l p0 (padd P1 (padd P2 P3)) b0 b' arcs ∧ bnd (bld b') = bnd (bld b)
                            ∧ flow (bld b') = flow (bld b) ∧ nodes (bld b') = nodes (bld b)) _ X X); [| |done].
  { destruct (flowing (bld b)); wp_steps; [|done]. eapply wp_notePositions; [done..|]. intros b' S' ? ? ?. by split_and!. }
  cbv beta. intros [] b1 (S1 & Hb1 & Hf1 & Hn1). wp_steps. rewrite <-Hb1 in Hc, Hsc. rewrite <-Hf1, <-Hn1 in HK. clear S Hb1 Hf1 Hn1 b.
  assert (∀ b, twf b → cur (bnd (bld b)) = Some s → (s < length (scopes (bnd (bld b))))%nat) as Hlt.
  { intros b Hwf Hcb. by apply (wf_cur _ (bw_bnd _ (tw_bld _ Hwf))). }
  assert (∀ b b' X', renames b b' → so_far F k l p0 (padd P1 (padd P2 P3)) b0 b X' → cur (bnd (bld b)) = Some s →
    so_far F k l p0 (padd P1 (padd P2 P3)) b0 b' X' ∧ cur (bnd (bld b')) = Some s ∧ twf b' ∧ flow (bld b') = flow (bld b)
    ∧ nodes (bld b') = nodes (bld b)) as Hren.
  { intros b b' X' Hr S Hcb. destruct (renames_rest _ _ Hr) as (_ & _ & Hn & Hf & _). pose proof (sf_renames F S _ Hr) as S'.
    split_and!; [done|by eapply renames_cur|apply S'|done|done]. }
  destruct Hsc as (sc & Hsc & Hkind).
  apply (wp_mono _ (λ _ b', renames b1 b') _ X X); [| |done].
  { destruct arrow; wp_steps; [apply renames_refl, S1|]. eapply wp_t_declareArguments; [apply S1|exact Hsc|exact Hkind|done]. }
  cbv beta. intros [] b2 Hr2. destruct (Hren _ _ _ Hr2 S1 Hc) as (S2 & Hc2 & Hwf2 & Hf2 & Hn2). wp_steps.
  apply wp_declareParams; [done|by apply Hlt|]. intros b3 Hr3. destruct (Hren _ _ _ Hr3 S2 Hc2) as (S3 & Hc3 & Hwf3 & Hf3 & Hn3). wp_steps.
  apply wp_set_params; [done|]. intros b4 Hr4. destruct (Hren _ _ _ Hr4 S3 Hc3) as (S4 & Hc4 & Hwf4 & Hf4 & Hn4). wp_steps.
  eapply (wp_part F); [exact S4|exact H1|]. rewrite Hf4, Hf3, Hf2, Hn4, Hn3, Hn2. intros b5 S5 G5. wp_steps.
  apply wp_set_params; [apply S5|]. intros b6 Hr6. destruct (renames_rest _ _ Hr6) as (_ & _ & Hn6 & Hf6 & _). pose proof (sf_renames F S5 _ Hr6) as S6. wp_steps.
  apply wp_set_body; [apply S6|]. intros b7 Hr7. destruct (renames_rest _ _ Hr7) as (_ & _ & Hn7 & Hf7 & _). pose proof (sf_renames F S6 _ Hr7) as S7. wp_steps.
  apply (wp_mono _ (λ _ b', ∃ arcs', so_far F k l (padd (padd p0 P1) P2) P3 b0 b'
      (mkArc (env_of b0) (flow (bld b7)) (flow (bld b')) A2 :: arcs')
      ∧ (∀ b'', Forall (arc_ok F b'') arcs' → Forall (arc_ok F b'') (mkArc (env_of b0) (flow (bld b1)) (flow (bld b5)) A1 :: arcs))
      ∧ graph_grows (nodes (bld b7)) (nodes (bld b'))) _ X X); [| |done].
  { destruct (fn_body f) as [body|].
    - wp_steps. eapply (wp_part F); [exact S7|exact H2|]. intros b8 S8 G8. wp_steps. destruct (_ && _); wp_steps.
      + unfold table_. wp_steps. eexists. split_and!; [by eapply sf_marks|done|done].
      + eexists. by split_and!.
    - eapply (wp_part F); [exact S7|exact H2|]. intros b8 S8 G8. eexists. by split_and!. }
  cbv beta. intros [] b8 (arcs8 & S8 & Harcs8 & G8). wp_steps.
  eapply (wp_last F); [exact S8|exact H3|]. intros b9 S9 G9. wp_steps.
  apply wp_set_body; [apply S9|]. intros b10 Hr10. destruct (renames_rest _ _ Hr10) as (_ & _ & Hn10 & Hf10 & _).
  pose proof (sf_renames F S9 _ Hr10) as S10. wp_steps. rewrite padd_p0_l, <-padd_assoc in S10. apply HK.
  - eapply (sf_weaken F); [exact S10|]. intros Hall. arcs_in Hall. destruct Hall as (HA3 & HA2 & Hall).
    apply Harcs8 in Hall. arcs_in Hall. destruct Hall as (HA1 & Hall). constructor; [|done].
    rewrite Hf10. eapply (arc_seq F Hzero); [exact HA1|]. rewrite Hf7, Hf6 in HA2. by eapply (arc_seq F Hzero).
  - rewrite Hn10. etrans; [exact G5|]. rewrite <-Hn6, <-Hn7. by etrans.
Qed.

(** ** A function started in its scope

    [b6] is the state at its start, [b] that before it. *)
Record started (k at_ : key) (P : plan) (b : trav) (s : nat) (b6 : trav) : Prop := {
  st_core : ∃ b1, entered k at_ FunctionScope b s b1 ∧ core p0 b1 b6 ∧ cur (bnd (bld b1)) = Some s;
  st_ready : ready at_ P b6;
  st_cur : cur (bnd (bld b6)) = Some s;
  st_scope : ∃ sc, scopes (bnd (bld b6)) !! s = Some sc ∧ ScKind sc = FunctionScope;
  st_key : scopeOf (bnd (bld b6)) !! at_ = Some s;
  st_declaring : declaring (bnd (bld b6)) = declaring (bnd (bld b));
  st_prefix : nsPrefix (bnd (bld b6)) = nsPrefix (bnd (bld b));
  st_storing : storing (bld b6) = storing (bld b);
  st_ctl : ctl b6 = ctl b;
  st_walk : flow (bld b6) = flow (bld b) ∧ container (bld b6) = container (bld b) ∧ fnScope (bld b6) = fnScope (bld b)
            ∧ exceptionTargets (bld b6) = exceptionTargets (bld b) }.

Lemma started_core k at_ P b s b6 b7 :
  started k at_ P b s b6 → core p0 b6 b7 → ready at_ P b7 → cur (bnd (bld b7)) = cur (bnd (bld b6)) →
  declaring (bnd (bld b7)) = declaring (bnd (bld b6)) → nsPrefix (bnd (bld b7)) = nsPrefix (bnd (bld b6)) →
  storing (bld b7) = storing (bld b6) → ctl b7 = ctl b6 →
  flow (bld b7) = flow (bld b6) ∧ container (bld b7) = container (bld b6) ∧ fnScope (bld b7) = fnScope (bld b6)
    ∧ exceptionTargets (bld b7) = exceptionTargets (bld b6) →
  started k at_ P b s b7.
Proof.
  intros [(b1 & Hen & Hc1 & Hcur) Hr Hc (sc & Hsc & Hk) Hkey Hd Hp Hst Hctl (? & ? & ? & ?)] Hco Hr7 Hc7 Hd7 Hp7 Hst7 Hctl7 (? & ? & ? & ?).
  constructor; try congruence; [| | |split_and!; congruence].
  - exists b1. split_and!; [done| |done]. rewrite <-(padd_p0_l p0). eapply core_trans; [|done|done].
    destruct (en_state _ _ _ _ _ _ Hen) as (d & -> & _ & Hd' & _). cbn in *. congruence.
  - destruct (gr_scopes _ _ (co_grows _ _ _ Hco) _ _ Hsc) as (sc' & ? & ? & _). exists sc'. split; congruence.
  - by eapply co_kept.
Qed.

Lemma wp_function_enter k n P b tps (K : nat → trav → Prop) t X :
  let at_ := (nid n, 0%nat) in
  ready k (popen at_ FunctionScope k P) b → (∀ s t0, marks t0 (t s t0)) →
  (∀ s b6, started k at_ P b s b6 → K s b6) →
  wp (bd (enter (nid n) (Some n) 0 FunctionScope))
    (λ s b', wp (table_ (t s) ≫= λ _, each (λ tp, bd (declare (Some s) tp TypeParameter TypeOnly (Some n) ≫= λ _, mret tt)) tps)
       (λ _, K s) X b') X b.
Proof.
  intros at_ Hr Ht HK. eapply wp_enter_ready; [exact Hr|]. intros s b1 Hen Hr1 Hc1. unfold table_. wp_steps.
  set (b2 := set_tab _ b1). assert (moves p0 b1 b2) as Hm by (apply moves_marks; [apply Hr1|apply Ht]).
  destruct (en_state _ _ _ _ _ _ Hen) as (d & Hb1 & Hcur & Hd & Hp). destruct (en_opened _ _ _ _ _ _ Hen) as (s' & sc & p & Hs' & Hsc & Hk & _).
  pose proof (en_key _ _ _ _ _ _ Hen) as Hkey. cbn in Hs', Hk. assert (s' = s) as -> by congruence.
  assert (started k at_ P b s b2) as Hst.
  { constructor; [exists b1; split_and!; [done|apply Hm|done]|by eapply ready_p0|done|by exists sc|done|..]; unfold b2; by rewrite Hb1. }
  apply (wp_each_renames _ s); [apply (st_ready _ _ _ _ _ _ Hst)|by apply (wf_cur _ (bw_bnd _ (tw_bld _ (re_wf _ _ _ (st_ready _ _ _ _ _ _ Hst)))))| |].
  - intros x b3 R Hb3 _ Hs3 HR. by apply wp_declare_then.
  - intros b3 Hren. apply HK. pose proof (renames_moves _ _ (re_wf _ _ _ (st_ready _ _ _ _ _ _ Hst)) Hren) as [Hc Hs].
    destruct (renames_rest _ _ Hren) as (? & ? & ? & ? & ? & ? & ? & ? & ? & ?).
    eapply started_core; [exact Hst|done|eapply ready_p0; [apply Hst|by split]|done|apply Hs|apply Hs|done|done|by split_and!].
Qed.

(** Leaving the function's scope, from a state that is a step away from the parts' end. *)
Lemma wp_function_leave k at_ P b s b6 f c fs ts r b7 (K : unit → trav → Prop) X :
  ready k (popen at_ FunctionScope k P) b → started k at_ P b s b6 →
  moves P (set_ctl (fresh r (ctl b6)) (with_function f c fs ts b6)) b7 → targets_in ts b6 → node_in b6 f →
  (∀ b8, core (popen at_ FunctionScope k P) b b8 → b8 = with_bnd (set_cur (cur (bnd (bld b))) (bnd (bld b7))) b7 → K tt b8) →
  wp (bd leave) K X b7.
Proof.
  intros Hr Hst [Hco Hs] Hts Hf HK. destruct (re_cur _ _ _ Hr) as (c0 & Hc0 & Hk0). destruct Hst as [(b1 & Hen & Hc1 & Hcur1) Hr6 Hc6 _ _ Hd6 _ _ _ _].
  assert (core P b1 b7) as Hco7.
  { rewrite <-(padd_p0_l P). eapply (core_trans p0 P b1 b6 b7); [|done|].
    - destruct (en_state _ _ _ _ _ _ Hen) as (d & -> & _ & Hd' & _). cbn in *. congruence.
    - destruct Hco as [Hwf ? ? ? ? ? ? Hop ? ? ?]. by constructor. }
  destruct (core_leave _ _ _ _ _ _ _ _ _ Hc0 Hk0 Hen Hco7) as [Hrun Hco8].
  { rewrite (sm_cur _ _ Hs). cbn. congruence. }
  apply wp_bd. unfold wp. rewrite Hrun. apply HK; [exact Hco8|by rewrite Hc0].
Qed.

Lemma rule_closure k l n f arrow P1 P2 P3 B1 B2 B3 visit :
  let at_ := (nid n, 0%nat) in
  spec at_ P1 l l B1 (each (visitParam visit) (params f)) →
  spec at_ P2 l l B2 (opt (λ body, statements visit (stmts_of body)) (fn_body f)) →
  spec at_ P3 l l B3 (opt visit (expr_body f)) →
  spec k (popen at_ FunctionScope k (padd P1 (padd P2 P3))) l l (closure at_ true (seq B1 (seq B2 B3))) (function visit n f arrow).
Proof.
  intros at_ H1 H2 H3 b X Hr Hi Hl. unfold function. wp_step.
  eapply wp_mono; [apply (wp_function_enter k n (padd P1 (padd P2 P3)) b (type_params f)
     (λ s b2, started k at_ (padd P1 (padd P2 P3)) b s b2) (λ s t, set_fnScopes (<[nid n:=s]> (t_fnScopes t)) (t_endFlow t) t) X Hr)| |done]; [done|done|].
  cbv beta. intros s b1 Hb1. wp_step. apply wp_two. eapply wp_mono; [exact Hb1| |done]. cbv beta. intros [] b2 Hst. wp_steps.
  unfold control_ at 1. wp_steps. rewrite (st_ctl _ _ _ _ _ _ Hst), (id_iife _ Hi), bool_decide_false by done.
  set (cl := match nkind n with FunctionExpression _ _ => _ | _ => _ end). wp_steps.
  set (b3 := set_ctl _ b2). set (nd := mkFlowNode _ _ _ _ _ _ _ _ _ _).
  pose proof (st_ready _ _ _ _ _ _ Hst) as Hr2. pose proof (re_wf _ _ _ Hr2) as Hwf2.
  apply wp_fl, wp_keeps; [apply keeps_alloc|]. apply wp_alloc; [apply Hwf2|constructor; try done; constructor|].
  intros x Haf Hn Hk. set (b4 := set_bld x b2).
  assert (step b2 b4) as Hst4 by (by constructor). pose proof (step_moves _ _ Hwf2 Hst4) as [Hc4 Hs4].
  wp_steps. unfold control_ at 1. wp_steps. apply wp_set_function. wp_step.
  set (P := padd P1 (padd P2 P3)) in *.
  assert (started k at_ P b s b4) as Hst'.
  { eapply started_core; [exact Hst|exact Hc4|by eapply ready_p0|apply Hs4|apply Hs4|apply Hs4|by destruct Hk as (_ & ? & _)|done|].
    destruct (af_fns _ _ Haf). pose proof (af_targets _ _ Haf). cbn in *. by split_and!. }
  set (start := length (nodes (bld b3))).
  match goal with |- wp _ _ _ ?st => replace st with (set_ctl (fresh None (ctl b4)) (with_function start (Some s) (Some s) [] b4))
    by (by rewrite (st_ctl _ _ _ _ _ _ Hst')) end.
  set (b6 := set_ctl _ _). assert (node_in b4 start) as Hstart by (by eapply lookup_lt_Some).
  assert (ready at_ P b6) as Hr6 by (apply ready_function; [apply Hst'|done|constructor|done]).
  assert (idle b6) as Hi6.
  { destruct Hi as [_ Hw Hs]. constructor; [done|cbn; by rewrite (st_ctl _ _ _ _ _ _ Hst)|].
    change (storing (bld b6)) with (storing (bld b4)). by rewrite (st_storing _ _ _ _ _ _ Hst'). }
  assert (pending l b6) as Hl6 by (intros y Hy; cbn; rewrite (st_ctl _ _ _ _ _ _ Hst); by apply Hl).
  eapply wp_functionParts; [apply (sf_start F _ _ _ _ Hr6 Hi6 Hl6)|exact (st_cur _ _ _ _ _ _ Hst')|exact (st_scope _ _ _ _ _ _ Hst')|exact H1|exact H2|exact H3|].
  intros b7 S7 G7. pose proof (sf_moves _ _ _ _ _ _ _ _ S7) as Hm7.
  eapply wp_function_leave; [exact Hr|exact Hst'|exact Hm7|constructor|exact Hstart|]. intros b8 Hc8 Hb8. wp_steps.
  unfold control_. wp_steps. apply wp_set_function.
  destruct (st_walk _ _ _ _ _ _ Hst) as (-> & -> & -> & ->). pose proof (co_graph _ _ _ Hc8) as G8. pose proof (re_wf _ _ _ Hr) as Hwf.
  pose proof (st_declaring _ _ _ _ _ _ Hst') as E1. pose proof (st_prefix _ _ _ _ _ _ Hst') as E2. pose proof (id_iife _ Hi) as E3.
  pose proof (st_storing _ _ _ _ _ _ Hst') as E4. pose proof (st_ctl _ _ _ _ _ _ Hst') as E5.
  constructor.
  - destruct Hm7 as [_ []]. split; [|subst b8; constructor; cbn in *; try congruence; by rewrite <-E4].
    apply core_function; [by apply (core_ctl _ b b8)|by apply (node_in_grows b); [|apply twf_flow]|].
    eapply Forall_impl; [apply (bw_targets _ (tw_bld _ Hwf))|]. intros t Ht. by apply (is_target_grows b).
  - subst b8. exact (sf_label _ _ _ _ _ _ _ _ S7).
  - intros Hf [Hw Ht Hsy Hsc]. split; [apply between_skip, passes_refl|].
    assert (later F P b7) as Hla7 by (subst b8; by constructor).
    assert (flowing (bld b6) = true) as Hf6 by (unfold flowing in *; change (declaring (bnd (bld b6))) with (declaring (bnd (bld b4))); by rewrite E1).
    pose proof (sf_known _ _ _ _ _ _ _ _ S7 Hf6 Hla7) as Hall. arcs_in Hall. destruct Hall as ([Hbt Hact] & _).
    apply activates_closure; [|exact Hact]. intros _ tr id Hnow.
    assert (start ≠ unreachableFlow) as Hlive.
    { pose proof (twf_zero _ Hwf2). unfold start, unreachableFlow in *. change (nodes (bld b3)) with (nodes (bld b2)). lia. }
    assert (graph_grows (nodes (bld b4)) (nodes (bld F))) as G4 by (etrans; [exact G7|apply (la_graph _ _ _ Hla7)]).
    destruct (G4 _ _ Hn) as (nd' & Hnd' & Hg). destruct Hg as (Hfl & _ & Hsc' & _).
    exists s, start, nd'. split_and!; [|exact Hnd'|by rewrite Hfl|by rewrite Hsc'|by apply (Hbt tr (At id) Hlive Hnow)].
    rewrite <-(la_scopes _ _ _ Hla7). eapply co_kept; [apply Hm7|exact (st_key _ _ _ _ _ _ Hst')].
Qed.

Lemma twf_ctl c b : twf b → twf (set_ctl c b).
Proof. intros []. by constructor. Qed.

(** A state of the same function that has gone on a little. *)
Lemma started_step k at_ P b s b6 b7 : started k at_ P b s b6 → step b6 b7 → flow (bld b7) = flow (bld b6) → started k at_ P b s b7.
Proof.
  intros Hst Hstep Hfl. pose proof (step_moves _ _ (re_wf _ _ _ (st_ready _ _ _ _ _ _ Hst)) Hstep) as [Hc Hs].
  eapply started_core; [exact Hst|exact Hc|eapply ready_p0; [apply Hst|by split]|apply Hs|apply Hs|apply Hs| |apply Hstep|].
  - by destruct (sp_kept _ _ Hstep) as (_ & ? & _).
  - destruct (af_fns _ _ (sp_after _ _ Hstep)). pose proof (af_targets _ _ (sp_after _ _ Hstep)). by split_and!.
Qed.
Lemma started_renames k at_ P b s b6 b7 : started k at_ P b s b6 → renames b6 b7 → started k at_ P b s b7.
Proof.
  intros Hst Hren. pose proof (renames_moves _ _ (re_wf _ _ _ (st_ready _ _ _ _ _ _ Hst)) Hren) as [Hc Hs].
  destruct (renames_rest _ _ Hren) as (? & ? & ? & ? & ? & ? & ? & ? & ? & ?).
  eapply started_core; [exact Hst|exact Hc|eapply ready_p0; [apply Hst|by split]|apply Hs|apply Hs|apply Hs|done|done|by split_and!].
Qed.

Lemma wp_inline k l n f arrow P1 P2 P3 B1 B2 B3 visit b X :
  let at_ := (nid n, 0%nat) in let b_ := set_ctl (set_iife None (ctl b)) b in
  iife (ctl b) = Some (nid n) → ready k (popen at_ FunctionScope k (padd P1 (padd P2 P3))) b → idle b_ → pending l b →
  spec at_ P1 l l B1 (each (visitParam visit) (params f)) →
  spec at_ P2 l l B2 (opt (λ body, statements visit (stmts_of body)) (fn_body f)) →
  spec at_ P3 l l B3 (opt visit (expr_body f)) →
  wp (function visit n f arrow)
    (λ _ b', post F (popen at_ FunctionScope k (padd P1 (padd P2 P3))) l
               (called (seq (emit (EEnter at_)) (seq B1 (seq B2 B3)))) b_ b') X b.
Proof.
  intros at_ b_ Hiife Hr Hi Hl H1 H2 H3. unfold function. wp_step. set (P := padd P1 (padd P2 P3)) in *.
  eapply wp_mono; [apply (wp_function_enter k n P b (type_params f) (λ s b2, started k at_ P b s b2)
    (λ s t, set_fnScopes (<[nid n:=s]> (t_fnScopes t)) (t_endFlow t) t) X Hr)| |done]; [done|done|].
  cbv beta. intros s b1 Hb1. wp_step. apply wp_two. eapply wp_mono; [exact Hb1| |done]. cbv beta. intros [] b2 Hst. wp_steps.
  unfold control_ at 1. wp_steps. rewrite (st_ctl _ _ _ _ _ _ Hst), Hiife, bool_decide_true by done. wp_steps.
  set (b3 := set_ctl _ b2). pose proof (re_wf _ _ _ (st_ready _ _ _ _ _ _ Hst)) as Hwf2.
  destruct (st_scope _ _ _ _ _ _ Hst) as (sc & Hsc & Hkind).
  eapply (wp_t_markInline b3 s sc); [by apply twf_ctl|exact Hsc|exact Hkind|]. intros b4 (d & -> & Hn4). set (b4 := with_bnd d b3) in *.
  assert (renames b2 (with_bnd d b2)) as Hren by (by exists d). pose proof (started_renames _ _ _ _ _ _ _ Hst Hren) as Hst4. wp_steps.
  apply (wp_t_newLabel F b4); [apply (twf_ctl _ (with_bnd d b2)), (st_ready _ _ _ _ _ _ Hst4)|by left|constructor|].
  intros r b5 Hstep5 Hf5 Ht5 _ _ _. set (b5' := set_ctl (ctl b) b5).
  assert (step (with_bnd d b2) b5') as Hstep5'.
  { destruct Hstep5 as [? ? ? ?]. constructor; try done. cbn. by rewrite (st_ctl _ _ _ _ _ _ Hst). }
  pose proof (started_step _ _ _ _ _ _ _ Hst4 Hstep5' Hf5) as Hst5.
  wp_steps. unfold control_ at 1. wp_steps. apply wp_set_function. wp_steps.
  match goal with |- wp _ _ _ ?st => replace st with
    (set_ctl (fresh (Some r) (ctl b5')) (with_function (flow (bld b2)) (container (bld b2)) (Some s) (exceptionTargets (bld b2)) b5'))
    by (by cbn; rewrite (sp_ctl _ _ Hstep5)) end.
  set (b6 := set_ctl _ _). destruct (st_walk _ _ _ _ _ _ Hst) as (W1 & W2 & W3 & W4). destruct (st_walk _ _ _ _ _ _ Hst5) as (V1 & V2 & V3 & V4).
  pose proof (re_wf _ _ _ (st_ready _ _ _ _ _ _ Hst5)) as Hwf5.
  assert (node_in b5' (flow (bld b2))) as Hflow by (rewrite W1, <-V1; by apply twf_flow).
  assert (targets_in (exceptionTargets (bld b2)) b5') as Htargets by (rewrite W4, <-V4; apply (bw_targets _ (tw_bld _ Hwf5))).
  assert (ready at_ P b6) as Hr6 by (apply ready_function; [apply Hst5|done|done|by intros ? [= <-]]).
  assert (idle b6) as Hi6.
  { destruct Hi as [_ Hw Hs]. constructor; [done|exact Hw|].
    change (storing (bld b6)) with (storing (bld b5')). by rewrite (st_storing _ _ _ _ _ _ Hst5). }
  assert (pending l b6) as Hl6 by exact Hl.
  eapply (wp_sf_scopeStart F (sf_start F _ _ _ _ Hr6 Hi6 Hl6)); [exact (st_cur _ _ _ _ _ _ Hst5)|]. intros b6a S6a G6a. wp_step.
  pose proof (sf_moves _ _ _ _ _ _ _ _ S6a) as [Hc6a Hs6a].
  eapply wp_functionParts; [exact S6a|rewrite (sm_cur _ _ Hs6a); exact (st_cur _ _ _ _ _ _ Hst5)| |exact H1|exact H2|exact H3|].
  { destruct (st_scope _ _ _ _ _ _ Hst5) as (sc5 & Hsc5 & Hk5).
    destruct (gr_scopes _ _ (co_grows _ _ _ Hc6a) _ _ Hsc5) as (sc' & ? & ? & _). exists sc'. split; congruence. }
  intros b7 S7 G7. pose proof (sf_moves _ _ _ _ _ _ _ _ S7) as Hm7.
  eapply wp_function_leave; [exact Hr|exact Hst5|exact Hm7|exact Htargets|exact Hflow|]. intros b8 Hc8 Hb8. wp_steps.
  pose proof (st_declaring _ _ _ _ _ _ Hst5) as E1. pose proof (st_prefix _ _ _ _ _ _ Hst5) as E2.
  pose proof (st_storing _ _ _ _ _ _ Hst5) as E4. set (code := seq (emit (EEnter at_)) (seq B1 (seq B2 B3))).
  assert (returnTo (ctl b8) = Some r) as Hret by (subst b8; exact (sm_return _ _ (proj2 Hm7))).
  assert (flow (bld b8) = flow (bld b7)) as Hf8 by (by subst b8).
  assert (twf b8) as Hwf8 by apply Hc8.
  assert (∀ b10, step b8 b10 →
    (flowing (bld b) = true → later F P b10 → arc_ok F b10 (mkArc (env_of b_) (flow (bld b)) (flow (bld b10)) (called code))) →
    wp (control_ (λ c, set_jumps (jumps (ctl b)) (set_returnTo (returnTo (ctl b)) c)) ≫= λ _,
        b0 ← gets bld; set_function (flow b0) (container b0) (fnScope (bld b2)) (exceptionTargets b0))
      (λ _ b', post F (popen at_ FunctionScope k P) l (called code) b_ b') X b10) as Hfin.
  { intros b10 Hst10 Hcl. unfold control_. wp_steps. apply wp_set_function.
    pose proof (step_moves _ _ Hwf8 Hst10) as [Hc10 Hs10]. destruct Hm7 as [_ Hs7].
    assert (core (popen at_ FunctionScope k P) b b10) as Hcore.
    { rewrite <-(padd_p0_r (popen at_ FunctionScope k P)). eapply core_trans; [|exact Hc8|exact Hc10].
      subst b8. rewrite <-E1. exact (sm_declaring _ _ Hs7). }
    constructor.
    - split.
      + apply core_function; [by apply (core_ctl _ b b10)|apply (twf_flow b10), Hcore|apply (bw_targets _ (tw_bld _ (co_wf _ _ _ Hcore)))].
      + destruct Hs7, Hs10. subst b8. constructor; cbn in *; try congruence. rewrite <-E4. auto.
    - intros x Hx. cbn. rewrite (sp_ctl _ _ Hst10). subst b8. by apply (sf_label _ _ _ _ _ _ _ _ S7).
    - intros Hf [Hw Ht Hsy Hsc']. apply Hcl; [done|by constructor]. }
  destruct (flowing (bld b8)) eqn:Hf8'; wp_steps.
  2: { apply Hfin; [by apply step_refl|]. intros Hf. exfalso. unfold flowing in *. subst b8. cbn in *.
       pose proof (sm_declaring _ _ (proj2 Hm7)) as E. cbn in *. congruence. }
  apply wp_bd_reads; [apply reads_deref|]. rewrite Hret. cbn [deref]. wp_steps.
  assert (is_target b8 r) as Ht8.
  { subst b8. apply (is_target_grows b6a); [exact G7|]. apply (is_target_grows b6); [exact G6a|exact Ht5]. }
  apply (wp_addHere F); [done|done|]. intros b9 Hst9 Hf9 Hl9 Ha9. wp_steps.
  apply wp_goFinish; [by eapply step_wf|by eapply step_target|]. intros b10 Hst10 Hn10 Hf10.
  apply Hfin; [by eapply step_trans|]. intros Hf Hla. pose proof (step_trans _ _ _ Hst9 Hst10) as Hst8.
  assert (later F P b7) as Hla7.
  { assert (later F P b8) as [] ; [|subst b8; by constructor].
    eapply (later_core F P p0); [exact Hla|apply step_moves; [done|exact Hst8]|by apply flowing_declaring|by intros i _ ?%elem_of_nil]. }
  assert (flowing (bld b6) = true) as Hf6 by (unfold flowing in *; change (declaring (bnd (bld b6))) with (declaring (bnd (bld b5'))); by rewrite E1).
  pose proof (sf_known _ _ _ _ _ _ _ _ S7 Hf6 Hla7) as Hall. arcs_in Hall. destruct Hall as (HA & He & _).
  assert (arc_ok F b10 (mkArc (env_of b6) (flow (bld b)) (flow (bld b7)) code)) as [Hcode Hact].
  { eapply arc_ok_mono; [|eapply (arc_seq F Hzero); [rewrite <-W1; exact He|exact HA]].
    replace (nodes (bld b7)) with (nodes (bld b8)) by (by subst b8). by apply step_graph. }
  assert (∀ y, has_ants b10 y ↔ has_ants b9 y) as Hants by (intros ?; unfold has_ants; by rewrite Hn10).
  split; [|exact Hact]. cbn [aenv afrom ato acode].
  assert (env_of b6 = mkEnv [] (Some r) (ehome (env_of b_))) as HE by (unfold env_of; cbn; by rewrite W2).
  cbn [acode aenv afrom ato] in Hcode. rewrite HE in Hcode. eapply (between_called F Hzero _ _ _ r); [exact Hcode|intros Hlive|].
  - rewrite Hf8 in *. rewrite Hf10 by auto. apply Hl9; [|done]. apply (la_graph _ _ _) in Hla. unfold within in *. by rewrite <-Hn10.
  - intros Ha. rewrite Hf10 by (by apply Hants). apply passes_refl.
Qed.

(** ** Function expressions: their own name's scope *)

Lemma ready_ctl k P c b : ready k P b → jumps c = jumps (ctl b) → returnTo c = returnTo (ctl b) → ready k P (set_ctl c b).
Proof.
  intros H H1 H2. pose proof (ready_outer k P b c (storing (bld b)) H H1 H2) as H'. by destruct b as [[] ? ?].
Qed.
Lemma entered_ctl k key0 kind b s b1 c : entered k key0 kind b s b1 → entered k key0 kind (set_ctl c b) s (set_ctl c b1).
Proof.
  intros [(d & -> & H) Hk Ho Hc]. constructor; [by exists d|done|done|]. by eapply core_ctl, Hc.
Qed.
Lemma renames_ctl b b' c : renames b b' → renames (set_ctl c b) (set_ctl c b').
Proof. intros (d & -> & H). by exists d. Qed.

Lemma rule_function_expression k l n name f P B visit :
  (∀ k, spec k (popen (nid n, 0%nat) FunctionScope k P) l l B (function visit n f false)) →
  spec k (if bool_decide (name = "") then popen (nid n, 0%nat) FunctionScope k P
          else popen (nid n, 1%nat) NameScope k (popen (nid n, 0%nat) FunctionScope (nid n, 1%nat) P))
    l l B (visitFunctionExpression visit n name f).
Proof.
  intros H b X Hr Hi Hl. unfold visitFunctionExpression. destruct (bool_decide (name = "")); cbn [negb]; wp_steps.
  { eapply wp_mono; [by apply H| |done]. cbv beta. intros _ b' Hp. by wp_steps. }
  eapply wp_enter_scope; [exact Hr|done|done|]. intros s b1 Hen Hr1 Hi1 Hl1 Hc1. wp_steps.
  eapply wp_declareHere; [apply Hr1|exact Hc1|]. intros b2 Hren. wp_steps.
  pose proof (sf_renames F (sf_start F _ _ _ _ Hr1 Hi1 Hl1) _ Hren) as S2. destruct (renames_rest _ _ Hren) as (_ & _ & _ & Hf2 & _).
  eapply (wp_last F); [exact S2|apply H|]. rewrite Hf2. intros b3 S3 _. wp_steps. rewrite padd_p0_l in S3.
  eapply wp_leave_with; [exact Hr|exact Hen|exact S3| |done]. intros _ Hall. arcs_in Hall. by destruct Hall as (HB & _).
Qed.

Lemma wp_inline_expression k l n name f P B visit b X :
  let b_ := set_ctl (set_iife None (ctl b)) b in
  iife (ctl b) = Some (nid n) → idle b_ → pending l b →
  ready k (if bool_decide (name = "") then popen (nid n, 0%nat) FunctionScope k P
           else popen (nid n, 1%nat) NameScope k (popen (nid n, 0%nat) FunctionScope (nid n, 1%nat) P)) b →
  (∀ k b, iife (ctl b) = Some (nid n) → ready k (popen (nid n, 0%nat) FunctionScope k P) b → idle (set_ctl (set_iife None (ctl b)) b) →
     pending l b → wp (function visit n f false)
       (λ _ b', post F (popen (nid n, 0%nat) FunctionScope k P) l B (set_ctl (set_iife None (ctl b)) b) b') X b) →
  wp (visitFunctionExpression visit n name f)
    (λ _ b', post F (if bool_decide (name = "") then popen (nid n, 0%nat) FunctionScope k P
          else popen (nid n, 1%nat) NameScope k (popen (nid n, 0%nat) FunctionScope (nid n, 1%nat) P)) l B b_ b') X b.
Proof.
  intros b_ Hii Hi Hl Hr H. unfold visitFunctionExpression. destruct (bool_decide (name = "")); cbn [negb]; wp_steps.
  { eapply wp_mono; [by apply (H k)| |done]. cbv beta. intros _ b' Hp. by wp_steps. }
  eapply wp_enter_ready; [exact Hr|]. intros s b1 Hen Hr1 Hc1. wp_steps. destruct (en_state _ _ _ _ _ _ Hen) as (d & Hb1 & _).
  eapply wp_declareHere; [apply Hr1|exact Hc1|]. intros b2 Hren. wp_steps. destruct (renames_rest _ _ Hren) as (Hctl2 & _ & _ & Hf2 & Hst2 & _).
  assert (ctl b2 = ctl b) as Hctl by (rewrite Hctl2; by subst b1).
  assert (ready (nid n, 1%nat) (popen (nid n, 0%nat) FunctionScope (nid n, 1%nat) P) b2) as Hr2.
  { eapply ready_p0; [exact Hr1|]. by apply renames_moves; [apply Hr1|]. }
  eapply wp_mono; [apply (H (nid n, 1%nat) b2)| |done]; [congruence|exact Hr2| |by intros x Hx; rewrite Hctl; apply Hl|].
  { destruct Hi as [? ? ?]. constructor; cbn; rewrite ?Hctl, ?Hst2; try done. by subst b1. }
  cbv beta. intros [] b3 Hp3. wp_steps. rewrite Hctl in Hp3.
  eapply (wp_leave_scope F k _ _ _ _ b_ s (set_ctl (set_iife None (ctl b)) b1)); [by apply ready_ctl|by apply entered_ctl| |by intros b' Hp _].
  eapply (post_l F _ l B _ (set_ctl (set_iife None (ctl b)) b2)); [|exact Hf2|exact Hp3]. apply renames_moves; [apply twf_ctl, Hr1|by apply renames_ctl].
Qed.

(** A call of a function where it is written. *)
Lemma rule_iife k l n callee args P Q A B (visit : Node → TravM unit) :
  iifeCallee callee = true → spec k P l l (lim m A) (each visit args) →
  (∀ b X, iife (ctl b) = Some (nid callee) → idle (set_ctl (set_iife None (ctl b)) b) → pending l b → ready k Q b →
     wp (visit callee) (λ _ b', post F Q l (lim m B) (set_ctl (set_iife None (ctl b)) b) b') X b) →
  spec k (padd P Q) l l (lim m (seq A B)) (visitCall visit n callee args).
Proof.
  intros Hc H1 H2. unfold visitCall. rewrite Hc. eapply rule_seq; [done|exact H1|].
  intros b X Hr Hi Hl. unfold control_. wp_steps. set (b1 := set_ctl _ b).
  assert (set_ctl (set_iife None (ctl b1)) b1 = b) as Hb.
  { unfold b1. cbn. destruct b as [bl [] tb]. cbn. pose proof (id_iife _ Hi) as E. cbn in E. by subst. }
  eapply wp_mono; [apply (H2 b1)| |done]; [done|by rewrite Hb|done|by apply ready_ctl|]. cbv beta. rewrite Hb.
  intros [] b2 [[Hco Hs] Hl2 Hcl]. wp_steps.
  assert (set_ctl (set_iife None (ctl b2)) b2 = b2) as ->; [|by constructor].
  pose proof (sm_iife _ _ Hs) as E. rewrite (id_iife _ Hi) in E. destruct b2 as [bl [] tb]. cbn in *. by subst.
Qed.
End function.
