(* ===== verification/TraverseParts.v ===== *)
(** * What the induction over a tree needs

    Bounds of the parts' costs, expressions that store nothing, which parts of
    a tree are modelled when the tree is, and the rules of patterns. *)

From S2P Require Import Prelude GoString Diag Ast Symbols SymbolFacts Flow FlowWalk FlowFacts Traverse Exec.
From S2P Require Import FlowPath TraverseFacts TraverseNames TraverseSpec TraverseRules TraverseLeaves TraverseStores.
From S2P Require Import TraverseCases TraverseFunction.
Open Scope Z_scope.

(** ** Costs *)

Lemma cost_psum {A} (f : A → plan) xs x c : (cost (psum f xs) ≤ c)%nat → x ∈ xs → (cost (f x) ≤ c)%nat.
Proof.
  induction xs as [|y xs IH]; [by intros _ ?%elem_of_nil|]. cbn. intros Hc [->|Hx]%elem_of_cons; [lia|]. apply IH; [lia|done].
Qed.

(** ** Quiet expressions

    Nothing happens in them: they end, or come to a use. *)
Record still_code (A : behaviour) : Prop := {
  sc_ends : now A [] Normal;
  sc_only : ∀ tr o, now A tr o → tr = [] ∧ (o = Normal ∨ ∃ id, o = At id) }.

Lemma still_skip : still_code skip.
Proof. split; [done|]. intros tr o [-> ->]. auto. Qed.
Lemma still_use i : still_code (use i).
Proof. split; [by split; [|left]|]. intros tr o [-> [-> | ->]]; eauto. Qed.
Lemma still_seq A B : still_code A → still_code B → still_code (seq A B).
Proof.
  intros [HA HA'] [HB HB']. split; [right; by exists [], []|]. intros tr o [[H Ho]|(t1 & t2 & -> & H1 & H2)]; [by apply HA'|].
  destruct (HA' _ _ H1) as [-> _]. by apply HB'.
Qed.
Lemma still_either A B : still_code A → still_code B → still_code (either A B).
Proof. intros [HA HA'] [HB HB']. split; [by left|]. intros tr o [H|H]; [by apply HA'|by apply HB']. Qed.
Lemma still_seqs {A} (f : A → behaviour) xs : (∀ x, x ∈ xs → still_code (f x)) → still_code (seqs f xs).
Proof.
  induction xs as [|x xs IH]; intros H; cbn [seqs]; [apply still_skip|].
  apply still_seq; [apply H; by left|]. apply IH. intros y Hy. apply H. by right.
Qed.
Lemma still_if (c : bool) A B : still_code A → still_code B → still_code (if c then A else B).
Proof. by destruct c. Qed.
Lemma all_elem {A} (f : A → bool) xs x : all f xs = true → x ∈ xs → f x = true.
Proof.
  induction xs as [|y xs IH]; [by intros _ ?%elem_of_nil|]. cbn. intros [H1 H2]%andb_true_iff [->|Hx]%elem_of_cons; auto.
Qed.

Lemma still_perhaps A : still_code A → still_code (perhaps A).
Proof. intros H. apply still_either; [apply still_skip|done]. Qed.
Lemma still_closure f known A : still_code (closure f known A).
Proof. split; [done|]. intros tr o [-> ->]. auto. Qed.

Lemma quiet_still never k c n : (cost (plan_of k n) ≤ c)%nat → quiet n = true → still_code (runs never "" n).
Proof.
  revert n. induction c as [|c IH]; intros [i pos kind]; [cbn; lia|]. intros Hc Hq.
  assert (∀ xs, (cost (psum (plan_of k) xs) ≤ c)%nat → all quiet xs = true → still_code (seqs (runs never "") xs)) as IHs.
  { intros xs Hx Ha. apply still_seqs. intros x Hi. apply IH; [by eapply cost_psum|by eapply all_elem]. }
  assert (∀ x, (cost (popt (plan_of k) x) ≤ c)%nat → all_opt quiet x = true → still_code (maybe (runs never "") x)) as IHo.
  { intros [x|] Hx Ha; [by apply IH|apply still_skip]. }
  destruct kind; cbn in Hc, Hq; try discriminate; bool_cases; repeat case_match; cbn in Hc; try discriminate; cbn [runs];
    repeat case_match; try discriminate; simplify_eq;
    repeat first [apply still_seq | apply still_perhaps | apply still_either | apply still_skip | apply still_use
      | apply still_closure | apply IHs; [lia|done] | apply IHo; [lia|done] | apply IH; [lia|done]].
  apply still_seqs. intros [x v] Hi. assert (Hcost := cost_psum _ _ _ c ltac:(apply le_S_n, Hc) Hi). pose proof (all_elem _ _ _ Hq Hi) as Hq'.
  cbn in Hcost, Hq'. apply andb_true_iff in Hq' as [??]. apply still_seq; [apply IHo|apply IH]; first [lia|done].
Qed.

(** ** Inclusion, in a mode *)

Definition incl (m : mode) (A B : behaviour) : Prop := sub (lim m A) (lim m B).

Lemma incl_spec F m k P l l' A B n : spec F k P l l' (lim m B) n → incl m A B → spec F k P l l' (lim m A) n.
Proof. apply spec_sub. Qed.
Lemma incl_intro m A B :
  (m ≠ Blind → ∀ f tr id, inside A f tr id → inside B f tr id) → (m = Full → ∀ tr o, now A tr o → now B tr o) → incl m A B.
Proof. intros Hi Hn. destruct m; split; try (by intros ? ? []); try (by intros ? ? ? []); cbn; first [by apply Hn|by apply Hi]. Qed.
Lemma incl_of m A B : sub A B → incl m A B.
Proof. apply lim_sub. Qed.
Lemma incl_refl m A : incl m A A.
Proof. split; auto. Qed.
Lemma incl_trans m A B C : incl m A B → incl m B C → incl m A C.
Proof. intros [H1 H2] [H3 H4]. split; auto. Qed.
Lemma incl_inside m A B f tr id : incl m A B → m ≠ Blind → inside A f tr id → inside B f tr id.
Proof. intros [_ H] Hm. by destruct m; [| |]; [|apply H..]. Qed.
Lemma incl_now m A B tr o : incl m A B → m = Full → now A tr o → now B tr o.
Proof. intros [H _] ->. apply H. Qed.
Ltac incl_tac := intros; apply incl_intro; intros ?Hm; [|subst].

Lemma incl_seq m A A' B B' : incl m A A' → incl m B B' → incl m (seq A B) (seq A' B').
Proof.
  intros HA HB. apply incl_intro; intros Hm.
  - intros f tr id [H|H]; [left|right]; by eapply incl_inside.
  - intros tr o [[H Ho]|(t1 & t2 & -> & H1 & H2)]; [left; split; [by eapply incl_now|done]|].
    right. exists t1, t2. split_and!; [done|by eapply incl_now..].
Qed.
Lemma incl_either m A A' B B' : incl m A A' → incl m B B' → incl m (either A B) (either A' B').
Proof.
  intros HA HB. apply incl_intro; intros Hm.
  - intros f tr id [H|H]; [left|right]; by eapply incl_inside.
  - intros tr o [H|H]; [left|right]; by eapply incl_now.
Qed.
Lemma incl_seqs {A} m (f g : A → behaviour) xs : (∀ x, x ∈ xs → incl m (f x) (g x)) → incl m (seqs f xs) (seqs g xs).
Proof.
  induction xs as [|x xs IH]; intros H; cbn [seqs]; [apply incl_refl|].
  apply incl_seq; [apply H; by left|]. apply IH. intros y Hy. apply H. by right.
Qed.
Lemma incl_switched m A B : incl m A B → incl m (switched A) (switched B).
Proof.
  intros H. apply incl_intro; intros Hm; [intros f tr id; exact (incl_inside m A B f tr id H Hm)|].
  intros tr o. pose proof (λ tr o, incl_now m A B tr o H Hm) as Hn. destruct o; cbn; auto.
  - intros [?|?]; auto.
  - intros [??]; auto.
Qed.
(** What ends at once, done or not. *)
Lemma incl_perhaps m A : (m = Full → now A [] Normal) → incl m (perhaps A) A.
Proof.
  intros HA. apply incl_intro; intros Hm.
  - by intros f tr id [[]|H].
  - intros tr o [[-> ->]|H]; [by apply HA|done].
Qed.
Lemma incl_perhaps_r m A : incl m A (perhaps A).
Proof. apply incl_of. by split; right. Qed.
Lemma incl_skip_r m A : incl m A (seq A skip).
Proof.
  apply incl_of. split; [|by left]. intros tr o H. destruct (decide (o = Normal)) as [->|Ho]; [|by left].
  right. exists tr, []. by rewrite app_nil_r.
Qed.
Lemma incl_skip_l m D A : (m = Full → now D [] Normal) → incl m A (seq D A).
Proof.
  intros HD. apply incl_intro; intros Hm; [by right|]. intros tr o H. right. exists [], tr. auto.
Qed.
Lemma incl_nothing m A : incl m nothing A.
Proof. apply incl_intro; intros _; by intros ? ? []. Qed.
(** A default that stores nothing: it may as well be evaluated. *)
Lemma incl_default m (run : Node → behaviour) d :
  (m = Full → ∀ x, d = Some x → still_code (run x)) →
  incl m (match d with Some d => perhaps (run d) | None => skip end) (maybe run d).
Proof.
  intros H. destruct d as [d|]; cbn; [|apply incl_refl]. apply incl_perhaps. intros Hm. by apply (H Hm d eq_refl).
Qed.

(** [x op= y]: [y] is visited first. *)
Lemma incl_compound m i Y S : (m = Full → still_code Y) → incl m (seq (use i) (seq Y S)) (seq Y (seq (use i) S)).
Proof.
  intros HY. apply incl_intro; intros Hm; [cbn; tauto|]. destruct (HY Hm) as [He Ho]. intros tr o.
  intros [[[-> H] Hn]|(t1 & t2 & -> & [-> _] & [[H Hn]|(t3 & t4 & -> & H1 & H2)])].
  - right. exists [], []. split_and!; [done|done|]. left. by split; [split|].
  - left. by split.
  - destruct (Ho _ _ H1) as [-> _]. right. exists [], t4. split_and!; [done|done|]. right. exists [], t4.
    split_and!; [done| |done]. split; auto.
Qed.

(** The clauses of a switch whose tests store nothing. *)
Section clauses.
Context (run : Node → behaviour).
Definition still_tests (cases : list SwitchCase) : Prop := ∀ t body, mkCase (Some t) body ∈ cases → still_code (run t).

Lemma still_test t body cases : still_tests (mkCase t body :: cases) → still_code (maybe run t).
Proof. intros H. destruct t as [t|]; [|apply still_skip]. apply (H t body). by left. Qed.
Lemma still_rest c cases : still_tests (c :: cases) → still_tests cases.
Proof. intros H t body Hc. apply (H t body). by right. Qed.

Lemma bodies_falls cases tr o : still_tests cases → now (bodies run cases) tr o → now (falls run cases) tr o.
Proof.
  revert tr o. induction cases as [|[t body] cases IH]; intros tr o Hs; [done|]. apply still_test in Hs as Ht. apply still_rest in Hs.
  assert (∀ tr o, now (seqs run body) tr o → now (clause_code run (mkCase t body)) tr o) as Hb.
  { intros tr' o' H. right. exists [], tr'. split_and!; [done|apply Ht|done]. }
  intros [[H Ho]|(t1 & t2 & -> & H1 & H2)]; [left|right; exists t1, t2]; auto.
Qed.

(** Where the tests so far may have ended. *)
Lemma choose_enters (W : list event → ending → Prop) all_tests ts cases tr o :
  still_tests cases → still_code all_tests → still_code ts →
  (∀ tr o, now all_tests tr o → o ≠ Normal → W tr o) → (∀ tr o, now ts tr o → o ≠ Normal → W tr o) →
  (∀ tr o, now (enterings run cases) tr o → W tr o) → now (choose run all_tests ts cases) tr o → W tr o.
Proof.
  revert ts. induction cases as [|[t body] cases IH]; intros ts Hs Ha Ht HaW HtW HW; [by intros []|].
  apply still_rest in Hs as Hr. pose proof (still_test _ _ _ Hs) as Htest.
  assert (∀ tr o, now (seq (seqs run body) (bodies run cases)) tr o → W tr o) as Hfrom.
  { intros tr' o' H. apply HW. left.
    assert (∀ tr o, now (seqs run body) tr o → now (clause_code run (mkCase t body)) tr o) as Hb.
    { intros tr2 o2 H2. right. exists [], tr2. split_and!; [done|apply Htest|done]. }
    destruct H as [[H Ho]|(t1 & t2 & -> & H1 & H2)]; [left; auto|]. right. exists t1, t2. split_and!; [done|auto|by apply bodies_falls]. }
  assert (∀ T tr o, still_code T → (∀ tr o, now T tr o → o ≠ Normal → W tr o) →
            now (seq T (seq (seqs run body) (bodies run cases))) tr o → W tr o) as Hgo.
  { intros T tr' o' [_ HT] HTW [[H Ho]|(t1 & t2 & -> & H1 & H2)]; [by apply HTW|]. destruct (HT _ _ H1) as [-> _]. by apply Hfrom. }
  assert (∀ tr o, now (enterings run cases) tr o → W tr o) as HWr by (intros tr' o' H; apply HW; by right).
  destruct t as [t|]; cbn [choose].
  - assert (∀ tr o, now (seq ts (run t)) tr o → o ≠ Normal → W tr o) as Hnext.
    { intros tr' o' [[H Ho]|(t1 & t2 & -> & H1 & H2)] Hne; [by apply HtW|]. destruct (sc_only _ Ht _ _ H1) as [-> _].
      apply HW. left. left. split; [left; by split|done]. }
    assert (still_code (seq ts (run t))) as Hst by by apply still_seq.
    intros [H|H]; [by apply (Hgo (seq ts (run t)))|]. by apply (IH (seq ts (run t))).
  - intros [H|H]; [by apply (Hgo all_tests)|]. by apply (IH ts).
Qed.

Lemma tests_still cases : still_tests cases → still_code (tests run cases).
Proof. intros H. apply still_seqs. intros [t body] Hc. destruct t as [t|]; [by apply (H t body)|apply still_skip]. Qed.
Lemma tests_enter cases tr o : still_tests cases → now (tests run cases) tr o → o ≠ Normal → now (enterings run cases) tr o.
Proof.
  revert tr o. induction cases as [|[t body] cases IH]; intros tr o Hs; [by intros [_ ->]|].
  pose proof (still_test _ _ _ Hs) as Ht. apply still_rest in Hs.
  intros [[H Ho]|(t1 & t2 & -> & H1 & H2)] Hne.
  - left. left. split; [left; by split|done].
  - destruct (sc_only _ Ht _ _ H1) as [-> _]. right. by apply IH.
Qed.

(** The functions in the clauses. *)
Lemma inside_enterings cases c f tr id : c ∈ cases → inside (clause_code run c) f tr id → inside (enterings run cases) f tr id.
Proof.
  induction cases as [|c' cases IH]; [by intros ?%elem_of_nil|]. intros [->|Hc]%elem_of_cons H; [by left; left|]. right. auto.
Qed.
Lemma inside_seqs {A} (g : A → behaviour) xs f tr id : inside (seqs g xs) f tr id → ∃ x, x ∈ xs ∧ inside (g x) f tr id.
Proof.
  induction xs as [|x xs IH]; [by intros []|]. intros [H|H]; [exists x; split; [by left|done]|].
  destruct (IH H) as (y & Hy & Hi). exists y. split; [by right|done].
Qed.
Lemma inside_choose (Z : key → list event → nat → Prop) all_tests ts cases f tr id :
  (∀ c f tr id, c ∈ cases → inside (clause_code run c) f tr id → Z f tr id) →
  (∀ f tr id, inside all_tests f tr id → Z f tr id) → (∀ f tr id, inside ts f tr id → Z f tr id) →
  inside (choose run all_tests ts cases) f tr id → Z f tr id.
Proof.
  revert ts. induction cases as [|[t body] cases IH]; intros ts HZ Ha Ht; [by intros []|].
  assert (∀ f tr id, inside (seq (seqs run body) (bodies run cases)) f tr id → Z f tr id) as Hfrom.
  { intros f' tr' id' [H|H]; [apply (HZ (mkCase t body)); [by left|by right]|].
    apply inside_seqs in H as ([t' body'] & Hc & H). apply (HZ (mkCase t' body')); [by right|by right]. }
  assert (∀ c f tr id, c ∈ cases → inside (clause_code run c) f tr id → Z f tr id) as HZr.
  { intros c f' tr' id' Hc. apply HZ. by right. }
  destruct t as [t|]; cbn [choose].
  - assert (∀ f tr id, inside (run t) f tr id → Z f tr id) as Hrun.
    { intros f' tr' id' H. apply (HZ (mkCase (Some t) body)); [by left|by left]. }
    assert (∀ f tr id, inside (seq ts (run t)) f tr id → Z f tr id) as Hnext by (intros f' tr' id' [H|H]; auto).
    intros [[H|H]|H]; [auto..|]. by eapply (IH (seq ts (run t))).
  - intros [[H|H]|H]; [auto..|]. by eapply (IH ts).
Qed.

Lemma incl_clauses m cases : (m = Full → still_tests cases) → incl m (clauses run cases) (switch_code run cases).
Proof.
  intros Hs. apply incl_intro; intros Hm.
  - intros f tr id.
    assert (∀ f tr id, inside (tests run cases) f tr id → inside (enterings run cases) f tr id) as Ht.
    { intros f' tr' id' ([t body] & Hc & H)%inside_seqs. eapply inside_enterings; [done|by left]. }
    intros [H|H]; left.
    + revert H. apply (inside_choose (inside (enterings run cases))); [intros; by eapply inside_enterings|done|by intros ? ? ? []].
    + destruct (has_default cases); [done|]. by apply Ht.
  - specialize (Hs Hm). pose proof (tests_still _ Hs) as Ht. intros tr o [H|H].
    + left. revert H. apply (choose_enters (now (enterings run cases))); [done|done|apply still_skip|..].
      * intros. by apply tests_enter.
      * by intros ? ? [_ ->].
      * done.
    + unfold switch_code. cbn. destruct (has_default cases); [done|]. destruct (decide (o = Normal)) as [->|Ho].
      * right. by destruct (sc_only _ Ht _ _ H) as [-> _].
      * left. by apply tests_enter.
Qed.
End clauses.
