(* ===== verification/TraversePatterns.v ===== *)
(** * The parts of a tree that are not nodes

    What a node's lists, options, blocks, patterns, targets and functions come
    across and do, from what their nodes do. *)

From S2P Require Import Prelude GoString Diag Ast Symbols SymbolFacts Flow FlowWalk FlowFacts Traverse Exec.
From S2P Require Import FlowPath TraverseFacts TraverseNames TraverseSpec TraverseRules TraverseLeaves TraverseStores.
From S2P Require Import TraverseCases TraverseFunction TraverseParts.
Open Scope Z_scope.

(** ** Induction over patterns *)

Lemma pattern_ind (P : ArrayPatternElem → Prop) (Q : DestructProp → Prop) :
  (∀ name d sa so, from_option (Forall P) True sa → from_option (Forall Q) True so → P (mkElem name d sa so)) →
  (∀ key name d sa so, from_option (Forall P) True sa → from_option (Forall Q) True so → Q (mkProp key name d sa so)) →
  (∀ e, P e) ∧ (∀ p, Q p).
Proof.
  intros HP HQ.
  assert (∀ e, P e) as He.
  { fix He 1 with (Hp (p : DestructProp) {struct p} : Q p).
    - intros [name d sa so]. apply HP; [destruct sa as [l|]|destruct so as [l|]]; cbn; try exact I;
        induction l; constructor; solve [apply He|apply Hp|done].
    - destruct p as [key name d sa so]. apply HQ; [destruct sa as [l|]|destruct so as [l|]]; cbn; try exact I;
        induction l; constructor; solve [apply He|apply Hp|done]. }
  split; [done|].
  fix Hp 1. intros [key name d sa so]. apply HQ; [destruct sa as [l|]|destruct so as [l|]]; cbn; try exact I;
    induction l; constructor; solve [apply He|apply Hp|done].
Qed.

(** ** What is asked of a part

    [a] and [r]: its labels are in order and it is regular, as far as the mode
    wants it; [q]: there is no loop that would take the pending label. *)
Definition good (c : nat) (m : mode) (lb : string) (P : plan) (a r q : bool) : Prop :=
  (cost P ≤ c)%nat ∧ (m ≠ Blind → a = true) ∧ (m = Full → r = true) ∧ (m = Blind ∨ lb = "" ∨ q = true).

(** A part of what is [good], from the goodness [G] of the whole. *)
Ltac good_part G :=
  let Hc := fresh in let Ha := fresh in let Hr := fresh in let Hq := fresh in let Hm := fresh in
  destruct G as (Hc & Ha & Hr & Hq); split_and!;
  [ cbn in Hc |- *; lia
  | intros Hm; specialize (Ha Hm); cbn in Ha |- *; bool_cases; repeat (apply andb_true_intro; split); first [done | congruence]
  | intros Hm; specialize (Hr Hm); cbn in Hr |- *; bool_cases; repeat (apply andb_true_intro; split); first [done | congruence]
  | destruct Hq as [?|[?|Hq]]; [by left|by right; left|right; right; cbn in Hq |- *; bool_cases; repeat (apply andb_true_intro; split); first [done | congruence]] ].

Lemma good_all {A} c m lb (P : A → plan) a r q xs x :
  good c m lb (psum P xs) (all a xs) (all r xs) (all q xs) → x ∈ xs → good c m lb (P x) (a x) (r x) (q x).
Proof.
  intros (Hc & Ha & Hr & Hq) Hx. split_and!; [by eapply cost_psum|..].
  - intros Hm. eapply all_elem; [by apply Ha|done].
  - intros Hm. eapply all_elem; [by apply Hr|done].
  - destruct Hq as [?|[?|Hq]]; [by left|by right; left|]. right. right. by eapply all_elem.
Qed.
Lemma good_some {A} c m lb (P : A → plan) a r q o x :
  good c m lb (popt P o) (all_opt a o) (all_opt r o) (all_opt q o) → o = Some x → good c m lb (P x) (a x) (r x) (q x).
Proof. by intros G ->. Qed.

Section parts.
Context (F : trav) (Hzero : nodes (bld F) !! unreachableFlow = Some unreachable_node).
Context (visit : Node → TravM unit) (c : nat).
Abbreviation spec := (spec F).
Abbreviation never := (never_call (t_refs (tab F)) (symbols (bnd (bld F)))).
Abbreviation own := labels_own_loop.
Abbreviation bare := takes_no_label.
Abbreviation good := (good c).

(** What a visit to a node does. *)
Record visited (k : key) (n : Node) : Prop := {
  vi_node : ∀ m lb, (m ≠ Blind → everywhere own n = true) → (m = Full → regular n = true) →
    m = Blind ∨ lb = "" ∨ everywhere bare n = true →
    spec k (plan_of k n) (lab m lb) (lab m lb) (lim m (runs never "" n)) (visit n);
  vi_loop : ∀ m lb, is_loop n = true → (m ≠ Blind → everywhere own n = true) → (m = Full → regular n = true) →
    m = Blind ∨ lb = "" ∨ plain_heads n = true →
    spec k (plan_of k n) (lab m lb) (lab m "") (lim m (runs never lb n)) (visit n);
  vi_identifier : ∀ name, nkind n = Identifier name → visits_identifier F k n (visit n);
  vi_inline : ∀ m lb f, match nkind n with FunctionExpression _ f' | ArrowFunction f' => f' = f | _ => False end →
    (m ≠ Blind → everywhere own n = true) → (m = Full → regular_fn f = true) →
    m = Blind ∨ lb = "" ∨ everywhere bare n = true →
    ∀ b X, iife (ctl b) = Some (nid n) → idle (set_ctl (set_iife None (ctl b)) b) → pending (lab m lb) b →
    ready k (plan_of k n) b →
    wp (visit n) (λ _ b', post F (plan_of k n) (lab m lb) (lim m (called (seq (emit (EEnter (nid n, 0%nat))) (runs_fn never f))))
                            (set_ctl (set_iife None (ctl b)) b) b') X b }.

Context (Hvisit : ∀ k n, (cost (plan_of k n) ≤ c)%nat → visited k n).

Lemma v_node k m lb n :
  good m lb (plan_of k n) (everywhere own n) (regular n) (everywhere bare n) →
  spec k (plan_of k n) (lab m lb) (lab m lb) (lim m (runs never "" n)) (visit n).
Proof. intros (Hc & Ha & Hr & Hq). by apply (vi_node _ _ (Hvisit _ _ Hc)). Qed.
Lemma v_each k m lb xs :
  good m lb (psum (plan_of k) xs) (all (everywhere own) xs) (all regular xs) (all (everywhere bare) xs) →
  spec k (psum (plan_of k) xs) (lab m lb) (lab m lb) (lim m (seqs (runs never "") xs)) (each visit xs).
Proof. intros G. apply rule_each; [done|]. intros x Hx. apply v_node. by apply (good_all _ _ _ _ _ _ _ _ _ G). Qed.
Lemma v_opt k m lb o :
  good m lb (popt (plan_of k) o) (all_opt (everywhere own) o) (all_opt regular o) (all_opt (everywhere bare) o) →
  spec k (popt (plan_of k) o) (lab m lb) (lab m lb) (lim m (maybe (runs never "") o)) (opt visit o).
Proof. intros G. apply rule_opt. intros x Hx. apply v_node. by apply (good_some _ _ _ _ _ _ _ _ _ G). Qed.
Lemma v_body k m lb body :
  good m lb (popt (plan_block k) body) (all_opt (everywhere_block own) body) (all_opt regular_block body)
    (all_opt (everywhere_block bare) body) →
  spec k (popt (plan_block k) body) (lab m lb) (lab m lb) (lim m (maybe (runs_block never) body)) (visitBody visit body).
Proof.
  intros G. apply (rule_opt F m k (lab m lb) (λ b, visit (as_node b))). intros [i pos ss] ->. by apply (v_node k m lb (mkNode i pos (BlockStatement ss))).
Qed.
Lemma v_stmts k m lb body :
  good m lb (popt (plan_stmts k) body) (all_opt (everywhere_block own) body) (all_opt regular_block body)
    (all_opt (everywhere_block bare) body) →
  spec k (popt (plan_stmts k) body) (lab m lb) (lab m lb) (lim m (maybe (runs_stmts never) body))
    (opt (λ b, statements visit (stmts_of b)) body).
Proof.
  intros G. apply rule_opt. intros [i pos ss] ->. apply v_each. good_part G.
Qed.
Lemma v_initializer k m lb d :
  good m lb (popt (plan_of k) d) (all_opt (everywhere own) d) (all_opt regular d) (all_opt (everywhere bare) d) →
  spec k (popt (plan_of k) d) (lab m lb) (lab m lb) (lim m (match d with Some d => perhaps (runs never "" d) | None => skip end))
    (initializer visit d).
Proof. intros G. destruct d as [d|]; [apply rule_initializer; [done|by apply v_node]|by apply rule_skip]. Qed.

(** A default that is visited as if it were always evaluated. *)
Lemma quiet_code k n : (cost (plan_of k n) ≤ c)%nat → quiet n = true → still_code (runs never "" n).
Proof. apply quiet_still. Qed.
Lemma v_default k m lb d :
  good m lb (popt (plan_of k) d) (all_opt (everywhere own) d) (all_opt quiet d && all_opt regular d) (all_opt (everywhere bare) d) →
  spec k (popt (plan_of k) d) (lab m lb) (lab m lb) (lim m (match d with Some d => perhaps (runs never "" d) | None => skip end))
    (opt visit d).
Proof.
  intros G. eapply incl_spec; [apply v_opt; good_part G|]. apply incl_default. intros Hm x ->.
  destruct G as (Hc & _ & Hr & _). specialize (Hr Hm). cbn in Hr. bool_cases. by eapply quiet_code.
Qed.

(** ** Patterns *)

Abbreviation good_elem m lb k r e := (good m lb (plan_elem k e) (everywhere_elem own e) r (everywhere_elem bare e)).
Abbreviation good_prop m lb k r e := (good m lb (plan_prop k e) (everywhere_prop own e) r (everywhere_prop bare e)).

(** The parts inside a part of a pattern. *)
Lemma v_inside {A} k m lb (P : key → A → plan) a r q (B : A → behaviour) (f : A → TravM unit) o :
  from_option (Forall (λ x, ∀ k m lb, good m lb (P k x) (a x) (r x) (q x) →
                         spec k (P k x) (lab m lb) (lab m lb) (lim m (B x)) (f x))) True o →
  good m lb (popt (psum (P k)) o) (all_opt (all a) o) (all_opt (all r) o) (all_opt (all q) o) →
  spec k (popt (psum (P k)) o) (lab m lb) (lab m lb) (lim m (match o with Some l => seqs B l | None => skip end))
    (match o with Some l => each f l | None => mret tt end).
Proof.
  intros H G. destruct o as [l|]; [|by apply rule_skip]. apply rule_each; [done|]. intros x Hx. cbn in H. rewrite Forall_forall in H.
  apply H; [done|]. by apply (good_all _ _ _ _ _ _ _ _ _ G).
Qed.

Lemma v_seq k m lb P Q A B m1 m2 :
  spec k P (lab m lb) (lab m lb) (lim m A) m1 → spec k Q (lab m lb) (lab m lb) (lim m B) m2 →
  spec k (padd P Q) (lab m lb) (lab m lb) (lim m (seq A B)) (m1 ≫= λ _, m2).
Proof. by apply rule_seq. Qed.

Lemma v_bind kind :
  (∀ e k m lb, good_elem m lb k (regular_pattern_elem e) e →
     spec k (plan_elem k e) (lab m lb) (lab m lb) (lim m (runs_elem never kind e)) (bindElem visit kind e)) ∧
  (∀ e k m lb, good_prop m lb k (regular_pattern_prop e) e →
     spec k (plan_prop k e) (lab m lb) (lab m lb) (lim m (runs_prop never kind e)) (bindProp visit kind e)).
Proof.
  apply pattern_ind.
  - intros name d sa so Hsa Hso k m lb G.
    apply v_seq; [apply v_default; good_part G|].
    pose proof (v_inside k m lb plan_elem _ _ _ _ _ sa Hsa ltac:(good_part G)) as Ha.
    pose proof (v_inside k m lb plan_prop _ _ _ _ _ so Hso ltac:(good_part G)) as Ho.
    destruct sa as [sa|], so as [so|]; first [exact (rule_assignNames F m k (lab m lb) kind name) | exact (v_seq _ _ _ _ _ _ _ _ _ Ha Ho)].
  - intros key name d sa so Hsa Hso k m lb G.
    apply v_seq; [apply v_opt; good_part G|]. apply v_seq; [apply v_default; good_part G|].
    pose proof (v_inside k m lb plan_elem _ _ _ _ _ sa Hsa ltac:(good_part G)) as Ha.
    pose proof (v_inside k m lb plan_prop _ _ _ _ _ so Hso ltac:(good_part G)) as Ho.
    destruct sa as [sa|], so as [so|]; first [exact (rule_assignNames F m k (lab m lb) kind name) | exact (v_seq _ _ _ _ _ _ _ _ _ Ha Ho)].
Qed.

Lemma v_defaults :
  (∀ e k m lb, good m lb (plan_default_elem k e) (everywhere_elem own e) (regular_default_elem e) (everywhere_elem bare e) →
     spec k (plan_default_elem k e) (lab m lb) (lab m lb) (lim m (runs_default_elem never e)) (elemDefaults visit e)) ∧
  (∀ e k m lb, good m lb (plan_default_prop k e) (everywhere_prop own e) (regular_default_prop e) (everywhere_prop bare e) →
     spec k (plan_default_prop k e) (lab m lb) (lab m lb) (lim m (runs_default_prop never e)) (propDefaults visit e)).
Proof.
  apply pattern_ind.
  - intros name d sa so Hsa Hso k m lb G. apply v_seq; [apply v_initializer; good_part G|].
    apply v_seq; [apply (v_inside k m lb plan_default_elem _ _ _ _ _ sa Hsa)|apply (v_inside k m lb plan_default_prop _ _ _ _ _ so Hso)];
      good_part G.
  - intros key name d sa so Hsa Hso k m lb G. apply v_seq; [apply v_opt; good_part G|].
    apply v_seq; [apply v_initializer; good_part G|].
    apply v_seq; [apply (v_inside k m lb plan_default_elem _ _ _ _ _ sa Hsa)|apply (v_inside k m lb plan_default_prop _ _ _ _ _ so Hso)];
      good_part G.
Qed.

Lemma v_bindPattern kind k m lb arr obj :
  good m lb (padd (psum (plan_elem k) arr) (psum (plan_prop k) obj))
    (all (everywhere_elem own) arr && all (everywhere_prop own) obj) (all regular_pattern_elem arr && all regular_pattern_prop obj)
    (all (everywhere_elem bare) arr && all (everywhere_prop bare) obj) →
  spec k (padd (psum (plan_elem k) arr) (psum (plan_prop k) obj)) (lab m lb) (lab m lb)
    (lim m (seq (seqs (runs_elem never kind) arr) (seqs (runs_prop never kind) obj))) (bindPattern visit kind arr obj).
Proof.
  intros G. apply v_seq; (apply rule_each; [done|]; intros x Hx).
  - apply v_bind. eapply good_all; [|done]. good_part G.
  - apply v_bind. eapply good_all; [|done]. good_part G.
Qed.
Lemma v_patternDefaults k m lb arr obj :
  good m lb (padd (psum (plan_default_elem k) arr) (psum (plan_default_prop k) obj))
    (all (everywhere_elem own) arr && all (everywhere_prop own) obj) (all regular_default_elem arr && all regular_default_prop obj)
    (all (everywhere_elem bare) arr && all (everywhere_prop bare) obj) →
  spec k (padd (psum (plan_default_elem k) arr) (psum (plan_default_prop k) obj)) (lab m lb) (lab m lb)
    (lim m (seq (seqs (runs_default_elem never) arr) (seqs (runs_default_prop never) obj))) (patternDefaults visit arr obj).
Proof.
  intros G. apply v_seq; (apply rule_each; [done|]; intros x Hx).
  - apply v_defaults. eapply good_all; [|done]. good_part G.
  - apply v_defaults. eapply good_all; [|done]. good_part G.
Qed.

(** ** Functions *)

Definition param_plan (k : key) (p : Param) : plan :=
  match p with
  | mkParam _ d arr obj decs =>
      padd (psum (plan_of k) decs)
        (padd (popt (plan_of k) d) (padd (psum (plan_default_elem k) arr) (psum (plan_default_prop k) obj)))
  end.
Definition param_labels (t : Node → bool) (p : Param) : bool :=
  match p with
  | mkParam _ d arr obj decs =>
      all_opt (everywhere t) d && all (everywhere_elem t) arr && all (everywhere_prop t) obj && all (everywhere t) decs
  end.
Definition param_regular (p : Param) : bool :=
  match p with
  | mkParam _ d arr obj decs =>
      all_opt regular d && all regular_default_elem arr && all regular_default_prop obj && bool_decide (decs = [])
  end.
Definition param_code (p : Param) : behaviour :=
  match p with
  | mkParam _ d arr obj _ =>
      seq (match d with Some d => perhaps (runs never "" d) | None => skip end)
        (seq (seqs (runs_default_elem never) arr) (seqs (runs_default_prop never) obj))
  end.
Lemma v_param k m lb p :
  good m lb (param_plan k p) (param_labels own p) (param_regular p) (param_labels bare p) →
  spec k (param_plan k p) (lab m lb) (lab m lb) (lim m (param_code p)) (visitParam visit p).
Proof.
  destruct p as [name d arr obj decs]. intros G.
  eapply incl_spec.
  - apply v_seq; [|apply v_seq; [apply v_initializer; good_part G|apply v_patternDefaults; good_part G]].
    (* no decorators, where the function is regular *)
    apply v_each. destruct (decide (decs = [])) as [->|Hd]; [good_part G|].
    assert (m ≠ Full) as Hm by (intros Hm; destruct G as (_ & _ & Hr & _); specialize (Hr Hm); cbn in Hr; bool_cases; by case_bool_decide).
    enough (good m lb (psum (plan_of k) decs) (all (everywhere own) decs) true (all (everywhere bare) decs)) as (?&?&_&?) by by split_and!.
    good_part G.
  - apply incl_skip_l. intros Hm. destruct G as (_ & _ & Hr & _). specialize (Hr Hm). cbn in Hr. bool_cases.
    case_bool_decide; [by subst|done].
Qed.

(** The mode in which a function is visited: [regular_fn] or not. *)
Definition inner (m : mode) (r : bool) : mode := match m with Blind => Blind | _ => if r then Full else Insides end.
Lemma inner_lab m r lb : lab (inner m r) lb = lab m lb.
Proof. by destruct m, r. Qed.
Lemma inner_blind m r : inner m r = Blind → m = Blind.
Proof. by destruct m, r. Qed.
Lemma inner_full m r : inner m r = Full → r = true.
Proof. by destruct m, r. Qed.

Lemma closure_lim m f r A B C :
  sub (lim m (closure f r (seq A (seq B C))))
    (closure f true (seq (lim (inner m r) A) (seq (lim (inner m r) B) (lim (inner m r) C)))).
Proof.
  destruct m; [by split; intros ? ? []|destruct r..]; (split; [by intros ? ?|]); cbn; intros g tr id; try tauto.
  all: intros [[? _]|H]; [done|tauto].
Qed.

(** The parts of a function, visited in its scope [at_]. *)
Lemma v_fn k m lb f :
  good m lb (plan_fn k f) (everywhere_fn own f) (regular_fn f) (everywhere_fn bare f) →
  ∃ P1 P2 P3 B1 B2 B3, plan_fn k f = padd P1 (padd P2 P3) ∧ runs_fn never f = seq B1 (seq B2 B3)
  ∧ spec k P1 (lab m lb) (lab m lb) (lim m B1) (each (visitParam visit) (params f))
  ∧ spec k P2 (lab m lb) (lab m lb) (lim m B2) (opt (λ body, statements visit (stmts_of body)) (fn_body f))
  ∧ spec k P3 (lab m lb) (lab m lb) (lim m B3) (opt visit (expr_body f)).
Proof.
  destruct f as [tps ps body e ? ? ?]. intros G.
  change (good m lb (padd (psum (param_plan k) ps) (padd (popt (plan_stmts k) body) (popt (plan_of k) e)))
    (all (param_labels own) ps && all_opt (everywhere_block own) body && all_opt (everywhere own) e)
    (all param_regular ps && all_opt regular_block body && all_opt regular e)
    (all (param_labels bare) ps && all_opt (everywhere_block bare) body && all_opt (everywhere bare) e)) in G.
  exists (psum (param_plan k) ps), (popt (plan_stmts k) body), (popt (plan_of k) e),
    (seqs param_code ps), (maybe (runs_stmts never) body), (maybe (runs never "") e).
  split_and!; [done|done|..].
  - apply rule_each; [done|]. intros p Hp. apply v_param. eapply (good_all _ _ _ (param_plan k)); [|done]. good_part G.
  - apply v_stmts. good_part G.
  - apply v_opt. good_part G.
Qed.

Lemma v_closure k m lb n f arrow r :
  let at_ := (nid n, 0%nat) in
  good m lb (plan_fn at_ f) (everywhere_fn own f) r (everywhere_fn bare f) →
  spec k (popen at_ FunctionScope k (plan_fn at_ f)) (lab m lb) (lab m lb) (lim m (closure at_ (regular_fn f) (runs_fn never f)))
    (function visit n f arrow).
Proof.
  intros at_ (Hc & Ha & _ & Hq). set (m' := inner m (regular_fn f)).
  destruct (v_fn at_ m' lb f) as (P1 & P2 & P3 & B1 & B2 & B3 & -> & -> & H1 & H2 & H3).
  { split_and!; [done|..].
    - intros Hm. apply Ha. intros ->. done.
    - apply inner_full.
    - destruct Hq as [->|?]; [by left|by right]. }
  assert (lab m' lb = lab m lb) as El by apply inner_lab. rewrite !El in H1, H2, H3. eapply spec_sub; [by apply rule_closure|]. apply closure_lim.
Qed.

(** ** Targets of destructuring assignments *)

Lemma v_written k m l t name :
  nkind t = Identifier name → visited k t →
  spec k (plan_of k t) l l (lim m (seq (use (nid t)) (emit (EStore (TId (nid t)) (Some t) false true))))
    (saved ← gets (λ b, storing (bld b)); set_storing (Some t) ≫= λ _, control_ (set_writing true) ≫= λ _, visit t ≫= λ _,
     set_storing saved ≫= λ _, control_ (set_writing false)).
Proof.
  intros Hk Hv. eapply spec_sub; [|apply lim_le]. intros b X Hr Hi Hl.
  eapply wp_store_target; [rewrite <-(padd_p0_r (plan_of k t)) in Hr; by apply (sf_start F)|by apply (vi_identifier k t Hv name)|].
  intros b' S. rewrite padd_p0_l in S. by arcs_known S as (HB & _).
Qed.

Abbreviation good_target k m lb t := (good m lb (plan_target k t) (everywhere own t) (regular_target t) (everywhere bare t)).
Abbreviation target_spec k m lb t :=
  (spec k (plan_target k t) (lab m lb) (lab m lb) (lim m (runs_target never t)) (visitTarget visit t)).

Lemma v_targets es : Forall (λ t, ∀ k m lb, good_target k m lb t → target_spec k m lb t) es → ∀ k m lb,
  good m lb (psum (plan_target k) es) (all (everywhere own) es) (all regular_target es) (all (everywhere bare) es) →
  spec k (psum (plan_target k) es) (lab m lb) (lab m lb) (lim m (seqs (runs_target never) es)) (each (visitTarget visit) es).
Proof.
  intros H k m lb G. apply rule_each; [done|]. intros t Ht. rewrite Forall_forall in H. apply H; [done|].
  by apply (good_all _ _ _ _ _ _ _ _ _ G).
Qed.
Lemma v_target_props ps :
  Forall (λ '(mkProperty _ t), ∀ k m lb, good_target k m lb t → target_spec k m lb t) ps → ∀ k m lb,
  good m lb (psum (λ '(mkProperty x v), padd (popt (plan_of k) x) (plan_target k v)) ps)
    (all (λ '(mkProperty x v), all_opt (everywhere own) x && everywhere own v) ps)
    (all (λ '(mkProperty x v), all_opt regular x && regular_target v) ps)
    (all (λ '(mkProperty x v), all_opt (everywhere bare) x && everywhere bare v) ps) →
  spec k (psum (λ '(mkProperty x v), padd (popt (plan_of k) x) (plan_target k v)) ps) (lab m lb) (lab m lb)
    (lim m (seqs (λ '(mkProperty x v), seq (maybe (runs never "") x) (runs_target never v)) ps))
    (each (λ '(mkProperty x v), opt visit x ≫= λ _, visitTarget visit v) ps).
Proof.
  intros H k m lb G. apply rule_each; [done|]. intros [x v] Ht. rewrite Forall_forall in H. pose proof (good_all _ _ _ _ _ _ _ _ _ G Ht) as G'.
  cbn beta iota in G'. apply v_seq; [apply v_opt; good_part G'|]. apply (H _ Ht). good_part G'.
Qed.

(** The target that is visited as an expression. *)
Lemma v_leaf k m lb t B :
  plan_target k t = plan_of k t → (regular_target t = true → regular t = true) → incl m B (runs never "" t) → good_target k m lb t →
  spec k (plan_target k t) (lab m lb) (lab m lb) (lim m B) (visit t).
Proof.
  intros E Hreg Hi (Hc & Ha & Hr & Hq). rewrite E in Hc |- *. eapply incl_spec; [|exact Hi]. apply v_node. split_and!; auto.
Qed.

Lemma v_leaves k m lb i pos kind :
  match kind with Identifier _ | ArrayLiteral _ | ObjectLiteral _ | AssignmentExpression _ _ _ | SpreadElement _ => False | _ => True end →
  good_target k m lb (mkNode i pos kind) → target_spec k m lb (mkNode i pos kind).
Proof.
  intros Hk G. destruct kind; try done; cbn [runs_target visitTarget].
  all: apply v_leaf; [done|cbn; intros; bool_cases; repeat (apply andb_true_intro; split); try done|try apply incl_nothing|exact G].
  - apply incl_skip_r.
  - by apply orb_true_iff; right.
  - cbn [runs]. apply incl_seq; [apply incl_refl|].
    eapply incl_trans; [apply incl_skip_r|]. case_match; [apply incl_perhaps_r|apply incl_refl].
Qed.

Lemma v_target : ∀ t k m lb, good_target k m lb t → target_spec k m lb t.
Proof.
  fix IH 1. intros [i pos kind] k m lb G. destruct kind; try (apply v_leaves; [exact I|exact G]).
  - apply (v_written k m (lab m lb) (mkNode i pos (Identifier Name)) Name); [done|]. apply (Hvisit k). apply G.
  - apply v_seq; [|apply (IH Left k m lb); good_part G].
    eapply incl_spec; [apply v_node; good_part G|]. apply incl_perhaps. intros Hm.
    destruct G as (Hc & _ & Hr & _). cbn in Hc. specialize (Hr Hm). cbn in Hr. bool_cases. apply (quiet_code k); [lia|done].
  - apply v_targets; [|good_part G]. clear G. induction Elements as [|e es IHes]; [constructor|constructor; [apply IH|exact IHes]].
  - apply v_target_props; [|good_part G]. clear G.
    induction Properties as [|[x v] ps IHps]; [constructor|constructor; [apply IH|exact IHps]].
  - apply (IH Arg k m lb). good_part G.
Qed.
End parts.
