(* ===== verification/TraverseVisit.v ===== *)
(** * The traversal of a whole tree

    Every visit does what its node's executions ask for: the rules of the
    cases, put together by induction on the cost of the tree. *)

From S2P Require Import Prelude GoString Diag Ast Symbols SymbolFacts Flow FlowWalk FlowFacts Traverse Exec.
From S2P Require Import FlowPath TraverseFacts TraverseNames TraverseSpec TraverseRules TraverseLeaves TraverseStores.
From S2P Require Import TraverseCases TraverseFunction TraverseParts TraversePatterns.
Open Scope Z_scope.

(** ** A loop over lists put together *)

Lemma each_app {A} (f : A → TravM unit) xs ys b : each f (xs ++ ys) b = (each f xs ≫= λ _, each f ys) b.
Proof.
  revert b. induction xs as [|x xs IH]; intros b; [done|]. cbn. unfold mbind, TravM_bind, M_bind in *.
  destruct (f x b) as [[] b1]; [apply IH|done..].
Qed.
Lemma each_concat {A C} (f : A → TravM unit) (g : C → list A) xs b :
  each f (concat (map g xs)) b = each (λ x, each f (g x)) xs b.
Proof.
  revert b. induction xs as [|x xs IH]; intros b; [done|]. cbn. rewrite each_app. unfold mbind, TravM_bind, M_bind.
  destruct (each f (g x) b) as [[] b1]; [apply IH|done..].
Qed.
Lemma spec_ext F k P l l' B m m' : (∀ b, m' b = m b) → spec F k P l l' B m → spec F k P l l' B m'.
Proof. intros E H b X Hr Hi Hl. specialize (H b X Hr Hi Hl). unfold wp in *. by rewrite E. Qed.

Section step.
Context (F : trav) (Hzero : nodes (bld F) !! unreachableFlow = Some unreachable_node).
Context (visit : Node → TravM unit) (c : nat).
Abbreviation spec := (spec F).
Abbreviation never := (never_call (t_refs (tab F)) (symbols (bnd (bld F)))).
Abbreviation own := labels_own_loop.
Abbreviation bare := takes_no_label.
Abbreviation good := (good c).
Context (Hvisit : ∀ k n, (cost (plan_of k n) ≤ c)%nat → visited F visit k n).

(** The goodness of a node, for its parts: its own cost is one more. *)
Abbreviation good_node m lb k n := (TraversePatterns.good (S c) m lb (plan_of k n) (everywhere own n) (regular n) (everywhere bare n)).

(** A case that comes first across nothing. *)
Lemma v_then k m lb l' P B m0 m1 :
  spec k p0 (lab m lb) (lab m lb) (lim m skip) m0 → spec k P (lab m lb) l' (lim m B) m1 →
  spec k P (lab m lb) l' (lim m B) (m0 ≫= λ _, m1).
Proof.
  intros H0 H1. rewrite <-(padd_p0_l P). eapply (incl_spec _ m); [by eapply (rule_seq F Hzero)|]. by apply incl_skip_l.
Qed.
(** A node whose case has nothing before it. *)
Lemma v_case k P l l' B n body :
  visitNode visit n = (mret tt ≫= λ _, body) → spec k P l l' B body → spec k (pvisit P) l l' B (visit_one visit n).
Proof.
  intros E H. apply (spec_visit_one F). rewrite E. intros b X Hr Hi Hl. wp_steps. by apply H.
Qed.

Ltac v_node G := refine (v_node F visit c Hvisit _ _ _ _ _); good_part G.

Section cases.
Context (k : key) (m : mode) (lb : string) (i : nat) (pos : Pos).
Abbreviation node kind := (mkNode i pos kind).
Abbreviation goal kind := (good_node m lb k (node kind) →
  spec k (plan_of k (node kind)) (lab m lb) (lab m lb) (lim m (runs never "" (node kind))) (visit_one visit (node kind))).

Lemma c_identifier name : goal (Identifier name).
Proof. intros _. eapply v_case; [done|]. exact (rule_identifier F Hzero m k _ (node (Identifier name)) name). Qed.
Lemma c_this : goal ThisExpression ∧ goal SuperExpression.
Proof. split; intros _; (eapply v_case; [done|]); apply (rule_this F). Qed.
Lemma c_literal s b u v : goal (StringLiteral s) ∧ goal (BooleanLiteral b) ∧ goal (NullLiteral u v).
Proof. split_and!; intros _; (eapply v_case; [done|]); first [apply (rule_skip F)|apply (rule_null F)]. Qed.

(** Nodes whose children are visited. *)
Lemma c_one a : ∀ o n b d, goal (UnaryExpression o a) ∧ goal (SpreadElement a) ∧ goal (MemberExpression a n b d).
Proof.
  intros o n b d. split_and!; intros G; (eapply v_case; [done|]); refine (v_each F Hzero visit c Hvisit k m lb [a] _); good_part G.
Qed.
Lemma c_nonnull a : goal (NonNullExpression a).
Proof.
  intros G. refine (spec_visit_one F k _ _ _ _ visit _ _). refine (v_then k m lb _ _ _ _ _ _ (v_each F Hzero visit c Hvisit k m lb [a] _)).
  - cbn [nkind]. case_match; first [apply (rule_skip F)|by apply (rule_table F)].
  - good_part G.
Qed.
Lemma c_list es o : goal (ArrayLiteral es) ∧ goal (OtherNode o es).
Proof. split; intros G; (eapply v_case; [done|]); refine (v_each F Hzero visit c Hvisit k m lb es _); good_part G. Qed.
Lemma c_index o x b d : goal (IndexExpression o x b d).
Proof.
  intros G. eapply v_case; [done|]. eapply incl_spec; [refine (v_each F Hzero visit c Hvisit k m lb [o; x] _); good_part G|].
  apply incl_seq; [apply incl_refl|]. destruct (b || chained o) eqn:Hb; [|apply incl_refl]. apply incl_perhaps. intros Hm.
  destruct G as (Hc & _ & Hr & _). specialize (Hr Hm). cbn in Hc, Hr. rewrite Hb in Hr. bool_cases. cbn in *.
  apply (still_seq (runs never "" x) skip); [|apply still_skip]. apply (quiet_code F c k); [lia|done].
Qed.
Lemma c_object ps : goal (ObjectLiteral ps).
Proof.
  intros G. eapply v_case; [done|].
  eapply spec_ext; [intros b; apply each_concat|].
  refine (rule_each F Hzero m k _ _ _ (λ '(mkProperty x v), seq (maybe (runs never "") x) (runs never "" v)) ps _). intros [x v] Hx.
  assert (good m lb (psum (λ '(mkProperty x v), padd (popt (plan_of k) x) (plan_of k v)) ps)
    (all (λ '(mkProperty x v), all_opt (everywhere own) x && everywhere own v) ps)
    (all (λ '(mkProperty x v), all_opt regular x && regular v) ps)
    (all (λ '(mkProperty x v), all_opt (everywhere bare) x && everywhere bare v) ps)) as G' by good_part G.
  apply good_all with (x := mkProperty x v) in G'; [|done]. cbn beta iota in G'.
  assert (∀ x, good m lb (plan_of k x) (everywhere own x) (regular x) (everywhere bare x) →
            spec k (plan_of k x) (lab m lb) (lab m lb) (lim m (runs never "" x)) (each visit [x])) as Hone.
  { intros y Gy. rewrite <-(padd_p0_r (plan_of k y)).
    eapply incl_spec; [refine (v_each F Hzero visit c Hvisit k m lb [y] _); good_part Gy|apply incl_skip_r]. }
  eapply spec_ext; [intros b; apply each_app|]. refine (v_seq F Hzero k m lb _ _ _ _ _ _ _ _).
  - destruct x as [x|]; [apply (Hone x); good_part G'|apply (rule_skip F)].
  - apply Hone. good_part G'.
Qed.

(** Operators. *)
Lemma name_met x name : nkind x = Identifier name → nid x ∈ idents (plan_of k x).
Proof. destruct x as [j p kind]. cbn [nkind nid]. intros ->. cbn. by left. Qed.

Lemma c_update a : goal (UpdateExpression a).
Proof.
  intros G. eapply v_case; [done|]. refine (rule_update F Hzero m k _ visit a _ _ _ _); [intros name Hk; by eapply name_met|].
  v_node G.
Qed.
Lemma c_binary op x y : goal (BinaryExpression op x y).
Proof.
  intros G. eapply v_case; [done|]. cbn [plan_in] in G. cbn [nkind runs].
  destruct (bool_decide (op = "&&") || bool_decide (op = "||") || bool_decide (op = "??")).
  - refine (rule_logical F Hzero m k _ visit op x y _ _ _ _ _ _); v_node G.
  - refine (v_each F Hzero visit c Hvisit k m lb [x; y] _). good_part G.
Qed.
Lemma c_conditional t a b : goal (ConditionalExpression t a b).
Proof. intros G. eapply v_case; [done|]. refine (rule_branches F Hzero m k _ _ _ _ _ _ _ t _ _ _ _ _ _); v_node G. Qed.

(** A function expression as the callee. *)
Lemma inline_callee callee : iifeCallee callee = true →
  ∃ f, match nkind callee with FunctionExpression _ f' | ArrowFunction f' => f' = f | _ => False end
  ∧ (match callee with
     | mkNode _ _ (FunctionExpression _ f) | mkNode _ _ (ArrowFunction f) => regular_fn f
     | _ => false
     end = regular_fn f)
  ∧ match callee with
    | mkNode j _ (FunctionExpression _ f) | mkNode j _ (ArrowFunction f) =>
        called (seq (emit (EEnter (j, 0%nat))) (runs_fn never f))
    | _ => skip
    end = called (seq (emit (EEnter (nid callee, 0%nat))) (runs_fn never f)).
Proof. destruct callee as [j p []]; try done; intros _; by eexists. Qed.

Lemma c_call callee args o d : goal (CallExpression callee args o d).
Proof.
  intros G. eapply v_case; [done|]. cbn [plan_in regular] in G. cbn [nkind runs].
  destruct (iifeCallee callee) eqn:Hi.
  - destruct (inline_callee callee Hi) as (f & Hf & Hreg & ->). rewrite Hreg in G.
    refine (rule_iife F Hzero m k _ _ callee args _ _ _ _ visit Hi _ _).
    + refine (v_each F Hzero visit c Hvisit k m lb args _). good_part G.
    + assert (good m lb (plan_of k callee) (everywhere own callee) (regular_fn f) (everywhere bare callee)) as (Hc & Ha & Hr & Hq) by good_part G.
      intros b X H1 H2 H3 H4. by apply (vi_inline _ _ _ _ (Hvisit k callee Hc) m lb f).
  - unfold visitCall. rewrite Hi. eapply incl_spec.
    + refine (rule_followed F Hzero m k _ _ FlowCall (dottedName callee) _ _ _ _ _); [by left|].
      refine (v_each F Hzero visit c Hvisit k m lb (callee :: args) _). good_part G.
    + apply incl_seq; [apply incl_refl|]. cbn zeta. destruct (o || chained callee) eqn:Hch; [|apply incl_refl].
      apply incl_perhaps. intros Hm. destruct G as (Hc & _ & Hr & _). specialize (Hr Hm). cbn in Hc, Hr. bool_cases. cbn in *.
      apply still_seqs. intros x Hx. apply (quiet_code F c k); [eapply cost_psum; [|exact Hx]; lia|by eapply all_elem].
Qed.
Lemma c_new name callee args : goal (NewExpression name callee args).
Proof.
  intros G. refine (spec_visit_one F k _ _ _ _ visit _ _). refine (v_then k m lb _ _ _ _ _ (rule_skip F m k _) _).
  refine (v_then k m lb _ _ _ _ _ (rule_new_target F m k _ _ _) _).
  destruct callee as [x|].
  - refine (v_each F Hzero visit c Hvisit k m lb (x :: args) _). good_part G.
  - refine (v_each F Hzero visit c Hvisit k m lb args _). good_part G.
Qed.

(** Assignments. *)
Definition logical_op (op : string) : bool :=
  bool_decide (op = "&&=") || bool_decide (op = "||=") || bool_decide (op = "??=").
Lemma c_assign_name op x y name : nkind x = Identifier name → goal (AssignmentExpression op x y).
Proof.
  intros Hx. set (n := node (AssignmentExpression op x y)).
  set (store := emit (EStore (TId (nid x)) (Some n) false true)).
  assert (plan_of k n = pvisit (if logical_op op then padd (plan_of k x) (plan_of k y) else padd (plan_of k y) (plan_of k x))) as ->
    by by cbn; rewrite Hx.
  assert (regular n = regular y && (bool_decide (op ∈ ["="; "&&="; "||="; "??="]) || quiet y)) as -> by by cbn; rewrite Hx.
  assert (runs never "" n = if logical_op op then seq (use (nid x)) (perhaps (seq (runs never "" y) store))
    else if bool_decide (op = "=") then seq (runs never "" y) (seq (use (nid x)) store)
    else seq (use (nid x)) (seq (runs never "" y) store)) as -> by by destruct x as [j p kind]; cbn in Hx; subst kind.
  pose proof (name_met x name Hx) as Hmet.
  assert (visited F visit k x → spec k (plan_of k x) (lab m lb) (lab m lb) (lim m (use (nid x))) (visit x)) as Hread.
  { intros H. assert (use (nid x) = runs never "" x) as -> by by destruct x as [j p kind]; cbn in Hx; subst.
    destruct x as [j p kind]. cbn in Hx. subst kind. apply (vi_node _ _ _ _ H); [done..|by right; right]. }
  intros G. apply v_case with (visitAssignment visit n op x y); [done|].
  destruct (logical_op op) eqn:Hop.
  - eapply spec_ext; [intros b; unfold visitAssignment; fold (logical_op op); by rewrite Hx, Hop|].
    refine (rule_logical_assignment F Hzero m k _ visit _ op x y _ _ _ _ Hmet _ _); [|v_node G].
    apply Hread, (Hvisit k). destruct G as (Hc & _). cbn in Hc. lia.
  - assert (spec k (plan_of k y) (lab m lb) (lab m lb) (lim m (runs never "" y)) (visit y)) as Hy by v_node G.
    eapply incl_spec; [refine (rule_assign F Hzero m k _ visit _ x y _ _ _ op _ eq_refl Hmet Hop _ Hy); [by eexists|]|].
    + refine (vi_identifier _ _ _ _ (Hvisit k x _) name Hx). destruct G as (Hc & _). cbn in Hc. lia.
    + destruct (bool_decide_reflect (op = "=")) as [->|He]; [apply incl_refl|]. apply incl_compound. intros Hm.
      destruct G as (Hc & _ & Hr & _). specialize (Hr Hm). cbn in Hc. apply (quiet_code F c k); [lia|].
      apply andb_true_iff in Hr as [_ Hr]. apply orb_true_iff in Hr as [Hr|Hr]; [|done]. exfalso.
      apply bool_decide_eq_true in Hr. rewrite !elem_of_cons, elem_of_nil in Hr. unfold logical_op in Hop.
      rewrite !orb_false_iff, !bool_decide_eq_false in Hop. tauto.
Qed.
Lemma c_assign_pattern op x y :
  match nkind x with ArrayLiteral _ | ObjectLiteral _ => True | _ => False end → goal (AssignmentExpression op x y).
Proof.
  intros Hx.
  assert (plan_of k (node (AssignmentExpression op x y)) = pvisit (padd (plan_of k y) (plan_target k x))) as -> by by cbn; destruct (nkind x).
  assert (regular (node (AssignmentExpression op x y)) = regular y && regular_target x) as -> by by cbn; destruct (nkind x).
  assert (runs never "" (node (AssignmentExpression op x y)) = seq (runs never "" y) (runs_target never x)) as -> by by cbn; destruct (nkind x).
  intros G. apply v_case with (visit y ≫= λ _, visitTarget visit x); [cbn; unfold visitAssignment; by destruct (nkind x)|].
  refine (v_seq F Hzero k m lb _ _ _ _ _ _ _ _); [v_node G|]. refine (v_target F Hzero visit c Hvisit x k m lb _). good_part G.
Qed.
Lemma c_assign_member op x y :
  match nkind x with Identifier _ | ArrayLiteral _ | ObjectLiteral _ => False | _ => True end → goal (AssignmentExpression op x y).
Proof.
  intros Hx.
  assert (plan_of k (node (AssignmentExpression op x y)) = pvisit (padd (plan_of k x) (plan_of k y))) as -> by by cbn; destruct (nkind x).
  assert (regular (node (AssignmentExpression op x y)) = regular x && regular y) as -> by by cbn; destruct (nkind x).
  assert (runs never "" (node (AssignmentExpression op x y)) = seq (runs never "" x) (runs never "" y)) as -> by by cbn; destruct (nkind x).
  intros G.
  apply v_case with (visit x ≫= λ _, visit y ≫= λ _, if rootIdentifier x then followFlow FlowPropertyAssignment (node (AssignmentExpression op x y)) else mret tt);
    [cbn; unfold visitAssignment; by destruct (nkind x)|].
  refine (v_seq F Hzero k m lb _ _ _ _ _ _ _ _); [v_node G|].
  refine (rule_followed F Hzero m k _ _ FlowPropertyAssignment (rootIdentifier x) _ _ _ _ _); [by right|v_node G].
Qed.
Lemma c_assign op x y : goal (AssignmentExpression op x y).
Proof.
  destruct (nkind x) eqn:Hx; first [by eapply c_assign_name | by apply c_assign_pattern; rewrite Hx | by apply c_assign_member; rewrite Hx].
Qed.

(** Functions. *)
Lemma v_function n f arrow k0 :
  good m lb (plan_fn (nid n, 0%nat) f) (everywhere_fn own f) true (everywhere_fn bare f) →
  spec k0 (popen (nid n, 0%nat) FunctionScope k0 (plan_fn (nid n, 0%nat) f)) (lab m lb) (lab m lb)
    (lim m (closure (nid n, 0%nat) (regular_fn f) (runs_fn never f))) (function visit n f arrow).
Proof. intros G. by apply (v_closure F Hzero visit c Hvisit k0 m lb n f arrow true). Qed.
Lemma c_arrow f : goal (ArrowFunction f).
Proof. intros G. eapply v_case; [done|]. refine (v_function (node (ArrowFunction f)) f true k _). good_part G. Qed.
Lemma c_function name f : goal (FunctionExpression name f).
Proof.
  intros G. eapply v_case; [done|].
  refine (rule_function_expression F k _ (node (FunctionExpression name f)) name f (plan_fn (i, 0%nat) f) _ visit _).
  intros k0. refine (v_function (node (FunctionExpression name f)) f false k0 _).
  assert (cost (plan_of k (node (FunctionExpression name f))) = S (cost (plan_fn (i, 0%nat) f))) as E by by cbn; case_match.
  destruct G as (Hc & Ha & _ & Hq). rewrite E in Hc. split_and!; [cbn; lia|..]; auto.
Qed.
Lemma c_declaration name a f : goal (FunctionDeclaration name a f).
Proof.
  intros G. eapply v_case; [done|]. refine (v_then k m lb _ _ _ _ _ (rule_declares F m k _ _ name f) _).
  refine (v_function (node (FunctionDeclaration name a f)) f false k _). good_part G.
Qed.

(** Statements. *)
Lemma c_block ss : goal (BlockStatement ss).
Proof.
  intros G. eapply v_case; [done|].
  refine (rule_block F Hzero m k _ (node (BlockStatement ss)) visit ss _ _ _).
  refine (v_each F Hzero visit c Hvisit (i, 0%nat) m lb ss _). good_part G.
Qed.
Lemma c_expression e : goal (ExpressionStatement e).
Proof. intros G. eapply v_case; [done|]. refine (rule_expression_statement F Hzero m k _ visit e _ never _ _); [done|v_node G]. Qed.
Lemma c_var kind name t init a d : goal (VarDeclaration kind name t init a d).
Proof.
  intros G. eapply v_case; [done|]. refine (rule_var F Hzero m k _ visit (node (VarDeclaration kind name t init a d)) kind name init _ _ eq_refl _).
  refine (v_opt F visit c Hvisit k m lb init _). good_part G.
Qed.
Lemma c_destructuring kind elems props init : goal (ArrayDestructuring kind elems init) ∧ goal (ObjectDestructuring kind props init).
Proof.
  split; intros G; (eapply v_case; [done|]); refine (v_then k m lb _ _ _ _ _ (rule_declareNames F m k _ kind _ _) _);
    (refine (v_seq F Hzero k m lb _ _ _ _ _ _ _ _); [refine (v_opt F visit c Hvisit k m lb init _); good_part G|]).
  - refine (v_bindPattern F Hzero visit c Hvisit kind k m lb elems [] _). good_part G.
  - refine (v_bindPattern F Hzero visit c Hvisit kind k m lb [] props _). good_part G.
Qed.
Lemma c_types name locals ns : goal (InterfaceDeclaration name) ∧ goal (TypeAliasDeclaration name) ∧ goal (ImportDeclaration locals ns).
Proof.
  split_and!; intros G; (eapply v_case; [done|]); first [apply (rule_declareHere F) | apply (rule_import F)].
Qed.
Lemma c_export d : goal (ExportDeclaration d).
Proof.
  intros G. eapply v_case; [done|]. destruct d as [d|]; [|apply (rule_skip F)].
  refine (v_each F Hzero visit c Hvisit k m lb [d] _). good_part G.
Qed.
Lemma c_if t a b : goal (IfStatement t a b).
Proof.
  intros G. eapply v_case; [done|].
  refine (rule_branches F Hzero m k _ _ _ _ _ _ _ t _ _ _ _ _ _); [v_node G|..].
  - refine (v_body F visit c Hvisit k m lb a _). good_part G.
  - refine (v_opt F visit c Hvisit k m lb b _). good_part G.
Qed.
Lemma c_jumps l : goal (BreakStatement l) ∧ goal (ContinueStatement l).
Proof. split; intros G; (eapply v_case; [done|]); apply (rule_jump F). Qed.
Lemma c_return v : goal (ReturnStatement v) ∧ goal (ThrowStatement v).
Proof.
  split; intros G; (eapply v_case; [done|]);
    (eapply incl_spec; [refine (rule_return F Hzero m k _ visit _ _ _ (seqs (runs never "") (option_list v)) _)|]).
  2,4: apply incl_seq; [destruct v; [apply incl_skip_r|apply incl_refl]|apply incl_refl].
  all: destruct v as [v|]; [refine (v_each F Hzero visit c Hvisit k m lb [v] _); good_part G|apply (rule_skip F)].
Qed.

(** Labels: there is no pending label. *)
Lemma no_label : m = Blind ∨ lb = "" ∨ false = true → lab m lb = lab m "".
Proof. by intros [-> | [-> | ?]]. Qed.

Lemma c_labeled label body : goal (LabeledStatement label body).
Proof.
  intros G. assert (lab m lb = lab m "") as -> by (apply no_label; apply G).
  assert (regular (node (LabeledStatement label body)) = true → label ≠ "" ∧ regular body = true) as Hreg.
  { cbn [regular]. intros [Hl Hb]%andb_true_iff. apply negb_true_iff, bool_decide_eq_false in Hl. split; [done|]. by destruct (nkind body). }
  destruct G as (Hc & Ha & Hr & _). cbn in Hc. apply le_S_n in Hc.
  assert (∀ P : Prop, (everywhere own (node (LabeledStatement label body)) = true → P) → m ≠ Blind → P) as Hlab by (intros P HP Hm; auto).
  cbn [runs]. destruct (is_loop body) eqn:Hloop.
  - apply v_case with (control_ (set_pendingLabel label) ≫= λ _, visit body).
    { revert Hloop. unfold visitNode, visitLabeled, is_loop. cbn [nkind]. by destruct (nkind body). }
    refine (rule_labeled_loop F m k label _ visit body _ _ _).
    refine (vi_loop _ _ _ _ (Hvisit k body Hc) m label Hloop _ _ _).
    + apply Hlab. cbn. by intros [_ ?]%andb_true_iff.
    + intros Hm. by apply Hreg, Hr.
    + destruct (decide (m = Blind)) as [|Hm]; [by left|]. right. right. revert Hm. apply Hlab. cbn. unfold labels_own_loop. cbn.
      rewrite Hloop. by intros [? _]%andb_true_iff.
  - eapply v_case; [revert Hloop; unfold visitNode, visitLabeled, is_loop; cbn [nkind]; by destruct (nkind body)|].
    refine (rule_labeled F Hzero m k label visit body _ _ _ _); [intros Hm; by apply Hreg, Hr|].
    refine (vi_node _ _ _ _ (Hvisit k body Hc) m "" _ _ _); [|intros Hm; by apply Hreg, Hr|by right; left].
    apply Hlab. cbn. by intros [_ ?]%andb_true_iff.
Qed.

Lemma c_switch d cases : goal (SwitchStatement d cases).
Proof.
  intros G. assert (lab m lb = lab m "") as Hlb by (apply no_label; apply G). rewrite Hlb. eapply v_case; [done|].
  eapply incl_spec; [refine (rule_switch F Hzero m k visit (node (SwitchStatement d cases)) d cases _
    (λ '(mkCase t body), padd (popt (plan_of (i, 0%nat)) t) (psum (plan_of (i, 0%nat)) body)) _ (runs never "") _ _)|].
  - rewrite <-Hlb. v_node G.
  - intros [t body] Hx. rewrite <-Hlb.
    assert (good m lb (psum (λ '(mkCase t body), padd (popt (plan_of (i, 0%nat)) t) (psum (plan_of (i, 0%nat)) body)) cases)
      (all (λ '(mkCase t b), all_opt (everywhere own) t && all (everywhere own) b) cases)
      (all (λ '(mkCase t b), all_opt quiet t && all_opt regular t && all regular b) cases)
      (all (λ '(mkCase t b), all_opt (everywhere bare) t && all (everywhere bare) b) cases)) as G' by good_part G.
    apply good_all with (x := mkCase t body) in G'; [|done]. cbn beta iota in G'. refine (v_seq F Hzero (i, 0%nat) m lb _ _ _ _ _ _ _ _).
    + refine (v_opt F visit c Hvisit (i, 0%nat) m lb t _). good_part G'.
    + refine (v_each F Hzero visit c Hvisit (i, 0%nat) m lb body _). good_part G'.
  - apply incl_seq; [apply incl_refl|]. apply incl_seq; [apply incl_refl|]. apply incl_switched, incl_clauses. intros Hm t body Hx.
    destruct G as (Hc & _ & Hr & _). specialize (Hr Hm). cbn in Hr. apply andb_true_iff in Hr as [_ Hr].
    pose proof (all_elem _ _ _ Hr Hx) as Hq. cbn in Hq. bool_cases. apply (quiet_code F c (i, 0%nat)); [|done].
    cbn in Hc. apply le_S_n in Hc. eapply Nat.le_trans in Hc; [|apply Nat.le_add_l]. eapply cost_psum in Hc; [|exact Hx]. cbn in Hc. lia.
Qed.

Lemma c_try b h f : goal (TryStatement b h f).
Proof.
  intros G. eapply v_case; [done|].
  refine (rule_try F m k _ visit (node (TryStatement b h f)) b h f _ _ _ _
    (match h with
     | Some (mkCatch _ obj b) => seq (seqs (runs_default_prop never) obj) (maybe (runs_stmts never) b)
     | None => skip
     end) _ _ _ _).
  - refine (v_body F visit c Hvisit k m lb b _). good_part G.
  - destruct h as [[param obj body]|]; [|split; [done|]; destruct m; by intros ? ? ? []].
    eexists. split; [done|]. eapply incl_spec; [refine (v_seq F Hzero (i, 1%nat) m lb _ _ _ _ _ _ _ _)|].
    + refine (v_patternDefaults F Hzero visit c Hvisit (i, 1%nat) m lb [] obj _). good_part G.
    + refine (v_stmts F Hzero visit c Hvisit (i, 1%nat) m lb body _). good_part G.
    + apply incl_seq; [by apply incl_skip_l|apply incl_refl].
  - refine (v_body F visit c Hvisit k m lb f _). good_part G.
Qed.

(** ** Loops

    The head is visited with the label pending, the body without. *)
Abbreviation looping kind := (
  TraversePatterns.good (S c) m lb (plan_of k (node kind)) (everywhere own (node kind)) (regular (node kind)) (plain_heads (node kind)) →
  spec k (plan_of k (node kind)) (lab m lb) (lab m "") (lim m (runs never lb (node kind))) (visit_one visit (node kind))).

Lemma good_body P a r q : good m lb P a r true → good m "" P a r q.
Proof. intros (? & ? & ? & _). split_and!; [done..|]. by right; left. Qed.

Lemma c_while t body : looping (WhileStatement t body).
Proof.
  intros G. eapply v_case; [done|]. refine (rule_while F Hzero m k visit lb _ _ _ _ t body _ _); [v_node G|].
  refine (v_body F visit c Hvisit k m "" body _). apply good_body. good_part G.
Qed.
Lemma c_do body t : looping (DoWhileStatement body t).
Proof.
  intros G. eapply v_case; [done|]. refine (rule_do F Hzero m k visit lb _ _ _ _ t body _ _).
  - refine (v_node F visit c Hvisit k m "" t _). apply good_body. good_part G.
  - refine (v_body F visit c Hvisit k m "" body _). apply good_body. good_part G.
Qed.
Lemma c_for init test update body : looping (ForStatement init test update body).
Proof.
  intros G. eapply v_case; [done|].
  refine (rule_for F Hzero m k lb (node (ForStatement init test update body)) visit init test update body _ _ _ _ _ _ _ _ _ _ _ _).
  - refine (v_opt F visit c Hvisit (i, 0%nat) m lb init _). good_part G.
  - refine (v_opt F visit c Hvisit (i, 0%nat) m lb test _). good_part G.
  - refine (v_body F visit c Hvisit (i, 0%nat) m "" body _). apply good_body. good_part G.
  - refine (v_each F Hzero visit c Hvisit (i, 0%nat) m "" update _). apply good_body. good_part G.
Qed.
Lemma c_for_of kind name arr obj e body : looping (ForOfStatement kind name arr obj e body).
Proof.
  intros G. eapply v_case; [done|].
  refine (rule_for_of F Hzero m k lb visit (node (ForOfStatement kind name arr obj e body)) kind name arr obj e body _ _ _ _ _ _ _ _ _); [v_node G|..].
  - refine (v_bindPattern F Hzero visit c Hvisit kind (i, 0%nat) m lb arr obj _). good_part G.
  - refine (v_body F visit c Hvisit (i, 0%nat) m "" body _). apply good_body. good_part G.
Qed.
Lemma c_for_in kind name e body : looping (ForInStatement kind name e body).
Proof.
  intros G. eapply v_case; [done|].
  refine (rule_for_in F Hzero m k lb visit (node (ForInStatement kind name e body)) kind name e body _ _ _ _ eq_refl _ _); [v_node G|].
  refine (v_body F visit c Hvisit (i, 0%nat) m "" body _). apply good_body. good_part G.
Qed.
End cases.

(** ** A function called where it is written *)

Lemma post_sub P l A B b b' : sub A B → post F P l B b b' → post F P l A b b'.
Proof. intros H [Hm Hl Hc]. constructor; [done..|]. intros Hf Hla. eapply claims_sub; [exact H|auto]. Qed.
Lemma called_lim m E A B C :
  sub (lim m (called (seq E (seq A (seq B C))))) (called (seq E (seq (lim m A) (seq (lim m B) (lim m C))))).
Proof. destruct m; (split; [done || by intros ? ? []|try by intros ? ? ? []]); by cbn. Qed.

Lemma wp_inline_function k m lb n f arrow b X :
  good m lb (plan_fn (nid n, 0%nat) f) (everywhere_fn own f) (regular_fn f) (everywhere_fn bare f) →
  iife (ctl b) = Some (nid n) → idle (set_ctl (set_iife None (ctl b)) b) → pending (lab m lb) b →
  ready k (popen (nid n, 0%nat) FunctionScope k (plan_fn (nid n, 0%nat) f)) b →
  wp (function visit n f arrow)
    (λ _ b', post F (popen (nid n, 0%nat) FunctionScope k (plan_fn (nid n, 0%nat) f)) (lab m lb)
               (lim m (called (seq (emit (EEnter (nid n, 0%nat))) (runs_fn never f)))) (set_ctl (set_iife None (ctl b)) b) b') X b.
Proof.
  intros G Hf Hi Hl Hr.
  destruct (v_fn F Hzero visit c Hvisit (nid n, 0%nat) m lb f G) as (P1 & P2 & P3 & B1 & B2 & B3 & EP & EB & H1 & H2 & H3).
  rewrite EP in Hr |- *. rewrite EB. eapply wp_mono; [by apply (wp_inline F Hzero)| |done].
  intros [] b' Hp. eapply post_sub; [apply called_lim|exact Hp].
Qed.

Lemma c_inline k m lb n f : match nkind n with FunctionExpression _ f' | ArrowFunction f' => f' = f | _ => False end →
  TraversePatterns.good (S c) m lb (plan_of k n) (everywhere own n) (regular_fn f) (everywhere bare n) →
  ∀ b X, iife (ctl b) = Some (nid n) → idle (set_ctl (set_iife None (ctl b)) b) → pending (lab m lb) b →
  ready k (plan_of k n) b →
  wp (visit_one visit n) (λ _ b', post F (plan_of k n) (lab m lb) (lim m (called (seq (emit (EEnter (nid n, 0%nat))) (runs_fn never f))))
                                    (set_ctl (set_iife None (ctl b)) b) b') X b.
Proof.
  intros Hn G b X Hf Hi Hl Hr.
  assert (good m lb (plan_fn (nid n, 0%nat) f) (everywhere_fn own f) (regular_fn f) (everywhere_fn bare f)) as Gf.
  { destruct G as (Hc & Ha & Hreg & Hq). destruct n as [i pos kind]. destruct kind; try done; cbn in Hn; subst; split_and!; auto.
    - cbn in Hc |- *. case_match; cbn in Hc; lia.
    - cbn in Hc |- *. lia. }
  assert (∀ b1, ctl b1 = ctl b → storing (bld b1) = storing (bld b) →
            iife (ctl b1) = Some (nid n) ∧ idle (set_ctl (set_iife None (ctl b1)) b1) ∧ pending (lab m lb) b1) as Hsame.
  { intros b1 Hc1 Hs1. rewrite Hc1. split_and!; [done| |intros x Hx; rewrite Hc1; by apply Hl].
    destruct Hi. constructor; cbn in *; [done|done|by rewrite Hs1]. }
  destruct n as [i pos kind]. destruct kind; try done; cbn in Hn; subst Fn.
  - eapply wp_visit_one; [exact Hr|]. intros b1 Hr1 Hc1 Hs1. destruct (Hsame b1 Hc1 Hs1) as (H1 & H2 & H3).
    unfold visitNode. cbn [nkind]. wp_steps. rewrite <-Hc1.
    apply (wp_inline_expression F k (lab m lb) (mkNode i pos (FunctionExpression Name f)) Name f (plan_fn (i, 0%nat) f) _ visit b1 X H1 H2 H3 Hr1).
    intros k0 b2 ? ? ? ?. by apply (wp_inline_function k0 m lb (mkNode i pos (FunctionExpression Name f))).
  - eapply wp_visit_one; [exact Hr|]. intros b1 Hr1 Hc1 Hs1. destruct (Hsame b1 Hc1 Hs1) as (H1 & H2 & H3).
    unfold visitNode. cbn [nkind]. wp_steps. rewrite <-Hc1.
    exact (wp_inline_function k m lb (mkNode i pos (ArrowFunction f)) f true b1 X Gf H1 H2 H3 Hr1).
Qed.

(** ** A visit one level up *)

Lemma node_step k m lb n :
  good_node m lb k n → is_loop n = false →
  spec k (plan_of k n) (lab m lb) (lab m lb) (lim m (runs never "" n)) (visit_one visit n).
Proof.
  destruct n as [i pos kind]. intros G Hl. revert G. destruct kind; try discriminate Hl; clear Hl.
  - apply c_identifier.
  - exact (proj1 (c_this k m lb i pos)).
  - exact (proj2 (c_this k m lb i pos)).
  - exact (proj1 (c_one k m lb i pos Arg Op "" false false)).
  - apply c_update.
  - apply c_binary.
  - apply c_conditional.
  - apply c_assign.
  - apply c_nonnull.
  - apply c_call.
  - apply c_new.
  - exact (proj2 (proj2 (c_one k m lb i pos Object "" Property Optional ChainEnd))).
  - apply c_index.
  - exact (proj1 (c_list k m lb i pos Elements "")).
  - apply c_object.
  - exact (proj1 (proj2 (c_one k m lb i pos Arg "" "" false false))).
  - exact (proj1 (c_literal k m lb i pos Value false false false)).
  - exact (proj1 (proj2 (c_literal k m lb i pos "" Value false false))).
  - exact (proj2 (proj2 (c_literal k m lb i pos "" false IsUndefined Void))).
  - apply c_function.
  - apply c_arrow.
  - apply c_block.
  - apply c_expression.
  - apply c_var.
  - exact (proj1 (c_destructuring k m lb i pos Kind Elems [] Init)).
  - exact (proj2 (c_destructuring k m lb i pos Kind [] Props Init)).
  - apply c_declaration.
  - exact (proj1 (c_types k m lb i pos Name [] "")).
  - exact (proj1 (proj2 (c_types k m lb i pos Name [] ""))).
  - exact (proj2 (proj2 (c_types k m lb i pos "" Locals Namespace))).
  - apply c_export.
  - apply c_if.
  - apply c_labeled.
  - exact (proj1 (c_jumps k m lb i pos Label)).
  - exact (proj2 (c_jumps k m lb i pos Label)).
  - exact (proj1 (c_return k m lb i pos Value)).
  - exact (proj2 (c_return k m lb i pos Argument)).
  - apply c_switch.
  - apply c_try.
  - exact (proj2 (c_list k m lb i pos Children type_)).
Qed.
Lemma loop_step k m lb n :
  TraversePatterns.good (S c) m lb (plan_of k n) (everywhere own n) (regular n) (plain_heads n) → is_loop n = true →
  spec k (plan_of k n) (lab m lb) (lab m "") (lim m (runs never lb n)) (visit_one visit n).
Proof.
  destruct n as [i pos kind]. intros G Hl. revert G. destruct kind; try discriminate Hl; clear Hl.
  - apply c_for.
  - apply c_while.
  - apply c_do.
  - apply c_for_of.
  - apply c_for_in.
Qed.

Lemma visited_step k n : (cost (plan_of k n) ≤ S c)%nat → visited F (visit_one visit) k n.
Proof.
  intros Hc. constructor.
  - intros m lb Ha Hr Hq. destruct (is_loop n) eqn:Hl; [|by apply node_step].
    destruct Hq as [-> |[-> |Hq]].
    + by apply (loop_step k Blind lb); [split_and!; [done..|by left]|].
    + by apply (loop_step k m ""); [split_and!; [done..|by right; left]|].
    + by destruct n as [i pos []].
  - intros m lb Hl Ha Hr Hq. by apply loop_step.
  - intros name Hk. by eapply visit_one_identifier.
  - intros m lb f Hn Ha Hr Hq. by apply c_inline.
Qed.
End step.

(** ** The whole of it *)
Lemma visit_visited F : nodes (bld F) !! unreachableFlow = Some unreachable_node →
  ∀ fuel k n, (cost (plan_of k n) ≤ fuel)%nat → visited F (visit fuel) k n.
Proof.
  intros Hzero fuel. induction fuel as [|fuel IH]; intros k n Hc.
  - destruct n as [i pos kind]. cbn in Hc. lia.
  - by apply (visited_step F Hzero (visit fuel) fuel IH).
Qed.
