(* ===== verification/TraverseProgram.v ===== *)
(** * Both passes over a program

    [BindWith] from its start: the declaring pass leaves the scopes the
    resolving one looks for, and the resolving pass the graph. *)

From S2P Require Import Prelude GoString Diag Ast Symbols SymbolFacts Flow FlowWalk FlowFacts FlowQuery Traverse Exec.
From S2P Require Import FlowPath TraverseFacts TraverseNames TraverseSpec TraverseRules TraverseLeaves.
From S2P Require Import TraverseStores TraverseCases TraverseFunction TraverseParts TraversePatterns TraverseVisit.
Open Scope Z_scope.

(** The module's scope, and what the statements come across in it. *)
Definition prog_key (p : Program) : key := (prog_id p, 0%nat).
Definition prog_plan (p : Program) : plan := psum (plan_of (prog_key p)) (prog_body p).
Definition prog_code (never : Node → bool) (p : Program) : behaviour := seqs (runs never "") (prog_body p).

(** A tree: no node occurs twice as far as scopes and identifiers go, and no
    more statements and expressions than an int counts. *)
Record tree_ok (p : Program) : Prop := {
  to_keys : NoDup (prog_key p :: keys (prog_plan p));
  to_idents : NoDup (idents (prog_plan p));
  to_size : 2 * Z.of_nat (cost (prog_plan p)) ≤ maxOrd }.

Definition set_mode_declaring (d : bool) (x : binder) : binder := (set_declaring d x).2.

Section pass.
Context (m : mode) (p : Program) (Hp : tree_ok p).
Context (Hlabels : m ≠ Blind → all labels_ok (prog_body p) = true) (Hregular : m = Full → all regular (prog_body p) = true).

(** Before a pass. *)
Record at_start (d : bool) (b : trav) : Prop := {
  as_wf : twf b;
  as_jumps : jumps (ctl b) = [] ∧ returnTo (ctl b) = None;
  as_prefix : nsPrefix (bnd (bld b)) = "";
  as_ord : ord (bld b) + Z.of_nat (cost (prog_plan p)) ≤ maxOrd;
  as_idle : idle b;
  as_label : pending (lab m "") b;
  as_refs : t_refs (tab b) = ∅;
  as_fresh : d = true → ord (bld b) = 0 ∧ scopeOf (bnd (bld b)) = ∅;
  as_opens : d = false →
    (∃ s sc, scopeOf (bnd (bld b)) !! prog_key p = Some s ∧ scopes (bnd (bld b)) !! s = Some sc ∧ Parent sc = None)
    ∧ Forall (opened_ok b) (opens (prog_plan p)) }.

(** In the module's scope [s]. *)
Record in_module (d : bool) (b : trav) (s : nat) (b1 : trav) : Prop := {
  im_state : ∃ x, b1 = with_bnd x b ∧ cur x = Some s ∧ declaring x = d ∧ nsPrefix x = nsPrefix (bnd (bld b));
  im_wf : twf b1;
  im_key : scopeOf (bnd (bld b1)) !! prog_key p = Some s;
  im_scope : ∃ sc, scopes (bnd (bld b1)) !! s = Some sc ∧ Parent sc = None;
  im_old : ∀ k s', scopeOf (bnd (bld b)) !! k = Some s' → scopeOf (bnd (bld b1)) !! k = Some s';
  im_others : ∀ k, k ≠ prog_key p → scopeOf (bnd (bld b1)) !! k = scopeOf (bnd (bld b)) !! k;
  im_grows : grows (bnd (bld b)) (bnd (bld b1)) }.

Lemma wp_enter_module {A} d b (g : nat → TravM A) (K : A → trav → Prop) X :
  at_start d b → (∀ s b1, in_module d b s b1 → wp (g s) K X b1) →
  wp (bd (set_declaring d) ≫= λ _, bd (modify (set_cur None)) ≫= λ _,
      s ← bd (enter (prog_id p) (Some (prog_node p)) 0 ModuleScope); g s) K X b.
Proof.
  intros Hs HK. wp_steps. apply wp_bd. unfold set_declaring. wp_steps. apply wp_bd. wp_steps. apply wp_bd.
  set (x0 := set_cur None (set_mode_declaring d (bnd (bld b)))).
  enough (wp (enter (prog_id p) (Some (prog_node p)) 0 ModuleScope) (λ s x, wp (g s) K X (with_bnd x b)) (λ _ _, False) x0) as H by exact H.
  destruct (as_wf _ _ Hs) as [Hb Hr Hfl Hsc].
  assert (wf x0) as Hwf by by destruct (bw_bnd _ Hb); constructor.
  assert (grows (bnd (bld b)) x0) as Hg0 by by constructor; cbn; eauto 10.
  pose proof (wp_enter (prog_id p) (Some (prog_node p)) 0 ModuleScope x0 (λ _ _, False) Hwf (λ _, eq_refl)) as Hrun.
  destruct (run_enter (prog_id p) (Some (prog_node p)) 0 ModuleScope x0) as (s & x & He & Hcur & Hd & Hpre & Hsym & Hcase).
  unfold wp in *. rewrite He in *. destruct Hrun as (Hwfx & Hg & _ & Hlt). apply HK.
  assert (grows (bnd (bld b)) x) as Hgx by by etrans.
  constructor; cbn; try done.
  - exists x. split_and!; [done|done|by rewrite Hd|by rewrite Hpre].
  - by apply twf_with_bnd.
  - destruct Hcase as [(Hk & _ & ->)|(_ & -> & _ & ->)]; [done|apply lookup_insert_eq].
  - destruct Hcase as [(Hk & Hscs & _)|(_ & -> & Hscs & _)].
    + rewrite Hscs. cbn in *. destruct d.
      * destruct (as_fresh _ _ Hs eq_refl) as [_ Hnone]. by rewrite Hnone, lookup_empty in Hk.
      * destruct (as_opens _ _ Hs eq_refl) as [(s' & sc & Hk' & Hsc' & Hpar) _]. exists sc. split; [|done]. unfold prog_key in Hk'. congruence.
    + eexists. rewrite Hscs. split; [by rewrite list_lookup_middle|done].
  - intros k s' Hk. destruct Hcase as [(_ & _ & ->)|(Hnone & _ & _ & ->)]; [done|]. cbn in Hnone. rewrite lookup_insert_ne; [done|congruence].
  - intros k Hk. destruct Hcase as [(_ & _ & ->)|(_ & _ & _ & ->)]; [done|by rewrite lookup_insert_ne by done].
Qed.

(** At the start of the statements: the flow is the module's own start. *)
Record underway (d : bool) (b : trav) (s : nat) (b2 : trav) : Prop := {
  uw_ready : ready (prog_key p) (prog_plan p) b2;
  uw_idle : idle b2;
  uw_label : pending (lab m "") b2;
  uw_declaring : declaring (bnd (bld b2)) = d;
  uw_cur : cur (bnd (bld b2)) = Some s;
  uw_key : scopeOf (bnd (bld b2)) !! prog_key p = Some s;
  uw_scope : ∃ sc, scopes (bnd (bld b2)) !! s = Some sc ∧ Parent sc = None;
  uw_env : env_of b2 = mkEnv [] None (Some s);
  uw_start : ∃ n, nodes (bld b2) !! flow (bld b2) = Some n ∧ FFlags n = FlowStart ∧ FScope n = Some s;
  uw_live : flow (bld b2) ≠ unreachableFlow;
  uw_kept : t_refs (tab b2) = t_refs (tab b) ∧ ord (bld b2) = ord (bld b) }.

Definition module_start (s : nat) : FlowNode := mkFlowNode FlowStart None [] (Some s) None None 0 false false None.

Lemma start_underway d b s b1 x :
  at_start d b → in_module d b s b1 → after (bld b1) x → x = set_nodes (nodes (bld b1) ++ [module_start s]) (bld b1) →
  underway d b s (with_function (length (nodes (bld b1))) (Some s) (Some s) (exceptionTargets (bld b1)) (set_bld x b1)).
Proof.
  intros Hs [(y & -> & Hcur & Hd & Hpre) Hwf Hkey Hsc Hold Hoth Hg] Haf Hx.
  pose proof (to_keys _ Hp) as [Hfresh Hnd]%NoDup_cons.
  assert (twf (with_function (length (nodes (bld b))) (Some s) (Some s) (exceptionTargets (bld b)) (set_bld x (with_bnd y b)))) as Hwf2.
  { apply twf_function.
    - destruct Hwf as [? Hr Hf Hsco]. constructor; [apply Haf|..]; cbn in *; subst x; cbn; [done| |done].
      eapply map_Forall_impl; [exact Hf|]. intros i f Hi. cbn in Hi |- *. rewrite length_app. lia.
    - unfold node_in. subst x. cbn. rewrite length_app. cbn. lia.
    - pose proof (bw_targets _ (tw_bld _ Hwf)) as Ht. eapply Forall_impl; [exact Ht|]. intros t Hn.
      by apply (is_target_grows (with_bnd y b)); [apply (af_grows _ _ Haf)|]. }
  subst x. constructor; cbn; try done.
  - constructor; cbn; try done.
    + split; cbn; [by rewrite (proj1 (as_jumps _ _ Hs))|]. by rewrite (proj2 (as_jumps _ _ Hs)).
    + by exists s.
    + by rewrite Hpre, (as_prefix _ _ Hs).
    + apply (as_ord _ _ Hs).
    + apply (to_idents _ Hp).
    + rewrite Hd. intros Hdec. destruct (as_fresh _ _ Hs Hdec) as [_ Hnone]. apply Forall_forall. intros k Hk. cbn in Hoth.
      rewrite Hoth, Hnone; [apply lookup_empty|]. by intros ->.
    + rewrite Hd. intros Hdec. destruct (as_opens _ _ Hs Hdec) as [_ Hop]. eapply Forall_impl; [exact Hop|].
      intros o (s' & sc & q & H1 & H2 & H3 & H4 & H5). destruct (gr_scopes _ _ Hg _ _ H2) as (sc' & Hsc' & <- & <- & _) in H3, H5.
      exists s', sc', q. cbn. split_and!; auto.
    + intros _. apply Forall_forall. intros i _. by rewrite (as_refs _ _ Hs), lookup_empty.
  - by destruct (as_idle _ _ Hs).
  - apply (as_label _ _ Hs).
  - unfold env_of. cbn. by rewrite (proj1 (as_jumps _ _ Hs)), (proj2 (as_jumps _ _ Hs)).
  - exists (module_start s). by rewrite list_lookup_middle.
  - intros He. pose proof (bw_zero _ (tw_bld _ Hwf)) as Hz. cbn in Hz. apply lookup_lt_Some in Hz. cbn in He. lia.
Qed.

(** ** A pass *)

Context (F : trav) (Hzero : nodes (bld F) !! unreachableFlow = Some unreachable_node).
Abbreviation never := (never_call (t_refs (tab F)) (symbols (bnd (bld F)))).
Abbreviation code := (prog_code never p).

Context (fuel : nat) (Hfuel : (cost (prog_plan p) ≤ fuel)%nat).

Lemma statements_spec :
  spec F (prog_key p) (prog_plan p) (lab m "") (lab m "") (lim m code) (each (visit fuel) (prog_body p)).
Proof.
  refine (v_each F Hzero (visit fuel) fuel (visit_visited F Hzero fuel) (prog_key p) m "" (prog_body p) _).
  split_and!; [done|exact Hlabels|exact Hregular|by right; left].
Qed.

(** What is known of the state after a pass; [F] is the one after both. *)
Record passed (d : bool) (b b' : trav) : Prop := {
  pa_wf : twf b';
  pa_next : d = true → at_start false b';
  pa_graph : d = false → ∃ s start n, scopeOf (bnd (bld b')) !! prog_key p = Some s
    ∧ nodes (bld b') !! start = Some n ∧ FFlags n = FlowStart ∧ FScope n = Some s ∧ start ≠ unreachableFlow
    ∧ (F = b' → (∀ tr id, now (lim m code) tr (At id) → used F start tr id (Some s)) ∧ activates F (lim m code)) }.

Lemma opened_ok_bnd b y o :
  grows (bnd (bld b)) y → scopeOf y = scopeOf (bnd (bld b)) → opened_ok b o → opened_ok (with_bnd y b) o.
Proof.
  intros Hg Hso (s & sc & q & H1 & H2 & H3 & H4 & H5). destruct (gr_scopes _ _ Hg _ _ H2) as (sc' & Hsc' & E1 & E2 & _).
  exists s, sc', q. cbn. rewrite Hso. split_and!; congruence.
Qed.

(** The declaring pass leaves what the resolving one starts from. *)
Lemma next_pass b s b2 b3 sc y :
  at_start true b → underway true b s b2 → moves (prog_plan p) b2 b3 → pending (lab m "") b3 →
  scopes (bnd (bld b3)) !! s = Some sc → Parent sc = None →
  let b4 := with_bnd (set_cur None (bnd (bld b3))) b3 in
  twf b4 → wf y → grows (bnd (bld b4)) y → place (bnd (bld b4)) y → at_start false (with_bnd y b4).
Proof.
  intros Hs U [Hc Hm] Hl Hsc Hpar b4 Hwf Hwfy Hg (_ & _ & Hpre & Hso). pose proof (uw_env _ _ _ _ U) as He. injection He as Hj Hret _.
  pose proof (uw_ready _ _ _ _ U) as R. destruct (uw_kept _ _ _ _ U) as [Hrefs Hord]. destruct (as_fresh _ _ Hs eq_refl) as [H0 _].
  constructor; cbn; try done.
  - by apply twf_with_bnd.
  - by rewrite (sm_jumps _ _ Hm), (sm_return _ _ Hm).
  - rewrite Hpre. cbn. by rewrite (sm_prefix _ _ Hm), (re_prefix _ _ _ R).
  - pose proof (co_ord _ _ _ Hc). pose proof (to_size _ Hp). rewrite Hord, H0 in *. lia.
  - destruct (uw_idle _ _ _ _ U). constructor; cbn; [by rewrite (sm_iife _ _ Hm)|by rewrite (sm_writing _ _ Hm)|by apply (sm_storing _ _ Hm)].
  - rewrite (co_still _ _ _ Hc (uw_declaring _ _ _ _ U)), Hrefs. apply Hs.
  - intros _. split.
    + destruct (gr_scopes _ _ Hg _ _ Hsc) as (sc' & Hsc' & _ & Hpar' & _). exists s, sc'. rewrite Hso. cbn.
      split_and!; [by apply (co_kept _ _ _ Hc), U|done|by rewrite Hpar'].
    + eapply Forall_impl; [apply (co_opens _ _ _ Hc (uw_declaring _ _ _ _ U))|]. intros o Ho. by apply (opened_ok_bnd b4).
Qed.

Lemma wp_bind_pass d b X : at_start d b → wp (bind_pass fuel p d) (λ _ b', passed d b b') X b.
Proof.
  intros Hs. unfold bind_pass. apply wp_enter_module; [done|]. intros s b1 Hin. wp_step.
  apply wp_fl. eapply wp_alloc; [apply (tw_bld _ (im_wf _ _ _ _ Hin))|constructor; try done; constructor|]. intros x Haf Hn. wp_steps. apply wp_set_function. wp_steps.
  set (b2 := with_function _ _ _ _ _). pose proof (start_underway d b s b1 x Hs Hin Haf eq_refl : underway d b s b2) as U.
  clearbody b2. eapply wp_mono; [apply statements_spec; apply U| |done]. cbv beta. intros [] b3 [[Hc3 Hs3] Hl3 Hcl3]. wp_steps.
  destruct (uw_scope _ _ _ _ U) as (sc & Hsc & Hpar). destruct (gr_scopes _ _ (co_grows _ _ _ Hc3) _ _ Hsc) as (sc3 & Hsc3 & _ & Hpar3 & _).
  assert (leave (bnd (bld b3)) = (Ok tt, set_cur None (bnd (bld b3)))) as Hrun.
  { eapply run_leave; [by rewrite (sm_cur _ _ Hs3), (uw_cur _ _ _ _ U)|done|by rewrite Hpar3]. }
  apply wp_bd. unfold wp. rewrite Hrun. set (b4 := with_bnd _ b3).
  assert (twf b4) as Hwf4.
  { apply twf_with_bnd; [apply (co_wf _ _ _ Hc3)| |by constructor; cbn; eauto 10]. destruct (bw_bnd _ (tw_bld _ (co_wf _ _ _ Hc3))). by constructor. }
  destruct d.
  - apply wp_t_checkHoists; [done|]. intros y Hwfy Hgy Hpl. constructor; [by apply twf_with_bnd| |done]. intros _.
    eapply next_pass; [exact Hs|exact U|by split|exact Hl3|exact Hsc3|by rewrite Hpar3|done..].
  - wp_steps. constructor; [done|done|]. intros _. destruct (uw_start _ _ _ _ U) as (n & Hnode & Hfl & Hscope).
    destruct (co_graph _ _ _ Hc3 _ _ Hnode) as (n' & Hnode' & Hgn). unfold node_grows in Hgn. destruct_and!.
    exists s, (flow (bld b2)), n'. split_and!; [by apply (co_kept _ _ _ Hc3), U|done|congruence|congruence|apply U|].
    intros HF. destruct Hcl3 as [Hbet Hact].
    + unfold flowing. by rewrite (uw_declaring _ _ _ _ U).
    + rewrite HF. constructor; [unfold within; cbn; reflexivity|done..].
    + split; [|done]. rewrite (uw_env _ _ _ _ U) in Hbet. intros tr id Hn'. by apply (Hbet tr (At id) (uw_live _ _ _ _ U)).
Qed.
End pass.

(** ** Both passes *)

Lemma start_at_start m p annexB : tree_ok p → at_start m p true (start_trav annexB).
Proof.
  intros Hp. pose proof (to_size _ Hp). constructor; try done.
  - constructor; [apply fstart_wf|by intros ? ?..].
  - cbn. lia.
  - destruct m; by intros ? [= <-].
Qed.

Section passes.
Context (fuel : nat) (annexB : bool) (p : Program).
Definition passes : TravM unit := bind_pass fuel p true ≫= λ _, bind_pass fuel p false.

Context (Hp : tree_ok p) (Hfuel : (cost (prog_plan p) ≤ fuel)%nat).

Lemma wp_passes m F X :
  nodes (bld F) !! unreachableFlow = Some unreachable_node →
  (m ≠ Blind → all labels_ok (prog_body p) = true) → (m = Full → all regular (prog_body p) = true) →
  wp passes (λ _ b', ∃ b, passed m p F false b b') X (start_trav annexB).
Proof.
  intros Hzero Hl Hr. unfold passes. wp_step.
  eapply wp_mono; [by apply (wp_bind_pass m p Hp Hl Hr F Hzero fuel Hfuel true), start_at_start| |done]. intros [] b Hb.
  eapply wp_mono; [apply (wp_bind_pass m p Hp Hl Hr F Hzero fuel Hfuel false), (pa_next _ _ _ _ _ _ Hb), eq_refl| |done].
  intros [] b' Hb'. by exists b.
Qed.

(** The passes end, and of their final state the paths are known. *)
Lemma passes_end :
  ∃ F, passes (start_trav annexB) = (Ok tt, F) ∧ twf F
    ∧ ∀ m, (m ≠ Blind → all labels_ok (prog_body p) = true) → (m = Full → all regular (prog_body p) = true) →
      ∃ b, passed m p F false b F.
Proof.
  pose proof (wp_passes Blind (start_trav annexB) (λ _ _, False) eq_refl ltac:(done) ltac:(done)) as H. unfold wp in H.
  destruct (passes (start_trav annexB)) as [[[]|[]| |] F] eqn:Hrun; try done. destruct H as (b & Hb). pose proof (pa_wf _ _ _ _ _ _ Hb) as Hwf.
  exists F. split_and!; [done|done|]. intros m Hl Hr.
  pose proof (wp_passes m F (λ _ _, False) (bw_zero _ (tw_bld _ Hwf)) Hl Hr) as H. unfold wp in H. by rewrite Hrun in H.
Qed.

Lemma BindWith_passes F s script :
  passes (start_trav annexB) = (Ok tt, F) → scopeOf (bnd (bld F)) !! prog_key p = Some s →
  BindWith fuel annexB script p = Ok (binding_of s script F).
Proof. unfold BindWith. intros Hrun Hs. fold passes. rewrite Hrun. unfold prog_key in Hs. by rewrite Hs. Qed.

Lemma some_values_lookup {A} (t : gmap nat (option A)) i x : some_values t !! i = Some x ↔ t !! i = Some (Some x).
Proof. unfold some_values. rewrite lookup_omap. destruct (t !! i) as [[y|]|]; cbn; split; congruence. Qed.

Lemma binding_of_ok F s script : twf F → binding_ok (binding_of s script F).
Proof.
  intros [Hb Hr Hf Hs]. constructor; [apply Hb|by apply bwf_graph_ok|by apply bwf_graph_shape|done|done|].
  intros i t Hi. apply some_values_lookup in Hi. by apply (Hs i (Some t) Hi).
Qed.
End passes.
