(* ===== verification/TraverseProps.v ===== *)
(** * Properties of the binder's traversal

    [BindWith] on any tree, the executions as paths of its graph, and what
    that makes of [DefinitelyAssigned]. *)

From S2P Require Import Prelude GoString Diag Ast Symbols SymbolFacts Flow FlowWalk FlowFacts FlowQuery FlowProps.
From S2P Require Import Traverse Exec FlowPath TraverseFacts TraverseSpec TraverseRules TraverseProgram.
Open Scope Z_scope.


(** What the passes leave, with the executions on its paths. *)
Lemma bound_paths fuel annexB script p :
  tree_ok p → (cost (prog_plan p) ≤ fuel)%nat → all labels_ok (prog_body p) = true →
  ∃ F s start n, twf F ∧ passes fuel p (start_trav annexB) = (Ok tt, F)
    ∧ BindWith fuel annexB script p = Ok (binding_of s script F)
    ∧ nodes (bld F) !! start = Some n ∧ FFlags n = FlowStart ∧ FScope n = Some s
    ∧ let code := prog_code (never_call (t_refs (tab F)) (symbols (bnd (bld F)))) p in
      (all regular (prog_body p) = true → ∀ tr id, now code tr (At id) → used F start tr id (Some s))
      ∧ (∀ fn tr id, inside code fn tr id → activated F fn tr id).
Proof.
  intros Hp Hfuel Hl. destruct (passes_end fuel annexB p Hp Hfuel) as (F & Hrun & Hwf & Hall).
  set (m := if all regular (prog_body p) then Full else Insides).
  destruct (Hall m) as (b & Hb); [done|by subst m; destruct (all regular (prog_body p))|].
  destruct (pa_graph _ _ _ _ _ _ Hb eq_refl) as (s & start & n & Hs & Hn & Hfl & Hsc & _ & Hc). destruct (Hc eq_refl) as [Hu Ha].
  exists F, s, start, n. split_and!; try done; [by apply BindWith_passes|]; subst m. split.
  - intros Hreg. by rewrite Hreg in Hu.
  - destruct (all regular (prog_body p)); exact Ha.
Qed.


(** ** What a path has passed *)

Section passed.
Context (F : trav) (Hwf : bwf (bld F)) (home sym scope : nat) (fact : FlowNode → bool).
Abbreviation g := (nodes (bld F)).
Abbreviation stop := (back_stop home sym scope fact).
Abbreviation enters tr := (∃ k, EEnter k ∈ tr ∧ scopeOf (bnd (bld F)) !! k = Some scope).

(** Since the start, or since a node that stops the way back. *)
Definition since (f : nat) (tr : list event) (q : nat) : Prop :=
  (rtc (free_edge g stop) q f ∧ ¬ enters tr)
  ∨ ∃ tr1 e tr2 x n, tr = tr1 ++ e :: tr2 ∧ event_at F e n ∧ g !! x = Some n ∧ live n ∧ stop n
      ∧ rtc (free_edge g stop) q x ∧ ¬ enters tr2.

Lemma live_successor q n p : g !! q = Some n → predecessor n p → live n.
Proof.
  intros Hn Hp. destruct (decide (q = unreachableFlow)) as [->|Hq].
  - rewrite (bw_zero _ Hwf) in Hn. injection Hn as <-. by destruct Hp as [?|?%elem_of_nil].
  - apply (bw_nodes _ Hwf _ _ Hq) in Hn. apply Hn.
Qed.
Lemma start_no_predecessor q n p : g !! q = Some n → predecessor n p → FFlags n ≠ FlowStart.
Proof.
  intros Hn Hp Hfl. pose proof (bwf_graph_shape _ Hwf _ _ Hn (live_successor _ _ _ Hn Hp)) as Hsh. unfold node_shape in Hsh.
  rewrite Hfl in Hsh. cbn in Hsh. apply andb_true_iff in Hsh as [H1 H2].
  destruct Hp as [Hp|Hp]; [by rewrite Hp in H2|]. destruct (Antecedents n); [by apply elem_of_nil in Hp|done].
Qed.

#[local] Instance stop_dec n : Decision (stop n).
Proof. unfold back_stop, fact_node, entry_node. apply _. Defined.

Lemma enters_snoc tr e : enters (tr ++ [e]) → enters tr ∨ ∃ k, e = EEnter k ∧ scopeOf (bnd (bld F)) !! k = Some scope.
Proof.
  intros (k & [Hk|Hk%elem_of_cons]%elem_of_app & Hs); [left; by exists k|]. destruct Hk as [Hk|Hk%elem_of_nil]; [|done].
  right. exists k. split; [by symmetry|done].
Qed.

(** One step of a path that does not stop the way back. *)
Lemma since_free f tr tr' p q :
  since f tr p → free_edge g stop q p → (tr' = tr ∨ ∃ e, tr' = tr ++ [e] ∧ ∀ k, e = EEnter k → scopeOf (bnd (bld F)) !! k ≠ Some scope) →
  since f tr' q.
Proof.
  intros [[Hr He]|(tr1 & e1 & tr2 & x & n & -> & H1 & H2 & H3 & H4 & Hr & He)] Hfree [->|(e & -> & Hk)].
  - left. split; [by eapply rtc_l|done].
  - left. split; [by eapply rtc_l|]. intros [?|(k & -> & Hs)]%enters_snoc; [done|by apply (Hk k)].
  - right. exists tr1, e1, tr2, x, n. split_and!; try done. by eapply rtc_l.
  - right. exists tr1, e1, (tr2 ++ [e]), x, n. rewrite <-app_assoc. split_and!; try done; [by eapply rtc_l|].
    intros [?|(k & -> & Hs)]%enters_snoc; [done|by apply (Hk k)].
Qed.

Lemma path_since f tr q : path F f tr q → since f tr q.
Proof.
  induction 1 as [|tr p q n H IH Hn Hp Hs|tr p q n e H IH Hn Hp He|tr p e H IH He].
  - left. split; [done|]. by intros (k & Hk%elem_of_nil & _).
  - eapply since_free; [exact IH| |by left]. exists n. split_and!; [done|by eapply live_successor| |done].
    destruct Hs as [Hs1 Hs2]. intros [(? & _)|[[? _]|[? _]]]; [done|by eapply start_no_predecessor|done].
  - pose proof (live_successor _ _ _ Hn Hp) as Hl. destruct (decide (stop n)) as [Hstop|Hstop].
    + right. exists tr, e, [], q, n. split_and!; try done. by intros (k & Hk%elem_of_nil & _).
    + eapply since_free; [exact IH|by exists n|]. right. exists e. split; [done|]. intros k -> Hk. apply Hstop. right. right.
      destruct He as (H1 & _ & H2). split; [done|congruence].
  - destruct IH as [[Hr Hen]|(tr1 & e1 & tr2 & x & n & -> & H1 & H2 & H3 & H4 & Hr & Hen)].
    + left. split; [done|]. intros [?|(k & -> & _)]%enters_snoc; [done|]. done.
    + right. exists tr1, e1, (tr2 ++ [e]), x, n. rewrite <-app_assoc. split_and!; try done.
      intros [?|(k & -> & _)]%enters_snoc; done.
Qed.

(** A path from the function's own start that misses no store has passed one,
    the last there is since the scope was entered. *)
Lemma path_stores f tr q n0 :
  path F f tr q → g !! f = Some n0 → FFlags n0 = FlowStart → FScope n0 = Some home →
  (¬ ∃ n, meets_entry g home sym scope fact q n) →
  ∃ tr1 e tr2 n, tr = tr1 ++ e :: tr2 ∧ event_at F e n ∧ meets_fact g home sym scope fact q n ∧ ¬ enters tr2.
Proof.
  intros Hp Hn0 Hfl Hsc Hno. destruct (path_since _ _ _ Hp) as [[Hr _]|(tr1 & e & tr2 & x & n & -> & He & Hx & Hl & Hst & Hr & Hen)].
  - exfalso. apply Hno. exists n0. split; [|by left]. exists f. split_and!; [done|done|by unfold live; rewrite Hfl|right; by left].
  - exists tr1, e, tr2, n. split_and!; [done|done| |done]. destruct Hst as [Hst|Hst].
    + split; [|done]. exists x. split_and!; [done..|by left].
    + exfalso. apply Hno. exists n. split; [|done]. exists x. split_and!; [done..|by right].
Qed.
End passed.

(** The part of [DefinitelyAssigned]'s answer that is needed. *)
Lemma DefinitelyAssigned_reads B id :
  binding_ok B → DefinitelyAssigned B id = Some true →
  ∃ r, is_local B id r ∧ ¬ some_start B r FAssign ∧ ∀ n, path_store B r FAssign n → plain_store (FNode n) = true.
Proof.
  intros HB Hd. destruct (DefinitelyAssigned_spec B HB id) as (a & Ha & Hiff). rewrite Hd in Ha. injection Ha as <-.
  destruct (proj1 Hiff eq_refl) as (r & Hl & _ & _ & _ & Hno & Hplain). by exists r.
Qed.


(** ** A program: [let x: number; if (c) { x = 1; } else { x = 2; } x;] *)

Definition nd (i : nat) (k : NodeKind) : Node := mkNode i (mkPos 1 1) k.
Definition let_x : Node := nd 1 (VarDeclaration "let" "x" (Some (mkTypeAnnotation "number" false "number")) None false false).
Definition name (i : nat) (s : string) : Node := nd i (Identifier s).
(** [x = ...], of which the nodes are numbered from [i]. *)
Definition set_x (i : nat) : Node := nd i (AssignmentExpression "=" (name (S i) "x") (nd (S (S i)) (BooleanLiteral true))).
Definition stmt (i : nat) (e : Node) : Node := nd i (ExpressionStatement e).
Definition block (i : nat) (ss : list Node) : Block := mkBlock i (mkPos 1 1) ss.
Definition branches : Node :=
  nd 2 (IfStatement (name 3 "c") (Some (block 4 [stmt 5 (set_x 6)])) (Some (as_node (block 10 [stmt 11 (set_x 12)])))).
Definition joined : Program := mkProgram 0 [let_x; branches; stmt 20 (name 21 "x")].
(** A function that reads [x]: in it, the variable is another function's. *)
Definition bound (p : Program) : Binding :=
  match BindWith 100 false false p with Ok B => B | _ => binding_of 0 false (start_trav false) end.

Lemma now_seq A B t1 t2 o : now A t1 Normal → now B t2 o → now (seq A B) (t1 ++ t2) o.
Proof. intros H1 H2. right. by exists t1, t2. Qed.
Lemma now_cut A B tr o : now A tr o → o ≠ Normal → now (seq A B) tr o.
Proof. by left. Qed.

Definition tree_ok_b (p : Program) : bool :=
  bool_decide (NoDup (prog_key p :: keys (prog_plan p))) && bool_decide (NoDup (idents (prog_plan p)))
  && (2 * Z.of_nat (cost (prog_plan p)) <=? maxOrd).
Lemma tree_ok_of p : tree_ok_b p = true → tree_ok p.
Proof.
  unfold tree_ok_b. intros [[H1 H2]%andb_true_iff H3]%andb_true_iff. constructor; [by apply bool_decide_eq_true in H1|by apply bool_decide_eq_true in H2|by apply Z.leb_le].
Qed.

Definition through_branch : list event :=
  [EStore (TName "let" "x") (Some let_x) true false; EEnter (4%nat, 0%nat); EStore (TId 7) (Some (set_x 6)) false true].
Lemma reads_joined refs ss : now (prog_code (never_call refs ss) joined) through_branch (At 21).
Proof.
  apply (now_seq _ _ [EStore (TName "let" "x") (Some let_x) true false]); [by apply (now_seq _ _ [] [_])|].
  apply (now_seq _ _ [EEnter (4%nat, 0%nat); EStore (TId 7) (Some (set_x 6)) false true] []).
  - apply (now_seq _ _ []); [by cbn; auto|]. left. apply (now_seq _ _ [_] [_]); [done|].
    apply (now_seq _ _ [_] []); [|done]. apply (now_seq _ _ [_] []); [|done].
    apply (now_seq _ _ [] [_]); [done|]. apply (now_seq _ _ [] [_]); [by cbn; auto|done].
  - apply now_cut; [|done]. apply now_cut; [|done]. by cbn; auto.
Qed.



