(* ===== verification/TraverseExamples.v ===== *)
(** * Programs the graph does not show truly

    What [regular] and [labels_ok] exclude: in each of these programs a read of
    [x] is definitely assigned by the graph, and an execution comes to it
    without a store. *)

From S2P Require Import Prelude GoString Diag Ast Symbols Flow Traverse Exec FlowPath TraverseProgram TraverseProps.
Open Scope Z_scope.

(** The read is answered as assigned, and may be reached by [tr], in which
    nothing is stored through an identifier. *)
Definition stores_nothing (tr : list event) : bool :=
  forallb (λ e, match e with EStore (TId _) _ _ _ => false | _ => true end) tr.
Definition unsound_read (p : Program) (id : nat) : Prop :=
  let B := bound p in
  DefinitelyAssigned B id = Some true
  ∧ ∃ tr, now (prog_code (never_call (refs B) (symbols (scopesym B))) p) tr (At id) ∧ stores_nothing tr = true.

Definition declared_x : list event := [EStore (TName "let" "x") (Some let_x) true false].

(** [let x: number; x += (x = 1);] *)
Definition compound_program : Program :=
  mkProgram 0 [let_x; stmt 2 (nd 3 (AssignmentExpression "+=" (name 4 "x") (set_x 5)))].
Lemma compound_right_first : unsound_read compound_program 4.
Proof.
  split; [vm_compute; reflexivity|]. exists declared_x. split; [|reflexivity].
  apply (now_seq _ _ declared_x []); [by apply (now_seq _ _ [] [_])|].
  do 3 (apply now_cut; [|done]). by cbn; auto.
Qed.

(** [let x: number; o?.f(x = 1); x;] *)
Definition chain_program : Program :=
  mkProgram 0 [let_x; stmt 2 (nd 3 (CallExpression (nd 4 (MemberExpression (name 5 "o") "f" true false)) [set_x 6] false true));
               stmt 10 (name 11 "x")].
Lemma optional_chain_always : unsound_read chain_program 11.
Proof.
  split; [vm_compute; reflexivity|]. exists declared_x. split; [|reflexivity].
  apply (now_seq _ _ declared_x []); [by apply (now_seq _ _ [] [_])|].
  apply (now_seq _ _ [] []).
  - apply (now_seq _ _ [] []); [|done]. apply (now_seq _ _ [] []); [|by left]. by apply (now_seq _ _ [] []); cbn; auto.
  - do 2 (apply now_cut; [|done]). by cbn; auto.
Qed.

(** [let x: number; switch (c) { case true: case x = true: x; }] *)
Definition switch_program : Program :=
  mkProgram 0 [let_x; nd 2 (SwitchStatement (name 3 "c")
    [mkCase (Some (nd 4 (BooleanLiteral true))) []; mkCase (Some (set_x 5)) [stmt 10 (name 11 "x")]])].
Lemma fall_through_tests : unsound_read switch_program 11.
Proof.
  split; [vm_compute; reflexivity|]. exists (declared_x ++ [EEnter (2%nat, 0%nat)]). split; [|reflexivity].
  apply (now_seq _ _ declared_x); [by apply (now_seq _ _ [] [_])|]. apply now_cut; [|done].
  apply (now_seq _ _ [] [_]); [by cbn; auto|]. apply (now_seq _ _ [_] []); [done|]. cbn [now switched]. left. left.
  apply (now_seq _ _ [] []); [by apply (now_seq _ _ [] [])|]. apply (now_seq _ _ [] []); [done|].
  do 3 (apply now_cut; [|done]). by cbn; auto.
Qed.

(** [let x: number; outer: for (function () { while (c) { } }; ; ) { if (c) { break outer; } x = 1; break; } x;]
    The loop in the function takes the label. *)
Definition looping_function : FunctionData :=
  mkFunction [] [] (Some (block 5 [nd 6 (WhileStatement (name 7 "c") (Some (block 8 [])))])) None false false None.
Definition stolen_program : Program :=
  mkProgram 0 [let_x;
    nd 2 (LabeledStatement "outer" (nd 3 (ForStatement (Some (nd 4 (FunctionExpression "" looping_function))) None []
      (Some (block 10 [nd 11 (IfStatement (name 12 "c") (Some (block 13 [nd 14 (BreakStatement "outer")])) None);
                       stmt 15 (set_x 16); nd 19 (BreakStatement "")])))));
    stmt 20 (name 21 "x")].
Definition stolen_trace : list event := [EEnter (3%nat, 0%nat); EEnter (10%nat, 0%nat); EEnter (13%nat, 0%nat)].
Lemma label_stolen : unsound_read stolen_program 21 ∧ all labels_ok (prog_body stolen_program) = false.
Proof.
  split; [|reflexivity]. split; [vm_compute; reflexivity|]. exists (declared_x ++ stolen_trace). split; [|reflexivity].
  apply (now_seq _ _ declared_x); [by apply (now_seq _ _ [] [_])|].
  apply (now_seq _ _ stolen_trace []).
  - apply (now_seq _ _ [_] [_; _]); [done|]. apply (now_seq _ _ [] [_; _]); [done|]. apply (now_seq _ _ [] [_; _]); [constructor|].
    right. apply (now_seq _ _ [] [_; _]); [done|]. split; [done|]. exists "outer". split; [done|].
    apply (now_seq _ _ [_] [_]); [done|]. apply now_cut; [|done]. apply (now_seq _ _ [] [_]); [by cbn; auto|]. left.
    apply (now_seq _ _ [_] []); [done|]. by apply now_cut.
  - do 2 (apply now_cut; [|done]). by cbn; auto.
Qed.

(** [let x: number; a: b: do { if (c) { continue a; } x = 1; } while (c); x;]
    The graph has no edge for the continue: the label [a] is not the loop's. *)
Definition nested_program : Program :=
  mkProgram 0 [let_x;
    nd 2 (LabeledStatement "a" (nd 3 (LabeledStatement "b" (nd 4 (DoWhileStatement
      (Some (block 5 [nd 6 (IfStatement (name 7 "c") (Some (block 8 [nd 9 (ContinueStatement "a")])) None); stmt 10 (set_x 11)]))
      (name 14 "c"))))));
    stmt 20 (name 21 "x")].
Lemma continue_to_outer_label : DefinitelyAssigned (bound nested_program) 21 = Some true.
Proof. vm_compute. reflexivity. Qed.
