(* ===== verification/TextFacts.v ===== *)
(** * Reading back what is written into strings: decimal numbers, lists joined
    by a separator, prefixes and substrings *)

From S2P Require Import Prelude GoString.
From Stdlib Require Import Ascii.
Open Scope Z_scope.

(** ** Digits *)

Definition is_digit (a : ascii) : bool := in_range 0x30 0x39 (byte_val a).

(** What follows is not taken for a further byte of [p]. *)
Definition stops (p : ascii → bool) (s : string) : Prop :=
  match s with EmptyString => True | String a _ => p a = false end.

(** The number the leading digits write, and the rest. *)
Fixpoint parse_digits (m : Z) (s : string) : Z * string :=
  match s with
  | String a s' => if is_digit a then parse_digits (m * 10 + (byte_val a - 0x30)) s' else (m, s)
  | EmptyString => (m, s)
  end.

Lemma digit_char d : 0 ≤ d < 10 → byte_val (byte_of (0x30 + d)) = 0x30 + d ∧ is_digit (byte_of (0x30 + d)) = true.
Proof.
  intros Hd. assert (byte_val (byte_of (0x30 + d)) = 0x30 + d) as He by (apply byte_val_of; lia).
  split; [done|]. unfold is_digit. rewrite He. unfold in_range. apply andb_true_iff. split; apply Z.leb_le; lia.
Qed.

Lemma digits_aux_parse fuel z acc m :
  0 ≤ z < 10 ^ Z.of_nat fuel → (0 < fuel)%nat →
  ∃ k, parse_digits m (digits_aux fuel z acc) = parse_digits (m * 10 ^ k + z) acc ∧ 0 < k ≤ Z.of_nat fuel.
Proof.
  revert z acc m. induction fuel as [|fuel IH]; intros z acc m Hz Hf; [lia|]. cbn [digits_aux].
  pose proof (Z.mod_pos_bound z 10 ltac:(lia)) as Hmod. destruct (digit_char (z mod 10) Hmod) as [Hv Hd].
  destruct (Z.ltb_spec z 10) as [Hlt|Hge].
  - exists 1. cbn [parse_digits]. rewrite Hd, Hv. split; [|lia]. f_equal. rewrite Z.mod_small by lia. lia.
  - assert (0 < fuel)%nat as Hf' by (destruct fuel; [cbn in Hz; lia|lia]).
    assert (0 ≤ z / 10 < 10 ^ Z.of_nat fuel) as Hz'.
    { split; [apply Z.div_pos; lia|]. apply Z.div_lt_upper_bound; [lia|].
      replace (Z.of_nat (S fuel)) with (Z.succ (Z.of_nat fuel)) in Hz by lia. rewrite Z.pow_succ_r in Hz by lia. lia. }
    destruct (IH (z / 10) (String (byte_of (0x30 + z mod 10)) acc) m Hz' Hf') as (k & -> & Hk).
    exists (Z.succ k). cbn [parse_digits]. rewrite Hd, Hv. split; [|lia]. f_equal.
    rewrite Z.pow_succ_r by lia. pose proof (Z.div_mod z 10 ltac:(lia)). lia.
Qed.

Lemma itoa_fuel z : 0 ≤ z → z < 10 ^ Z.of_nat (S (Z.to_nat (Z.log2 z))).
Proof.
  intros Hz. destruct (Z.eq_dec z 0) as [->|Hne]; [cbn; lia|].
  pose proof (Z.log2_nonneg z). rewrite Nat2Z.inj_succ, Z2Nat.id by done.
  pose proof (Z.log2_spec z ltac:(lia)) as [_ Hlt]. eapply Z.lt_le_trans; [exact Hlt|].
  apply Z.pow_le_mono_l. lia.
Qed.

Lemma parse_stop m s : stops is_digit s → parse_digits m s = (m, s).
Proof. destruct s as [|a s]; [done|]. cbn. by intros ->. Qed.

Lemma itoa_nonneg_parse z r : 0 ≤ z → stops is_digit r → parse_digits 0 (itoa_nonneg z +:+ r) = (z, r).
Proof.
  intros Hz Hr. unfold itoa_nonneg.
  assert (∀ f z acc, digits_aux f z acc +:+ r = digits_aux f z (acc +:+ r)) as Happ.
  { clear. induction f as [|f IH]; intros z acc; cbn; [done|]. destruct (z <? 10); [done|]. by rewrite IH. }
  rewrite Happ, append_nil_l.
  destruct (digits_aux_parse (S (Z.to_nat (Z.log2 z))) z r 0) as (k & -> & _); [split; [done|by apply itoa_fuel]|lia|].
  by rewrite Z.mul_0_l, Z.add_0_l, parse_stop.
Qed.

(** A nonempty string of digits. *)
Fixpoint all_chars (p : ascii → bool) (s : string) : bool :=
  match s with EmptyString => true | String a s => p a && all_chars p s end.

Lemma all_chars_app p s t : all_chars p (s +:+ t) = all_chars p s && all_chars p t.
Proof. induction s as [|a s IH]; [done|]. rewrite append_cons. cbn. rewrite <-andb_assoc. by f_equal. Qed.

Lemma all_chars_impl (p q : ascii → bool) s : (∀ a, p a = true → q a = true) → all_chars p s = true → all_chars q s = true.
Proof. intros H. induction s as [|a s IH]; cbn; [done|]. rewrite !andb_true_iff. intros [? ?]. auto. Qed.

Lemma itoa_digits z : 0 ≤ z → all_chars is_digit (itoa_nonneg z) = true ∧ itoa_nonneg z ≠ EmptyString.
Proof.
  intros Hz. unfold itoa_nonneg.
  assert (∀ f z acc, all_chars is_digit acc = true → 0 ≤ z →
    all_chars is_digit (digits_aux f z acc) = true ∧ (acc ≠ EmptyString → digits_aux f z acc ≠ EmptyString)) as H.
  { clear. induction f as [|f IH]; intros z acc Hacc Hz; cbn [digits_aux]; [done|].
    pose proof (Z.mod_pos_bound z 10 ltac:(lia)) as Hmod. destruct (digit_char (z mod 10) Hmod) as [_ Hd].
    assert (all_chars is_digit (String (byte_of (0x30 + z mod 10)) acc) = true) as Hacc' by (cbn; by rewrite Hd).
    destruct (z <? 10); [done|]. destruct (IH (z / 10) _ Hacc') as [H1 H2]; [by apply Z.div_pos|]. split; [done|]. intros _. by apply H2. }
  cbn [digits_aux].
  pose proof (Z.mod_pos_bound z 10 ltac:(lia)) as Hmod. destruct (digit_char (z mod 10) Hmod) as [_ Hd].
  assert (all_chars is_digit (String (byte_of (0x30 + z mod 10)) EmptyString) = true) as Hacc' by (cbn; by rewrite Hd).
  destruct (z <? 10); [done|]. destruct (H (Z.to_nat (Z.log2 z)) (z / 10) _ Hacc') as [H1 H2]; [by apply Z.div_pos|]. split; [done|]. by apply H2.
Qed.

(** A number is read back from what [strconv.Itoa] wrote. *)
Lemma itoa_app_inj z1 z2 r1 r2 :
  stops is_digit r1 → stops is_digit r2 → itoa z1 +:+ r1 = itoa z2 +:+ r2 → z1 = z2 ∧ r1 = r2.
Proof.
  intros Hr1 Hr2. unfold itoa.
  assert (∀ z r s, 0 ≤ z → itoa_nonneg z +:+ r ≠ String (byte_of 0x2D) s) as Hminus.
  { intros z r s Hz He. destruct (itoa_digits z Hz) as [Hd Hne]. destruct (itoa_nonneg z) as [|a t]; [done|].
    rewrite append_cons in He. injection He as -> _. cbn in Hd. by vm_compute in Hd. }
  assert (∀ z1 z2, 0 ≤ z1 → 0 ≤ z2 → itoa_nonneg z1 +:+ r1 = itoa_nonneg z2 +:+ r2 → z1 = z2 ∧ r1 = r2) as Hpos.
  { intros x y Hx Hy He. pose proof (itoa_nonneg_parse x r1 Hx Hr1) as H1. rewrite He, itoa_nonneg_parse in H1 by done. by simplify_eq. }
  destruct (Z.ltb_spec z1 0), (Z.ltb_spec z2 0); intros He.
  - rewrite !append_cons in He. injection He as He. destruct (Hpos (- z1) (- z2) ltac:(lia) ltac:(lia) He). split; [lia|done].
  - symmetry in He. by apply Hminus in He.
  - by apply Hminus in He.
  - by apply Hpos.
Qed.

(** ** Prefixes and substrings *)

Lemma has_prefix_nil s : has_prefix s EmptyString = true.
Proof. by destruct s. Qed.

Lemma has_prefix_spec s p : has_prefix s p = true ↔ ∃ r, s = p +:+ r.
Proof.
  revert s. induction p as [|a p IH]; intros s.
  { rewrite has_prefix_nil. split; [|done]. intros _. exists s. by rewrite append_nil_l. }
  destruct s as [|b s]; [split; [done|by intros [r Hr]; rewrite append_cons in Hr]|].
  cbn. rewrite andb_true_iff, bool_decide_eq_true, IH. split.
  - intros [-> [r ->]]. exists r. by rewrite append_cons.
  - intros [r Hr]. rewrite append_cons in Hr. injection Hr as -> ->. split; [done|by exists r].
Qed.

Lemma has_prefix_app p r : has_prefix (p +:+ r) p = true.
Proof. apply has_prefix_spec. by exists r. Qed.

Lemma has_prefix_app_l s t p : has_prefix s p = true → has_prefix (s +:+ t) p = true.
Proof. rewrite !has_prefix_spec. intros [r ->]. exists (r +:+ t). by rewrite append_assoc. Qed.

Lemma drop_str_app u s : drop_str (String.length u) (u +:+ s) = s.
Proof. induction u as [|a u IH]; [done|]. rewrite append_cons. exact IH. Qed.
Lemma drop_str_app_plus u s n : drop_str (String.length u + n) (u +:+ s) = drop_str n s.
Proof. induction u as [|a u IH]; [done|]. rewrite append_cons. exact IH. Qed.
Lemma take_str_app u s : take_str (String.length u) (u +:+ s) = u.
Proof. induction u as [|a u IH]; [by destruct s|]. rewrite append_cons. cbn. by f_equal. Qed.

Lemma last_index_none s p : last_index_str s p = None ↔ index_str s p = None.
Proof.
  induction s as [|a s IH]; cbn [last_index_str index_str]; [done|].
  destruct (has_prefix (String a s) p); [destruct (last_index_str s p); split; done|].
  destruct (last_index_str s p), (index_str s p); cbn; intuition congruence.
Qed.

Lemma index_str_skip p a s : (∀ t, p ≠ String a t) → p ≠ EmptyString → index_str (String a s) p = S <$> index_str s p.
Proof.
  intros Hp Hne. cbn [index_str]. destruct (has_prefix (String a s) p) eqn:Hpre; [|done].
  apply has_prefix_spec in Hpre as [r Hr]. destruct p as [|b p]; [done|]. rewrite append_cons in Hr. injection Hr as <- _. by destruct (Hp p).
Qed.

(** ** Lists joined by a separator *)

(** Elements without the separator are told apart by it. *)
Lemma join_cons sep s ss : ss ≠ [] → join sep (s :: ss) = s +:+ sep +:+ join sep ss.
Proof. by destruct ss. Qed.

Lemma append_inj_stop (p : ascii → bool) s1 s2 r1 r2 :
  all_chars p s1 = true → all_chars p s2 = true → stops p r1 → stops p r2 → s1 +:+ r1 = s2 +:+ r2 → s1 = s2 ∧ r1 = r2.
Proof.
  revert s2. induction s1 as [|a s1 IH]; intros [|b s2] H1 H2 Hr1 Hr2 He; rewrite ?append_cons, ?append_nil_l in He; cbn in H1, H2.
  - done.
  - subst r1. cbn in Hr1. apply andb_true_iff in H2 as [? _]. congruence.
  - subst r2. cbn in Hr2. apply andb_true_iff in H1 as [? _]. congruence.
  - injection He as -> He. apply andb_true_iff in H1 as [_ H1], H2 as [_ H2].
    destruct (IH s2 H1 H2 Hr1 Hr2 He) as [-> ->]. done.
Qed.

Definition no_byte (z : Z) (a : ascii) : bool := negb (is_byte z a).

Lemma join_inj ss1 ss2 :
  Forall (λ s, all_chars (no_byte 0x2C) s = true) ss1 → Forall (λ s, all_chars (no_byte 0x2C) s = true) ss2 →
  ss1 ≠ [] → ss2 ≠ [] → join "," ss1 = join "," ss2 → ss1 = ss2.
Proof.
  revert ss2. induction ss1 as [|s1 ss1 IH]; intros [|s2 ss2] H1 H2 Hne1 Hne2 He; try done.
  apply Forall_cons in H1 as [Hs1 H1], H2 as [Hs2 H2].
  assert (∀ s r, all_chars (no_byte 0x2C) s = true → s ≠ r +:+ "," +:+ join "," ss1 ∧ s ≠ r +:+ "," +:+ join "," ss2) as Hcomma.
  { intros s r Hs. split; intros ->; rewrite !all_chars_app in Hs; apply andb_true_iff in Hs as [_ Hs]; done. }
  destruct ss1 as [|x1 ss1], ss2 as [|x2 ss2].
  - cbn in He. by subst.
  - rewrite (join_cons "," s2) in He by done. cbn [join] in He. by apply (Hcomma s1 s2) in He.
  - rewrite (join_cons "," s1) in He by done. cbn [join] in He. symmetry in He. by apply (Hcomma s2 s1) in He.
  - rewrite !join_cons in He by done.
    destruct (append_inj_stop (no_byte 0x2C) s1 s2 ("," +:+ join "," (x1 :: ss1)) ("," +:+ join "," (x2 :: ss2))) as [-> Hr];
      [done..|]. f_equal. injection Hr as Hr. by apply IH.
Qed.

Lemma join_nonempty ss : ss ≠ [] → ss ≠ [EmptyString] → join "," ss ≠ EmptyString.
Proof.
  destruct ss as [|s [|x ss]]; [done|intros _ Hne He; cbn in He; by subst|]. intros _ _ He.
  rewrite join_cons in He by done. apply (f_equal String.length) in He. rewrite !length_append in He. cbn in He. lia.
Qed.
