(* ===== verification/Jsdoc.v ===== *)
(** * JSDoc comments (src/jsdoc/parser.go), and the type a typedef spells
    (src/parser/parser.go)

    Strings are byte strings, as in Go; one definition per function. *)

From S2P Require Import Prelude GoString.
From Stdlib Require Import Ascii.
Open Scope Z_scope.

Record Annotation := mkAnnotation { Tag : string; AValue : string; Text : string; HasBrace : bool }.
(** A [*Comment] is the list of its annotations. *)
Abbreviation Comment := (list Annotation) (only parsing).

(** ** [Parse] *)

(** The class [\w] of the regular expression [@(\w+)]. *)
Definition is_word (a : ascii) : bool :=
  let c := byte_val a in in_range 0x30 0x39 c || in_range 0x41 0x5A c || in_range 0x61 0x7A c || (c =? 0x5F).
(** The longest prefix of bytes of [p], and the rest. *)
Fixpoint span (p : ascii → bool) (s : string) : string * string :=
  match s with
  | String a s' => if p a then let (u, v) := span p s' in (String a u, v) else (EmptyString, s)
  | EmptyString => (EmptyString, EmptyString)
  end.

(** The matches of [tagNameRe] in order: the name, and what follows it. A match
    does not start in the [skip] bytes of the one before. *)
Fixpoint tags (skip : nat) (raw : string) : list (string * string) :=
  match raw with
  | EmptyString => []
  | String a raw' =>
      match skip with
      | S skip => tags skip raw'
      | O =>
          if is_byte 0x40 a then
            match span is_word raw' with
            | (EmptyString, _) => tags 0 raw'
            | (tag, rest) => (tag, rest) :: tags (String.length tag) raw'
            end
          else tags 0 raw'
      end
  end.

(** The loop of [scanBraceType], after an open brace with [depth] open before. *)
Fixpoint brace_body (depth : nat) (s : string) : option (string * string) :=
  match s with
  | EmptyString => None
  | String a s' =>
      if is_byte 0x7B a then prod_map (String a) id <$> brace_body (S depth) s'
      else if is_byte 0x7D a then
        match depth with
        | O => Some (EmptyString, s')
        | S depth => prod_map (String a) id <$> brace_body depth s'
        end
      else if is_byte 0x0A a then None
      else prod_map (String a) id <$> brace_body depth s'
  end.
Definition is_blank (a : ascii) : bool := is_byte 0x20 a || is_byte 0x09 a.
Definition scanBraceType (s : string) : string * string * bool :=
  let s := (span is_blank s).2 in
  match s with
  | String a s' =>
      if is_byte 0x7B a then
        match brace_body 0 s' with
        | Some (body, after) => (body, after, true)
        | None => (EmptyString, s, false)
        end
      else (EmptyString, s, false)
  | EmptyString => (EmptyString, s, false)
  end.

Definition lineHead (s : string) : string := (span (λ a, negb (is_byte 0x0A a || is_byte 0x40 a)) s).1.

Definition annotation (tag rest : string) : Annotation :=
  let '(braceTy, after, hasBrace) := scanBraceType rest in
  let trailing := trim_space (lineHead after) in
  let val := trim_space braceTy in
  mkAnnotation tag (if bool_decide (val = ""%string) then trailing else val) trailing hasBrace.
Definition Parse (raw : string) : Comment := map (λ '(tag, rest), annotation tag rest) (tags 0 raw).

(** ** Names and types *)

Definition paramName (rest : string) : string :=
  let first := trim_space (span (λ a, negb (is_blank a)) rest).1 in
  let first :=
    if has_prefix first "[" && has_suffix first "]" then
      let inner := take_str (String.length first - 2) (drop_str 1 first) in
      (span (λ a, negb (is_byte 0x3D a)) inner).1
    else first in
  trim_space first.

Definition stripJSDocDecorations (ty : string) : string :=
  trim_space (trim_suffix (trim_prefix (trim_space ty) "...") "=").

(** ** Queries *)

Definition is_param (a : Annotation) : bool :=
  bool_decide (Tag a = "param") || bool_decide (Tag a = "arg") || bool_decide (Tag a = "argument").
Definition is_returns (a : Annotation) : bool := bool_decide (Tag a = "returns") || bool_decide (Tag a = "return").

Definition GetType (c : Comment) : string :=
  match List.find (λ a, bool_decide (Tag a = "type")) c with Some a => AValue a | None => "" end.
Definition ParamType (c : Comment) (name : string) : string :=
  match List.find (λ a, is_param a && negb (bool_decide (AValue a = ""%string)) && bool_decide (paramName (Text a) = name)) c with
  | Some a => stripJSDocDecorations (AValue a)
  | None => ""
  end.
Definition ParamOptional (c : Comment) (name : string) : bool :=
  match List.find (λ a, is_param a && bool_decide (paramName (Text a) = name)) c with
  | Some a => has_prefix (trim_space (Text a)) "[" || has_suffix (trim_space (AValue a)) "="
  | None => false
  end.
Definition ReturnType (c : Comment) : string :=
  match List.find is_returns c with Some a => stripJSDocDecorations (AValue a) | None => "" end.
Definition OwnedParams (c : Comment) : list string :=
  filter (λ n, n ≠ ""%string) (map (λ a, paramName (Text a)) (filter (λ a, Tag a = "owned"%string) c)).
Definition HasTag (c : Comment) (tag : string) : bool := existsb (λ a, bool_decide (Tag a = tag)) c.

Record TemplateParam := mkTemplateParam { TPName : string; Constraint : string }.
(** The names of one tag: the first takes the constraint. *)
Definition template_params (constraint : string) (names : list string) : list TemplateParam :=
  match names with
  | [] => []
  | n :: ns =>
      let named c n := let n := trim_space n in
        if bool_decide (n = ""%string) then [] else [mkTemplateParam n c] in
      named constraint n ++ concat (map (named EmptyString) ns)
  end.
Definition Templates (c : Comment) : list TemplateParam :=
  concat (map (λ a,
    template_params (if HasBrace a then stripJSDocDecorations (AValue a) else "") (split_byte (is_byte 0x2C) (Text a)))
    (filter (λ a, Tag a = "template"%string) c)).

(** ** Typedefs *)

Record TypedefField := mkField { FName : string; FType : string; Rest : bool }.
Record TypedefDecl := mkTypedef { TDName : string; TDKind : string; Base : string; Fields : list TypedefField; TDReturn : string }.

(** [strings.ToLower] of the ASCII letters: that no other rune's lower case is
    one of them but two, neither a letter of "object", is all the code needs. *)
Definition lower (a : ascii) : ascii := if in_range 0x41 0x5A (byte_val a) then byte_of (byte_val a + 0x20) else a.
Fixpoint ToLower (s : string) : string :=
  match s with EmptyString => EmptyString | String a s => String (lower a) (ToLower s) end.

Definition field (a : Annotation) : TypedefField :=
  mkField (paramName (Text a)) (stripJSDocDecorations (AValue a)) (has_prefix (trim_space (AValue a)) "...").
Definition add_field (a : Annotation) (d : TypedefDecl) : TypedefDecl :=
  mkTypedef (TDName d) (TDKind d) (Base d) (Fields d ++ [field a]) (TDReturn d).
Definition set_return (r : string) (d : TypedefDecl) : TypedefDecl :=
  mkTypedef (TDName d) (TDKind d) (Base d) (Fields d) r.

(** The declaration being added to is the last of [out]: [cur] of the code is
    its index, or -1 when there is none yet. *)
Definition alter_last (f : TypedefDecl → TypedefDecl) (kind : string) (out : list TypedefDecl) : list TypedefDecl :=
  match last out with
  | Some d => if bool_decide (TDKind d = kind) then take (length out - 1) out ++ [f d] else out
  | None => out
  end.
Definition typedef_step (out : list TypedefDecl) (a : Annotation) : list TypedefDecl :=
  if bool_decide (Tag a = "typedef") then
    let b := stripJSDocDecorations (AValue a) in
    let direct := HasBrace a && negb (bool_decide (ToLower b = "object"%string)) && negb (bool_decide (b = ""%string)) in
    out ++ [mkTypedef (paramName (Text a)) (if direct then "alias" else "object") (if direct then b else "") [] ""]
  else if bool_decide (Tag a = "callback") then out ++ [mkTypedef (paramName (Text a)) "callback" "" [] ""]
  else if bool_decide (Tag a = "property") || bool_decide (Tag a = "prop") then
    if bool_decide (AValue a = ""%string) then out else alter_last (add_field a) "object" out
  else if is_param a then
    if bool_decide (AValue a = ""%string) then out else alter_last (add_field a) "callback" out
  else if is_returns a then alter_last (set_return (stripJSDocDecorations (AValue a))) "callback" out
  else out.
Definition Typedefs (c : Comment) : list TypedefDecl := fold_left typedef_step c [].

(** [typedefSource] of parser.go: the TypeScript spelling. [strings.Trim] cuts
    the brackets off both ends. *)
Definition is_bracket (a : ascii) : bool := is_byte 0x5B a || is_byte 0x5D a.
Definition trim_brackets (s : string) : string := rev_str (span is_bracket (rev_str (span is_bracket s).2)).2.
Definition object_field (f : TypedefField) : option string :=
  if bool_decide (FType f = ""%string) || bool_decide (FName f = ""%string) then None
  else if has_prefix (FName f) "[" && has_suffix (FName f) "]" then
    Some ((span (λ a, negb (is_byte 0x3D a)) (trim_brackets (FName f))).1 +:+ "?: " +:+ FType f +:+ "; ")
  else Some (FName f +:+ ": " +:+ FType f +:+ "; ").
Definition callback_param (f : TypedefField) : option string :=
  if bool_decide (FType f = ""%string) || bool_decide (FName f = ""%string) then None
  else if Rest f then Some ("..." +:+ FName f +:+ ": " +:+ FType f +:+ "[]")
  else Some (FName f +:+ ": " +:+ FType f).
Definition typedefSource (d : TypedefDecl) : string :=
  if bool_decide (TDKind d = "object") then
    match mapM object_field (Fields d) with
    | Some fs => "{ " +:+ foldr String.append "" fs +:+ "}"
    | None => ""
    end
  else if bool_decide (TDKind d = "callback") then
    match mapM callback_param (Fields d) with
    | Some ps => "(" +:+ join ", " ps +:+ ") => " +:+ (if bool_decide (TDReturn d = ""%string) then "void" else TDReturn d)
    | None => ""
    end
  else "".
