(* ===== verification/JsdocProps.v ===== *)
(** * JSDoc comments are read as they are written *)

From S2P Require Import Prelude GoString TextFacts Jsdoc.
From Stdlib Require Import Ascii.
Open Scope Z_scope.

(** ** Prefixes cut off *)

Lemma span_app p u s : all_chars p u = true → stops p s → span p (u +:+ s) = (u, s).
Proof.
  intros Hu Hs. induction u as [|a u IH]; cbn in Hu.
  - rewrite append_nil_l. destruct s as [|b s]; [done|]. cbn in *. by rewrite Hs.
  - apply andb_true_iff in Hu as [Ha Hu]. rewrite append_cons. cbn. by rewrite Ha, IH.
Qed.

Lemma range_string_encode_app xs off s :
  Forall (λ r, valid_rune r = true) xs →
  ∃ P, range_string 0 off (encode xs +:+ s) = P ++ range_string 0 (off + String.length (encode xs)) s ∧ P.*2 = xs.
Proof.
  intros H. revert off. induction H as [|x xs Hx _ IH]; intros off.
  - exists []. cbn. by rewrite append_nil_l, Nat.add_0_r.
  - rewrite encode_cons. unfold encode_rune. rewrite Hx, append_assoc, range_string_encode_valid by done.
    destruct (IH (off + String.length (encode_valid x))%nat) as (P & -> & HP).
    exists ((off, x) :: P). cbn. rewrite HP, length_append. split; [|done]. do 3 f_equal. lia.
Qed.
Lemma filter_spaces_none (P : list (nat * rune)) :
  Forall (λ r, IsSpace r = true) P.*2 → filter (λ p : nat * rune, IsSpace p.2 = false) P = [].
Proof.
  induction P as [|[i r] P IH]; [done|]. rewrite fmap_cons. intros [Hr HP]%Forall_cons.
  cbn in Hr. rewrite filter_cons_False by (cbn; congruence). auto.
Qed.

(** The first and last rune of a string of the form [pre r post]. *)
Lemma leading_spaces_encode pre x s :
  Forall (λ r, valid_rune r = true) pre → Forall (λ r, IsSpace r = true) pre → valid_rune x = true → IsSpace x = false →
  leading_spaces (encode pre +:+ encode_valid x +:+ s) = String.length (encode pre).
Proof.
  intros Hv Hp Hx Hs. unfold leading_spaces.
  destruct (range_string_encode_app pre 0 (encode_valid x +:+ s) Hv) as (P & -> & HP).
  rewrite range_string_encode_valid by done. rewrite filter_app, filter_spaces_none by (by rewrite HP).
  by rewrite filter_cons_True.
Qed.
Lemma trailing_end_encode pre x post :
  Forall (λ r, valid_rune r = true) pre → Forall (λ r, valid_rune r = true) post → Forall (λ r, IsSpace r = true) post →
  valid_rune x = true → IsSpace x = false →
  trailing_end (encode pre +:+ encode_valid x +:+ encode post) = String.length (encode pre +:+ encode_valid x).
Proof.
  intros Hv Hvp Hp Hx Hs. unfold trailing_end.
  destruct (range_string_encode_app pre 0 (encode_valid x +:+ encode post) Hv) as (P & -> & HP).
  rewrite range_string_encode_valid by done. cbn [Nat.add].
  destruct (range_string_encode_app post (String.length (encode pre) + String.length (encode_valid x)) "" Hvp) as (Q & HQ & HQ').
  rewrite append_nil_r in HQ. rewrite HQ. cbn [range_string]. rewrite app_nil_r, rev_app_distr. cbn [rev].
  rewrite <- !app_assoc. cbn [app]. rewrite filter_app, filter_spaces_none, app_nil_l; last first.
  { change (rev Q).*2 with (map snd (rev Q)). rewrite map_rev. apply Forall_rev. change (map snd Q) with Q.*2. by rewrite HQ'. }
  rewrite filter_cons_True by done. cbn. rewrite drop_str_app, encode_valid_decode by done. by rewrite length_append.
Qed.

(** [TrimSpace] cuts the spaces off both ends, and nothing else. *)
Lemma trim_space_encode pre mid post :
  Forall (λ r, valid_rune r = true) (pre ++ mid ++ post) →
  Forall (λ r, IsSpace r = true) pre → Forall (λ r, IsSpace r = true) post →
  (∀ r, head mid = Some r → IsSpace r = false) → (∀ r, last mid = Some r → IsSpace r = false) → mid ≠ [] →
  trim_space (encode (pre ++ mid ++ post)) = encode mid.
Proof.
  intros Hv Hpre Hpost Hh Hl Hne. apply Forall_app in Hv as [Vpre Hv]. apply Forall_app in Hv as [Vmid Vpost].
  assert (∃ x m, mid = x :: m) as (x & m & Ex) by (destruct mid; eauto; done).
  assert (∃ y m, mid = m ++ [y]) as (y & m' & Ey) by (destruct mid as [|? ? _] using rev_ind; eauto; done).
  assert (valid_rune x = true) as Vx by (rewrite Ex in Vmid; by inversion Vmid).
  assert (valid_rune y = true) as Vy by (rewrite Ey in Vmid; apply Forall_app in Vmid as [_ V]; by inversion V).
  assert (Forall (λ r, valid_rune r = true) m') as Vm by (rewrite Ey in Vmid; by apply Forall_app in Vmid as [? _]).
  unfold trim_space. rewrite !encode_app.
  replace (leading_spaces _) with (String.length (encode pre)).
  replace (trailing_end _) with (String.length (encode pre +:+ encode mid)).
  - rewrite <- append_assoc, take_str_app, drop_str_app. done.
  - rewrite Ey, encode_app, encode_cons, append_nil_r. unfold encode_rune. rewrite Vy.
    rewrite <- !append_assoc, <- encode_app. rewrite append_assoc. rewrite trailing_end_encode; try done; [by apply Forall_app|].
    apply Hl. by rewrite Ey, last_snoc.
  - rewrite Ex, encode_cons. unfold encode_rune. rewrite Vx, append_assoc, leading_spaces_encode; try done. apply Hh. by rewrite Ex.
Qed.

(** ** Tags *)

Definition no_at : ascii → bool := no_byte 0x40.
(** A byte that neither ends the line nor starts a tag. *)
Definition in_line (a : ascii) : bool := negb (is_byte 0x0A a || is_byte 0x40 a).

Lemma tags_skip u s : tags (String.length u) (u +:+ s) = tags 0 s.
Proof. induction u as [|a u IH]; [done|]. by rewrite append_cons. Qed.
Lemma tags_gap u s : all_chars no_at u = true → tags 0 (u +:+ s) = tags 0 s.
Proof.
  induction u as [|a u IH]; [done|]. cbn [all_chars]. intros [Ha Hu]%andb_true_iff. rewrite append_cons. cbn [tags].
  apply negb_true_iff in Ha. rewrite Ha. by apply IH.
Qed.
Lemma tags_tag tag s :
  all_chars is_word tag = true → tag ≠ EmptyString → stops is_word s → tags 0 ("@" +:+ tag +:+ s) = (tag, s) :: tags 0 s.
Proof.
  intros Hw Hne Hs. change ("@" +:+ tag +:+ s) with (String "@" (tag +:+ s)). cbn [tags]. change (is_byte 64 "@"%char) with true. rewrite span_app by done.
  destruct tag as [|a tag]; [done|]. by rewrite tags_skip.
Qed.

(** ** The type in braces *)

(** Every brace of [s] has its partner, but for [depth] closing ones, and no line ends. *)
Fixpoint balanced (depth : nat) (s : string) : bool :=
  match s with
  | EmptyString => (depth =? 0)%nat
  | String a s =>
      if is_byte 0x7B a then balanced (S depth) s
      else if is_byte 0x7D a then match depth with O => false | S depth => balanced depth s end
      else negb (is_byte 0x0A a) && balanced depth s
  end.
Lemma brace_body_balanced ty depth after : balanced depth ty = true → brace_body depth (ty +:+ "}" +:+ after) = Some (ty, after).
Proof.
  revert depth. induction ty as [|a ty IH]; intros depth H.
  { rewrite append_nil_l. cbn in H. apply Nat.eqb_eq in H as ->. done. }
  cbn [balanced] in H. rewrite append_cons. cbn [brace_body].
  destruct (is_byte 123 a); [by rewrite IH|]. destruct (is_byte 125 a).
  - destruct depth as [|depth]; [done|]. by rewrite IH.
  - apply andb_true_iff in H as [Ha H]. apply negb_true_iff in Ha. rewrite Ha. by rewrite IH.
Qed.

(** The first byte of a rune is an ASCII one only if the rune is. *)
Lemma first_byte r a s c : valid_rune r = true → 0 ≤ c < 0x80 → encode_valid r = String a s → is_byte c a = true → r = c.
Proof.
  intros Hv Hc He Ha%Z.eqb_eq. pose proof (encode_valid_decode r "" Hv) as Hd. rewrite append_nil_r, He in Hd.
  unfold decode_rune in Hd. rewrite Ha in Hd. rewrite (proj2 (Z.ltb_lt c 0x80)) in Hd by lia. congruence.
Qed.
Lemma first_rune rs (p : rune → Prop) (q : ascii → bool) s :
  Forall (λ r, valid_rune r = true) rs → (∀ r, head rs = Some r → p r) → stops q s →
  (∀ r a t, valid_rune r = true → p r → encode_valid r = String a t → q a = false) → stops q (encode rs +:+ s).
Proof.
  intros Hv Hp Hs Hq. destruct rs as [|r rs]; [by rewrite append_nil_l|]. inversion Hv as [|? ? Hr]; subst.
  rewrite encode_cons. unfold encode_rune. rewrite Hr. destruct (encode_valid_nonempty r) as (a & t & E). rewrite E.
  rewrite !append_cons. cbn. by eapply Hq; [|by apply Hp|].
Qed.

(** ** One annotation *)

(** Text that is written as it is read: valid runes, no space at an end. *)
Definition tidy (rs : list rune) : Prop :=
  Forall (λ r, valid_rune r = true) rs
  ∧ (∀ r, head rs = Some r → IsSpace r = false) ∧ (∀ r, last rs = Some r → IsSpace r = false).

Lemma trim_tidy rs : tidy rs → trim_space (encode rs) = encode rs ∧ trim_space (" " +:+ encode rs) = encode rs.
Proof.
  intros (Hv & Hh & Hl). destruct rs as [|r rs]; [by split|].
  pose proof (trim_space_encode [] (r :: rs) []) as H1. pose proof (trim_space_encode [0x20] (r :: rs) []) as H2.
  rewrite app_nil_r in H1, H2. split; [by apply H1|]. rewrite (encode_app [32]) in H2. apply H2; [by constructor|by repeat constructor|done..].
Qed.

(** An annotation as it is written, and the line with what follows on the next
    lines up to the next tag. *)
Record doc_line := mkLine { lt : string; ltype : option (list rune); ltext : list rune; gap : string }.
Definition render_line (l : doc_line) (rest : string) : string :=
  "@" +:+ lt l +:+ (match ltype l with Some ty => " {" +:+ encode ty +:+ "}" | None => "" end)
  +:+ " " +:+ encode (ltext l) +:+ String "010"%char (gap l +:+ rest).
Definition render (start : string) (ls : list doc_line) : string := start +:+ foldr render_line "" ls.
Definition line_annotation (l : doc_line) : Annotation :=
  mkAnnotation (lt l) (encode (default (ltext l) (ltype l))) (encode (ltext l)) (bool_decide (is_Some (ltype l))).

Record line_ok (l : doc_line) : Prop := {
  ok_tag : all_chars is_word (lt l) = true ∧ lt l ≠ EmptyString;
  ok_type : match ltype l with
            | Some ty => ty ≠ [] ∧ tidy ty ∧ balanced 0 (encode ty) = true ∧ all_chars no_at (encode ty) = true
            | None => head (ltext l) ≠ Some 0x7B
            end;
  ok_text : tidy (ltext l) ∧ all_chars in_line (encode (ltext l)) = true;
  ok_gap : all_chars no_at (gap l) = true }.

Lemma in_line_no_at s : all_chars in_line s = true → all_chars no_at s = true.
Proof.
  apply all_chars_impl. intros a. unfold in_line, no_at, no_byte. rewrite !negb_true_iff. by intros [_ ?]%orb_false_iff.
Qed.
Lemma encode_nonempty rs : Forall (λ r, valid_rune r = true) rs → rs ≠ [] → encode rs ≠ EmptyString.
Proof.
  intros Hv Hne. destruct rs as [|r rs]; [done|]. rewrite encode_cons. unfold encode_rune. inversion Hv as [|? ? Hr]; subst.
  rewrite Hr. destruct (encode_valid_nonempty r) as (a & t & ->). done.
Qed.

(** The text up to the end of the line. *)
Lemma lineHead_line s rest : all_chars in_line s = true → lineHead (s +:+ String "010"%char rest) = s.
Proof. intros H. unfold lineHead. change (λ a, _) with in_line. by rewrite span_app. Qed.

Lemma annotation_type tag ty text rest :
  ty ≠ [] → tidy ty → balanced 0 (encode ty) = true → tidy text → all_chars in_line (encode text) = true →
  annotation tag (" {" +:+ encode ty +:+ "}" +:+ " " +:+ encode text +:+ String "010"%char rest)
  = mkAnnotation tag (encode ty) (encode text) true.
Proof.
  intros Hne Hty Hb Ht Hl. unfold annotation, scanBraceType.
  assert (∀ x, (span is_blank (" {" +:+ x)).2 = String "{" x) as -> by done.
  change (is_byte 123 "{"%char) with true. cbv iota beta. rewrite brace_body_balanced by done.
  rewrite <- append_assoc, lineHead_line by (rewrite all_chars_app, Hl; done).
  destruct (trim_tidy ty Hty) as [-> _], (trim_tidy text Ht) as [_ ->]. rewrite bool_decide_false; [done|].
  apply encode_nonempty; [apply Hty|done].
Qed.
Lemma annotation_plain tag text rest :
  head text ≠ Some 0x7B → tidy text → all_chars in_line (encode text) = true →
  annotation tag (" " +:+ encode text +:+ String "010"%char rest) = mkAnnotation tag (encode text) (encode text) false.
Proof.
  intros Hne Ht Hl. unfold annotation, scanBraceType. pose proof Ht as (Hv & Hh & _).
  assert (∀ s, stops is_blank s → (span is_blank (" " +:+ s)).2 = s) as ->.
  { intros [|a s] Hs; [done|]. unfold stops in Hs.
    change (span is_blank (" " +:+ String a s)) with (let (u, v) := span is_blank (String a s) in (String " " u, v)).
    cbn [span]. by rewrite Hs. }
  - assert (stops (is_byte 0x7B) (encode text +:+ String "010"%char rest)) as Hb.
    { eapply (first_rune text (λ r, r ≠ 0x7B)); [done| |done|].
      - intros r Hr ->. done.
      - intros r a t Hr Hn He. apply not_true_iff_false. intros E. by apply (first_byte r a t 0x7B Hr) in E; [|lia|]. }
    destruct (encode text +:+ String "010"%char rest) as [|a s] eqn:E; [by destruct (encode text)|].
    cbn in Hb. rewrite Hb, <- E, lineHead_line by done. by destruct (trim_tidy text Ht) as [-> _].
  - eapply (first_rune text (λ r, IsSpace r = false)); [done|done|done|].
    intros r a t Hr Hn He. apply not_true_iff_false. intros [E|E]%orb_true_iff.
    + apply (first_byte r a t 0x20 Hr) in E; [by subst|lia|done].
    + apply (first_byte r a t 0x09 Hr) in E; [by subst|lia|done].
Qed.

Lemma render_line_tags l rest :
  line_ok l → ∃ body, render_line l rest = "@" +:+ lt l +:+ body ∧ stops is_word body ∧ tags 0 body = tags 0 rest
    ∧ annotation (lt l) body = line_annotation l.
Proof.
  intros [[Hw Hne] Hty [Ht Hl] Hg]. unfold render_line, line_annotation.
  eexists. split; [done|]. destruct (ltype l) as [ty|]; cbn [default].
  - destruct Hty as (Hn & Hty & Hb & Ha). split_and!; [done| |].
    + rewrite !append_assoc, tags_gap by done. rewrite tags_gap by done. rewrite tags_gap by done. rewrite tags_gap by done.
      rewrite tags_gap by (by apply in_line_no_at). cbn [tags]. by rewrite tags_gap.
    + rewrite !append_assoc. by rewrite annotation_type.
  - split_and!; [done| |].
    + rewrite append_nil_l, tags_gap by done. rewrite tags_gap by (by apply in_line_no_at). cbn [tags]. by rewrite tags_gap.
    + by rewrite append_nil_l, annotation_plain.
Qed.

(** ** Round trip *)

(** C19: a JSDoc comment written tag by tag, with a type in balanced braces or
    without, is read back as those annotations, whatever is between its lines. *)
Theorem parse_render start ls :
  all_chars no_at start = true → Forall line_ok ls → Parse (render start ls) = map line_annotation ls.
Proof.
  intros Hs H. unfold Parse, render. rewrite tags_gap by done. induction H as [|l ls Hl _ IH]; [done|].
  cbn [foldr map]. destruct (render_line_tags l (foldr render_line "" ls) Hl) as (body & -> & Hb & Ht & Ha).
  rewrite tags_tag by (try done; apply Hl). cbn [map]. by rewrite Ha, Ht, IH.
Qed.

Definition text_of (s : string) : list rune := runes_of s.
Definition doc_lines : list doc_line :=
  [mkLine "param" (Some (text_of "{a: number}")) (text_of "[x] the first") " * ";
   mkLine "returns" (Some (text_of "string")) [] ""; mkLine "pure" None [] ""].
Lemma doc_lines_ok : Forall line_ok doc_lines.
Proof.
  repeat constructor; vm_compute; try done; try (by repeat constructor); try (by intros ? [= <-]).
Qed.
Theorem parse_render_witness :
  Parse (render "Adds. " doc_lines)
  = [mkAnnotation "param" "{a: number}" "[x] the first" true; mkAnnotation "returns" "string" "" true; mkAnnotation "pure" "" "" false].
Proof. exact (parse_render "Adds. " doc_lines eq_refl doc_lines_ok). Defined.

(** ** What is read otherwise than meant *)

(** The description of a result without a type is taken for its type. *)
Lemma description_as_type :
  ReturnType (Parse "@returns the sum") = "the sum" ∧ ParamType (Parse "@param x the first number") "x" = "x the first number".
Proof. by split; vm_compute. Qed.

(** An optional property of an object typedef is spelled as a required one:
    its brackets are gone before [typedefSource] looks for them. *)
Definition optional_property : Comment := Parse (render "" [mkLine "typedef" (Some (text_of "Object")) (text_of "T") "";
  mkLine "property" (Some (text_of "string")) (text_of "[y]") ""]).
Lemma optional_property_required : map typedefSource (Typedefs optional_property) = ["{ y: string; }"].
Proof. by vm_compute. Qed.

(** A default with spaces keeps the parameter from being found. *)
Lemma default_with_spaces :
  ParamOptional (Parse "@param {number} [x=5]") "x" = true ∧ ParamType (Parse "@param {number} [x = 5]") "x" = "".
Proof. by split; vm_compute. Qed.
