(* ===== verification/Mangle.v ===== *)
(** * Mangled names (src/ast/nodes.go): the file and namespace a name belongs
    to, written into it and read back *)

From S2P Require Import Prelude GoString TextFacts.
From Stdlib Require Import Ascii.
Open Scope Z_scope.

(** [NamespaceMangle]. *)
Definition NamespaceMangle (ns member : string) : string :=
  replace_all ns "." "__kmlns_" +:+ "__kmlns_" +:+ member.

Definition moduleSuffix : string := "__kml_mod".

(** [ModuleMangle]. *)
Definition ModuleMangle (name : string) (fileIdx : Z) (libKey : string) : string :=
  if negb (bool_decide (libKey = ""%string)) then
    name +:+ moduleSuffix +:+ "L" +:+ itoa (Z.of_nat (String.length libKey)) +:+ libKey
  else name +:+ moduleSuffix +:+ itoa fileIdx.

(** [Unmangle]. *)
Definition Unmangle (name : string) : string :=
  match index_str name moduleSuffix with
  | Some (S i) => take_str (S i) name
  | _ => name
  end.

(** The digits at the start of [s]: what the loop of [UnmangleText] reads as
    [n], a 64-bit int, and how many there are. *)
Fixpoint read_digits (n : Z) (s : string) : Z * nat :=
  match s with
  | String a s' =>
      if is_digit a then
        let (m, k) := read_digits (wrap64 (wrap64 (n * 10) + (byte_val a - 0x30))) s' in (m, S k)
      else (n, O)
  | EmptyString => (n, O)
  end.

(** One round of [UnmangleText]'s loop: [inl] goes round again. A slice from a
    negative index panics. *)
Definition unmangle_round (s : string) : M unit Empty_set (string + string) :=
  match index_str s moduleSuffix with
  | None => mret (inr s)
  | Some i =>
      let j := (i + String.length moduleSuffix)%nat in
      let lib := match drop_str j s with String a _ => is_byte 0x4C a | EmptyString => false end in
      let j := if lib then S j else j in
      let '(n, k) := read_digits 0 (drop_str j s) in
      let j := Z.of_nat (j + k) in
      let j := if lib then Z.min (wrap64 (j + n)) (Z.of_nat (String.length s)) else j in
      if j <? 0 then panic else mret (inl (take_str i s +:+ drop_str (Z.to_nat j) s))
  end.

(** [UnmangleText]; a round that does not wrap around shortens the string. *)
Definition UnmangleText (s : string) : M unit Empty_set string :=
  loop (S (String.length s)) unmangle_round s.

(** [TrimModuleSuffix]. *)
Definition TrimModuleSuffix (name : string) : M unit Empty_set string :=
  match last_index_str name moduleSuffix with
  | Some (S i) =>
      rest ← UnmangleText (drop_str (S i) name);
      mret (if bool_decide (rest = ""%string) then take_str (S i) name else name)
  | _ => mret name
  end.

(** [IsLibraryName]: the loop looks at what follows every suffix. *)
Fixpoint library_rest (fuel : nat) (rest : string) : bool :=
  match fuel with
  | O => true
  | S fuel =>
      match index_str rest moduleSuffix with
      | None => true
      | Some i =>
          let rest := drop_str (i + String.length moduleSuffix) rest in
          match rest with
          | String a _ => if is_digit a then false else library_rest fuel rest
          | EmptyString => library_rest fuel rest
          end
      end
  end.
Definition IsLibraryName (name : string) : bool :=
  match index_str name (moduleSuffix +:+ "L") with
  | None => false
  | Some _ => library_rest (S (String.length name)) name
  end.

(** [sourceName] (src/checker/types.go). *)
Definition sourceName (name : string) : M unit Empty_set string :=
  s ← TrimModuleSuffix name; mret (replace_all s "__kmlns_" ".").
