(* ===== verification/MangleProps.v ===== *)
(** * Properties of mangled names *)

From S2P Require Import Prelude GoString TextFacts Mangle.
From Stdlib Require Import Ascii.
Open Scope Z_scope.

(** ** Where the suffix is found *)

(** The suffix does not overlap itself: no shorter string before it makes an
    earlier occurrence. *)
Lemma no_border u r :
  u ≠ EmptyString → index_str u moduleSuffix = None → has_prefix (u +:+ moduleSuffix +:+ r) moduleSuffix = false.
Proof.
  intros Hu Hn. apply not_true_iff_false. intros [t Ht]%has_prefix_spec. unfold moduleSuffix in *.
  do 9 (destruct u as [|? u]; [rewrite ?append_cons, ?append_nil_l in Ht; first [done|injection Ht; intros; simplify_eq]|]).
  rewrite !append_cons, append_nil_l in Ht. injection Ht. intros _. intros. subst. cbn in Hn. by rewrite has_prefix_nil in Hn.
Qed.

Lemma index_suffix u r :
  index_str u moduleSuffix = None → index_str (u +:+ moduleSuffix +:+ r) moduleSuffix = Some (String.length u).
Proof.
  induction u as [|a u IH]; intros Hn.
  { rewrite append_nil_l. unfold moduleSuffix. rewrite !append_cons. cbn. by rewrite has_prefix_nil. }
  pose proof (no_border (String a u) r ltac:(done) Hn) as Hb. rewrite append_cons in *. cbn [index_str] in *.
  rewrite Hb. destruct (has_prefix (String a u) moduleSuffix); [done|].
  destruct (index_str u moduleSuffix); [done|]. by rewrite IH.
Qed.

Lemma last_index_suffix u r :
  index_str u moduleSuffix = None → index_str r moduleSuffix = None →
  last_index_str (u +:+ moduleSuffix +:+ r) moduleSuffix = Some (String.length u).
Proof.
  intros Hn Hr. induction u as [|a u IH].
  - rewrite append_nil_l. unfold moduleSuffix in *. rewrite !append_cons, append_nil_l. apply last_index_none in Hr.
    cbn [last_index_str]. rewrite Hr. cbn. by rewrite has_prefix_nil.
  - rewrite append_cons. cbn [last_index_str String.length]. rewrite IH; [done|].
    cbn [index_str] in Hn. destruct (has_prefix _ _); [done|]. by destruct (index_str u moduleSuffix).
Qed.

(** Characters other than the underscore do not begin one. *)
Lemma index_digits d r :
  all_chars is_digit d = true → index_str r moduleSuffix = None → index_str (d +:+ r) moduleSuffix = None.
Proof.
  intros Hd Hr. induction d as [|a d IH]; [by rewrite append_nil_l|]. cbn in Hd. apply andb_true_iff in Hd as [Ha Hd].
  rewrite append_cons, index_str_skip; [by rewrite (IH Hd)| |done]. unfold moduleSuffix. intros t [= <- _]. by vm_compute in Ha.
Qed.

(** ** Reading the number *)

Lemma read_digits_bounded s m n rest :
  0 ≤ m → parse_digits m s = (n, rest) → n < 2 ^ 63 →
  read_digits m s = (n, (String.length s - String.length rest)%nat) ∧ m ≤ n ∧ (String.length rest ≤ String.length s)%nat.
Proof.
  revert m. induction s as [|a s IH]; intros m Hm Hp Hn; cbn in *.
  { injection Hp as <- <-. cbn. split; [done|]. split; [lia|done]. }
  destruct (is_digit a) eqn:Hd.
  - assert (0 ≤ byte_val a - 0x30 ≤ 9) as Ha.
    { unfold is_digit, in_range in Hd. apply andb_true_iff in Hd as [?%Z.leb_le ?%Z.leb_le]. lia. }
    assert (0 ≤ m * 10 + (byte_val a - 0x30)) as Hm' by lia.
    destruct (IH _ Hm' Hp Hn) as (Hr & Hle & Hlen).
    rewrite !wrap64_small by (rewrite ?wrap64_small; lia). rewrite Hr. split; [|lia].
    f_equal. rewrite Nat.sub_succ_l by done. done.
  - injection Hp as <- <-. cbn. rewrite Nat.sub_diag. split; [done|]. split; [lia|done].
Qed.

Lemma read_itoa z r :
  0 ≤ z < 2 ^ 63 → stops is_digit r → read_digits 0 (itoa z +:+ r) = (z, String.length (itoa z)).
Proof.
  intros Hz Hr. unfold itoa. destruct (Z.ltb_spec z 0); [lia|].
  destruct (read_digits_bounded (itoa_nonneg z +:+ r) 0 z r) as (-> & _ & _); [done|by apply itoa_nonneg_parse|lia|].
  f_equal. rewrite length_append. lia.
Qed.

(** ** The round of a mangled name *)

(** What follows the suffix of a program's own file, and of a library file. *)
Definition file_tail (fileIdx : Z) (libKey : string) : string :=
  if bool_decide (libKey = ""%string) then itoa fileIdx
  else "L" +:+ itoa (Z.of_nat (String.length libKey)) +:+ libKey.

Lemma ModuleMangle_tail name fileIdx libKey :
  ModuleMangle name fileIdx libKey = name +:+ moduleSuffix +:+ file_tail fileIdx libKey.
Proof. unfold ModuleMangle, file_tail. by case_bool_decide. Qed.

(** The keys a mangled name can carry: a file index, or a library key that does
    not begin with a digit, which its length prefix would run into. *)
Record key_ok (fileIdx : Z) (libKey : string) : Prop := {
  key_idx : 0 ≤ fileIdx < 2 ^ 63;
  key_len : Z.of_nat (String.length libKey) < 2 ^ 62;
  key_digit : stops is_digit libKey;
  key_clean : index_str libKey moduleSuffix = None }.

Lemma file_tail_clean fileIdx libKey : key_ok fileIdx libKey → index_str (file_tail fileIdx libKey) moduleSuffix = None.
Proof.
  intros [Hi _ _ Hc]. unfold file_tail. assert (∀ z, 0 ≤ z → all_chars is_digit (itoa z) = true) as Hd.
  { intros z Hz. unfold itoa. destruct (Z.ltb_spec z 0); [lia|]. by apply itoa_digits. }
  case_bool_decide.
  - rewrite <-(append_nil_r (itoa fileIdx)). apply index_digits; [apply Hd; lia|done].
  - rewrite append_cons, append_nil_l, index_str_skip by done. by rewrite index_digits by (done || apply Hd; lia).
Qed.

Lemma drop_at k w r s : s = w +:+ r → k = String.length w → drop_str k s = r.
Proof. intros -> ->. apply drop_str_app. Qed.

(** A round removes the first suffix and its key, given that what follows does
    not read on. *)
Lemma unmangle_round_mangled u fileIdx libKey post :
  key_ok fileIdx libKey → index_str u moduleSuffix = None → stops is_digit post →
  (Z.of_nat (String.length (u +:+ moduleSuffix +:+ file_tail fileIdx libKey +:+ post)) < 2 ^ 62) →
  unmangle_round (u +:+ moduleSuffix +:+ file_tail fileIdx libKey +:+ post) tt = (Ok (inl (u +:+ post)), tt).
Proof.
  intros [Hi Hl Hd Hc] Hu Hpost Hlen. set (s := u +:+ moduleSuffix +:+ file_tail fileIdx libKey +:+ post) in *.
  set (i := String.length u). set (j := (i + String.length moduleSuffix)%nat).
  assert (index_str s moduleSuffix = Some i) as Hidx by (by apply index_suffix).
  assert (take_str i s = u) as Htake by apply take_str_app.
  assert (drop_str j s = file_tail fileIdx libKey +:+ post) as Hj.
  { apply (drop_at _ (u +:+ moduleSuffix)); [unfold s; by rewrite append_assoc|by rewrite length_append]. }
  unfold unmangle_round. rewrite Hidx. fold j. rewrite Hj, Htake. unfold file_tail in *. case_bool_decide as Hk.
  - assert (match itoa fileIdx +:+ post with EmptyString => false | String a _ => is_byte 0x4C a end = false) as ->.
    { unfold itoa. destruct (Z.ltb_spec fileIdx 0); [lia|]. destruct (itoa_digits fileIdx ltac:(lia)) as [Hds Hne].
      destruct (itoa_nonneg fileIdx) as [|a t]; [done|]. rewrite append_cons. cbn in Hds. apply andb_true_iff in Hds as [Ha _].
      unfold is_byte. apply Z.eqb_neq. unfold is_digit, in_range in Ha. apply andb_true_iff in Ha as [_ ?%Z.leb_le]. lia. }
    rewrite Hj, read_itoa by done. destruct (Z.ltb_spec (Z.of_nat (j + String.length (itoa fileIdx))) 0); [lia|].
    rewrite Nat2Z.id, (drop_at _ (u +:+ moduleSuffix +:+ itoa fileIdx) post); [done| |].
    + unfold s. by rewrite !append_assoc.
    + unfold j, i. rewrite !length_append. lia.
  - set (n := Z.of_nat (String.length libKey)) in *.
    assert (match ("L" +:+ itoa n +:+ libKey) +:+ post with EmptyString => false | String a _ => is_byte 0x4C a end = true) as ->
      by (by rewrite append_cons).
    set (w := u +:+ moduleSuffix +:+ "L" +:+ itoa n +:+ libKey).
    assert (s = w +:+ post) as Hs by (unfold s, w; by rewrite !append_assoc).
    assert (drop_str (S j) s = itoa n +:+ libKey +:+ post) as ->.
    { apply (drop_at _ (u +:+ moduleSuffix +:+ "L")); [unfold s; by rewrite !append_assoc|].
      unfold j, i. rewrite !length_append. change (String.length "L") with 1%nat. lia. }
    assert (stops is_digit (libKey +:+ post)) as Hst by (destruct libKey; [done|by rewrite append_cons]).
    rewrite read_itoa by (done || lia).
    assert (Z.of_nat (S j + String.length (itoa n)) + n = Z.of_nat (String.length w)) as ->.
    { unfold w, j, i, n. rewrite !length_append. change (String.length "L") with 1%nat. lia. }
    assert (String.length s = String.length w + String.length post)%nat as Hls by (rewrite Hs; apply length_append).
    rewrite wrap64_small by lia. rewrite Z.min_l by lia.
    destruct (Z.ltb_spec (Z.of_nat (String.length w)) 0); [lia|]. rewrite Nat2Z.id, Hs, drop_str_app. done.
Qed.

(** [UnmangleText] undoes a round and stops when nothing is left to undo. *)
Lemma UnmangleText_mangled u fileIdx libKey post :
  key_ok fileIdx libKey → index_str u moduleSuffix = None → stops is_digit post →
  index_str (u +:+ post) moduleSuffix = None →
  (Z.of_nat (String.length (u +:+ moduleSuffix +:+ file_tail fileIdx libKey +:+ post)) < 2 ^ 62) →
  UnmangleText (u +:+ moduleSuffix +:+ file_tail fileIdx libKey +:+ post) tt = (Ok (u +:+ post), tt).
Proof.
  intros Hk Hu Hpost Hclean Hlen. unfold UnmangleText.
  pose proof (unmangle_round_mangled u fileIdx libKey post Hk Hu Hpost Hlen) as Hr.
  set (s := u +:+ moduleSuffix +:+ file_tail fileIdx libKey +:+ post) in *.
  assert (∃ n, String.length s = S n) as [n Hn].
  { unfold s. rewrite !length_append. change (String.length moduleSuffix) with 9%nat. exists (String.length u + 8 + (String.length (file_tail fileIdx libKey) + String.length post))%nat. lia. }
  rewrite Hn. cbn [loop]. unfold mbind, M_bind. rewrite Hr. cbn [loop]. unfold mbind, M_bind, unmangle_round. by rewrite Hclean.
Qed.

(** What follows a suffix is looked at once for each suffix. *)
Lemma IsLibraryName_mangled name fileIdx libKey :
  index_str name moduleSuffix = None → key_ok fileIdx libKey →
  IsLibraryName (name +:+ moduleSuffix +:+ file_tail fileIdx libKey) = negb (bool_decide (libKey = ""%string)).
Proof.
  intros Hname Hk. pose proof (file_tail_clean _ _ Hk) as Htail.
  set (s := name +:+ moduleSuffix +:+ file_tail fileIdx libKey) in *.
  assert (∃ n, String.length s = S n) as [n Hn].
  { unfold s. rewrite !length_append. change (String.length moduleSuffix) with 9%nat.
    exists (String.length name + 8 + String.length (file_tail fileIdx libKey))%nat. lia. }
  assert (library_rest (S (String.length s)) s = negb (bool_decide (libKey = ""%string))) as Hrest.
  { rewrite Hn. cbn [library_rest]. unfold s at 1. rewrite index_suffix by done.
    unfold s. rewrite drop_str_app_plus, (drop_at _ moduleSuffix (file_tail fileIdx libKey)) by done.
    destruct Hk as [Hi _ _ _]. unfold file_tail in *. case_bool_decide as Hl.
    - unfold itoa. destruct (Z.ltb_spec fileIdx 0); [lia|]. destruct (itoa_digits fileIdx ltac:(lia)) as [Hds Hne'].
      destruct (itoa_nonneg fileIdx) as [|a t]; [done|]. cbn in Hds. apply andb_true_iff in Hds as [Ha _]. by rewrite Ha.
    - rewrite append_cons, append_nil_l in *. change (is_digit "L") with false. cbn iota. by rewrite Htail. }
  unfold IsLibraryName. rewrite Hrest. destruct (index_str s (moduleSuffix +:+ "L")) eqn:Hidx; [done|].
  destruct (bool_decide_reflect (libKey = ""%string)) as [|Hl]; [done|]. exfalso.
  assert (s = (name +:+ (moduleSuffix +:+ "L") +:+ itoa (Z.of_nat (String.length libKey)) +:+ libKey)) as Hs.
  { unfold s, file_tail. rewrite bool_decide_false by done. by rewrite !append_assoc. }
  rewrite Hs in Hidx. clear -Hidx. induction name as [|a name IH].
  - rewrite append_nil_l in Hidx. set (p := moduleSuffix +:+ "L") in *.
    pose proof (has_prefix_app p (itoa (Z.of_nat (String.length libKey)) +:+ libKey)) as Hp.
    destruct (p +:+ _) eqn:He; [done|]. cbn [index_str] in Hidx. by rewrite Hp in Hidx.
  - rewrite append_cons in Hidx. cbn [index_str] in Hidx. destruct (has_prefix _ _); [done|].
    apply IH. by destruct (index_str _ _).
Qed.

(** ** The properties *)

(** C29: a name mangled for a file is read back: [Unmangle] and
    [TrimModuleSuffix] give the name, [UnmangleText] gives it back wherever a
    message quotes it, and [IsLibraryName] tells a library's name from a
    program's. *)
Theorem mangle_roundtrip name fileIdx libKey post :
  name ≠ ""%string → index_str name moduleSuffix = None → key_ok fileIdx libKey →
  stops is_digit post → index_str (name +:+ post) moduleSuffix = None →
  Z.of_nat (String.length (ModuleMangle name fileIdx libKey +:+ post)) < 2 ^ 62 →
  Unmangle (ModuleMangle name fileIdx libKey) = name
  ∧ TrimModuleSuffix (ModuleMangle name fileIdx libKey) tt = (Ok name, tt)
  ∧ UnmangleText (ModuleMangle name fileIdx libKey +:+ post) tt = (Ok (name +:+ post), tt)
  ∧ IsLibraryName (ModuleMangle name fileIdx libKey) = negb (bool_decide (libKey = ""%string)).
Proof.
  intros Hne Hname Hk Hpost Hclean Hlen. pose proof (file_tail_clean _ _ Hk) as Htail.
  rewrite ModuleMangle_tail in *. rewrite !append_assoc in *.
  assert (∃ i, String.length name = S i) as [i Hi] by (destruct name; [done|by eexists]).
  split_and!.
  - unfold Unmangle. rewrite index_suffix, Hi by done. rewrite <-Hi. apply take_str_app.
  - unfold TrimModuleSuffix. rewrite last_index_suffix, Hi by done. rewrite <-Hi.
    unfold mbind, M_bind. rewrite drop_str_app.
    pose proof (UnmangleText_mangled "" fileIdx libKey "" Hk eq_refl I eq_refl) as Hun.
    rewrite append_nil_l, append_nil_r in Hun. rewrite Hun.
    + rewrite bool_decide_true by done. by rewrite take_str_app.
    + rewrite !length_append. rewrite !length_append in Hlen. lia.
  - by apply UnmangleText_mangled.
  - by apply IsLibraryName_mangled.
Qed.


Lemma mangle_roundtrip_witness :
  ModuleMangle "P" 3 "node_stream" = "P__kml_modL11node_stream"%string
  ∧ Unmangle (ModuleMangle "P" 3 "node_stream") = "P"%string
  ∧ UnmangleText (ModuleMangle "P" 3 "node_stream" +:+ " is not") tt = (Ok "P is not"%string, tt).
Proof.
  split; [vm_compute; reflexivity|].
  destruct (mangle_roundtrip "P" 3 "node_stream" " is not") as (Hu & _ & Ht & _); [done|done| |done|done|vm_compute; done|].
  - constructor; [lia|vm_compute; done|done|done].
  - by split.
Defined.
