(* ===== verification/Types.v ===== *)
(** * Types and their interner (src/checker/types.go)

    A type is a Go object shared by pointer: the types live in the list [heap]
    and a pointer is an index.  The interner's operations run in its state.
    Of a type's fields the deferred node's and a signature's origins, which
    this file's code never reads, are left out. *)

From S2P Require Import Prelude GoString Symbols Mangle.
From Stdlib Require Import Ascii.
Open Scope Z_scope.

Abbreviation TypeId := nat (only parsing).

(** ** The data *)

(** [TypeFlags]: one bit per kind. *)
Module TypeFlags.
Definition Any : Z := 2 ^ 0.
Definition Unknown : Z := 2 ^ 1.
Definition String : Z := 2 ^ 2.
Definition Number : Z := 2 ^ 3.
Definition Boolean : Z := 2 ^ 4.
Definition BigInt : Z := 2 ^ 5.
Definition Void : Z := 2 ^ 6.
Definition Undefined : Z := 2 ^ 7.
Definition Null : Z := 2 ^ 8.
Definition Never : Z := 2 ^ 9.
Definition StringLiteral : Z := 2 ^ 10.
Definition NumberLiteral : Z := 2 ^ 11.
Definition BooleanLiteral : Z := 2 ^ 12.
Definition BigIntLiteral : Z := 2 ^ 13.
Definition Int : Z := 2 ^ 14.
Definition Float32 : Z := 2 ^ 15.
Definition Object : Z := 2 ^ 16.
Definition Union : Z := 2 ^ 17.
Definition TypeParam : Z := 2 ^ 18.
Definition NonPrimitive : Z := 2 ^ 19.
Definition ESSymbol : Z := 2 ^ 20.
Definition Deferred : Z := 2 ^ 21.
Definition Literal : Z := foldr Z.lor 0 [StringLiteral; NumberLiteral; BooleanLiteral; BigIntLiteral].
End TypeFlags.

Inductive ObjectKind := Anonymous | Array | Tuple | KFunction | Instance_ | KInterface.
#[export] Instance ObjectKind_eq_dec : EqDecision ObjectKind.
Proof. solve_decision. Defined.
Definition kind_int (k : ObjectKind) : Z :=
  match k with Anonymous => 0 | Array => 1 | Tuple => 2 | KFunction => 3 | Instance_ => 4 | KInterface => 5 end.

(** A symbol a type refers to: its identity, and the fields the printer and the
    keys read. *)
Record TypeSymbol := mkTypeSymbol { ts_ptr : SymId; ts_ID : nat; ts_Name : string; ts_Display : string; ts_Flags : SymbolFlags }.
#[export] Instance TypeSymbol_eq_dec : EqDecision TypeSymbol.
Proof. solve_decision. Defined.

Record Predicate := mkPredicate { PIndex : Z; PType : option TypeId; Asserts : bool }.
#[export] Instance Predicate_eq_dec : EqDecision Predicate.
Proof. solve_decision. Defined.

Record Property := mkProperty {
  PName : string; PropType : TypeId; Optional : bool; Accessor : bool; Write_ : option TypeId; Readonly : bool;
  Visibility : string; WriteVisibility : string; Owner : option SymId; Field_ : bool }.
#[export] Instance Property_eq_dec : EqDecision Property.
Proof. solve_decision. Defined.

(** The payload of a function type, and of the other object types. *)
Record Signature := mkSignature {
  Params : list TypeId; Result : option TypeId; ParamNames : list string; Predicate_ : option Predicate;
  TypeParams : list TypeId; Overloads : list TypeId; ThisType : option TypeId;
  optionals : list bool; restParam : bool }.
Definition no_signature : Signature := mkSignature [] None [] None [] [] None [] false.

Record ObjectPart := mkObject {
  Kind : ObjectKind; Elem : option TypeId; Elems : list TypeId; Opt : Z; Labels : option (list string);
  Props : list Property; TSymbol : option TypeSymbol; ClassOf : option TypeSymbol; Base : option TypeId;
  TypeArgs : list TypeId; StringIndex : option TypeId; NumberIndex : option TypeId;
  Calls : list TypeId; Constructs : list TypeId; LiteralThis : option TypeId;
  partial_ : bool; intersection : bool }.
Definition no_object : ObjectPart :=
  mkObject Anonymous None [] 0 None [] None None None [] None None [] [] None false false.

Record Ty := mkTy {
  Flags : Z; TID : Z; Value : string; Bits : Z; Signed : bool; AnyArith : bool; Types : list TypeId;
  obj : ObjectPart; sig : Signature; Brand : option TypeId; BrandBase : option TypeId;
  Member : string; EnumSize : Z }.

(** The fields an operation sets on a copy. *)
Definition set_TID (i : Z) (t : Ty) : Ty :=
  mkTy (Flags t) i (Value t) (Bits t) (Signed t) (AnyArith t) (Types t) (obj t) (sig t) (Brand t) (BrandBase t)
    (Member t) (EnumSize t).
Definition set_brand (brand base : TypeId) (t : Ty) : Ty :=
  mkTy (Flags t) (TID t) (Value t) (Bits t) (Signed t) (AnyArith t) (Types t) (obj t) (sig t) (Some brand) (Some base)
    (Member t) (EnumSize t).
Definition set_obj (o : ObjectPart) (t : Ty) : Ty :=
  mkTy (Flags t) (TID t) (Value t) (Bits t) (Signed t) (AnyArith t) (Types t) o (sig t) (Brand t) (BrandBase t)
    (Member t) (EnumSize t).
Definition set_sig (s : Signature) (t : Ty) : Ty :=
  mkTy (Flags t) (TID t) (Value t) (Bits t) (Signed t) (AnyArith t) (Types t) (obj t) s (Brand t) (BrandBase t)
    (Member t) (EnumSize t).
Definition set_ParamNames (names : list string) (s : Signature) : Signature :=
  mkSignature (Params s) (Result s) names (Predicate_ s) (TypeParams s) (Overloads s) (ThisType s) (optionals s) (restParam s).
Definition set_Result (r : TypeId) (s : Signature) : Signature :=
  mkSignature (Params s) (Some r) (ParamNames s) (Predicate_ s) (TypeParams s) (Overloads s) (ThisType s) (optionals s) (restParam s).
Definition set_ThisType (t : TypeId) (s : Signature) : Signature :=
  mkSignature (Params s) (Result s) (ParamNames s) (Predicate_ s) (TypeParams s) (Overloads s) (Some t) (optionals s) (restParam s).
Definition set_Overloads (os : list TypeId) (s : Signature) : Signature :=
  mkSignature (Params s) (Result s) (ParamNames s) (Predicate_ s) (TypeParams s) os (ThisType s) (optionals s) (restParam s).
Definition set_LiteralThis (t : TypeId) (o : ObjectPart) : ObjectPart :=
  mkObject (Kind o) (Elem o) (Elems o) (Opt o) (Labels o) (Props o) (TSymbol o) (ClassOf o) (Base o) (TypeArgs o)
    (StringIndex o) (NumberIndex o) (Calls o) (Constructs o) (Some t) (partial_ o) (intersection o).
Definition set_indexes (str num : option TypeId) (o : ObjectPart) : ObjectPart :=
  mkObject (Kind o) (Elem o) (Elems o) (Opt o) (Labels o) (Props o) (TSymbol o) (ClassOf o) (Base o) (TypeArgs o)
    str num (Calls o) (Constructs o) (LiteralThis o) (partial_ o) (intersection o).
Definition set_signatures (cs ks : list TypeId) (o : ObjectPart) : ObjectPart :=
  mkObject (Kind o) (Elem o) (Elems o) (Opt o) (Labels o) (Props o) (TSymbol o) (ClassOf o) (Base o) (TypeArgs o)
    (StringIndex o) (NumberIndex o) cs ks (LiteralThis o) (partial_ o) (intersection o).
Definition set_class (ks : list TypeId) (sym : TypeSymbol) (o : ObjectPart) : ObjectPart :=
  mkObject (Kind o) (Elem o) (Elems o) (Opt o) (Labels o) (Props o) (TSymbol o) (Some sym) (Base o) (TypeArgs o)
    (StringIndex o) (NumberIndex o) (Calls o) ks (LiteralThis o) (partial_ o) (intersection o).

(** [&Type{...}] of the given flags, with its other fields zero; and the object
    types. *)
Definition flag_type (f : Z) : Ty := mkTy f 0 "" 0 false false [] no_object no_signature None None "" 0.
Definition object_type (o : ObjectPart) : Ty := set_obj o (flag_type TypeFlags.Object).

(** ** The interner *)

Record interner := mkInterner { byKey : gmap string TypeId; heap : list Ty; next : Z }.

Definition InternM : Type → Type := M interner Empty_set.
#[export] Instance InternM_ret : MRet InternM := M_ret.
#[export] Instance InternM_bind : MBind InternM := M_bind.

(** [*t]: a nil dereference panics. *)
Definition typ (t : TypeId) : InternM Ty := in_ ← get; index (heap in_) t.

(** [intern]; [mk] makes the type when the key is new. *)
Definition intern (key : string) (mk : Ty) : InternM TypeId :=
  in_ ← get;
  match byKey in_ !! key with
  | Some t => mret t
  | None =>
      let t := length (heap in_) in
      modify (λ i, mkInterner (<[key := t]> (byKey i)) (heap i ++ [set_TID (next i + 1) mk]) (next i + 1)) ≫= λ _,
      mret t
  end.

(** [intern2]. *)
Definition intern2 (key : string) (mk : Ty) : InternM (TypeId * bool) :=
  in_ ← get;
  match byKey in_ !! key with
  | Some t => mret (t, false)
  | None => t ← intern key mk; mret (t, true)
  end.

Definition FormatBool (b : bool) : string := if b then "true" else "false".

(** A type's ID, and those of several ([ids]). *)
Definition id_of (t : TypeId) : InternM Z := n ← typ t; mret (TID n).
Fixpoint id_list (ts : list TypeId) : InternM (list Z) :=
  match ts with [] => mret [] | t :: ts => i ← id_of t; js ← id_list ts; mret (i :: js) end.
Definition ids (ts : list TypeId) : InternM string := js ← id_list ts; mret (join "," (map itoa js)).

(** [bools]. *)
Definition bools (bs : list bool) : string := foldr (λ (b : bool) s, (if b then "1" else "0") +:+ s) "" bs.

Definition intrinsic (f : Z) : InternM TypeId := intern ("i" +:+ itoa f) (flag_type f).

Definition anyNumber : InternM TypeId :=
  intern "anynum" (mkTy TypeFlags.Number 0 "" 0 false true [] no_object no_signature None None "" 0).

Definition literal (f : Z) (value : string) : InternM TypeId :=
  intern ("l" +:+ itoa f +:+ ":" +:+ value) (mkTy f 0 value 0 false false [] no_object no_signature None None "" 0).

Definition intType (bits : Z) (signed : bool) : InternM TypeId :=
  intern ("n" +:+ itoa bits +:+ FormatBool signed)
    (mkTy TypeFlags.Int 0 "" bits signed false [] no_object no_signature None None "" 0).

Definition array (elem : TypeId) : InternM TypeId :=
  i ← id_of elem;
  intern ("a" +:+ itoa i)
    (object_type (mkObject Array (Some elem) [] 0 None [] None None None [] None None [] [] None false false)).

(** [tuple], [tupleOpt] and [tupleLabelled]. *)
Definition tuple_part (elems : list TypeId) (opt : Z) (labels : option (list string)) : ObjectPart :=
  mkObject Tuple None elems opt labels [] None None None [] None None [] [] None false false.
Definition tuple (elems : list TypeId) : InternM TypeId :=
  k ← ids elems; intern ("t" +:+ k) (object_type (tuple_part elems 0 None)).
Definition label_list (labels : option (list string)) : list string :=
  match labels with Some l => l | None => [] end.
Definition tupleLabelled (elems : list TypeId) (opt : Z) (labels : option (list string)) : InternM TypeId :=
  let opt := Z.min opt (Z.of_nat (length elems)) in
  let labels := if (length (label_list labels) =? length elems)%nat then labels else None in
  if (opt <=? 0) && bool_decide (labels = None) then tuple elems
  else
    k ← ids elems;
    intern ("t" +:+ k +:+ "?" +:+ itoa opt +:+ "#" +:+ join "," (label_list labels))
      (object_type (tuple_part elems (Z.max opt 0) labels)).
Definition tupleOpt (elems : list TypeId) (opt : Z) : InternM TypeId := tupleLabelled elems opt None.

Definition branded (base brand : TypeId) : InternM TypeId :=
  b ← typ base;
  i ← id_of brand;
  intern ("B" +:+ itoa (TID b) +:+ ":" +:+ itoa i) (set_brand brand base b).

(** [function]. *)
Definition predicate_key (pred : option Predicate) : InternM string :=
  match pred with
  | None => mret ""
  | Some p =>
      t ← match PType p with Some t => i ← id_of t; mret (":" +:+ itoa i) | None => mret "" end;
      mret ("!" +:+ itoa (PIndex p) +:+ ":" +:+ FormatBool (Asserts p) +:+ t)
  end.
Definition function (params : list TypeId) (opts : list bool) (rest : bool) (result : TypeId)
    (pred : option Predicate) (typeParams : list TypeId) : InternM TypeId :=
  ps ← ids params;
  r ← id_of result;
  tps ← ids typeParams;
  p ← predicate_key pred;
  intern ("f" +:+ ps +:+ ">" +:+ itoa r +:+ "?" +:+ bools opts +:+ FormatBool rest +:+ "<" +:+ tps +:+ p)
    (set_sig (mkSignature params (Some result) [] pred typeParams [] None opts rest)
       (object_type (mkObject KFunction None [] 0 None [] None None None [] None None [] [] None false false))).

Definition is_function (n : Ty) : bool := has (Flags n) TypeFlags.Object && bool_decide (Kind (obj n) = KFunction).

Definition withParamNames (fn : TypeId) (names : list string) : InternM TypeId :=
  n ← typ fn;
  if negb (is_function n) || (length names =? 0)%nat then mret fn
  else intern ("n" +:+ itoa (TID n) +:+ ":" +:+ join "," names) (set_sig (set_ParamNames names (sig n)) n).

Definition withResult (fn r : TypeId) : InternM TypeId :=
  n ← typ fn;
  i ← id_of r;
  intern ("r" +:+ itoa (TID n) +:+ ":" +:+ itoa i) (set_sig (set_Result r (sig n)) n).

Definition withThis (fn : TypeId) (t : option TypeId) : InternM TypeId :=
  match t with
  | None => mret fn
  | Some t =>
      n ← typ fn;
      if negb (is_function n) then mret fn
      else i ← id_of t; intern ("t" +:+ itoa (TID n) +:+ ":" +:+ itoa i) (set_sig (set_ThisType t (sig n)) n)
  end.

Definition withLiteralThis (o t : TypeId) : InternM TypeId :=
  n ← typ o;
  i ← id_of t;
  intern ("T" +:+ itoa (TID n) +:+ ":" +:+ itoa i) (set_obj (set_LiteralThis t (obj n)) n).

(** [objectOf] and [object]. *)
Fixpoint props_key (ps : list Property) : InternM string :=
  match ps with
  | [] => mret ""
  | p :: ps =>
      i ← id_of (PropType p);
      w ← (if Accessor p then
             match Write_ p with Some w => j ← id_of w; mret ("@" +:+ itoa j) | None => mret "@" end
           else mret "");
      k ← props_key ps;
      mret (PName p +:+ (if Optional p then "?" else "") +:+ ":" +:+ itoa i +:+ w
            +:+ (if Readonly p then "!" else "") +:+ ";" +:+ k)
  end.
Definition objectOf (props : list Property) (part inter : bool) : InternM TypeId :=
  k ← props_key props;
  intern ("o" +:+ (if part then str_byte 1 else "") +:+ (if inter then str_byte 2 else "") +:+ k)
    (object_type (mkObject Anonymous None [] 0 None props None None None [] None None [] [] None part inter)).
Definition object (props : list Property) : InternM TypeId := objectOf props false false.

(** [indexedOn] and [indexed]. *)
Definition option_key (pre : string) (t : option TypeId) : InternM string :=
  match t with Some t => i ← id_of t; mret (pre +:+ itoa i) | None => mret "" end.
Definition indexedOn (o : TypeId) (str num : option TypeId) : InternM TypeId :=
  if bool_decide (str = None) && bool_decide (num = None) then mret o
  else
    n ← typ o;
    s ← option_key "s" str;
    k ← option_key "n" num;
    intern ("x" +:+ itoa (TID n) +:+ s +:+ k) (set_obj (set_indexes str num (obj n)) n).
Definition indexed (props : list Property) (str num : option TypeId) : InternM TypeId :=
  o ← object props; indexedOn o str num.

Fixpoint sigs_key (pre : string) (ts : list TypeId) : InternM string :=
  match ts with [] => mret "" | t :: ts => i ← id_of t; k ← sigs_key pre ts; mret (pre +:+ itoa i +:+ k) end.
Definition withSignatures (o : TypeId) (calls constructs : list TypeId) : InternM TypeId :=
  if (length calls =? 0)%nat && (length constructs =? 0)%nat then mret o
  else
    n ← typ o;
    c ← sigs_key "c" calls;
    k ← sigs_key "k" constructs;
    intern ("g" +:+ itoa (TID n) +:+ c +:+ k) (set_obj (set_signatures calls constructs (obj n)) n).

Section classes.
(** The address of a symbol as [%p] prints it. *)
Context (addr : SymId → string).

Definition classValue (o : TypeId) (ctor : option TypeId) (sym : TypeSymbol) : InternM TypeId :=
  n ← typ o;
  k ← option_key "k" ctor;
  intern ("v" +:+ itoa (TID n) +:+ "|" +:+ ts_Name sym +:+ "|" +:+ addr (ts_ptr sym) +:+ k)
    (set_obj (set_class (match ctor with Some c => [c] | None => Constructs (obj n) end) sym (obj n)) n).
End classes.

(** [nominal]: the type, and whether it is new. *)
Definition nominalKey (kind : ObjectKind) (sym : TypeSymbol) (args : list TypeId) : InternM string :=
  k ← ids args;
  mret ("s" +:+ itoa (kind_int kind) +:+ ":" +:+ itoa (Z.of_nat (ts_ID sym)) +:+ "<" +:+ k).
Definition nominal (kind : ObjectKind) (sym : TypeSymbol) (args : list TypeId) : InternM (TypeId * bool) :=
  key ← nominalKey kind sym args;
  intern2 key (object_type (mkObject kind None [] 0 None [] (Some sym) None None args None None [] [] None false false)).

(** [overloaded]: a panic for no signature. *)
Definition overloaded (sigs : list TypeId) : InternM TypeId :=
  k ← ids sigs;
  in_ ← get;
  let key := "o" +:+ k in
  match byKey in_ !! key with
  | Some t => mret t
  | None => s ← index sigs 0; n ← typ s; intern key (set_sig (set_Overloads sigs (sig n)) (set_TID 0 n))
  end.

(** ** Unions *)

(** The closure [add] of [union]: the members so far, in order; its [set] holds
    the same types.  [None] is out of fuel or a nil pointer. *)
Fixpoint add_member (n : nat) (h : list Ty) (members : list TypeId) (t : TypeId) : option (list TypeId) :=
  match n with
  | O => None
  | S n =>
      nd ← h !! t;
      if has (Flags nd) TypeFlags.Union then
        foldl (λ acc m, ms ← acc; add_member n h ms m) (Some members) (Types nd)
      else if has (Flags nd) TypeFlags.Never || bool_decide (t ∈ members) then Some members
      else Some (members ++ [t])
  end.

(** The loop over the arguments, nil ones skipped: [inl] is the [any] returned. *)
Fixpoint add_all (h : list Ty) (members : list TypeId) (ts : list (option TypeId)) : option (TypeId + list TypeId) :=
  match ts with
  | [] => Some (inr members)
  | None :: ts => add_all h members ts
  | Some t :: ts =>
      nd ← h !! t;
      if has (Flags nd) TypeFlags.Any then Some (inl t)
      else ms ← add_member (S (length h)) h members t; add_all h ms ts
  end.

Definition flags_at (h : list Ty) (t : TypeId) : Z := match h !! t with Some n => Flags n | None => 0 end.
Definition value_at (h : list Ty) (t : TypeId) : string := match h !! t with Some n => Value n | None => "" end.
Definition arith_at (h : list Ty) (t : TypeId) : bool := match h !! t with Some n => AnyArith n | None => false end.
Definition id_at (h : list Ty) (t : TypeId) : Z := match h !! t with Some n => TID n | None => 0 end.

(** The number of [any] arithmetic absorbs plain numbers and number literals. *)
Definition absorb_numbers (h : list Ty) (members : list TypeId) : list TypeId :=
  if existsb (arith_at h) members then
    List.filter (λ o, arith_at h o || negb (has (flags_at h o) (Z.lor TypeFlags.Number TypeFlags.NumberLiteral))) members
  else members.

(** [reduceLiterals]: [base] is the primitive of a literal kind, 0 for none. *)
Definition base_of (f : Z) : Z :=
  if f =? TypeFlags.StringLiteral then TypeFlags.String
  else if f =? TypeFlags.NumberLiteral then TypeFlags.Number
  else if f =? TypeFlags.BooleanLiteral then TypeFlags.Boolean
  else if f =? TypeFlags.BigIntLiteral then TypeFlags.BigInt
  else 0.
Definition prim_mask : Z := foldr Z.lor 0 [TypeFlags.String; TypeFlags.Number; TypeFlags.Boolean; TypeFlags.BigInt].
Definition prims_of (h : list Ty) (members : list TypeId) : Z :=
  foldl (λ p m, Z.lor p (Z.land (flags_at h m) prim_mask)) 0 members.
Definition has_literal (h : list Ty) (value : string) (members : list TypeId) : bool :=
  existsb (λ m, has (flags_at h m) TypeFlags.BooleanLiteral && bool_decide (value_at h m = value)) members.
Definition drop_literals (h : list Ty) (prims : Z) (members : list TypeId) : list TypeId :=
  List.filter (λ m, let b := base_of (Z.land (flags_at h m) TypeFlags.Literal) in
                    negb (negb (b =? 0) && has prims b)) members.
Definition reduceLiterals (members : list TypeId) : InternM (list TypeId) :=
  in_ ← get;
  let prims := prims_of (heap in_) members in
  if has_literal (heap in_) "true" members && has_literal (heap in_) "false" members
     && negb (has prims TypeFlags.Boolean)
  then
    b ← intrinsic TypeFlags.Boolean;
    in_ ← get;
    mret (drop_literals (heap in_) (Z.lor prims TypeFlags.Boolean) (members ++ [b]))
  else mret (drop_literals (heap in_) prims members).

(** [sort.Slice] by ID. *)
Definition by_id (h : list Ty) (a b : TypeId) : Prop := id_at h a ≤ id_at h b.
#[export] Instance by_id_dec h a b : Decision (by_id h a b).
Proof. unfold by_id. apply _. Defined.
Definition sort_members (h : list Ty) (ms : list TypeId) : list TypeId := merge_sort (by_id h) ms.

(** [union]. *)
Definition union_type (members : list TypeId) : Ty :=
  mkTy TypeFlags.Union 0 "" 0 false false members no_object no_signature None None "" 0.
Definition union (ts : list (option TypeId)) : InternM TypeId :=
  in_ ← get;
  match add_all (heap in_) [] ts with
  | None => panic
  | Some (inl any) => mret any
  | Some (inr members) =>
      match List.find (λ m, has (flags_at (heap in_) m) TypeFlags.Unknown) members with
      | Some u => mret u
      | None =>
          members ← reduceLiterals (absorb_numbers (heap in_) members);
          match members with
          | [] => intrinsic TypeFlags.Never
          | [m] => mret m
          | _ =>
              in_ ← get;
              let members := sort_members (heap in_) members in
              k ← ids members;
              intern ("u" +:+ k) (union_type members)
          end
      end
  end.

(** ** Queries *)

(** [IsMissing], [Prop], [minLen], [HasRestParam], [OptionalParam]. *)
Definition IsMissing (t : Ty) : bool := has (Flags t) TypeFlags.Undefined && bool_decide (Value t = "missing"%string).
Definition Prop_ (t : Ty) (name : string) : option Property :=
  List.find (λ p, bool_decide (PName p = name)) (Props (obj t)).
Definition minLen (t : Ty) : Z := Z.of_nat (length (Elems (obj t))) - Opt (obj t).
Definition HasRestParam (t : Ty) : bool := restParam (sig t).
Definition OptionalParam (t : Ty) (i : nat) : bool := match optionals (sig t) !! i with Some o => o | None => false end.

(** [Derives]: [Base] is followed 64 times at most; [None] is a pointer out of
    the heap. *)
Fixpoint derives_from (seen : nat) (h : list Ty) (t : option TypeId) (sym : SymId) : option bool :=
  match seen, t with
  | S seen, Some t =>
      n ← h !! t;
      if bool_decide (Kind (obj n) = Instance_) && bool_decide (ts_ptr <$> TSymbol (obj n) = Some sym) then Some true
      else derives_from seen h (Base (obj n)) sym
  | _, _ => Some false
  end.
Definition Derives (h : list Ty) (t : option TypeId) (sym : SymId) : option bool := derives_from 64 h t sym.

(** [acceptsVoid]; the nil type accepts nothing. *)
Definition acceptsVoid (h : list Ty) (t : TypeId) : bool :=
  match h !! t with
  | None => false
  | Some n =>
      has (Flags n) TypeFlags.Void
      || (has (Flags n) TypeFlags.Union && existsb (λ m, has (flags_at h m) TypeFlags.Void) (Types n))
  end.

(** [MinArgs]: its two loops. *)
Fixpoint required_upto (t : Ty) (i : nat) (params : list TypeId) (min : nat) : nat :=
  match params with
  | [] => min
  | _ :: params =>
      if OptionalParam t i || (restParam (sig t) && (i =? length (Params (sig t)) - 1)%nat) then min
      else required_upto t (S i) params (S i)
  end.
Fixpoint drop_void (h : list Ty) (params : list TypeId) (min : nat) : nat :=
  match min with
  | O => O
  | S m => match params !! m with
           | Some p => if acceptsVoid h p then drop_void h params m else min
           | None => min
           end
  end.
Definition MinArgs (h : list Ty) (t : Ty) : nat :=
  drop_void h (Params (sig t)) (required_upto t 0 (Params (sig t)) 0).
