(* ===== verification/TypePrint.v ===== *)
(** * Printing types (src/checker/types.go, [String])

    The recursion follows pointers of a graph that may be cyclic, so it runs on
    fuel; [None] is out of fuel, a nil pointer, or a name whose mangling does
    not read back. *)

From S2P Require Import Prelude GoString Symbols Mangle Types.
From Stdlib Require Import Ascii.
Open Scope Z_scope.

(** [strconv.Quote]; which runes past ASCII print is the Unicode table's. *)
Section quote.
Context (IsPrint : rune → bool).
Definition backslash : string := str_byte 0x5C.
Definition quote_rune (s : string) (i : nat) (r : rune) : string :=
  let w := (decode_rune (drop_str i s)).2 in
  let b := match drop_str i s with String a _ => byte_val a | EmptyString => 0 end in
  if (r =? RuneError) && (w =? 1)%nat then backslash +:+ "x" +:+ hex_pad 2 b ""
  else if r =? 0x22 then backslash +:+ str_byte 0x22
  else if r =? 0x5C then backslash +:+ backslash
  else if ascii_print r || ((0x80 <=? r) && IsPrint r) then encode_rune r
  else if r =? 0x07 then backslash +:+ "a"
  else if r =? 0x08 then backslash +:+ "b"
  else if r =? 0x0C then backslash +:+ "f"
  else if r =? 0x0A then backslash +:+ "n"
  else if r =? 0x0D then backslash +:+ "r"
  else if r =? 0x09 then backslash +:+ "t"
  else if r =? 0x0B then backslash +:+ "v"
  else if (r <? 0x20) || (r =? 0x7F) then backslash +:+ "x" +:+ hex_pad 2 r ""
  else if r <? 0x10000 then backslash +:+ "u" +:+ hex_pad 4 r ""
  else backslash +:+ "U" +:+ hex_pad 8 r "".
Definition Quote (s : string) : string :=
  str_byte 0x22
  +:+ foldr (λ p acc, quote_rune s p.1 p.2 +:+ acc) "" (range_string 0 0 s)
  +:+ str_byte 0x22.
End quote.

(** [symbolName]. *)
Definition symbolName (sym : TypeSymbol) : option string :=
  match (sourceName (if bool_decide (ts_Display sym = ""%string) then ts_Name sym else ts_Display sym) tt).1 with
  | Ok s => Some s
  | _ => None
  end.

(** [memberDisplayName] (src/checker/symbols.go). *)
Definition memberDisplayName (name : string) : string :=
  if has_prefix name "@@" then "[Symbol." +:+ drop_str 2 name +:+ "]" else name.

(** [RecursiveAlias]. *)
Definition RecursiveAlias (t : Ty) : bool :=
  has (Flags t) TypeFlags.Object && bool_decide (Kind (obj t) = Anonymous)
  && match TSymbol (obj t) with Some s => has (ts_Flags s) TypeAlias | None => false end.

(** How many members of an enum a union has ([seen]). *)
Definition seen_count (ms : list Ty) (s : option SymId) : Z :=
  Z.of_nat (length (List.filter (λ m, negb (bool_decide (Member m = ""%string))
                                      && bool_decide (ts_ptr <$> TSymbol (obj m) = s)) ms)).

Section string.
Context (IsPrint : rune → bool) (h : list Ty).

(** The loop of a union: [named] are the enums printed, [undef] whether
    undefined was; the parts and the tail come in reverse. *)
Fixpoint union_parts (rec : TypeId → option string) (all : list Ty) (ms : list (TypeId * Ty))
    (named : list (option SymId)) (undef : bool) : option (list string * list string) :=
  match ms with
  | [] => Some ([], [])
  | (m, n) :: ms =>
      let s := ts_ptr <$> TSymbol (obj n) in
      if negb (bool_decide (Member n = ""%string)) && (seen_count all s =? EnumSize n) then
        if bool_decide (s ∈ named) then union_parts rec all ms named undef
        else
          sym ← TSymbol (obj n);
          name ← symbolName sym;
          '(parts, tail) ← union_parts rec all ms (s :: named) undef;
          Some (name :: parts, tail)
      else if has (Flags n) TypeFlags.Undefined then
        '(parts, tail) ← union_parts rec all ms named true;
        Some (parts, if undef then tail else "undefined"%string :: tail)
      else
        str ← rec m;
        '(parts, tail) ← union_parts rec all ms named undef;
        Some (if has (Flags n) TypeFlags.Null then (parts, str :: tail) else (str :: parts, tail))
  end.

(** The parentheses of an array's or an optional element's type. *)
Definition needs_parens (n : Ty) : bool := has (Flags n) TypeFlags.Union || is_function n.
Definition parens (n : Ty) (s : string) : string := if needs_parens n then "(" +:+ s +:+ ")" else s.

Definition tuple_element (rec : TypeId → option string) (t : Ty) (i : nat) (e : TypeId) : option string :=
  n ← h !! e;
  s ← rec e;
  match Labels (obj t) with
  | Some ls => l ← ls !! i; Some (if minLen t <=? Z.of_nat i then l +:+ "?: " +:+ s else l +:+ ": " +:+ s)
  | None => Some (if minLen t <=? Z.of_nat i then parens n s +:+ "?" else s)
  end.

(** An overload is printed as a call signature. *)
Definition call_signature (s : string) : string :=
  match index_str s ") => " with
  | Some j => take_str (S j) s +:+ ": " +:+ drop_str (j + 5) s
  | None => s
  end.

Definition param_string (rec : TypeId → option string) (t : Ty) (i : nat) (p : TypeId) : option string :=
  let name := match ParamNames (sig t) !! i with
              | Some nm => if bool_decide (nm = ""%string) then "p" +:+ itoa (Z.of_nat i) else nm
              | None => "p" +:+ itoa (Z.of_nat i)
              end in
  let name := if restParam (sig t) && (i =? length (Params (sig t)) - 1)%nat then "..." +:+ name
              else if OptionalParam t i then name +:+ "?" else name in
  s ← rec p;
  Some (name +:+ ": " +:+ s).

Definition predicate_string (rec : TypeId → option string) (t : Ty) (p : Predicate) : option string :=
  let names := ParamNames (sig t) in
  let s := "p" +:+ itoa (PIndex p) in
  let s := if (0 <=? PIndex p) && (PIndex p <? Z.of_nat (length names))
           then match names !! Z.to_nat (PIndex p) with
                | Some nm => if bool_decide (nm = ""%string) then s else nm
                | None => s
                end
           else s in
  let s := if PIndex p =? -1 then "this"%string else s in
  s ← match PType p with Some ty => x ← rec ty; Some (s +:+ " is " +:+ x) | None => Some s end;
  Some (if Asserts p then "asserts " +:+ s else s).

Definition function_string (rec : TypeId → option string) (t : Ty) : option string :=
  if negb (length (Overloads (sig t)) =? 0)%nat then
    sigs ← mapM (λ s, call_signature <$> rec s) (Overloads (sig t));
    Some ("{ " +:+ join "; " sigs +:+ " }")
  else
    parts ← mapM (λ ip, param_string rec t ip.1 ip.2) (imap pair (Params (sig t)));
    parts ← match ThisType (sig t) with Some ty => x ← rec ty; Some (("this: " +:+ x) :: parts) | None => Some parts end;
    generic ← (if (length (TypeParams (sig t)) =? 0)%nat then Some ""%string
               else names ← mapM rec (TypeParams (sig t)); Some ("<" +:+ join ", " names +:+ ">"));
    result ← match Predicate_ (sig t) with
             | Some p => predicate_string rec t p
             | None => r ← Result (sig t); rec r
             end;
    Some (generic +:+ "(" +:+ join ", " parts +:+ ") => " +:+ result).

(** The members of an object type, after the kinds that print by a name. *)
Definition index_string (rec : TypeId → option string) (label : string) (t : option TypeId) : option (list string) :=
  match t with Some t => s ← rec t; Some [label +:+ s +:+ ";"] | None => Some [] end.
Definition members_string (rec : TypeId → option string) (t : Ty) : option string :=
  strs ← index_string rec "[x: string]: " (StringIndex (obj t));
  nums ← index_string rec "[x: number]: " (NumberIndex (obj t));
  let idx := strs ++ nums in
  if (length (Props (obj t)) =? 0)%nat && (length idx =? 0)%nat then Some "{}"%string
  else
    parts ← mapM (λ p, s ← rec (PropType p);
                       Some ((if Readonly p then "readonly " else "") +:+ memberDisplayName (PName p)
                             +:+ (if Optional p then "?" else "") +:+ ": " +:+ s +:+ ";")) (Props (obj t));
    Some ("{ " +:+ join " " (idx ++ parts) +:+ " }").

(** The types printed by their flags; [None] for the object types. *)
Definition flag_string (t : Ty) : option (option string) :=
  let f := Flags t in
  if has f TypeFlags.Any then Some (Some "any"%string)
  else if has f TypeFlags.Unknown then Some (Some "unknown"%string)
  else if has f TypeFlags.String then Some (Some "string"%string)
  else if has f TypeFlags.Number then Some (Some "number"%string)
  else if has f TypeFlags.Boolean then Some (Some "boolean"%string)
  else if has f TypeFlags.BigInt then Some (Some "bigint"%string)
  else if has f TypeFlags.ESSymbol then Some (Some "symbol"%string)
  else if has f TypeFlags.Void then Some (Some "void"%string)
  else if has f TypeFlags.Undefined then Some (Some "undefined"%string)
  else if has f TypeFlags.Null then Some (Some "null"%string)
  else if has f TypeFlags.Never then Some (Some "never"%string)
  else if has f TypeFlags.NonPrimitive then Some (Some "object"%string)
  else if has f TypeFlags.Literal && negb (bool_decide (Member t = ""%string)) then
    Some (sym ← TSymbol (obj t); name ← symbolName sym; Some (name +:+ "." +:+ Member t))
  else if has f TypeFlags.StringLiteral then Some (Some (Quote IsPrint (Value t)))
  else if has f (Z.lor TypeFlags.NumberLiteral TypeFlags.BooleanLiteral) then Some (Some (Value t))
  else if has f TypeFlags.BigIntLiteral then Some (Some (Value t +:+ "n"))
  else if has f TypeFlags.Int then Some (Some ((if Signed t then "int" else "uint") +:+ itoa (Bits t)))
  else if has f TypeFlags.Float32 then Some (Some "float32"%string)
  else if has f TypeFlags.Deferred then Some (Some "unknown"%string)
  else if has f TypeFlags.TypeParam then
    Some (match TSymbol (obj t) with None => Some (Value t) | Some sym => symbolName sym end)
  else None.

Definition union_string (rec : TypeId → option string) (t : Ty) : option string :=
  ms ← mapM (λ m, n ← h !! m; Some (m, n)) (Types t);
  '(parts, tail) ← union_parts rec (map snd ms) ms [] false;
  Some (join " | " (parts ++ tail)).

Definition object_string (rec : TypeId → option string) (t : Ty) : option string :=
  match Kind (obj t) with
  | Array => e ← Elem (obj t); n ← h !! e; s ← rec e; Some (parens n s +:+ "[]")
  | Tuple => parts ← mapM (λ ie, tuple_element rec t ie.1 ie.2) (imap pair (Elems (obj t)));
             Some ("[" +:+ join ", " parts +:+ "]")
  | KFunction => function_string rec t
  | Anonymous =>
      if RecursiveAlias t then sym ← TSymbol (obj t); symbolName sym else members_string rec t
  | Instance_ | KInterface =>
      match TSymbol (obj t) with
      | Some sym =>
          name ← symbolName sym;
          if (length (TypeArgs (obj t)) =? 0)%nat then Some name
          else args ← mapM rec (TypeArgs (obj t)); Some (name +:+ "<" +:+ join ", " args +:+ ">")
      | None => members_string rec t
      end
  end.

(** [String]. *)
Fixpoint TypeString (fuel : nat) (t : TypeId) : option string :=
  match fuel with
  | O => None
  | S fuel =>
      let rec := TypeString fuel in
      n ← h !! t;
      match Brand n with
      | Some brand => base ← BrandBase n; b ← rec base; s ← rec brand; Some (b +:+ " & " +:+ s)
      | None =>
          match ClassOf (obj n) with
          | Some sym => name ← symbolName sym; Some ("typeof " +:+ name)
          | None =>
              match bool_decide (Kind (obj n) = Anonymous) && (length (Props (obj n)) =? 0)%nat
                    && (length (Calls (obj n)) =? 0)%nat && bool_decide (StringIndex (obj n) = None)
                    && bool_decide (NumberIndex (obj n) = None), Constructs (obj n) with
              | true, [c] => s ← rec c; Some ("new " +:+ s)
              | _, _ =>
                  match flag_string n with
                  | Some s => s
                  | None => if has (Flags n) TypeFlags.Union then union_string rec n else object_string rec n
                  end
              end
          end
      end
  end.
End string.
