(* ===== verification/TypeKeys.v ===== *)
(** * What the interner's keys tell apart

    A request is what a constructor of types is asked for; [key] is the key it
    interns under.  Requests of the same key have the same [shape]. *)

From S2P Require Import Prelude GoString TextFacts Symbols Mangle Types.
From Stdlib Require Import Ascii.
Open Scope Z_scope.

(** The ID of the type at index [t]. *)
Definition tid (t : TypeId) : Z := Z.of_nat t + 1.
Definition ids_string (ts : list TypeId) : string := join "," (map (λ t, itoa (tid t)) ts).

Inductive request :=
  | RIntrinsic (f : Z)
  | RAnyNumber
  | RLiteral (f : Z) (value : string)
  | RInt (bits : Z) (signed : bool)
  | RArray (elem : TypeId)
  | RTuple (elems : list TypeId)
  | RLabelled (elems : list TypeId) (opt : Z) (labels : option (list string))
  | RBranded (base brand : TypeId)
  | RFunction (params : list TypeId) (opts : list bool) (rest : bool) (result : TypeId) (pred : option Predicate)
      (typeParams : list TypeId)
  | RNames (fn : TypeId) (names : list string)
  | RResult (fn r : TypeId)
  | RThis (fn t : TypeId)
  | RLiteralThis (o t : TypeId)
  | RIndexed (o : TypeId) (str num : option TypeId)
  | RSignatures (o : TypeId) (calls constructs : list TypeId)
  | RClass (o : TypeId) (ctor : option TypeId) (sym : TypeSymbol)
  | RObject (props : list Property) (part inter : bool)
  | RNominal (kind : ObjectKind) (sym : TypeSymbol) (args : list TypeId)
  | RUnion (members : list TypeId)
  | ROverloaded (sigs : list TypeId).

Definition prop_string (p : Property) : string :=
  PName p +:+ (if Optional p then "?" else "") +:+ ":" +:+ itoa (tid (PropType p))
  +:+ (if Accessor p then match Write_ p with Some w => "@" +:+ itoa (tid w) | None => "@" end else "")
  +:+ (if Readonly p then "!" else "") +:+ ";".
Definition opt_string (pre : string) (t : option TypeId) : string :=
  match t with Some t => pre +:+ itoa (tid t) | None => "" end.
Definition sigs_string (pre : string) (ts : list TypeId) : string :=
  foldr (λ t s, pre +:+ itoa (tid t) +:+ s) "" ts.
Definition pred_string (pred : option Predicate) : string :=
  match pred with
  | None => ""
  | Some p => "!" +:+ itoa (PIndex p) +:+ ":" +:+ FormatBool (Asserts p) +:+ opt_string ":" (PType p)
  end.

Section keys.
Context (addr : SymId → string).

Definition key (r : request) : string :=
  match r with
  | RIntrinsic f => "i" +:+ itoa f
  | RAnyNumber => "anynum"
  | RLiteral f v => "l" +:+ itoa f +:+ ":" +:+ v
  | RInt bits signed => "n" +:+ itoa bits +:+ FormatBool signed
  | RArray e => "a" +:+ itoa (tid e)
  | RTuple es => "t" +:+ ids_string es
  | RLabelled es opt labels => "t" +:+ ids_string es +:+ "?" +:+ itoa opt +:+ "#" +:+ join "," (label_list labels)
  | RBranded b br => "B" +:+ itoa (tid b) +:+ ":" +:+ itoa (tid br)
  | RFunction ps opts rest r pred tps =>
      "f" +:+ ids_string ps +:+ ">" +:+ itoa (tid r) +:+ "?" +:+ bools opts +:+ FormatBool rest +:+ "<"
      +:+ ids_string tps +:+ pred_string pred
  | RNames fn names => "n" +:+ itoa (tid fn) +:+ ":" +:+ join "," names
  | RResult fn r => "r" +:+ itoa (tid fn) +:+ ":" +:+ itoa (tid r)
  | RThis fn t => "t" +:+ itoa (tid fn) +:+ ":" +:+ itoa (tid t)
  | RLiteralThis o t => "T" +:+ itoa (tid o) +:+ ":" +:+ itoa (tid t)
  | RIndexed o str num => "x" +:+ itoa (tid o) +:+ opt_string "s" str +:+ opt_string "n" num
  | RSignatures o cs ks => "g" +:+ itoa (tid o) +:+ sigs_string "c" cs +:+ sigs_string "k" ks
  | RClass o ctor sym => "v" +:+ itoa (tid o) +:+ "|" +:+ ts_Name sym +:+ "|" +:+ addr (ts_ptr sym) +:+ opt_string "k" ctor
  | RObject ps part inter =>
      "o" +:+ (if part then str_byte 1 else "") +:+ (if inter then str_byte 2 else "")
      +:+ foldr (λ p s, prop_string p +:+ s) "" ps
  | RNominal kind sym args => "s" +:+ itoa (kind_int kind) +:+ ":" +:+ itoa (Z.of_nat (ts_ID sym)) +:+ "<" +:+ ids_string args
  | RUnion ms => "u" +:+ ids_string ms
  | ROverloaded sigs => "o" +:+ ids_string sigs
  end.
End keys.

(** What a key keeps of a request: of a property, not its visibility; of a
    symbol, its identity. *)
Definition prop_shape (p : Property) : string * bool * TypeId * option (option TypeId) * bool :=
  (PName p, Optional p, PropType p, if Accessor p then Some (Write_ p) else None, Readonly p).

Definition same_shape (r1 r2 : request) : Prop :=
  match r1, r2 with
  | RObject ps1 p1 i1, RObject ps2 p2 i2 => map prop_shape ps1 = map prop_shape ps2 ∧ p1 = p2 ∧ i1 = i2
  | RClass o1 c1 s1, RClass o2 c2 s2 => o1 = o2 ∧ c1 = c2 ∧ ts_Name s1 = ts_Name s2 ∧ ts_ptr s1 = ts_ptr s2
  | RNominal k1 s1 a1, RNominal k2 s2 a2 => k1 = k2 ∧ ts_ID s1 = ts_ID s2 ∧ a1 = a2
  | _, _ => r1 = r2
  end.

(** Names the keys can tell apart from what surrounds them: no property name
    has a character the key uses, parameter names and labels have no comma, a
    class's name no bar; and the lists a shape is made of are as long as their
    tuple. *)
Definition prop_char (a : ascii) : bool :=
  negb (is_byte 0x3A a) && negb (is_byte 0x3F a) && negb (is_byte 1 a) && negb (is_byte 2 a).
Definition hex_char (a : ascii) : bool := is_digit a || in_range 0x61 0x66 (byte_val a) || is_byte 0x78 a.
Definition clean (r : request) : Prop :=
  match r with
  | RLabelled es _ labels => match labels with
                             | Some ls => length ls = length es ∧ Forall (λ s, all_chars (no_byte 0x2C) s = true) ls ∧ ls ≠ [] ∧ ls ≠ [EmptyString]
                             | None => True
                             end
  | RNames _ names => names ≠ [] ∧ Forall (λ s, all_chars (no_byte 0x2C) s = true) names
  | RObject ps _ _ => Forall (λ p, all_chars prop_char (PName p) = true) ps
  | RClass _ _ sym => all_chars (no_byte 0x7C) (ts_Name sym) = true
  | ROverloaded sigs => sigs ≠ []
  | _ => True
  end.

(** ** Reading keys back *)

Lemma itoa_tid_inj t1 t2 r1 r2 :
  stops is_digit r1 → stops is_digit r2 → itoa (tid t1) +:+ r1 = itoa (tid t2) +:+ r2 → t1 = t2 ∧ r1 = r2.
Proof. intros H1 H2 [He Hr]%itoa_app_inj; [|done..]. split; [unfold tid in He; lia|done]. Qed.

Lemma itoa_tid_inj_end t1 t2 : itoa (tid t1) = itoa (tid t2) → t1 = t2.
Proof. intros He. apply (itoa_tid_inj t1 t2 "" ""); [done..|]. by rewrite !append_nil_r. Qed.

Lemma itoa_tid_digit t : ∃ a s, itoa (tid t) = String a s ∧ is_digit a = true.
Proof.
  unfold itoa, tid. destruct (Z.ltb_spec (Z.of_nat t + 1) 0); [lia|].
  destruct (itoa_digits (Z.of_nat t + 1) ltac:(lia)) as [Hd Hne]. destruct (itoa_nonneg _) as [|a s]; [done|].
  exists a, s. split; [done|]. cbn in Hd. by apply andb_true_iff in Hd as [? _].
Qed.

(** What may follow a list of IDs. *)
Definition id_char (a : ascii) : bool := is_digit a || is_byte 0x2C a.

Lemma stops_id_digit s : stops id_char s → stops is_digit s.
Proof. destruct s as [|a s]; [done|]. cbn. unfold id_char. by intros [? _]%orb_false_iff. Qed.

Lemma ids_string_cons t ts r :
  ids_string (t :: ts) +:+ r = itoa (tid t) +:+ (match ts with [] => r | _ => "," +:+ ids_string ts +:+ r end).
Proof. destruct ts; [done|]. unfold ids_string. cbn [map]. rewrite join_cons by done. by rewrite !append_assoc. Qed.

Lemma ids_string_inj ts1 ts2 r1 r2 :
  stops id_char r1 → stops id_char r2 → ids_string ts1 +:+ r1 = ids_string ts2 +:+ r2 → ts1 = ts2 ∧ r1 = r2.
Proof.
  intros H1 H2. revert ts2. induction ts1 as [|t1 ts1 IH]; intros [|t2 ts2] He.
  - done.
  - rewrite ids_string_cons in He. destruct (itoa_tid_digit t2) as (a & s & Ha & Hd). rewrite Ha, append_cons in He.
    change (ids_string [] +:+ r1) with r1 in He. rewrite He in H1. cbn in H1. unfold id_char in H1. by rewrite Hd in H1.
  - rewrite ids_string_cons in He. destruct (itoa_tid_digit t1) as (a & s & Ha & Hd). rewrite Ha, append_cons in He.
    change (ids_string [] +:+ r2) with r2 in He. rewrite <-He in H2. cbn in H2. unfold id_char in H2. by rewrite Hd in H2.
  - rewrite !ids_string_cons in He. apply itoa_tid_inj in He as [-> He].
    + destruct ts1 as [|x1 ts1], ts2 as [|x2 ts2].
      * done.
      * rewrite He in H1. done.
      * rewrite <-He in H2. done.
      * rewrite !append_cons, !append_nil_l in He. injection He as He. destruct (IH _ He) as [-> ->]. done.
    + destruct ts1; [by apply stops_id_digit|done].
    + destruct ts2; [by apply stops_id_digit|done].
Qed.

Lemma ids_string_inj_end ts1 ts2 : ids_string ts1 = ids_string ts2 → ts1 = ts2.
Proof. intros He. apply (ids_string_inj ts1 ts2 "" ""); [done..|]. by rewrite !append_nil_r. Qed.

Ltac strip H := rewrite ?append_assoc, ?append_cons, ?append_nil_l in H.

Lemma FormatBool_inj b1 b2 r1 r2 : FormatBool b1 +:+ r1 = FormatBool b2 +:+ r2 → b1 = b2 ∧ r1 = r2.
Proof. destruct b1, b2; cbn [FormatBool]; intros He; strip He; injection He; intros; simplify_eq; done. Qed.

Lemma bools_inj bs1 bs2 b1 b2 r1 r2 :
  bools bs1 +:+ FormatBool b1 +:+ r1 = bools bs2 +:+ FormatBool b2 +:+ r2 → bs1 = bs2 ∧ b1 = b2 ∧ r1 = r2.
Proof.
  revert bs2. induction bs1 as [|x1 bs1 IH]; intros [|x2 bs2] He.
  - by apply FormatBool_inj in He as [-> ->].
  - change (bools []) with ""%string in He. cbn [bools foldr] in He. fold (bools bs2) in He. destruct b1, x2; cbn [FormatBool] in He; strip He; done.
  - change (bools []) with ""%string in He. cbn [bools foldr] in He. fold (bools bs1) in He. destruct b2, x1; cbn [FormatBool] in He; strip He; done.
  - cbn [bools foldr] in He. fold (bools bs1) in He. fold (bools bs2) in He. destruct x1, x2; strip He; try done;
      injection He as He; destruct (IH bs2 He) as (-> & -> & ->); done.
Qed.

(** A list of IDs each after the character [c]. *)
Lemma sigs_string_inj (c : ascii) ts1 ts2 r1 r2 :
  is_digit c = false → stops is_digit r1 → stops is_digit r2 → stops (λ a, bool_decide (a = c)) r1 → stops (λ a, bool_decide (a = c)) r2 →
  sigs_string (String c "") ts1 +:+ r1 = sigs_string (String c "") ts2 +:+ r2 → ts1 = ts2 ∧ r1 = r2.
Proof.
  intros Hc H1 H2 H3 H4. revert ts2. induction ts1 as [|t1 ts1 IH]; intros [|t2 ts2] He.
  - done.
  - change (sigs_string _ []) with ""%string in He. cbn [sigs_string foldr] in He. strip He. subst r1. cbn in H3. by rewrite bool_decide_true in H3.
  - change (sigs_string _ []) with ""%string in He. cbn [sigs_string foldr] in He. strip He. subst r2. cbn in H4. by rewrite bool_decide_true in H4.
  - cbn [sigs_string foldr] in He. strip He. injection He as He.
    fold (sigs_string (String c "") ts1) in He. fold (sigs_string (String c "") ts2) in He.
    assert (∀ ts r, stops is_digit r → stops is_digit (sigs_string (String c "") ts +:+ r)) as Hst.
    { intros ts r Hr. destruct ts; [done|]. cbn [sigs_string foldr]. by rewrite append_cons. }
    apply itoa_tid_inj in He as [-> He]; [|by apply Hst..]. destruct (IH _ He) as [-> ->]. done.
Qed.

Lemma opt_string_inj (c : ascii) t1 t2 r1 r2 :
  is_digit c = false → stops is_digit r1 → stops is_digit r2 → stops (λ a, bool_decide (a = c)) r1 → stops (λ a, bool_decide (a = c)) r2 →
  opt_string (String c "") t1 +:+ r1 = opt_string (String c "") t2 +:+ r2 → t1 = t2 ∧ r1 = r2.
Proof.
  intros Hc H1 H2 H3 H4 He.
  assert (∀ t, opt_string (String c "") t = sigs_string (String c "") (match t with Some t => [t] | None => [] end)) as Ho.
  { intros [t|]; [|done]. cbn [opt_string sigs_string foldr]. by rewrite append_nil_r. }
  rewrite !Ho in He. apply sigs_string_inj in He as [He ->]; [|done..]. by destruct t1, t2; simplify_eq.
Qed.

Lemma opt_string_inj_end (c : ascii) t1 t2 :
  is_digit c = false → opt_string (String c "") t1 = opt_string (String c "") t2 → t1 = t2.
Proof. intros Hc He. apply (opt_string_inj c t1 t2 "" ""); [done..|]. by rewrite !append_nil_r. Qed.

Lemma pred_string_inj p1 p2 : pred_string p1 = pred_string p2 → p1 = p2.
Proof.
  destruct p1 as [[i1 t1 a1]|], p2 as [[i2 t2 a2]|]; cbn [pred_string PIndex PType Asserts]; intros He; strip He; try done.
  injection He as He. apply itoa_app_inj in He as [-> He]; [|done..]. strip He. injection He as He.
  apply FormatBool_inj in He as [-> He]. by apply opt_string_inj_end in He as ->.
Qed.

Lemma prop_string_inj p1 p2 r1 r2 :
  all_chars prop_char (PName p1) = true → all_chars prop_char (PName p2) = true →
  prop_string p1 +:+ r1 = prop_string p2 +:+ r2 → prop_shape p1 = prop_shape p2 ∧ r1 = r2.
Proof.
  destruct p1 as [n1 t1 o1 a1 w1 rd1 v1 wv1 ow1 f1], p2 as [n2 t2 o2 a2 w2 rd2 v2 wv2 ow2 f2].
  unfold prop_string, prop_shape. cbn [PName PropType Optional Accessor Write_ Readonly]. intros H1 H2 He.
  rewrite !append_assoc in He. apply (append_inj_stop prop_char) in He as [-> He]; [|done|done|by destruct o1|by destruct o2].
  assert (o1 = o2 ∧ itoa (tid t1) +:+ (if a1 then match w1 with Some w => "@" +:+ itoa (tid w) | None => "@" end else "")
      +:+ (if rd1 then "!" else "") +:+ ";" +:+ r1
    = itoa (tid t2) +:+ (if a2 then match w2 with Some w => "@" +:+ itoa (tid w) | None => "@" end else "")
      +:+ (if rd2 then "!" else "") +:+ ";" +:+ r2) as [-> He'].
  { destruct o1, o2; strip He; try done; injection He as He; rewrite ?append_assoc; (split; [done|]); exact He. }
  clear He. assert (∀ (rd : bool) r, stops is_digit ((if rd then "!" else "") +:+ ";" +:+ r)) as Hst by (by intros []).
  apply itoa_tid_inj in He' as [-> He].
  - assert (a1 = a2 ∧ (a1 = true → w1 = w2) ∧ (if rd1 then "!" else "") +:+ ";" +:+ r1 = (if rd2 then "!" else "") +:+ ";" +:+ r2)
      as (-> & Hw & He').
    { destruct a1, a2.
      - destruct w1 as [x1|], w2 as [x2|]; strip He.
        + injection He as He. apply itoa_tid_inj in He as [-> He]; [done|by destruct rd1|by destruct rd2].
        + exfalso. injection He as He. destruct (itoa_tid_digit x1) as (d & s & Hd & Hdd). rewrite Hd in He. strip He.
          destruct rd2; strip He; injection He as -> _; by vm_compute in Hdd.
        + exfalso. injection He as He. destruct (itoa_tid_digit x2) as (d & s & Hd & Hdd). rewrite Hd in He. strip He.
          destruct rd1; strip He; injection He as <- _; by vm_compute in Hdd.
        + by injection He as He.
      - exfalso. destruct w1, rd2; strip He; done.
      - exfalso. destruct w2, rd1; strip He; done.
      - done. }
    assert (rd1 = rd2 ∧ r1 = r2) as [-> ->].
    { destruct rd1, rd2; strip He'; try done; by injection He' as ->. }
    split; [|done]. destruct a2; [by rewrite Hw|done].
  - destruct a1; [by destruct w1|by apply Hst].
  - destruct a2; [by destruct w2|by apply Hst].
Qed.

Lemma props_string_inj ps1 ps2 :
  Forall (λ p, all_chars prop_char (PName p) = true) ps1 → Forall (λ p, all_chars prop_char (PName p) = true) ps2 →
  foldr (λ p s, prop_string p +:+ s) "" ps1 = foldr (λ p s, prop_string p +:+ s) "" ps2 → map prop_shape ps1 = map prop_shape ps2.
Proof.
  assert (∀ p s, prop_string p +:+ s ≠ ""%string) as Hne.
  { intros p s He. apply (f_equal String.length) in He. unfold prop_string in He. rewrite !length_append in He.
    change (String.length ":") with 1%nat in He. change (String.length "") with 0%nat in He. lia. }
  revert ps2. induction ps1 as [|p1 ps1 IH]; intros [|p2 ps2] H1 H2 He; cbn [foldr map] in *.
  - done.
  - symmetry in He. by apply Hne in He.
  - by apply Hne in He.
  - apply Forall_cons in H1 as [Hp1 H1], H2 as [Hp2 H2]. apply prop_string_inj in He as [-> He]; [|done..].
    f_equal. by apply IH.
Qed.

(** ** Keys have one shape *)

Lemma ids_chars ts : all_chars id_char (ids_string ts) = true.
Proof.
  assert (∀ t, all_chars id_char (itoa (tid t)) = true) as Ht.
  { intros t. eapply (all_chars_impl is_digit); [intros a Ha; unfold id_char; by rewrite Ha|].
    unfold itoa, tid. destruct (Z.ltb_spec (Z.of_nat t + 1) 0); [lia|]. apply itoa_digits. lia. }
  induction ts as [|t ts IH]; [done|]. rewrite <-(append_nil_r (ids_string (t :: ts))), ids_string_cons, all_chars_app, Ht.
  destruct ts; [done|]. by rewrite append_nil_r, all_chars_app, IH.
Qed.

Lemma props_start ps :
  Forall (λ p, all_chars prop_char (PName p) = true) ps →
  stops (λ a, is_byte 1 a || is_byte 2 a) (foldr (λ p s, prop_string p +:+ s) "" ps).
Proof.
  intros H. destruct ps as [|p ps]; [done|]. apply Forall_cons in H as [Hp _]. cbn [foldr]. unfold prop_string.
  rewrite !append_assoc. destruct (PName p) as [|a nm]; [by destruct (Optional p)|]. rewrite append_cons. cbn in Hp |- *.
  apply andb_true_iff in Hp as [Hp _]. unfold prop_char in Hp. rewrite !andb_true_iff, !negb_true_iff in Hp.
  destruct Hp as [[_ ->] ->]. done.
Qed.

(** An object's key is not an overloaded function's. *)
Lemma object_overloaded (part inter : bool) ps sigs :
  Forall (λ p, all_chars prop_char (PName p) = true) ps → sigs ≠ [] →
  (if part then str_byte 1 else "") +:+ (if inter then str_byte 2 else "") +:+ foldr (λ p s, prop_string p +:+ s) "" ps
  ≠ ids_string sigs.
Proof.
  intros _ Hne He. pose proof (ids_chars sigs) as Hc. rewrite <-He, !all_chars_app in Hc.
  apply andb_true_iff in Hc as [Hp [Hi Hps]%andb_true_iff].
  destruct part; [by vm_compute in Hp|]. destruct inter; [by vm_compute in Hi|]. rewrite !append_nil_l in He.
  destruct ps as [|p ps].
  - destruct sigs as [|t ts]; [done|]. rewrite <-(append_nil_r (ids_string _)), ids_string_cons in He.
    destruct (itoa_tid_digit t) as (d & s & Hd & _). rewrite Hd in He. strip He. done.
  - cbn [foldr] in Hps. unfold prop_string in Hps. rewrite !all_chars_app in Hps.
    rewrite !andb_true_iff in Hps. destruct Hps as [(_ & _ & Hcol & _) _]. by vm_compute in Hcol.
Qed.

Section inj.
Context (addr : SymId → string).
Hypothesis addr_inj : Inj (=) (=) addr.
Hypothesis addr_hex : ∀ s, all_chars hex_char (addr s) = true.

Lemma class_key_inj o1 o2 c1 c2 s1 s2 :
  all_chars (no_byte 0x7C) (ts_Name s1) = true → all_chars (no_byte 0x7C) (ts_Name s2) = true →
  itoa (tid o1) +:+ "|" +:+ ts_Name s1 +:+ "|" +:+ addr (ts_ptr s1) +:+ opt_string "k" c1
  = itoa (tid o2) +:+ "|" +:+ ts_Name s2 +:+ "|" +:+ addr (ts_ptr s2) +:+ opt_string "k" c2 →
  o1 = o2 ∧ c1 = c2 ∧ ts_Name s1 = ts_Name s2 ∧ ts_ptr s1 = ts_ptr s2.
Proof.
  intros H1 H2 He. apply itoa_tid_inj in He as [-> He]; [|done..]. strip He. injection He as He.
  apply (append_inj_stop (no_byte 0x7C)) in He as [Hn He]; [|done..]. strip He. injection He as He.
  apply (append_inj_stop hex_char) in He as [Ha He]; [|done|done|by destruct c1|by destruct c2].
  apply opt_string_inj_end in He as ->; [|done]. by apply addr_inj in Ha.
Qed.

Lemma function_key_inj ps1 ps2 r1 r2 os1 os2 b1 b2 tps1 tps2 p1 p2 :
  ids_string ps1 +:+ ">" +:+ itoa (tid r1) +:+ "?" +:+ bools os1 +:+ FormatBool b1 +:+ "<" +:+ ids_string tps1 +:+ pred_string p1
  = ids_string ps2 +:+ ">" +:+ itoa (tid r2) +:+ "?" +:+ bools os2 +:+ FormatBool b2 +:+ "<" +:+ ids_string tps2 +:+ pred_string p2 →
  RFunction ps1 os1 b1 r1 p1 tps1 = RFunction ps2 os2 b2 r2 p2 tps2.
Proof.
  intros He. apply ids_string_inj in He as [-> He]; [|done..]. strip He. injection He as He.
  apply itoa_tid_inj in He as [-> He]; [|done..]. strip He. injection He as He.
  apply bools_inj in He as (-> & -> & He). strip He. injection He as He.
  apply ids_string_inj in He as [-> He]; [|by destruct p1|by destruct p2]. by apply pred_string_inj in He as ->.
Qed.

Lemma labelled_key_inj es1 es2 o1 o2 l1 l2 :
  clean (RLabelled es1 o1 l1) → clean (RLabelled es2 o2 l2) →
  ids_string es1 +:+ "?" +:+ itoa o1 +:+ "#" +:+ join "," (label_list l1)
  = ids_string es2 +:+ "?" +:+ itoa o2 +:+ "#" +:+ join "," (label_list l2) →
  RLabelled es1 o1 l1 = RLabelled es2 o2 l2.
Proof.
  intros H1 H2 He. apply ids_string_inj in He as [-> He]; [|done..]. strip He. injection He as He.
  apply itoa_app_inj in He as [-> He]; [|done..]. strip He. injection He as He. f_equal.
  destruct l1 as [l1|], l2 as [l2|]; cbn in H1, H2, He; destruct_and?.
  - f_equal. by apply join_inj.
  - exfalso. by eapply join_nonempty.
  - exfalso. symmetry in He. by eapply join_nonempty.
  - done.
Qed.

Lemma object_key_inj ps1 ps2 (p1 p2 i1 i2 : bool) :
  clean (RObject ps1 p1 i1) → clean (RObject ps2 p2 i2) →
  (if p1 then str_byte 1 else "") +:+ (if i1 then str_byte 2 else "") +:+ foldr (λ p s, prop_string p +:+ s) "" ps1
  = (if p2 then str_byte 1 else "") +:+ (if i2 then str_byte 2 else "") +:+ foldr (λ p s, prop_string p +:+ s) "" ps2 →
  same_shape (RObject ps1 p1 i1) (RObject ps2 p2 i2).
Proof.
  intros H1 H2 He. pose proof (props_start ps1 H1) as S1. pose proof (props_start ps2 H2) as S2.
  assert (p1 = p2 ∧ i1 = i2 ∧ foldr (λ p s, prop_string p +:+ s) "" ps1 = foldr (λ p s, prop_string p +:+ s) "" ps2) as (-> & -> & He').
  { change (str_byte 1) with (String (byte_of 1) "") in He. change (str_byte 2) with (String (byte_of 2) "") in He.
    destruct p1, p2, i1, i2; strip He; try (injection He as He); try done.
    all: first [rewrite He in S1; by vm_compute in S1|rewrite <-He in S2; by vm_compute in S2]. }
  split; [by apply props_string_inj|done].
Qed.

(** Kinds of types whose keys begin alike. *)
Lemma num_key_inj t1 t2 (c : ascii) u1 u2 :
  is_digit c = false → itoa (tid t1) +:+ String c (itoa (tid u1)) = itoa (tid t2) +:+ String c (itoa (tid u2)) → t1 = t2 ∧ u1 = u2.
Proof. intros Hc He. apply itoa_tid_inj in He as [-> He]; [|done..]. injection He as He. by apply itoa_tid_inj_end in He. Qed.

Lemma anynum_array t : "nynum"%string ≠ itoa (tid t).
Proof. destruct (itoa_tid_digit t) as (d & s & -> & Hd). intros [= <- _]. by vm_compute in Hd. Qed.

Lemma int_names bits signed fn s : itoa bits +:+ FormatBool signed ≠ itoa (tid fn) +:+ String ":" s.
Proof. intros He. apply itoa_app_inj in He as [_ He]; [by destruct signed|by destruct signed|done]. Qed.

Lemma tuple_longer es1 es2 (c : ascii) s : id_char c = false → ids_string es1 ≠ ids_string es2 +:+ String c s.
Proof.
  intros Hc He. rewrite <-(append_nil_r (ids_string es1)) in He. by apply ids_string_inj in He as [_ He].
Qed.

Lemma itoa_ids t s : itoa (tid t) +:+ s = ids_string [t] +:+ s.
Proof. done. Qed.

Lemma key_shape r1 r2 : clean r1 → clean r2 → key addr r1 = key addr r2 → same_shape r1 r2.
Proof.
  intros H1 H2 He.
  destruct r1, r2; cbn [key] in He; rewrite ?append_cons, ?append_nil_l in He; try discriminate He;
    try (injection He as He); cbn [clean] in H1, H2; cbn [same_shape]; try done.
  - f_equal. apply (itoa_app_inj _ _ "" ""); [done..|]. by rewrite !append_nil_r.
  - by apply anynum_array in He.
  - apply itoa_app_inj in He as [-> He]; [|done..]. by injection He as ->.
  - apply itoa_app_inj in He as [-> He]; [|by destruct signed|by destruct signed0].
    f_equal. apply (FormatBool_inj signed signed0 "" ""). by rewrite !append_nil_r.
  - by apply int_names in He.
  - symmetry in He. by apply anynum_array in He.
  - by apply itoa_tid_inj_end in He as ->.
  - by apply ids_string_inj_end in He as ->.
  - by apply tuple_longer in He.
  - rewrite itoa_ids in He. by apply tuple_longer in He.
  - symmetry in He. by apply tuple_longer in He.
  - by apply labelled_key_inj.
  - rewrite itoa_ids in He. by apply ids_string_inj in He as [_ He].
  - by apply num_key_inj in He as [-> ->].
  - by apply function_key_inj.
  - symmetry in He. by apply int_names in He.
  - apply itoa_tid_inj in He as [-> He]; [|done..]. injection He as He. destruct H1, H2. f_equal. by apply join_inj.
  - by apply num_key_inj in He as [-> ->].
  - symmetry in He. rewrite itoa_ids in He. by apply tuple_longer in He.
  - rewrite itoa_ids in He. by apply ids_string_inj in He as [_ He].
  - by apply num_key_inj in He as [-> ->].
  - by apply num_key_inj in He as [-> ->].
  - apply itoa_tid_inj in He as [-> He]; [|by destruct str, num|by destruct str0, num0].
    apply opt_string_inj in He as [-> He]; [|done|by destruct num|by destruct num0|by destruct num|by destruct num0].
    by apply opt_string_inj_end in He as ->.
  - apply itoa_tid_inj in He as [-> He]; [|by destruct calls, constructs|by destruct calls0, constructs0].
    apply sigs_string_inj in He as [-> He]; [|done|by destruct constructs|by destruct constructs0|by destruct constructs|by destruct constructs0].
    assert (constructs = constructs0) as ->; [|done].
    apply (sigs_string_inj "k" _ _ "" ""); [done..|]. by rewrite !append_nil_r.
  - by apply class_key_inj.
  - by apply object_key_inj.
  - by apply object_overloaded in He.
  - apply itoa_app_inj in He as [Hk He]; [|done..]. injection He as He.
    apply itoa_app_inj in He as [Hid He]; [|done..]. injection He as He. apply ids_string_inj_end in He as ->.
    split; [by destruct kind, kind0|]. split; [lia|done].
  - by apply ids_string_inj_end in He as ->.
  - symmetry in He. by apply object_overloaded in He.
  - by apply ids_string_inj_end in He as ->.
Qed.

(** And requests of one shape have one key. *)
Lemma shape_key r1 r2 : same_shape r1 r2 → key addr r1 = key addr r2.
Proof.
  destruct r1, r2; cbn [same_shape]; intros H; try done; try (by injection H; intros; subst).
  - destruct H as (-> & -> & Hn & Hp). cbn [key]. by rewrite Hn, Hp.
  - destruct H as (Hps & -> & ->). cbn [key]. do 3 f_equal. revert props0 Hps.
    induction props as [|p ps IH]; intros [|p' ps'] He; try done. cbn [map] in He. cbn [foldr].
    assert (prop_shape p = prop_shape p' ∧ map prop_shape ps = map prop_shape ps') as [Hp Hps] by (split; congruence).
    rewrite (IH _ Hps). f_equal. destruct p as [? ? ? a ? ? ? ? ? ?], p' as [? ? ? a' ? ? ? ? ? ?].
    unfold prop_shape, prop_string in *. cbn in *. by destruct a, a'; simplify_eq.
  - destruct H as (-> & Hi & ->). cbn [key]. by rewrite Hi.
Qed.
End inj.
