(* ===== verification/TypeFacts.v ===== *)
(** * The interner's invariant

    Every type is interned under the key of the request it was made for. *)

From S2P Require Import Prelude GoString Symbols TextFacts Mangle Types TypeKeys.
From Stdlib Require Import Ascii.

Open Scope Z_scope.

(** ** What a request makes *)

Definition any_number_type : Ty :=
  mkTy TypeFlags.Number 0 "" 0 false true [] no_object no_signature None None "" 0.
Definition literal_type (f : Z) (v : string) : Ty := mkTy f 0 v 0 false false [] no_object no_signature None None "" 0.
Definition int_type (bits : Z) (signed : bool) : Ty :=
  mkTy TypeFlags.Int 0 "" bits signed false [] no_object no_signature None None "" 0.

Definition made (h : list Ty) (r : request) : option Ty :=
  match r with
  | RIntrinsic f => Some (flag_type f)
  | RAnyNumber => Some any_number_type
  | RLiteral f v => Some (literal_type f v)
  | RInt bits signed => Some (int_type bits signed)
  | RArray e => Some (object_type (mkObject Array (Some e) [] 0 None [] None None None [] None None [] [] None false false))
  | RTuple es => Some (object_type (tuple_part es 0 None))
  | RLabelled es opt labels => Some (object_type (tuple_part es opt labels))
  | RBranded b br => set_brand br b <$> h !! b
  | RFunction ps opts rest r pred tps =>
      Some (set_sig (mkSignature ps (Some r) [] pred tps [] None opts rest)
              (object_type (mkObject KFunction None [] 0 None [] None None None [] None None [] [] None false false)))
  | RNames fn names => (λ n, set_sig (set_ParamNames names (sig n)) n) <$> h !! fn
  | RResult fn r => (λ n, set_sig (set_Result r (sig n)) n) <$> h !! fn
  | RThis fn t => (λ n, set_sig (set_ThisType t (sig n)) n) <$> h !! fn
  | RLiteralThis o t => (λ n, set_obj (set_LiteralThis t (obj n)) n) <$> h !! o
  | RIndexed o str num => (λ n, set_obj (set_indexes str num (obj n)) n) <$> h !! o
  | RSignatures o cs ks => (λ n, set_obj (set_signatures cs ks (obj n)) n) <$> h !! o
  | RClass o ctor sym =>
      (λ n, set_obj (set_class (match ctor with Some c => [c] | None => Constructs (obj n) end) sym (obj n)) n) <$> h !! o
  | RObject ps part inter =>
      Some (object_type (mkObject Anonymous None [] 0 None ps None None None [] None None [] [] None part inter))
  | RNominal kind sym args =>
      Some (object_type (mkObject kind None [] 0 None [] (Some sym) None None args None None [] [] None false false))
  | RUnion ms => Some (union_type ms)
  | ROverloaded sigs => s ← head sigs; (λ n, set_sig (set_Overloads sigs (sig n)) (set_TID 0 n)) <$> h !! s
  end.

(** ** The invariant *)

(** A union's members are the types a union can have. *)
Definition member_ok (h : list Ty) (m : TypeId) : Prop :=
  ∃ n, h !! m = Some n ∧ Forall (λ f, has (Flags n) f = false)
         [TypeFlags.Union; TypeFlags.Never; TypeFlags.Any; TypeFlags.Unknown].
(** A type is of one kind. *)
Definition single (f : Z) : Prop := ∃ k, 0 ≤ k < 22 ∧ f = 2 ^ k.
Definition type_ok (h : list Ty) (n : Ty) : Prop :=
  single (Flags n) ∧ (Flags n = TypeFlags.Union → Forall (member_ok h) (Types n))
  ∧ (AnyArith n = true → Flags n = TypeFlags.Number).

Lemma single_spec f : single f ↔ f ∈ map (λ k, 2 ^ Z.of_nat k) (seq 0 22).
Proof.
  split.
  - intros (k & Hk & ->). apply list_elem_of_fmap. exists (Z.to_nat k). rewrite Z2Nat.id by lia.
    split; [done|]. apply elem_of_seq. lia.
  - intros (k & -> & Hk)%list_elem_of_fmap. apply elem_of_seq in Hk. exists (Z.of_nat k). split; [lia|done].
Qed.

(** A property of all kinds is checked on each. *)
Lemma single_all (P : Z → bool) f : single f → forallb P (map (λ k, 2 ^ Z.of_nat k) (seq 0 22)) = true → P f = true.
Proof. intros Hf%single_spec Hall. rewrite forallb_forall in Hall. by apply Hall, list_elem_of_In. Qed.

Lemma single_has f g : single f → single g → has f g = true → f = g.
Proof.
  intros Hf Hg Hh.
  assert (forallb (λ g, negb (has f g) || (f =? g)) (map (λ k, 2 ^ Z.of_nat k) (seq 0 22)) = true) as Hall.
  { apply (single_all (λ f, forallb (λ g, negb (has f g) || (f =? g)) (map (λ k, 2 ^ Z.of_nat k) (seq 0 22))) f Hf).
    vm_compute. reflexivity. }
  apply (single_all _ g Hg) in Hall. cbv beta in Hall. rewrite Hh in Hall. by apply Z.eqb_eq.
Qed.

Section facts.
Context (addr : SymId → string).
Abbreviation key := (key addr).

Record iwf (s : interner) : Prop := {
  iw_next : next s = Z.of_nat (length (heap s));
  iw_ids : ∀ t n, heap s !! t = Some n → TID n = tid t;
  iw_keys : ∀ k t, byKey s !! k = Some t →
    ∃ r n, clean r ∧ key r = k ∧ made (heap s) r = Some n ∧ heap s !! t = Some (set_TID (tid t) n);
  iw_one : ∀ k1 k2 t, byKey s !! k1 = Some t → byKey s !! k2 = Some t → k1 = k2;
  iw_types : ∀ t n, heap s !! t = Some n → type_ok (heap s) n }.

(** Types and keys are only added. *)
Record igrows (s s' : interner) : Prop := {
  ig_heap : heap s `prefix_of` heap s';
  ig_keys : ∀ k t, byKey s !! k = Some t → byKey s' !! k = Some t }.

#[export] Instance igrows_preorder : PreOrder igrows.
Proof.
  split; [by intros s; constructor|]. intros s1 s2 s3 [H1 H2] [H3 H4]. constructor; [by etrans|auto].
Qed.

Lemma made_mono h h' r n : h `prefix_of` h' → made h r = Some n → made h' r = Some n.
Proof.
  intros Hp. assert (∀ t m, h !! t = Some m → h' !! t = Some m) as Hl by (intros; by eapply prefix_lookup_Some).
  destruct r; cbn [made]; try done; rewrite ?fmap_Some, ?bind_Some.
  all: try (intros (m & Hm & ->); exists m; split; [by apply Hl|done]).
  intros (s & Hs & Hx). exists s. split; [done|]. apply fmap_Some in Hx as (m & Hm & ->). rewrite (Hl _ _ Hm). done.
Qed.

Lemma member_ok_mono h h' m : h `prefix_of` h' → member_ok h m → member_ok h' m.
Proof. intros Hp (n & Hn & H). exists n. split; [by eapply prefix_lookup_Some|done]. Qed.

Lemma type_ok_mono h h' n : h `prefix_of` h' → type_ok h n → type_ok h' n.
Proof. intros Hp (Hs & Hn & Ha). split; [done|]. split; [|done]. intros Hu. eapply Forall_impl; [by apply Hn|]. intros m. by apply member_ok_mono. Qed.

(** A copy with other fields set is as good. *)
Lemma type_ok_copy h n n' : type_ok h n → Flags n' = Flags n → Types n' = Types n → AnyArith n' = AnyArith n → type_ok h n'.
Proof. unfold type_ok. by intros H -> -> ->. Qed.

Lemma type_ok_not_union h n : single (Flags n) → Flags n ≠ TypeFlags.Union → (AnyArith n = true → Flags n = TypeFlags.Number) → type_ok h n.
Proof. by split. Qed.

(** What a request made is a type of the heap. *)
Lemma made_type_ok s r n :
  iwf s → made (heap s) r = Some n →
  match r with
  | RIntrinsic f | RLiteral f _ => single f ∧ f ≠ TypeFlags.Union
  | RUnion ms => Forall (member_ok (heap s)) ms
  | _ => True
  end → type_ok (heap s) n.
Proof.
  intros Hs Hm Hr. destruct r; cbn [made] in Hm.
  all: try (injection Hm as <-; apply type_ok_not_union; [by apply Hr|by apply Hr|done]).
  all: try (injection Hm as <-; by apply type_ok_not_union; [apply single_spec, (bool_decide_unpack _); vm_compute|..]).
  all: try (apply fmap_Some in Hm as (m & Hm & ->); by apply (type_ok_copy _ m); [eapply iw_types|..]).
  - injection Hm as <-. by split; [apply single_spec, (bool_decide_unpack _); vm_compute|].
  - apply bind_Some in Hm as (t & _ & Hm). apply fmap_Some in Hm as (m & Hm & ->).
    by apply (type_ok_copy _ m); [eapply iw_types|..].
Qed.

Section ops.
Context {X : Empty_set → interner → Prop}.

Lemma wp_intern s r k mk (Q : TypeId → interner → Prop) :
  iwf s → clean r → k = key r → made (heap s) r = Some mk → type_ok (heap s) mk →
  (∀ t s', iwf s' → igrows s s' → byKey s' !! key r = Some t → Q t s') → wp (intern k mk) Q X s.
Proof.
  intros Hs Hc -> Hm Hok HQ. unfold intern. wp_steps. destruct (byKey s !! key r) as [t|] eqn:Ht; wp_steps.
  { by apply HQ. }
  destruct Hs as [Hnext Hids Hkeys Hone Htypes].
  assert (tid (length (heap s)) = next s + 1) as Htid by (unfold tid; lia).
  assert (heap s `prefix_of` heap s ++ [set_TID (next s + 1) mk]) as Hp by (by eexists).
  assert (∀ k t, byKey s !! k = Some t → (t < length (heap s))%nat) as Hlt.
  { intros k t Hk. destruct (Hkeys k t Hk) as (r' & n & _ & _ & _ & Hh). by eapply lookup_lt_Some. }
  apply HQ.
  - constructor; cbn.
    + rewrite length_app. cbn. lia.
    + intros t n [Hl|[Hge Hl]]%lookup_app_Some; [by apply Hids|].
      apply list_lookup_singleton_Some in Hl as [He <-]. cbn. unfold tid. lia.
    + intros k t. rewrite lookup_insert_Some. intros [[<- <-]|[_ Hk]].
      * exists r, mk. split; [done|]. split; [done|]. split; [by eapply made_mono|].
        rewrite list_lookup_middle by done. by rewrite Htid.
      * destruct (Hkeys k t Hk) as (r' & n & ? & ? & Hmd & Hh). exists r', n. do 2 (split; [done|]).
        split; [by eapply made_mono|]. by eapply prefix_lookup_Some.
    + intros k1 k2 t. rewrite !lookup_insert_Some. intros [[<- <-]|[_ H1]] [[<- H2]|[_ H2]]; try done.
      * by apply Hlt in H2; lia.
      * subst. apply Hlt in H1. lia.
      * by eapply Hone.
    + intros t n [Hl|[_ Hl]]%lookup_app_Some; [by eapply type_ok_mono, Htypes|].
      apply list_lookup_singleton_Some in Hl as [_ <-]. eapply type_ok_mono; [done|]. by apply (type_ok_copy _ mk).
  - constructor; cbn; [done|]. intros k t Hk. rewrite lookup_insert_ne; [done|]. intros <-. congruence.
  - cbn. by rewrite lookup_insert_eq.
Qed.

Lemma wp_typ s t n (Q : Ty → interner → Prop) : heap s !! t = Some n → Q n s → wp (typ t) Q X s.
Proof. intros Hn HQ. unfold typ. wp_steps. by eapply wp_index. Qed.

Lemma wp_id_of s t (Q : Z → interner → Prop) :
  iwf s → (t < length (heap s))%nat → Q (tid t) s → wp (id_of t) Q X s.
Proof.
  intros Hs Ht HQ. unfold id_of. wp_steps. destruct (lookup_lt_is_Some_2 _ _ Ht) as [n Hn].
  eapply wp_typ; [done|]. wp_steps. by rewrite (iw_ids _ Hs _ _ Hn).
Qed.

Lemma wp_ids s ts (Q : string → interner → Prop) :
  iwf s → Forall (λ t, (t < length (heap s))%nat) ts → Q (ids_string ts) s → wp (ids ts) Q X s.
Proof.
  intros Hs Hts HQ. unfold ids. wp_steps.
  assert (∀ Q', Q' (map tid ts) s → wp (id_list ts) Q' X s) as Hl.
  { clear HQ. induction Hts as [|t ts Ht _ IH]; intros Q' HQ'; cbn [id_list]; wp_steps; [done|].
    apply wp_id_of; [done|done|]. wp_steps. apply IH. by wp_steps. }
  apply Hl. wp_steps. rewrite map_map. exact HQ.
Qed.

Lemma wp_sigs_key s pre ts (Q : string → interner → Prop) :
  iwf s → Forall (λ t, (t < length (heap s))%nat) ts → Q (sigs_string pre ts) s → wp (sigs_key pre ts) Q X s.
Proof.
  intros Hs Hts. revert Q. induction Hts as [|t ts Ht _ IH]; intros Q HQ; cbn [sigs_key]; wp_steps; [done|].
  apply wp_id_of; [done..|]. wp_steps. apply IH. wp_steps. exact HQ.
Qed.

Lemma wp_option_key s pre t (Q : string → interner → Prop) :
  iwf s → (∀ x, t = Some x → (x < length (heap s))%nat) → Q (opt_string pre t) s → wp (option_key pre t) Q X s.
Proof.
  intros Hs Ht HQ. destruct t as [t|]; cbn [option_key]; wp_steps; [|done].
  apply wp_id_of; [done|by apply Ht|]. wp_steps. exact HQ.
Qed.

Lemma wp_predicate_key s p (Q : string → interner → Prop) :
  iwf s → (∀ x t, p = Some x → PType x = Some t → (t < length (heap s))%nat) → Q (pred_string p) s →
  wp (predicate_key p) Q X s.
Proof.
  intros Hs Ht HQ. destruct p as [[i [t|] a]|]; cbn [predicate_key PType]; wp_steps; [|done..].
  apply wp_id_of; [done|by eapply Ht|]. by wp_steps.
Qed.

Lemma wp_props_key s ps (Q : string → interner → Prop) :
  iwf s → Forall (λ p, (PropType p < length (heap s))%nat ∧ ∀ w, Write_ p = Some w → (w < length (heap s))%nat) ps →
  Q (foldr (λ p k, prop_string p +:+ k) "" ps) s → wp (props_key ps) Q X s.
Proof.
  intros Hs Hps. revert Q. induction Hps as [|p ps [Ht Hw] _ IH]; intros Q HQ; cbn [props_key]; wp_steps; [done|].
  apply wp_id_of; [done..|]. wp_steps.
  assert (∀ w, w = (if Accessor p then match Write_ p with Some w => "@" +:+ itoa (tid w) | None => "@" end else "") →
    wp (props_key ps) (λ k s', Q (PName p +:+ (if Optional p then "?" else "") +:+ ":" +:+ itoa (tid (PropType p)) +:+ w
          +:+ (if Readonly p then "!" else "") +:+ ";" +:+ k) s') X s) as Hrest.
  { intros w ->. apply IH. cbn [foldr] in HQ. unfold prop_string in HQ at 1. by rewrite !append_assoc in HQ. }
  destruct (Accessor p); [destruct (Write_ p) as [w|] eqn:Hwp|]; wp_steps.
  - apply wp_id_of; [done|by apply Hw|]. wp_steps. eapply wp_mono; [by apply Hrest| |done]. intros k s' HQ'. by wp_steps.
  - eapply wp_mono; [by apply Hrest| |done]. intros k s' HQ'. by wp_steps.
  - eapply wp_mono; [by apply Hrest| |done]. intros k s' HQ'. by wp_steps.
Qed.
End ops.
End facts.

(** ** The constructors of types intern their requests *)

Lemma Forall_one {A} (P : A → Prop) x : Forall P [x] → P x.
Proof. by inversion 1. Qed.

(** The types a request names. *)
Definition opt_list {A} (o : option A) : list A := match o with Some x => [x] | None => [] end.
Definition pointers (r : request) : list TypeId :=
  match r with
  | RIntrinsic _ | RAnyNumber | RLiteral _ _ | RInt _ _ => []
  | RArray e => [e]
  | RTuple es | RLabelled es _ _ | RUnion es | ROverloaded es => es
  | RBranded a b | RResult a b | RThis a b | RLiteralThis a b => [a; b]
  | RFunction ps _ _ r pred tps => r :: ps ++ tps ++ match pred with Some p => opt_list (PType p) | None => [] end
  | RNames fn _ => [fn]
  | RIndexed o str num => o :: opt_list str ++ opt_list num
  | RSignatures o cs ks => o :: cs ++ ks
  | RClass o ctor _ => o :: opt_list ctor
  | RObject ps _ _ => flat_map (λ p, PropType p :: opt_list (Write_ p)) ps
  | RNominal _ _ args => args
  end.

(** The members of a union in the form it is interned in: sorted, reduced, and
    more than one. *)
Definition prims_in (h : list Ty) (ms : list TypeId) (f : Z) : Prop := ∃ m, m ∈ ms ∧ has (flags_at h m) f = true.
Record canonical (h : list Ty) (ms : list TypeId) : Prop := {
  ca_members : Forall (member_ok h) ms;
  ca_sorted : StronglySorted lt ms;
  ca_many : (2 ≤ length ms)%nat;
  ca_reduced : ∀ m b, m ∈ ms → base_of (Z.land (flags_at h m) TypeFlags.Literal) = b → b ≠ 0 → ¬ prims_in h ms b;
  ca_boolean : ¬ (has_literal h "true" ms = true ∧ has_literal h "false" ms = true);
  ca_numbers : (∃ m, m ∈ ms ∧ arith_at h m = true) → ∀ m, m ∈ ms → arith_at h m = false →
    has (flags_at h m) (Z.lor TypeFlags.Number TypeFlags.NumberLiteral) = false }.

(** A request a constructor interns as it is. *)
Definition request_ok (h : list Ty) (r : request) : Prop :=
  clean r ∧ Forall (λ t, (t < length h)%nat) (pointers r) ∧
  match r with
  | RIntrinsic f | RLiteral f _ => single f ∧ f ≠ TypeFlags.Union
  | RLabelled es opt labels => 0 ≤ opt ≤ Z.of_nat (length es) ∧ (opt ≠ 0 ∨ labels ≠ None)
  | RNames fn _ | RThis fn _ => ∃ n, h !! fn = Some n ∧ is_function n = true
  | RIndexed _ str num => str ≠ None ∨ num ≠ None
  | RSignatures _ cs ks => cs ≠ [] ∨ ks ≠ []
  | RUnion ms => canonical h ms
  | _ => True
  end.

Section requests.
Context (addr : SymId → string).
Abbreviation key := (key addr).
Abbreviation iwf := (iwf addr).

Definition run_request (r : request) : InternM TypeId :=
  match r with
  | RIntrinsic f => intrinsic f
  | RAnyNumber => anyNumber
  | RLiteral f v => literal f v
  | RInt bits signed => intType bits signed
  | RArray e => array e
  | RTuple es => tuple es
  | RLabelled es opt labels => tupleLabelled es opt labels
  | RBranded b br => branded b br
  | RFunction ps opts rest r pred tps => function ps opts rest r pred tps
  | RNames fn names => withParamNames fn names
  | RResult fn r => withResult fn r
  | RThis fn t => withThis fn (Some t)
  | RLiteralThis o t => withLiteralThis o t
  | RIndexed o str num => indexedOn o str num
  | RSignatures o cs ks => withSignatures o cs ks
  | RClass o ctor sym => classValue addr o ctor sym
  | RObject ps part inter => objectOf ps part inter
  | RNominal kind sym args => t ← nominal kind sym args; mret t.1
  | RUnion ms => union (map Some ms)
  | ROverloaded sigs => overloaded sigs
  end.

Section wp.
Context {X : Empty_set → interner → Prop}.

Lemma wp_read s t (Q : Ty → interner → Prop) :
  (t < length (heap s))%nat → (∀ n, heap s !! t = Some n → Q n s) → wp (typ t) Q X s.
Proof. intros Ht HQ. destruct (lookup_lt_is_Some_2 _ _ Ht) as [n Hn]. eapply wp_typ; [done|]. by apply HQ. Qed.

(** The heap's own requests end in [intern]. *)
Lemma wp_interned s r k mk (Q : TypeId → interner → Prop) :
  iwf s → request_ok (heap s) r → k = key r → made (heap s) r = Some mk →
  (∀ t s', iwf s' → igrows s s' → byKey s' !! key r = Some t → Q t s') → wp (intern k mk) Q X s.
Proof.
  intros Hs (Hc & Hp & Hr) Hk Hm HQ. eapply (wp_intern addr); try done.
  eapply made_type_ok; [done..|]. destruct r; try done. by apply Hr.
Qed.

Lemma wp_request s r (Q : TypeId → interner → Prop) :
  iwf s → request_ok (heap s) r → (∀ ms, r ≠ RUnion ms) →
  (∀ t s', iwf s' → igrows s s' → byKey s' !! key r = Some t → Q t s') → wp (run_request r) Q X s.
Proof.
  intros Hs Hok Hnu HQ. pose proof Hok as (Hc & Hp & Hr).
  assert (∀ k mk, k = key r → made (heap s) r = Some mk → wp (intern k mk) Q X s) as Hin
    by (intros; by eapply wp_interned).
  destruct r; cbn [run_request pointers] in *; try (by eapply Hin).
  - unfold array. apply Forall_one in Hp. wp_steps. eapply (wp_id_of addr); [done..|]. by apply Hin.
  - unfold tuple. wp_steps. eapply (wp_ids addr); [done..|]. by apply Hin.
  - unfold tupleLabelled. destruct Hr as [Hopt Hor]. rewrite Z.min_l by lia.
    assert ((if (length (label_list labels) =? length elems)%nat then labels else None) = labels) as ->.
    { destruct labels as [ls|]; [|by case_match]. cbn in Hc |- *. destruct Hc as [-> _]. by rewrite Nat.eqb_refl. }
    destruct (Z.leb_spec opt 0), (bool_decide_reflect (labels = None)); cbn [andb]; try (exfalso; destruct Hor; [lia|done]).
    all: wp_steps; eapply (wp_ids addr); [done..|]; rewrite ?(Z.max_l opt 0) by lia; by apply Hin.
  - unfold branded. apply Forall_cons in Hp as [Hb Hp%Forall_one]. wp_steps. apply wp_read; [done|]. intros n Hn.
    wp_steps. eapply (wp_id_of addr); [done..|]. rewrite (iw_ids _ _ Hs _ _ Hn). apply Hin; [done|]. cbn. by rewrite Hn.
  - unfold function. apply Forall_cons in Hp as [Hres [Hps [Htps Hpred]%Forall_app]%Forall_app]. wp_steps.
    eapply (wp_ids addr); [done..|]. wp_steps. eapply (wp_id_of addr); [done..|]. wp_steps.
    eapply (wp_ids addr); [done..|]. wp_steps. eapply (wp_predicate_key addr); [done| |by apply Hin].
    intros p t -> Ht. cbn in Hpred. rewrite Ht in Hpred. by apply Forall_one in Hpred.
  - unfold withParamNames. apply Forall_one in Hp. destruct Hr as (n & Hn & Hf), Hc as [Hne _]. wp_steps.
    eapply wp_typ; [done|]. rewrite Hf. destruct names; [done|]. cbn [negb orb length Nat.eqb].
    rewrite (iw_ids _ _ Hs _ _ Hn). apply Hin; [done|]. cbn. by rewrite Hn.
  - unfold withResult. apply Forall_cons in Hp as [Hb Hp%Forall_one]. wp_steps. apply wp_read; [done|]. intros n Hn.
    wp_steps. eapply (wp_id_of addr); [done..|]. rewrite (iw_ids _ _ Hs _ _ Hn). apply Hin; [done|]. cbn. by rewrite Hn.
  - unfold withThis. apply Forall_cons in Hp as [Hb Hp%Forall_one]. destruct Hr as (n & Hn & Hf). wp_steps.
    eapply wp_typ; [done|]. rewrite Hf. cbn [negb]. wp_steps. eapply (wp_id_of addr); [done..|].
    rewrite (iw_ids _ _ Hs _ _ Hn). apply Hin; [done|]. cbn. by rewrite Hn.
  - unfold withLiteralThis. apply Forall_cons in Hp as [Hb Hp%Forall_one]. wp_steps. apply wp_read; [done|]. intros n Hn.
    wp_steps. eapply (wp_id_of addr); [done..|]. rewrite (iw_ids _ _ Hs _ _ Hn). apply Hin; [done|]. cbn. by rewrite Hn.
  - unfold indexedOn. apply Forall_cons in Hp as [Hb [Hstr Hnum]%Forall_app].
    destruct (bool_decide_reflect (str = None)), (bool_decide_reflect (num = None)); cbn [andb]; try (by destruct Hr).
    all: wp_steps; apply wp_read; [done|]; intros n' Hn; wp_steps; eapply (wp_option_key addr);
      [done|intros x ->; by apply Forall_one in Hstr|]; wp_steps; eapply (wp_option_key addr);
      [done|intros x ->; by apply Forall_one in Hnum|];
      rewrite (iw_ids _ _ Hs _ _ Hn); apply Hin; [done|]; cbn; by rewrite Hn.
  - unfold withSignatures. apply Forall_cons in Hp as [Hb [Hcs Hks]%Forall_app].
    assert ((length calls =? 0)%nat && (length constructs =? 0)%nat = false) as ->.
    { destruct calls, constructs; try done. by destruct Hr. }
    wp_steps. apply wp_read; [done|]. intros n Hn. wp_steps. eapply (wp_sigs_key addr); [done..|]. wp_steps.
    eapply (wp_sigs_key addr); [done..|]. rewrite (iw_ids _ _ Hs _ _ Hn). apply Hin; [done|]. cbn. by rewrite Hn.
  - unfold classValue. apply Forall_cons in Hp as [Hb Hct]. wp_steps. apply wp_read; [done|]. intros n Hn. wp_steps.
    eapply (wp_option_key addr); [done|intros x ->; by apply Forall_one in Hct|].
    rewrite (iw_ids _ _ Hs _ _ Hn). apply Hin; [done|]. cbn. by rewrite Hn.
  - unfold objectOf. wp_steps. eapply (wp_props_key addr); [done| |by apply Hin].
    apply Forall_forall. intros p Hpin. rewrite Forall_forall in Hp. split.
    + apply Hp, list_elem_of_In, in_flat_map. exists p. split; [by apply list_elem_of_In|]. by left.
    + intros w Hw. apply Hp, list_elem_of_In, in_flat_map. exists p. split; [by apply list_elem_of_In|]. right. rewrite Hw. by left.
  - unfold nominal, nominalKey, intern2. wp_steps. eapply (wp_ids addr); [done..|]. wp_steps.
    fold (key (RNominal kind sym args)). destruct (byKey s !! _) as [t|] eqn:Ht; wp_steps; [by apply HQ|].
    by eapply Hin.
  - by destruct (Hnu members).
  - unfold overloaded. wp_steps. eapply (wp_ids addr); [done..|]. wp_steps.
    fold (key (ROverloaded sigs)). destruct (byKey s !! _) as [t|] eqn:Ht; wp_steps; [by apply HQ|].
    destruct sigs as [|t ts]; [done|]. eapply wp_index; [done|]. wp_steps. apply Forall_cons in Hp as [Hp _].
    apply wp_read; [done|]. intros n Hn. wp_steps. apply Hin; [done|]. cbn. by rewrite Hn.
Qed.
End wp.
End requests.
