(* ===== verification/TypeUnion.v ===== *)
(** * Unions: flattening, literal reduction, the order of members *)

From S2P Require Import Prelude GoString Symbols SymbolFacts TextFacts Mangle Types TypeKeys TypeFacts.
From Stdlib Require Import Ascii.

Open Scope Z_scope.

(** ** Flattening *)

Definition push (h : list Ty) (ms : list TypeId) (t : TypeId) : list TypeId :=
  if has (flags_at h t) TypeFlags.Never || bool_decide (t ∈ ms) then ms else ms ++ [t].

(** The members a type brings to a union. *)
Definition atoms (h : list Ty) (t : TypeId) : list TypeId :=
  match h !! t with
  | Some n => if has (Flags n) TypeFlags.Union then Types n else [t]
  | None => []
  end.

(** The types whose unions are well formed. *)
Definition heap_ok (h : list Ty) : Prop := ∀ t n, h !! t = Some n → type_ok h n.

Lemma single_Union : single TypeFlags.Union.
Proof. by exists 17. Qed.

Lemma union_flags h n : type_ok h n → has (Flags n) TypeFlags.Union = true → Forall (member_ok h) (Types n).
Proof. intros (Hs & Hu & _) Hh. apply Hu. apply single_has in Hh; [done|done|apply single_Union]. Qed.

Lemma member_ok_inv h m :
  member_ok h m → ∃ n, h !! m = Some n ∧ has (Flags n) TypeFlags.Union = false ∧ has (Flags n) TypeFlags.Never = false
    ∧ has (Flags n) TypeFlags.Any = false ∧ has (Flags n) TypeFlags.Unknown = false.
Proof. intros (n & Hn & H). exists n. split; [done|]. rewrite !Forall_cons in H. tauto. Qed.

Lemma add_member_spec k h ms t :
  heap_ok h → (t < length h)%nat → add_member (S (S k)) h ms t = Some (foldl (push h) ms (atoms h t)).
Proof.
  intros Hh Ht. destruct (lookup_lt_is_Some_2 _ _ Ht) as [n Hn]. unfold atoms. rewrite Hn. cbn [add_member]. rewrite Hn. cbn [mbind option_bind].
  destruct (has (Flags n) TypeFlags.Union) eqn:Hu.
  - pose proof (union_flags h n (Hh _ _ Hn) Hu) as Hms. clear Hn Hu. revert ms. induction Hms as [|m l Hm _ IH]; intros ms; [done|].
    destruct (member_ok_inv _ _ Hm) as (n' & Hn' & Hu' & _). cbn [foldl]. rewrite Hn'. cbn [mbind option_bind]. rewrite Hu'.
    assert (push h ms m = if has (Flags n') TypeFlags.Never || bool_decide (m ∈ ms) then ms else ms ++ [m]) as Hp.
    { unfold push, flags_at. by rewrite Hn'. }
    destruct (_ || _); rewrite Hp; apply IH.
  - cbn [foldl]. unfold push, flags_at. rewrite Hn. by destruct (_ || _).
Qed.

Lemma elem_of_push h ms t x : x ∈ push h ms t ↔ x ∈ ms ∨ (x = t ∧ has (flags_at h t) TypeFlags.Never = false).
Proof.
  unfold push. destruct (has _ _) eqn:Hn; cbn [orb]; [split; [by left|intros [?|[? ?]]; done]|].
  case_bool_decide as Hin; [split; [by left|intros [?|[-> ?]]; done]|]. rewrite elem_of_app, list_elem_of_singleton. tauto.
Qed.

Lemma push_NoDup h ms t : NoDup ms → NoDup (push h ms t).
Proof.
  intros Hd. unfold push. destruct (has _ _); [done|]. cbn [orb]. case_bool_decide; [done|].
  apply NoDup_app. split_and!; [done|by intros x Hx ->%list_elem_of_singleton|apply NoDup_singleton].
Qed.

Lemma elem_of_pushes h ts ms x : x ∈ foldl (push h) ms ts ↔ x ∈ ms ∨ (x ∈ ts ∧ has (flags_at h x) TypeFlags.Never = false).
Proof.
  revert ms. induction ts as [|t ts IH]; intros ms; cbn [foldl].
  - split; [by left|]. intros [?|[?%elem_of_nil ?]]; done.
  - rewrite IH, elem_of_push, elem_of_cons. split; [intros [[?|[-> ?]]|[? ?]]; tauto|]. intros [?|[[->|?] ?]]; tauto.
Qed.

Lemma pushes_NoDup h ts ms : NoDup ms → NoDup (foldl (push h) ms ts).
Proof. revert ms. induction ts as [|t ts IH]; intros ms Hd; [done|]. by apply IH, push_NoDup. Qed.

(** The arguments that are not nil. *)
Definition args (ts : list (option TypeId)) : list TypeId := omap id ts.
Definition flat (h : list Ty) (ts : list (option TypeId)) : list TypeId := foldl (push h) [] (flat_map (atoms h) (args ts)).

Lemma add_all_spec h ms ts :
  heap_ok h → Forall (λ t, (t < length h)%nat) (args ts) →
  add_all h ms ts = Some (match List.find (λ t, has (flags_at h t) TypeFlags.Any) (args ts) with
                          | Some any => inl any
                          | None => inr (foldl (push h) ms (flat_map (atoms h) (args ts)))
                          end).
Proof.
  intros Hh. revert ms. induction ts as [|[t|] ts IH]; intros ms Hts; cbn [add_all args omap list_omap id] in *; [done| |by apply IH].
  apply Forall_cons in Hts as [Ht Hts]. destruct (lookup_lt_is_Some_2 _ _ Ht) as [n Hn]. rewrite Hn. cbn [mbind option_bind List.find].
  assert (flags_at h t = Flags n) as -> by (unfold flags_at; by rewrite Hn).
  destruct (has (Flags n) TypeFlags.Any); [done|].
  assert (∃ k, length h = S k) as [k Hk] by (destruct (length h); [lia|by eexists]).
  rewrite Hk, add_member_spec by done. cbn [mbind option_bind flat_map]. rewrite foldl_app. by apply IH.
Qed.

Lemma atoms_ok h t : heap_ok h → (t < length h)%nat → has (flags_at h t) TypeFlags.Any = false →
  ∀ m, m ∈ atoms h t → ∃ n, h !! m = Some n ∧ has (Flags n) TypeFlags.Union = false ∧ has (Flags n) TypeFlags.Any = false.
Proof.
  intros Hh Ht Hany m. destruct (lookup_lt_is_Some_2 _ _ Ht) as [n Hn]. unfold atoms, flags_at in *. rewrite Hn in *.
  destruct (has (Flags n) TypeFlags.Union) eqn:Hu.
  - pose proof (union_flags h n (Hh _ _ Hn) Hu) as Hms. rewrite Forall_forall in Hms. intros Hm%Hms.
    destruct (member_ok_inv _ _ Hm) as (n' & ? & ? & _ & ? & _). by exists n'.
  - intros ->%list_elem_of_singleton. by exists n.
Qed.

(** The members that are left once [any] and [unknown] are ruled out. *)
Lemma flat_ok h ts :
  heap_ok h → Forall (λ t, (t < length h)%nat) (args ts) →
  List.find (λ t, has (flags_at h t) TypeFlags.Any) (args ts) = None →
  List.find (λ m, has (flags_at h m) TypeFlags.Unknown) (flat h ts) = None →
  Forall (member_ok h) (flat h ts) ∧ NoDup (flat h ts).
Proof.
  intros Hh Hts Hany Hunk. split; [|apply pushes_NoDup, NoDup_nil_2]. apply Forall_forall. intros m Hm.
  pose proof (List.find_none _ _ Hunk m) as Hu. rewrite <-list_elem_of_In in Hu. specialize (Hu Hm). cbv beta in Hu.
  apply elem_of_pushes in Hm as [Hm%elem_of_nil|[Hm Hnev]]; [done|].
  apply list_elem_of_In, in_flat_map in Hm as (t & Ht & Hm%list_elem_of_In).
  pose proof (List.find_none _ _ Hany t Ht) as Ha. cbv beta in Ha.
  rewrite Forall_forall in Hts. apply list_elem_of_In, Hts in Ht.
  destruct (atoms_ok h t Hh Ht Ha m Hm) as (n & Hn & Hnu & Hna). exists n. split; [done|].
  unfold flags_at in *. rewrite Hn in *. by repeat constructor.
Qed.

(** ** Reduction *)

Lemma elem_of_lfilter {A} (p : A → bool) l x : x ∈ List.filter p l ↔ x ∈ l ∧ p x = true.
Proof. rewrite !list_elem_of_In, filter_In. done. Qed.

Lemma lfilter_NoDup {A} (p : A → bool) (l : list A) : NoDup l → NoDup (List.filter p l).
Proof. rewrite !NoDup_ListNoDup. apply List.NoDup_filter. Qed.

Definition number_mask : Z := Z.lor TypeFlags.Number TypeFlags.NumberLiteral.
Definition has_arith (h : list Ty) (ms : list TypeId) : Prop := ∃ m, m ∈ ms ∧ arith_at h m = true.

Lemma has_arith_spec h ms : existsb (arith_at h) ms = true ↔ has_arith h ms.
Proof. rewrite existsb_exists. split; intros (m & Hm & ?); exists m; (split; [by apply list_elem_of_In|done]). Qed.

Lemma elem_of_absorb h ms x :
  x ∈ absorb_numbers h ms ↔ x ∈ ms ∧ (has_arith h ms → arith_at h x = true ∨ has (flags_at h x) number_mask = false).
Proof.
  unfold absorb_numbers. destruct (existsb (arith_at h) ms) eqn:He.
  - rewrite elem_of_lfilter, orb_true_iff, negb_true_iff. apply has_arith_spec in He. unfold number_mask. tauto.
  - assert (¬ has_arith h ms) as Hn by (rewrite <-has_arith_spec; congruence). tauto.
Qed.

Lemma absorb_NoDup h ms : NoDup ms → NoDup (absorb_numbers h ms).
Proof. intros Hd. unfold absorb_numbers. destruct (existsb _ _); [by apply lfilter_NoDup|done]. Qed.

Definition prim (b : Z) : Prop := b ∈ [TypeFlags.String; TypeFlags.Number; TypeFlags.Boolean; TypeFlags.BigInt].

Lemma has_lor_left a b f : has (Z.lor a b) f = has a f || has b f.
Proof. unfold has. rewrite !(Z.land_comm _ f). apply (has_lor f a b). Qed.

Lemma has_prim_mask f b : prim b → has (Z.land f prim_mask) b = has f b.
Proof.
  intros Hb. unfold has. do 2 f_equal. rewrite <-Z.land_assoc. f_equal.
  unfold prim in Hb. rewrite !elem_of_cons in Hb. destruct Hb as [-> |[-> |[-> |[-> |Hb%elem_of_nil]]]]; done.
Qed.

Lemma prims_of_spec h ms b : prim b → has (prims_of h ms) b = true ↔ prims_in h ms b.
Proof.
  intros Hb. unfold prims_of, prims_in.
  assert (∀ p, has (foldl (λ p m, Z.lor p (Z.land (flags_at h m) prim_mask)) p ms) b = true
    ↔ has p b = true ∨ ∃ m, m ∈ ms ∧ has (flags_at h m) b = true) as H.
  { induction ms as [|m ms IH]; intros p; cbn [foldl].
    - split; [by left|]. intros [?|(m & ?%elem_of_nil & _)]; done.
    - rewrite IH, has_lor_left, orb_true_iff, has_prim_mask by done. setoid_rewrite elem_of_cons. split.
      + intros [[?|?]|(x & ? & ?)]; [by left|right; exists m; split; [by left|done]|right; exists x; split; [by right|done]].
      + intros [?|(x & [->|?] & ?)]; [by left; left|by left; right|right; by exists x]. }
  rewrite H. unfold has at 1. cbn. split; [intros [?|?]; done|by right].
Qed.

Lemma base_of_prim f : base_of f ≠ 0 → prim (base_of f).
Proof.
  unfold base_of, prim. rewrite !elem_of_cons. repeat (destruct (_ =? _); [tauto|]). done.
Qed.

(** The primitive a member is a literal of. *)
Definition literal_base (h : list Ty) (m : TypeId) : Z := base_of (Z.land (flags_at h m) TypeFlags.Literal).
Definition redundant (h : list Ty) (ms : list TypeId) (m : TypeId) : Prop :=
  literal_base h m ≠ 0 ∧ prims_in h ms (literal_base h m).
Definition reduce_pure (h : list Ty) (ms : list TypeId) : list TypeId := drop_literals h (prims_of h ms) ms.

Lemma elem_of_reduce h ms x : x ∈ reduce_pure h ms ↔ x ∈ ms ∧ ¬ redundant h ms x.
Proof.
  unfold reduce_pure, drop_literals, redundant. rewrite elem_of_lfilter. cbv zeta. fold (literal_base h x).
  rewrite negb_true_iff, <-not_true_iff_false, andb_true_iff, negb_true_iff, Z.eqb_neq.
  destruct (Z.eq_dec (literal_base h x) 0) as [He|Hne]; [tauto|]. rewrite prims_of_spec by (by apply base_of_prim). tauto.
Qed.

Lemma reduce_NoDup h ms : NoDup ms → NoDup (reduce_pure h ms).
Proof. apply lfilter_NoDup. Qed.

(** Both booleans are there, and boolean is not. *)
Definition splits_boolean (h : list Ty) (ms : list TypeId) : Prop :=
  has_literal h "true" ms = true ∧ has_literal h "false" ms = true ∧ ¬ prims_in h ms TypeFlags.Boolean.

Lemma has_literal_spec h v ms :
  has_literal h v ms = true ↔ ∃ m, m ∈ ms ∧ has (flags_at h m) TypeFlags.BooleanLiteral = true ∧ value_at h m = v.
Proof.
  unfold has_literal. rewrite existsb_exists. split; intros (m & Hm & H); exists m; (split; [by apply list_elem_of_In|]).
  - apply andb_true_iff in H as [? H]. by apply bool_decide_eq_true in H.
  - destruct H as [-> ->]. by rewrite bool_decide_true.
Qed.

Lemma prim_Boolean : prim TypeFlags.Boolean.
Proof. unfold prim. rewrite !elem_of_cons. tauto. Qed.

(** A heap that grows keeps what its types are. *)
Lemma prefix_at (h h' : list Ty) m n : h `prefix_of` h' → h !! m = Some n → h' !! m = Some n.
Proof. intros Hp Hn. by eapply prefix_lookup_Some. Qed.

Lemma prims_of_ext h h' ms : (∀ m, m ∈ ms → flags_at h m = flags_at h' m) → prims_of h ms = prims_of h' ms.
Proof.
  unfold prims_of. generalize 0. induction ms as [|m ms IH]; intros p Heq; [done|]. cbn [foldl].
  rewrite (Heq m) by (by left). apply IH. intros x Hx. apply Heq. by right.
Qed.

Lemma flags_at_grow h h' m : h `prefix_of` h' → (m < length h)%nat → flags_at h' m = flags_at h m.
Proof. intros Hp Hm. destruct (lookup_lt_is_Some_2 _ _ Hm) as [n Hn]. unfold flags_at. by rewrite Hn, (prefix_at _ _ _ _ Hp Hn). Qed.

Lemma drop_literals_ext h h' p ms :
  (∀ m, m ∈ ms → flags_at h m = flags_at h' m) → drop_literals h p ms = drop_literals h' p ms.
Proof.
  unfold drop_literals. induction ms as [|m ms IH]; intros Heq; [done|]. cbn [List.filter].
  rewrite (Heq m) by (by left). rewrite IH; [done|]. intros x Hx. apply Heq. by right.
Qed.

(** ** Order *)

Lemma by_id_le addr s a b :
  iwf addr s → (a < length (heap s))%nat → (b < length (heap s))%nat → by_id (heap s) a b ↔ (a ≤ b)%nat.
Proof.
  intros Hs Ha Hb. destruct (lookup_lt_is_Some_2 _ _ Ha) as [n Hn], (lookup_lt_is_Some_2 _ _ Hb) as [m Hm].
  unfold by_id, id_at. rewrite Hn, Hm, (iw_ids _ _ Hs _ _ Hn), (iw_ids _ _ Hs _ _ Hm). unfold tid. lia.
Qed.

#[export] Instance by_id_total h : Total (by_id h).
Proof. intros a b. unfold by_id. lia. Qed.
#[export] Instance by_id_trans h : Transitive (by_id h).
Proof. intros a b c. unfold by_id. lia. Qed.

Lemma sort_members_perm h ms : sort_members h ms ≡ₚ ms.
Proof. apply merge_sort_Permutation. Qed.

Lemma sort_members_sorted addr s ms :
  iwf addr s → Forall (λ m, (m < length (heap s))%nat) ms → NoDup ms → StronglySorted lt (sort_members (heap s) ms).
Proof.
  intros Hs Hms Hd. pose proof (StronglySorted_merge_sort (by_id (heap s)) ms) as Hso.
  fold (sort_members (heap s) ms) in Hso. pose proof (sort_members_perm (heap s) ms) as Hp.
  rewrite <-Hp in Hd, Hms. clear Hp. revert Hso Hd Hms. generalize (sort_members (heap s) ms). clear ms. intros ms Hso.
  induction Hso as [|m ms Hso IH Hm]; intros Hd Hms; [constructor|]. apply NoDup_cons in Hd as [Hnin Hd].
  apply Forall_cons in Hms as [Hlt Hms]. constructor; [by apply IH|]. rewrite Forall_forall in Hm, Hms |- *.
  intros x Hx. specialize (Hm x Hx). apply (by_id_le addr) in Hm; [|done|done|by apply Hms].
  assert (x ≠ m) by (by intros ->). lia.
Qed.

(** A strictly sorted list is known by its elements. *)
Lemma sorted_ext (l1 l2 : list nat) :
  StronglySorted lt l1 → StronglySorted lt l2 → (∀ x, x ∈ l1 ↔ x ∈ l2) → l1 = l2.
Proof.
  intros H1. revert l2. induction H1 as [|a l1 H1 IH Ha]; intros l2 H2 Heq.
  - destruct l2 as [|b l2]; [done|]. assert (b ∈ []) as H by (apply Heq; left). by apply elem_of_nil in H.
  - destruct H2 as [|b l2 H2 Hb]; [assert (a ∈ []) as H by (apply Heq; left); by apply elem_of_nil in H|].
    rewrite Forall_forall in Ha, Hb.
    assert (a = b) as ->.
    { assert (a ∈ b :: l2) as Hab by (apply Heq; left). assert (b ∈ a :: l1) as Hba by (apply Heq; left).
      apply elem_of_cons in Hab as [->|Hab]; [done|]. apply elem_of_cons in Hba as [->|Hba]; [done|].
      apply Hb in Hab. apply Ha in Hba. lia. }
    f_equal. apply IH; [done|]. intros x. specialize (Heq x). rewrite !elem_of_cons in Heq. split; intros Hx.
    + destruct (proj1 Heq) as [->|]; [by right|by apply Ha in Hx; lia|done].
    + destruct (proj2 Heq) as [->|]; [by right|by apply Hb in Hx; lia|done].
Qed.

Lemma reduce_pure_ext h h' ms :
  (∀ m, m ∈ ms → flags_at h m = flags_at h' m) → reduce_pure h ms = reduce_pure h' ms.
Proof. intros Heq. unfold reduce_pure. rewrite (prims_of_ext h h' ms Heq). by apply drop_literals_ext. Qed.

Section union.
Context (addr : SymId → string).
Hypothesis addr_inj : Inj (=) (=) addr.
Hypothesis addr_hex : ∀ s, all_chars hex_char (addr s) = true.
Abbreviation key := (key addr).
Abbreviation iwf := (iwf addr).

(** The type interned under an intrinsic's or a union's key is it. *)
Lemma interned_simple s r t mk :
  iwf s → byKey s !! key r = Some t → match r with RIntrinsic _ | RUnion _ => True | _ => False end →
  made (heap s) r = Some mk → heap s !! t = Some (set_TID (tid t) mk).
Proof.
  intros Hs Ht Hr Hm. destruct (iw_keys _ _ Hs _ _ Ht) as (r' & n & Hc & Hk & Hm' & Hh).
  assert (clean r) as Hcl by (by destruct r). pose proof (key_shape addr addr_inj addr_hex r' r Hc Hcl Hk) as Hsh.
  assert (r' = r) as -> by (destruct r; try done; destruct r'; done). by simplify_eq.
Qed.

Section wp.
Context {X : Empty_set → interner → Prop}.

Lemma intrinsic_ok f h : single f ∧ f ≠ TypeFlags.Union → request_ok h (RIntrinsic f).
Proof. intros H. split; [done|]. split; [constructor|done]. Qed.

(** [reduceLiterals] reduces its members, boolean added when both of its
    literals are there. *)
Lemma wp_reduceLiterals s ms (Q : list TypeId → interner → Prop) :
  iwf s → Forall (member_ok (heap s)) ms → NoDup ms →
  (∀ A s', iwf s' → igrows s s' → Forall (member_ok (heap s')) A → NoDup A →
     ((A = ms ∧ ¬ splits_boolean (heap s) ms ∧ s' = s)
      ∨ ∃ tb, A = ms ++ [tb] ∧ splits_boolean (heap s) ms ∧ byKey s' !! key (RIntrinsic TypeFlags.Boolean) = Some tb
          ∧ heap s' !! tb = Some (set_TID (tid tb) (flag_type TypeFlags.Boolean))) →
     Q (reduce_pure (heap s') A) s') →
  wp (reduceLiterals ms) Q X s.
Proof.
  intros Hs Hms Hd HQ. unfold reduceLiterals. wp_steps.
  destruct (_ && _) eqn:Hb.
  - rewrite !andb_true_iff, negb_true_iff, <-not_true_iff_false, prims_of_spec in Hb by apply prim_Boolean.
    destruct Hb as [[Ht Hf] Hnb]. wp_steps.
    eapply (wp_request addr s (RIntrinsic TypeFlags.Boolean)); [done|by apply intrinsic_ok; split; [exists 4|]|done|].
    intros tb s' Hs' Hg Hk. wp_steps.
    pose proof (interned_simple s' _ tb _ Hs' Hk I eq_refl) as Htb.
    pose proof (ig_heap _ _ Hg) as Hp.
    assert (tb ∉ ms) as Hnew.
    { intros Hin. apply Hnb. exists tb. split; [done|]. rewrite Forall_forall in Hms.
      destruct (Hms _ Hin) as (n & Hn & _). pose proof (prefix_at _ _ _ _ Hp Hn) as Hn'.
      unfold flags_at. rewrite Hn. assert (n = set_TID (tid tb) (flag_type TypeFlags.Boolean)) as -> by congruence. done. }
    assert (Z.lor (prims_of (heap s) ms) TypeFlags.Boolean = prims_of (heap s') (ms ++ [tb])) as ->.
    { unfold prims_of at 2. rewrite foldl_app. cbn [foldl]. fold (prims_of (heap s') ms).
      assert (flags_at (heap s') tb = TypeFlags.Boolean) as -> by (unfold flags_at; by rewrite Htb).
      rewrite (prims_of_ext (heap s) (heap s')); [done|]. intros m Hm. rewrite Forall_forall in Hms.
      destruct (Hms _ Hm) as (n & Hn & _). symmetry. apply flags_at_grow; [done|by eapply lookup_lt_Some]. }
    apply (HQ (ms ++ [tb])); try done.
    + apply Forall_app. split; [|apply Forall_singleton].
      * eapply Forall_impl; [exact Hms|]. intros m. by apply member_ok_mono.
      * eexists. split; [exact Htb|]. by repeat constructor.
    + apply NoDup_app. split_and!; [done|by intros x Hx ->%list_elem_of_singleton|apply NoDup_singleton].
    + right. by exists tb.
  - wp_steps. apply (HQ ms); try done. left. split; [done|]. split; [|done]. intros (Ht & Hf & Hnb).
    rewrite Ht, Hf in Hb. cbn [andb] in Hb. apply negb_false_iff in Hb. by apply prims_of_spec in Hb; [|apply prim_Boolean].
Qed.

Lemma wp_reduce_intrinsic s f (Q : TypeId → interner → Prop) :
  iwf s → single f ∧ f ≠ TypeFlags.Union →
  (∀ t s', iwf s' → igrows s s' → byKey s' !! key (RIntrinsic f) = Some t → Q t s') →
  wp (intrinsic f) Q X s.
Proof.
  intros Hs Hf HQ. eapply (wp_request addr s (RIntrinsic f)); [done|by apply intrinsic_ok|done|].
  intros t s' Hs' Hg Hk. by apply HQ.
Qed.
End wp.

(** The members before literals are dropped: the numbers an [any] arithmetic
    absorbs are gone, boolean is added for its two literals. *)
Definition extended (s s' : interner) (ms A : list TypeId) : Prop :=
  (A = ms ∧ ¬ splits_boolean (heap s) ms)
  ∨ ∃ tb, A = ms ++ [tb] ∧ splits_boolean (heap s) ms ∧ byKey s' !! key (RIntrinsic TypeFlags.Boolean) = Some tb
      ∧ heap s' !! tb = Some (set_TID (tid tb) (flag_type TypeFlags.Boolean)).

(** What [union] answers. *)
Inductive union_result (s : interner) (ts : list (option TypeId)) : TypeId → interner → Prop :=
  | ur_any t : List.find (λ t, has (flags_at (heap s) t) TypeFlags.Any) (args ts) = Some t → union_result s ts t s
  | ur_unknown t :
      List.find (λ t, has (flags_at (heap s) t) TypeFlags.Any) (args ts) = None →
      List.find (λ m, has (flags_at (heap s) m) TypeFlags.Unknown) (flat (heap s) ts) = Some t → union_result s ts t s
  | ur_members A t s' :
      List.find (λ t, has (flags_at (heap s) t) TypeFlags.Any) (args ts) = None →
      List.find (λ m, has (flags_at (heap s) m) TypeFlags.Unknown) (flat (heap s) ts) = None →
      iwf s' → igrows s s' → Forall (member_ok (heap s')) A → NoDup A →
      extended s s' (absorb_numbers (heap s) (flat (heap s) ts)) A →
      match sort_members (heap s') (reduce_pure (heap s') A) with
      | [] => byKey s' !! key (RIntrinsic TypeFlags.Never) = Some t
      | [m] => t = m
      | ms => canonical (heap s') ms ∧ byKey s' !! key (RUnion ms) = Some t
      end → union_result s ts t s'.

Lemma member_ok_lt h m : member_ok h m → (m < length h)%nat.
Proof. intros (n & Hn & _). by eapply lookup_lt_Some. Qed.

Lemma member_single h m : heap_ok h → member_ok h m → single (flags_at h m).
Proof. intros Hh (n & Hn & _). unfold flags_at. rewrite Hn. by destruct (Hh _ _ Hn). Qed.

(** A boolean literal is redundant beside boolean. *)
Lemma boolean_literal_base h m :
  heap_ok h → member_ok h m → has (flags_at h m) TypeFlags.BooleanLiteral = true → literal_base h m = TypeFlags.Boolean.
Proof.
  intros Hh Hm Hf. apply single_has in Hf; [|by apply member_single|by exists 12]. unfold literal_base. by rewrite Hf.
Qed.

Lemma canonical_reduced s s' ms A :
  iwf s' → Forall (member_ok (heap s')) A → NoDup A → igrows s s' → Forall (member_ok (heap s)) ms →
  extended s s' (absorb_numbers (heap s) ms) A → (2 ≤ length (reduce_pure (heap s') A))%nat →
  canonical (heap s') (sort_members (heap s') (reduce_pure (heap s') A)).
Proof.
  intros Hs' HA Hd Hg Hms Hext Hlen. set (R := reduce_pure (heap s') A) in *.
  pose proof (sort_members_perm (heap s') R) as Hperm.
  assert (∀ x, x ∈ sort_members (heap s') R ↔ x ∈ A ∧ ¬ redundant (heap s') A x) as Hin.
  { intros x. rewrite Hperm. apply elem_of_reduce. }
  assert (heap_ok (heap s')) as Hh by exact (iw_types _ _ Hs'). rewrite Forall_forall in HA.
  assert (∀ b, prims_in (heap s') (sort_members (heap s') R) b → prims_in (heap s') A b) as Hprims.
  { intros b (m & [Hm _]%Hin & Hf). by exists m. }
  constructor.
  - apply Forall_forall. intros x [Hx _]%Hin. by apply HA.
  - eapply sort_members_sorted; [done| |by apply reduce_NoDup].
    apply Forall_forall. intros x [Hx _]%elem_of_reduce. by apply member_ok_lt, HA.
  - by rewrite Hperm.
  - intros m b [Hm Hr]%Hin <- Hb Hp. apply Hr. split; [done|]. by apply Hprims.
  - intros [(m1 & [Hm1 Hr1]%Hin & Hf1 & Hv1)%has_literal_spec (m2 & [Hm2 _]%Hin & Hf2 & Hv2)%has_literal_spec].
    assert (¬ prims_in (heap s') A TypeFlags.Boolean) as Hnb.
    { intros Hp. apply Hr1. unfold redundant. rewrite boolean_literal_base by auto. done. }
    destruct Hext as [[-> Hns]|(tb & -> & _ & _ & Htb)].
    + apply Hns. rewrite Forall_forall in Hms.
      assert (∀ m, m ∈ absorb_numbers (heap s) ms → flags_at (heap s) m = flags_at (heap s') m ∧ value_at (heap s) m = value_at (heap s') m) as Hsame.
      { intros m [Hm _]%elem_of_absorb. destruct (Hms _ Hm) as (n & Hn & _).
        pose proof (prefix_at _ _ _ _ (ig_heap _ _ Hg) Hn) as Hn'. unfold flags_at, value_at. by rewrite Hn, Hn'. }
      split_and!.
      * apply has_literal_spec. exists m1. destruct (Hsame _ Hm1) as [-> ->]. done.
      * apply has_literal_spec. exists m2. destruct (Hsame _ Hm2) as [-> ->]. done.
      * intros (m & Hm & Hf). apply Hnb. exists m. split; [done|]. by destruct (Hsame _ Hm) as [<- _].
    + apply Hnb. exists tb. split; [apply elem_of_app; right; by left|]. unfold flags_at. by rewrite Htb.
  - intros (m & [Hm _]%Hin & Hma) x [Hx _]%Hin Hxa. rewrite Forall_forall in Hms.
    assert (∀ y, y ∈ absorb_numbers (heap s) ms → y ∈ ms ∧ flags_at (heap s') y = flags_at (heap s) y ∧ arith_at (heap s') y = arith_at (heap s) y) as Hsame.
    { intros y [Hy _]%elem_of_absorb. split; [done|]. destruct (Hms _ Hy) as (n & Hn & _).
      pose proof (prefix_at _ _ _ _ (ig_heap _ _ Hg) Hn) as Hn'. unfold flags_at, arith_at. by rewrite Hn, Hn'. }
    assert (∀ tb, heap s' !! tb = Some (set_TID (tid tb) (flag_type TypeFlags.Boolean)) →
      flags_at (heap s') tb = TypeFlags.Boolean ∧ arith_at (heap s') tb = false) as Hbool.
    { intros tb Htb. unfold flags_at, arith_at. by rewrite Htb. }
    assert (m ∈ absorb_numbers (heap s) ms ∧ (x ∈ absorb_numbers (heap s) ms ∨ flags_at (heap s') x = TypeFlags.Boolean)) as [Hm' Hx'].
    { destruct Hext as [[-> _]|(tb & -> & _ & _ & Htb)]; [tauto|]. destruct (Hbool _ Htb) as [Hbf Hba].
      rewrite elem_of_app, list_elem_of_singleton in Hm, Hx. split; [destruct Hm as [?| ->]; [done|congruence]|].
      destruct Hx as [?| ->]; [by left|by right]. }
    destruct (Hsame _ Hm') as (Hmm & _ & Hmar). destruct Hx' as [Hx'| ->]; [|done].
    destruct (Hsame _ Hx') as (_ & -> & Hxar). apply elem_of_absorb in Hx' as [_ Hx'].
    destruct Hx' as [?|?]; [exists m; by rewrite <-Hmar|congruence|done].
Qed.

Lemma wp_union {X : Empty_set → interner → Prop} s ts (Q : TypeId → interner → Prop) :
  iwf s → Forall (λ t, (t < length (heap s))%nat) (args ts) →
  (∀ t s', union_result s ts t s' → iwf s' → igrows s s' → Q t s') → wp (union ts) Q X s.
Proof.
  intros Hs Hts HQ. assert (heap_ok (heap s)) as Hh by exact (iw_types _ _ Hs). unfold union. wp_steps. rewrite add_all_spec by done.
  destruct (List.find _ (args ts)) as [any|] eqn:Hany; [wp_steps; by apply HQ; [apply ur_any|..]|].
  fold (flat (heap s) ts). destruct (List.find _ (flat (heap s) ts)) as [u|] eqn:Hunk; [wp_steps; by apply HQ; [apply ur_unknown|..]|].
  destruct (flat_ok _ ts Hh Hts Hany Hunk) as [Hok Hd]. wp_steps. apply wp_reduceLiterals; [done| |by apply absorb_NoDup|].
  { rewrite Forall_forall in Hok |- *. intros x [Hx _]%elem_of_absorb. by apply Hok. }
  intros A s1 Hs1 Hg1 HA HdA Hext0. assert (extended s s1 (absorb_numbers (heap s) (flat (heap s) ts)) A) as Hext.
  { destruct Hext0 as [(-> & ? & _)|?]; [by left|by right]. } clear Hext0.
  pose proof (canonical_reduced s s1 _ A Hs1 HA HdA Hg1 Hok Hext) as Hcan.
  destruct (reduce_pure (heap s1) A) as [|m [|m' ms]] eqn:HR.
  - apply wp_reduce_intrinsic; [done|by split; [exists 9|]|]. intros t s2 Hs2 Hg2 Ht.
    assert (igrows s s2) as Hg by (by etrans).
    assert (Forall (member_ok (heap s2)) A) as HA2 by (eapply Forall_impl; [exact HA|]; intros x; apply member_ok_mono, Hg2).
    apply HQ; [|done|done]. eapply (ur_members _ _ A); try done.
    + destruct Hext as [?|(tb & ? & ? & Hkb & Htb)]; [by left|right]. exists tb. do 2 (split; [done|]). split; [by apply (ig_keys _ _ Hg2)|].
      by apply (prefix_at _ _ _ _ (ig_heap _ _ Hg2)).
    + assert (reduce_pure (heap s2) A = []) as ->; [|done]. rewrite <-HR. symmetry. apply reduce_pure_ext. intros x Hx.
      rewrite Forall_forall in HA. symmetry. apply flags_at_grow; [apply Hg2|]. by apply member_ok_lt, HA.
  - wp_steps. apply HQ; [|done|done]. eapply (ur_members _ _ A); try done. by rewrite HR.
  - wp_steps. set (ms0 := sort_members (heap s1) (m :: m' :: ms)) in *.
    assert (canonical (heap s1) ms0) as Hc by (apply Hcan; cbn; lia).
    assert (request_ok (heap s1) (RUnion ms0)) as Hreq.
    { split; [done|]. split; [|done]. eapply Forall_impl; [apply Hc|]. intros x. apply member_ok_lt. }
    eapply (wp_ids addr); [done|apply Hreq|]. eapply (wp_interned addr s1 (RUnion ms0)); [done..|].
    intros t s2 Hs2 Hg2 Ht. assert (igrows s s2) as Hg by (by etrans).
    assert (Forall (member_ok (heap s2)) A) as HA2 by (eapply Forall_impl; [exact HA|]; intros x; apply member_ok_mono, Hg2).
    apply HQ; [|done|done]. eapply (ur_members _ _ A); try done.
    + destruct Hext as [?|(tb & ? & ? & Hkb & Htb)]; [by left|right]. exists tb. do 2 (split; [done|]). split; [by apply (ig_keys _ _ Hg2)|].
      by apply (prefix_at _ _ _ _ (ig_heap _ _ Hg2)).
    + assert (reduce_pure (heap s2) A = m :: m' :: ms) as HR2.
      { rewrite <-HR. symmetry. apply reduce_pure_ext. intros x Hx. rewrite Forall_forall in HA. symmetry.
        apply flags_at_grow; [apply Hg2|]. by apply member_ok_lt, HA. }
      assert (extended s s2 (absorb_numbers (heap s) (flat (heap s) ts)) A) as Hext2.
      { destruct Hext as [?|(tb & ? & ? & Hkb & Htb)]; [by left|right]. exists tb. do 2 (split; [done|]). split; [by apply (ig_keys _ _ Hg2)|].
        by apply (prefix_at _ _ _ _ (ig_heap _ _ Hg2)). }
      pose proof (canonical_reduced s s2 _ A Hs2 HA2 HdA Hg Hok Hext2) as Hcan2. rewrite HR2 in Hcan2 |- *.
      specialize (Hcan2 ltac:(cbn; lia)).
      assert (sort_members (heap s2) (m :: m' :: ms) = ms0) as Heq.
      { apply sorted_ext; [apply Hcan2|apply Hc|]. intros x. unfold ms0. by rewrite !sort_members_perm. }
      rewrite Heq in Hcan2 |- *. pose proof (ca_many _ _ Hc) as Hl. destruct ms0 as [|x [|y l]]; cbn in Hl; [lia|lia|done].
Qed.
End union.

(** ** Asking for a union again, and what a union stands for *)

Section again.
Context (addr : SymId → string).
Hypothesis addr_inj : Inj (=) (=) addr.
Hypothesis addr_hex : ∀ s, all_chars hex_char (addr s) = true.
Abbreviation key := (key addr).
Abbreviation iwf := (iwf addr).

(** ** When every key is known nothing is made *)

Lemma intern_hit s k mk t : byKey s !! k = Some t → intern k mk s = (Ok t, s).
Proof. intros Hk. unfold intern, mbind, InternM_bind, M_bind. cbn. by rewrite Hk. Qed.

Lemma ids_exact s ts :
  iwf s → Forall (λ t, (t < length (heap s))%nat) ts → ids ts s = (Ok (ids_string ts), s).
Proof.
  intros Hs Hts. pose proof (wp_ids addr s ts (λ k s', k = ids_string ts ∧ s' = s) Hs Hts (conj eq_refl eq_refl) (X := λ _ _, False)) as H.
  unfold wp in H. destruct (ids ts s) as [[k| | |] s']; try done. by destruct H as [-> ->].
Qed.

Lemma reduceLiterals_kept s ms :
  ¬ splits_boolean (heap s) ms → reduceLiterals ms s = (Ok (reduce_pure (heap s) ms), s).
Proof.
  intros Hns. unfold reduceLiterals, mbind, InternM_bind, M_bind. cbn.
  assert (has_literal (heap s) "true" ms && has_literal (heap s) "false" ms && negb (has (prims_of (heap s) ms) TypeFlags.Boolean) = false) as ->; [|done].
  apply not_true_iff_false. rewrite !andb_true_iff, negb_true_iff, <-not_true_iff_false, prims_of_spec by apply prim_Boolean.
  intros [[? ?] ?]. by apply Hns.
Qed.

Lemma reduceLiterals_split s ms tb :
  iwf s → Forall (member_ok (heap s)) ms → splits_boolean (heap s) ms → byKey s !! key (RIntrinsic TypeFlags.Boolean) = Some tb →
  reduceLiterals ms s = (Ok (reduce_pure (heap s) (ms ++ [tb])), s).
Proof.
  intros Hs Hms (Ht & Hf & Hnb) Hkb. unfold reduceLiterals, mbind, InternM_bind, M_bind. cbn.
  assert (has (prims_of (heap s) ms) TypeFlags.Boolean = false) as Hb.
  { apply not_true_iff_false. by rewrite prims_of_spec by apply prim_Boolean. }
  rewrite Ht, Hf, Hb. cbn [negb andb]. unfold intrinsic. rewrite (intern_hit s _ _ tb Hkb).
  pose proof (interned_simple addr addr_inj addr_hex s (RIntrinsic TypeFlags.Boolean) tb _ Hs Hkb I eq_refl) as Htb.
  unfold reduce_pure. do 3 f_equal. unfold prims_of at 2. rewrite foldl_app. cbn [foldl]. fold (prims_of (heap s) ms).
  assert (flags_at (heap s) tb = TypeFlags.Boolean) as -> by (unfold flags_at; by rewrite Htb). done.
Qed.

(** The members of a union as asked for, and the type that answers it. *)
Definition answers (s : interner) (R : list TypeId) (t : TypeId) : Prop :=
  match sort_members (heap s) R with
  | [] => byKey s !! key (RIntrinsic TypeFlags.Never) = Some t
  | [m] => t = m
  | ms => byKey s !! key (RUnion ms) = Some t
  end.

Lemma answers_ext s R R' t :
  iwf s → Forall (member_ok (heap s)) R → Forall (member_ok (heap s)) R' → NoDup R → NoDup R' →
  (∀ x, x ∈ R ↔ x ∈ R') → answers s R t → answers s R' t.
Proof.
  intros Hs HR HR' Hd Hd' Heq. unfold answers.
  assert (sort_members (heap s) R = sort_members (heap s) R') as ->; [|done].
  apply sorted_ext.
  - eapply sort_members_sorted; [done| |done]. eapply Forall_impl; [exact HR|]. apply member_ok_lt.
  - eapply sort_members_sorted; [done| |done]. eapply Forall_impl; [exact HR'|]. apply member_ok_lt.
  - intros x. by rewrite !sort_members_perm.
Qed.

(** [union] ends with the type that answers what [reduceLiterals] leaves. *)
Lemma union_exact s ts R t :
  iwf s → Forall (λ t, (t < length (heap s))%nat) (args ts) →
  List.find (λ t, has (flags_at (heap s) t) TypeFlags.Any) (args ts) = None →
  List.find (λ m, has (flags_at (heap s) m) TypeFlags.Unknown) (flat (heap s) ts) = None →
  reduceLiterals (absorb_numbers (heap s) (flat (heap s) ts)) s = (Ok R, s) →
  Forall (member_ok (heap s)) R → answers s R t → union ts s = (Ok t, s).
Proof.
  intros Hs Hts Hany Hunk Hred HR Ht. unfold union, mbind, InternM_bind, M_bind, get. cbv beta iota zeta.
  rewrite add_all_spec by (done || exact (iw_types _ _ Hs)). rewrite Hany. fold (flat (heap s) ts). rewrite Hunk, Hred. cbv beta iota zeta.
  unfold answers in Ht. pose proof (sort_members_perm (heap s) R) as Hperm.
  destruct R as [|m [|m' ms]].
  - apply Permutation_nil_r in Hperm. rewrite Hperm in Ht. by apply intern_hit.
  - apply Permutation_singleton_r in Hperm. rewrite Hperm in Ht. by subst.
  - rewrite ids_exact; [|done|].
    + apply intern_hit. apply Permutation_length in Hperm. destruct (sort_members _ _) as [|x [|y l]]; cbn in Hperm; [lia|lia|done].
    + eapply Forall_impl; [by rewrite Hperm|]. apply member_ok_lt.
Qed.

(** ** The same members again *)

Section stable.
Context (s : interner) (Hs : iwf s) (F A F' : list TypeId).
Let h := heap s.
Context (HF : Forall (member_ok h) F) (HA : Forall (member_ok h) A) (HdA : NoDup A) (HdF' : NoDup F').
Context (Hext : extended addr s s (absorb_numbers h F) A).
Let R := reduce_pure h A.

Lemma arith_number x : arith_at h x = true → flags_at h x = TypeFlags.Number.
Proof.
  unfold arith_at, flags_at. destruct (h !! x) as [n|] eqn:Hn; [|done]. intros Ha.
  by apply (iw_types _ _ Hs _ _ Hn).
Qed.

Lemma prim_base x b : member_ok h x → prim b → has (flags_at h x) b = true → literal_base h x = 0.
Proof.
  intros Hx Hb Hf. assert (single b) as Hsb.
  { unfold prim in Hb. rewrite !elem_of_cons in Hb. destruct Hb as [-> |[-> |[-> |[-> |Hb%elem_of_nil]]]]; [by exists 2|by exists 3|by exists 4|by exists 5|done]. }
  apply single_has in Hf; [|by eapply member_single; [exact (iw_types _ _ Hs)|]|done]. unfold literal_base. rewrite Hf.
  unfold prim in Hb. rewrite !elem_of_cons in Hb. by destruct Hb as [-> |[-> |[-> |[-> |Hb%elem_of_nil]]]].
Qed.

Lemma stable_again :
  (∀ x, x ∈ R → x ∈ F') → (∀ x, x ∈ F' → x ∈ R ∨ x ∈ F) →
  ¬ splits_boolean h (absorb_numbers h F') ∧ ∀ x, x ∈ reduce_pure h (absorb_numbers h F') ↔ x ∈ R.
Proof.
  intros HRF HFR. rewrite Forall_forall in HA.
  assert (∀ tb, h !! tb = Some (set_TID (tid tb) (flag_type TypeFlags.Boolean)) → flags_at h tb = TypeFlags.Boolean ∧ arith_at h tb = false) as Hbool.
  { intros tb Htb. unfold flags_at, arith_at. by rewrite Htb. }
  assert (∀ x, x ∈ A → x ∈ absorb_numbers h F ∨ flags_at h x = TypeFlags.Boolean ∧ arith_at h x = false) as HAB.
  { intros x Hx. destruct Hext as [[-> _]|(tb & -> & _ & _ & Htb)]; [by left|]. rewrite elem_of_app, list_elem_of_singleton in Hx.
    destruct Hx as [?| ->]; [by left|right; by apply Hbool]. }
  assert (∀ x, x ∈ absorb_numbers h F → x ∈ A) as HBA.
  { intros x Hx. destruct Hext as [[-> _]|(tb & -> & _)]; [done|]. apply elem_of_app. by left. }
  assert (∀ x, x ∈ R → x ∈ A ∧ ¬ redundant h A x) as HR by (intros x; apply elem_of_reduce).
  assert (has_arith h F' → has_arith h F) as Harith.
  { intros (m & Hm & Ha). exists m. split; [|done]. destruct (HFR _ Hm) as [[HmA _]%HR|?]; [|done].
    destruct (HAB _ HmA) as [[? _]%elem_of_absorb|[_ ?]]; [done|congruence]. }
  assert (∀ x, x ∈ R → x ∈ absorb_numbers h F') as HRB.
  { intros x Hx. apply elem_of_absorb. split; [by apply HRF|]. intros Hh%Harith. apply HR in Hx as [Hx _].
    destruct (HAB _ Hx) as [[_ Hc]%elem_of_absorb|[-> _]]; [by apply Hc|by right]. }
  assert (∀ x, x ∈ absorb_numbers h F' → x ∈ A) as HB'A.
  { intros x [Hx Hc]%elem_of_absorb. destruct (HFR _ Hx) as [[? _]%HR|HxF]; [done|]. apply HBA, elem_of_absorb. split; [done|].
    intros (m & Hm & Hma). apply Hc. exists m. split; [|done]. apply HRF, elem_of_reduce.
    assert (m ∈ A) as HmA by (apply HBA, elem_of_absorb; split; [done|by left]). split; [done|].
    intros [Hne _]. apply Hne. apply (prim_base m TypeFlags.Number); [by apply HA| |by rewrite (arith_number _ Hma)].
    unfold prim. rewrite !elem_of_cons. tauto. }
  assert (∀ b, prim b → prims_in h A b ↔ prims_in h (absorb_numbers h F') b) as Hprims.
  { intros b Hb. split; intros (m & Hm & Hf); exists m; (split; [|done]); [|by apply HB'A]. apply HRB, elem_of_reduce.
    split; [done|]. intros [Hne _]. apply Hne. by apply (prim_base m b); [apply HA|..]. }
  split.
  - intros ((m1 & Hm1 & Hf1)%has_literal_spec & (m2 & Hm2 & Hf2)%has_literal_spec & Hnb).
    rewrite <-Hprims in Hnb by apply prim_Boolean. destruct Hext as [[-> Hns]|(tb & -> & _ & _ & Htb)].
    + apply Hns. split_and!; [apply has_literal_spec; exists m1; split; [by apply HB'A|done]
        |apply has_literal_spec; exists m2; split; [by apply HB'A|done]|done].
    + apply Hnb. exists tb. split; [apply elem_of_app; right; by left|]. by destruct (Hbool _ Htb) as [-> _].
  - intros x. rewrite elem_of_reduce. unfold redundant. split.
    + intros [Hx Hr]. apply elem_of_reduce. split; [by apply HB'A|]. intros [Hne Hp]. apply Hr. split; [done|].
      by apply Hprims in Hp; [|apply base_of_prim].
    + intros Hx. split; [by apply HRB|]. intros [Hne Hp]. apply HR in Hx as [_ Hr]. apply Hr. split; [done|].
      by apply Hprims in Hp; [|apply base_of_prim].
Qed.
End stable.

(** What the members are does not change as the heap grows. *)
Lemma member_grow s s' m :
  igrows s s' → member_ok (heap s) m →
  flags_at (heap s') m = flags_at (heap s) m ∧ arith_at (heap s') m = arith_at (heap s) m ∧ value_at (heap s') m = value_at (heap s) m.
Proof.
  intros Hg (n & Hn & _). pose proof (prefix_at _ _ _ _ (ig_heap _ _ Hg) Hn) as Hn'.
  unfold flags_at, arith_at, value_at. by rewrite Hn, Hn'.
Qed.

Lemma absorb_grow s s' ms :
  igrows s s' → Forall (member_ok (heap s)) ms → absorb_numbers (heap s') ms = absorb_numbers (heap s) ms.
Proof.
  intros Hg Hms. unfold absorb_numbers.
  assert (existsb (arith_at (heap s')) ms = existsb (arith_at (heap s)) ms) as ->.
  { induction Hms as [|m ms Hm _ IH]; [done|]. cbn. rewrite IH. by destruct (member_grow _ _ _ Hg Hm) as (_ & -> & _). }
  destruct (existsb _ _); [|done]. induction Hms as [|m ms Hm _ IH]; [done|]. cbn [List.filter].
  destruct (member_grow _ _ _ Hg Hm) as (-> & -> & _). by rewrite IH.
Qed.

Lemma splits_grow s s' ms :
  igrows s s' → Forall (member_ok (heap s)) ms → splits_boolean (heap s') ms ↔ splits_boolean (heap s) ms.
Proof.
  intros Hg Hms. rewrite Forall_forall in Hms. unfold splits_boolean, prims_in. rewrite !has_literal_spec.
  assert (∀ P : TypeId → Z → string → Prop, (∃ m, m ∈ ms ∧ P m (flags_at (heap s') m) (value_at (heap s') m)) ↔ ∃ m, m ∈ ms ∧ P m (flags_at (heap s) m) (value_at (heap s) m)) as H.
  { intros P. split; intros (m & Hm & HP); exists m; (split; [done|]); destruct (member_grow _ _ _ Hg (Hms _ Hm)) as (Hf & _ & Hv); congruence. }
  rewrite (H (λ _ f v, has f TypeFlags.BooleanLiteral = true ∧ v = "true"%string)), (H (λ _ f v, has f TypeFlags.BooleanLiteral = true ∧ v = "false"%string)), (H (λ _ f _, has f TypeFlags.Boolean = true)). done.
Qed.

Lemma extended_grow s s' F A :
  igrows s s' → Forall (member_ok (heap s)) F → extended addr s s' (absorb_numbers (heap s) F) A →
  extended addr s' s' (absorb_numbers (heap s') F) A.
Proof.
  intros Hg HF Hext. rewrite (absorb_grow s s') by done.
  assert (Forall (member_ok (heap s)) (absorb_numbers (heap s) F)) as HB.
  { rewrite Forall_forall in HF |- *. intros x [Hx _]%elem_of_absorb. by apply HF. }
  destruct Hext as [[-> Hns]|(tb & -> & Hsp & Hk & Htb)].
  - left. split; [done|]. by rewrite (splits_grow s s').
  - right. exists tb. split; [done|]. by rewrite (splits_grow s s').
Qed.

Lemma elem_of_flat h ts x :
  x ∈ flat h ts ↔ (∃ a, a ∈ args ts ∧ x ∈ atoms h a) ∧ has (flags_at h x) TypeFlags.Never = false.
Proof.
  unfold flat. rewrite elem_of_pushes. split.
  - intros [?%elem_of_nil|[Hx Hn]]; [done|]. split; [|done]. apply list_elem_of_In, in_flat_map in Hx as (a & ? & ?).
    exists a. by rewrite !list_elem_of_In.
  - intros [(a & Ha & Hx) Hn]. right. split; [|done]. apply list_elem_of_In, in_flat_map. exists a. by rewrite <-!list_elem_of_In.
Qed.

Lemma find_none_spec {A} (p : A → bool) l : List.find p l = None ↔ ∀ x, x ∈ l → p x = false.
Proof.
  split; [intros H x Hx; by apply (List.find_none _ _ H), list_elem_of_In|]. intros H.
  destruct (List.find p l) as [y|] eqn:Hf; [|done]. apply List.find_some in Hf as [Hy Hp]. apply list_elem_of_In, H in Hy. congruence.
Qed.

Lemma find_unique {A} (p : A → bool) l x :
  x ∈ l → p x = true → (∀ y, y ∈ l → p y = true → y = x) → List.find p l = Some x.
Proof.
  intros Hx Hp Huniq. destruct (List.find p l) as [y|] eqn:Hf.
  - apply List.find_some in Hf as [Hy Hpy]. f_equal. by apply Huniq; [apply list_elem_of_In|].
  - rewrite find_none_spec in Hf. rewrite (Hf x Hx) in Hp. done.
Qed.

(** The members the answer itself brings to a union are those it was made of. *)
Lemma answer_atoms s R t :
  iwf s → Forall (member_ok (heap s)) R → answers s R t → (t < length (heap s))%nat ∧ has (flags_at (heap s) t) TypeFlags.Any = false
    ∧ ∀ x, x ∈ atoms (heap s) t ∧ has (flags_at (heap s) x) TypeFlags.Never = false ↔ x ∈ R.
Proof.
  intros Hs HR Ht. unfold answers in Ht. pose proof (sort_members_perm (heap s) R) as Hperm. rewrite Forall_forall in HR.
  destruct (sort_members (heap s) R) as [|m [|m' ms]] eqn:Hso.
  - apply Permutation_nil_l in Hperm. subst R.
    pose proof (interned_simple addr addr_inj addr_hex s (RIntrinsic TypeFlags.Never) t _ Hs Ht I eq_refl) as Hn.
    assert (flags_at (heap s) t = TypeFlags.Never) as Hf by (unfold flags_at; by rewrite Hn).
    split; [by eapply lookup_lt_Some|]. rewrite Hf. split; [done|]. intros x. unfold atoms. rewrite Hn. cbn [Flags set_TID flag_type].
    change (has TypeFlags.Never TypeFlags.Union) with false. cbn iota. rewrite list_elem_of_singleton. split; [|by intros ?%elem_of_nil].
    intros [-> Hx]. rewrite Hf in Hx. done.
  - apply Permutation_singleton_l in Hperm as <-. subst t.
    destruct (member_ok_inv _ _ (HR m ltac:(by left))) as (n & Hn & Hu & Hnev & Hany & _).
    unfold flags_at, atoms. rewrite Hn. split; [by eapply lookup_lt_Some|]. split; [done|]. intros x. rewrite Hu, list_elem_of_singleton.
    split; [by intros [-> _]|]. intros ->. by rewrite Hn.
  - pose proof (interned_simple addr addr_inj addr_hex s (RUnion (m :: m' :: ms)) t _ Hs Ht I eq_refl) as Hn.
    assert (flags_at (heap s) t = TypeFlags.Union) as Hf by (unfold flags_at; by rewrite Hn).
    split; [by eapply lookup_lt_Some|]. rewrite Hf. split; [done|]. intros x. unfold atoms. rewrite Hn. cbn [Flags set_TID union_type Types].
    change (has TypeFlags.Union TypeFlags.Union) with true. cbn iota. rewrite <-Hperm. split; [by intros [? _]|]. intros Hx. split; [done|].
    rewrite Hperm in Hx. destruct (member_ok_inv _ _ (HR x Hx)) as (n' & Hn' & _ & Hnev & _). unfold flags_at. by rewrite Hn'.
Qed.

(** At most one of the arguments' types is [any], at most one member is
    [unknown]. *)
Definition one_top (h : list Ty) (ts : list (option TypeId)) : Prop :=
  (∀ a b, a ∈ args ts → b ∈ args ts → has (flags_at h a) TypeFlags.Any = true → has (flags_at h b) TypeFlags.Any = true → a = b)
  ∧ (∀ a b, a ∈ flat h ts → b ∈ flat h ts → has (flags_at h a) TypeFlags.Unknown = true → has (flags_at h b) TypeFlags.Unknown = true → a = b).

(** The arguments of the second union are of the first, or its answer. *)
Definition asks_again (ts ts' : list (option TypeId)) (t : TypeId) : Prop :=
  (∀ x, x ∈ args ts' → x = t ∨ x ∈ args ts) ∧ (t ∈ args ts' ∨ ∀ x, x ∈ args ts → x ∈ args ts').

Lemma union_any s ts t :
  iwf s → Forall (λ t, (t < length (heap s))%nat) (args ts) →
  List.find (λ t, has (flags_at (heap s) t) TypeFlags.Any) (args ts) = Some t → union ts s = (Ok t, s).
Proof.
  intros Hs Hts Hany. unfold union, mbind, InternM_bind, M_bind, get. cbv beta iota zeta.
  by rewrite add_all_spec, Hany by (done || exact (iw_types _ _ Hs)).
Qed.

Lemma union_unknown s ts t :
  iwf s → Forall (λ t, (t < length (heap s))%nat) (args ts) →
  List.find (λ t, has (flags_at (heap s) t) TypeFlags.Any) (args ts) = None →
  List.find (λ m, has (flags_at (heap s) m) TypeFlags.Unknown) (flat (heap s) ts) = Some t → union ts s = (Ok t, s).
Proof.
  intros Hs Hts Hany Hunk. unfold union, mbind, InternM_bind, M_bind, get. cbv beta iota zeta.
  rewrite add_all_spec, Hany by (done || exact (iw_types _ _ Hs)). fold (flat (heap s) ts). by rewrite Hunk.
Qed.

Lemma unknown_again s ts ts' t :
  iwf s → Forall (λ t, (t < length (heap s))%nat) (args ts) → one_top (heap s) ts → asks_again ts ts' t →
  List.find (λ t, has (flags_at (heap s) t) TypeFlags.Any) (args ts) = None →
  List.find (λ m, has (flags_at (heap s) m) TypeFlags.Unknown) (flat (heap s) ts) = Some t → union ts' s = (Ok t, s).
Proof.
  intros Hs Hts [_ Hone] [Hsub Hcov] Hany Hunk. apply List.find_some in Hunk as [Htf Htu]. apply list_elem_of_In in Htf.
  assert (heap_ok (heap s)) as Hh by exact (iw_types _ _ Hs).
  assert (∃ n, heap s !! t = Some n ∧ Flags n = TypeFlags.Unknown) as (n & Hn & Hfn).
  { unfold flags_at in Htu. destruct (heap s !! t) as [n|] eqn:Hn; [|done]. exists n. split; [done|].
    apply single_has in Htu; [done|by destruct (Hh _ _ Hn)|by exists 1]. }
  assert (flags_at (heap s) t = TypeFlags.Unknown) as Hft by (unfold flags_at; by rewrite Hn).
  assert (atoms (heap s) t = [t]) as Hat by (unfold atoms; by rewrite Hn, Hfn).
  rewrite Forall_forall in Hts. rewrite find_none_spec in Hany. apply union_unknown; [done| | |].
  - apply Forall_forall. intros x [->|Hx]%Hsub; [by eapply lookup_lt_Some|by apply Hts].
  - apply find_none_spec. intros x [->|Hx]%Hsub; [by rewrite Hft|by apply Hany].
  - apply find_unique; [|done|].
    + apply elem_of_flat. split; [|by rewrite Hft]. destruct Hcov as [Ht|Hall]; [exists t; rewrite Hat; split; [done|by left]|].
      apply elem_of_flat in Htf as [(a & Ha & Hta) _]. exists a. split; [by apply Hall|done].
    + intros y [(a & Ha & Hya) Hny]%elem_of_flat Hyu. destruct (Hsub _ Ha) as [->|Ha'].
      * rewrite Hat in Hya. by apply list_elem_of_singleton in Hya.
      * apply Hone; try done. apply elem_of_flat. split; [by exists a|done].
Qed.

(** The other case: some members remain after reduction. *)
Lemma members_again s s' ts ts' t A :
  iwf s → iwf s' → igrows s s' → Forall (λ t, (t < length (heap s))%nat) (args ts) → asks_again ts ts' t →
  List.find (λ t, has (flags_at (heap s) t) TypeFlags.Any) (args ts) = None →
  Forall (member_ok (heap s)) (flat (heap s) ts) → Forall (member_ok (heap s')) A → NoDup A →
  extended addr s s' (absorb_numbers (heap s) (flat (heap s) ts)) A →
  answers s' (reduce_pure (heap s') A) t → union ts' s' = (Ok t, s').
Proof.
  intros Hs Hs' Hg Hts [Hsub Hcov] Hany HF HA HdA Hext Ht.
  set (F := flat (heap s) ts) in *. set (R := reduce_pure (heap s') A) in *. set (F' := flat (heap s') ts').
  assert (Forall (member_ok (heap s')) R) as HRok.
  { rewrite Forall_forall in HA |- *. intros x [Hx _]%elem_of_reduce. by apply HA. }
  assert (Forall (member_ok (heap s')) F) as HFok by (eapply Forall_impl; [exact HF|]; intros x; apply member_ok_mono, Hg).
  destruct (answer_atoms s' R t Hs' HRok Ht) as (Htlt & Htany & Htat).
  rewrite Forall_forall in Hts, HRok. rewrite find_none_spec in Hany.
  assert (∀ a, a ∈ args ts → flags_at (heap s') a = flags_at (heap s) a ∧ atoms (heap s') a = atoms (heap s) a) as Hgrow.
  { intros a Ha. destruct (lookup_lt_is_Some_2 _ _ (Hts a Ha)) as [n Hn]. pose proof (prefix_at _ _ _ _ (ig_heap _ _ Hg) Hn) as Hn'.
    unfold flags_at, atoms. by rewrite Hn, Hn'. }
  assert (∀ x, x ∈ F → member_ok (heap s) x) as HF1 by (by rewrite Forall_forall in HF).
  assert (∀ a x, a ∈ args ts → x ∈ atoms (heap s') a → has (flags_at (heap s') x) TypeFlags.Never = false → x ∈ F) as HFin.
  { intros a x Ha Hx Hn. destruct (Hgrow a Ha) as [_ Hat]. rewrite Hat in Hx. apply elem_of_flat. split; [by exists a|].
    destruct (atoms_ok _ a (iw_types _ _ Hs) (Hts a Ha) (Hany a Ha) x Hx) as (n & Hxn & _).
    pose proof (prefix_at _ _ _ _ (ig_heap _ _ Hg) Hxn) as Hxn'. unfold flags_at in *. by rewrite Hxn in *; rewrite Hxn' in Hn. }
  assert (∀ x, x ∈ F' → x ∈ R ∨ x ∈ F) as HFR.
  { intros x [(a & Ha & Hxa) Hxn]%elem_of_flat. destruct (Hsub a Ha) as [->|Ha']; [left; by apply Htat|right; by eapply HFin]. }
  assert (NoDup F') as HdF' by apply pushes_NoDup, NoDup_nil_2.
  assert (∀ x, x ∈ F' → member_ok (heap s') x) as HF'ok.
  { intros x [?|?]%HFR; [by apply HRok|]. rewrite Forall_forall in HFok. by apply HFok. }
  pose proof (extended_grow s s' F A Hg HF Hext) as Hext'.
  assert (∀ R', reduceLiterals (absorb_numbers (heap s') F') s' = (Ok R', s') → NoDup R' → (∀ x, x ∈ R' ↔ x ∈ R) → union ts' s' = (Ok t, s')) as Hend.
  { intros R' Hred HdR' Heq.
    assert (Forall (member_ok (heap s')) R') as HR'ok by (apply Forall_forall; intros x Hx%Heq; by apply HRok).
    apply (union_exact s' ts' R'); try done.
    - apply Forall_forall. intros x [->|Hx]%Hsub; [done|]. eapply Nat.lt_le_trans; [by apply Hts|]. apply prefix_length, Hg.
    - apply find_none_spec. intros x [->|Hx]%Hsub; [done|]. destruct (Hgrow x Hx) as [-> _]. by apply Hany.
    - apply find_none_spec. intros x Hx%HF'ok. destruct (member_ok_inv _ _ Hx) as (n & Hn & _ & _ & _ & Hu). unfold flags_at. by rewrite Hn.
    - apply (answers_ext s' R); try done; try (by apply Forall_forall); try (by apply reduce_NoDup). }
  assert (∀ x, (∀ a, a ∈ args ts → a ∈ args ts') → x ∈ F → x ∈ F') as HFF'.
  { intros x Hall Hx. pose proof (HF1 _ Hx) as Hxok. apply elem_of_flat in Hx as [(a & Ha & Hxa) Hxn]. apply elem_of_flat. split.
    - exists a. split; [by apply Hall|]. by destruct (Hgrow a Ha) as [_ ->].
    - by destruct (member_grow s s' x Hg Hxok) as [-> _]. }
  assert ((∀ x, x ∈ R → x ∈ F') → union ts' s' = (Ok t, s')) as Hfirst.
  { intros HRF'. assert (¬ splits_boolean (heap s') (absorb_numbers (heap s') F') ∧ ∀ x, x ∈ reduce_pure (heap s') (absorb_numbers (heap s') F') ↔ x ∈ R)
      as [Hns Heq] by (by eapply stable_again).
    apply (Hend (reduce_pure (heap s') (absorb_numbers (heap s') F'))); [by apply reduceLiterals_kept|by apply reduce_NoDup, absorb_NoDup|exact Heq]. }
  destruct (decide (t ∈ args ts')) as [Htin|Htout].
  { apply Hfirst. intros x Hx%Htat. apply elem_of_flat. split; [exists t; tauto|tauto]. }
  destruct Hcov as [?|Hall]; [done|].
  destruct Hext' as [[HeqA Hns]|(tb & HeqA & Hsp & Hkb & Htb)].
  - apply Hfirst. intros x [Hx _]%elem_of_reduce. rewrite HeqA in Hx. apply elem_of_absorb in Hx as [Hx _]. by apply HFF'.
  - assert (∀ x, x ∈ F' ↔ x ∈ F) as Hsame.
    { intros x. split; [|by apply HFF']. intros [(a & Ha & Hxa) Hxn]%elem_of_flat. destruct (Hsub a Ha) as [->|Ha']; [done|by eapply HFin]. }
    assert (∀ x, x ∈ absorb_numbers (heap s') F' ↔ x ∈ absorb_numbers (heap s') F) as HsameB.
    { intros x. rewrite !elem_of_absorb, Hsame. unfold has_arith. by setoid_rewrite Hsame. }
    assert (splits_boolean (heap s') (absorb_numbers (heap s') F')) as Hsp'.
    { unfold splits_boolean, prims_in in Hsp |- *. rewrite !has_literal_spec in Hsp |- *. by setoid_rewrite HsameB. }
    apply (Hend (reduce_pure (heap s') (absorb_numbers (heap s') F' ++ [tb]))).
    + apply reduceLiterals_split; try done. apply Forall_forall. intros x [Hx _]%elem_of_absorb. by apply HF'ok.
    + apply reduce_NoDup. rewrite HeqA in HdA. apply NoDup_app in HdA as (_ & Htbn & _). apply NoDup_app.
      split_and!; [by apply absorb_NoDup| |apply NoDup_singleton]. intros x Hx%HsameB. by apply Htbn.
    + intros x. unfold R. rewrite !elem_of_reduce, HeqA. unfold redundant, prims_in.
      assert (∀ y, y ∈ absorb_numbers (heap s') F' ++ [tb] ↔ y ∈ absorb_numbers (heap s') F ++ [tb]) as HsameA
        by (intros y; by rewrite !elem_of_app, HsameB).
      by setoid_rewrite HsameA.
Qed.
End again.
