(* ===== verification/Denote.v ===== *)
(** * The values a type stands for

    A set-theoretic reading of the primitive and literal types and of unions;
    what the other types stand for is a parameter, [opaque], that only depends
    on the type. *)

From S2P Require Import Prelude GoString TextFacts Symbols SymbolFacts Mangle Types TypeKeys TypeFacts TypeUnion.
From Stdlib Require Import Ascii.
Open Scope Z_scope.

(** Values, as far as the primitive types tell them apart; numbers and bigints
    by their literal. *)
Inductive value := VString (s : string) | VNumber (lit : string) | VBoolean (b : bool) | VBigInt (lit : string) | VOther (k : nat).

Section denote.
Context (opaque : TypeId → value → Prop).

Definition is_string (v : value) : Prop := ∃ s, v = VString s.
Definition is_number (v : value) : Prop := ∃ s, v = VNumber s.
Definition is_boolean (v : value) : Prop := ∃ b, v = VBoolean b.
Definition is_bigint (v : value) : Prop := ∃ s, v = VBigInt s.

(** A type that is no union. *)
Definition atom_denotes (h : list Ty) (t : TypeId) (v : value) : Prop :=
  match h !! t with
  | None => False
  | Some n =>
      if has (Flags n) (Z.lor TypeFlags.Any TypeFlags.Unknown) then True
      else if has (Flags n) TypeFlags.Never then False
      else if bool_decide (is_Some (Brand n)) then opaque t v
      else if AnyArith n then is_number v ∨ is_bigint v
      else if has (Flags n) TypeFlags.String then is_string v
      else if has (Flags n) TypeFlags.Number then is_number v
      else if has (Flags n) TypeFlags.Boolean then is_boolean v
      else if has (Flags n) TypeFlags.BigInt then is_bigint v
      else if has (Flags n) TypeFlags.StringLiteral then v = VString (Value n)
      else if has (Flags n) TypeFlags.NumberLiteral then v = VNumber (Value n)
      else if has (Flags n) TypeFlags.BooleanLiteral then ∃ b, v = VBoolean b ∧ Value n = FormatBool b
      else if has (Flags n) TypeFlags.BigIntLiteral then v = VBigInt (Value n)
      else opaque t v
  end.
Definition denotes (h : list Ty) (t : TypeId) (v : value) : Prop :=
  ∃ m, m ∈ atoms h t ∧ atom_denotes h m v.

Lemma atom_denotes_grow h h' t v :
  h `prefix_of` h' → (t < length h)%nat → atom_denotes h' t v ↔ atom_denotes h t v.
Proof. intros Hp Ht. destruct (lookup_lt_is_Some_2 _ _ Ht) as [n Hn]. unfold atom_denotes. by rewrite Hn, (prefix_at _ _ _ _ Hp Hn). Qed.

(** A literal is among the values of its primitive. *)
Definition prim_values (b : Z) (v : value) : Prop :=
  if b =? TypeFlags.String then is_string v else if b =? TypeFlags.Number then is_number v
  else if b =? TypeFlags.Boolean then is_boolean v else if b =? TypeFlags.BigInt then is_bigint v else False.

Context (addr : SymId → string).
Hypothesis addr_inj : Inj (=) (=) addr.
Hypothesis addr_hex : ∀ s, all_chars hex_char (addr s) = true.
Abbreviation iwf := (iwf addr).

Lemma atom_flags h m n : heap_ok h → h !! m = Some n → single (flags_at h m) ∧ flags_at h m = Flags n.
Proof. intros Hh Hn. unfold flags_at. rewrite Hn. split; [by destruct (Hh _ _ Hn)|done]. Qed.

Lemma single_cases f : single f → f ∈ ([1; 2; 4; 8; 16; 32; 64; 128; 256; 512; 1024; 2048; 4096; 8192; 16384; 32768; 65536; 131072; 262144; 524288; 1048576; 2097152] : list Z).
Proof. by intros Hf%single_spec. Qed.

(** A type that carries no brand. *)
Definition plain (h : list Ty) (m : TypeId) : Prop := ∀ n, h !! m = Some n → Brand n = None.

Lemma literal_values h m v :
  heap_ok h → member_ok h m → plain h m → literal_base h m ≠ 0 → atom_denotes h m v → prim_values (literal_base h m) v.
Proof.
  intros Hh (n & Hn & _) Hpl Hb. destruct (atom_flags h m n Hh Hn) as [Hs Hf]. destruct (Hh _ _ Hn) as (_ & _ & Harith).
  specialize (Hpl n Hn). unfold literal_base, atom_denotes in *. rewrite Hn, Hf, Hpl in *. clear Hf Hn Hh Hpl h.
  destruct (AnyArith n); [rewrite (Harith eq_refl) in Hb; by destruct Hb|]. clear Harith.
  apply single_cases in Hs. rewrite !elem_of_cons in Hs. revert Hb.
  repeat (destruct Hs as [Hs|Hs]; [rewrite Hs; first
    [by intros []|intros _; unfold prim_values; cbn; first [intros ->; by eexists|intros (b & -> & _); by eexists]]|]).
  by apply elem_of_nil in Hs.
Qed.

Lemma prim_single b : prim b → single b.
Proof.
  unfold prim. rewrite !elem_of_cons.
  intros [-> |[-> |[-> |[-> |Hb%elem_of_nil]]]]; [by exists 2|by exists 3|by exists 4|by exists 5|done].
Qed.

Lemma prim_denotes h m b v :
  heap_ok h → member_ok h m → plain h m → prim b → has (flags_at h m) b = true → prim_values b v → atom_denotes h m v.
Proof.
  intros Hh (n & Hn & _) Hpl Hb Hf. destruct (atom_flags h m n Hh Hn) as [Hs Hfn]. rewrite Hfn in *. unfold atom_denotes.
  rewrite Hn, (Hpl n Hn). apply single_has in Hf; [|done|by apply prim_single]. rewrite Hf. destruct (Hh _ _ Hn) as (_ & _ & Harith).
  rewrite Hf in Harith. unfold prim in Hb. rewrite !elem_of_cons in Hb.
  destruct Hb as [-> |[-> |[-> |[-> |Hb%elem_of_nil]]]]; [..|done]; unfold prim_values; cbn;
    (destruct (AnyArith n); [first [specialize (Harith eq_refl); vm_compute in Harith; discriminate Harith|by intros; left]|tauto]).
Qed.

(** Dropping redundant literals leaves the values. *)
Lemma reduce_denotes h A v :
  heap_ok h → Forall (member_ok h) A → (∀ m, m ∈ A → plain h m) →
  (∃ m, m ∈ reduce_pure h A ∧ atom_denotes h m v) ↔ ∃ m, m ∈ A ∧ atom_denotes h m v.
Proof.
  intros Hh HA Hpl. rewrite Forall_forall in HA. split; [intros (m & [Hm _]%elem_of_reduce & Hv); by exists m|].
  intros (m & Hm & Hv). destruct (decide (literal_base h m = 0)) as [H0|Hne].
  { exists m. split; [|done]. apply elem_of_reduce. split; [done|]. by intros [? _]. }
  destruct (has (prims_of h A) (literal_base h m)) eqn:Hp.
  - apply prims_of_spec in Hp as (p & Hpa & Hpf); [|by apply base_of_prim]. exists p. split.
    + apply elem_of_reduce. split; [done|]. intros [Hpb _]. apply Hpb.
      apply single_has in Hpf; [|by apply member_single; [|apply HA]|by apply prim_single, base_of_prim]. unfold literal_base at 1. rewrite Hpf.
      pose proof (base_of_prim _ Hne) as Hb. unfold prim in Hb. rewrite !elem_of_cons in Hb. fold (literal_base h m) in Hb.
      by destruct Hb as [-> |[-> |[-> |[-> |Hb%elem_of_nil]]]].
    + eapply prim_denotes; [done|by apply HA|by apply Hpl|by apply base_of_prim|done|]. apply literal_values; [done|by apply HA|by apply Hpl|done|done].
  - exists m. split; [|done]. apply elem_of_reduce. split; [done|]. intros [_ Hr]. apply prims_of_spec in Hr; [|by apply base_of_prim]. congruence.
Qed.

(** So does leaving the numbers to an [any] arithmetic. *)
Lemma absorb_denotes h F v :
  heap_ok h → Forall (member_ok h) F → (∀ m, m ∈ F → plain h m) →
  (∃ m, m ∈ absorb_numbers h F ∧ atom_denotes h m v) ↔ ∃ m, m ∈ F ∧ atom_denotes h m v.
Proof.
  intros Hh HF Hpl. rewrite Forall_forall in HF. split; [intros (m & [Hm _]%elem_of_absorb & Hv); by exists m|].
  intros (m & Hm & Hv). destruct (existsb (arith_at h) F) eqn:Ha.
  2: { exists m. split; [|done]. apply elem_of_absorb. split; [done|]. intros Hh'%has_arith_spec. congruence. }
  apply has_arith_spec in Ha as (a & Haf & Haa).
  destruct (arith_at h m || negb (has (flags_at h m) number_mask)) eqn:Hk.
  { exists m. split; [|done]. apply elem_of_absorb. split; [done|]. intros _. apply orb_true_iff in Hk as [?|?%negb_true_iff]; [by left|by right]. }
  exists a. split; [apply elem_of_absorb; split; [done|by left]|].
  apply orb_false_iff in Hk as [Hna Hnum%negb_false_iff].
  assert (is_number v) as Hnv.
  { destruct (HF m Hm) as (n & Hn & _). destruct (atom_flags h m n Hh Hn) as [Hs Hf]. unfold arith_at in Hna. rewrite Hn in Hna.
    unfold atom_denotes in Hv. rewrite Hn, Hna, (Hpl m Hm n Hn) in Hv. rewrite Hf in *. unfold number_mask in Hnum.
    rewrite has_lor in Hnum. apply orb_true_iff in Hnum as [Hx|Hx]; apply single_has in Hx; try done; try (by exists 3); try (by exists 11);
      rewrite Hx in Hv; [exact Hv|change (v = VNumber (Value n)) in Hv; subst v; by eexists]. }
  destruct (HF a Haf) as (n & Hn & Hnf). destruct (Hh _ _ Hn) as (_ & _ & Harith). unfold arith_at in Haa. rewrite Hn in Haa.
  unfold atom_denotes. rewrite Hn, Haa, (Harith Haa), (Hpl a Haf n Hn). cbn. by left.
Qed.

(** Both booleans are boolean. *)
Lemma split_denotes h B tb v :
  heap_ok h → Forall (member_ok h) B → (∀ m, m ∈ B → plain h m) → splits_boolean h B →
  h !! tb = Some (set_TID (tid tb) (flag_type TypeFlags.Boolean)) →
  (∃ m, m ∈ B ++ [tb] ∧ atom_denotes h m v) ↔ ∃ m, m ∈ B ∧ atom_denotes h m v.
Proof.
  intros Hh HB Hpl (Ht & Hf & _) Htb. rewrite Forall_forall in HB. split; [|intros (m & Hm & Hv); exists m; split; [apply elem_of_app; by left|done]].
  intros (m & Hm & Hv). rewrite elem_of_app, list_elem_of_singleton in Hm. destruct Hm as [Hm| ->]; [by exists m|].
  unfold atom_denotes in Hv. rewrite Htb in Hv. cbn in Hv. destruct Hv as [b ->].
  apply has_literal_spec in Ht as (m1 & Hm1 & Hf1 & Hv1), Hf as (m2 & Hm2 & Hf2 & Hv2).
  assert (∀ m, m ∈ B → has (flags_at h m) TypeFlags.BooleanLiteral = true → value_at h m = FormatBool b → atom_denotes h m (VBoolean b)) as Hlit.
  { intros m Hm Hfm Hvm. destruct (HB m Hm) as (n & Hn & _). destruct (atom_flags h m n Hh Hn) as [Hs Hfn].
    apply single_has in Hfm; [|done|by exists 12]. destruct (Hh _ _ Hn) as (_ & _ & Harith). unfold atom_denotes, value_at in *.
    rewrite Hn in *. rewrite Hfn in Hfm. rewrite Hfm, (Hpl m Hm n Hn) in *. destruct (AnyArith n); [specialize (Harith eq_refl); vm_compute in Harith; discriminate Harith|]. cbn. by exists b. }
  destruct b; [exists m1|exists m2]; (split; [done|by apply Hlit]).
Qed.
End denote.
