(* ===== verification/TypeProps.v ===== *)
(** * Properties of types and their interner *)

From S2P Require Import Prelude GoString TextFacts Symbols SymbolFacts Mangle Types TypeKeys TypeFacts TypeUnion Denote.
From Stdlib Require Import Ascii.
Open Scope Z_scope.

Lemma args_map_Some ms : args (map Some ms) = ms.
Proof. unfold args. induction ms as [|m ms IH]; [done|]. cbn. by f_equal. Qed.

Section requests.
Context (addr : SymId → string).
Hypothesis addr_inj : Inj (=) (=) addr.
Hypothesis addr_hex : ∀ s, all_chars hex_char (addr s) = true.
Abbreviation key := (key addr).
Abbreviation iwf := (iwf addr).
Abbreviation run_request := (run_request addr).

(** A canonical list of members is interned as it is. *)
Lemma union_of_canonical s ms t s' :
  iwf s → canonical (heap s) ms → union_result addr s (map Some ms) t s' → byKey s' !! key (RUnion ms) = Some t.
Proof.
  intros Hs Hc Hres. pose proof (ca_members _ _ Hc) as Hok. rewrite Forall_forall in Hok.
  assert (∀ x, x ∈ flat (heap s) (map Some ms) ↔ x ∈ ms) as Hflat.
  { intros x. rewrite elem_of_flat, args_map_Some. split.
    - intros [(a & Ha & Hx) _]. destruct (member_ok_inv _ _ (Hok a Ha)) as (n & Hn & Hu & _). unfold atoms in Hx.
      rewrite Hn, Hu in Hx. by apply list_elem_of_singleton in Hx as ->.
    - intros Hx. destruct (member_ok_inv _ _ (Hok x Hx)) as (n & Hn & Hu & Hnev & _). split; [|unfold flags_at; by rewrite Hn].
      exists x. unfold atoms. rewrite Hn, Hu. split; [done|by left]. }
  destruct Hres as [t Ht|t _ Ht|A t s' _ _ Hs' Hg HA HdA Hext Ht].
  - apply List.find_some in Ht as [Ht Hf]. rewrite args_map_Some in Ht. apply list_elem_of_In in Ht. destruct (member_ok_inv _ _ (Hok t Ht)) as (n & Hn & _ & _ & Ha & _).
    unfold flags_at in Hf. rewrite Hn in Hf. congruence.
  - apply List.find_some in Ht as [Ht Hf]. apply list_elem_of_In, Hflat in Ht. destruct (member_ok_inv _ _ (Hok t Ht)) as (n & Hn & _ & _ & _ & Hu).
    unfold flags_at in Hf. rewrite Hn in Hf. congruence.
  - assert (∀ x, x ∈ absorb_numbers (heap s) (flat (heap s) (map Some ms)) ↔ x ∈ ms) as Habs.
    { intros x. rewrite elem_of_absorb, Hflat. split; [by intros [? _]|]. intros Hx. split; [done|]. intros (m & Hm%Hflat & Ha).
      destruct (arith_at (heap s) x) eqn:Hax; [by left|right]. apply (ca_numbers _ _ Hc); [by exists m|done|done]. }
    assert (¬ splits_boolean (heap s) (absorb_numbers (heap s) (flat (heap s) (map Some ms)))) as Hns.
    { intros (Ht1 & Hf1 & _). apply (ca_boolean _ _ Hc). rewrite !has_literal_spec in Ht1, Hf1. destruct Ht1 as (m1 & Hm1%Habs & Ht1), Hf1 as (m2 & Hm2%Habs & Hf1).
      split; apply has_literal_spec; [by exists m1|by exists m2]. }
    destruct Hext as [[-> _]|(tb & _ & ? & _)]; [|done].
    assert (sort_members (heap s') (reduce_pure (heap s') (absorb_numbers (heap s) (flat (heap s) (map Some ms)))) = ms) as Hsort.
    { apply sorted_ext; [|apply Hc|].
      - eapply sort_members_sorted; [done| |by apply reduce_NoDup]. apply Forall_forall. intros x [Hx _]%elem_of_reduce.
        rewrite Forall_forall in HA. by apply member_ok_lt, HA.
      - intros x. rewrite sort_members_perm, elem_of_reduce, Habs. split; [by intros [? _]|]. intros Hx. split; [done|].
        intros [Hne (m & Hm & Hf)]. apply Habs in Hm. destruct (member_grow s s' x Hg (Hok x Hx)) as [Hfx _].
        destruct (member_grow s s' m Hg (Hok m Hm)) as [Hfm _]. unfold literal_base in *. rewrite Hfx in *. rewrite Hfm in Hf.
        eapply (ca_reduced _ _ Hc x); [done|done|done|]. by exists m. }
    rewrite Hsort in Ht. pose proof (ca_many _ _ Hc) as Hl. destruct ms as [|x [|y l]]; cbn in Hl; [lia|lia|]. by destruct Ht.
Qed.

Lemma request_runs s r :
  iwf s → request_ok (heap s) r →
  ∃ t s', run_request r s = (Ok t, s') ∧ iwf s' ∧ igrows s s' ∧ byKey s' !! key r = Some t.
Proof.
  intros Hs Hr.
  enough (wp (run_request r) (λ t s', iwf s' ∧ igrows s s' ∧ byKey s' !! key r = Some t) (λ _ _, False) s) as H.
  { unfold wp in H. destruct (run_request r s) as [[t| | |] s']; try done. by exists t, s'. }
  assert ((∃ ms, r = RUnion ms) ∨ ∀ ms, r ≠ RUnion ms) as Hcase.
  { destruct r; try (by right). left. by eexists. }
  destruct Hcase as [[ms ->]|Hnu].
  - destruct Hr as (_ & Hp & Hc). cbn [TypeFacts.run_request]. eapply (wp_union addr addr_inj addr_hex); [done|rewrite args_map_Some; exact Hp|].
    intros t s' Hres Hs' Hg. split; [done|]. split; [done|]. exact (union_of_canonical s ms t s' Hs Hc Hres).
  - eapply (wp_request addr); [done..|naive_solver|]. by intros t s' ? ? ?.
Qed.

Lemma union_runs s ts :
  iwf s → Forall (λ t, (t < length (heap s))%nat) (args ts) →
  ∃ t s', union ts s = (Ok t, s') ∧ union_result addr s ts t s' ∧ iwf s' ∧ igrows s s'.
Proof.
  intros Hs Hts. pose proof (wp_union addr addr_inj addr_hex s ts (λ t s', union_result addr s ts t s' ∧ iwf s' ∧ igrows s s') Hs Hts
    (λ t s' H1 H2 H3, conj H1 (conj H2 H3)) (X := λ _ _, False)) as H.
  unfold wp in H. destruct (union ts s) as [[t| | |] s']; try done. by exists t, s'.
Qed.
End requests.

(** ** The interner as a state machine *)

(** [newInterner]. *)
Definition newInterner : interner := mkInterner ∅ [] 0.

(** The states the checker's requests reach; an address is printed in
    hexadecimal and no two symbols have the same. *)
Inductive ireachable (addr : SymId → string) : interner → Prop :=
  | ireach_start : ireachable addr newInterner
  | ireach_request s r t s' : ireachable addr s → request_ok (heap s) r → run_request addr r s = (Ok t, s') → ireachable addr s'
  | ireach_union s ts t s' : ireachable addr s → Forall (λ t, (t < length (heap s))%nat) (args ts) →
      union ts s = (Ok t, s') → ireachable addr s'.

Class Addresses (addr : SymId → string) : Prop := {
  addresses_inj :: Inj (=) (=) addr;
  addresses_hex : ∀ s, all_chars hex_char (addr s) = true }.

Lemma ireachable_wf addr `{!Addresses addr} s : ireachable addr s → iwf addr s.
Proof.
  induction 1 as [|s r t s' _ IH Hr Hrun|s ts t s' _ IH Hts Hrun].
  - constructor; cbn; try done.
  - destruct (request_runs addr _ addresses_hex s r IH Hr) as (t' & s'' & Hrun' & Hs' & _).
    rewrite Hrun in Hrun'. by injection Hrun' as <- <-.
  - destruct (union_runs addr _ addresses_hex s ts IH Hts) as (t' & s'' & Hrun' & _ & Hs' & _).
    rewrite Hrun in Hrun'. by injection Hrun' as <- <-.
Qed.

Lemma reach_run addr `{!Addresses addr} s r :
  ireachable addr s → request_ok (heap s) r → ireachable addr (run_request addr r s).2.
Proof.
  intros Hs Hr. destruct (request_runs addr _ addresses_hex s r (ireachable_wf addr s Hs) Hr) as (t & s' & Hrun & _).
  rewrite Hrun. by eapply ireach_request.
Qed.

(** Three types: string, "a" and number. *)
Definition ex_addr (p : SymId) : string := "0x" +:+ itoa (Z.of_nat p).
#[export] Instance ex_addresses : Addresses ex_addr.
Proof.
  split.
  - intros a b H. unfold ex_addr in H. strip H. injection H as H.
    assert (itoa (Z.of_nat a) +:+ "" = itoa (Z.of_nat b) +:+ "") as H' by (by rewrite H).
    apply itoa_app_inj in H' as [H' _]; [lia|done..].
  - intros p. unfold ex_addr, itoa. destruct (Z.ltb_spec (Z.of_nat p) 0); [lia|].
    destruct (itoa_digits (Z.of_nat p) ltac:(lia)) as [Hd _]. rewrite all_chars_app. cbn.
    apply (all_chars_impl is_digit); [|done]. intros c Hc. unfold hex_char. by rewrite Hc.
Qed.
Definition ex_state : interner :=
  let run r s := (run_request ex_addr r s).2 in
  run (RIntrinsic TypeFlags.Number) (run (RLiteral TypeFlags.StringLiteral "a") (run (RIntrinsic TypeFlags.String) newInterner)).
Lemma ex_reachable : ireachable ex_addr ex_state.
Proof.
  apply reach_run; [exact _| |]; [apply reach_run; [exact _| |]; [apply reach_run; [exact _|apply ireach_start|]|]|];
    (split; [done|]; split; [constructor|]).
  - split; [by exists 2|done].
  - split; [by exists 10|done].
  - split; [by exists 3|done].
Qed.

(** C33: a request for a type, and a union, always answers: no pointer is
    followed out of the heap, every union in the heap keeps its members in
    range and flat, and types are only added. *)
Theorem interner_total addr s r ts :
  Addresses addr → ireachable addr s → request_ok (heap s) r → Forall (λ t, (t < length (heap s))%nat) (args ts) →
  (∃ t s', run_request addr r s = (Ok t, s') ∧ ireachable addr s' ∧ iwf addr s' ∧ igrows s s')
  ∧ ∃ t s', union ts s = (Ok t, s') ∧ ireachable addr s' ∧ iwf addr s' ∧ igrows s s'.
Proof.
  intros Ha Hr Hreq Hts. pose proof (ireachable_wf addr s Hr) as Hs. split.
  - destruct (request_runs addr _ addresses_hex s r Hs Hreq) as (t & s' & Hrun & Hs' & Hg & _).
    exists t, s'. split; [done|]. split; [by eapply ireach_request|done].
  - destruct (union_runs addr _ addresses_hex s ts Hs Hts) as (t & s' & Hrun & _ & Hs' & Hg).
    exists t, s'. split; [done|]. split; [by eapply ireach_union|done].
Qed.


(** C34: the type a request answers has the fields it asks for. *)
Theorem request_content addr s r t s' :
  Addresses addr → ireachable addr s → request_ok (heap s) r → run_request addr r s = (Ok t, s') →
  ∃ r' n, same_shape r r' ∧ made (heap s') r' = Some n ∧ heap s' !! t = Some (set_TID (tid t) n).
Proof.
  intros Ha Hr Hok Hrun. pose proof (ireachable_wf addr s Hr) as Hs.
  destruct (request_runs addr _ addresses_hex s r Hs Hok) as (t' & s'' & Hrun' & Hs' & Hg & Hk).
  rewrite Hrun in Hrun'. injection Hrun' as <- <-.
  destruct (iw_keys _ _ Hs' _ _ Hk) as (r' & n & Hc & Hkr & Hm & Hh). exists r', n. split; [|done].
  apply (key_shape addr); [apply addresses_inj|apply addresses_hex|apply Hok|done|done].
Qed.

Lemma ex_request : request_ok (heap ex_state) (RArray 1).
Proof. split; [done|]. split; [|done]. repeat constructor; vm_compute; lia. Defined.
Lemma ex_args : Forall (λ t, (t < length (heap ex_state))%nat) (args [Some 0%nat; None; Some 1%nat]).
Proof. repeat constructor; vm_compute; lia. Defined.
Definition ex_array : outcome Empty_set TypeId * interner := run_request ex_addr (RArray 1) ex_state.

Theorem interner_total_witness :
  (∃ t s', run_request ex_addr (RArray 1) ex_state = (Ok t, s') ∧ ireachable ex_addr s' ∧ iwf ex_addr s' ∧ igrows ex_state s')
  ∧ ∃ t s', union [Some 0%nat; None; Some 1%nat] ex_state = (Ok t, s') ∧ ireachable ex_addr s' ∧ iwf ex_addr s' ∧ igrows ex_state s'.
Proof. exact (interner_total ex_addr ex_state (RArray 1) _ _ ex_reachable ex_request ex_args). Defined.


Theorem request_content_witness :
  ∃ r' n, same_shape (RArray 1) r' ∧ made (heap ex_array.2) r' = Some n ∧ heap ex_array.2 !! 3%nat = Some (set_TID (tid 3) n).
Proof.
  apply (request_content ex_addr ex_state (RArray 1) 3%nat ex_array.2 _ ex_reachable ex_request).
  vm_compute. reflexivity.
Defined.
