(* ===== verification/UnionProps.v ===== *)
(** * Properties of unions *)

From S2P Require Import Prelude GoString TextFacts Symbols SymbolFacts Mangle Types TypeKeys TypeFacts TypeUnion Denote TypeProps.
From Stdlib Require Import Ascii.
Open Scope Z_scope.

(** ** The values of a member list *)

Section values.
Context (opaque : TypeId → value → Prop).
Context (addr : SymId → string).
Context `{!Addresses addr}.
Abbreviation iwf := (iwf addr).
Abbreviation atom_denotes := (atom_denotes opaque).
Abbreviation denotes := (denotes opaque).
Let ainj : Inj (=) (=) addr := addresses_inj.
Let ahex : ∀ s, all_chars hex_char (addr s) = true := addresses_hex.

(** The values some member has. *)
Definition some_denotes (h : list Ty) (ms : list TypeId) (v : value) : Prop := ∃ m, m ∈ ms ∧ atom_denotes h m v.

Lemma some_denotes_grow s s' ms v :
  igrows s s' → Forall (member_ok (heap s)) ms → some_denotes (heap s') ms v ↔ some_denotes (heap s) ms v.
Proof.
  intros Hg Hms. rewrite Forall_forall in Hms.
  split; intros (m & Hm & Hv); exists m; (split; [done|]);
    apply (atom_denotes_grow opaque (heap s) (heap s')) in Hv || apply (atom_denotes_grow opaque (heap s) (heap s'));
    try done; (apply Hg || by apply member_ok_lt, Hms).
Qed.

Lemma top_denotes h t f v :
  heap_ok h → single f → (f = TypeFlags.Any ∨ f = TypeFlags.Unknown) → has (flags_at h t) f = true →
  atoms h t = [t] ∧ atom_denotes h t v.
Proof.
  intros Hh Hf Hor Ht. unfold flags_at, atoms, Denote.atom_denotes in *. destruct (h !! t) as [n|] eqn:Hn; [|done].
  apply single_has in Ht; [|by destruct (Hh _ _ Hn)|done]. rewrite Ht. by destruct Hor as [->| ->].
Qed.

Lemma never_denotes h t v : heap_ok h → has (flags_at h t) TypeFlags.Never = true → ¬ atom_denotes h t v.
Proof.
  intros Hh Ht. unfold flags_at, Denote.atom_denotes in *. destruct (h !! t) as [n|] eqn:Hn; [|done].
  apply single_has in Ht; [|by destruct (Hh _ _ Hn)|by exists 9]. rewrite Ht. by intros [].
Qed.

(** The answer denotes what its members do. *)
Lemma answer_denotes s R t v :
  iwf s → Forall (member_ok (heap s)) R → answers addr s R t → denotes (heap s) t v ↔ some_denotes (heap s) R v.
Proof.
  intros Hs HR Ht. destruct (answer_atoms addr ainj ahex s R t Hs HR Ht) as (_ & _ & Hat). split.
  - intros (m & Hm & Hv). exists m. split; [|done]. apply Hat. split; [done|]. apply not_true_iff_false.
    intros Hn. by apply (never_denotes _ m v (iw_types _ _ Hs)).
  - intros (m & [Hm _]%Hat & Hv). by exists m.
Qed.

(** So do the arguments, flattened. *)
Lemma flat_denotes h ts v :
  heap_ok h → some_denotes h (flat h ts) v ↔ ∃ a, a ∈ args ts ∧ denotes h a v.
Proof.
  intros Hh. split.
  - intros (m & [(a & Ha & Hm) _]%elem_of_flat & Hv). exists a. split; [done|]. by exists m.
  - intros (a & Ha & m & Hm & Hv). exists m. split; [|done]. apply elem_of_flat. split; [by exists a|].
    apply not_true_iff_false. intros Hn. by apply (never_denotes _ m v Hh).
Qed.
End values.

(** ** The theorems *)

(** A member list, its redundant literals dropped, denotes what it did. *)
Lemma extended_denotes opaque addr `{!Addresses addr} s s' ts A v :
  iwf addr s → iwf addr s' → igrows s s' → Forall (member_ok (heap s)) (flat (heap s) ts) →
  (∀ m, m ∈ flat (heap s) ts → plain (heap s) m) → Forall (member_ok (heap s')) A →
  extended addr s s' (absorb_numbers (heap s) (flat (heap s) ts)) A →
  some_denotes opaque (heap s') (reduce_pure (heap s') A) v ↔ some_denotes opaque (heap s) (flat (heap s) ts) v.
Proof.
  intros Hs Hs' Hg HF Hpl HA Hext. set (F := flat (heap s) ts) in *. set (B := absorb_numbers (heap s) F) in *.
  assert (Forall (member_ok (heap s)) B) as HB.
  { rewrite Forall_forall in HF |- *. intros x [Hx _]%elem_of_absorb. by apply HF. }
  assert (∀ m, m ∈ B → plain (heap s') m) as HplB.
  { intros m [Hm _]%elem_of_absorb n Hn. rewrite Forall_forall in HF. destruct (HF m Hm) as (n' & Hn' & _).
    pose proof (prefix_at _ _ _ _ (ig_heap _ _ Hg) Hn') as Hn''. assert (n = n') as -> by congruence. by eapply Hpl. }
  assert (Forall (member_ok (heap s')) B) as HB' by (eapply Forall_impl; [exact HB|]; intros x; apply member_ok_mono, Hg).
  rewrite <-(absorb_denotes opaque (heap s) F v (iw_types _ _ Hs) HF Hpl). fold B. fold (some_denotes opaque (heap s) B v).
  rewrite <-(some_denotes_grow opaque s s' B v Hg HB). unfold some_denotes at 1.
  destruct Hext as [[-> _]|(tb & -> & Hsp & _ & Htb)].
  - by apply reduce_denotes; [exact (iw_types _ _ Hs')|..].
  - rewrite reduce_denotes; [|exact (iw_types _ _ Hs')|done|].
    + apply split_denotes; [exact (iw_types _ _ Hs')|done|done| |done]. by apply (splits_grow s s' B).
    + intros m [Hm|Hm%list_elem_of_singleton]%elem_of_app; [by apply HplB|]. subst m. intros n Hn. rewrite Htb in Hn. by injection Hn as <-.
Qed.


(** C20: what a union answers is [any] or [unknown] among its arguments,
    [never], one of its members, or a union type of at least two members,
    sorted by ID and without repetition, none of them a union, [any],
    [unknown], [never], a literal beside its primitive, both boolean literals
    or a number beside the number of [any] arithmetic. *)
Theorem union_canonical addr s ts t s' :
  Addresses addr → ireachable addr s → Forall (λ t, (t < length (heap s))%nat) (args ts) → union ts s = (Ok t, s') →
  (t ∈ args ts ∧ has (flags_at (heap s) t) TypeFlags.Any = true)
  ∨ (t ∈ flat (heap s) ts ∧ has (flags_at (heap s) t) TypeFlags.Unknown = true)
  ∨ heap s' !! t = Some (set_TID (tid t) (flag_type TypeFlags.Never))
  ∨ member_ok (heap s') t
  ∨ ∃ ms, heap s' !! t = Some (set_TID (tid t) (union_type ms)) ∧ canonical (heap s') ms.
Proof.
  intros Ha Hr Hts Hrun. pose proof (ireachable_wf addr s Hr) as Hs.
  destruct (union_runs addr _ addresses_hex s ts Hs Hts) as (t' & s'' & Hrun' & Hres & Hs' & Hg).
  rewrite Hrun in Hrun'. injection Hrun' as <- <-.
  destruct Hres as [t Hf|t _ Hf|A t s' _ _ _ _ HA _ _ Ht].
  - left. apply List.find_some in Hf as [Hin Hf]. by apply list_elem_of_In in Hin.
  - right; left. apply List.find_some in Hf as [Hin Hf]. by apply list_elem_of_In in Hin.
  - do 2 right. pose proof (sort_members_perm (heap s') (reduce_pure (heap s') A)) as Hperm.
    destruct (sort_members _ _) as [|m [|m' ms]].
    + left. by apply (interned_simple addr _ addresses_hex s' (RIntrinsic TypeFlags.Never)).
    + right; left. subst t. rewrite Forall_forall in HA. apply HA.
      assert (m ∈ reduce_pure (heap s') A) as [? _]%elem_of_reduce by (rewrite <-Hperm; by left). done.
    + right; right. destruct Ht as [Hc Hk]. exists (m :: m' :: ms). split; [|done].
      by apply (interned_simple addr _ addresses_hex s' (RUnion (m :: m' :: ms))).
Qed.


(** ** Witnesses *)

Definition ex_union : outcome Empty_set TypeId * interner := union [Some 1%nat; Some 2%nat] ex_state.
Lemma ex_union_args : Forall (λ t, (t < length (heap ex_state))%nat) (args [Some 1%nat; Some 2%nat]).
Proof. repeat constructor; vm_compute; lia. Defined.


Theorem union_canonical_witness :
  (3%nat ∈ args [Some 1%nat; Some 2%nat] ∧ has (flags_at (heap ex_state) 3%nat) TypeFlags.Any = true)
  ∨ (3%nat ∈ flat (heap ex_state) [Some 1%nat; Some 2%nat] ∧ has (flags_at (heap ex_state) 3%nat) TypeFlags.Unknown = true)
  ∨ heap ex_union.2 !! 3%nat = Some (set_TID (tid 3) (flag_type TypeFlags.Never))
  ∨ member_ok (heap ex_union.2) 3%nat
  ∨ ∃ ms, heap ex_union.2 !! 3%nat = Some (set_TID (tid 3) (union_type ms)) ∧ canonical (heap ex_union.2) ms.
Proof. apply (union_canonical ex_addr ex_state _ _ _ _ ex_reachable ex_union_args). vm_compute. reflexivity. Defined.

