(* ===== verification/TypeQuery.v ===== *)
(** * What the queries on types answer *)

From S2P Require Import Prelude GoString TextFacts Symbols SymbolFacts Mangle Types TypeKeys TypeFacts TypeProps.
From Stdlib Require Import Ascii.
Open Scope Z_scope.

(** ** How many arguments a call must pass *)

(** No parameter up to [i] is optional or the rest parameter. *)
Definition stops_at (t : Ty) (i : nat) : bool :=
  OptionalParam t i || (restParam (sig t) && (i =? length (Params (sig t)) - 1)%nat).
Definition required (t : Ty) (i : nat) : Prop := ∀ j, (j ≤ i)%nat → stops_at t j = false.

Lemma required_upto_spec t ps i m :
  m = i → (∀ j, (j < i)%nat → stops_at t j = false) →
  (i ≤ required_upto t i ps m ≤ i + length ps)%nat
  ∧ (∀ j, (j < required_upto t i ps m)%nat → stops_at t j = false)
  ∧ ((required_upto t i ps m < i + length ps)%nat → stops_at t (required_upto t i ps m) = true).
Proof.
  revert i m. induction ps as [|p ps IH]; intros i m -> Hreq; cbn [required_upto length].
  - split; [lia|]. split; [done|lia].
  - fold (stops_at t i). destruct (stops_at t i) eqn:Hs.
    + split; [lia|]. by split.
    + assert (∀ j, (j < S i)%nat → stops_at t j = false) as Hreq'.
      { intros j Hj. destruct (decide (j = i)) as [->|?]; [done|]. apply Hreq. lia. }
      destruct (IH (S i) (S i) eq_refl Hreq') as (Hle & Hall & Hend). split; [lia|]. split; [done|]. intros ?. apply Hend. lia.
Qed.

Lemma drop_void_spec h ps m :
  (m ≤ length ps)%nat →
  (drop_void h ps m ≤ m)%nat
  ∧ (∀ i p, (drop_void h ps m ≤ i < m)%nat → ps !! i = Some p → acceptsVoid h p = true)
  ∧ ∀ p, (0 < drop_void h ps m)%nat → ps !! (drop_void h ps m - 1)%nat = Some p → acceptsVoid h p = false.
Proof.
  induction m as [|m IH]; intros Hm; cbn [drop_void].
  - split; [lia|]. split; intros; lia.
  - destruct (lookup_lt_is_Some_2 ps m ltac:(lia)) as [p Hp]. rewrite Hp. destruct (acceptsVoid h p) eqn:Hv.
    + destruct (IH ltac:(lia)) as (Hle & Hvoid & Hlast). split; [lia|]. split; [|done]. intros i q Hi Hq.
      destruct (decide (i = m)) as [->|?]; [congruence|]. apply (Hvoid i); [lia|done].
    + split; [lia|]. split; [intros; lia|]. intros q _ Hq. replace (S m - 1)%nat with m in Hq by lia. congruence.
Qed.

(** The least number of arguments of a call is at most the number of
    parameters; every parameter below it comes before the first optional or
    rest parameter; those from it on which come before that parameter all
    accept [void], and the last one below it does not. *)
Theorem min_args_spec h t :
  let n := MinArgs h t in
  (n ≤ length (Params (sig t)))%nat
  ∧ (∀ i, (i < n)%nat → required t i)
  ∧ (∀ i p, (n ≤ i)%nat → Params (sig t) !! i = Some p → required t i → acceptsVoid h p = true)
  ∧ ∀ p, (0 < n)%nat → Params (sig t) !! (n - 1)%nat = Some p → acceptsVoid h p = false.
Proof.
  cbv zeta. unfold MinArgs.
  destruct (required_upto_spec t (Params (sig t)) 0 0 eq_refl ltac:(intros; lia)) as ([_ Hle] & Hreq & Hend).
  set (m := required_upto t 0 (Params (sig t)) 0) in *. destruct (drop_void_spec h (Params (sig t)) m ltac:(lia)) as (Hd & Hvoid & Hlast).
  split; [lia|]. split; [intros i Hi j Hj; apply Hreq; lia|]. split; [|done].
  intros i p Hi Hp Hr. destruct (decide (i < m)%nat) as [Him|Him]; [by apply (Hvoid i)|].
  pose proof (lookup_lt_Some _ _ _ Hp) as Hil. specialize (Hr m ltac:(lia)). rewrite Hend in Hr by lia. done.
Qed.

(** A required parameter after an optional one does not count. *)
Example min_args_optional_first :
  let t := set_sig (mkSignature [0; 0]%nat (Some 0%nat) [] None [] [] None [true; false] false) (object_type no_object) in
  OptionalParam t 1 = false ∧ MinArgs (heap ex_state) t = 0%nat.
Proof. by vm_compute. Qed.

(** ** Deriving from a class *)

(** The instance type [k] steps up from [t]. *)
Fixpoint base_chain (h : list Ty) (k : nat) (t : TypeId) : option Ty :=
  n ← h !! t;
  match k with
  | O => Some n
  | S k => b ← Base (obj n); base_chain h k b
  end.
Definition instance_of (n : Ty) (sym : SymId) : Prop := Kind (obj n) = Instance_ ∧ ts_ptr <$> TSymbol (obj n) = Some sym.

(** The base types are in the heap. *)
Definition bases_ok (h : list Ty) : Prop := ∀ t n b, h !! t = Some n → Base (obj n) = Some b → (b < length h)%nat.

Lemma derives_from_spec seen h t sym :
  bases_ok h → (t < length h)%nat →
  ∃ b, derives_from seen h (Some t) sym = Some b
    ∧ (b = true ↔ ∃ k n, (k < seen)%nat ∧ base_chain h k t = Some n ∧ instance_of n sym).
Proof.
  intros Hb. revert t. induction seen as [|seen IH]; intros t Ht; cbn [derives_from].
  { exists false. split; [done|]. split; [done|]. intros (k & n & ? & _). lia. }
  destruct (lookup_lt_is_Some_2 _ _ Ht) as [n Hn]. rewrite Hn. cbn [mbind option_bind].
  destruct (bool_decide_reflect (Kind (obj n) = Instance_)) as [Hk|Hk], (bool_decide_reflect (ts_ptr <$> TSymbol (obj n) = Some sym)) as [Hs|Hs];
    cbn [andb].
  { exists true. split; [done|]. split; [|done]. intros _. exists 0%nat, n. split; [lia|]. cbn. by rewrite Hn. }
  all: assert (¬ instance_of n sym) as Hno by (by intros [? ?]).
  all: destruct (Base (obj n)) as [b|] eqn:Hbase.
  all: try (destruct (IH b ltac:(by eapply Hb)) as (r & -> & Hr); exists r; split; [done|]; rewrite Hr; split;
    [intros (k & m & ? & Hc & ?); exists (S k), m; split; [lia|]; cbn; rewrite Hn; cbn; by rewrite Hbase
    |intros ([|k] & m & ? & Hc & Hi); cbn in Hc; rewrite Hn in Hc; cbn in Hc;
       [by injection Hc as <-|rewrite Hbase in Hc; exists k, m; split; [lia|done]]]).
  all: exists false; split; [by destruct seen|]; split; [done|]; intros ([|k] & m & ? & Hc & Hi); cbn in Hc; rewrite Hn in Hc; cbn in Hc;
    [by injection Hc as <-|by rewrite Hbase in Hc].
Qed.

(** C39: a type derives from a class exactly when it, or one of the 63 types
    above it, is an instance type of the class; the walk ends whatever the base
    types are, cycles included. *)
Theorem derives_within_64 h t sym :
  bases_ok h → (t < length h)%nat →
  ∃ b, Derives h (Some t) sym = Some b
    ∧ (b = true ↔ ∃ k n, (k < 64)%nat ∧ base_chain h k t = Some n ∧ instance_of n sym).
Proof. apply derives_from_spec. Qed.

(** A class and [k] classes below it, each extending the one before. *)
Definition class_type (i : nat) (base : option TypeId) : Ty :=
  object_type (mkObject Instance_ None [] 0 None [] (Some (mkTypeSymbol i i "C" "" 0)) None base [] None None [] [] None false false).
Definition class_chain (k : nat) : list Ty := map (λ i, class_type i (match i with O => None | S i => Some i end)) (seq 0 (S k)).

Lemma class_chain_bases k : bases_ok (class_chain k).
Proof.
  intros t n b Hn Hb. unfold class_chain in *. rewrite length_map, length_seq. rewrite list_lookup_fmap in Hn.
  destruct (seq 0 (S k) !! t) as [i|] eqn:Hi; [|done]. apply lookup_seq in Hi as [-> ?]. cbn in Hn. injection Hn as <-.
  cbn in Hb. destruct t; [done|]. injection Hb as <-. lia.
Qed.

Theorem derives_within_64_witness :
  ∃ b, Derives (class_chain 3) (Some 3%nat) 0%nat = Some b
    ∧ (b = true ↔ ∃ k n, (k < 64)%nat ∧ base_chain (class_chain 3) k 3 = Some n ∧ instance_of n 0%nat).
Proof. apply (derives_within_64 (class_chain 3) 3 0 (class_chain_bases 3)). vm_compute. lia. Defined.

(** The 64th subclass of a class does not derive from it. *)
Example derives_too_deep : Derives (class_chain 64) (Some 64%nat) 0%nat = Some false ∧ Derives (class_chain 64) (Some 63%nat) 0%nat = Some true.
Proof. by vm_compute. Qed.

(** ** Types the interner takes for one another *)

Definition ex_property (name : string) (t : TypeId) : Property := mkProperty name t false false None false "" "" None false.

(** [{a: string; b: "a"}], and the type of the one property ["a:1;b"]. *)
Example object_key_collision :
  let (t1, s1) := object [ex_property "a" 0; ex_property "b" 1] ex_state in
  let (t2, s2) := object [ex_property "a:1;b" 1] s1 in
  t1 = Ok 3%nat ∧ t2 = Ok 3%nat ∧ length (heap s2) = length (heap s1).
Proof. by vm_compute. Qed.

(** [(string & number-brand) | "a"] is the branded string: the literal, which
    has no brand, is left out. *)
Example branded_absorbs_literal :
  let (t1, s1) := branded 0 2 ex_state in
  let (t2, _) := union [Some 3%nat; Some 1%nat] s1 in
  t1 = Ok 3%nat ∧ t2 = Ok 3%nat.
Proof. by vm_compute. Qed.
