(* ===== verification/Fallthrough.v ===== *)
(** * Can a function body end without a value? (src/codegen/llvm/emit_fallthrough.go)

    The analysis that decides whether an inferred return type is widened by
    undefined, one definition per function. *)

From S2P Require Import Prelude Diag Ast.

(** A [range] loop that stops at the first statement [p] holds of. *)
Definition some {A} (p : A → bool) : list A → bool :=
  fix some xs := match xs with [] => false | x :: xs => p x || some xs end.
Definition some_opt {A} (p : A → bool) (x : option A) : bool :=
  match x with Some x => p x | None => false end.

Definition isTrueLiteral (e : option Node) : bool :=
  match e with
  | None => true
  | Some e => match nkind e with BooleanLiteral v => v | _ => false end
  end.

(** [walkStmtTree(stmt, fn)]; [walkBlock] is the walk of a block's statements. *)
Section walk.
Variable fn : Node → bool.
Fixpoint walkStmtTree (s : Node) : bool :=
  fn s ||
  match s with
  | mkNode _ _ k =>
      match k with
      | BlockStatement body => some walkStmtTree body
      | IfStatement _ c a => some_opt walkBlock c || some_opt walkStmtTree a
      | WhileStatement _ b | DoWhileStatement b _ | ForStatement _ _ _ b | ForOfStatement _ _ _ _ _ b
      | ForInStatement _ _ _ b => some_opt walkBlock b
      | LabeledStatement _ b => walkStmtTree b
      | SwitchStatement _ cases => some (λ '(mkCase _ body), some walkStmtTree body) cases
      | TryStatement b c f =>
          some_opt walkBlock b || some_opt (λ '(mkCatch _ _ cb), some_opt walkBlock cb) c || some_opt walkBlock f
      | _ => false
      end
  end
with walkBlock (b : Block) : bool := match b with mkBlock _ _ body => some walkStmtTree body end.
End walk.

Definition stmtHasLabeledBreak : Node → bool :=
  walkStmtTree (λ s, match nkind s with BreakStatement l => negb (bool_decide (l = "")) | _ => false end).

(** [blockHasBareReturn]: the block is walked as the statement it is. *)
Definition bare_return (s : Node) : bool :=
  match nkind s with ReturnStatement None => true | _ => false end.
Definition blockHasBareReturn (b : option Block) : bool :=
  some_opt (λ b, walkStmtTree bare_return (as_node b)) b.

(** [stmtHasOwnBreak], [stmtsHaveOwnBreak] and [blockHasOwnBreak]. *)
Fixpoint stmtHasOwnBreak (s : Node) : bool :=
  match s with
  | mkNode _ _ k =>
      match k with
      | BreakStatement _ => true
      | BlockStatement body => some stmtHasOwnBreak body
      | IfStatement _ c a => some_opt blockHasOwnBreak_ c || some_opt stmtHasOwnBreak a
      | TryStatement b c f =>
          some_opt blockHasOwnBreak_ b || some_opt (λ '(mkCatch _ _ cb), some_opt blockHasOwnBreak_ cb) c
          || some_opt blockHasOwnBreak_ f
      | LabeledStatement _ b => stmtHasOwnBreak b
      | WhileStatement _ _ | DoWhileStatement _ _ | ForStatement _ _ _ _ | ForOfStatement _ _ _ _ _ _
      | ForInStatement _ _ _ _ | SwitchStatement _ _ => stmtHasLabeledBreak s
      | _ => false
      end
  end
with blockHasOwnBreak_ (b : Block) : bool := match b with mkBlock _ _ body => some stmtHasOwnBreak body end.
Definition stmtsHaveOwnBreak (ss : list Node) : bool := some stmtHasOwnBreak ss.
Definition blockHasOwnBreak (b : option Block) : bool := some_opt blockHasOwnBreak_ b.

(** Of the last element of a list, [d] when there is none. *)
Definition of_last {A B} (d : B) (f : A → B) : list A → B :=
  fix of_last xs := match xs with [] => d | [x] => f x | _ :: xs => of_last xs end.

(** [stmtMayCompleteNormally] and [blockMayCompleteNormally]. *)
Fixpoint stmtMayCompleteNormally (s : Node) : bool :=
  match s with
  | mkNode _ _ k =>
      match k with
      | ReturnStatement _ | ThrowStatement _ => false
      | BlockStatement body => forallb stmtMayCompleteNormally body
      | LabeledStatement _ b => stmtMayCompleteNormally b || stmtHasLabeledBreak b
      | IfStatement _ c a =>
          match a with
          | None => true
          | Some a =>
              (match c with Some b => block_may b | None => true end) || stmtMayCompleteNormally a
          end
      | WhileStatement t b => negb (isTrueLiteral (Some t)) || blockHasOwnBreak b
      | ForStatement _ t _ b => bool_decide (is_Some t) || blockHasOwnBreak b
      | DoWhileStatement b t =>
          if blockHasOwnBreak b then true
          else negb (isTrueLiteral (Some t)) && match b with Some b => block_may b | None => true end
      | TryStatement b c f =>
          let body := match b with Some b => block_may b | None => true end in
          if bool_decide (is_Some f) && negb (match f with Some f => block_may f | None => true end) then false
          else match c with
               | None => body
               | Some (mkCatch _ _ cb) => body || match cb with Some b => block_may b | None => true end
               end
      | SwitchStatement _ cases =>
          if some (λ '(mkCase _ body), stmtsHaveOwnBreak body) cases then true
          else if negb (some (λ '(mkCase t _), bool_decide (t = None)) cases) || bool_decide (cases = []) then true
          else of_last true (λ '(mkCase _ body), of_last true stmtMayCompleteNormally body) cases
      | _ => true
      end
  end
with block_may (b : Block) : bool := match b with mkBlock _ _ body => forallb stmtMayCompleteNormally body end.
Definition blockMayCompleteNormally (b : option Block) : bool :=
  match b with Some b => block_may b | None => true end.

(** The test of [widenIfMayFallOff]: is the return type widened? *)
Definition mayFallOff (b : option Block) : bool := blockMayCompleteNormally b || blockHasBareReturn b.
