(* ===== verification/FallthroughProps.v ===== *)
(** * What the fall-through analysis promises

    How a statement may complete is told here on its own, as the language
    specification tells it: values are left out, so that a test may go either
    way unless it is literally true, and anything evaluated may throw.  The
    analysis is compared with it. *)

From S2P Require Import Prelude Diag Ast Fallthrough.

Inductive completion := Normal | Break (label : string) | Continue (label : string) | Return (value : bool) | Throw.

(** Does a loop with the labels [ls] go on after its body completed so? *)
Definition goes_on (ls : list string) (c : completion) : Prop :=
  c = Normal ∨ ∃ l, c = Continue l ∧ (l = "" ∨ l ∈ ls).
(** What a break without label makes of a loop or switch. *)
Definition leave (c : completion) : completion :=
  match c with Break l => if bool_decide (l = "") then Normal else c | _ => c end.

(** A statement without statements in it. *)
Definition simple (n : Node) : bool :=
  match nkind n with
  | BlockStatement _ | IfStatement _ _ _ | WhileStatement _ _ | DoWhileStatement _ _ | ForStatement _ _ _ _
  | ForOfStatement _ _ _ _ _ _ | ForInStatement _ _ _ _ | LabeledStatement _ _ | SwitchStatement _ _
  | TryStatement _ _ _ | BreakStatement _ | ContinueStatement _ | ReturnStatement _ | ThrowStatement _ => false
  | _ => true
  end.
(** The body of a loop that is tested before each round, and whether its test may fail. *)
Definition tested_loop (n : Node) : option (bool * option Block) :=
  match nkind n with
  | WhileStatement t b => Some (negb (isTrueLiteral (Some t)), b)
  | ForStatement _ t _ b => Some (negb (isTrueLiteral t), b)
  | ForOfStatement _ _ _ _ _ b | ForInStatement _ _ _ b => Some (true, b)
  | _ => None
  end.

(** [completes ls n c]: the statement [n], with the labels [ls], may complete with [c]. *)
Inductive completes : list string → Node → completion → Prop :=
  | does_simply ls n c : simple n = true → c = Normal ∨ c = Throw → completes ls n c
  | does_break ls i p l : completes ls (mkNode i p (BreakStatement l)) (Break l)
  | does_continue ls i p l : completes ls (mkNode i p (ContinueStatement l)) (Continue l)
  | does_return ls i p v c :
      c = Return (bool_decide (is_Some v)) ∨ c = Throw → completes ls (mkNode i p (ReturnStatement v)) c
  | does_throw ls i p v : completes ls (mkNode i p (ThrowStatement v)) Throw
  | does_block ls i p body c : all_complete body c → completes ls (mkNode i p (BlockStatement body)) c
  | does_test ls i p t thn els : completes ls (mkNode i p (IfStatement t thn els)) Throw
  | does_then ls i p t thn els c : block_completes thn c → completes ls (mkNode i p (IfStatement t thn els)) c
  | does_else ls i p t thn els c : completes [] els c → completes ls (mkNode i p (IfStatement t thn (Some els))) c
  | does_nothing ls i p t thn : completes ls (mkNode i p (IfStatement t thn None)) Normal
  | does_head ls n loop : tested_loop n = Some loop → completes ls n Throw
  | does_loop ls n exits b c : tested_loop n = Some (exits, b) → loops ls exits b c → completes ls n c
  | does_once ls i p b t c1 c :
      block_completes b c1 → goes_on ls c1 → loops ls (negb (isTrueLiteral (Some t))) b c →
      completes ls (mkNode i p (DoWhileStatement b t)) c
  | does_leave ls i p b t c1 :
      block_completes b c1 → ¬ goes_on ls c1 → completes ls (mkNode i p (DoWhileStatement b t)) (leave c1)
  | does_label ls i p l b c : completes (l :: ls) b c → c ≠ Break l → completes ls (mkNode i p (LabeledStatement l b)) c
  | does_break_label ls i p l b :
      completes (l :: ls) b (Break l) → l ≠ "" → completes ls (mkNode i p (LabeledStatement l b)) Normal
  | does_discriminant ls i p d cases : completes ls (mkNode i p (SwitchStatement d cases)) Throw
  | does_cases ls i p d others chosen c :
      all_complete (concat (map (λ '(mkCase _ body), body) chosen)) c → chosen ≠ [] →
      completes ls (mkNode i p (SwitchStatement d (others ++ chosen))) (leave c)
  | does_no_case ls i p d cases :
      forallb (λ '(mkCase t _), bool_decide (is_Some t)) cases = true →
      completes ls (mkNode i p (SwitchStatement d cases)) Normal
  | does_try ls i p b catch c : tries b catch c → completes ls (mkNode i p (TryStatement b catch None)) c
  | does_finally ls i p b catch f c :
      tries b catch c → block_completes (Some f) Normal → completes ls (mkNode i p (TryStatement b catch (Some f))) c
  | does_override ls i p b catch f c c' :
      tries b catch c → block_completes (Some f) c' → c' ≠ Normal →
      completes ls (mkNode i p (TryStatement b catch (Some f))) c'
with all_complete : list Node → completion → Prop :=
  | all_done : all_complete [] Normal
  | all_stop n ns c : completes [] n c → c ≠ Normal → all_complete (n :: ns) c
  | all_next n ns c : completes [] n Normal → all_complete ns c → all_complete (n :: ns) c
with block_completes : option Block → completion → Prop :=
  | block_none : block_completes None Normal
  | block_some i p body c : all_complete body c → block_completes (Some (mkBlock i p body)) c
(** The rounds of a loop, from a test on. *)
with loops : list string → bool → option Block → completion → Prop :=
  | loops_throw ls exits b : loops ls exits b Throw
  | loops_exit ls b : loops ls true b Normal
  | loops_on ls exits b c1 c : block_completes b c1 → goes_on ls c1 → loops ls exits b c → loops ls exits b c
  | loops_leave ls exits b c1 : block_completes b c1 → ¬ goes_on ls c1 → loops ls exits b (leave c1)
(** A try block with its catch clause. *)
with tries : option Block → option CatchClause → completion → Prop :=
  | tries_body b catch c : block_completes b c → c ≠ Throw ∨ catch = None → tries b catch c
  | tries_catch b param pattern cb c :
      block_completes b Throw → block_completes cb c → tries b (Some (mkCatch param pattern cb)) c
  | tries_pattern b catch : block_completes b Throw → tries b (Some catch) Throw.

Scheme completes_min := Minimality for completes Sort Prop
  with all_complete_min := Minimality for all_complete Sort Prop
  with block_completes_min := Minimality for block_completes Sort Prop
  with loops_min := Minimality for loops Sort Prop
  with tries_min := Minimality for tries Sort Prop.
Combined Scheme completes_mutual from completes_min, all_complete_min, block_completes_min, loops_min, tries_min.

(** ** The one case the analysis gets wrong: a continue in a do statement *)

Definition is_continue (s : Node) : bool := match nkind s with ContinueStatement _ => true | _ => false end.
Definition continued_do (s : Node) : bool :=
  match nkind s with DoWhileStatement (Some b) _ => walkBlock is_continue b | _ => false end.

(** What a completion shows of a statement, a list of statements, a block: [may]
    is the analysis of it, [own] its break test, [walk] the walk of it. *)
Definition shows (may own : bool) (walk : (Node → bool) → bool) (c : completion) : Prop :=
  match c with
  | Normal => walk continued_do = false → may = true
  | Break l => own = true
      ∧ (l ≠ "" → walk (λ s, match nkind s with BreakStatement l => negb (bool_decide (l = "")) | _ => false end) = true)
  | Continue _ => walk is_continue = true
  | Return v => v = false → walk bare_return = true
  | Throw => True
  end.
Definition node_shows (n : Node) : completion → Prop :=
  shows (stmtMayCompleteNormally n) (stmtHasOwnBreak n) (λ fn, walkStmtTree fn n).
Definition list_shows (ns : list Node) : completion → Prop :=
  shows (forallb stmtMayCompleteNormally ns) (stmtsHaveOwnBreak ns) (λ fn, some (walkStmtTree fn) ns).
Definition block_shows (b : option Block) : completion → Prop :=
  shows (blockMayCompleteNormally b) (blockHasOwnBreak b) (λ fn, some_opt (walkBlock fn) b).

(** What a loop shows, of its test and body. *)
Definition loop_shows (exits : bool) (b : option Block) (c : completion) : Prop :=
  match c with
  | Normal => exits = true ∨ blockHasOwnBreak b = true
  | Break l => l ≠ "" ∧ block_shows b c
  | _ => block_shows b c
  end.
Definition try_shows (b : option Block) (catch : option CatchClause) : completion → Prop :=
  let in_catch := λ p, some_opt (λ '(mkCatch _ _ cb), some_opt p cb) catch in
  shows (blockMayCompleteNormally b || match catch with
                                       | Some (mkCatch _ _ cb) => blockMayCompleteNormally cb
                                       | None => false
                                       end)
    (blockHasOwnBreak b || in_catch blockHasOwnBreak_) (λ fn, some_opt (walkBlock fn) b || in_catch (walkBlock fn)).

(** ** The lemmas *)

Lemma some_app {A} (p : A → bool) xs ys : some p (xs ++ ys) = some p xs || some p ys.
Proof. induction xs as [|x xs IH]; cbn; [done|]. by rewrite IH, orb_assoc. Qed.
Lemma some_concat {A B} (p : B → bool) (f : A → list B) xs : some p (concat (map f xs)) = some (λ x, some p (f x)) xs.
Proof. induction xs as [|x xs IH]; cbn; [done|]. by rewrite some_app, IH. Qed.
Lemma some_false {A} (p : A → bool) xs x : some p xs = false → x ∈ xs → p x = false.
Proof. induction xs as [|y xs IH]; cbn; [by intros _ ?%not_elem_of_nil|]. intros [? ?]%orb_false_iff [->|?]%elem_of_cons; auto. Qed.
Lemma of_last_app {A B} (d : B) (f : A → B) xs x : of_last d f (xs ++ [x]) = f x.
Proof. induction xs as [|y xs IH]; cbn; [done|]. by destruct (xs ++ [x]) eqn:E; [destruct xs|]. Qed.
Lemma of_last_true {A} (f : A → bool) xs : forallb f xs = true → of_last true f xs = true.
Proof.
  destruct xs as [|x xs _] using rev_ind; [done|]. rewrite of_last_app, forallb_app. cbn. by rewrite !andb_true_iff; intros (_ & ? & _).
Qed.

(** [shows] of a part is [shows] of the whole that looks at no less. *)
Lemma shows_mono may own (walk : (Node → bool) → bool) may' own' (walk' : (Node → bool) → bool) c :
  (own = true → own' = true) → (∀ fn, walk fn = true → walk' fn = true) →
  (c = Normal → (walk continued_do = false → may = true) → walk' continued_do = false → may' = true) →
  shows may own walk c → shows may' own' walk' c.
Proof.
  intros Hown Hwalk Hmay. destruct c; cbn; [by intros ?; apply Hmay| |by apply Hwalk| |done].
  - intros [? ?]. split; auto.
  - intros H ->. auto.
Qed.
Lemma walk_false (walk walk' : (Node → bool) → bool) fn :
  (∀ fn, walk fn = true → walk' fn = true) → walk' fn = false → walk fn = false.
Proof. intros H Hf. destruct (walk fn) eqn:E; [|done]. apply H in E. congruence. Qed.

(** The rule for a part [c] of a statement: its own break and walks are the
    whole's, and the analysis of the whole is true if that of the part is. *)
Lemma shows_part (may own may' own' : bool) (walk walk' : (Node → bool) → bool) c :
  (own = true → own' = true) → (∀ fn, walk fn = true → walk' fn = true) → (c = Normal → may = true → may' = true) →
  shows may own walk c → shows may' own' walk' c.
Proof.
  intros Ho Hw Hm. apply shows_mono; [done..|]. intros Hc H Hf. apply Hm, H; [done|]. by apply (walk_false walk walk').
Qed.

(** Boolean goals about statements of which the parts are known. *)
Ltac bools :=
  intros; unfold is_true in *; cbn in *; try discriminate;
  rewrite ?orb_true_iff, ?orb_false_iff, ?andb_true_iff in *; intuition congruence.

Lemma leave_cases c : (∃ l, l = "" ∧ c = Break l ∧ leave c = Normal) ∨ (leave c = c ∧ c ≠ Break "").
Proof.
  destruct c as [|l|l|v|]; cbn; try (right; by split). case_bool_decide as H; [left; eauto|right]. split; [done|]. by intros [= ->].
Qed.
Lemma labels_walk : stmtHasLabeledBreak = walkStmtTree (λ s, match nkind s with BreakStatement l => negb (bool_decide (l = "")) | _ => false end).
Proof. done. Qed.

(** ** Loops *)

Lemma loop_node n exits b c :
  tested_loop n = Some (exits, b) → loop_shows exits b c → node_shows n c.
Proof.
  destruct n as [i p k]. unfold node_shows. cbn -[stmtHasLabeledBreak].
  destruct k; cbn -[stmtHasLabeledBreak]; try done; intros [= <- <-]; destruct c; cbn -[stmtHasLabeledBreak]; rewrite ?labels_walk;
    try (intros (? & ? & Hw); split; [cbn; bools|bools]); try by bools.
  all: intros [He | ->] _; [|by rewrite ?orb_true_r].
  by destruct Test.
Qed.

Lemma loop_leave exits b c1 : block_shows b c1 → c1 ≠ Normal → loop_shows exits b (leave c1).
Proof.
  intros H Hn. destruct (leave_cases c1) as [(l & -> & -> & ->)|[-> Hc]]; [right; apply H|].
  destruct c1; cbn in *; try done. by split; [congruence|].
Qed.
(** A do statement: after a first round that goes on, or that leaves. *)
Lemma do_first i p b t c1 ls c :
  block_shows b c1 → goes_on ls c1 → loop_shows (negb (isTrueLiteral (Some t))) b c →
  node_shows (mkNode i p (DoWhileStatement b t)) c.
Proof.
  intros H1 Hg H. unfold node_shows. destruct c; cbn -[stmtHasLabeledBreak isTrueLiteral]; rewrite ?labels_walk;
    try (destruct H as (? & ? & Hw); split; [cbn; bools|bools]); try by cbn in H; bools.
  cbn -[isTrueLiteral] in H. destruct (blockHasOwnBreak b) eqn:Eb; [done|]. destruct H as [->|?]; [|done].
  destruct b as [b|]; [|done]. intros [Hc Hd]%orb_false_iff. cbn in Hc, Hd.
  destruct Hg as [->|(l & -> & _)]; [by apply H1|]. cbn in H1. congruence.
Qed.
Lemma do_first_leave i p b t c1 :
  block_shows b c1 → c1 ≠ Normal → node_shows (mkNode i p (DoWhileStatement b t)) (leave c1).
Proof.
  intros H Hn. apply (loop_leave false) in H; [|done]. unfold node_shows.
  destruct (leave c1); cbn -[stmtHasLabeledBreak]; rewrite ?labels_walk;
    try (destruct H as (? & ? & Hw); split; [cbn; bools|bools]); try by cbn in H; bools.
  by destruct H as [?| ->].
Qed.

(** ** The other statements *)

Lemma if_parts i p t thn els c :
  (block_shows thn c → node_shows (mkNode i p (IfStatement t thn els)) c)
  ∧ (∀ e, els = Some e → node_shows e c → node_shows (mkNode i p (IfStatement t thn els)) c).
Proof.
  split; [|intros e ->]; apply shows_part; destruct thn as [b|]; try destruct els; bools.
Qed.
Lemma label_part i p l b c : node_shows b c → node_shows (mkNode i p (LabeledStatement l b)) c.
Proof. apply shows_part; bools. Qed.
Lemma label_break i p l b : node_shows b (Break l) → l ≠ "" → node_shows (mkNode i p (LabeledStatement l b)) Normal.
Proof. intros (_ & H) Hl _. cbn. rewrite labels_walk, H by done. apply orb_true_r. Qed.

(** The statements of the clauses of a switch. *)
Definition clause_body (c : SwitchCase) : list Node := match c with mkCase _ body => body end.
Lemma switch_walk i p d others chosen fn :
  some (walkStmtTree fn) (concat (map clause_body chosen)) = true →
  walkStmtTree fn (mkNode i p (SwitchStatement d (others ++ chosen))) = true.
Proof.
  intros H. rewrite some_concat in H. cbn. rewrite some_app.
  replace (some _ chosen) with true; [by rewrite !orb_true_r|]. symmetry. rewrite <- H. clear H.
  induction chosen as [|[t body] cs IH]; cbn; [done|]. by rewrite IH.
Qed.
Lemma switch_own i p d others chosen :
  stmtsHaveOwnBreak (concat (map clause_body chosen)) = true →
  stmtMayCompleteNormally (mkNode i p (SwitchStatement d (others ++ chosen))) = true.
Proof.
  unfold stmtsHaveOwnBreak at 1. rewrite some_concat. intros H. cbn. rewrite some_app.
  replace (some _ chosen) with true; [by rewrite orb_true_r|]. symmetry. rewrite <- H. clear H.
  induction chosen as [|[t body] cs IH]; cbn; [done|]. by rewrite IH.
Qed.
Lemma switch_last i p d others chosen :
  forallb stmtMayCompleteNormally (concat (map clause_body chosen)) = true → chosen ≠ [] →
  stmtMayCompleteNormally (mkNode i p (SwitchStatement d (others ++ chosen))) = true.
Proof.
  destruct chosen as [|[t body] chosen _] using rev_ind; [done|]. rewrite map_app, concat_app, forallb_app. cbn.
  intros [_ H]%andb_true_iff _. rewrite app_nil_r in H. rewrite app_assoc, of_last_app, of_last_true by done.
  by repeat case_match.
Qed.
Lemma switch_part i p d others chosen c :
  list_shows (concat (map clause_body chosen)) c → chosen ≠ [] →
  node_shows (mkNode i p (SwitchStatement d (others ++ chosen))) (leave c).
Proof.
  intros H Hne. destruct (leave_cases c) as [(l & -> & -> & ->)|[-> Hc]]; [intros _; by apply switch_own, H|].
  destruct c as [|l|l|v|]; [|split; [|intros Hl]|..]; cbn in H.
  - intros Hf. apply switch_last; [|done]. apply H. by refine (walk_false (λ fn, some (walkStmtTree fn) _) (λ fn, walkStmtTree fn _) _ _ Hf); intros fn; apply switch_walk.
  - apply switch_walk, H. congruence.
  - by apply switch_walk, H.
  - by apply switch_walk.
  - intros ->. by apply switch_walk, H.
  - done.
Qed.
Lemma switch_none i p d cases :
  forallb (λ '(mkCase t _), bool_decide (is_Some t)) cases = true → node_shows (mkNode i p (SwitchStatement d cases)) Normal.
Proof.
  intros H _. cbn. replace (some (λ '(mkCase t _), bool_decide (t = None)) cases) with false; [by repeat case_match|].
  symmetry. induction cases as [|[t body] cs IH]; cbn in *; [done|]. apply andb_true_iff in H as [Ht H]. rewrite IH by done.
  by destruct t.
Qed.

(** A try statement. *)
Lemma try_part i p b catch c : try_shows b catch c → node_shows (mkNode i p (TryStatement b catch None)) c.
Proof.
  apply shows_part; [|intros fn|intros _]; destruct b as [b|], catch as [[param pattern [cb|]]|];
    bools.
Qed.
Lemma try_finally i p b catch f c :
  try_shows b catch c → block_shows (Some f) Normal → node_shows (mkNode i p (TryStatement b catch (Some f))) c.
Proof.
  intros H Hf. unfold node_shows. refine (shows_mono _ _ _ _ _ _ _ _ _ _ H).
  - destruct b as [b|], catch as [[param pattern [cb|]]|]; bools.
  - intros fn. destruct b as [b|], catch as [[param pattern [cb|]]|]; bools.
  - intros -> Hm Hw. cbn in Hw. apply orb_false_iff in Hw as [Hw Hwf]. cbn in *. rewrite Hf by done. cbn.
    assert (Ht := Hm Hw). clear Hm Hw Hf. destruct b as [b|], catch as [[param pattern [cb|]]|]; bools.
Qed.
Lemma try_override i p b catch f c :
  block_shows (Some f) c → c ≠ Normal → node_shows (mkNode i p (TryStatement b catch (Some f))) c.
Proof. intros H Hn. revert H. apply shows_mono; [bools|intros fn; bools|done]. Qed.

(** A list of statements: its first stops, or completes and the others follow. *)
Lemma list_stop n ns c : node_shows n c → c ≠ Normal → list_shows (n :: ns) c.
Proof. intros H Hn. revert H. apply shows_mono; [bools|intros fn; bools|done]. Qed.
Lemma list_next n ns c : node_shows n Normal → list_shows ns c → list_shows (n :: ns) c.
Proof.
  intros Hn. apply shows_mono; [bools|intros fn; bools|]. intros -> H [Hw Hws]%orb_false_iff. cbn. by rewrite Hn, H.
Qed.
Lemma list_block i p body c :
  list_shows body c → node_shows (mkNode i p (BlockStatement body)) c ∧ block_shows (Some (mkBlock i p body)) c.
Proof. by split. Qed.

(** ** Every completion shows *)

Lemma completes_shows :
  (∀ ls n c, completes ls n c → node_shows n c)
  ∧ (∀ ns c, all_complete ns c → list_shows ns c)
  ∧ (∀ b c, block_completes b c → block_shows b c)
  ∧ (∀ ls exits b c, loops ls exits b c → loop_shows exits b c)
  ∧ (∀ b catch c, tries b catch c → try_shows b catch c).
Proof.
  apply completes_mutual.
  - (* simple *) intros ls n c Hs [-> | ->]; [|done]. intros _. by destruct n as [i p []].
  - intros ls i p l. split; [done|]. intros Hl. cbn. by rewrite bool_decide_eq_false_2.
  - done.
  - intros ls i p v c [-> | ->]; [|done]. by destruct v.
  - done.
  - intros ls i p body c _ H. by apply list_block.
  - done.
  - intros ls i p t thn els c _ H. by apply if_parts.
  - intros ls i p t thn els c _ H. by eapply if_parts.
  - done.
  - done.
  - intros ls n exits b c Hl _ H. by eapply loop_node.
  - intros ls i p b t c1 c _ H1 Hg _ H. by eapply do_first.
  - intros ls i p b t c1 _ H1 Hg. apply do_first_leave; [done|]. intros ->. apply Hg. by left.
  - intros ls i p l b c _ H _. by apply label_part.
  - intros ls i p l b _ H Hl. by eapply label_break.
  - done.
  - intros ls i p d others chosen c _ H Hne. by apply switch_part.
  - intros. by apply switch_none.
  - intros ls i p b catch c _ H. by apply try_part.
  - intros ls i p b catch f c _ H _ Hf. by apply try_finally.
  - intros ls i p b catch f c c' _ _ _ Hf Hn. by apply try_override.
  - done.
  - intros n ns c _ H Hn. by apply list_stop.
  - intros n ns c _ Hn _ H. by apply list_next.
  - done.
  - intros i p body c _ H. by apply list_block.
  - done.
  - intros. by left.
  - done.
  - intros ls exits b c1 _ H Hg. apply loop_leave; [done|]. intros ->. apply Hg. by left.
  - intros b catch c _ H _. revert H. apply shows_part; bools.
  - intros b param pattern cb c _ _ _ H. revert H. apply shows_part; destruct cb; bools.
  - done.
Qed.

(** ** The theorem *)

(** C9: when the analysis says that a body cannot fall off its end nor return
    without a value, no execution of the body does, unless a do statement in
    it is continued. *)
Theorem never_falls_off b c :
  mayFallOff b = false → some_opt (walkBlock continued_do) b = false → block_completes b c → c ≠ Normal ∧ c ≠ Return false.
Proof.
  intros [Hm Hr]%orb_false_iff Hd Hc. apply completes_shows in Hc.
  split; intros ->; cbn in Hc; [specialize (Hc Hd)|specialize (Hc eq_refl)]; [congruence|].
  destruct b as [[i p body]|]; cbn in *; congruence.
Qed.

(** [if (c) { return 1; } else { while (true) { if (d) { throw e; } } }] *)
Definition leaf (i : nat) (k : NodeKind) : Node := mkNode i (mkPos 0 0) k.
Definition var (i : nat) (x : string) : Node := leaf i (Identifier x).
Definition body (ss : list Node) : Block := mkBlock 0 (mkPos 0 0) ss.
Definition throwing : Node := leaf 8 (IfStatement (var 9 "d") (Some (body [leaf 10 (ThrowStatement (Some (var 11 "e")))])) None).
Definition returning : Node :=
  leaf 1 (IfStatement (var 2 "c") (Some (body [leaf 3 (ReturnStatement (Some (var 4 "one")))]))
            (Some (leaf 5 (BlockStatement [leaf 6 (WhileStatement (leaf 7 (BooleanLiteral true)) (Some (body [throwing])))])))).
Lemma returning_returns : block_completes (Some (body [returning])) (Return true).
Proof.
  apply block_some, all_stop; [|done]. apply does_then, block_some, all_stop; [|done]. apply does_return. by left.
Qed.
Theorem never_falls_off_witness :
  mayFallOff (Some (body [returning])) = false ∧ (Return true ≠ Normal ∧ Return true ≠ Return false).
Proof. split; [reflexivity|]. exact (never_falls_off (Some (body [returning])) _ eq_refl eq_refl returning_returns). Defined.

(** [do { if (c) { continue; } return 1; } while (false);] ends normally by its
    continue; the analysis says it cannot. *)
Definition continued : Node :=
  leaf 1 (DoWhileStatement
    (Some (body [leaf 2 (IfStatement (var 3 "c") (Some (body [leaf 4 (ContinueStatement "")])) None);
                 leaf 5 (ReturnStatement (Some (var 6 "one")))]))
    (leaf 7 (BooleanLiteral false))).
Lemma continued_do_falls_off :
  mayFallOff (Some (body [continued])) = false ∧ block_completes (Some (body [continued])) Normal.
Proof.
  split; [reflexivity|]. apply block_some, all_next; [|constructor].
  apply does_once with (c1 := Continue ""); [|right; exists ""; by split; [|left]|apply loops_exit].
  apply block_some, all_stop; [|done]. apply does_then, block_some, all_stop; [|done]. apply does_continue.
Qed.
