(* ===== verification/Stream.v ===== *)
(** * The parser's tokens (src/parser/parser.go)

    The scanner runs on demand: the parser keeps what it has scanned, re-reads
    a token under another mode where the grammar settles what the scanner could
    not, and backtracks.  One definition per method, over the fields of
    [Parser] these methods and the parsing of expressions use. *)

From S2P Require Import Prelude GoString Diag Token Lexer Ast Jsdoc.
From Stdlib Require Import Ascii.
Open Scope Z_scope.

(** ** Messages (src/diag/messages.go) *)

Definition ExpectedToken := syntax 1005 "expected %s, got %s".
Definition ExpectedSemicolon := syntax 1005 "expected ';', got %s".
Definition ExpectedCloseAngle := syntax 1005 "expected '>' to close %s".
Definition ReservedWordIdent := syntax 1359 "'%s' is a reserved word that cannot be used here".
Definition YieldInGeneratorParams := syntax 2523 "'yield' expressions cannot be used in a parameter initializer".
Definition InvalidAssignTarget :=
  syntax 2364 "the left-hand side of an assignment expression must be a variable or a property access".
Definition InvalidUpdateTarget :=
  syntax 2357 "the operand of an increment or decrement operator must be a variable or a property access".
Definition ExpectedTemplateCont := syntax 1160 "expected template continuation, got %s".
Definition UnexpectedTokenInExpr := syntax 1109 "unexpected token %s in expression".
Definition LineBreakBeforeArrow := syntax 1200 "line break not allowed before '=>'".
Definition ExponentUnaryAmbiguous :=
  syntax 17006 "unary operator '%s' before '**' is ambiguous — parenthesize as '(%s x) ** y' or '%s(x ** y)'".

(** ** The state *)

Inductive await := awaitTop | awaitFn | awaitAsync | awaitStatic.

(** [ast.Assertion]: an erased [as const], [satisfies T] or [<T>]. *)
Record Assertion := mkAssertion { Const : bool; Satisfies : option TypeAnnotation; Cast : option TypeAnnotation }.

(** [lx] to [cursor] are the source's lx, tokens, states, rescans and pos;
    [psrc] and [blanks] are the source text and the ranges of its type syntax.
    An expression is told by its identity, which [made] counts. *)
Record Parser := mkParser {
  lx : Lexer; toks : list Token; states : list State; rescans : list nat; cursor : nat;
  psrc : string; blanks : list (nat * nat);
  docAt : option nat; pdoc : option (list Annotation);
  inGen : bool; inGenParams : bool; awaitCtx : await; noInFrom : option nat; speculating : nat;
  parenLiterals : gset nat; bareArrow : option nat; assertions : gmap nat Assertion; made : nat }.

(** [New]. *)
Definition NewParser (s : string) : Parser :=
  mkParser (New s) [] [] [] 0 s [] None None false false awaitTop None 0 ∅ None ∅ 0.

Definition set_stream (l : Lexer) (ts : list Token) (sts : list State) (rs : list nat) (p : Parser) : Parser :=
  mkParser l ts sts rs (cursor p) (psrc p) (blanks p) (docAt p) (pdoc p) (inGen p) (inGenParams p) (awaitCtx p)
    (noInFrom p) (speculating p) (parenLiterals p) (bareArrow p) (assertions p) (made p).
Definition set_cursor (i : nat) (p : Parser) : Parser :=
  mkParser (lx p) (toks p) (states p) (rescans p) i (psrc p) (blanks p) (docAt p) (pdoc p) (inGen p) (inGenParams p)
    (awaitCtx p) (noInFrom p) (speculating p) (parenLiterals p) (bareArrow p) (assertions p) (made p).
Definition set_blanks (bs : list (nat * nat)) (p : Parser) : Parser :=
  mkParser (lx p) (toks p) (states p) (rescans p) (cursor p) (psrc p) bs (docAt p) (pdoc p) (inGen p) (inGenParams p)
    (awaitCtx p) (noInFrom p) (speculating p) (parenLiterals p) (bareArrow p) (assertions p) (made p).
Definition set_pdoc (i : nat) (c : list Annotation) (p : Parser) : Parser :=
  mkParser (lx p) (toks p) (states p) (rescans p) (cursor p) (psrc p) (blanks p) (Some i) (Some c) (inGen p) (inGenParams p)
    (awaitCtx p) (noInFrom p) (speculating p) (parenLiterals p) (bareArrow p) (assertions p) (made p).

(** ** Token types *)

(** A token read as an identifier. *)
Definition as_ident (t : Token) : Token :=
  mkToken IDENT (Literal t) (RegexFlags t) (Raw t) (TLine t) (TCol t) (TPos t) (TEnd t) (Flags t) (Doc t) (TErr t).

(** [startsOperand]. *)
Definition no_operand : list TokenType :=
  [EOF; SEMICOLON; COMMA; COLON; DOT; OPTIONAL_DOT; RPAREN; RBRACKET; RBRACE; ARROW; QUESTION;
   ASSIGN; PLUS_ASSIGN; MINUS_ASSIGN; STAR_ASSIGN; SLASH_ASSIGN; PERCENT_ASSIGN; POW_ASSIGN; LSHIFT_ASSIGN; RSHIFT_ASSIGN;
   URSHIFT_ASSIGN; AND_ASSIGN; OR_ASSIGN; XOR_ASSIGN; LOGICAL_AND_ASSIGN; LOGICAL_OR_ASSIGN; NULLISH_ASSIGN;
   EQ; NEQ; STRICT_EQ; STRICT_NEQ; GT; GTE; LTE; AND; OR; NULLISH; STAR; SLASH; PERCENT; POW;
   BITAND; BITOR; BITXOR; LSHIFT; RSHIFT; URSHIFT; INSTANCEOF].
Definition startsOperand (t : TokenType) : bool := negb (existsb (tok_eqb t) no_operand).

(** [sort.SearchInts] in a list in order. *)
Fixpoint SearchInts (rs : list nat) (i : nat) : nat :=
  match rs with r :: rs => if (r <? i)%nat then S (SearchInts rs i) else O | [] => O end.

(** The token [at] answers past the last one. *)
Definition past_end (t : Token) : Token := mkToken EOF "" "" "" (TLine t) (TCol t) (TEnd t) (TEnd t) 0 "" None.
Definition stops_scan (t : Token) : bool := tok_eqb (Type_ t) EOF || tok_eqb (Type_ t) ILLEGAL.

(** [ast.SourceText.Slice]: the bytes of a range, those of type syntax blanked. *)
Definition blanked (bs : list (nat * nat)) (i : nat) : bool := existsb (λ '(lo, hi), (lo <=? i) && (i <? hi))%nat bs.
Fixpoint blank_from (bs : list (nat * nat)) (i : nat) (s : string) : string :=
  match s with
  | EmptyString => EmptyString
  | String a s => String (if blanked bs i && negb (is_byte 10 a) then " "%char else a) (blank_from bs (S i) s)
  end.
Definition Slice (src : string) (bs : list (nat * nat)) (start stop : nat) : string :=
  if (String.length src <? stop)%nat || (stop <=? start)%nat then ""
  else blank_from bs start (take_str (stop - start) (drop_str start src)).

Section stream.
Context `{U : Unicode}.

Definition PM : Type → Type := M Parser Diagnostic.
#[global] Instance PM_ret : MRet PM := M_ret.
#[global] Instance PM_bind : MBind PM := M_bind.

(** ** Reading *)

(** One more token, under a mode. *)
Definition scan_next (m : ScanMode) : PM unit := λ p,
  let st := Mark (lx p) in
  let (r, l) := Scan m (lx p) in
  match r with
  | Ok t => (Ok tt, set_stream l (toks p ++ [t]) (states p ++ [st]) (rescans p) p)
  | Err e => (Err e, p) | Panic => (Panic, p) | OutOfFuel => (OutOfFuel, p)
  end.

(** [at]: at most one scan for each token missing. *)
Fixpoint at_go (n i : nat) : PM Token :=
  p ← get;
  if (i <? length (toks p))%nat then index (toks p) i
  else
    match last (toks p) with
    | Some t => if stops_scan t then mret (past_end t)
                else match n with O => λ p, (OutOfFuel, p) | S n => scan_next ScanDefault ≫= λ _, at_go n i end
    | None => match n with O => λ p, (OutOfFuel, p) | S n => scan_next ScanDefault ≫= λ _, at_go n i end
    end.
Definition at_ (i : nat) : PM Token := p ← get; at_go (S i - length (toks p)) i.

Definition awaitIsIdent : PM bool :=
  p ← get;
  match awaitCtx p with
  | awaitFn | awaitTop => t ← at_ (cursor p + 1); mret (negb (startsOperand (Type_ t)))
  | _ => mret false
  end.

Definition peek : PM Token :=
  p ← get;
  t ← at_ (cursor p);
  let t := if tok_eqb (Type_ t) YIELD && negb (inGen p) then as_ident t else t in
  ident ← (if tok_eqb (Type_ t) AWAIT then awaitIsIdent else mret false);
  let t := if (ident : bool) then as_ident t else t in
  (if negb (bool_decide (Doc t = ""%string)) && negb (bool_decide (docAt p = Some (cursor p)))
   then modify (set_pdoc (cursor p) (Parse (Doc t))) else mret tt) ≫= λ _,
  mret t.

(** [rescanAt]: token [i] under another mode; those after it are discarded. *)
Definition rescanAt (i : nat) (m : ScanMode) : PM Token :=
  at_ i ≫= λ _,
  p ← get;
  st ← index (states p) i;
  modify (λ p, set_stream (Rewind st (lx p)) (take i (toks p)) (take i (states p)) (rescans p) p) ≫= λ _,
  scan_next m ≫= λ _,
  modify (λ p, set_stream (lx p) (toks p) (states p) (take (SearchInts (rescans p) i) (rescans p) ++ [i]) p) ≫= λ _,
  p ← get;
  index (toks p) i.

(** [rewind]. *)
Fixpoint drop_while {A} (f : A → bool) (xs : list A) : list A :=
  match xs with x :: xs' => if f x then drop_while f xs' else xs | [] => [] end.
Definition rewind (i : nat) : PM unit :=
  p ← get;
  match toks p !! i with
  | Some t => modify (set_blanks (rev (drop_while (λ b, (TPos t <=? b.1)%nat) (rev (blanks p)))))
  | None => mret tt
  end ≫= λ _,
  modify (set_cursor i) ≫= λ _,
  let k := SearchInts (rescans p) i in
  match rescans p !! k with
  | None => mret tt
  | Some r =>
      st ← index (states p) r;
      modify (λ p, set_stream (Rewind st (lx p)) (take r (toks p)) (take r (states p)) (take k (rescans p)) p)
  end.

Definition peekOperator : PM Token :=
  t ← peek;
  p ← get;
  match Type_ t with
  | GT => rescanAt (cursor p) ScanGlueGreater
  | REGEX => rescanAt (cursor p) ScanNoRegex
  | _ => mret t
  end.
Definition peekPrimary : PM Token :=
  t ← peek;
  p ← get;
  match Type_ t with
  | SLASH | SLASH_ASSIGN => rescanAt (cursor p) ScanRegex
  | _ => mret t
  end.

Definition advance : PM Token := t ← peek; modify (λ p, set_cursor (S (cursor p)) p) ≫= λ _, mret t.
Definition check (typ : TokenType) : PM bool := t ← peek; mret (tok_eqb (Type_ t) typ).
Fixpoint match_ (types : list TokenType) : PM bool :=
  match types with
  | [] => mret false
  | t :: ts => c ← check t; if (c : bool) then advance ≫= λ _, mret true else match_ ts
  end.
Definition peekNth (n : nat) : PM Token := p ← get; at_ (cursor p + n).

(** [isWord] and [sameLine]. *)
Definition isWord (n : nat) (w : string) : PM bool :=
  t ← peekNth n; mret (tok_eqb (Type_ t) IDENT && bool_decide (Literal t = w)).
Definition sameLine (n : nat) : PM bool := t ← peekNth n; mret (negb (HasPrecedingLineBreak t)).

(** ** Errors *)

Definition errAt {A} (t : Token) (m : Message) (args : list FmtArg) : PM A :=
  let '(start, stop) := if (TEnd t =? 0)%nat then (-1, -1) else (Z.of_nat (TPos t), Z.of_nat (TEnd t)) in
  throw (Diag.New m (mkSpan "" (mkPos (TLine t) (TCol t)) start stop) args).
Definition errAtPos {A} (pos : Pos) (m : Message) (args : list FmtArg) : PM A :=
  throw (Diag.New m (mkSpan "" pos (-1) (-1)) args).
Definition FTok (t : TokenType) : FmtArg := FStr (TokenType_String t).

Definition posOf (t : Token) : Pos := mkPos (TLine t) (TCol t).

Definition expect (typ : TokenType) : PM Token :=
  t ← peek;
  if tok_eqb (Type_ t) typ then advance else errAt t ExpectedToken [FTok typ; FTok (Type_ t)].
Definition expectBindingName : PM Token :=
  t ← peek;
  if tok_eqb (Type_ t) UNDEFINED then
    t ← advance;
    mret (mkToken IDENT "undefined" (RegexFlags t) (Raw t) (TLine t) (TCol t) (TPos t) (TEnd t) (Flags t) (Doc t) (TErr t))
  else expect IDENT.
Definition expectGT (context : string) : PM unit :=
  t ← peek;
  if tok_eqb (Type_ t) GT then advance ≫= λ _, mret tt else errAt t ExpectedCloseAngle [FStr context].

Definition canParseSemicolon : PM bool :=
  t ← peek;
  mret (existsb (tok_eqb (Type_ t)) [SEMICOLON; RBRACE; EOF] || HasPrecedingLineBreak t).
Definition parseSemicolon : PM unit :=
  ok ← canParseSemicolon;
  if (ok : bool) then match_ [SEMICOLON] ≫= λ _, mret tt
  else t ← peek; errAt t ExpectedSemicolon [FTok (Type_ t)].

(** ** Type syntax *)

Definition blank (start stop : nat) : PM unit :=
  if (start <? stop)%nat then modify (λ p, set_blanks (blanks p ++ [(start, stop)]) p) else mret tt.
Definition callSource (start stop : nat) : PM string := gets (λ p, Slice (psrc p) (blanks p) start stop).

(** ** Looking ahead *)

(** [inExcluded]: the depth of brackets from the token the initializer of a
    [for] starts at. *)
Definition opens : list TokenType := [LPAREN; LBRACKET; LBRACE; TEMPLATE_HEAD].
Definition closes : list TokenType := [RPAREN; RBRACKET; RBRACE; TEMPLATE_TAIL].
Definition bracket (t : TokenType) : Z :=
  if existsb (tok_eqb t) opens then 1 else if existsb (tok_eqb t) closes then -1 else 0.
Fixpoint depth_from (i n : nat) (depth : Z) : PM Z :=
  match n with
  | O => mret depth
  | S n => t ← at_ i; depth_from (S i) n (depth + bracket (Type_ t))
  end.
Definition inExcluded : PM bool :=
  p ← get;
  match noInFrom p with
  | None => mret false
  | Some i => d ← depth_from i (cursor p - i) 0; mret (d =? 0)
  end.
End stream.
