(* ===== verification/StreamFacts.v ===== *)
(** * What the parser's token stream stands for

    The tokens of a source are a function of the mode each is scanned in
    ([reading]).  The parser's four lists hold a prefix of that sequence
    ([lined]), and the indexes it keeps of the tokens scanned in another mode
    than the default are what [rewind] needs ([tracked]). *)

From S2P Require Import Prelude GoString Diag Token Lexer LexerFacts LexerSim LexerPos Ast Jsdoc Stream.
From stdpp Require Import sorting.
Open Scope Z_scope.

(** A token with the state of the scanner after it, or, past the last token,
    that token. *)
Inductive place := Read (t : Token) (st : State) | Past (t : Token).

(** The token the parser sees at a place. *)
Definition shown (r : place) : Token := match r with Read t _ => t | Past t => past_end t end.

Section stream_facts.
Context `{U : Unicode} (s : string).

Definition resume (st : State) : Lexer := Rewind st (New s).
Definition no_token : Token := mkToken ILLEGAL "" "" "" 0 0 0 0 0 "" None.
Definition scan_at (m : ScanMode) (st : State) : place :=
  match Scan m (resume st) with (Ok t, l) => Read t (Mark l) | _ => Past no_token end.

(** The [i]-th place of the source, when the [j]-th token is scanned under [ms j]. *)
Fixpoint reading (ms : nat → ScanMode) (i : nat) : place :=
  match i with
  | O => scan_at (ms O) (Mark (New s))
  | S i' =>
      match reading ms i' with
      | Read t st => if stops_scan t then Past t else scan_at (ms i) st
      | Past t => Past t
      end
  end.

(** The state of the scanner before the [i]-th place. *)
Definition before (ms : nat → ScanMode) (i : nat) : option State :=
  match i with
  | O => Some (Mark (New s))
  | S i => match reading ms i with Read _ st => Some st | Past _ => None end
  end.

Definition marked (st : State) : Prop := ∃ l, ready s l ∧ Mark l = st.

(** ** Scanning *)

Lemma scan_resume m l :
  ready s l →
  ∃ t l', Scan m l = (Ok t, l') ∧ ready s l' ∧ scan_at m (Mark l) = Read t (Mark l')
    ∧ ((Type_ t ≠ ILLEGAL ∧ scanned s (pos l) t (pos l'))
       ∨ (Type_ t = ILLEGAL ∧ (pos l ≤ pos l')%nat)).
Proof.
  intros Hl. destruct (Scan_ready s m l Hl) as (t & l' & Hsc & Hl' & Ht).
  exists t, l'. split_and!; [done|done| |destruct Ht as [(? & ? & _)|(? & ? & _)]; auto].
  assert (sim Restarted (resume (Mark l)) l) as Hsim.
  { destruct Hl as [_ ? ? ?]. constructor; cbn; done. }
  destruct (resp_Scan m _ _ Hsim) as [Hr Hs]. rewrite Hsc in Hr, Hs. unfold scan_at.
  destruct (Scan m (resume _)) as [r l1]. cbn in Hr, Hs. subst r. f_equal.
  destruct Hs. unfold Mark. by f_equal.
Qed.

Lemma scan_at_marked m st :
  marked st → ∃ t st', scan_at m st = Read t st' ∧ marked st'
    ∧ (st_pos st ≤ st_pos st')%nat
    ∧ (Type_ t ≠ ILLEGAL → Type_ t ≠ EOF → st_pos st < st_pos st')%nat
    ∧ (st_pos st' ≤ length (runes_of s))%nat.
Proof.
  intros (l & Hl & <-). destruct (scan_resume m l Hl) as (t & l' & _ & Hl' & -> & Ht).
  exists t, (Mark l'). split; [done|]. split; [by exists l'|]. cbn.
  assert (pos l' ≤ length (runes_of s))%nat as Hle.
  { destruct Hl' as [Hwf <- _ _]. apply (wf_pos _ Hwf). }
  destruct Ht as [[? (a & ? & _ & _ & _ & _ & Hlt & _)]|[? ?]]; split_and!; try done; try lia.
  intros _ He. specialize (Hlt He). lia.
Qed.

(** ** Places *)

Lemma reading_ext ms ms' i : (∀ j, (j ≤ i)%nat → ms j = ms' j) → reading ms i = reading ms' i.
Proof.
  induction i as [|i IH]; intros H; cbn [reading]; [by rewrite H by lia|].
  rewrite IH by (intros; apply H; lia). by rewrite H by lia.
Qed.

Lemma before_ext ms ms' i : (∀ j, (j < i)%nat → ms j = ms' j) → before ms i = before ms' i.
Proof. destruct i as [|i]; [done|]. intros H. cbn. rewrite (reading_ext ms ms'); [done|]. intros; apply H; lia. Qed.

(** A place is read from the state before it, unless the token before stops
    the scan. *)
Lemma reading_before ms i :
  (∃ st t st', before ms i = Some st ∧ marked st ∧ scan_at (ms i) st = Read t st' ∧ marked st'
     ∧ reading ms i = Read t st') ∨ (∃ t, reading ms i = Past t ∧ stops_scan t).
Proof.
  assert (marked (Mark (New s))) as H0 by (exists (New s); split; [apply New_ready|done]).
  induction i as [|i [(st & t & st' & Hb & Hm & Hs & Hm' & Hr)|(t & Hr & Ht)]].
  - left. destruct (scan_at_marked (ms O) _ H0) as (t & st' & Hs & Hm & _). by exists (Mark (New s)), t, st'.
  - cbn [reading before]. rewrite Hr. destruct (stops_scan t) eqn:Ht; [right; exists t; by rewrite Ht|].
    left. destruct (scan_at_marked (ms (S i)) _ Hm') as (t2 & st2 & Hs2 & Hm2 & _). by exists st', t2, st2.
  - right. exists t. cbn [reading]. by rewrite Hr.
Qed.

Lemma reading_next ms i t st :
  reading ms i = Read t st → stops_scan t = false → reading ms (S i) = scan_at (ms (S i)) st.
Proof. cbn. by intros -> ->. Qed.
Lemma reading_past ms i j t : reading ms i = Past t → (i ≤ j)%nat → reading ms j = Past t.
Proof. intros H. induction 1 as [|j _ IH]; [done|]. cbn. by rewrite IH. Qed.
Lemma reading_stop ms i j t st : reading ms i = Read t st → stops_scan t → (i < j)%nat → reading ms j = Past t.
Proof. intros H Ht Hj. apply (reading_past ms (S i)); [|lia]. cbn. rewrite H. by destruct (stops_scan t). Qed.

(** The state a place is scanned from, or the token that stopped the scan. *)
Definition prior (ms : nat → ScanMode) (i : nat) : State + Token :=
  match i with
  | O => inl (Mark (New s))
  | S i => match reading ms i with Read t st => if stops_scan t then inr t else inl st | Past t => inr t end
  end.
Lemma reading_prior ms i : reading ms i = match prior ms i with inl st => scan_at (ms i) st | inr t => Past t end.
Proof. destruct i as [|i]; [done|]. cbn. destruct (reading ms i) as [t st|t]; [by destruct (stops_scan t)|done]. Qed.
Lemma prior_ext ms ms' i : (∀ j, (j < i)%nat → ms j = ms' j) → prior ms i = prior ms' i.
Proof. destruct i as [|i]; [done|]. intros H. cbn. rewrite (reading_ext ms ms'); [done|]. intros; apply H; lia. Qed.
Lemma prior_marked ms i st : prior ms i = inl st → marked st.
Proof.
  revert st. induction i as [|i IH]; intros st; cbn.
  - intros [= <-]. exists (New s). split; [apply New_ready|done].
  - rewrite reading_prior. destruct (prior ms i) as [st0|t]; [|done]. specialize (IH _ eq_refl).
    destruct (scan_at_marked (ms i) st0 IH) as (t & st' & -> & Hm & _). destruct (stops_scan t); [done|].
    by intros [= <-].
Qed.

(** ** The lists of the parser *)

Definition bounds (p : Parser) : list State := states p ++ [Mark (lx p)].

Record lined (ms : nat → ScanMode) (p : Parser) : Prop := {
  lined_ready : ready s (lx p);
  lined_length : length (states p) = length (toks p);
  lined_bounds : ∀ i st, bounds p !! i = Some st → before ms i = Some st ∧ marked st;
  lined_toks : ∀ i t, toks p !! i = Some t → ∃ st, reading ms i = Read t st }.

Record tracked (ms : nat → ScanMode) (p : Parser) : Prop := {
  tracked_sorted : StronglySorted lt (rescans p);
  tracked_read : Forall (λ i, i < length (toks p))%nat (rescans p);
  tracked_modes : ∀ i, ms i ≠ ScanDefault → i ∈ rescans p }.

Definition stream_ok (ms : nat → ScanMode) (p : Parser) : Prop := lined ms p ∧ tracked ms p.

Lemma bounds_length p : length (states p) = length (toks p) → length (bounds p) = S (length (toks p)).
Proof. intros H. unfold bounds. rewrite length_app, H. cbn. lia. Qed.

Lemma lined_ext ms ms' p : (∀ j, (j < length (toks p))%nat → ms j = ms' j) → lined ms p → lined ms' p.
Proof.
  intros H [Hr Hl Hb Ht]. constructor; [done|done| |].
  - intros i st Hi. rewrite <- (before_ext ms); [by apply Hb|]. intros j Hj. apply H.
    apply lookup_lt_Some in Hi. rewrite bounds_length in Hi by done. lia.
  - intros i t Hi. rewrite <- (reading_ext ms); [by apply Ht|]. intros j Hj. apply H.
    apply lookup_lt_Some in Hi. lia.
Qed.

(** The parser at the start. *)
Lemma lined_New : stream_ok (λ _, ScanDefault) (NewParser s).
Proof.
  split; constructor; cbn; try done.
  - apply New_ready.
  - intros [|i] st Hi; [|done]. cbn in Hi. injection Hi as <-. split; [done|].
    exists (New s). split; [apply New_ready|done].
  - constructor.
Qed.

(** Cutting the lists before a token, and going back to it. *)
Lemma lined_cut ms p r st rs :
  lined ms p → states p !! r = Some st →
  lined ms (set_stream (Rewind st (lx p)) (take r (toks p)) (take r (states p)) rs p).
Proof.
  intros [Hr Hl Hb Ht] Hst. pose proof (lookup_lt_Some _ _ _ Hst) as Hlt.
  assert (bounds p !! r = Some st) as Hbr by (unfold bounds; by apply lookup_app_l_Some).
  assert (∀ i x, bounds (set_stream (Rewind st (lx p)) (take r (toks p)) (take r (states p)) rs p) !! i = Some x →
    bounds p !! i = Some x) as Hsub.
  { intros i x. unfold bounds. cbn [states lx set_stream].
    rewrite lookup_app. destruct (take r (states p) !! i) as [y|] eqn:Hy.
    - intros [= <-]. apply lookup_take_Some in Hy as [? ?]. by apply lookup_app_l_Some.
    - rewrite length_take. intros Hx. apply list_lookup_singleton_Some in Hx as [Hi <-].
      apply lookup_ge_None in Hy. rewrite length_take in Hy. replace i with r by lia.
      change (Mark (Rewind st (lx p))) with (mkState (st_pos st) (st_line st) (st_col st) (st_templateStack st)
        (st_lastSig st) (st_sawNL st) (st_pendingDoc st)). destruct st. by apply lookup_app_l_Some. }
  destruct (Hb r st Hbr) as [_ (l0 & Hl0 & Hm0)].
  constructor; cbn.
  - rewrite <- Hm0. by apply Rewind_ready.
  - rewrite !length_take. lia.
  - intros i x Hi. by apply Hb, Hsub.
  - intros i t Hi. apply lookup_take_Some in Hi as [Hi _]. by apply Ht.
Qed.

(** One more token. *)
Lemma lined_snoc ms m p :
  lined ms p → (∀ t, last (toks p) = Some t → stops_scan t = false) → ms (length (toks p)) = m →
  ∃ t l, scan_next m p = (Ok tt, set_stream l (toks p ++ [t]) (states p ++ [Mark (lx p)]) (rescans p) p)
    ∧ lined ms (set_stream l (toks p ++ [t]) (states p ++ [Mark (lx p)]) (rescans p) p).
Proof.
  intros [Hr Hl Hb Ht] Hlast Hm. destruct (scan_resume m _ Hr) as (t & l & Hsc & Hr' & Hat & _).
  exists t, l. unfold scan_next. rewrite Hsc. split; [done|].
  assert (reading ms (length (toks p)) = Read t (Mark l)) as Hrd.
  { destruct (length (toks p)) as [|n] eqn:Hn.
    - assert (states p = []) as Hs by (apply nil_length_inv; lia). destruct (Hb O (Mark (lx p))) as [Hb0 _].
      { unfold bounds. by rewrite Hs. }
      cbn in *. congruence.
    - destruct (lookup_lt_is_Some_2 (toks p) n) as [u Hu]; [lia|].
      destruct (Ht n u Hu) as [st Hst].
      rewrite (reading_next ms n u st Hst); [|apply Hlast; rewrite last_lookup, Hn; done].
      destruct (Hb (S n) (Mark (lx p))) as [Hbn _].
      { unfold bounds. rewrite lookup_app_r by lia. replace (S n - length (states p))%nat with O by lia. done. }
      cbn in Hbn. rewrite Hst in Hbn. simplify_eq. congruence. }
  constructor; cbn.
  - done.
  - rewrite !length_app. cbn. lia.
  - intros i x. unfold bounds. cbn [states lx set_stream]. rewrite lookup_app_Some, length_app.
    intros [Hx|[Hi Hx]]; [by apply Hb|]. apply list_lookup_singleton_Some in Hx as [Hi' <-]. cbn in Hi, Hi'.
    replace i with (S (length (toks p))) by lia. cbn. rewrite Hrd. split; [done|]. by exists l.
  - intros i u. rewrite lookup_app_Some. intros [Hx|[Hi Hx]]; [by apply Ht|].
    apply list_lookup_singleton_Some in Hx as [Hi' <-]. replace i with (length (toks p)) by lia. by exists (Mark l).
Qed.

(** ** The operations *)

(** What the parser keeps besides the stream is the same. *)
Definition rest_same (p p' : Parser) : Prop := p' = set_stream (lx p') (toks p') (states p') (rescans p') p.
Lemma rest_refl p : rest_same p p.
Proof. by destruct p. Qed.
Lemma rest_trans p1 p2 p3 : rest_same p1 p2 → rest_same p2 p3 → rest_same p1 p3.
Proof. unfold rest_same. intros -> H. by destruct p3; simplify_eq/=. Qed.

Lemma tracked_default ms p i : tracked ms p → (length (toks p) ≤ i)%nat → ms i = ScanDefault.
Proof.
  intros [_ Hr Hm] Hi. destruct (decide (ms i = ScanDefault)) as [|Hne]; [done|].
  apply Hm in Hne. rewrite Forall_forall in Hr. apply Hr in Hne. lia.
Qed.

Lemma last_stops ms p t i :
  lined ms p → last (toks p) = Some t → stops_scan t → (length (toks p) ≤ i)%nat → reading ms i = Past t.
Proof.
  intros Hl Hla Ht Hi. rewrite last_lookup in Hla. destruct (lined_toks _ _ Hl _ _ Hla) as [st Hst].
  apply (reading_stop ms _ i t st Hst Ht). apply lookup_lt_Some in Hla. lia.
Qed.

Lemma at_go_here n i p t : toks p !! i = Some t → at_go n i p = (Ok t, p).
Proof.
  intros H. pose proof (lookup_lt_Some _ _ _ H) as Hlt. apply Nat.ltb_lt in Hlt.
  destruct n; cbn [at_go]; unfold get, index, mbind, PM_bind, M_bind; by rewrite Hlt, H.
Qed.

Lemma at_go_ok n ms i p :
  stream_ok ms p → (S i - length (toks p) ≤ n)%nat →
  ∃ p', at_go n i p = (Ok (shown (reading ms i)), p') ∧ stream_ok ms p' ∧ rest_same p p'
    ∧ rescans p' = rescans p ∧ (∀ t st, reading ms i = Read t st → toks p' !! i = Some t).
Proof.
  revert p. induction n as [|n IH]; intros p [Hl Ht] Hn;
    (destruct (decide (i < length (toks p))%nat) as [Hi|Hi];
     [destruct (lookup_lt_is_Some_2 (toks p) i) as [t Hti]; [lia|];
      destruct (lined_toks _ _ Hl _ _ Hti) as [st Hst]; exists p; rewrite (at_go_here _ i p t Hti), Hst;
      split_and!; [done|done|apply rest_refl|done|intros; by simplify_eq]|]); [lia|].
  cbn [at_go]; unfold get, mbind at 1, PM_bind at 1, M_bind at 1.
  replace (i <? length (toks p))%nat with false by (symmetry; apply Nat.ltb_ge; lia).
  assert (∀ t, last (toks p) = Some t → stops_scan t = true →
    ∃ p', mret (M := PM) (past_end t) p = (Ok (shown (reading ms i)), p') ∧ stream_ok ms p' ∧ rest_same p p'
      ∧ rescans p' = rescans p ∧ (∀ t st, reading ms i = Read t st → toks p' !! i = Some t)) as Hstop.
  { intros t Hla Hs. exists p. assert (reading ms i = Past t) as Hp.
    { apply (last_stops ms p); [done|done|by rewrite Hs|lia]. }
    rewrite Hp. split_and!; [done|done|apply rest_refl|done|done]. }
  assert ((∀ t, last (toks p) = Some t → stops_scan t = false) →
    ∃ p', (scan_next ScanDefault ≫= λ _, at_go n i) p = (Ok (shown (reading ms i)), p') ∧ stream_ok ms p' ∧ rest_same p p'
      ∧ rescans p' = rescans p ∧ (∀ t st, reading ms i = Read t st → toks p' !! i = Some t)) as Hgo.
  { intros Hla. destruct (lined_snoc ms ScanDefault p Hl Hla) as (t & l & Hsc & Hl').
    { by apply (tracked_default ms p). }
    unfold mbind, PM_bind, M_bind. rewrite Hsc.
    destruct (IH (set_stream l (toks p ++ [t]) (states p ++ [Mark (lx p)]) (rescans p) p)) as (p' & Hp' & ? & ? & ? & ?).
    - split; [done|]. destruct Ht as [Hs Hr Hm]. constructor; cbn; [done| |done].
      eapply Forall_impl; [exact Hr|]. intros j Hj. cbn in Hj. rewrite length_app. cbn. lia.
    - cbn. rewrite length_app. cbn. lia.
    - exists p'. rewrite Hp'. split_and!; [done|done|by eapply rest_trans; [|eassumption]|done|done]. }
  destruct (last (toks p)) as [t|] eqn:Hla; [destruct (stops_scan t) eqn:Hs; [by apply Hstop|]|];
    apply Hgo; intros; by simplify_eq.
Qed.

(** [at] answers the place. *)
Lemma at_ok ms i p :
  stream_ok ms p →
  ∃ p', at_ i p = (Ok (shown (reading ms i)), p') ∧ stream_ok ms p' ∧ rest_same p p'
    ∧ rescans p' = rescans p ∧ (∀ t st, reading ms i = Read t st → toks p' !! i = Some t).
Proof. intros H. unfold at_, get, mbind, PM_bind, M_bind. apply at_go_ok; [done|lia]. Qed.

Definition cut (i : nat) (ms : nat → ScanMode) (j : nat) : ScanMode := if (j <? i)%nat then ms j else ScanDefault.
Definition put (i : nat) (m : ScanMode) (ms : nat → ScanMode) (j : nat) : ScanMode :=
  if (j =? i)%nat then m else cut i ms j.

Lemma SearchInts_split rs i :
  StronglySorted lt rs →
  ∃ a b, rs = a ++ b ∧ length a = SearchInts rs i ∧ Forall (λ j, j < i)%nat a ∧ Forall (λ j, i ≤ j)%nat b.
Proof.
  induction 1 as [|r rs _ (a & b & -> & Ha & Hlt & Hge) Hr]; [by exists [], []|].
  cbn [SearchInts]. destruct (r <? i)%nat eqn:Hri; bool_cases.
  - exists (r :: a), b. split_and!; [done|cbn; congruence|by constructor|done].
  - exists [], (r :: a ++ b). split_and!; [done|done|constructor|].
    constructor; [lia|]. eapply Forall_impl; [exact Hr|]. cbn. lia.
Qed.

Lemma tracked_split ms p i :
  tracked ms p →
  let k := SearchInts (rescans p) i in
  Forall (λ j, j < i)%nat (take k (rescans p)) ∧ Forall (λ j, i ≤ j)%nat (drop k (rescans p))
    ∧ StronglySorted lt (take k (rescans p)) ∧ (∀ j, cut i ms j ≠ ScanDefault → j ∈ take k (rescans p)).
Proof.
  intros [Hs Hr Hm] k. destruct (SearchInts_split (rescans p) i Hs) as (a & b & Hab & Ha & Hlt & Hge).
  subst k. rewrite <- Ha, Hab, take_app_length, drop_app_length. split_and!; [done|done| |].
  - rewrite Hab in Hs. by apply StronglySorted_app in Hs as [_ [? _]].
  - intros j Hj. unfold cut in Hj. destruct (j <? i)%nat eqn:Hji; bool_cases; [|done].
    apply Hm in Hj. rewrite Hab in Hj. apply elem_of_app in Hj as [?|Hj]; [done|].
    rewrite Forall_forall in Hge. apply Hge in Hj. lia.
Qed.

(** [rescanAt] puts the mode at the place. *)
Lemma rescan_ok ms i m p t st :
  stream_ok ms p → reading ms i = Read t st →
  ∃ p', rescanAt i m p = (Ok (shown (reading (put i m ms) i)), p') ∧ stream_ok (put i m ms) p' ∧ rest_same p p'.
Proof.
  intros H Hrd. unfold rescanAt.
  destruct (at_ok ms i p H) as (p1 & Hat & [Hl1 Ht1] & Hr1 & _ & Hti). specialize (Hti t st Hrd).
  unfold mbind, PM_bind, M_bind. rewrite Hat. cbn [get].
  pose proof (lookup_lt_Some _ _ _ Hti) as Hlt.
  destruct (lookup_lt_is_Some_2 (states p1) i) as [st0 Hst0]; [by rewrite (lined_length _ _ Hl1)|].
  unfold index at 1. rewrite Hst0. cbn [mret PM_ret M_ret modify].
  assert (Forall (λ j, put i m ms j = ms j) (seq 0 i)) as Hput.
  { apply Forall_forall. intros j Hj%elem_of_seq. unfold put, cut.
    destruct (j =? i)%nat eqn:?; bool_cases; [lia|]. by destruct (j <? i)%nat eqn:?; bool_cases; [|lia]. }
  rewrite Forall_forall in Hput.
  pose proof (lined_cut ms p1 i st0 (rescans p1) Hl1 Hst0) as Hl2. cbn [modify mret].
  set (p2 := set_stream _ (take i _) _ _ p1) in *.
  assert (length (toks p2) = i) as Hi2 by (cbn; rewrite length_take; lia).
  apply (lined_ext _ (put i m ms)) in Hl2.
  2: { intros j Hj. symmetry. apply Hput, elem_of_seq. lia. }
  destruct (lined_snoc (put i m ms) m p2 Hl2) as (t3 & l3 & Hsc & Hl3).
  { intros u Hu. rewrite last_lookup, Hi2 in Hu. destruct i as [|i']; [done|]. cbn in Hu.
    apply lookup_take_Some in Hu as [Hu _]. destruct (lined_toks _ _ Hl1 _ _ Hu) as [st' Hu'].
    destruct (stops_scan u) eqn:Hs; [|done]. cbn in Hrd. by rewrite Hu', Hs in Hrd. }
  { rewrite Hi2. unfold put. by rewrite Nat.eqb_refl. }
  rewrite Hsc. set (p3 := set_stream l3 _ _ _ p2) in *.
  assert (toks p3 !! i = Some t3) as Ht3 by (cbn; rewrite lookup_app_r, length_take by (rewrite length_take; lia);
    replace (i - _)%nat with O by lia; done).
  destruct (lined_toks _ _ Hl3 _ _ Ht3) as [st3 Hrd3]. rewrite Hrd3.
  eexists. split; [unfold index; cbn [toks set_stream]; by rewrite Ht3|].
  destruct (tracked_split ms p1 i Ht1) as (Hlt1 & _ & Hs1 & Hm1).
  split; [|eapply rest_trans; [exact Hr1|done]].
  split; [by destruct Hl3; constructor|]. constructor; cbn.
  - by apply StronglySorted_snoc.
  - apply Forall_app. rewrite length_app, length_take. split; [|repeat constructor; cbn; lia].
    eapply Forall_impl; [exact Hlt1|]. cbn. lia.
  - intros j Hj. apply elem_of_app. unfold put in Hj. destruct (j =? i)%nat eqn:Hji; bool_cases.
    + right. by apply list_elem_of_singleton.
    + left. by apply Hm1.
Qed.

(** Before the first of the places from [i] on scanned in another mode, cutting
    changes no mode. *)
Lemma cut_same ms p i j :
  tracked ms p → (∀ r, rescans p !! SearchInts (rescans p) i = Some r → j < r)%nat → ms j = cut i ms j.
Proof.
  intros [Hs _ Hm] Hr. unfold cut. destruct (j <? i)%nat eqn:Hji; bool_cases; [done|].
  destruct (decide (ms j = ScanDefault)) as [|Hne]; [done|]. apply Hm in Hne.
  destruct (SearchInts_split (rescans p) i Hs) as (a & b & Hab & Ha & Hlt & _).
  rewrite Hab in Hne, Hs. apply elem_of_app in Hne as [Hne|Hne].
  { rewrite Forall_forall in Hlt. apply Hlt in Hne. lia. }
  destruct b as [|r b]; [by apply elem_of_nil in Hne|].
  assert (j < r)%nat. { apply Hr. rewrite <- Ha, Hab, lookup_app_r, Nat.sub_diag; done. }
  apply StronglySorted_app in Hs as (_ & _ & [_ Hs]%StronglySorted_inv). rewrite Forall_forall in Hs.
  apply elem_of_cons in Hne as [->|Hne]; [lia|]. apply Hs in Hne. lia.
Qed.

Definition rewind_stream (i : nat) : PM unit :=
  p ← get;
  let k := SearchInts (rescans p) i in
  match rescans p !! k with
  | None => mret tt
  | Some r =>
      st ← index (states p) r;
      modify (λ p, set_stream (Rewind st (lx p)) (take r (toks p)) (take r (states p)) (take k (rescans p)) p)
  end.
Lemma rewind_stream_ok ms i p :
  stream_ok ms p → ∃ p', rewind_stream i p = (Ok tt, p') ∧ stream_ok (cut i ms) p' ∧ rest_same p p'.
Proof.
  intros [Hl Ht]. pose proof (λ j, cut_same ms p i j Ht) as Hcut.
  destruct (tracked_split ms p i Ht) as (Hlt & Hge & Hs & Hm).
  unfold rewind_stream, get, mbind, PM_bind, M_bind. set (k := SearchInts (rescans p) i) in *.
  destruct (rescans p !! k) as [r|] eqn:Hr.
  - pose proof (tracked_read _ _ Ht) as Hread. rewrite Forall_forall in Hread, Hge.
    assert (r < length (toks p))%nat as Hrl by (apply Hread; apply list_elem_of_lookup; by exists k).
    assert (i ≤ r)%nat as Hir.
    { apply Hge. apply list_elem_of_lookup. exists O. by rewrite lookup_drop, Nat.add_0_r. }
    destruct (lookup_lt_is_Some_2 (states p) r) as [st Hst]; [by rewrite (lined_length _ _ Hl)|].
    unfold index. rewrite Hst. cbn. eexists. split; [done|]. split; [|done]. split.
    + apply (lined_ext ms); [|by apply lined_cut]. intros j Hj. apply Hcut. intros ? [= <-]. cbn in Hj.
      rewrite length_take in Hj. lia.
    + constructor; cbn; [done| |done]. eapply Forall_impl; [exact Hlt|]. cbn. intros j Hj. rewrite length_take. lia.
  - exists p. apply lookup_ge_None in Hr. rewrite take_ge in Hlt, Hs, Hm by lia. split_and!; [done| |apply rest_refl].
    split; [|constructor; [done|by apply (tracked_read ms)|done]].
    apply (lined_ext ms); [|done]. intros j _. by apply Hcut.
Qed.

(** [rewind] puts the default mode at the place and after it; besides the
    stream it moves the cursor and forgets type syntax recorded since. *)
Definition kept (i : nat) (p : Parser) : list (nat * nat) :=
  match toks p !! i with
  | Some t => rev (drop_while (λ b, (TPos t <=? b.1)%nat) (rev (blanks p)))
  | None => blanks p
  end.
Lemma stream_ok_same ms p q :
  lx q = lx p → toks q = toks p → states q = states p → rescans q = rescans p → stream_ok ms p → stream_ok ms q.
Proof.
  intros H1 H2 H3 H4 [[] []]. split; constructor; unfold bounds in *; rewrite ?H1, ?H2, ?H3, ?H4; done.
Qed.
Lemma rewind_eq i p : rewind i p = rewind_stream i (set_cursor i (set_blanks (kept i p) p)).
Proof.
  unfold rewind, rewind_stream, kept, get, mbind, PM_bind, M_bind. destruct (toks p !! i); [done|].
  by destruct p.
Qed.
Lemma rewind_ok ms i p :
  stream_ok ms p →
  ∃ p', rewind i p = (Ok tt, p') ∧ stream_ok (cut i ms) p' ∧ rest_same (set_cursor i (set_blanks (kept i p) p)) p'.
Proof. intros H. rewrite rewind_eq. apply rewind_stream_ok. by apply (stream_ok_same ms p). Qed.
End stream_facts.
