(* ===== verification/StreamProps.v ===== *)
(** * Properties of the parser's token stream *)

From S2P Require Import Prelude GoString Diag Token Lexer LexerPos Ast Jsdoc Stream StreamFacts.
Open Scope Z_scope.

(** The operations that change the stream, by what they are asked for. *)
Inductive stream_op := OpAt (i : nat) | OpRescan (i : nat) (m : ScanMode) | OpRewind (i : nat).

(** ** Specification

    The stream as one function from places to modes. *)
Definition op_modes (o : stream_op) (ms : nat → ScanMode) : nat → ScanMode :=
  match o with OpAt _ => ms | OpRescan i m => put i m ms | OpRewind i => cut i ms end.
(** The place an operation is at. *)
Definition op_place (o : stream_op) : nat := match o with OpAt i | OpRescan i _ | OpRewind i => i end.
(** What it shows, and that a token is read again only if there is one. *)
Section spec.
Context `{U : Unicode} (s : string).
Definition op_answer (o : stream_op) (ms : nat → ScanMode) : option Token :=
  match o with OpRewind _ => None | _ => Some (shown (reading s (op_modes o ms) (op_place o))) end.
Definition op_enabled (o : stream_op) (ms : nat → ScanMode) : Prop :=
  match o with OpRescan i _ => ∃ t st, reading s ms i = Read t st | _ => True end.
Definition run_op (o : stream_op) : PM (option Token) :=
  match o with
  | OpAt i => t ← at_ i; mret (Some t)
  | OpRescan i m => t ← rescanAt i m; mret (Some t)
  | OpRewind i => rewind i ≫= λ _, mret None
  end.

(** A sequence of operations, each enabled when it runs. *)
Fixpoint ops_enabled (os : list stream_op) (ms : nat → ScanMode) : Prop :=
  match os with [] => True | o :: os => op_enabled o ms ∧ ops_enabled os (op_modes o ms) end.
Fixpoint ops_modes (os : list stream_op) (ms : nat → ScanMode) : nat → ScanMode :=
  match os with [] => ms | o :: os => ops_modes os (op_modes o ms) end.
Fixpoint ops_answers (os : list stream_op) (ms : nat → ScanMode) : list (option Token) :=
  match os with [] => [] | o :: os => op_answer o ms :: ops_answers os (op_modes o ms) end.
Fixpoint run_ops (os : list stream_op) : PM (list (option Token)) :=
  match os with [] => mret [] | o :: os => t ← run_op o; ts ← run_ops os; mret (t :: ts) end.

Lemma run_op_ok o ms p :
  stream_ok s ms p → op_enabled o ms →
  ∃ p', run_op o p = (Ok (op_answer o ms), p') ∧ stream_ok s (op_modes o ms) p'.
Proof.
  intros H Ho. destruct o as [i|i m|i]; cbn in *; unfold mbind, PM_bind, M_bind.
  - destruct (at_ok s ms i p H) as (p' & -> & ? & _). by exists p'.
  - destruct Ho as (t & st & Ho). destruct (rescan_ok s ms i m p t st H Ho) as (p' & -> & ? & _). by exists p'.
  - destruct (rewind_ok s ms i p H) as (p' & -> & ? & _). by exists p'.
Qed.

Lemma run_ops_ok os ms p :
  stream_ok s ms p → ops_enabled os ms →
  ∃ p', run_ops os p = (Ok (ops_answers os ms), p') ∧ stream_ok s (ops_modes os ms) p'.
Proof.
  revert ms p. induction os as [|o os IH]; intros ms p H Ho; cbn in *; [by exists p|].
  destruct Ho as [Ho Hos]. destruct (run_op_ok o ms p H Ho) as (p1 & Hp1 & H1).
  destruct (IH _ p1 H1 Hos) as (p2 & Hp2 & H2). exists p2. split; [|done].
  unfold mbind, PM_bind, M_bind. by rewrite Hp1, Hp2.
Qed.

Lemma modes_below i os ms j :
  Forall (λ o, i ≤ op_place o)%nat os → (j < i)%nat → ops_modes os ms j = ms j.
Proof.
  intros Hos Hj. revert ms. induction Hos as [|o os Ho _ IH]; intros ms; [done|]. cbn. rewrite IH.
  destruct o as [k|k m|k]; cbn in *; [done|unfold put|]; unfold cut;
    repeat match goal with |- context [(?a =? ?b)%nat] => destruct (a =? b)%nat eqn:?; bool_cases; [lia|]
      | |- context [(?a <? ?b)%nat] => destruct (a <? b)%nat eqn:?; bool_cases; [|lia] end; done.
Qed.
End spec.

Section props.
Context `{U : Unicode}.

(** C17: the parser's token stream implements its specification: on any source,
    any sequence of requests for tokens, of tokens read again in another mode
    (only tokens that are there), and of rewinds, from a fresh parser, answers
    without a panic, and each answer is the token a scan of the source from its start
    reads at that place when the tokens are scanned in the modes the requests
    so far leave: the tokens kept, the states marked and the indexes of the
    tokens read again are never out of step with the scanner. *)
Theorem stream_refines s os :
  ops_enabled s os (λ _, ScanDefault) →
  ∃ p, run_ops os (NewParser s) = (Ok (ops_answers s os (λ _, ScanDefault)), p)
    ∧ stream_ok s (ops_modes os (λ _, ScanDefault)) p.
Proof. intros H. apply run_ops_ok; [apply lined_New|done]. Qed.

(** C18: a guess leaves no trace in the tokens: from a parser that reads no token from
    the place [i] on in another mode than the default, whatever is read from [i] on, under whatever
    modes, rewinding to [i] and reading on answers the tokens that would have been read
    without the guess, with the cursor back at [i]. *)
Theorem speculation_leaves_no_trace s ms p i guess os :
  stream_ok s ms p →
  (∀ j, i ≤ j → ms j = ScanDefault)%nat →
  Forall (λ o, i ≤ op_place o)%nat guess →
  ops_enabled s guess ms → ops_enabled s os ms →
  ∃ ts p1 p2 p3 p4,
    run_ops guess p = (Ok ts, p1) ∧ rewind i p1 = (Ok tt, p2) ∧ cursor p2 = i
    ∧ run_ops os p2 = (Ok (ops_answers s os ms), p3)
    ∧ run_ops os p = (Ok (ops_answers s os ms), p4).
Proof.
  intros Hp Hms Hi Hg Hos.
  destruct (run_ops_ok s guess ms p Hp Hg) as (p1 & H1 & Hp1).
  destruct (rewind_ok s _ i p1 Hp1) as (p2 & H2 & Hp2 & Hr2).
  assert (stream_ok s ms p2) as Hp2'.
  { assert (∀ j, cut i (ops_modes guess ms) j = ms j) as Heq.
    { intros j. unfold cut. destruct (j <? i)%nat eqn:Hj; bool_cases; [by apply (modes_below i)|].
      symmetry. by apply Hms. }
    destruct Hp2 as [Hl [? ? Ht]]. split; [apply (lined_ext s _ ms) in Hl; [done|intros j _; apply Heq]|]. constructor; [done..|].
    intros j. rewrite <- Heq. apply Ht. }
  destruct (run_ops_ok s os ms p2 Hp2' Hos) as (p3 & H3 & _).
  destruct (run_ops_ok s os ms p Hp Hos) as (p4 & H4 & _).
  exists (ops_answers s guess ms), p1, p2, p3, p4. split_and!; try done.
  rewrite Hr2. done.
Qed.
End props.

(** ** Instances *)

#[local] Existing Instance ascii_unicode.

(** [a>>b]: the second token is [>], then [>>], then [>] again. *)
Definition guess_source : string := "a>>b".
Definition guess_ops : list stream_op := [OpRescan 1 ScanGlueGreater; OpAt 2].
Lemma guess_place : ∃ t st, reading (U := ascii_unicode) guess_source (λ _, ScanDefault) 1 = Read t st.
Proof. eexists _, _. vm_compute. reflexivity. Qed.

Lemma stream_refines_witness :
  ∃ p, run_ops (U := ascii_unicode) (guess_ops ++ [OpRewind 1; OpAt 2]) (NewParser guess_source)
    = (Ok [Some (mkToken RSHIFT ">>" "" "" 1 2 1 3 0 "" None); Some (mkToken IDENT "b" "" "" 1 4 3 4 0 "" None);
           None; Some (mkToken GT ">" "" "" 1 3 2 3 0 "" None)], p).
Proof.
  destruct (stream_refines (U := ascii_unicode) guess_source (guess_ops ++ [OpRewind 1; OpAt 2])) as (p & Hp & _).
  - exact (conj guess_place (conj I (conj I (conj I I)))).
  - exists p. refine (eq_trans Hp _). vm_compute. reflexivity.
Defined.

Lemma speculation_leaves_no_trace_witness :
  ∃ ts p1 p2 p3 p4,
    run_ops (U := ascii_unicode) guess_ops (NewParser guess_source) = (Ok ts, p1) ∧ rewind 1 p1 = (Ok tt, p2)
    ∧ cursor p2 = 1%nat
    ∧ run_ops [OpAt 1; OpAt 2] p2 = (Ok (ops_answers guess_source [OpAt 1; OpAt 2] (λ _, ScanDefault)), p3)
    ∧ run_ops [OpAt 1; OpAt 2] (NewParser guess_source)
      = (Ok (ops_answers guess_source [OpAt 1; OpAt 2] (λ _, ScanDefault)), p4).
Proof.
  apply (speculation_leaves_no_trace (U := ascii_unicode)).
  - apply lined_New.
  - done.
  - repeat constructor.
  - exact (conj guess_place (conj I I)).
  - done.
Defined.
