(* ===== verification/Expr.v ===== *)
(** * Expressions as the parser makes them (src/ast/nodes.go)

    The nodes that parser_exprs.go and parser_literals.go build.  A node is a Go
    pointer: [eid] is its identity, and a change of a field keeps it.  What
    the parts of the parser that are not modelled build (blocks, functions,
    classes, type parameters) is opaque. *)

From S2P Require Import Prelude GoString Diag.
From S2P Require Ast.
Open Scope Z_scope.
Abbreviation TypeAnnotation := Ast.TypeAnnotation.

(** What is not looked into, and what is asked of it. *)
Class Opaque := {
  BlockStatement : Type; FunctionDeclaration : Type; ClassDeclaration : Type;
  TypeParameter : Type;
  starts_with_use_strict : BlockStatement → bool;
  fn_src : FunctionDeclaration → option (nat * nat); fn_name_pos : FunctionDeclaration → Pos;
  set_class_src : option (nat * nat) → ClassDeclaration → ClassDeclaration;
  tp_name : TypeParameter → string; tp_constraint : TypeParameter → option TypeAnnotation;
  tp_default : TypeParameter → option TypeAnnotation;
  EraseTypeParams : TypeAnnotation → list string → TypeAnnotation;
  eraseTypeParams : FunctionDeclaration → FunctionDeclaration;
  NumberKey : string → string }.

Section expr.
Context `{OP : Opaque}.

(** [Src] of an arrow function is the range in the source text, if known. *)
Unset Elimination Schemes.
Inductive Expr := mkExpr (id : nat) (pos : Pos) (kind : ExprKind)
with ExprKind :=
  | NumberLiteral (Value : string)
  | BigIntLiteral (Value : string)
  | StringLiteral (Value : string)
  | BooleanLiteral (Value : bool)
  | NullLiteral (IsUndefined Void Elision : bool)
  | TemplateLiteral (Quasis : list string) (Exprs : list Expr)
  | TaggedTemplateExpression (Tag : Expr) (Quasis RawQuasis : list string) (Exprs : list Expr) (TypeArgs : list TypeAnnotation)
  | NewRegExpExpression (Pattern Flags : Expr)
  | Identifier (Name : string)
  | ThisExpression
  | SuperExpression
  | NewTargetExpression
  | UnaryExpression (Op : string) (Arg : Expr)
  | UpdateExpression (Op : string) (Prefix : bool) (Arg : Expr)
  | BinaryExpression (Op : string) (Left Right : Expr)
  | ConditionalExpression (Test Consequent Alternate : Expr)
  | AssignmentExpression (Op : string) (Left Right : Expr)
  | SequenceExpression (Exprs : list Expr)
  | YieldExpression (Argument : option Expr) (Delegate : bool)
  | AwaitExpression (Argument : Expr)
  | SpreadElement (Arg : Expr)
  | NonNullExpression (Arg : Expr)
  | AsExpression (Arg : Expr) (TypeAnnot : TypeAnnotation)
  | MemberExpression (Object : Expr) (Property : string) (Optional ChainEnd : bool)
  | IndexExpression (Object Index : Expr) (Optional ChainEnd : bool)
  | CallExpression (Callee : Expr) (Args : list Expr) (Source : string) (TypeArgs : list TypeAnnotation)
      (AssertedType : option TypeAnnotation) (Optional ChainEnd : bool)
  | NewExpression (ClassName : string) (Qualified : bool) (Qualifier : string) (QualifierPath : list string)
      (TypeArgs : list TypeAnnotation) (Callee : option Expr) (Args : list Expr)
  | ArrayLiteral (Elements : list Expr) (RestTrailingComma : bool)
  | ObjectLiteral (Properties : list ObjectProperty) (RestTrailingComma : bool)
  | ArrowFunction (TypeParams : list string) (TypeParamConstraints TypeParamDefaults : list (option TypeAnnotation))
      (Params : list Param) (RetType : option TypeAnnotation) (Body : option Expr) (Block : option BlockStatement)
      (IsAsync : bool) (Src : option (nat * nat)) (Pure : bool)
  | FunctionExpression (Name : string) (NamePos : Pos) (Fn : FunctionDeclaration) (IsAsync IsGenerator Method : bool)
      (Src : option (nat * nat)) (Pure : bool)
  | ClassExpression (Decl : ClassDeclaration)
  | ImportMetaUrl
  | ImportCallExpression (Specifier : Expr)
with ObjectProperty := mkProperty (Key : string) (KeyExpr : option Expr) (Value : Expr) (AccessorKind : string)
    (CoverInit Shorthand : bool)
with Param := mkParam (Name : string) (PPos : Pos) (Type_ : option TypeAnnotation) (Rest : bool) (Default : option Expr)
    (Optional : bool) (ArrayPattern : option (list ArrayPatternElem)) (ObjectPattern : option (list DestructProp))
(** A hole has no name; a nested pattern is in [SubArray] or [SubObject]. *)
with ArrayPatternElem := mkElem (Name : string) (Pos_ : Pos) (Default : option Expr) (Rest : bool)
    (SubArray : option (list ArrayPatternElem)) (SubObject : option (list DestructProp))
with DestructProp := mkProp (Key : string) (KeyExpr : option Expr) (Local : string) (Pos_ : Pos) (Default : option Expr)
    (SubArray : option (list ArrayPatternElem)) (SubObject : option (list DestructProp)) (Rest : bool).
Set Elimination Schemes.

Definition eid (e : Expr) : nat := match e with mkExpr i _ _ => i end.
Definition epos (e : Expr) : Pos := match e with mkExpr _ p _ => p end.
Definition ekind (e : Expr) : ExprKind := match e with mkExpr _ _ k => k end.

(** A field of a node is set: the node keeps its identity. *)
Definition with_kind (k : ExprKind) (e : Expr) : Expr := match e with mkExpr i p _ => mkExpr i p k end.

(** ** Assignment targets (src/parser/parser_exprs.go) *)

Fixpoint inChain (e : Expr) : bool :=
  match ekind e with
  | MemberExpression o _ opt ended | IndexExpression o _ opt ended => if opt then true else if ended then false else inChain o
  | CallExpression c _ _ _ _ opt ended => if opt then true else if ended then false else inChain c
  | _ => false
  end.

(** The elements of an array literal, each told whether it is the last. *)
Definition forall_last {A} (f : bool → A → bool) : list A → bool :=
  fix go xs := match xs with [] => true | x :: xs' => f (match xs' with [] => true | _ => false end) x && go xs' end.

Fixpoint assignTarget (pattern : bool) (e : Expr) : bool :=
  match ekind e with
  | Identifier _ => true
  | NullLiteral undef _ _ => undef
  | MemberExpression o _ opt _ | IndexExpression o _ opt _ => negb opt && negb (inChain o)
  | NonNullExpression a => assignTarget pattern a
  | AsExpression a _ => assignTarget pattern a
  | CallExpression _ _ _ _ _ opt _ => negb opt
  | ArrayLiteral els trailing =>
      if negb pattern || trailing then false
      else forall_last (λ last el,
        match el with
        | mkExpr _ _ (SpreadElement a) =>
            negb (match ekind a with AssignmentExpression _ _ _ => true | _ => false end) && last && assignTarget true a
        | mkExpr _ _ (AssignmentExpression op l _) => bool_decide (op = "="%string) && assignTarget true l
        | el => assignTarget true el
        end) els
  | ObjectLiteral props trailing =>
      if negb pattern || trailing then false
      else forall_last (λ last pr,
        match pr with
        | mkProperty key keyExpr v _ _ _ =>
            match ekind v with
            | SpreadElement a =>
                if bool_decide (key = ""%string) && match keyExpr with None => true | _ => false end then
                  match ekind a with
                  | Identifier _ | MemberExpression _ _ _ _ | IndexExpression _ _ _ _ => last
                  | _ => false
                  end
                else true
            | _ => true
            end
        end) props
  | _ => false
  end.

(** [assertableCall], as whether there is one; what is set on it is set by
    [with_asserted]. *)
Definition asserts_call (e : Expr) : bool :=
  match ekind e with
  | CallExpression callee _ _ _ _ _ _ =>
      match ekind callee with
      | MemberExpression o prop _ _ =>
          match ekind o with Identifier name => bool_decide (name = "JSON") && bool_decide (prop = "parse") | _ => false end
          || bool_decide (prop = "json")
      | _ => false
      end
  | _ => false
  end%string.
Definition assertableCall (e : Expr) : bool :=
  match ekind e with AwaitExpression a => asserts_call a | _ => asserts_call e end.
Definition set_asserted (ta : TypeAnnotation) (e : Expr) : Expr :=
  match ekind e with
  | CallExpression c args src tas _ opt ended => with_kind (CallExpression c args src tas (Some ta) opt ended) e
  | _ => e
  end.
Definition with_asserted (ta : TypeAnnotation) (e : Expr) : Expr :=
  match ekind e with AwaitExpression a => with_kind (AwaitExpression (set_asserted ta a)) e | _ => set_asserted ta e end.

(** The end of an optional chain at a closing parenthesis ([parsePrimary]). *)
Definition end_chain (e : Expr) : Expr :=
  match ekind e with
  | MemberExpression o prop opt _ => with_kind (MemberExpression o prop opt true) e
  | IndexExpression o i opt _ => with_kind (IndexExpression o i opt true) e
  | CallExpression c args src tas ta opt _ => with_kind (CallExpression c args src tas ta opt true) e
  | _ => e
  end.

(** ** Parameters *)

Definition elem_name (e : ArrayPatternElem) : string := match e with mkElem name _ _ _ _ _ => name end.
Definition prop_local (p : DestructProp) : string := match p with mkProp _ _ l _ _ _ _ _ => l end.

Definition param_names (p : Param) : list string :=
  match p with
  | mkParam name _ _ _ _ _ arr obj =>
      match arr, obj with
      | Some els, _ => filter (λ n, n ≠ ""%string) (map elem_name els)
      | None, Some ps => map prop_local ps
      | None, None => [name]
      end
  end.
Fixpoint first_repeated (seen : list string) (ns : list string) : string :=
  match ns with
  | [] => ""
  | n :: ns => if bool_decide (n ∈ seen) then n else first_repeated (n :: seen) ns
  end.
Definition duplicateParamName (ps : list Param) : string := first_repeated [] (concat (map param_names ps)).
Definition nonSimpleParams (ps : list Param) : bool :=
  existsb (λ p, match p with mkParam _ _ _ rest dflt _ arr obj =>
    match arr with Some _ => true | None => false end || match obj with Some _ => true | None => false end
    || rest || match dflt with Some _ => true | None => false end end) ps.

(** [paramInitAwait]: the first [await] an initializer evaluates, children in
    the order of [ForEachChild]. *)
Definition first_some {A B} (f : A → option B) : list A → option B :=
  fix go xs := match xs with [] => None | x :: xs => match f x with Some b => Some b | None => go xs end end.
Definition in_option {A B} (f : A → option B) (x : option A) : option B := match x with Some a => f a | None => None end.
Fixpoint first_await (e : Expr) : option Pos :=
  match e with
  | mkExpr _ p k =>
      match k with
      | AwaitExpression _ => Some p
      | TemplateLiteral _ es | SequenceExpression es | ArrayLiteral es _ => first_some first_await es
      | TaggedTemplateExpression t _ _ es _ => match first_await t with Some q => Some q | None => first_some first_await es end
      | NewRegExpExpression a b | BinaryExpression _ a b | AssignmentExpression _ a b | IndexExpression a b _ _ =>
          match first_await a with Some q => Some q | None => first_await b end
      | UnaryExpression _ a | UpdateExpression _ _ a | SpreadElement a | NonNullExpression a | AsExpression a _
      | MemberExpression a _ _ _ | ImportCallExpression a => first_await a
      | ConditionalExpression t a b =>
          match first_await t with
          | Some q => Some q
          | None => match first_await a with Some q => Some q | None => first_await b end
          end
      | YieldExpression a _ => in_option first_await a
      | CallExpression c args _ _ _ _ _ => match first_await c with Some q => Some q | None => first_some first_await args end
      | NewExpression _ _ _ _ _ c args =>
          match in_option first_await c with Some q => Some q | None => first_some first_await args end
      | ObjectLiteral props _ =>
          first_some (λ '(mkProperty _ ke v _ _ _),
            match in_option first_await ke with Some q => Some q | None => first_await v end) props
      | _ => None
      end
  end.
Definition paramInitAwait (init : option Expr) : option Pos := in_option first_await init.

(** ** Member names (src/parser/parser_classes.go) *)

Definition is_name (e : Expr) (name : string) : bool :=
  match ekind e with Identifier n => bool_decide (n = name) | _ => false end.
Definition isInspectCustomKey (e : Expr) : bool :=
  match ekind e with
  | CallExpression callee [arg] _ _ _ _ _ =>
      match ekind callee with
      | MemberExpression o prop _ _ =>
          bool_decide (prop = "for") && is_name o "Symbol"
          && match ekind arg with StringLiteral v => bool_decide (v = "nodejs.util.inspect.custom") | _ => false end
      | _ => false
      end
  | MemberExpression o prop _ _ =>
      bool_decide (prop = "custom") &&
      match ekind o with
      | Identifier n => bool_decide (n = "inspect")
      | MemberExpression o' prop' _ _ => bool_decide (prop' = "inspect") && is_name o' "util"
      | _ => false
      end
  | _ => false
  end%string.
Definition well_known_symbols : list string :=
  ["asyncIterator"; "iterator"; "toStringTag"; "species"; "toPrimitive"; "dispose"; "asyncDispose"].
Definition wellKnownSymbolMemberName (e : Expr) : option string :=
  if isInspectCustomKey e then Some "@@inspectCustom"%string
  else
    match ekind e with
    | MemberExpression o prop _ _ =>
        if is_name o "Symbol" && bool_decide (prop ∈ well_known_symbols) then Some ("@@" +:+ prop) else None
    | _ => None
    end.
End expr.
