(* ===== verification/ParsePrimary.v ===== *)
(** * Primary expressions (src/parser/parser_literals.go)

    Literals, patterns, arrow functions, [new], names and parentheses, with the
    look-ahead that tells them apart; one definition per method.  The productions call
    each other again only after a token: those calls go through [Self], the
    productions with less fuel (ParseExpr.v ties the knot).  What is parsed
    by parts that are not modelled (types, blocks, functions, classes) is
    [Elsewhere], whose operations may call [Self] too. *)

From S2P Require Import Prelude GoString Diag Token Lexer Stream Expr.
Open Scope Z_scope.

(** ** Messages (src/diag/messages.go) *)

Definition StrictNonSimpleParams := syntax 1347 "a strict-mode function cannot have a non-simple parameter list".
Definition DuplicateParameter := syntax 2300 "duplicate parameter name '%s'".
Definition AwaitInParamInit := syntax 2524 "'await' expressions cannot be used in a parameter initializer".
Definition ExpectedConstructor := syntax 1109 "expected constructor name after 'new'".
Definition ExpectedColon := syntax 1005 "expected :, got %s".
Definition ExpectedPropertyName := syntax 1131 "expected property name, got %s".
Definition ExpectedMethodName := syntax 1068 "expected method name, got %s".
Definition RestElementLast := syntax 2462 "a rest element must be the last property in an object pattern, got %s".
Definition unsupported (code : Z) (text : string) : Message := mkMessage code Error Unsupported PhaseParse text.
Definition ComputedKeyBinding := unsupported 90004 "a computed destructuring key must bind through `: name`".
Definition LiteralKeyBinding := unsupported 90006 "a string or numeric destructuring key ('%s') must be bound with `: name`, got %s".

(** An error that is no diagnostic becomes this one when it is reported (src/parser/recovery.go). *)
Definition otherError : Message := mkMessage FirstOwnCode Error SyntaxError PhaseParse "%s".
Definition plain_error `{U : Unicode} (text : string) : Diagnostic :=
  Diag.New otherError (mkSpan "" (mkPos 0 0) (-1) (-1)) [FStr text].

(** ** State *)

Definition set_ctx (g : bool) (a : await) (p : Parser) : Parser :=
  mkParser (lx p) (toks p) (states p) (rescans p) (cursor p) (psrc p) (blanks p) (docAt p) (pdoc p) g (inGenParams p) a
    (noInFrom p) (speculating p) (parenLiterals p) (bareArrow p) (assertions p) (made p).
Definition set_speculating (n : nat) (p : Parser) : Parser :=
  mkParser (lx p) (toks p) (states p) (rescans p) (cursor p) (psrc p) (blanks p) (docAt p) (pdoc p) (inGen p) (inGenParams p)
    (awaitCtx p) (noInFrom p) n (parenLiterals p) (bareArrow p) (assertions p) (made p).
Definition set_nodes (lits : gset nat) (bare : option nat) (asserts : gmap nat Assertion) (n : nat) (p : Parser) : Parser :=
  mkParser (lx p) (toks p) (states p) (rescans p) (cursor p) (psrc p) (blanks p) (docAt p) (pdoc p) (inGen p) (inGenParams p)
    (awaitCtx p) (noInFrom p) (speculating p) lits bare asserts n.
Definition set_bareArrow (b : option nat) (p : Parser) : Parser := set_nodes (parenLiterals p) b (assertions p) (made p) p.
Definition add_parenLiteral (i : nat) (p : Parser) : Parser :=
  set_nodes ({[i]} ∪ parenLiterals p) (bareArrow p) (assertions p) (made p) p.

(** ** The parts left out *)

Section parse_expr.
Context `{U : Unicode} `{OP : Opaque}.

(** The productions called again after a token. *)
Record Self := mkSelf {
  self_assignment : PM Expr; self_exponentiation : PM Expr; self_unary : PM Expr; self_primary : PM Expr }.

Class Elsewhere := {
  parseType : Self → PM unit;
  parseTypeAnnotation : Self → string → PM TypeAnnotation;
  parseTypeParameterNodes : Self → string → PM (list TypeParameter);
  parseBlock : Self → PM BlockStatement;
  (** name, whether async, whether [nextGen] is set, [memberStart] *)
  parseFunctionRest : Self → string → bool → bool → option nat → PM FunctionDeclaration;
  parseClassDecl : Self → string → PM ClassDeclaration;
  parseImportExpr : Self → PM Expr }.

Context `{E : Elsewhere}.

(** ** Nodes *)

Definition make (pos : Pos) (k : ExprKind) : PM Expr :=
  p ← get;
  modify (set_nodes (parenLiterals p) (bareArrow p) (assertions p) (S (made p))) ≫= λ _,
  mret (mkExpr (made p) pos k).

Definition no_assertion : Assertion := mkAssertion false None None.
Definition assert_ (e : Expr) (set : Assertion → Assertion) : PM unit :=
  modify (λ p, set_nodes (parenLiterals p) (bareArrow p)
    (<[eid e := set (default no_assertion (assertions p !! eid e))]> (assertions p)) (made p) p).

(** An arrow function that is [bareArrow]. *)
Definition is_bareArrow (e : Expr) : PM bool :=
  p ← get;
  mret (match ekind e with ArrowFunction _ _ _ _ _ _ _ _ _ _ => bool_decide (bareArrow p = Some (eid e)) | _ => false end).

(** [srcRange]. *)
Fixpoint src_from (i : nat) (pos : Pos) (stop : nat) : PM (option (nat * nat)) :=
  t ← at_ i;
  if (TLine t =? Line pos) && (TCol t =? Col pos) then mret (Some (TPos t, stop))
  else if TLine t <? Line pos then mret None
  else match i with O => mret None | S i => src_from i pos stop end.
Definition srcRange (pos : Pos) : PM (option (nat * nat)) :=
  p ← get;
  match cursor p with
  | O => mret None
  | S i => t ← at_ i; src_from i pos (TEnd t)
  end.

(** [newFuncExpr]: the text of a function that has one of its own that begins before is its text. *)
Definition function_src (own here : option (nat * nat)) : option (nat * nat) :=
  match own, here with
  | Some (a, _), Some (b, _) => if (a <? b)%nat then own else here
  | Some _, None => own
  | None, _ => here
  end.
Definition newFuncExpr (name : string) (fd : FunctionDeclaration) (isAsync isGen : bool) (pos : Pos) : PM Expr :=
  src ← srcRange pos;
  make pos (FunctionExpression name (fn_name_pos fd) fd isAsync isGen false (function_src (fn_src fd) src) false).

(** A guess: [None] when it fails. *)
Definition attempt {A} (m : PM A) : PM (option A) := λ p,
  match m p with
  | (Ok a, p) => (Ok (Some a), p)
  | (Err _, p) => (Ok None, p)
  | (Panic, p) => (Panic, p) | (OutOfFuel, p) => (OutOfFuel, p)
  end.

(** A bound on the rounds of a loop: one for each rune left, and two. *)
Definition rounds : PM nat := gets (λ p, S (S (length (src (lx p))))).
Definition while {L B} (body : L → PM (L + B)) (x : L) : PM B := n ← rounds; loop n body x.

Definition kind_is (t : Token) (typ : TokenType) : bool := tok_eqb (Type_ t) typ.
Definition kind_in (t : Token) (typs : list TokenType) : bool := existsb (tok_eqb (Type_ t)) typs.
Definition is_word (t : Token) (w : string) : bool := kind_is t IDENT && bool_decide (Literal t = w).

(** ** Look-ahead (src/parser/parser_literals.go) *)

Section self.
Context (G : Self).

Definition typeThenArrowAt (k : nat) : PM bool :=
  save ← gets cursor;
  modify (set_cursor (save + k)) ≫= λ _,
  parsed ← attempt (parseType G);
  ok ← (match parsed with Some _ => check ARROW | None => mret false end);
  rewind save ≫= λ _,
  mret ok.

Definition parenGroupFollowedByArrowAt (k : nat) : PM bool :=
  while (λ '(i, depth),
    t ← peekNth i;
    if kind_is t EOF then mret (inr false)
    else if kind_in t [LPAREN; LBRACE; LBRACKET] then mret (inl (S i, depth + 1))
    else if kind_in t [RPAREN; RBRACE; RBRACKET] then
      if depth - 1 =? 0 then
        next ← peekNth (i + 1);
        if kind_is next ARROW then mret (inr true)
        else if kind_is next COLON then b ← typeThenArrowAt (i + 2); mret (inr b)
        else mret (inr false)
      else mret (inl (S i, depth - 1))
    else mret (inl (S i, depth))) (k, 0).
Definition parenGroupFollowedByArrow : PM bool := parenGroupFollowedByArrowAt 0.

(** Phase 1 of [destructuredArrowParamLookahead]: the place of the bracket that
    closes the first pattern. *)
Definition pattern_close (open close : TokenType) : PM (option nat) :=
  while (λ '(n, depth),
    t ← peekNth n;
    if kind_is t EOF then mret (inr None)
    else if kind_is t open then mret (inl (S n, depth + 1))
    else if kind_is t close then
      if depth - 1 =? 0 then mret (inr (Some n)) else mret (inl (S n, depth - 1))
    else mret (inl (S n, depth))) (1%nat, 0).
(** Phase 2: an arrow after the parameter list. *)
Definition arrow_after_params : PM bool :=
  while (λ '(m, depth),
    t ← peekNth m;
    if kind_is t EOF then mret (inr false)
    else if kind_is t LPAREN then mret (inl (S m, depth + 1))
    else if kind_is t RPAREN then
      if depth - 1 =? 0 then next ← peekNth (m + 1); mret (inr (kind_is next ARROW))
      else mret (inl (S m, depth - 1))
    else mret (inl (S m, depth))) (0%nat, 0).
Definition destructuredArrowParamLookahead : PM bool :=
  open ← peekNth 1;
  n ← pattern_close (Type_ open) (if kind_is open LBRACKET then RBRACKET else RBRACE);
  match n with
  | None => mret false
  | Some n => t ← peekNth (n + 1); if kind_is t COLON then mret true else arrow_after_params
  end.

(** The change of depth at a token of [genericArrowAhead]. *)
Definition angle (t : Token) : Z :=
  if kind_is t LT then 1 else if kind_is t GT then -1 else if kind_is t RSHIFT then -2 else if kind_is t URSHIFT then -3 else 0.
Definition genericArrowAhead : PM bool :=
  t1 ← peekNth 1;
  if negb (kind_is t1 IDENT) then mret false
  else
    t2 ← peekNth 2;
    if negb (kind_in t2 [COMMA; GT; EXTENDS; ASSIGN]) then mret false
    else
      while (λ '(i, depth),
        t ← peekNth i;
        if kind_in t [EOF; SEMICOLON; LBRACE; RBRACE] then mret (inr false)
        else
          let depth := depth + angle t in
          if depth <=? 0 then
            if depth =? 0 then
              next ← peekNth (i + 1);
              if kind_is next LPAREN then b ← parenGroupFollowedByArrowAt (i + 1); mret (inr b) else mret (inr false)
            else mret (inr false)
          else mret (inl (S i, depth))) (0%nat, 0).

(** [asyncFunctionAhead] (src/parser/parser.go). *)
Definition asyncFunctionAhead : PM bool :=
  w ← isWord 0 "async";
  if negb w then mret false
  else
    l ← sameLine 1;
    if negb l then mret false
    else
      t ← peekNth 1;
      if kind_in t [FUNCTION; LT] then mret true
      else if kind_is t IDENT then u ← peekNth 2; mret (kind_is u ARROW)
      else if kind_is t LPAREN then parenGroupFollowedByArrowAt 1
      else mret false.

(** ** Literals and argument lists *)

Definition parseTemplateRestRaw (headQuasi headRaw : string) : PM (list string * list string * list Expr) :=
  while (λ '(quasis, raws, exprs),
    e ← self_assignment G;
    next ← peek;
    if kind_is next TEMPLATE_MIDDLE then
      advance ≫= λ _, mret (inl (quasis ++ [Literal next], raws ++ [Raw next], exprs ++ [e]))
    else if kind_is next TEMPLATE_TAIL then
      advance ≫= λ _, mret (inr (quasis ++ [Literal next], raws ++ [Raw next], exprs ++ [e]))
    else errAt next ExpectedTemplateCont [FTok (Type_ next)]) ([headQuasi], [headRaw], []).
Definition parseTemplateLiteral : PM Expr :=
  tok ← advance;
  r ← parseTemplateRestRaw (Literal tok) "";
  make (posOf tok) (TemplateLiteral r.1.1 r.2).

(** An assignment expression, or one spread. *)
Definition parseSpread : PM Expr :=
  spread ← check ELLIPSIS;
  if (spread : bool) then
    tok ← advance;
    e ← self_assignment G;
    make (posOf tok) (SpreadElement e)
  else self_assignment G.
Definition parseArgList : PM (list Expr) :=
  while (λ args,
    close ← check RPAREN;
    stop ← (if close : bool then mret true else check EOF);
    if (stop : bool) then mret (inr args)
    else
      arg ← parseSpread;
      comma ← match_ [COMMA];
      mret (if comma : bool then inl (args ++ [arg]) else inr (args ++ [arg]))) [].

Definition parseArrayLiteral : PM Expr :=
  tok ← advance;
  r ← while (λ '(elems, trailing),
    close ← check RBRACKET;
    stop ← (if close : bool then mret true else check EOF);
    if (stop : bool) then mret (inr (elems, trailing))
    else
      comma ← check COMMA;
      if (comma : bool) then
        t ← peek;
        hole ← make (posOf t) (NullLiteral true false true);
        advance ≫= λ _,
        mret (inl (elems ++ [hole], trailing))
      else
        spread ← check ELLIPSIS;
        elem ← parseSpread;
        more ← (if spread : bool then check COMMA else mret false);
        next ← (if more : bool then t ← peekNth 1; mret (kind_is t RBRACKET) else mret false);
        let trailing := (trailing || next : bool) in
        comma ← match_ [COMMA];
        mret (if comma : bool then inl (elems ++ [elem], trailing) else inr (elems ++ [elem], trailing))) ([], false);
  expect RBRACKET ≫= λ _,
  make (posOf tok) (ArrayLiteral r.1 r.2).

Definition expectPropertyName : PM Token :=
  t ← peek;
  if kind_is t DEFAULT || kind_is t PRIVATE_NAME || IsKeyword (Type_ t) then advance else expect IDENT.

(** A list of type annotations and the [>] that closes it. *)
Definition type_arguments (context : string) : PM (list TypeAnnotation) :=
  tas ← while (λ tas,
    ta ← parseTypeAnnotation G "ts";
    comma ← match_ [COMMA];
    mret (if comma : bool then inl (tas ++ [ta]) else inr (tas ++ [ta]))) [];
  expectGT context ≫= λ _,
  mret tas.
(** The text from a place to the last token read is type syntax. *)
Definition blank_from_place (start : nat) : PM unit :=
  c ← gets cursor;
  t ← at_ (c - 1);
  blank start (TEnd t).

(** ** [new] *)

Definition newTargetIsExpression : PM bool :=
  t ← peek;
  if negb (kind_is t IDENT) then mret (kind_in t [THIS; LPAREN; CLASS; FUNCTION])
  else
    while (λ i,
      t ← peekNth i;
      next ← (if kind_is t DOT then u ← peekNth (i + 1); mret (kind_is u IDENT) else mret false);
      mret (if next : bool then inl (i + 2)%nat else inr (kind_is t LBRACKET))) 1%nat.

(** The list of arguments is read as [parseArgList] does. *)
Definition parseNewTail (name : string) (pos : Pos) (qualified : bool) (path : list string) (callee : option Expr) : PM Expr :=
  lt ← check LT;
  typeArgs ← (if lt : bool then
    t ← peek;
    advance ≫= λ _,
    tas ← type_arguments (name +:+ "<T>");
    blank_from_place (TPos t) ≫= λ _,
    mret tas
  else mret []);
  paren ← match_ [LPAREN];
  args ← (if paren : bool then
    args ← parseArgList;
    expect RPAREN ≫= λ _,
    mret args
  else mret []);
  make pos (NewExpression name qualified (default "" (last path)) path typeArgs callee args).

Definition parseNewOfExpression (pos : Pos) : PM Expr :=
  callee ← self_primary G;
  callee ← while (λ callee,
    dot ← match_ [DOT];
    if (dot : bool) then
      prop ← expectPropertyName;
      e ← make (posOf prop) (MemberExpression callee (Literal prop) false false);
      mret (inl e)
    else
      brack ← check LBRACKET;
      if (brack : bool) then
        lbrak ← advance;
        i ← self_assignment G;
        expect RBRACKET ≫= λ _,
        e ← make (posOf lbrak) (IndexExpression callee i false false);
        mret (inl e)
      else mret (inr callee)) callee;
  parseNewTail "" pos false [] (Some callee).

(** [new] of an expression, or of a name perhaps qualified. *)
Definition new_path : PM (list string) :=
  while (λ path,
    t1 ← peekNth 1;
    next ← (if kind_is t1 DOT then t2 ← peekNth 2; mret (kind_is t2 IDENT) else mret false);
    if (next : bool) then
      t ← advance;
      advance ≫= λ _,
      mret (inl (path ++ [Literal t]))
    else mret (inr path)) [].
Definition new_constructor (pos : Pos) (nameTok : Token) : PM Expr :=
  expression ← newTargetIsExpression;
  if (expression : bool) then parseNewOfExpression pos
  else if negb (kind_is nameTok IDENT) then errAt nameTok ExpectedConstructor []
  else
    path ← new_path;
    name ← advance;
    parseNewTail (Literal name) pos (match path with [] => false | _ => true end) path None.
Definition parseNew : PM Expr :=
  tok ← advance;
  let pos := posOf tok in
  nameTok ← peek;
  t1 ← (if kind_is nameTok DOT then peekNth 1 else mret nameTok);
  if kind_is nameTok DOT && is_word t1 "target" then
    advance ≫= λ _, advance ≫= λ _,
    make pos NewTargetExpression
  else new_constructor pos nameTok.

(** ** Patterns (src/parser/parser_stmts.go)

    A pattern nests others after a token: [array] and [object] read those, with
    less fuel; [patterns] ties the knot. *)

Section patterns.
Context (array : PM (list ArrayPatternElem)) (object : PM (list DestructProp)).

Definition initializer : PM (option Expr) :=
  assign ← match_ [ASSIGN];
  if (assign : bool) then e ← self_assignment G; mret (Some e) else mret None.
(** A pattern at a [[] or a brace. *)
Definition sub_pattern : PM (option (list ArrayPatternElem) * option (list DestructProp)) :=
  bracket ← check LBRACKET;
  if (bracket : bool) then a ← array; mret (Some a, None) else o ← object; mret (None, Some o).
Definition parseNestedPatternElem : PM ArrayPatternElem :=
  t ← peek;
  '(a, o) ← sub_pattern;
  dflt ← initializer;
  mret (mkElem "" (posOf t) dflt false a o).

(** What follows the dots: the last element. *)
Definition array_rest : PM ArrayPatternElem :=
  t ← peek;
  if kind_in t [LBRACKET; LBRACE] then
    elem ← parseNestedPatternElem;
    match elem with
    | mkElem name pos dflt _ a o =>
        match dflt with
        | Some _ => throw (plain_error (itoa (Line pos) +:+ ":" +:+ itoa (Col pos) +:+ ": a rest element cannot have an initializer"))
        | None => mret (mkElem name pos dflt true a o)
        end
    end
  else nameTok ← expect IDENT; mret (mkElem (Literal nameTok) (posOf nameTok) None true None None).
(** An element, which is no hole. *)
Definition array_element : PM ArrayPatternElem :=
  t ← peek;
  if kind_in t [LBRACKET; LBRACE] then parseNestedPatternElem
  else
    nameTok ← expect IDENT;
    dflt ← initializer;
    mret (mkElem (Literal nameTok) (posOf nameTok) dflt false None None).
Definition array_pattern : PM (list ArrayPatternElem) :=
  advance ≫= λ _,
  elems ← while (λ elems,
    t ← peek;
    if kind_in t [RBRACKET; EOF] then mret (inr elems)
    else if kind_is t ELLIPSIS then advance ≫= λ _, elem ← array_rest; mret (inr (elems ++ [elem]))
    else if kind_is t COMMA then advance ≫= λ _, mret (inl (elems ++ [mkElem "" (mkPos 0 0) None false None None]))
    else
      elem ← array_element;
      comma ← match_ [COMMA];
      mret (if comma : bool then inl (elems ++ [elem]) else inr (elems ++ [elem]))) [];
  expect RBRACKET ≫= λ _,
  mret elems.

(** What a property binds: a name, or a nested pattern and its first token. *)
Definition pattern_target : PM (Token * option (list ArrayPatternElem) * option (list DestructProp)) :=
  t ← peek;
  if kind_in t [LBRACKET; LBRACE] then '(a, o) ← sub_pattern; mret (t, a, o)
  else alias ← expect IDENT; mret (alias, None, None).
(** The token of the name bound, if one is: [k] is the token of the key. *)
Definition bound_token (k u : Token) (a : option (list ArrayPatternElem)) (o : option (list DestructProp)) : Token :=
  match a, o with None, None => u | _, _ => k end.
Definition bound_name (u : Token) (a : option (list ArrayPatternElem)) (o : option (list DestructProp)) : string :=
  match a, o with None, None => Literal u | _, _ => "" end.

Definition object_rest : PM DestructProp :=
  restTok ← expect IDENT;
  t ← peek;
  if kind_is t RBRACE then mret (mkProp "" None (Literal restTok) (posOf restTok) None None None true)
  else errAt t RestElementLast [FTok (Type_ t)].
(** The key of a computed property: a literal, or an expression. *)
Definition computed_key : PM (string * option Expr) :=
  t ← peek;
  close ← (if kind_in t [STRING; NUMBER] then next ← peekNth 1; mret (kind_is next RBRACKET) else mret false);
  if (close : bool) then k ← advance; mret (Literal k, None) else e ← self_assignment G; mret (""%string, Some e).
Definition computed_prop : PM DestructProp :=
  advance ≫= λ _,
  '(key, keyExpr) ← computed_key;
  expect RBRACKET ≫= λ _,
  colon ← match_ [COLON];
  if (colon : bool) then
    '(u, a, o) ← pattern_target;
    dflt ← initializer;
    mret (mkProp key keyExpr (bound_name u a o) (posOf u) dflt a o false)
  else t ← peek; errAt t ComputedKeyBinding [].
Definition keyed_prop : PM DestructProp :=
  t ← peek;
  if negb (kind_in t [IDENT; STRING; NUMBER]) then errAt t ExpectedPropertyName [FTok (Type_ t)]
  else
    keyTok ← advance;
    colon ← check COLON;
    '(u, a, o) ← (if colon : bool then advance ≫= λ _, pattern_target
                  else if negb (kind_is keyTok IDENT) then
                    next ← peek; errAt next LiteralKeyBinding [FStr (Literal keyTok); FTok (Type_ next)]
                  else mret (keyTok, None, None));
    dflt ← initializer;
    let local := bound_token keyTok u a o in
    mret (mkProp (Literal keyTok) None (Literal local) (posOf local) dflt a o false).
Definition object_pattern : PM (list DestructProp) :=
  advance ≫= λ _,
  props ← while (λ props,
    t ← peek;
    if kind_in t [RBRACE; EOF] then mret (inr props)
    else if kind_is t ELLIPSIS then advance ≫= λ _, prop ← object_rest; mret (inr (props ++ [prop]))
    else
      prop ← (if kind_is t LBRACKET then computed_prop else keyed_prop);
      comma ← match_ [COMMA];
      mret (if comma : bool then inl (props ++ [prop]) else inr (props ++ [prop]))) [];
  expect RBRACE ≫= λ _,
  mret props.
End patterns.

Fixpoint patterns (n : nat) : PM (list ArrayPatternElem) * PM (list DestructProp) :=
  match n with
  | O => (λ p, (OutOfFuel, p), λ p, (OutOfFuel, p))
  | S n => let nested := patterns n in (array_pattern nested.1 nested.2, object_pattern nested.1 nested.2)
  end.
Definition parseArrayPatternElems : PM (list ArrayPatternElem) := n ← rounds; (patterns n).1.
Definition parseObjectPatternProps : PM (list DestructProp) := n ← rounds; (patterns n).2.

(** ** Object literals *)

Definition propertyKeyText (t : Token) : string := if kind_is t NUMBER then NumberKey (Literal t) else Literal t.
(** A property name: an identifier, a literal, a reserved word. *)
Definition property_word (t : Token) : bool := kind_in t [IDENT; STRING; NUMBER] || IsKeyword (Type_ t).
Definition objectMethodNameStart (t : Token) : bool := property_word t || kind_in t [STAR; LBRACKET].

Definition newObjectMethod (fd : FunctionDeclaration) (isAsync isGen : bool) (pos : Pos) : PM Expr :=
  fe ← newFuncExpr "" fd isAsync isGen pos;
  mret (match ekind fe with
        | FunctionExpression name npos fd a g _ src pure => with_kind (FunctionExpression name npos fd a g true src pure) fe
        | _ => fe
        end).
(** The method whose text starts at [memberStart]. *)
Definition object_method (memberStart : nat) (isAsync isGen : bool) : PM Expr :=
  t ← peek;
  fd ← parseFunctionRest G "" isAsync isGen (Some memberStart);
  newObjectMethod (eraseTypeParams fd) isAsync isGen (posOf t).

(** A computed name after its bracket: the name of a symbol that is known, or an expression. *)
Definition computed_name : PM (string * option Expr) :=
  e ← self_assignment G;
  expect RBRACKET ≫= λ _,
  mret (match wellKnownSymbolMemberName e with Some wk => (wk, None) | None => (""%string, Some e) end).
Definition computed_member (memberStart : nat) (isAsync isGen : bool) : PM ObjectProperty :=
  advance ≫= λ _,
  '(key, keyExpr) ← computed_name;
  t ← peek;
  val ← (if isAsync || isGen || kind_in t [LPAREN; LT] then object_method memberStart isAsync isGen
         else expect COLON ≫= λ _, self_assignment G);
  mret (mkProperty key keyExpr val "" false false).
Definition set_name_pos (pos : Pos) (fe : Expr) : Expr :=
  match ekind fe with
  | FunctionExpression name _ fd a g m src pure => with_kind (FunctionExpression name pos fd a g m src pure) fe
  | _ => fe
  end.
Definition accessor_member (memberStart : nat) : PM ObjectProperty :=
  kindTok ← advance;
  nameTok ← peek;
  bracket ← match_ [LBRACKET];
  '(key, keyExpr) ← (if bracket : bool then computed_name else advance ≫= λ _, mret (propertyKeyText nameTok, None));
  fe ← object_method memberStart false false;
  mret (mkProperty key keyExpr (set_name_pos (posOf nameTok) fe) (Literal kindTok) false false).
Definition modified_method (memberStart : nat) (isAsync isGen : bool) : PM ObjectProperty :=
  keyTok ← advance;
  if property_word keyTok then
    fe ← object_method memberStart isAsync isGen;
    mret (mkProperty (propertyKeyText keyTok) None fe "" false false)
  else errAt keyTok ExpectedMethodName [FTok (Type_ keyTok)].
(** The value of a named property, and whether it is a default or a shorthand. *)
Definition member_value (memberStart : nat) (keyTok : Token) : PM (Expr * bool * bool) :=
  t ← peek;
  if kind_in t [LPAREN; LT] then fe ← object_method memberStart false false; mret (fe, false, false)
  else if kind_is t COLON then advance ≫= λ _, e ← self_assignment G; mret (e, false, false)
  else if negb (kind_is keyTok IDENT) then errAt t ExpectedColon [FTok (Type_ t)]
  else if kind_is t ASSIGN then
    advance ≫= λ _,
    def ← self_assignment G;
    ident ← make (posOf keyTok) (Identifier (Literal keyTok));
    e ← make (posOf keyTok) (AssignmentExpression "=" ident def);
    mret (e, true, true)
  else ident ← make (posOf keyTok) (Identifier (Literal keyTok)); mret (ident, false, true).
Definition plain_member (memberStart : nat) : PM ObjectProperty :=
  keyTok ← advance;
  '(val, coverInit, shorthand) ← member_value memberStart keyTok;
  mret (mkProperty (propertyKeyText keyTok) None val "" coverInit shorthand).
Definition named_member (memberStart : nat) : PM ObjectProperty :=
  t ← peek;
  named ← (if kind_in t [IDENT; STRING; NUMBER] then mret true
           else if IsKeyword (Type_ t) then next ← peekNth 1; mret (kind_in next [COLON; LPAREN]) else mret false);
  if (named : bool) then plain_member memberStart
  else errAt t ExpectedPropertyName [FTok (Type_ t)].
Definition accessor_ahead (t : Token) : PM bool :=
  if is_word t "get" || is_word t "set" then
    next ← peekNth 1;
    mret (objectMethodNameStart next && negb (kind_is next STAR))
  else mret false.
Definition async_method_ahead : PM bool :=
  word ← isWord 0 "async";
  if (word : bool) then
    line ← sameLine 1;
    if (line : bool) then next ← peekNth 1; mret (objectMethodNameStart next) else mret false
  else mret false.
Definition object_member : PM ObjectProperty :=
  t ← peek;
  let memberStart := TPos t in
  isAsync ← async_method_ahead;
  (if isAsync : bool then advance ≫= λ _, mret tt else mret tt) ≫= λ _,
  isGen ← match_ [STAR];
  u ← peek;
  if kind_is u LBRACKET then computed_member memberStart isAsync isGen
  else
    accessor ← (if isAsync || isGen then mret false else accessor_ahead u);
    if (accessor : bool) then accessor_member memberStart
    else if isAsync || isGen then modified_method memberStart isAsync isGen
    else named_member memberStart.
Definition spread_member : PM ObjectProperty :=
  spreadTok ← advance;
  arg ← self_assignment G;
  e ← make (posOf spreadTok) (SpreadElement arg);
  mret (mkProperty "" None e "" false false).
Definition parseObjectLiteral : PM Expr :=
  tok ← advance;
  r ← while (λ '(props, trailing),
    t ← peek;
    if kind_in t [RBRACE; EOF] then mret (inr (props, trailing))
    else
      prop ← (if kind_is t ELLIPSIS then spread_member else object_member);
      comma ← match_ [COMMA];
      if (comma : bool) then
        close ← (if kind_is t ELLIPSIS then check RBRACE else mret false);
        mret (inl (props ++ [prop], trailing || close))
      else mret (inr (props ++ [prop], trailing))) ([], false);
  expect RBRACE ≫= λ _,
  make (posOf tok) (ObjectLiteral r.1 r.2).

(** ** Arrow functions *)

(** What an async arrow reads, [await] is the operator in (the deferred
    functions of the source restore the context, on an error too). *)
Definition awaiting {A} (isAsync : bool) (m : PM A) : PM A :=
  if isAsync then λ p, let '(r, p') := m (set_ctx (inGen p) awaitAsync p) in (r, set_ctx (inGen p') (awaitCtx p) p')
  else m.

Definition annotation : PM (option TypeAnnotation) :=
  colon ← check COLON;
  if (colon : bool) then advance ≫= λ _, ta ← parseTypeAnnotation G "ts"; mret (Some ta) else mret None.
Definition default_value (rest : bool) : PM (option Expr) :=
  assign ← (if rest then mret false else match_ [ASSIGN]);
  if (assign : bool) then e ← self_assignment G; mret (Some e) else mret None.

(** A parameter, and whether it is the last one. *)
Definition arrow_pattern : PM (option (list ArrayPatternElem) * option (list DestructProp)) :=
  brace ← check LBRACE;
  if (brace : bool) then o ← parseObjectPatternProps; mret (None, Some o)
  else a ← parseArrayPatternElems; mret (Some a, None).
Definition pattern_param (params : list Param) (rest : bool) : PM (Param * bool) :=
  patTok ← peek;
  pat ← arrow_pattern;
  pty ← annotation;
  pdflt ← default_value rest;
  match_ [COMMA] ≫= λ _,
  mret (mkParam ("__param" +:+ itoa (Z.of_nat (length params))) (posOf patTok) pty rest pdflt false pat.1 pat.2, false).
Definition name_param (restTok : Token) (rest : bool) : PM (Param * bool) :=
  nameTok ← expect IDENT;
  optional ← match_ [QUESTION];
  pty ← annotation;
  dflt ← default_value rest;
  (if rest then mret false else match_ [COMMA]) ≫= λ _,
  mret (mkParam (Literal nameTok) (if rest then posOf restTok else posOf nameTok) pty rest dflt optional None None, rest).
Definition arrow_param (params : list Param) : PM (Param * bool) :=
  restTok ← peek;
  rest ← match_ [ELLIPSIS];
  brace ← check LBRACE;
  pattern ← (if brace : bool then mret true else check LBRACKET);
  if (pattern : bool) then pattern_param params rest else name_param restTok rest.
Definition arrow_params : PM (list Param) :=
  while (λ params,
    close ← check RPAREN;
    stop ← (if close : bool then mret true else check EOF);
    if (stop : bool) then mret (inr params)
    else r ← arrow_param params; if (r.2 : bool) then mret (inr (params ++ [r.1])) else mret (inl (params ++ [r.1]))) [].

Fixpoint no_await (params : list Param) : PM unit :=
  match params with
  | [] => mret tt
  | mkParam name ppos _ _ dflt _ _ _ :: params =>
      if bool_decide (name = "await"%string) then errAtPos ppos ReservedWordIdent [FStr "await"]
      else match paramInitAwait dflt with Some q => errAtPos q AwaitInParamInit [] | None => no_await params end
  end.

(** [Src] is set on the node as it is made, and [bareArrow] to it. *)
Definition arrow_block (params : list Param) (ret : option TypeAnnotation) (block : BlockStatement) (pos : Pos) : PM Expr :=
  src ← srcRange pos;
  arrow ← make pos (ArrowFunction [] [] [] params ret None (Some block) false src false);
  modify (set_bareArrow (Some (eid arrow))) ≫= λ _,
  mret arrow.
Definition arrow_body (params : list Param) (ret : option TypeAnnotation) (body : Expr) (pos : Pos) : PM Expr :=
  src ← srcRange pos;
  make pos (ArrowFunction [] [] [] params ret (Some body) None false src false).

(** From the body on, and from the parameters on. *)
Definition arrow_end (params : list Param) (ret : option TypeAnnotation) (pos : Pos) : PM Expr :=
  brace ← check LBRACE;
  if (brace : bool) then
    block ← parseBlock G;
    if starts_with_use_strict block && nonSimpleParams params then errAtPos pos StrictNonSimpleParams []
    else arrow_block params ret block pos
  else body ← self_assignment G; arrow_body params ret body pos.
Definition arrow_function (isAsync : bool) (pos : Pos) : PM Expr :=
  params ← arrow_params;
  expect RPAREN ≫= λ _,
  ret ← annotation;
  t ← peek;
  if kind_is t ARROW && HasPrecedingLineBreak t then errAt t LineBreakBeforeArrow []
  else
    arrowTok ← expect ARROW;
    if negb (bool_decide (duplicateParamName params = ""%string))
    then errAt arrowTok DuplicateParameter [FStr (duplicateParamName params)]
    else
      (if isAsync then no_await params else mret tt) ≫= λ _,
      arrow_end params ret pos.
Definition parseArrowFunction (isAsync : bool) : PM Expr :=
  tok ← advance;
  awaiting isAsync (arrow_function isAsync (posOf tok)).

(** [IsAsync] is set on an arrow function, whose text begins at [from]. *)
Definition set_async (from : option nat) (e : Expr) : Expr :=
  match ekind e with
  | ArrowFunction tps cs ds ps ret body block _ src pure =>
      with_kind (ArrowFunction tps cs ds ps ret body block true
        (match from, src with Some a, Some (_, b) => Some (a, b) | _, _ => src end) pure) e
  | _ => e
  end.

Definition erase_param (tps : list string) (p : Param) : Param :=
  match p with mkParam n q ty r d o a b => mkParam n q ((λ ta, EraseTypeParams ta tps) <$> ty) r d o a b end.
Definition set_type_params (tps : list TypeParameter) (e : Expr) : Expr :=
  match ekind e with
  | ArrowFunction _ _ _ ps ret body block isAsync src pure =>
      let names := map tp_name tps in
      with_kind (ArrowFunction names (map tp_constraint tps) (map tp_default tps) (map (erase_param names) ps)
        ((λ ta, EraseTypeParams ta names) <$> ret) body block isAsync src pure) e
  | _ => e
  end.
Definition parseGenericArrow : PM Expr :=
  tps ← parseTypeParameterNodes G "generic arrow function";
  e ← parseArrowFunction false;
  mret (set_type_params tps e).

(** The arrow function of one bare parameter, the current token after [=>].  Only the one that
    is not async becomes [bareArrow]. *)
Definition bare_param (t : Token) : Param := mkParam (Literal t) (posOf t) None false None false None None.

Definition async_bare (t : Token) (pos : Pos) : PM Expr :=
  brace ← check LBRACE;
  if (brace : bool) then
    block ← parseBlock G;
    src ← srcRange pos;
    make pos (ArrowFunction [] [] [] [bare_param t] None None (Some block) true src false)
  else
    body ← self_assignment G;
    src ← srcRange pos;
    make pos (ArrowFunction [] [] [] [bare_param t] None (Some body) None true src false).

(** [async function], from its [function] on. *)
Definition async_name (isGen : bool) : PM string :=
  ident ← check IDENT;
  named ← (if ident : bool then mret true else check AWAIT);
  if (named : bool) then
    nt ← advance;
    let name := Literal nt in
    if bool_decide (name = "await"%string) || bool_decide (name = "yield"%string) && isGen
    then errAt nt ReservedWordIdent [FStr name] else mret name
  else mret ""%string.
Definition async_function (tok : Token) : PM Expr :=
  advance ≫= λ _,
  isGen ← match_ [STAR];
  name ← async_name isGen;
  fd ← parseFunctionRest G name true isGen None;
  newFuncExpr name (eraseTypeParams fd) true isGen (posOf tok).

Definition parseAsyncFunctionOrArrow (tok : Token) : PM Expr :=
  advance ≫= λ _,
  fn ← check FUNCTION;
  if (fn : bool) then async_function tok
  else
    t ← peek;
    t1 ← (if kind_is t IDENT then peekNth 1 else mret t);
    if kind_is t IDENT && kind_is t1 ARROW then
      if HasPrecedingLineBreak t1 then errAt t1 LineBreakBeforeArrow []
      else
        advance ≫= λ _, advance ≫= λ _,
        awaiting true (async_bare t (posOf tok))
    else
      e ← parseArrowFunction true;
      mret (set_async (Some (TPos tok)) e).

(** ** Primary expressions *)

Definition reservedWords : list string := ["in"; "with"; "debugger"; "delete"; "enum"].

Definition bare_arrow (tok : Token) : PM Expr :=
  brace ← check LBRACE;
  if (brace : bool) then block ← parseBlock G; arrow_block [bare_param tok] None block (posOf tok)
  else body ← self_assignment G; arrow_body [bare_param tok] None body (posOf tok).
Definition parse_name (tok : Token) : PM Expr :=
  async ← asyncFunctionAhead;
  if (async : bool) then parseAsyncFunctionOrArrow tok
  else if bool_decide (Literal tok ∈ reservedWords) then errAt tok ReservedWordIdent [FStr (Literal tok)]
  else
    advance ≫= λ _,
    t ← peek;
    if kind_is t ARROW && HasPrecedingLineBreak t then errAt t LineBreakBeforeArrow []
    else
      arrow ← check ARROW;
      if (arrow : bool) then advance ≫= λ _, bare_arrow tok
      else make (posOf tok) (Identifier (Literal tok)).

(** The [isArrow] of [parsePrimary]: its disjuncts by the tokens they look at. *)
Definition isArrow : PM bool :=
  t1 ← peekNth 1;
  if kind_is t1 RPAREN then t2 ← peekNth 2; mret (kind_in t2 [ARROW; COLON])
  else if kind_is t1 IDENT then
    t2 ← peekNth 2;
    if kind_is t2 COLON then mret true
    else if kind_is t2 RPAREN then
      t3 ← peekNth 3;
      if kind_is t3 ARROW then mret true else if kind_is t3 COLON then typeThenArrowAt 4 else mret false
    else if kind_in t2 [COMMA; ASSIGN] then parenGroupFollowedByArrow
    else if kind_is t2 QUESTION then t3 ← peekNth 3; mret (kind_in t3 [COLON; RPAREN; COMMA])
    else mret false
  else if kind_is t1 ELLIPSIS then mret true
  else if kind_in t1 [LBRACE; LBRACKET] then destructuredArrowParamLookahead
  else mret false.

(** The comma operator: what follows its first operand. *)
Definition sequence (pos : Pos) (e : Expr) : PM Expr :=
  comma ← check COMMA;
  if (comma : bool) then
    es ← while (λ es,
      comma ← check COMMA;
      if (comma : bool) then advance ≫= λ _, next ← self_assignment G; mret (inl (es ++ [next])) else mret (inr es)) [e];
    make pos (SequenceExpression es)
  else mret e.
Definition parenthesized : PM Expr :=
  lparen ← advance;
  e ← self_assignment G;
  e ← sequence (posOf lparen) e;
  expect RPAREN ≫= λ _,
  modify (set_bareArrow None) ≫= λ _,
  (match ekind e with
   | ObjectLiteral _ _ | ArrayLiteral _ _ => modify (add_parenLiteral (eid e))
   | _ => mret tt
   end) ≫= λ _,
  mret (end_chain e).
Definition parse_paren : PM Expr :=
  arrow ← isArrow;
  if (arrow : bool) then parseArrowFunction false else parenthesized.

(** The name of a function expression, read in the context of the function. *)
Definition function_own_name (isGen : bool) : PM string :=
  p ← get;
  modify (set_ctx isGen awaitFn) ≫= λ _,
  ident ← check IDENT;
  named ← (if ident : bool then mret true else check AWAIT);
  name ← (if named : bool then t ← advance; mret (Literal t) else mret ""%string);
  modify (set_ctx (inGen p) (awaitCtx p)) ≫= λ _,
  mret name.
Definition parse_function (tok : Token) : PM Expr :=
  advance ≫= λ _,
  isGen ← match_ [STAR];
  name ← function_own_name isGen;
  fd ← parseFunctionRest G name false isGen None;
  newFuncExpr name (eraseTypeParams fd) false isGen (posOf tok).

Definition parse_class (tok : Token) : PM Expr :=
  decl ← parseClassDecl G "$ClassExpr";
  src ← srcRange (posOf tok);
  make (posOf tok) (ClassExpression (set_class_src src decl)).

Definition primary_of (tok : Token) : PM Expr :=
  let leaf k := advance ≫= λ _, make (posOf tok) k in
  match Type_ tok with
  | NUMBER => leaf (NumberLiteral (Literal tok))
  | BIGINT => leaf (BigIntLiteral (Literal tok))
  | STRING => leaf (StringLiteral (Literal tok))
  | TEMPLATE_NO_SUB => leaf (TemplateLiteral [Literal tok] [])
  | TEMPLATE_HEAD => parseTemplateLiteral
  | REGEX =>
      advance ≫= λ _,
      pattern ← make (posOf tok) (StringLiteral (Literal tok));
      flags ← make (posOf tok) (StringLiteral (RegexFlags tok));
      make (posOf tok) (NewRegExpExpression pattern flags)
  | TRUE => leaf (BooleanLiteral true)
  | FALSE => leaf (BooleanLiteral false)
  | NULL => leaf (NullLiteral false false false)
  | UNDEFINED => leaf (NullLiteral true false false)
  | IDENT => parse_name tok
  | LPAREN => parse_paren
  | LBRACKET => parseArrayLiteral
  | LBRACE => parseObjectLiteral
  | NEW => parseNew
  | IMPORT => parseImportExpr G
  | THIS => leaf ThisExpression
  | SUPER => leaf SuperExpression
  | CLASS => parse_class tok
  | FUNCTION => parse_function tok
  | _ => errAt tok UnexpectedTokenInExpr [FTok (Type_ tok)]
  end.
Definition parsePrimary : PM Expr := tok ← peekPrimary; primary_of tok.
End self.
End parse_expr.
