(* ===== verification/ParseExpr.v ===== *)
(** * Expressions (src/parser/parser_exprs.go)

    Operators, calls and member accesses over the primary expressions, one
    definition per method, and [productions], the knot: the grammar with as
    much fuel as tokens are left. *)

From S2P Require Import Prelude GoString Diag Token Lexer Stream Expr ParsePrimary.
Open Scope Z_scope.

Section parse_expr.
Context `{U : Unicode} `{OP : Opaque} `{E : Elsewhere}.

Section self.
Context (G : Self).

(** ** Calls and member accesses *)

Definition call_tail (chainStart : nat) (callee : Expr) (targs : list TypeAnnotation) (optional : bool) : PM Expr :=
  lparen ← advance;
  args ← parseArgList G;
  rp ← expect RPAREN;
  source ← callSource chainStart (TEnd rp);
  make (posOf lparen) (CallExpression callee args source targs None optional false).
Definition index_tail (object : Expr) (optional : bool) : PM Expr :=
  lbrak ← advance;
  i ← self_assignment G;
  expect RBRACKET ≫= λ _,
  make (posOf lbrak) (IndexExpression object i optional false).
Definition member_tail (object : Expr) (optional : bool) : PM Expr :=
  prop ← expectPropertyName;
  make (posOf prop) (MemberExpression object (Literal prop) optional false).
Definition tagged_tail (tag : Expr) (targs : list TypeAnnotation) : PM Expr :=
  tok ← advance;
  r ← (if kind_is tok TEMPLATE_HEAD then parseTemplateRestRaw G (Literal tok) (Raw tok)
       else mret ([Literal tok], [Raw tok], []));
  make (posOf tok) (TaggedTemplateExpression tag r.1.1 r.1.2 r.2 targs).

(** What may have type arguments. *)
Definition generic_callee (e : Expr) : bool :=
  match ekind e with
  | Identifier _ | MemberExpression _ _ _ _ | IndexExpression _ _ _ _ | CallExpression _ _ _ _ _ _ _ | SuperExpression => true
  | _ => false
  end.

(** [f<T>(x)]: a call if a list of types, its [>] and a [(] follow, and then
    the loop goes on; else the [<] is an operator. *)
Definition generic_call (chainStart : nat) (e : Expr) : PM (Expr + Expr) :=
  if negb (generic_callee e) then mret (inr e)
  else
    save ← gets cursor;
    advance ≫= λ _,
    modify (λ p, set_speculating (S (speculating p)) p) ≫= λ _,
    targs ← attempt (type_arguments G "call-site type arguments");
    (match targs with
     | Some _ => t ← at_ save; blank_from_place (TPos t)
     | None => mret tt
     end) ≫= λ _,
    modify (λ p, set_speculating (pred (speculating p)) p) ≫= λ _,
    match targs with
    | Some targs =>
        whole ← check TEMPLATE_NO_SUB;
        template ← (if whole : bool then mret true else check TEMPLATE_HEAD);
        if (template : bool) then e ← tagged_tail e targs; mret (inl e)
        else
          paren ← check LPAREN;
          if (paren : bool) then e ← call_tail chainStart e targs false; mret (inl e)
          else rewind save ≫= λ _, mret (inr e)
    | None => rewind save ≫= λ _, mret (inr e)
    end.

Definition chain_step (chainStart : nat) (e : Expr) : PM (Expr + Expr) :=
  t ← peek;
  match Type_ t with
  | OPTIONAL_DOT =>
      advance ≫= λ _,
      paren ← check LPAREN;
      if (paren : bool) then e ← call_tail chainStart e [] true; mret (inl e)
      else
        brack ← check LBRACKET;
        if (brack : bool) then e ← index_tail e true; mret (inl e)
        else e ← member_tail e true; mret (inl e)
  | DOT => advance ≫= λ _, e ← member_tail e false; mret (inl e)
  | LBRACKET => e ← index_tail e false; mret (inl e)
  | NOT =>
      tok ← advance;
      blank (TPos tok) (TEnd tok) ≫= λ _,
      e ← make (posOf tok) (NonNullExpression e);
      mret (inl e)
  | LT => generic_call chainStart e
  | LPAREN => e ← call_tail chainStart e [] false; mret (inl e)
  | TEMPLATE_NO_SUB | TEMPLATE_HEAD => e ← tagged_tail e []; mret (inl e)
  | _ => mret (inr e)
  end.

Definition parseCallMember : PM Expr :=
  t ← peek;
  e ← parsePrimary G;
  bare ← is_bareArrow e;
  if (bare : bool) then mret e else while (chain_step (TPos t)) e.

(** ** Unary operators *)

Definition parsePostfix : PM Expr :=
  e ← parseCallMember;
  t ← peek;
  if kind_in t [INC; DEC] && negb (HasPrecedingLineBreak t) then
    op ← advance;
    if negb (assignTarget false e) then errAt op InvalidUpdateTarget []
    else make (posOf op) (UpdateExpression (Literal op) false e)
  else mret e.

(** [void e] of a literal is undefined. *)
Definition no_effect (e : Expr) : bool :=
  match ekind e with
  | NumberLiteral _ | StringLiteral _ | BooleanLiteral _ | NullLiteral _ _ _ => true
  | _ => false
  end.

Definition unary_operation (text : Token → string) : PM Expr :=
  op ← advance;
  arg ← self_unary G;
  make (posOf op) (UnaryExpression (text op) arg).
(** [<T>e]. *)
Definition type_assertion : PM Expr :=
  advance ≫= λ _,
  ta ← parseTypeAnnotation G "as";
  expectGT "type assertion" ≫= λ _,
  operand ← self_unary G;
  assert_ operand (λ a, mkAssertion (Const a) (Satisfies a) (Some ta)) ≫= λ _,
  mret operand.
Definition unary_of (t : Token) : PM Expr :=
  match Type_ t with
  | NOT | BITNOT | MINUS | PLUS => unary_operation Literal
  | TYPEOF => unary_operation (λ _, "typeof"%string)
  | VOID =>
      op ← advance;
      arg ← self_unary G;
      u ← make (posOf op) (NullLiteral true true false);
      if no_effect arg then mret u else make (posOf op) (SequenceExpression [arg; u])
  | INC | DEC =>
      op ← advance;
      arg ← self_unary G;
      if negb (assignTarget false arg) then errAt op InvalidUpdateTarget []
      else make (posOf op) (UpdateExpression (Literal op) true arg)
  | AWAIT =>
      op ← advance;
      arg ← self_unary G;
      make (posOf op) (AwaitExpression arg)
  | _ => parsePostfix
  end.
Definition parseUnary : PM Expr :=
  t ← peek;
  if is_word t "delete" then unary_operation (λ _, "delete"%string)
  else
    generic ← (if kind_is t LT then genericArrowAhead G else mret false);
    if (generic : bool) then parseGenericArrow G
    else
      lt ← check LT;
      if (lt : bool) then type_assertion else t ← peek; unary_of t.

Definition unaryOperatorStart (tok : Token) (left : Expr) : string :=
  if kind_in tok [MINUS; PLUS; NOT; BITNOT; TYPEOF; VOID] then Literal tok
  else if kind_is tok AWAIT then match ekind left with Identifier _ => "" | _ => Literal tok end
  else if is_word tok "delete" then Literal tok
  else "".

Definition parseExponentiation : PM Expr :=
  startTok ← peek;
  left ← parseUnary;
  t ← peek;
  if kind_is t POW then
    let op := unaryOperatorStart startTok left in
    if negb (bool_decide (op = ""%string)) then errAt startTok ExponentUnaryAmbiguous [FStr op; FStr op; FStr op]
    else
      op ← advance;
      right ← self_exponentiation G;
      make (posOf op) (BinaryExpression "**" left right)
  else mret left.

(** ** Binary operators *)

(** The loop of a level: operands of the [next] level joined from the left as
    long as [operator] says there is one. *)
Definition binary_level (operator : PM bool) (next : PM Expr) : PM Expr :=
  left ← next;
  while (λ left,
    more ← operator;
    if (more : bool) then
      op ← advance;
      right ← next;
      e ← make (posOf op) (BinaryExpression (Literal op) left right);
      mret (inl e)
    else mret (inr left)) left.

Definition peek_in (types : list TokenType) : PM bool := t ← peek; mret (kind_in t types).
(** The first test looks at the token read as an operator. *)
Definition operator_in (first : TokenType) (types : list TokenType) : PM bool :=
  t ← peekOperator; if kind_is t first then mret true else peek_in types.

Definition parseMultiplicative : PM Expr := binary_level (operator_in STAR [SLASH; PERCENT]) parseExponentiation.
Definition parseAdditive : PM Expr := binary_level (peek_in [PLUS; MINUS]) parseMultiplicative.
Definition parseShift : PM Expr := binary_level (operator_in LSHIFT [RSHIFT; URSHIFT]) parseAdditive.

(** [as T], [as const] and [satisfies T]. *)
Definition parseAssertion (left : Expr) : PM (Expr * bool) :=
  t ← peek;
  if negb (is_word t "as" || is_word t "satisfies") || HasPrecedingLineBreak t then mret (left, false)
  else
    kw ← advance;
    let as_ := bool_decide (Literal kw = "as"%string) in
    const ← (if as_ then check CONST else mret false);
    if (const : bool) then
      advance ≫= λ _,
      assert_ left (λ a, mkAssertion true (Satisfies a) (Cast a)) ≫= λ _,
      mret (left, true)
    else
      ta ← parseTypeAnnotation G "as";
      (if bool_decide (Literal kw = "satisfies"%string)
       then assert_ left (λ a, mkAssertion (Const a) (Some ta) (Cast a)) else mret tt) ≫= λ _,
      if as_ then
        if assertableCall left then mret (with_asserted ta left, true)
        else e ← make (posOf kw) (AsExpression left ta); mret (e, true)
      else mret (left, true).

Definition relational_operator : PM bool :=
  t ← peekOperator;
  if kind_is t LT then mret true
  else
    u ← peek;
    if kind_in u [GT; LTE; GTE; INSTANCEOF] then mret true
    else if is_word u "in" then x ← inExcluded; mret (negb x)
    else mret false.
(** [#x in o]. *)
Definition brand_check (t : Token) : PM bool :=
  if kind_is t PRIVATE_NAME then
    n ← peekNth 1;
    if is_word n "in" then x ← inExcluded; mret (negb x) else mret false
  else mret false.
Definition relational_step (left : Expr) : PM (Expr + Expr) :=
  r ← parseAssertion left;
  if (r.2 : bool) then mret (inl r.1)
  else
    more ← relational_operator;
    if (more : bool) then
      op ← advance;
      rtok ← peek;
      right ← parseShift;
      bare ← is_bareArrow right;
      if (bare : bool) then errAt rtok UnexpectedTokenInExpr [FStr "=>"]
      else
        e ← make (posOf op) (BinaryExpression (Literal op) r.1 right);
        mret (inl e)
    else mret (inr r.1).
Definition parseRelational : PM Expr :=
  t ← peek;
  brand ← brand_check t;
  left ← (if brand : bool then advance ≫= λ _, make (posOf t) (Identifier (Literal t)) else parseShift);
  while relational_step left.

Definition parseEquality : PM Expr := binary_level (peek_in [EQ; NEQ; STRICT_EQ; STRICT_NEQ]) parseRelational.
Definition parseBitwiseAnd : PM Expr := binary_level (check BITAND) parseEquality.
Definition parseBitwiseXor : PM Expr := binary_level (check BITXOR) parseBitwiseAnd.
Definition parseBitwiseOr : PM Expr := binary_level (check BITOR) parseBitwiseXor.
Definition parseLogicalAnd : PM Expr := binary_level (check AND) parseBitwiseOr.
Definition parseLogicalOr : PM Expr := binary_level (check OR) parseLogicalAnd.
Definition parseNullish : PM Expr := binary_level (check NULLISH) parseLogicalOr.

(** ** Conditionals, [yield], assignments *)

Definition parseTernary : PM Expr :=
  cond ← parseNullish;
  question ← check QUESTION;
  if (question : bool) then
    advance ≫= λ _,
    thn ← self_assignment G;
    expect COLON ≫= λ _,
    alt ← self_assignment G;
    make (epos cond) (ConditionalExpression cond thn alt)
  else mret cond.

Definition yieldExprOutsideGenerator : PM bool :=
  p ← get;
  t ← at_ (cursor p);
  if negb (kind_is t YIELD) || inGen p then mret false
  else
    next ← at_ (cursor p + 1);
    if HasPrecedingLineBreak next then mret false
    else mret (kind_in next [IDENT; NUMBER; BIGINT; STRING; YIELD; TEMPLATE_NO_SUB; TEMPLATE_HEAD] || IsKeyword (Type_ next)).

Definition parseYield : PM Expr :=
  tok ← advance;
  let pos := posOf tok in
  p ← get;
  if inGenParams p then errAtPos pos YieldInGeneratorParams []
  else
    t ← peek;
    delegate ← (if HasPrecedingLineBreak t then mret false else match_ [STAR]);
    t ← peek;
    if negb delegate && HasPrecedingLineBreak t then make pos (YieldExpression None delegate)
    else if kind_in t [SEMICOLON; RPAREN; RBRACKET; RBRACE; COMMA; COLON; EOF] then make pos (YieldExpression None delegate)
    else arg ← self_assignment G; make pos (YieldExpression (Some arg) delegate).

Definition logical_assigns : list TokenType := [LOGICAL_AND_ASSIGN; LOGICAL_OR_ASSIGN; NULLISH_ASSIGN].
Definition assign_ops : list TokenType :=
  [ASSIGN; PLUS_ASSIGN; MINUS_ASSIGN; STAR_ASSIGN; POW_ASSIGN; SLASH_ASSIGN; PERCENT_ASSIGN; AND_ASSIGN; OR_ASSIGN; XOR_ASSIGN;
   LSHIFT_ASSIGN; RSHIFT_ASSIGN; URSHIFT_ASSIGN] ++ logical_assigns.
Definition is_call (e : Expr) : bool := match ekind e with CallExpression _ _ _ _ _ _ _ => true | _ => false end.

Definition parseAssignment : PM Expr :=
  yield ← check YIELD;
  yields ← (if yield : bool then mret true else yieldExprOutsideGenerator);
  if (yields : bool) then parseYield
  else
    left ← parseTernary;
    t ← peekOperator;
    if kind_in t assign_ops then
      opTok ← advance;
      p ← get;
      if negb (assignTarget (kind_is opTok ASSIGN) left) || (is_call left && kind_in opTok logical_assigns)
         || bool_decide (eid left ∈ parenLiterals p)
      then errAt opTok InvalidAssignTarget []
      else
        right ← self_assignment G;
        make (posOf opTok) (AssignmentExpression (Literal opTok) left right)
    else mret left.
End self.

Fixpoint productions (n : nat) : Self :=
  match n with
  | O => let out := λ p, (OutOfFuel, p) in mkSelf out out out out
  | S n =>
      let G := productions n in
      mkSelf (parseAssignment G) (parseExponentiation G) (parseUnary G) (parsePrimary G)
  end.

(** [parseExpression]: fuel for each rune left, and one more. *)
Definition parseExpression : PM Expr := n ← rounds; self_assignment (productions n).
End parse_expr.
