(* ===== verification/Grammar.v ===== *)
(** * The grammar of expressions

    What the parser of expressions accepts, said without the parser: the token
    sequences that spell a tree, by levels of precedence.  Binary operators
    are one rule and a table.  Types, blocks, functions and classes are
    languages of their own, left open. *)

From S2P Require Import Prelude GoString Diag Token LexerPos Stream Expr ParsePrimary ParseExpr.
Open Scope Z_scope.

(** The languages of what is parsed elsewhere. *)
Class Languages `{OP : Opaque} := {
  LType : list Token → TypeAnnotation → Prop;
  LTypeParams : list Token → list TypeParameter → Prop;
  LBlock : list Token → BlockStatement → Prop;
  LFunction : string → bool → bool → list Token → FunctionDeclaration → Prop;
  LClass : list Token → ClassDeclaration → Prop;
  LImport : list Token → Expr → Prop }.

(** ** Lists *)

Section lists.
Context {A : Type} (L : list Token → A → Prop).

(** Items each followed by a comma. *)
Inductive items : list Token → list A → Prop :=
  | items_nil : items [] []
  | items_snoc ts xs ts' x c : items ts xs → L ts' x → Type_ c = COMMA → items (ts ++ ts' ++ [c]) (xs ++ [x]).
(** Items with commas between them and perhaps at the end. *)
Inductive comma_list : list Token → list A → Prop :=
  | comma_end ts xs : items ts xs → comma_list ts xs
  | comma_last ts xs ts' x : items ts xs → L ts' x → comma_list (ts ++ ts') (xs ++ [x]).
(** One item or more with commas between them. *)
Inductive separated : list Token → list A → Prop :=
  | separated_one ts x : L ts x → separated ts [x]
  | separated_more ts xs c ts' x : separated ts xs → Type_ c = COMMA → L ts' x → separated (ts ++ c :: ts') (xs ++ [x]).
(** A token that introduces an item, or nothing. *)
Inductive introduced (typ : TokenType) : list Token → option A → Prop :=
  | not_introduced : introduced typ [] None
  | is_introduced c ts x : Type_ c = typ → L ts x → introduced typ (c :: ts) (Some x).
End lists.

(** A token that may be there, and whether it is. *)
Inductive perhaps (typ : TokenType) : list Token → bool → Prop :=
  | absent : perhaps typ [] false
  | present c : Type_ c = typ → perhaps typ [c] true.

(** A word that may be there, and whether it is. *)
Inductive perhaps_word (w : string) : list Token → bool → Prop :=
  | no_word : perhaps_word w [] false
  | a_word t : is_word t w = true → perhaps_word w [t] true.

(** ** Operators *)

(** The levels: 0 assignment, 1 conditional, 2 to 12 the binary operators, 13
    exponentiation, 14 unary, 15 postfix, 16 calls and members, 17 primary. *)
Definition binary_level_of (t : Token) : option nat :=
  match Type_ t with
  | NULLISH => Some 2%nat
  | OR => Some 3%nat
  | AND => Some 4%nat
  | BITOR => Some 5%nat
  | BITXOR => Some 6%nat
  | BITAND => Some 7%nat
  | EQ | NEQ | STRICT_EQ | STRICT_NEQ => Some 8%nat
  | LT | GT | LTE | GTE | INSTANCEOF => Some 9%nat
  | LSHIFT | RSHIFT | URSHIFT => Some 10%nat
  | PLUS | MINUS => Some 11%nat
  | STAR | SLASH | PERCENT => Some 12%nat
  | _ => if is_word t "in" then Some 9%nat else None
  end.
Definition unary_operator (t : Token) : option string :=
  match Type_ t with
  | NOT | BITNOT | MINUS | PLUS => Some (Literal t)
  | TYPEOF => Some "typeof"%string
  | _ => if is_word t "delete" then Some "delete"%string else None
  end.

(** Tokens that are expressions. *)
Definition leaf_kind `{OP : Opaque} (t : Token) : option ExprKind :=
  match Type_ t with
  | NUMBER => Some (NumberLiteral (Literal t))
  | BIGINT => Some (BigIntLiteral (Literal t))
  | STRING => Some (StringLiteral (Literal t))
  | TEMPLATE_NO_SUB => Some (TemplateLiteral [Literal t] [])
  | TRUE => Some (BooleanLiteral true)
  | FALSE => Some (BooleanLiteral false)
  | NULL => Some (NullLiteral false false false)
  | UNDEFINED => Some (NullLiteral true false false)
  | IDENT => if bool_decide (Literal t ∈ reservedWords) then None else Some (Identifier (Literal t))
  | THIS => Some ThisExpression
  | SUPER => Some SuperExpression
  | _ => None
  end.
Definition property_name (t : Token) : Prop :=
  Type_ t = IDENT ∨ Type_ t = DEFAULT ∨ Type_ t = PRIVATE_NAME ∨ IsKeyword (Type_ t) = true.

(** [yield], which may be read as a name. *)
Definition is_yield (t : Token) : Prop := Type_ t = YIELD ∨ ∃ t0, Type_ t0 = YIELD ∧ t = as_ident t0.

(** The tokens begin with the one shown before them: it may have been shown, or be
    read, as a name, and it may have been shown under another mode. *)
Definition may_be_name (t : Token) : Prop := Type_ t = YIELD ∨ Type_ t = AWAIT.
Inductive starts (u : Token) : list Token → Prop :=
  | starts_here ts : starts u (u :: ts)
  | starts_as_name ts : may_be_name u → starts u (as_ident u :: ts)
  | starts_as_word t ts : may_be_name t → u = as_ident t → starts u (t :: ts)
  | starts_in_mode t ts : Type_ u ∈ mode_types → Type_ t ∈ mode_types → starts u (t :: ts).

Section grammar.
Context `{L : Languages}.

Definition type_args : list Token → list TypeAnnotation → Prop := λ ts tas,
  ∃ o ts' c, ts = o :: ts' ++ [c] ∧ Type_ o = LT ∧ separated LType ts' tas ∧ Type_ c = GT.

(** ** Expressions *)

Unset Elimination Schemes.
Inductive Spells : nat → list Token → Expr → Prop :=
  | spells_up k ts e : Spells (S k) ts e → Spells k ts e
  (* assignments *)
  | spells_assignment ts1 l t ts2 r i :
      Spells 1 ts1 l → Type_ t ∈ assign_ops → assignTarget (kind_is t ASSIGN) l = true →
      is_call l && kind_in t logical_assigns = false → Spells 0 ts2 r →
      Spells 0 (ts1 ++ t :: ts2) (mkExpr i (posOf t) (AssignmentExpression (Literal t) l r))
  | spells_yield t ts b i :
      is_yield t → perhaps STAR ts b → Spells 0 (t :: ts) (mkExpr i (posOf t) (YieldExpression None b))
  | spells_yield_value t ts b ts' e i :
      is_yield t → perhaps STAR ts b → Spells 0 ts' e →
      Spells 0 (t :: ts ++ ts') (mkExpr i (posOf t) (YieldExpression (Some e) b))
  | spells_conditional ts1 c q ts2 a o ts3 b i :
      Spells 2 ts1 c → Type_ q = QUESTION → Spells 0 ts2 a → Type_ o = COLON → Spells 0 ts3 b →
      Spells 1 (ts1 ++ q :: ts2 ++ o :: ts3) (mkExpr i (epos c) (ConditionalExpression c a b))
  (* binary operators *)
  | spells_binary k ts1 l t ts2 r i :
      binary_level_of t = Some k → Spells k ts1 l → Spells (S k) ts2 r →
      Spells k (ts1 ++ t :: ts2) (mkExpr i (posOf t) (BinaryExpression (Literal t) l r))
  | spells_brand x t ts r i j :
      Type_ x = PRIVATE_NAME → is_word t "in" = true → Spells 10 ts r →
      Spells 9 (x :: t :: ts) (mkExpr i (posOf t) (BinaryExpression (Literal t) (mkExpr j (posOf x) (Identifier (Literal x))) r))
  | spells_as ts e t ts' ta i :
      Spells 9 ts e → is_word t "as" = true → HasPrecedingLineBreak t = false → LType ts' ta →
      Spells 9 (ts ++ t :: ts') (if assertableCall e then with_asserted ta e else mkExpr i (posOf t) (AsExpression e ta))
  | spells_as_const ts e t c :
      Spells 9 ts e → is_word t "as" = true → HasPrecedingLineBreak t = false → Type_ c = CONST → Spells 9 (ts ++ [t; c]) e
  | spells_satisfies ts e t ts' ta :
      Spells 9 ts e → is_word t "satisfies" = true → HasPrecedingLineBreak t = false → LType ts' ta → Spells 9 (ts ++ t :: ts') e
  | spells_power u ts1 l t ts2 r i :
      Spells 14 ts1 l → starts u ts1 → unaryOperatorStart u l = ""%string → Type_ t = POW →
      Spells 13 ts2 r → Spells 13 (ts1 ++ t :: ts2) (mkExpr i (posOf t) (BinaryExpression "**" l r))
  (* unary operators *)
  | spells_unary t op ts e i :
      unary_operator t = Some op → Spells 14 ts e → Spells 14 (t :: ts) (mkExpr i (posOf t) (UnaryExpression op e))
  | spells_void t ts e i :
      Type_ t = VOID → Spells 14 ts e → no_effect e = true → Spells 14 (t :: ts) (mkExpr i (posOf t) (NullLiteral true true false))
  | spells_void_effect t ts e i j :
      Type_ t = VOID → Spells 14 ts e → no_effect e = false →
      Spells 14 (t :: ts) (mkExpr i (posOf t) (SequenceExpression [e; mkExpr j (posOf t) (NullLiteral true true false)]))
  | spells_await t ts e i :
      Type_ t = AWAIT → Spells 14 ts e → Spells 14 (t :: ts) (mkExpr i (posOf t) (AwaitExpression e))
  | spells_update t ts e i :
      Type_ t ∈ [INC; DEC] → Spells 14 ts e → assignTarget false e = true →
      Spells 14 (t :: ts) (mkExpr i (posOf t) (UpdateExpression (Literal t) true e))
  | spells_cast o ts ta c ts' e :
      Type_ o = LT → LType ts ta → Type_ c = GT → Spells 14 ts' e → Spells 14 (o :: ts ++ c :: ts') e
  | spells_generic_arrow ts tps o ts' e :
      LTypeParams ts tps → SpellsArrow o ts' e → Spells 14 (ts ++ o :: ts') (set_type_params tps e)
  | spells_postfix ts e t i :
      Spells 16 ts e → Type_ t ∈ [INC; DEC] → HasPrecedingLineBreak t = false → assignTarget false e = true →
      Spells 15 (ts ++ [t]) (mkExpr i (posOf t) (UpdateExpression (Literal t) false e))
  (* calls and members *)
  | spells_member ts e d n i (opt : bool) :
      Spells 16 ts e → Type_ d = (if opt then OPTIONAL_DOT else DOT) → property_name n →
      Spells 16 (ts ++ [d; n]) (mkExpr i (posOf n) (MemberExpression e (Literal n) opt false))
  | spells_index ts e ds opt o ts' x c i :
      Spells 16 ts e → perhaps OPTIONAL_DOT ds opt → Type_ o = LBRACKET → Spells 0 ts' x → Type_ c = RBRACKET →
      Spells 16 (ts ++ ds ++ o :: ts' ++ [c]) (mkExpr i (posOf o) (IndexExpression e x opt false))
  | spells_call ts e ds opt o ts' args c i src :
      Spells 16 ts e → perhaps OPTIONAL_DOT ds opt → Type_ o = LPAREN → comma_list SpellsSpread ts' args → Type_ c = RPAREN →
      Spells 16 (ts ++ ds ++ o :: ts' ++ [c]) (mkExpr i (posOf o) (CallExpression e args src [] None opt false))
  | spells_generic_call ts e tts tas o ts' args c i src :
      Spells 16 ts e → generic_callee e = true → type_args tts tas → Type_ o = LPAREN →
      comma_list SpellsSpread ts' args → Type_ c = RPAREN →
      Spells 16 (ts ++ tts ++ o :: ts' ++ [c]) (mkExpr i (posOf o) (CallExpression e args src tas None false false))
  | spells_non_null ts e t i :
      Spells 16 ts e → Type_ t = NOT → Spells 16 (ts ++ [t]) (mkExpr i (posOf t) (NonNullExpression e))
  | spells_tagged ts e ts' t qs rs es i :
      Spells 16 ts e → SpellsTemplate t ts' qs rs es →
      Spells 16 (ts ++ t :: ts') (mkExpr i (posOf t) (TaggedTemplateExpression e qs rs es []))
  | spells_generic_tagged ts e tts tas ts' t qs rs es i :
      Spells 16 ts e → generic_callee e = true → type_args tts tas → SpellsTemplate t ts' qs rs es →
      Spells 16 (ts ++ tts ++ t :: ts') (mkExpr i (posOf t) (TaggedTemplateExpression e qs rs es tas))
  (* primary expressions *)
  | spells_leaf t k i : leaf_kind t = Some k → Spells 17 [t] (mkExpr i (posOf t) k)
  | spells_regex t i j k :
      Type_ t = REGEX →
      Spells 17 [t] (mkExpr i (posOf t)
        (NewRegExpExpression (mkExpr j (posOf t) (StringLiteral (Literal t))) (mkExpr k (posOf t) (StringLiteral (RegexFlags t)))))
  | spells_template t ts qs rs es i :
      Type_ t = TEMPLATE_HEAD → SpellsTemplate t ts qs rs es → Spells 17 (t :: ts) (mkExpr i (posOf t) (TemplateLiteral qs es))
  | spells_paren o ts es c e i :
      Type_ o = LPAREN → separated (Spells 0) ts es → Type_ c = RPAREN →
      e = match es with [e] => e | _ => mkExpr i (posOf o) (SequenceExpression es) end →
      Spells 17 (o :: ts ++ [c]) (end_chain e)
  | spells_array o ts es b c i :
      Type_ o = LBRACKET → SpellsElements ts es b → Type_ c = RBRACKET →
      Spells 17 (o :: ts ++ [c]) (mkExpr i (posOf o) (ArrayLiteral es b))
  | spells_array_last o ts es b ts' e c i :
      Type_ o = LBRACKET → SpellsElements ts es b → SpellsSpread ts' e → Type_ c = RBRACKET →
      Spells 17 (o :: ts ++ ts' ++ [c]) (mkExpr i (posOf o) (ArrayLiteral (es ++ [e]) false))
  | spells_object o ts ps b c i :
      Type_ o = LBRACE → SpellsProperties ts ps b → Type_ c = RBRACE →
      Spells 17 (o :: ts ++ [c]) (mkExpr i (posOf o) (ObjectLiteral ps b))
  | spells_object_last o ts ps b ts' k p c i :
      Type_ o = LBRACE → SpellsProperties ts ps b → SpellsProperty k ts' p → Type_ c = RBRACE →
      Spells 17 (o :: ts ++ ts' ++ [c]) (mkExpr i (posOf o) (ObjectLiteral (ps ++ [p]) false))
  | spells_import ts e : LImport ts e → Spells 17 ts e
  | spells_class t ts d i src : Type_ t = CLASS → LClass (t :: ts) d → Spells 17 (t :: ts) (mkExpr i (posOf t) (ClassExpression (set_class_src src d)))
  | spells_function t ts gen ns name ts' fd i src :
      Type_ t = FUNCTION → perhaps STAR ts gen → function_name ns name → LFunction name false gen ts' fd →
      Spells 17 (t :: ts ++ ns ++ ts') (mkExpr i (posOf t) (FunctionExpression name (fn_name_pos (eraseTypeParams fd)) (eraseTypeParams fd) false gen false src false))
  | spells_async_function a t ts gen ns name ts' fd i src :
      is_word a "async" = true → Type_ t = FUNCTION → perhaps STAR ts gen → function_name ns name → LFunction name true gen ts' fd →
      Spells 17 (a :: t :: ts ++ ns ++ ts') (mkExpr i (posOf a) (FunctionExpression name (fn_name_pos (eraseTypeParams fd)) (eraseTypeParams fd) true gen false src false))
  (* arrow functions *)
  | spells_arrow o ts e : Type_ o = LPAREN → SpellsArrow o ts e → Spells 17 (o :: ts) e
  | spells_async_arrow a o ts e from : is_word a "async" = true → SpellsArrow o ts e → Spells 17 (a :: o :: ts) (set_async from e)
  | spells_bare_arrow x t ts body block i src :
      Type_ x = IDENT → Type_ t = ARROW → HasPrecedingLineBreak t = false → SpellsBody ts body block →
      Spells 17 (x :: t :: ts) (mkExpr i (posOf x) (ArrowFunction [] [] [] [bare_param x] None body block false src false))
  | spells_async_bare_arrow a x t ts body block i src :
      is_word a "async" = true → Type_ x = IDENT → Type_ t = ARROW → HasPrecedingLineBreak t = false → SpellsBody ts body block →
      Spells 17 (a :: x :: t :: ts) (mkExpr i (posOf a) (ArrowFunction [] [] [] [bare_param x] None body block true src false))
  (* new *)
  | spells_new_target t d x i :
      Type_ t = NEW → Type_ d = DOT → is_word x "target" = true → Spells 17 [t; d; x] (mkExpr i (posOf t) NewTargetExpression)
  | spells_new t ps path x ts tas ts' args i :
      Type_ t = NEW → dotted ps path → Type_ x = IDENT → introduced_types ts tas → new_args ts' args →
      Spells 17 (t :: ps ++ x :: ts ++ ts') (mkExpr i (posOf t)
        (NewExpression (Literal x) (match path with [] => false | _ => true end) (default "" (last path)) path tas None args))
  | spells_new_of t us callee ts tas ts' args i :
      Type_ t = NEW → SpellsCallee us callee → introduced_types ts tas → new_args ts' args →
      Spells 17 (t :: us ++ ts ++ ts') (mkExpr i (posOf t) (NewExpression "" false "" [] tas (Some callee) args))
with SpellsSpread : list Token → Expr → Prop :=
  | spread_none ts e : Spells 0 ts e → SpellsSpread ts e
  | spread_some t ts e i : Type_ t = ELLIPSIS → Spells 0 ts e → SpellsSpread (t :: ts) (mkExpr i (posOf t) (SpreadElement e))
(** The parts of a template after its first token. *)
with SpellsTemplate : Token → list Token → list string → list string → list Expr → Prop :=
  | template_whole t : Type_ t ∈ [TEMPLATE_NO_SUB] → SpellsTemplate t [] [Literal t] [Raw t] []
  | template_parts t ts qs rs es ts' e c :
      SpellsMiddle t ts qs rs es → Spells 0 ts' e → Type_ c = TEMPLATE_TAIL →
      SpellsTemplate t (ts ++ ts' ++ [c]) (qs ++ [Literal c]) (rs ++ [Raw c]) (es ++ [e])
with SpellsMiddle : Token → list Token → list string → list string → list Expr → Prop :=
  | middle_none t raw : SpellsMiddle t [] [Literal t] [raw] []
  | middle_more t ts qs rs es ts' e c :
      SpellsMiddle t ts qs rs es → Spells 0 ts' e → Type_ c = TEMPLATE_MIDDLE →
      SpellsMiddle t (ts ++ ts' ++ [c]) (qs ++ [Literal c]) (rs ++ [Raw c]) (es ++ [e])
(** Elements and holes, each with a comma; whether the last is a spread. *)
with SpellsElements : list Token → list Expr → bool → Prop :=
  | elements_nil : SpellsElements [] [] false
  | elements_hole ts es b c i :
      SpellsElements ts es b → Type_ c = COMMA →
      SpellsElements (ts ++ [c]) (es ++ [mkExpr i (posOf c) (NullLiteral true false true)]) false
  | elements_item ts es b ts' e c :
      SpellsElements ts es b → Spells 0 ts' e → Type_ c = COMMA → SpellsElements (ts ++ ts' ++ [c]) (es ++ [e]) false
  | elements_spread ts es b t ts' e c i :
      SpellsElements ts es b → Type_ t = ELLIPSIS → Spells 0 ts' e → Type_ c = COMMA →
      SpellsElements (ts ++ t :: ts' ++ [c]) (es ++ [mkExpr i (posOf t) (SpreadElement e)]) true
(** An arrow function after its first token, which should be a parenthesis. *)
with SpellsArrow : Token → list Token → Expr → Prop :=
  | arrow_parts o ts ps c ts' ret t ts'' body block i src :
      SpellsParams ts ps → Type_ c = RPAREN → introduced LType COLON ts' ret →
      Type_ t = ARROW → HasPrecedingLineBreak t = false → duplicateParamName ps = ""%string → SpellsBody ts'' body block →
      SpellsArrow o (ts ++ c :: ts' ++ t :: ts'')
        (mkExpr i (posOf o) (ArrowFunction [] [] [] ps ret body block false src false))
with SpellsBody : list Token → option Expr → option BlockStatement → Prop :=
  | body_block ts b : LBlock ts b → SpellsBody ts None (Some b)
  | body_expr ts e : Spells 0 ts e → SpellsBody ts (Some e) None
(** Parameters, each perhaps with a comma. *)
with SpellsParams : list Token → list Param → Prop :=
  | params_nil : SpellsParams [] []
  | params_snoc ts ps ts' p cs b :
      SpellsParams ts ps → SpellsParam (length ps) ts' p → perhaps COMMA cs b → SpellsParams (ts ++ ts' ++ cs) (ps ++ [p])
with SpellsParam : nat → list Token → Param → Prop :=
  | param_name_ n ds rest x qs opt ts ty ts' d ppos :
      perhaps ELLIPSIS ds rest → Type_ x = IDENT → perhaps QUESTION qs opt → introduced LType COLON ts ty →
      introduced (Spells 0) ASSIGN ts' d →
      SpellsParam n (ds ++ x :: qs ++ ts ++ ts') (mkParam (Literal x) ppos ty rest d opt None None)
  | param_array n ds rest us a ts ty ts' d ppos :
      perhaps ELLIPSIS ds rest → SpellsArrayPattern us a → introduced LType COLON ts ty → introduced (Spells 0) ASSIGN ts' d →
      SpellsParam n (ds ++ us ++ ts ++ ts') (mkParam ("__param" +:+ itoa (Z.of_nat n)) ppos ty rest d false (Some a) None)
  | param_object n ds rest us o ts ty ts' d ppos :
      perhaps ELLIPSIS ds rest → SpellsObjectPattern us o → introduced LType COLON ts ty → introduced (Spells 0) ASSIGN ts' d →
      SpellsParam n (ds ++ us ++ ts ++ ts') (mkParam ("__param" +:+ itoa (Z.of_nat n)) ppos ty rest d false None (Some o))
(** The properties of an object literal, each with a comma; whether the last is a spread. *)
with SpellsProperties : list Token → list ObjectProperty → bool → Prop :=
  | properties_nil : SpellsProperties [] [] false
  | properties_snoc ts ps b ts' k p c :
      SpellsProperties ts ps b → SpellsProperty k ts' p → Type_ c = COMMA → SpellsProperties (ts ++ ts' ++ [c]) (ps ++ [p]) k
with SpellsProperty : bool → list Token → ObjectProperty → Prop :=
  | property_spread t ts e i :
      Type_ t = ELLIPSIS → Spells 0 ts e →
      SpellsProperty true (t :: ts) (mkProperty "" None (mkExpr i (posOf t) (SpreadElement e)) "" false false)
  | property_value ts key ke c ts' e :
      SpellsName ts key ke → Type_ c = COLON → Spells 0 ts' e → SpellsProperty false (ts ++ c :: ts') (mkProperty key ke e "" false false)
  | property_method us isAsync gs gen ts key ke ts' fd i pos src :
      perhaps_word "async" us isAsync → perhaps STAR gs gen → SpellsName ts key ke → LFunction "" isAsync gen ts' fd →
      SpellsProperty false (us ++ gs ++ ts ++ ts')
        (mkProperty key ke (mkExpr i pos (FunctionExpression "" (fn_name_pos (eraseTypeParams fd)) (eraseTypeParams fd) isAsync gen true src false)) "" false false)
  | property_accessor w t ts key ke ts' fd i pos src :
      is_word w "get" || is_word w "set" = true → SpellsName (t :: ts) key ke → LFunction "" false false ts' fd →
      SpellsProperty false (w :: t :: ts ++ ts')
        (mkProperty key ke (mkExpr i pos (FunctionExpression "" (posOf t) (eraseTypeParams fd) false false true src false)) (Literal w) false false)
  | property_default x a ts e i j :
      Type_ x = IDENT → Type_ a = ASSIGN → Spells 0 ts e →
      SpellsProperty false (x :: a :: ts) (mkProperty (Literal x) None
        (mkExpr i (posOf x) (AssignmentExpression "=" (mkExpr j (posOf x) (Identifier (Literal x))) e)) "" true true)
  | property_shorthand x i :
      Type_ x = IDENT → SpellsProperty false [x] (mkProperty (Literal x) None (mkExpr i (posOf x) (Identifier (Literal x))) "" false true)
(** The name of a property: its text, or the expression that makes it. *)
with SpellsName : list Token → string → option Expr → Prop :=
  | name_word t : property_word t = true → SpellsName [t] (propertyKeyText t) None
  | name_symbol o ts e c wk :
      Type_ o = LBRACKET → Spells 0 ts e → Type_ c = RBRACKET → wellKnownSymbolMemberName e = Some wk → SpellsName (o :: ts ++ [c]) wk None
  | name_computed o ts e c :
      Type_ o = LBRACKET → Spells 0 ts e → Type_ c = RBRACKET → wellKnownSymbolMemberName e = None →
      SpellsName (o :: ts ++ [c]) "" (Some e)
(** Patterns.  What may be an element or the value of a property: tokens, of which the first is given apart. *)
with SpellsSub : Token → list Token → option (list ArrayPatternElem) → option (list DestructProp) → Prop :=
  | sub_array t ts es : SpellsArrayPattern (t :: ts) es → SpellsSub t ts (Some es) None
  | sub_object t ts ps : SpellsObjectPattern (t :: ts) ps → SpellsSub t ts None (Some ps)
with SpellsArrayPattern : list Token → list ArrayPatternElem → Prop :=
  | array_pattern_ o ts es ts' last c :
      Type_ o = LBRACKET → SpellsElems ts es → SpellsLast ts' last → Type_ c = RBRACKET →
      SpellsArrayPattern (o :: ts ++ ts' ++ [c]) (es ++ last)
(** Elements and holes, each with a comma. *)
with SpellsElems : list Token → list ArrayPatternElem → Prop :=
  | elems_nil : SpellsElems [] []
  | elems_hole ts es c : SpellsElems ts es → Type_ c = COMMA → SpellsElems (ts ++ [c]) (es ++ [mkElem "" (mkPos 0 0) None false None None])
  | elems_item ts es ts' e c : SpellsElems ts es → SpellsElem ts' e → Type_ c = COMMA → SpellsElems (ts ++ ts' ++ [c]) (es ++ [e])
with SpellsElem : list Token → ArrayPatternElem → Prop :=
  | elem_name_ x ts d :
      Type_ x = IDENT → introduced (Spells 0) ASSIGN ts d → SpellsElem (x :: ts) (mkElem (Literal x) (posOf x) d false None None)
  | elem_nested t ts a o ts' d :
      SpellsSub t ts a o → introduced (Spells 0) ASSIGN ts' d → SpellsElem (t :: ts ++ ts') (mkElem "" (posOf t) d false a o)
(** An element without a comma, the rest, or nothing. *)
with SpellsLast : list Token → list ArrayPatternElem → Prop :=
  | last_none : SpellsLast [] []
  | last_elem_ ts e : SpellsElem ts e → SpellsLast ts [e]
  | last_rest_name t x : Type_ t = ELLIPSIS → Type_ x = IDENT → SpellsLast [t; x] [mkElem (Literal x) (posOf x) None true None None]
  | last_rest_nested t u ts a o :
      Type_ t = ELLIPSIS → SpellsSub u ts a o → SpellsLast (t :: u :: ts) [mkElem "" (posOf u) None true a o]
with SpellsObjectPattern : list Token → list DestructProp → Prop :=
  | object_pattern_ o ts ps c :
      Type_ o = LBRACE → comma_list SpellsProp ts ps → Type_ c = RBRACE → SpellsObjectPattern (o :: ts ++ [c]) ps
  | object_pattern_rest o ts ps e x c :
      Type_ o = LBRACE → items SpellsProp ts ps → Type_ e = ELLIPSIS → Type_ x = IDENT → Type_ c = RBRACE →
      SpellsObjectPattern (o :: ts ++ [e; x; c]) (ps ++ [mkProp "" None (Literal x) (posOf x) None None None true])
with SpellsProp : list Token → DestructProp → Prop :=
  | prop_shorthand x ts d :
      Type_ x = IDENT → introduced (Spells 0) ASSIGN ts d →
      SpellsProp (x :: ts) (mkProp (Literal x) None (Literal x) (posOf x) d None None false)
  | prop_keyed k c u ts a o ts' d :
      Type_ k ∈ [IDENT; STRING; NUMBER] → Type_ c = COLON → SpellsTarget u ts a o → introduced (Spells 0) ASSIGN ts' d →
      SpellsProp (k :: c :: u :: ts ++ ts')
        (mkProp (Literal k) None (Literal (bound_token k u a o)) (posOf (bound_token k u a o)) d a o false)
  | prop_computed o ts key ke b c u ts' a obj ts'' d :
      Type_ o = LBRACKET → SpellsKey ts key ke → Type_ b = RBRACKET → Type_ c = COLON → SpellsTarget u ts' a obj →
      introduced (Spells 0) ASSIGN ts'' d →
      SpellsProp (o :: ts ++ b :: c :: u :: ts' ++ ts'') (mkProp key ke (bound_name u a obj) (posOf u) d a obj false)
with SpellsTarget : Token → list Token → option (list ArrayPatternElem) → option (list DestructProp) → Prop :=
  | target_name x : Type_ x = IDENT → SpellsTarget x [] None None
  | target_nested u ts a o : SpellsSub u ts a o → SpellsTarget u ts a o
with SpellsKey : list Token → string → option Expr → Prop :=
  | key_literal t : Type_ t ∈ [STRING; NUMBER] → SpellsKey [t] (Literal t) None
  | key_computed ts e : Spells 0 ts e → SpellsKey ts "" (Some e)
(** The constructor of [new]: a primary expression and its members. *)
with SpellsCallee : list Token → Expr → Prop :=
  | callee_primary ts e : Spells 17 ts e → SpellsCallee ts e
  | callee_member ts e d n i :
      SpellsCallee ts e → Type_ d = DOT → property_name n →
      SpellsCallee (ts ++ [d; n]) (mkExpr i (posOf n) (MemberExpression e (Literal n) false false))
  | callee_index ts e o ts' x c i :
      SpellsCallee ts e → Type_ o = LBRACKET → Spells 0 ts' x → Type_ c = RBRACKET →
      SpellsCallee (ts ++ o :: ts' ++ [c]) (mkExpr i (posOf o) (IndexExpression e x false false))
(** The qualifiers of a class name. *)
with dotted : list Token → list string → Prop :=
  | dotted_nil : dotted [] []
  | dotted_snoc ts path x d : dotted ts path → Type_ x = IDENT → Type_ d = DOT → dotted (ts ++ [x; d]) (path ++ [Literal x])
with introduced_types : list Token → list TypeAnnotation → Prop :=
  | types_none : introduced_types [] []
  | types_some ts tas : type_args ts tas → introduced_types ts tas
with new_args : list Token → list Expr → Prop :=
  | new_args_none : new_args [] []
  | new_args_some o ts args c :
      Type_ o = LPAREN → comma_list SpellsSpread ts args → Type_ c = RPAREN → new_args (o :: ts ++ [c]) args
with function_name : list Token → string → Prop :=
  | anonymous : function_name [] ""
  | named t : Type_ t = IDENT ∨ Type_ t = AWAIT → function_name [t] (Literal t).
Set Elimination Schemes.
End grammar.
