(* ===== verification/ParseWp.v ===== *)
(** * Reasoning on the parser

    What a production sees of the parser is a [point]: the modes of the tokens,
    the place, and the context names are read in.  [wpp] is a weakest
    precondition over points; [upto] says which tokens have been consumed since
    a point, and a production is [good] if it consumes a sentence of its language. *)

From S2P Require Import Prelude GoString Diag Token Lexer LexerFacts LexerPos Stream StreamFacts ParsePrimary.
Open Scope Z_scope.

(** [ctx_in] is where the [in] operator is excluded from, [ctx_spec] how many
    guesses are under way. *)
Record point := mkPoint { modes : nat → ScanMode; place : nat; ctx_gen : bool; ctx_await : await; ctx_in : option nat; ctx_spec : nat }.
Definition set_place (i : nat) (π : point) : point := mkPoint (modes π) i (ctx_gen π) (ctx_await π) (ctx_in π) (ctx_spec π).
Definition set_modes (ms : nat → ScanMode) (π : point) : point := mkPoint ms (place π) (ctx_gen π) (ctx_await π) (ctx_in π) (ctx_spec π).
Definition at_ctx (g : bool) (a : await) (π : point) : point := mkPoint (modes π) (place π) g a (ctx_in π) (ctx_spec π).
Definition at_spec (n : nat) (π : point) : point := mkPoint (modes π) (place π) (ctx_gen π) (ctx_await π) (ctx_in π) n.

Section wp.
Context `{U : Unicode} (s : string).
Abbreviation reading := (StreamFacts.reading s).

(** ** The tokens left *)

(** A number that each token read lowers. *)
Definition left_at (ms : nat → ScanMode) (i : nat) : nat :=
  match prior s ms i with inl st => S (length (runes_of s) - st_pos st) | inr _ => O end.

Lemma left_step ms i t st : reading ms i = Read t st → (left_at ms (S i) < left_at ms i)%nat.
Proof.
  intros H. unfold left_at. cbn [prior]. rewrite H. rewrite reading_prior in H.
  destruct (prior s ms i) as [st0|u] eqn:Hp; [|done]. apply prior_marked in Hp.
  destruct (stops_scan t) eqn:Ht; [lia|].
  destruct (scan_at_marked s (ms i) st0 Hp) as (t2 & st2 & Hs2 & _ & _ & Hlt & Hle).
  rewrite H in Hs2. injection Hs2 as <- <-.
  unfold stops_scan in Ht. apply orb_false_iff in Ht as [He Hi].
  assert (Type_ t ≠ EOF) by (intros Hx; by rewrite Hx in He).
  assert (Type_ t ≠ ILLEGAL) by (intros Hx; by rewrite Hx in Hi). specialize (Hlt ltac:(done) ltac:(done)). lia.
Qed.
Lemma left_next ms i : (left_at ms (S i) ≤ left_at ms i)%nat.
Proof.
  destruct (reading ms i) as [t st|t] eqn:H; [apply left_step in H; lia|]. unfold left_at.
  cbn [prior]. rewrite H. lia.
Qed.
Lemma left_mono ms i j : (i ≤ j)%nat → (left_at ms j ≤ left_at ms i)%nat.
Proof. induction 1 as [|j _ IH]; [done|]. pose proof (left_next ms j). lia. Qed.
Lemma left_bound ms i : (left_at ms i ≤ S (length (runes_of s)))%nat.
Proof. unfold left_at. destruct (prior s ms i); lia. Qed.

Definition agree (i : nat) (ms ms' : nat → ScanMode) : Prop := ∀ j, (j < i)%nat → ms j = ms' j.
Lemma agree_refl i ms : agree i ms ms.
Proof. done. Qed.
Lemma agree_trans i ms1 ms2 ms3 : agree i ms1 ms2 → agree i ms2 ms3 → agree i ms1 ms3.
Proof. intros H1 H2 j Hj. by rewrite H1, H2. Qed.
Lemma agree_le i j ms ms' : (i ≤ j)%nat → agree j ms ms' → agree i ms ms'.
Proof. intros Hij H k Hk. apply H. lia. Qed.
Lemma agree_reading i j ms ms' : agree i ms ms' → (j < i)%nat → reading ms j = reading ms' j.
Proof. intros H Hj. apply reading_ext. intros k Hk. apply H. lia. Qed.
Lemma agree_left i ms ms' : agree i ms ms' → left_at ms i = left_at ms' i.
Proof. intros H. unfold left_at. by rewrite (prior_ext s ms ms'). Qed.

(** ** What a production sees *)

Definition raw (π : point) (i : nat) : Token := shown (reading (modes π) i).
Definition await_ident (π : point) : bool :=
  match ctx_await π with
  | awaitFn | awaitTop => negb (startsOperand (Type_ (raw π (place π + 1))))
  | _ => false
  end.
Definition view (π : point) : Token :=
  let t := raw π (place π) in
  let t := if tok_eqb (Type_ t) YIELD && negb (ctx_gen π) then as_ident t else t in
  if tok_eqb (Type_ t) AWAIT && await_ident π then as_ident t else t.
Definition left (π : point) : nat := left_at (modes π) (place π).
Definition next (π : point) : point := set_place (S (place π)) π.

(** No token past the place has been read in another mode. *)
Definition ahead_default (π : point) : Prop := ∀ j, (place π < j)%nat → modes π j = ScanDefault.
Record at_point (π : point) (p : Parser) : Prop := {
  at_stream : stream_ok s (modes π) p;
  at_place : cursor p = place π;
  at_gen : inGen p = ctx_gen π;
  at_await : awaitCtx p = ctx_await π;
  at_in : noInFrom p = ctx_in π;
  at_speculating : speculating p = ctx_spec π;
  at_ahead : ahead_default π }.

(** [t] is the token shown at the place [i], a [yield] or [await] perhaps taken for a name. *)
Definition seen (ms : nat → ScanMode) (i : nat) (t : Token) : Prop :=
  let t0 := shown (reading ms i) in t = t0 ∨ ((Type_ t0 = YIELD ∨ Type_ t0 = AWAIT) ∧ t = as_ident t0).
Fixpoint spans (ms : nat → ScanMode) (i : nat) (ts : list Token) : Prop :=
  match ts with [] => True | t :: ts => seen ms i t ∧ spans ms (S i) ts end.

Lemma view_cases π :
  view π = raw π (place π) ∨ ((Type_ (raw π (place π)) = YIELD ∨ Type_ (raw π (place π)) = AWAIT) ∧ view π = as_ident (raw π (place π))).
Proof.
  unfold view. set (t := raw π (place π)). destruct (tok_eqb (Type_ t) YIELD) eqn:Hy; cbn.
  - apply tok_eqb_eq in Hy. destruct (negb (ctx_gen π)); cbn; [right; tauto|]. rewrite Hy. by left.
  - destruct (tok_eqb (Type_ t) AWAIT) eqn:Ha; cbn; [|by left]. apply tok_eqb_eq in Ha.
    destruct (await_ident π); [right; tauto|by left].
Qed.
Lemma view_seen π : seen (modes π) (place π) (view π).
Proof. apply view_cases. Qed.
Lemma view_raw π : Type_ (raw π (place π)) ≠ YIELD → Type_ (raw π (place π)) ≠ AWAIT → view π = raw π (place π).
Proof. destruct (view_cases π) as [?|[[?|?] _]]; done. Qed.
(** Only a name may be shown for another token. *)
Lemma view_type π : Type_ (view π) ≠ IDENT → view π = raw π (place π).
Proof. destruct (view_cases π) as [?|[_ ->]]; done. Qed.

Lemma spans_app ms i ts1 ts2 : spans ms i (ts1 ++ ts2) ↔ spans ms i ts1 ∧ spans ms (i + length ts1) ts2.
Proof.
  revert i. induction ts1 as [|t ts1 IH]; intros i; cbn [app spans length].
  - rewrite Nat.add_0_r. tauto.
  - rewrite IH. replace (S i + length ts1)%nat with (i + S (length ts1))%nat by lia. tauto.
Qed.
Lemma spans_agree ms ms' i ts : agree (i + length ts) ms ms' → spans ms i ts → spans ms' i ts.
Proof.
  revert i. induction ts as [|t ts IH]; intros i Ha; [done|]. cbn [spans length] in *. intros [Ht Hts]. split.
  - unfold seen in *. rewrite <- (agree_reading _ _ _ _ Ha) by lia. done.
  - apply IH; [|done]. by replace (S i + length ts)%nat with (i + S (length ts))%nat by lia.
Qed.

(** ** Progress *)

Definition same_ctx (π π' : point) : Prop :=
  ctx_gen π' = ctx_gen π ∧ ctx_await π' = ctx_await π ∧ ctx_in π' = ctx_in π ∧ ctx_spec π' = ctx_spec π.
(** From [π0], [π] has read on and kept what was there. *)
Definition from (π0 π : point) : Prop :=
  agree (place π0) (modes π0) (modes π) ∧ (place π0 ≤ place π)%nat ∧ same_ctx π0 π.
(** From [π0], [ts] has been read and [π] is reached. *)
Definition upto (π0 : point) (ts : list Token) (π : point) : Prop :=
  agree (place π0) (modes π0) (modes π) ∧ place π = (place π0 + length ts)%nat ∧ spans (modes π) (place π0) ts
    ∧ same_ctx π0 π.

Lemma from_refl π : from π π.
Proof. by repeat split. Qed.
Lemma from_trans π1 π2 π3 : from π1 π2 → from π2 π3 → from π1 π3.
Proof.
  intros (A1 & L1 & C1 & C2 & C3 & C4) (A2 & L2 & D1 & D2 & D3 & D4). split_and!; [|lia|repeat split; congruence].
  eapply agree_trans; [done|]. eapply agree_le; [|done]. lia.
Qed.
Lemma upto_refl π : upto π [] π.
Proof. repeat split; cbn; [lia]. Qed.
Lemma upto_from π0 ts π : upto π0 ts π → from π0 π.
Proof. intros (A & L & _ & C). split_and!; [done|lia|done]. Qed.
Lemma upto_trans π1 ts1 π2 ts2 π3 : upto π1 ts1 π2 → upto π2 ts2 π3 → upto π1 (ts1 ++ ts2) π3.
Proof.
  intros (A1 & L1 & S1 & C1 & C2 & C3 & C4) (A2 & L2 & S2 & D1 & D2 & D3 & D4). split_and!.
  - eapply agree_trans; [done|]. eapply agree_le; [|done]. lia.
  - rewrite length_app. lia.
  - apply spans_app. rewrite <- L1. split; [|done]. eapply spans_agree; [|done]. by rewrite <- L1.
  - repeat split; congruence.
Qed.
Lemma upto_le π0 ts π : upto π0 ts π → (left π ≤ left π0)%nat.
Proof. intros (A & L & _). unfold left. rewrite L, (agree_left _ _ _ A). apply left_mono. lia. Qed.
Lemma left_pred ms i : (left_at ms (S i) ≤ pred (left_at ms i))%nat.
Proof.
  destruct (reading ms i) as [t st|t] eqn:H; [apply left_step in H; lia|]. unfold left_at at 1. cbn [prior]. rewrite H. lia.
Qed.
Lemma upto_left π0 ts π : upto π0 ts π → ts ≠ [] → (left π ≤ pred (left π0))%nat.
Proof.
  intros (A & L & _) Hne. unfold left. rewrite L, (agree_left _ _ _ A). destruct ts as [|t ts]; [done|].
  transitivity (left_at (modes π) (S (place π0))); [apply left_mono; cbn; lia|apply left_pred].
Qed.
Lemma left_pos π : Type_ (view π) ≠ EOF → (0 < left π)%nat.
Proof.
  intros H. destruct (reading (modes π) (place π)) as [t st|t] eqn:Hr; [apply left_step in Hr; unfold left; lia|].
  destruct H. unfold view, raw. by rewrite Hr.
Qed.
Lemma upto_next π0 ts π : upto π0 ts π → upto π0 (ts ++ [view π]) (next π).
Proof. intros H. eapply upto_trans; [exact H|]. repeat split; cbn; [lia|]. apply view_seen. Qed.
Lemma upto_seen π0 ts π t : upto π0 ts π → seen (modes π) (place π) t → upto π0 (ts ++ [t]) (next π).
Proof. intros H Ht. eapply upto_trans; [exact H|]. repeat split; cbn; [lia|done]. Qed.
Lemma from_left π0 π : from π0 π → (left π ≤ left π0)%nat.
Proof. intros (A & L & _). unfold left. rewrite (agree_left _ _ _ A). by apply left_mono. Qed.

(** ** Weakest preconditions *)

(** From a parser at the point, [m] answers: with a value and a point that satisfy
    [Q], or with an error at a point that satisfies [X]. *)
Definition wpp {A} (m : PM A) (Q : A → point → Prop) (X : point → Prop) (π : point) : Prop :=
  ∀ p, at_point π p →
    match m p with
    | (Ok a, p') => ∃ π', at_point π' p' ∧ Q a π'
    | (Err _, p') => ∃ π', at_point π' p' ∧ X π'
    | _ => False
    end.

Lemma wpp_ret {A} (a : A) (Q : A → point → Prop) X π : Q a π → wpp (mret a) Q X π.
Proof. intros H p Hp. by exists π. Qed.
Lemma wpp_bind {A B} (m : PM A) (k : A → PM B) Q X π : wpp m (λ a, wpp (k a) Q X) X π → wpp (m ≫= k) Q X π.
Proof.
  intros H p Hp. specialize (H p Hp). unfold mbind, PM_bind, M_bind. destruct (m p) as [[a|e| |] p']; try done.
  destruct H as (π' & Hp' & H). by apply H.
Qed.
Lemma wpp_mono {A} (m : PM A) (Q Q' : A → point → Prop) (X X' : point → Prop) π :
  wpp m Q X π → (∀ a π', Q a π' → Q' a π') → (∀ π', X π' → X' π') → wpp m Q' X' π.
Proof. intros H HQ HX p Hp. specialize (H p Hp). destruct (m p) as [[a|e| |] p']; try done; destruct H as (π' & ? & ?); exists π'; auto. Qed.
Lemma wpp_get (Q : Parser → point → Prop) X π : (∀ p, at_point π p → Q p π) → wpp get Q X π.
Proof. intros H p Hp. exists π. auto. Qed.
Lemma wpp_gets {A} (f : Parser → A) (Q : A → point → Prop) X π : (∀ p, at_point π p → Q (f p) π) → wpp (gets f) Q X π.
Proof. intros H p Hp. exists π. auto. Qed.
Lemma wpp_modify f π' (Q : unit → point → Prop) X π : (∀ p, at_point π p → at_point π' (f p)) → Q tt π' → wpp (modify f) Q X π.
Proof. intros H HQ p Hp. exists π'. auto. Qed.
Lemma wpp_throw {A} e (Q : A → point → Prop) (X : point → Prop) π : X π → wpp (throw e) Q X π.
Proof. intros H p Hp. by exists π. Qed.
Lemma wpp_errAt {A} t m args (Q : A → point → Prop) (X : point → Prop) π : X π → wpp (errAt t m args) Q X π.
Proof. intros H. unfold errAt. destruct (if (TEnd t =? 0)%nat then _ else _). by apply wpp_throw. Qed.
Lemma wpp_errAtPos {A} t m args (Q : A → point → Prop) (X : point → Prop) π : X π → wpp (errAtPos t m args) Q X π.
Proof. apply wpp_throw. Qed.
Lemma wpp_attempt {A} (m : PM A) (Q : option A → point → Prop) X π :
  wpp m (λ a, Q (Some a)) (Q None) π → wpp (attempt m) Q X π.
Proof. intros H p Hp. specialize (H p Hp). unfold attempt. by destruct (m p) as [[a|e| |] p']. Qed.

Lemma wpp_loop {L B} (I : L → point → Prop) (μ : L → point → nat) (body : L → PM (L + B)) Q X :
  (∀ x π, I x π → wpp (body x) (λ r π', match r with inl x' => I x' π' ∧ (μ x' π' < μ x π)%nat | inr b => Q b π' end) X π) →
  ∀ n x π, I x π → (μ x π < n)%nat → wpp (loop n body x) Q X π.
Proof.
  intros Hb n. induction n as [|n IH]; intros x π HI Hn; [lia|]. cbn [loop]. apply wpp_bind.
  eapply wpp_mono; [by apply Hb| |done]. intros [x'|b] π'; [|by intros; apply wpp_ret].
  intros [HI' Hlt]. apply IH; [done|lia].
Qed.
(** A loop whose rounds read a token each. *)
Lemma wpp_while {L B} (I : L → point → Prop) (μ : L → point → nat) (body : L → PM (L + B)) Q X x π :
  I x π → (μ x π ≤ S (length (runes_of s)))%nat →
  (∀ x π, I x π → wpp (body x) (λ r π', match r with inl x' => I x' π' ∧ (μ x' π' < μ x π)%nat | inr b => Q b π' end) X π) →
  wpp (while body x) Q X π.
Proof.
  intros HI Hμ Hb. unfold while, rounds. apply wpp_bind, wpp_gets. intros p [[Hl _] _ _ _ _ _ _].
  apply (wpp_loop I μ); [done|done|]. rewrite (ready_src _ _ (lined_ready _ _ _ Hl)). lia.
Qed.

(** ** The operations of the stream *)

Lemma at_point_stream π p ms p' :
  at_point π p → stream_ok s ms p' → rest_same p p' → ahead_default (set_modes ms π) → at_point (set_modes ms π) p'.
Proof. intros [? ? ? ? ? ? ?] Hs Hr Ha. rewrite Hr in *. constructor; done. Qed.
Lemma set_modes_id π : set_modes (modes π) π = π.
Proof. by destruct π. Qed.
(** What keeps the stream and the context keeps the point. *)
Definition keeps_point (f : Parser → Parser) : Prop := ∀ p,
  lx (f p) = lx p ∧ toks (f p) = toks p ∧ states (f p) = states p ∧ rescans (f p) = rescans p
  ∧ cursor (f p) = cursor p ∧ inGen (f p) = inGen p ∧ awaitCtx (f p) = awaitCtx p ∧ noInFrom (f p) = noInFrom p
  ∧ speculating (f p) = speculating p.
Lemma keeps_point_at f π p : keeps_point f → at_point π p → at_point π (f p).
Proof.
  intros Hf [Hs ? ? ? ? ? ?]. destruct (Hf p) as (? & ? & ? & ? & ? & ? & ? & ? & ?).
  constructor; try congruence; [|done]. by apply (stream_ok_same s _ p).
Qed.
Lemma wpp_keeps f (Q : unit → point → Prop) X π : keeps_point f → Q tt π → wpp (modify f) Q X π.
Proof. intros Hf HQ. apply (wpp_modify f π); [|done]. intros p. by apply keeps_point_at. Qed.

Lemma wpp_at i (Q : Token → point → Prop) X π : Q (raw π i) π → wpp (at_ i) Q X π.
Proof.
  intros HQ p Hp. destruct (at_ok s _ i p (at_stream _ _ Hp)) as (p' & -> & Hok & Hr & _).
  exists π. split; [|done]. rewrite <- (set_modes_id π).
  eapply at_point_stream; [done|done|done|]. rewrite set_modes_id. by apply (at_ahead _ _ Hp).
Qed.
Lemma wpp_peekNth n (Q : Token → point → Prop) X π : Q (raw π (place π + n)) π → wpp (peekNth n) Q X π.
Proof. intros HQ. apply wpp_bind, wpp_get. intros p Hp. rewrite (at_place _ _ Hp). by apply wpp_at. Qed.
Lemma wpp_awaitIsIdent (Q : bool → point → Prop) X π : Q (await_ident π) π → wpp awaitIsIdent Q X π.
Proof.
  intros HQ. apply wpp_bind, wpp_get. intros p Hp. rewrite (at_await _ _ Hp), (at_place _ _ Hp). unfold await_ident in HQ.
  destruct (ctx_await π); try by apply wpp_ret. all: apply wpp_bind, wpp_at, wpp_ret, HQ.
Qed.
Lemma wpp_peek (Q : Token → point → Prop) X π : Q (view π) π → wpp peek Q X π.
Proof.
  intros HQ. apply wpp_bind, wpp_get. intros p Hp. rewrite (at_place _ _ Hp), (at_gen _ _ Hp).
  apply wpp_bind, wpp_at. cbv zeta. unfold view in HQ. cbv zeta in HQ.
  set (t := if tok_eqb _ YIELD && _ then _ else _) in *. apply wpp_bind.
  assert (∀ t, Q t π → wpp ((if negb (bool_decide (Doc t = ""%string)) && negb (bool_decide (docAt p = Some (place π)))
    then modify (set_pdoc (place π) (Jsdoc.Parse (Doc t))) else mret tt) ≫= λ _, mret t) Q X π) as Hdoc.
  { intros u Hu. apply wpp_bind.
    match goal with |- wpp (if ?b then _ else _) _ _ _ => destruct b end; [apply wpp_keeps; [done|]|]; by repeat apply wpp_ret. }
  destruct (tok_eqb (Type_ t) AWAIT); cbn [andb] in HQ.
  - apply wpp_awaitIsIdent. destruct (await_ident π); by apply Hdoc.
  - apply wpp_ret. by apply Hdoc.
Qed.
Lemma wpp_set_cursor i (Q : unit → point → Prop) X π : (place π ≤ i)%nat → Q tt (set_place i π) → wpp (modify (set_cursor i)) Q X π.
Proof.
  intros Hi HQ. apply (wpp_modify _ (set_place i π)); [|done]. intros p [Hs ? ? ? ? ? Ha]. constructor; try done.
  - by apply (stream_ok_same s _ p).
  - intros j Hj. apply Ha. cbn in Hj. lia.
Qed.
Lemma wpp_advance (Q : Token → point → Prop) X π : Q (view π) (next π) → wpp advance Q X π.
Proof.
  intros HQ. apply wpp_bind, wpp_peek, wpp_bind.
  assert (wpp (modify (set_cursor (S (place π)))) (λ _, wpp (mret (view π)) Q X) X π) as H.
  { apply wpp_set_cursor; [lia|]. by apply wpp_ret. }
  intros p Hp. specialize (H p Hp). cbn in *. by rewrite (at_place _ _ Hp).
Qed.
Lemma wpp_check typ (Q : bool → point → Prop) X π : Q (kind_is (view π) typ) π → wpp (check typ) Q X π.
Proof. intros HQ. by apply wpp_bind, wpp_peek, wpp_ret. Qed.
Lemma wpp_match typ (Q : bool → point → Prop) X π :
  (if kind_is (view π) typ then Q true (next π) else Q false π) → wpp (match_ [typ]) Q X π.
Proof.
  intros HQ. apply wpp_bind, wpp_check. destruct (kind_is (view π) typ); [|by apply wpp_ret].
  by apply wpp_bind, wpp_advance, wpp_ret.
Qed.
Lemma wpp_expect typ (Q : Token → point → Prop) (X : point → Prop) π :
  (if kind_is (view π) typ then Q (view π) (next π) else X π) → wpp (expect typ) Q X π.
Proof.
  intros HQ. apply wpp_bind, wpp_peek. unfold kind_is in HQ. destruct (tok_eqb _ _); [by apply wpp_advance|by apply wpp_errAt].
Qed.
Lemma wpp_expectGT c (Q : unit → point → Prop) (X : point → Prop) π :
  (if kind_is (view π) GT then Q tt (next π) else X π) → wpp (expectGT c) Q X π.
Proof.
  intros HQ. apply wpp_bind, wpp_peek. unfold kind_is in HQ.
  destruct (tok_eqb _ _); [by apply wpp_bind, wpp_advance, wpp_ret|by apply wpp_errAt].
Qed.

Lemma wpp_rescan m t st (Q : Token → point → Prop) X π :
  reading (modes π) (place π) = Read t st →
  (let π' := set_modes (put (place π) m (modes π)) π in Q (raw π' (place π)) π') → wpp (rescanAt (place π) m) Q X π.
Proof.
  intros Hrd HQ p Hp. destruct (rescan_ok s _ (place π) m p t st (at_stream _ _ Hp) Hrd) as (p' & -> & Hok & Hr).
  eexists. split; [|exact HQ]. eapply at_point_stream; [done|done|done|].
  intros j Hj. cbn in *. unfold put, cut. destruct (j =? _)%nat eqn:?; bool_cases; [lia|].
  destruct (j <? _)%nat eqn:?; bool_cases; [lia|done].
Qed.
Definition back (i : nat) (π : point) : point := set_place i (set_modes (cut i (modes π)) π).
Lemma wpp_rewind i (Q : unit → point → Prop) X π : Q tt (back i π) → wpp (rewind i) Q X π.
Proof.
  intros HQ p Hp. destruct (rewind_ok s _ i p (at_stream _ _ Hp)) as (p' & -> & Hok & Hr).
  exists (back i π). split; [|done]. destruct Hp. rewrite Hr in *. constructor; try done.
  intros j Hj. cbn in *. unfold cut. destruct (j <? i)%nat eqn:?; bool_cases; [lia|done].
Qed.

(** What is read again is read from the same place on. *)
Definition reread (π π' : point) : Prop := π' = set_modes (modes π') π ∧ agree (place π) (modes π) (modes π').
Lemma reread_refl π : reread π π.
Proof. split; [by destruct π|done]. Qed.
Lemma reread_trans π1 π2 π3 : reread π1 π2 → reread π2 π3 → reread π1 π3.
Proof.
  intros [E1 A1] [E2 A2]. rewrite E1 in E2, A2. cbn in *. split; [by rewrite E2|by eapply agree_trans].
Qed.
Lemma reread_upto π0 ts π π' : upto π0 ts π → reread π π' → upto π0 ts π'.
Proof.
  intros H [-> A]. rewrite <- (app_nil_r ts). eapply upto_trans; [exact H|]. repeat split; [done|cbn; lia].
Qed.
Lemma reread_left π π' : reread π π' → left π' = left π.
Proof. intros [-> A]. unfold left. cbn. symmetry. by apply agree_left. Qed.

Lemma raw_read π : Type_ (raw π (place π)) ≠ EOF → ∃ t st, reading (modes π) (place π) = Read t st.
Proof. unfold raw. destruct (reading _ _) as [t st|t]; [by exists t, st|done]. Qed.

(** A token read again under another mode. *)
Lemma wpp_reread m (Q : Token → point → Prop) X π :
  Type_ (view π) ≠ IDENT → Type_ (view π) ≠ EOF →
  (∀ t π', reread π π' → t = view π' ∨ Type_ t = YIELD ∨ Type_ t = AWAIT → Q t π') → wpp (rescanAt (place π) m) Q X π.
Proof.
  intros Hi He HQ. rewrite (view_type _ Hi) in He. destruct (raw_read π He) as (t & st & Hrd).
  apply (wpp_rescan _ t st); [done|]. cbv zeta. set (π' := set_modes _ π). apply HQ.
  - split; [done|]. intros j Hj. cbn. unfold put, cut. destruct (j =? _)%nat eqn:?; bool_cases; [lia|].
    by destruct (j <? _)%nat eqn:?; bool_cases; [|lia].
  - destruct (view_cases π') as [->|[H _]]; tauto.
Qed.

Definition operators_reread : list TokenType := [GT; REGEX].
Definition primaries_reread : list TokenType := [SLASH; SLASH_ASSIGN].
Lemma operators_match {R} ty (a b c : R) :
  ty ∉ operators_reread → match ty with GT => a | REGEX => b | _ => c end = c.
Proof. destruct ty; try done; intros H; exfalso; apply H; repeat constructor. Qed.
Lemma primaries_match {R} ty (a c : R) :
  ty ∉ primaries_reread → match ty with SLASH | SLASH_ASSIGN => a | _ => c end = c.
Proof. destruct ty; try done; intros H; exfalso; apply H; repeat constructor. Qed.

Lemma wpp_peekOperator (Q : Token → point → Prop) X π :
  (∀ t π', reread π π' → t = view π' ∨ Type_ t = YIELD ∨ Type_ t = AWAIT →
     (Type_ (view π) ∉ operators_reread → π' = π ∧ t = view π) → Q t π') →
  wpp peekOperator Q X π.
Proof.
  intros HQ. apply wpp_bind, wpp_peek, wpp_bind, wpp_get. intros p Hp. rewrite (at_place _ _ Hp).
  destruct (decide (Type_ (view π) ∈ operators_reread)) as [Hin|Hout].
  - assert (∀ m, wpp (rescanAt (place π) m) Q X π) as H.
    { intros m. apply wpp_reread; [by intros He; rewrite He in Hin; repeat (apply elem_of_cons in Hin as [?|Hin]; [done|]); apply elem_of_nil in Hin..|].
      intros t π' H1 H2. by apply HQ. }
    repeat (apply elem_of_cons in Hin as [Hin|Hin]; [rewrite Hin; apply H|]). by apply elem_of_nil in Hin.
  - rewrite operators_match by done. apply wpp_ret, HQ; [apply reread_refl|tauto|done].
Qed.
Lemma wpp_peekPrimary (Q : Token → point → Prop) X π :
  (∀ t π', reread π π' → t = view π' ∨ Type_ t = YIELD ∨ Type_ t = AWAIT →
     (Type_ (view π) ∉ primaries_reread → π' = π ∧ t = view π) → Q t π') →
  wpp peekPrimary Q X π.
Proof.
  intros HQ. apply wpp_bind, wpp_peek, wpp_bind, wpp_get. intros p Hp. rewrite (at_place _ _ Hp).
  destruct (decide (Type_ (view π) ∈ primaries_reread)) as [Hin|Hout].
  - assert (∀ m, wpp (rescanAt (place π) m) Q X π) as H.
    { intros m. apply wpp_reread; [by intros He; rewrite He in Hin; repeat (apply elem_of_cons in Hin as [?|Hin]; [done|]); apply elem_of_nil in Hin..|].
      intros t π' H1 H2. by apply HQ. }
    repeat (apply elem_of_cons in Hin as [Hin|Hin]; [rewrite Hin; apply H|]). by apply elem_of_nil in Hin.
  - rewrite primaries_match by done. apply wpp_ret, HQ; [apply reread_refl|tauto|done].
Qed.
End wp.
