(* ===== verification/ParseRules.v ===== *)
(** * Rules for the productions

    What a production promises ([good]), the rules for the operations on nodes,
    and the look-aheads: each answers at a point where the same tokens are read
    ([alike]), even when it parsed a type and went back. *)

From S2P Require Import Prelude GoString Diag Token Lexer LexerFacts LexerPos Stream StreamFacts Expr ParsePrimary ParseExpr Grammar ParseWp.
Open Scope Z_scope.

Section rules.
Context `{U : Unicode} `{OP : Opaque} (s : string).
Abbreviation reading := (StreamFacts.reading s).
Abbreviation wpp := (wpp s).
Abbreviation upto := (upto s).
Abbreviation view := (view s).
Abbreviation left := (left s).

(** ** Points at which the same is read *)

Definition alike (π π' : point) : Prop :=
  place π' = place π ∧ same_ctx π π' ∧ agree (place π) (modes π) (modes π') ∧ ∀ j, reading (modes π') j = reading (modes π) j.

Lemma alike_refl π : alike π π.
Proof. by repeat split. Qed.
Lemma alike_trans π1 π2 π3 : alike π1 π2 → alike π2 π3 → alike π1 π3.
Proof.
  intros (P1 & (A1 & B1 & C1 & D1) & G1 & R1) (P2 & (A2 & B2 & C2 & D2) & G2 & R2). repeat split; try congruence.
  rewrite P1 in G2. by eapply agree_trans.
Qed.
Lemma alike_raw π π' i : alike π π' → raw s π' i = raw s π i.
Proof. intros (_ & _ & _ & R). unfold raw. by rewrite R. Qed.
Lemma alike_view π π' : alike π π' → view π' = view π.
Proof.
  intros H. pose proof H as (P & (A & B & _) & _). unfold ParseWp.view, await_ident. rewrite P, A, B, !(alike_raw π π') by done. done.
Qed.
Lemma alike_upto π0 ts π π' : upto π0 ts π → alike π π' → upto π0 ts π'.
Proof.
  intros H (P & C & G & _). rewrite <- (app_nil_r ts). eapply upto_trans; [exact H|]. repeat split; try apply C; [done|cbn; lia].
Qed.
Lemma alike_left π π' : alike π π' → left π' = left π.
Proof. intros (P & _ & G & _). unfold ParseWp.left. rewrite P. symmetry. by apply agree_left. Qed.

(** The token at a place, under other modes from there on. *)
Lemma scan_at_modes m m' st : marked s st →
  scan_at s m st = scan_at s m' st
  ∨ (Type_ (shown (scan_at s m st)) ∈ mode_types ∧ Type_ (shown (scan_at s m' st)) ∈ mode_types).
Proof.
  intros (l & Hl & <-). destruct (Scan_alike s m m' l Hl) as (t & l1 & t' & l2 & E1 & E2 & H).
  destruct (scan_resume s m l Hl) as (u & m1 & F1 & _ & G1 & _), (scan_resume s m' l Hl) as (u' & m2 & F2 & _ & G2 & _).
  rewrite E1 in F1. rewrite E2 in F2. injection F1 as <- <-. injection F2 as <- <-. rewrite G1, G2.
  destruct H as [[-> ->]|H]; [by left|by right].
Qed.
Lemma reading_modes i ms ms' : agree i ms ms' →
  reading ms i = reading ms' i ∨ (Type_ (shown (reading ms i)) ∈ mode_types ∧ Type_ (shown (reading ms' i)) ∈ mode_types).
Proof.
  intros H. rewrite (reading_prior s ms), (reading_prior s ms').
  assert (prior s ms i = prior s ms' i) as <- by (apply prior_ext; exact H).
  destruct (prior s ms i) as [st|t] eqn:Hp; [|by left]. apply scan_at_modes. by eapply prior_marked.
Qed.
(** What is read from a point starts with the token shown there. *)
Lemma upto_starts π ts π' : upto π ts π' → ts ≠ [] → starts (view π) ts.
Proof.
  intros (A & _ & S & _) Hne. destruct ts as [|t ts]; [done|]. destruct S as [St _]. clear Hne.
  unfold seen in St. cbv zeta in St. pose proof (view_cases s π) as Hv. unfold raw in Hv.
  destruct (reading_modes _ _ _ A) as [Hr|[H1 H2]].
  - rewrite <- Hr in St. set (u := shown _) in *. destruct Hv as [-> | [Hu ->]], St as [-> | [Hu' ->]]; try constructor; try done.
  - assert (∀ t, Type_ t ∈ mode_types → ¬ may_be_name t) as Hno.
    { intros u Hu [He|He]; rewrite He in Hu; repeat (apply elem_of_cons in Hu as [?|Hu]; [done|]); by apply elem_of_nil in Hu. }
    destruct Hv as [-> | [Hu _]]; [|by destruct (Hno _ H1)]. destruct St as [-> | [Hu _]]; [|by destruct (Hno _ H2)].
    by apply starts_in_mode.
Qed.
Lemma starts_eq u ts : starts u ts → Type_ u ≠ IDENT → ¬ may_be_name u → Type_ u ∉ mode_types → ∃ ts', ts = u :: ts'.
Proof. intros [?|?|? ? ? ->|] H1 H2 H3; [by eexists|done..]. Qed.

(** Going back to the place of a token that no mode reads otherwise. *)
Lemma back_alike π π' :
  ahead_default π → from π π' → Type_ (raw s π (place π)) ∉ mode_types → alike π (back (place π) π').
Proof.
  intros Had (A & _ & C) Ht. split; [done|]. split; [by destruct C as (? & ? & ? & ?)|].
  set (ms' := modes (back _ _)).
  assert (agree (place π) (modes π) ms') as Hag.
  { intros j Hj. cbn. unfold cut. destruct (j <? _)%nat eqn:?; bool_cases; [by apply A|lia]. }
  split; [done|].
  assert (∀ j, (place π ≤ j)%nat → ms' j = ScanDefault) as Hd.
  { intros k Hk. cbn. unfold cut. destruct (k <? _)%nat eqn:?; bool_cases; [lia|done]. }
  assert (reading (modes π) (place π) = reading ms' (place π)) as Hhere by (by destruct (reading_modes _ _ _ Hag) as [?|[? _]]).
  intros j. symmetry. destruct (Nat.lt_ge_cases j (place π)) as [Hj|Hj]; [by apply (agree_reading s (place π))|].
  induction Hj as [|j Hj IH]; [done|]. cbn [StreamFacts.reading]. by rewrite IH, (Hd (S j)), Had by lia.
Qed.

(** ** Nodes *)

Lemma keeps_set_nodes a b c d : keeps_point (set_nodes a b c d).
Proof. by intros p. Qed.
Lemma wpp_make pos k (Q : Expr → point → Prop) X π : (∀ i, Q (mkExpr i pos k) π) → wpp (make pos k) Q X π.
Proof.
  intros HQ. apply wpp_bind, wpp_get. intros p Hp. apply wpp_bind, wpp_keeps; [by intros q|]. by apply wpp_ret.
Qed.
Lemma wpp_assert e f (Q : unit → point → Prop) X π : Q tt π → wpp (assert_ e f) Q X π.
Proof. intros HQ. apply wpp_keeps; [by intros q|done]. Qed.
Lemma wpp_is_bareArrow e (Q : bool → point → Prop) X π : (∀ b, Q b π) → wpp (is_bareArrow e) Q X π.
Proof. intros HQ. apply wpp_bind, wpp_get. intros p Hp. by apply wpp_ret. Qed.
Lemma wpp_src_from i pos stop (Q : option (nat * nat) → point → Prop) X π : (∀ r, Q r π) → wpp (src_from i pos stop) Q X π.
Proof.
  intros HQ. induction i as [|i IH]; cbn [src_from]; apply wpp_bind, wpp_at;
    (destruct (_ && _); [by apply wpp_ret|destruct (_ <? _); [by apply wpp_ret|]]); [by apply wpp_ret|done].
Qed.
Lemma wpp_srcRange pos (Q : option (nat * nat) → point → Prop) X π : (∀ r, Q r π) → wpp (srcRange pos) Q X π.
Proof.
  intros HQ. apply wpp_bind, wpp_get. intros p Hp. destruct (cursor p) as [|i]; [by apply wpp_ret|].
  apply wpp_bind, wpp_at. by apply wpp_src_from.
Qed.
Lemma wpp_blank a b (Q : unit → point → Prop) X π : Q tt π → wpp (blank a b) Q X π.
Proof. intros HQ. unfold blank. destruct (_ <? _)%nat; [by apply wpp_keeps; [intros q|]|by apply wpp_ret]. Qed.
Lemma wpp_blank_from_place a (Q : unit → point → Prop) X π : Q tt π → wpp (blank_from_place a) Q X π.
Proof. intros HQ. apply wpp_bind, wpp_gets. intros p Hp. apply wpp_bind, wpp_at. by apply wpp_blank. Qed.
Lemma wpp_callSource a b (Q : string → point → Prop) X π : (∀ r, Q r π) → wpp (callSource a b) Q X π.
Proof. intros HQ. by apply wpp_gets. Qed.

(** A guess begins and ends. *)
Lemma at_point_spec m π p : at_point s π p → at_point s (at_spec m π) (set_speculating m p).
Proof. intros [Hs ? ? ? ? ? Ha]. constructor; try done. by apply (stream_ok_same s _ p). Qed.
Lemma wpp_guess (Q : unit → point → Prop) X π :
  Q tt (at_spec (S (ctx_spec π)) π) → wpp (modify (λ p, set_speculating (S (speculating p)) p)) Q X π.
Proof. apply wpp_modify. intros p Hp. rewrite (at_speculating _ _ _ Hp). by apply at_point_spec. Qed.
Lemma wpp_guessed (Q : unit → point → Prop) X π π' : ctx_spec π' = S (ctx_spec π) →
  Q tt (at_spec (ctx_spec π) π') → wpp (modify (λ p, set_speculating (pred (speculating p)) p)) Q X π'.
Proof.
  intros Hc. apply wpp_modify. intros p Hp. rewrite (at_speculating _ _ _ Hp), Hc. by apply at_point_spec.
Qed.
Lemma upto_spec m π ts π' : upto (at_spec m π) ts π' → upto π ts (at_spec (ctx_spec π) π').
Proof. intros (A & P & S & ? & ? & ? & _). by repeat split. Qed.
Lemma from_spec m π π' : from (at_spec m π) π' → from π (at_spec (ctx_spec π) π').
Proof. intros (A & P & ? & ? & ? & _). by repeat split. Qed.

(** Where [in] is no operator. *)
Fixpoint depth_at (π : point) (i n : nat) (depth : Z) : Z :=
  match n with O => depth | S n => depth_at π (S i) n (depth + bracket (Type_ (raw s π i))) end.
Definition excluded (π : point) : bool :=
  match ctx_in π with None => false | Some i => depth_at π i (place π - i) 0 =? 0 end.
Lemma wpp_depth_from i n depth (Q : Z → point → Prop) X π : Q (depth_at π i n depth) π → wpp (depth_from i n depth) Q X π.
Proof.
  revert i depth. induction n as [|n IH]; intros i depth HQ; [by apply wpp_ret|]. cbn [depth_from].
  apply wpp_bind, wpp_at. by apply IH.
Qed.
Lemma wpp_inExcluded (Q : bool → point → Prop) X π : Q (excluded π) π → wpp inExcluded Q X π.
Proof.
  intros HQ. apply wpp_bind, wpp_get. intros p Hp. rewrite (at_in _ _ _ Hp), (at_place _ _ _ Hp). unfold excluded in HQ.
  destruct (ctx_in π) as [i|]; [|by apply wpp_ret]. apply wpp_bind, wpp_depth_from. by apply wpp_ret.
Qed.
Lemma depth_at_snoc π i n depth : depth_at π i (S n) depth = depth_at π i n depth + bracket (Type_ (raw s π (i + n))).
Proof.
  revert i depth. induction n as [|n IH]; intros i depth; [by rewrite Nat.add_0_r|].
  cbn [depth_at] in *. rewrite IH. do 4 f_equal. lia.
Qed.
(** A token that is no bracket changes nothing. *)
Lemma excluded_next π : bracket (Type_ (raw s π (place π))) = 0 → excluded (next π) = excluded π.
Proof.
  intros H. unfold excluded. cbn. destruct (ctx_in π) as [i|]; [|done]. unfold next.
  assert (∀ n d j, depth_at (set_place (S (place π)) π) j n d = depth_at π j n d) as Heq.
  { induction n as [|n IH]; intros d j; [done|]. cbn. apply IH. }
  rewrite Heq. destruct (Nat.le_gt_cases i (place π)) as [Hi|Hi].
  - replace (S (place π) - i)%nat with (S (place π - i)) by lia. rewrite depth_at_snoc.
    replace (i + (place π - i))%nat with (place π) by lia. by rewrite H, Z.add_0_r.
  - by replace (S (place π) - i)%nat with (place π - i)%nat by lia.
Qed.

(** ** Productions *)

(** [m] consumes a sentence of the language [L], one token at least. *)
Definition good {A} (n : nat) (m : PM A) (L : list Token → A → Prop) : Prop :=
  ∀ π, (left π ≤ n)%nat → wpp m (λ a π', ∃ ts, upto π ts π' ∧ ts ≠ [] ∧ L ts a) (from π) π.

Lemma wpp_good {A} n (m : PM A) L π0 ts (Q : A → point → Prop) π :
  good n m L → upto π0 ts π → (left π ≤ n)%nat →
  (∀ a ts' π', upto π0 (ts ++ ts') π' → ts' ≠ [] → L ts' a → Q a π') → wpp m Q (from π0) π.
Proof.
  intros Hm Hu Hn HQ. eapply wpp_mono; [by apply Hm| |].
  - intros a π' (ts' & Hu' & Hne & HL). eapply HQ; [|done|done]. by eapply upto_trans.
  - intros π' Hf. eapply from_trans; [by eapply upto_from|done].
Qed.
Lemma good_mono {A} n (m : PM A) (L L' : list Token → A → Prop) :
  (∀ ts a, L ts a → L' ts a) → good n m L → good n m L'.
Proof. intros HL H π Hπ. eapply wpp_mono; [by apply H| |done]. intros a π' (ts & ? & ? & ?). eauto. Qed.
Lemma good_le {A} n n' (m : PM A) L : (n' ≤ n)%nat → good n m L → good n' m L.
Proof. intros Hn H π Hπ. apply H. lia. Qed.

End rules.
