(* ===== verification/ParseLists.v ===== *)
(** * Look-aheads, lists and templates: what they promise

    The parser's promises for what is parsed elsewhere ([ElsewhereOk]) and for
    the productions called again ([good_self]); the tactics the proofs on
    productions share; look-aheads, argument lists, templates, arrays and type
    arguments. *)

From S2P Require Import Prelude GoString Diag Token Lexer LexerFacts LexerPos Stream StreamFacts Expr ParsePrimary ParseExpr Grammar.
From S2P Require Import ParseWp ParseRules.

Open Scope Z_scope.

(** ** Token tests *)

Lemma kind_is_eq t typ : kind_is t typ = true → Type_ t = typ.
Proof. apply tok_eqb_eq. Qed.
Lemma kind_is_ne t typ : kind_is t typ = false → Type_ t ≠ typ.
Proof. intros H He. apply tok_eqb_eq in He. unfold kind_is in H. congruence. Qed.
Lemma kind_in_elem t typs : kind_in t typs = true → Type_ t ∈ typs.
Proof.
  unfold kind_in. intros (typ & Hin & He)%existsb_exists. apply tok_eqb_eq in He. rewrite He.
  by apply list_elem_of_In.
Qed.
Lemma kind_in_not t typs : kind_in t typs = false → Type_ t ∉ typs.
Proof.
  intros H Hin. assert (kind_in t typs = true); [|congruence]. apply existsb_exists. exists (Type_ t).
  split; [by apply list_elem_of_In|by apply tok_eqb_eq].
Qed.
Lemma is_word_ident t w : is_word t w = true → Type_ t = IDENT.
Proof. intros [H _]%andb_true_iff. by apply kind_is_eq. Qed.
Lemma cast {A} (L : list Token → A → Prop) ts ts' a : L ts' a → ts = ts' → L ts a.
Proof. by intros ? ->. Qed.

(** The types a token has or has not, from the tests made. *)
Ltac kinds :=
  repeat match goal with
  | H : kind_is ?t ?typ = true |- _ => apply kind_is_eq in H
  | H : kind_is ?t ?typ = false |- _ => apply kind_is_ne in H
  | H : kind_in ?t ?typs = true |- _ => apply kind_in_elem in H
  | H : kind_in ?t ?typs = false |- _ => apply kind_in_not in H
  | H : _ || _ = false |- _ => apply orb_false_iff in H as [? ?]
  | H : _ && _ = true |- _ => apply andb_true_iff in H as [? ?]
  | H : negb _ = true |- _ => apply negb_true_iff in H
  | H : negb _ = false |- _ => apply negb_false_iff in H
  end.
(** Equality of the token lists read and spelled. *)
Ltac lists := rewrite <- ?app_assoc; cbn [app]; rewrite <- ?app_assoc, ?app_nil_r; done.
Ltac spell L := refine (cast L _ _ _ _ _); [|lists].

(** One operation of a production; the point stays the same but for those that read. *)
Ltac step :=
  lazymatch goal with
  | |- ParseWp.wpp _ (mbind _ _) _ _ _ => apply wpp_bind
  | |- ParseWp.wpp _ (mret _) _ _ _ => apply wpp_ret
  | |- ParseWp.wpp _ peek _ _ _ => apply wpp_peek
  | |- ParseWp.wpp _ (peekNth _) _ _ _ => apply wpp_peekNth
  | |- ParseWp.wpp _ advance _ _ _ => apply wpp_advance
  | |- ParseWp.wpp _ (check _) _ _ _ => apply wpp_check
  | |- ParseWp.wpp _ (match_ [_]) _ _ _ => apply wpp_match
  | |- ParseWp.wpp _ (expect _) _ _ _ => apply wpp_expect
  | |- ParseWp.wpp _ (expectGT _) _ _ _ => apply wpp_expectGT
  | |- ParseWp.wpp _ (errAt _ _ _) _ _ _ => apply wpp_errAt
  | |- ParseWp.wpp _ (errAtPos _ _ _) _ _ _ => apply wpp_errAtPos
  | |- ParseWp.wpp _ (make _ _) _ _ _ => apply wpp_make; intros ?
  | |- ParseWp.wpp _ (assert_ _ _) _ _ _ => apply wpp_assert
  | |- ParseWp.wpp _ (is_bareArrow _) _ _ _ => apply wpp_is_bareArrow; intros ?
  | |- ParseWp.wpp _ (srcRange _) _ _ _ => apply wpp_srcRange; intros ?
  | |- ParseWp.wpp _ (blank _ _) _ _ _ => apply wpp_blank
  | |- ParseWp.wpp _ (blank_from_place _) _ _ _ => apply wpp_blank_from_place
  | |- ParseWp.wpp _ (callSource _ _) _ _ _ => apply wpp_callSource; intros ?
  | |- ParseWp.wpp _ inExcluded _ _ _ => apply wpp_inExcluded
  | |- ParseWp.wpp _ (if ?b then _ else _) _ _ _ => destruct b eqn:?
  | |- if ?b then _ else _ => destruct b eqn:?
  end.
Ltac steps := repeat (step; cbv beta).

(** ** The promises *)

Section promises.
Context `{U : Unicode} {OP : Opaque} (s : string) {L : Languages} {E : Elsewhere}.

Record good_self (n : nat) (G : Self) : Prop := {
  good_assignment : good s n (self_assignment G) (Spells 0);
  good_exponentiation : good s n (self_exponentiation G) (Spells 13);
  good_unary : good s n (self_unary G) (Spells 14);
  good_primary : good s n (self_primary G) (Spells 17) }.

Class ElsewhereOk := {
  parseType_ok n G : good_self n G → good s (S n) (parseType G) (λ _ _, True);
  parseTypeAnnotation_ok n G c : good_self n G → good s (S n) (parseTypeAnnotation G c) LType;
  parseTypeParameterNodes_ok n G c : good_self n G → good s (S n) (parseTypeParameterNodes G c) LTypeParams;
  parseBlock_ok n G : good_self n G → good s (S n) (parseBlock G) LBlock;
  parseFunctionRest_ok n G name a g m : good_self n G → good s (S n) (parseFunctionRest G name a g m) (LFunction name a g);
  parseClassDecl_ok n G c : good_self n G → good s (S n) (parseClassDecl G c) LClass;
  parseImportExpr_ok n G : good_self n G → good s (S n) (parseImportExpr G) LImport }.
End promises.

(** From here on: fuel [n] for the productions called again, one more for those that call. *)
Section lists.
Context `{U : Unicode} {OP : Opaque} (s : string) {L : Languages} {E : Elsewhere} {EO : ElsewhereOk s}.
Context (n : nat) (G : Self) (HG : good_self s n G).
Abbreviation wpp := (wpp s).
Abbreviation upto := (upto s).
Abbreviation view := (view s).
Abbreviation left := (left s).

(** A production called again, once a token has been read. *)
Lemma wpp_again {A} (m : PM A) La π0 ts (Q : A → point → Prop) π :
  good s n m La → upto π0 ts π → (left π0 ≤ S n)%nat → ts ≠ [] →
  (∀ a ts' π', upto π0 (ts ++ ts') π' → ts' ≠ [] → La ts' a → (left π' ≤ pred (left π))%nat → Q a π') → wpp m Q (from π0) π.
Proof.
  intros Hm Hu Hn Hne HQ. eapply wpp_mono; [apply Hm| |].
  - pose proof (upto_left s _ _ _ Hu Hne). lia.
  - intros a π' (ts' & Hu' & Hne' & HL). eapply HQ; [by eapply upto_trans|done|done|]. by eapply upto_left.
  - intros π' Hf. eapply from_trans; [by eapply upto_from|done].
Qed.
(** One that may be called anywhere. *)
Lemma wpp_here {A} (m : PM A) La π0 ts (Q : A → point → Prop) π :
  good s (S n) m La → upto π0 ts π → (left π0 ≤ S n)%nat →
  (∀ a ts' π', upto π0 (ts ++ ts') π' → ts' ≠ [] → La ts' a → (left π' ≤ pred (left π))%nat → Q a π') → wpp m Q (from π0) π.
Proof.
  intros Hm Hu Hn HQ. eapply wpp_mono; [apply Hm| |].
  - pose proof (upto_le s _ _ _ Hu). lia.
  - intros a π' (ts' & Hu' & Hne' & HL). eapply HQ; [by eapply upto_trans|done|done|]. by eapply upto_left.
  - intros π' Hf. eapply from_trans; [by eapply upto_from|done].
Qed.

(** ** Look-aheads *)

(** Whatever [m] answers, the point it ends at is like the one it started from. *)
Definition lookahead {A} (m : PM A) : Prop := ∀ π (Q : A → point → Prop) X,
  (left π ≤ S n)%nat → Type_ (view π) ∉ mode_types → (∀ a π', alike s π π' → Q a π') → wpp m Q X π.

Lemma view_raw_mode π : Type_ (view π) ∉ mode_types → Type_ (raw s π (place π)) ∉ mode_types.
Proof.
  destruct (view_cases s π) as [->|[[H|H] _]]; [done|..]; intros _; rewrite H; intros Hin;
    repeat (apply elem_of_cons in Hin as [?|Hin]; [done|]); by apply elem_of_nil in Hin.
Qed.

Lemma look_typeThenArrowAt k : lookahead (typeThenArrowAt G k).
Proof.
  intros π Q X Hn Hty HQ. unfold typeThenArrowAt.
  apply wpp_bind, wpp_gets. intros p Hp. rewrite (at_place _ _ _ Hp). pose proof (at_ahead _ _ _ Hp) as Had. clear p Hp.
  apply wpp_bind, wpp_set_cursor; [lia|]. apply wpp_bind, wpp_attempt.
  set (π1 := set_place (place π + k) π).
  assert (∀ ok π2, from π π2 → wpp (rewind (place π) ≫= λ _, mret ok) Q X π2) as Hback.
  { intros ok π2 H2. apply wpp_bind, wpp_rewind, wpp_ret, HQ. apply back_alike; [done|done|by apply view_raw_mode]. }
  assert (from π π1) as H1 by (repeat split; cbn; lia).
  assert (left π1 ≤ S n)%nat as Hl1 by (pose proof (from_left s _ _ H1); lia).
  eapply wpp_mono; [by eapply parseType_ok|..].
  - intros a π2 (ts & Hu & _). apply wpp_bind, wpp_check, Hback. by eapply from_trans, upto_from.
  - intros π2 H2. apply wpp_bind, wpp_ret, Hback. by eapply from_trans.
Qed.

(** A loop over the tokens ahead. *)
Lemma wpp_ahead {B D} (body : nat * D → PM (nat * D + B)) i d (Q : B → point → Prop) X π :
  (∀ i d, wpp (body (i, d)) (λ r π', match r with
     | inl (j, _) => π' = π ∧ (i < j)%nat ∧ Type_ (raw s π (place π + i)) ≠ EOF
     | inr b => Q b π' end) X π) →
  wpp (while body (i, d)) Q X π.
Proof.
  intros Hb. apply (wpp_while s (λ _ π', π' = π) (λ '(i, _) π', left_at s (modes π') (place π' + i))); [done|apply left_bound|].
  intros [j e] π' ->. eapply wpp_mono; [apply Hb| |done]. intros [[k f]|b] π'; [|done]. intros (-> & Hk & Ht). split; [done|].
  unfold raw in Ht. destruct (StreamFacts.reading s (modes π) (place π + j)) as [t st|t] eqn:Hr; [|done].
  apply left_step in Hr. eapply Nat.le_lt_trans; [apply (left_mono s _ (S (place π + j)))|done]. lia.
Qed.
Ltac ahead HQ :=
  steps; kinds; try (by split_and!; [done|lia|congruence]); try (by apply HQ, alike_refl).

Lemma look_parenGroupFollowedByArrowAt k : lookahead (parenGroupFollowedByArrowAt G k).
Proof.
  intros π Q X Hn Hty HQ. apply wpp_ahead. intros i d. ahead HQ.
  apply look_typeThenArrowAt; [done|done|]. intros b π' H. steps. by apply HQ.
Qed.
Lemma look_destructured : lookahead destructuredArrowParamLookahead.
Proof.
  intros π Q X Hn Hty HQ. unfold destructuredArrowParamLookahead. do 3 step. apply wpp_ahead. intros i d. ahead HQ.
  apply wpp_ahead. intros j f. ahead HQ.
Qed.
Lemma look_genericArrowAhead : lookahead (genericArrowAhead G).
Proof.
  intros π Q X Hn Hty HQ. unfold genericArrowAhead. steps; try (by apply HQ, alike_refl).
  apply wpp_ahead. intros i d. ahead HQ.
  - apply look_parenGroupFollowedByArrowAt; [done|done|]. intros b π' H. steps. by apply HQ.
  - split_and!; [done|lia|]. intros He. rewrite He in *.
    match goal with H : _ ∉ _ |- _ => by apply H; left end.
Qed.
Lemma look_asyncFunctionAhead : lookahead (asyncFunctionAhead G).
Proof.
  intros π Q X Hn Hty HQ. unfold asyncFunctionAhead, isWord, sameLine. steps; try (by apply HQ, alike_refl).
  by apply look_parenGroupFollowedByArrowAt.
Qed.
Lemma look_isArrow : lookahead (isArrow G).
Proof.
  intros π Q X Hn Hty HQ. unfold isArrow. steps; try (by apply HQ, alike_refl).
  - by apply look_typeThenArrowAt.
  - by apply look_parenGroupFollowedByArrowAt.
  - by apply look_destructured.
Qed.

(** ** Argument lists and types *)

Lemma raw_kind π typ : typ ≠ IDENT → typ ≠ YIELD → typ ≠ AWAIT → kind_is (view π) typ = kind_is (raw s π (place π)) typ.
Proof.
  intros H1 H2 H3. destruct (view_cases s π) as [->|[H ->]]; [done|]. unfold kind_is. cbn [Type_ as_ident].
  apply eq_true_iff_eq. rewrite !tok_eqb_eq. destruct H as [->| ->]; split; congruence.
Qed.
Definition spread_form (b : bool) (ts : list Token) (e : Expr) : Prop :=
  if b then ∃ t ts' e' i, ts = t :: ts' ∧ Type_ t = ELLIPSIS ∧ Spells 0 ts' e' ∧ e = mkExpr i (posOf t) (SpreadElement e')
  else Spells 0 ts e.
Lemma spread_spells b ts e : spread_form b ts e → SpellsSpread ts e.
Proof. destruct b; [|by apply spread_none]. intros (t & ts' & e' & i & -> & ? & ? & ->). by apply spread_some. Qed.

Lemma wpp_parseSpread π0 ts π (Q : Expr → point → Prop) :
  upto π0 ts π → (left π0 ≤ S n)%nat → ts ≠ [] →
  (∀ e ts' π', upto π0 (ts ++ ts') π' → ts' ≠ [] → (left π' ≤ pred (left π))%nat →
     spread_form (kind_is (view π) ELLIPSIS) ts' e → Q e π') →
  wpp (parseSpread G) Q (from π0) π.
Proof.
  intros Hu Hn Hne HQ. unfold parseSpread. steps.
  - eapply wpp_again; [apply HG|by apply upto_next|done|by destruct ts|]. intros e ts' π' Hu' _ He Hl. steps.
    eapply (HQ _ (view π :: ts')); [by rewrite <- app_assoc in Hu'|done| |].
    + pose proof (left_pred s (modes π) (place π)). unfold ParseWp.left in *. cbn in *. lia.
    + kinds. naive_solver.
  - eapply wpp_again; [apply HG|done..|]. intros e ts' π' Hu' ? He Hl. by eapply HQ.
Qed.

(** The rounds of a loop that begin at a token that is there and read on. *)
Lemma left_less (k : nat) π : Type_ (view π) ≠ EOF → (k ≤ pred (left π))%nat → (k < left π)%nat.
Proof. intros H. pose proof (left_pos s π H). lia. Qed.
Lemma left_then_next π : (left (next π) ≤ left π)%nat.
Proof. unfold ParseWp.left. cbn. apply left_next. Qed.

Lemma wpp_parseArgList π0 ts π (Q : list Expr → point → Prop) :
  upto π0 ts π → (left π0 ≤ S n)%nat → ts ≠ [] →
  (∀ es ts' π', upto π0 (ts ++ ts') π' → comma_list SpellsSpread ts' es → Q es π') →
  wpp (parseArgList G) Q (from π0) π.
Proof.
  intros Hu Hn Hne HQ.
  apply (wpp_while s (λ es π', ∃ ts', upto π0 (ts ++ ts') π' ∧ items SpellsSpread ts' es) (λ _, left));
    [exists []; rewrite app_nil_r; split; [done|constructor]|apply left_bound|].
  clear Hu π. intros es π (ts' & Hu & Hes). steps; kinds.
  1, 2: by eapply HQ, comma_end.
  eapply wpp_parseSpread; [done|done|by destruct ts|]. intros e ts2 π2 Hu2 _ Hl He. apply spread_spells in He. steps; kinds.
  - split; [|apply left_less; [done|]; pose proof (left_then_next π2); lia].
    exists (ts' ++ ts2 ++ [view π2]). split; [|by constructor]. apply upto_next in Hu2. by rewrite <- !app_assoc in Hu2.
  - eapply (HQ _ (ts' ++ ts2)); [by rewrite app_assoc|by constructor].
Qed.
End lists.

(** ** Templates, arrays and type arguments: what they consume *)

Section parts.
Context `{U : Unicode} {OP : Opaque} (s : string) {L : Languages} {E : Elsewhere} {EO : ElsewhereOk s}.
Context (n : nat) (G : Self) (HG : good_self s n G).
Abbreviation wpp := (wpp s).
Abbreviation upto := (upto s).
Abbreviation view := (view s).
Abbreviation left := (left s).

Lemma next_left π : Type_ (view π) ≠ EOF → (left (next π) < left π)%nat.
Proof.
  intros He. pose proof (left_pos s π He). pose proof (left_pred s (modes π) (place π)). unfold ParseWp.left in *. cbn in *. lia.
Qed.
Lemma raw_left π i j : (i < j)%nat → Type_ (raw s π (place π + i)) ≠ EOF →
  (left_at s (modes π) (place π + j) < left_at s (modes π) (place π + i))%nat.
Proof.
  intros Hj Ht. unfold raw in Ht. destruct (StreamFacts.reading s (modes π) (place π + i)) as [t st|t] eqn:Hr; [|done].
  apply left_step in Hr. eapply Nat.le_lt_trans; [apply (left_mono s _ (S (place π + i)))|done]. lia.
Qed.
Lemma round_left π π2 : (left π2 ≤ pred (left π))%nat → Type_ (view π2) ≠ EOF → (left (next π2) < left π)%nat.
Proof.
  intros H He. pose proof (next_left _ He). lia.
Qed.
Lemma upto_next_app π0 ts ts' π : upto π0 (ts ++ ts') π → upto π0 (ts ++ ts' ++ [view π]) (next π).
Proof. intros H. apply upto_next in H. by rewrite <- app_assoc in H. Qed.

Lemma wpp_parseTemplateRestRaw t raw π0 ts π (Q : list string * list string * list Expr → point → Prop) :
  upto π0 ts π → (left π0 ≤ S n)%nat → ts ≠ [] →
  (∀ qs rs es ts' π', upto π0 (ts ++ ts') π' → SpellsTemplate t ts' qs rs es → Q (qs, rs, es) π') →
  wpp (parseTemplateRestRaw G (Literal t) raw) Q (from π0) π.
Proof.
  intros Hu Hn Hne HQ.
  apply (wpp_while s (λ '(qs, rs, es) π', ∃ ts', upto π0 (ts ++ ts') π' ∧ SpellsMiddle t ts' qs rs es) (λ _, left));
    [exists []; rewrite app_nil_r; split; [done|constructor]|apply left_bound|].
  clear Hu π. intros [[qs rs] es] π (ts' & Hu & Hes). step.
  eapply wpp_again; [apply HG|done|done|by destruct ts|]. intros e ts2 π2 Hu2 _ He Hl. rewrite <- app_assoc in Hu2.
  apply upto_next_app in Hu2 as Hu3. steps; kinds.
  - split; [|apply round_left; [done|congruence]]. eexists. split; [by rewrite <- app_assoc in Hu3|]. by constructor.
  - eapply HQ; [by rewrite <- app_assoc in Hu3|]. by constructor.
  - by eapply upto_from.
Qed.

(** Types each followed by a comma, and one more. *)
Definition before_type (ts : list Token) (tas : list TypeAnnotation) : Prop :=
  (ts = [] ∧ tas = []) ∨ ∃ ts' c, ts = ts' ++ [c] ∧ Type_ c = COMMA ∧ separated LType ts' tas.
Lemma before_type_more ts tas ts' ta : before_type ts tas → LType ts' ta → separated LType (ts ++ ts') (tas ++ [ta]).
Proof.
  intros [[-> ->]|(ts0 & c & -> & Hc & H)] Hta; [by constructor|]. rewrite <- app_assoc. by constructor.
Qed.
Lemma wpp_type_arguments c π0 ts π (Q : list TypeAnnotation → point → Prop) :
  upto π0 ts π → (left π0 ≤ S n)%nat → ts ≠ [] →
  (∀ tas ts' g π', upto π0 (ts ++ ts' ++ [g]) π' → separated LType ts' tas → Type_ g = GT → Q tas π') →
  wpp (type_arguments G c) Q (from π0) π.
Proof.
  intros Hu Hn Hne HQ. unfold type_arguments. step.
  apply (wpp_while s (λ tas π', ∃ ts', upto π0 (ts ++ ts') π' ∧ before_type ts' tas) (λ _, left));
    [exists []; rewrite app_nil_r; split; [done|by left]|apply left_bound|].
  clear Hu π. intros tas π (ts' & Hu & Hes). step.
  eapply wpp_here; [by eapply parseTypeAnnotation_ok|done|done|]. intros ta ts2 π2 Hu2 _ Ht Hl. rewrite <- app_assoc in Hu2.
  pose proof (before_type_more _ _ _ _ Hes Ht) as Hsep. apply upto_next_app in Hu2 as Hu3. steps; kinds.
  - split; [|apply round_left; [done|congruence]]. eexists. split; [done|]. right. by eexists _, _.
  - by eapply HQ.
  - by eapply upto_from.
Qed.

Lemma wpp_expectPropertyName π0 ts π (Q : Token → point → Prop) :
  upto π0 ts π → (property_name (view π) → Q (view π) (next π)) → wpp expectPropertyName Q (from π0) π.
Proof.
  intros Hu HQ. unfold expectPropertyName. steps; kinds.
  - apply HQ. unfold property_name. rewrite !orb_true_iff in *. destruct_or!; kinds; tauto.
  - apply HQ. by left.
  - by eapply upto_from.
Qed.

(** What a production consumes from a point on. *)
Abbreviation reads m k π := (wpp m (λ e π', ∃ ts, upto π ts π' ∧ ts ≠ [] ∧ Spells k ts e) (from π) π).

Definition array_so_far (π0 : point) (o : Token) (x : list Expr * bool) (π : point) : Prop :=
  ∃ ts b, upto π0 (o :: ts) π ∧ SpellsElements ts x.1 b ∧ x.2 = b && kind_is (view π) RBRACKET.
Lemma elements_more ts es b k ts' e c :
  SpellsElements ts es b → spread_form k ts' e → Type_ c = COMMA → SpellsElements (ts ++ ts' ++ [c]) (es ++ [e]) k.
Proof.
  destruct k; [|intros; by eapply elements_item]. intros Hes (t & ts2 & e' & i & -> & ? & ? & ->) Hc.
  by apply (elements_spread _ _ _ t ts2 e' c i Hes).
Qed.
Lemma reads_array π : (left π ≤ S n)%nat → Type_ (view π) = LBRACKET → reads (parseArrayLiteral G) 17%nat π.
Proof.
  intros Hn Ho. pose proof (upto_next s _ _ _ (upto_refl s π)) as Hu0. cbn [app] in Hu0. unfold parseArrayLiteral. do 2 step.
  set (o := view π) in *. clearbody o. step.
  apply (wpp_while s (array_so_far π o) (λ _, left));
    [exists [], false; split; [done|]; split; [constructor|done]|apply left_bound|].
  intros [es b0] π1 (ts & b & Hu & Hes & Hb). cbn in Hes, Hb. steps; kinds; try (by eapply upto_from).
  - exists ((o :: ts) ++ [view π1]). split; [by apply upto_next|]. split; [done|]. cbn. rewrite Hb, andb_true_r. by apply spells_array.
  - congruence.
  - split; [|apply next_left; congruence].
    exists (ts ++ [view π1]), false. split; [by apply upto_next in Hu|]. split; [by eapply elements_hole|]. by rewrite Hb, andb_false_r.
  - rewrite andb_false_r in Hb. subst b0. eapply wpp_parseSpread; [done..|]. intros e ts2 π2 Hu2 _ Hl He.
    apply upto_next in Hu2 as Hu3. rewrite <- !app_assoc in Hu3. cbn [app] in Hu3.
    assert (∀ i, Type_ (view π2) = RBRACKET → ∃ ts, upto π ts (next π2) ∧ ts ≠ [] ∧
      Spells 17 ts (mkExpr i (posOf o) (ArrayLiteral (es ++ [e]) false))) as Hend.
    { intros i Hc. eexists. split; [exact Hu3|]. split; [discriminate|]. eapply spells_array_last; [done|done| |done].
      by eapply spread_spells. }
    steps; kinds; try done; try (by apply Hend); try (by eapply upto_from).
    all: split; [|apply round_left; [done|congruence]]; eexists _, _; (split; [exact Hu3|]);
      (split; [by eapply elements_more|]).
    + cbn. by rewrite raw_kind, Nat.add_1_r.
    + done.
Qed.

Lemma reads_template π : (left π ≤ S n)%nat → Type_ (view π) = TEMPLATE_HEAD → reads (parseTemplateLiteral G) 17%nat π.
Proof.
  intros Hn Ho. pose proof (upto_next s _ _ _ (upto_refl s π)) as Hu. cbn [app] in Hu. unfold parseTemplateLiteral. do 3 step.
  eapply wpp_parseTemplateRestRaw; [done..|]. intros qs rs es ts π' Hu' He. steps.
  eexists. split; [exact Hu'|]. split; [done|]. by eapply spells_template.
Qed.

(** ** [new] *)

Lemma wpp_newTargetIsExpression (Q : bool → point → Prop) X π : (∀ b, Q b π) → wpp newTargetIsExpression Q X π.
Proof.
  intros HQ. unfold newTargetIsExpression. steps; [apply HQ|].
  apply (wpp_while s (λ _ π', π' = π) (λ i π', left_at s (modes π') (place π' + i))); [done|apply left_bound|].
  intros i π' ->. steps; kinds; try apply HQ. destruct (kind_is _ IDENT); [|apply HQ]. split; [done|].
  apply raw_left; [lia|congruence].
Qed.

Lemma wpp_parseNewTail name pos qualified path callee π0 ts π (Q : Expr → point → Prop) :
  upto π0 ts π → (left π0 ≤ S n)%nat → ts ≠ [] →
  (∀ tas args ts1 ts2 i π', upto π0 (ts ++ ts1 ++ ts2) π' → introduced_types ts1 tas → new_args ts2 args →
     Q (mkExpr i pos (NewExpression name qualified (default "" (last path)) path tas callee args)) π') →
  wpp (parseNewTail G name pos qualified path callee) Q (from π0) π.
Proof.
  intros Hu Hn Hne HQ. unfold parseNewTail.
  assert (∀ tas ts1 π1, upto π0 (ts ++ ts1) π1 → introduced_types ts1 tas → wpp (
    paren ← match_ [LPAREN];
    args ← (if paren : bool then args ← parseArgList G; expect RPAREN ≫= λ _, mret args else mret []);
    make pos (NewExpression name qualified (default "" (last path)) path tas callee args)) Q (from π0) π1) as Hargs.
  { intros tas ts1 π1 Hu1 Ht. step; steps; kinds.
    - eapply wpp_parseArgList; [done|by apply upto_next|done|by destruct ts, ts1|]. intros es ts2 π2 Hu2 Hes.
      apply upto_next in Hu2 as Hu3. steps; kinds; [|by eapply upto_from].
      eapply (HQ _ _ ts1); [|done|by eapply new_args_some]. rewrite <- !app_assoc in Hu3. done.
    - eapply (HQ _ _ ts1 []); [by rewrite app_nil_r|done|constructor]. }
  do 2 (step; cbv beta). destruct (kind_is (view π) LT) eqn:Hlt; kinds; step; cbv beta.
  - steps. eapply wpp_type_arguments; [by apply upto_next|done|by destruct ts|]. intros tas ts1 g π1 Hu1 Hs Hg. do 3 (step; cbv beta).
    eapply Hargs; [rewrite <- app_assoc in Hu1; exact Hu1|]. constructor. by eexists _, _, _.
  - step. eapply (Hargs _ []); [by rewrite app_nil_r|constructor].
Qed.

Lemma reads_new_of t ts0 π0 π : (left π0 ≤ S n)%nat → Type_ t = NEW → ts0 = [t] → upto π0 ts0 π →
  wpp (parseNewOfExpression G (posOf t)) (λ e π', ∃ ts, upto π0 ts π' ∧ ts ≠ [] ∧ Spells 17 ts e) (from π0) π.
Proof.
  intros Hn Ht -> Hu. unfold parseNewOfExpression. step.
  eapply wpp_again; [apply HG|done..|]. intros callee us π1 Hu1 _ Hc _. step.
  apply (wpp_while s (λ e π', ∃ us, upto π0 (t :: us) π' ∧ SpellsCallee us e) (λ _, left));
    [exists us; split; [done|by constructor]|apply left_bound|].
  clear π1 Hu Hu1 us Hc callee. intros callee π1 (us & Hu1 & Hc). steps; kinds.
  - eapply wpp_expectPropertyName; [by apply upto_next|]. intros Hp. steps.
    apply upto_next in Hu1 as Hu2. apply upto_next in Hu2. split.
    + eexists. split; [rewrite <- app_assoc in Hu2; exact Hu2|]. by eapply callee_member.
    + eapply Nat.le_lt_trans; [apply left_then_next|]. apply next_left. congruence.
  - apply upto_next in Hu1 as Hu2. eapply wpp_again; [apply HG|exact Hu2|done|done|]. intros x ts2 π2 Hu3 _ Hx Hl.
    apply upto_next in Hu3 as Hu4. steps; kinds; [|by eapply upto_from].
    split; [|apply round_left; [|congruence]; pose proof (left_then_next s π1); lia].
    eexists. split; [rewrite <- !app_assoc in Hu4; exact Hu4|]. by eapply callee_index.
  - eapply wpp_parseNewTail; [done..|]. intros tas args ts1 ts2 i π2 Hu2 Hts Hargs. eexists. split; [exact Hu2|].
    split; [done|]. by eapply spells_new_of.
Qed.

(** The token shown at a place, if that is no [yield] or [await]. *)
Lemma view_at π i ty : Type_ (raw s π (place π + i)) = ty → ty ≠ YIELD → ty ≠ AWAIT →
  view (set_place (i + place π) π) = raw s π (place π + i).
Proof.
  intros H H1 H2. rewrite (Nat.add_comm (place π) i) in H |- *.
  refine (view_raw s (set_place (i + place π) π) _ _); intros He; [apply H1|apply H2]; rewrite <- H; exact He.
Qed.
Lemma wpp_new_path π0 ts π (Q : list string → point → Prop) X :
  upto π0 ts π → Type_ (view π) = IDENT →
  (∀ path ps π', upto π0 (ts ++ ps) π' → dotted ps path → Type_ (view π') = IDENT → Q path π') → wpp new_path Q X π.
Proof.
  intros Hu Hi HQ. unfold new_path.
  apply (wpp_while s (λ path π', ∃ ps, upto π0 (ts ++ ps) π' ∧ dotted ps path ∧ Type_ (view π') = IDENT) (λ _, left));
    [exists []; rewrite app_nil_r; split_and!; [exact Hu|constructor|exact Hi]|apply left_bound|].
  clear π Hu Hi. intros path π (ps & Hu & Hp & Hi). steps; kinds; try (by eapply HQ).
  match goal with H : Type_ (raw s π (place π + 1)) = _, H' : Type_ (raw s π (place π + 2)) = _ |- _ =>
    pose proof (view_at π 1 _ H ltac:(done) ltac:(done)) as Hd; pose proof (view_at π 2 _ H' ltac:(done) ltac:(done)) as Hx;
    rewrite <- Hd in H; rewrite <- Hx in H' end.
  apply upto_next in Hu as Hu2. apply upto_next in Hu2. split.
  - eexists. split_and!; [rewrite <- !app_assoc in Hu2; exact Hu2| |done]. by apply dotted_snoc.
  - eapply Nat.le_lt_trans; [apply left_then_next|]. apply next_left. congruence.
Qed.
Lemma reads_new π : (left π ≤ S n)%nat → Type_ (view π) = NEW → reads (parseNew G) 17%nat π.
Proof.
  intros Hn Ht. pose proof (upto_next s _ _ _ (upto_refl s π)) as Hu. cbn [app] in Hu. unfold parseNew. do 2 step.
  set (t := view π) in *. clearbody t. do 2 step. cbv beta. set (π1 := next π) in *. clearbody π1.
  assert (wpp (new_constructor G (posOf t) (view π1)) (λ e π', ∃ ts, upto π ts π' ∧ ts ≠ [] ∧ Spells 17 ts e) (from π) π1) as Hrest.
  { unfold new_constructor. step. apply wpp_newTargetIsExpression. intros b. step; [by eapply reads_new_of|].
    steps; kinds; [by eapply upto_from|]. eapply wpp_new_path; [done..|]. intros path ps π2 Hu2 Hp Hx. steps.
    apply upto_next in Hu2 as Hu3. eapply wpp_parseNewTail; [done..|]. intros tas args ts1 ts2 i π3 Hu4 Hts Hargs.
    eexists. split; [exact Hu4|]. split; [done|]. rewrite <- !app_assoc. cbn [app]. by eapply spells_new. }
  step. destruct (kind_is (view π1) DOT) eqn:Hd; step; cbv beta; [|done]. cbn [andb].
  destruct (is_word _ _) eqn:Hw; [|done]. kinds.
  pose proof (view_at π1 1 _ (is_word_ident _ _ Hw) ltac:(done) ltac:(done)) as Hx. rewrite <- Hx in Hw.
  apply upto_next in Hu as Hu2. apply upto_next in Hu2. steps. eexists. split; [exact Hu2|]. split; [done|].
  by apply spells_new_target.
Qed.
End parts.
