(* ===== verification/ParseMembers.v ===== *)
(** * Patterns and object literals: what they consume

    What a part of a production promises ([part]) and how it is called; then the
    destructuring patterns and the object literals. *)

From S2P Require Import Prelude GoString Diag Token Lexer LexerFacts LexerPos Stream StreamFacts Expr.
From S2P Require Import ParsePrimary ParseExpr Grammar ParseWp ParseRules ParseLists.
Open Scope Z_scope.

Section members.
Context `{U : Unicode} {OP : Opaque} (s : string) {L : Languages} {E : Elsewhere} {EO : ElsewhereOk s}.
Context (n : nat) (G : Self) (HG : good_self s n G).
Abbreviation wpp := (wpp s).
Abbreviation upto := (upto s).
Abbreviation view := (view s).
Abbreviation left := (left s).

(** A part that consumes what [P] says, perhaps nothing. *)
Definition part {A} (m : PM A) (P : list Token → A → Prop) (π : point) : Prop :=
  wpp m (λ a π', ∃ ts, upto π ts π' ∧ P ts a) (from π) π.
Lemma wpp_part_left {A} (m : PM A) P π0 ts (Q : A → point → Prop) π :
  part m P π → upto π0 ts π →
  (∀ a ts' π', upto π0 (ts ++ ts') π' → (ts' ≠ [] → (left π' ≤ pred (left π))%nat) → P ts' a → Q a π') → wpp m Q (from π0) π.
Proof.
  intros Hm Hu HQ. eapply wpp_mono; [exact Hm| |].
  - intros a π' (ts' & Hu' & HP). eapply HQ; [by eapply upto_trans|by eapply upto_left|done].
  - intros π' Hf. eapply from_trans; [by eapply upto_from|done].
Qed.
Lemma wpp_part {A} (m : PM A) P π0 ts (Q : A → point → Prop) π :
  part m P π → upto π0 ts π → (∀ a ts' π', upto π0 (ts ++ ts') π' → P ts' a → Q a π') → wpp m Q (from π0) π.
Proof. intros Hm Hu HQ. eapply wpp_part_left; [done..|]. eauto. Qed.
(** A production called where one token less is left. *)
Lemma good_part {A} k (m : PM A) La π : good s k m La → (left π ≤ k)%nat → part m (λ ts a, ts ≠ [] ∧ La ts a) π.
Proof. intros Hm Hn. by apply Hm. Qed.
Lemma wpp_inner {A} k (m : PM A) La π0 ts (Q : A → point → Prop) π :
  good s k m La → (n ≤ k)%nat → (left π0 ≤ n)%nat → upto π0 ts π →
  (∀ a ts' π', upto π0 (ts ++ ts') π' → La ts' a → Q a π') → wpp m Q (from π0) π.
Proof.
  intros Hm Hk Hn Hu HQ. eapply wpp_part; [eapply good_part; [exact Hm|]|exact Hu|].
  - pose proof (upto_le s _ _ _ Hu). lia.
  - intros a ts' π' Hu' [_ H]. by eapply HQ.
Qed.

Lemma part_perhaps typ π : part (match_ [typ]) (perhaps typ) π.
Proof.
  pose proof (upto_refl s π) as Hu. unfold part. steps; kinds.
  - exists [view π]. split; [by apply (upto_next s _ [])|by constructor].
  - exists []. split; [done|constructor].
Qed.

Lemma upto_one π : upto π [view π] (next π).
Proof. apply (upto_next s π []), upto_refl. Qed.
Lemma next_le k π : (left π ≤ S k)%nat → (left (next π) ≤ k)%nat.
Proof. pose proof (left_pred s (modes π) (place π)). unfold ParseWp.left in *. cbn in *. lia. Qed.

(** ** Patterns *)

Section patterns.
Context (m : nat) (Hm : (m ≤ n)%nat) (array : PM (list ArrayPatternElem)) (object : PM (list DestructProp)).
(** What begins at the token that is there. *)
Definition from_here {A} (La : list Token → A → Prop) (π : point) (ts : list Token) (a : A) : Prop :=
  ∃ ts', ts = view π :: ts' ∧ La ts a.
Context (Harray : ∀ π, (left π ≤ m)%nat → Type_ (view π) = LBRACKET → part array (from_here SpellsArrayPattern π) π).
Context (Hobject : ∀ π, (left π ≤ m)%nat → Type_ (view π) = LBRACE → part object (from_here SpellsObjectPattern π) π).

Lemma part_initializer π : (left π ≤ m)%nat → part (initializer G) (introduced (Spells 0) ASSIGN) π.
Proof.
  intros Hn. unfold part, initializer. pose proof (upto_refl s π) as Hu. steps; kinds.
  - eapply wpp_inner; [apply HG|lia| |by apply upto_next|]; [lia|]. intros e ts π' Hu' He. steps.
    eexists. split; [exact Hu'|]. by constructor.
  - exists []. split; [done|constructor].
Qed.
Definition is_sub (t : Token) (ts : list Token) (r : option (list ArrayPatternElem) * option (list DestructProp)) : Prop :=
  ∃ ts', ts = t :: ts' ∧ SpellsSub t ts' r.1 r.2.
Lemma part_sub π : (left π ≤ m)%nat → Type_ (view π) ∈ [LBRACKET; LBRACE] → part (sub_pattern array object) (is_sub (view π)) π.
Proof.
  intros Hn Ht. unfold part, sub_pattern. steps; kinds.
  - eapply wpp_part; [by apply Harray|apply upto_refl|]. intros a ts π' Hu (ts' & -> & Ha). steps.
    eexists. split; [exact Hu|]. eexists. split; [done|]. by apply sub_array.
  - assert (Type_ (view π) = LBRACE) as Hb by (apply elem_of_cons in Ht as [?|?%list_elem_of_singleton]; congruence).
    eapply wpp_part; [by apply Hobject|apply upto_refl|]. intros o ts π' Hu (ts' & -> & Ho). steps.
    eexists. split; [exact Hu|]. eexists. split; [done|]. by apply sub_object.
Qed.
Definition nested_elem (t : Token) (ts : list Token) (e : ArrayPatternElem) : Prop :=
  ∃ ts1 ts2 a o d, ts = t :: ts1 ++ ts2 ∧ SpellsSub t ts1 a o ∧ introduced (Spells 0) ASSIGN ts2 d ∧ e = mkElem "" (posOf t) d false a o.
Lemma part_nested π : (left π ≤ m)%nat → Type_ (view π) ∈ [LBRACKET; LBRACE] →
  part (parseNestedPatternElem G array object) (nested_elem (view π)) π.
Proof.
  intros Hn Ht. unfold part, parseNestedPatternElem. do 3 step.
  eapply wpp_part; [by apply part_sub|apply upto_refl|]. intros [a o] ts π1 Hu1 (ts1 & -> & Hs). pose proof (upto_le s _ _ _ Hu1). step.
  eapply wpp_part; [apply part_initializer; lia|exact Hu1|]. intros d ts2 π2 Hu2 Hd. step.
  eexists. split; [exact Hu2|]. by exists ts1, ts2, a, o, d.
Qed.
Definition one_last (t : Token) (ts : list Token) (e : ArrayPatternElem) : Prop := SpellsLast (t :: ts) [e].
Lemma part_array_rest t π : (left π ≤ m)%nat → Type_ t = ELLIPSIS → part (array_rest G array object) (one_last t) π.
Proof.
  intros Hn Ht. unfold part, array_rest. steps; kinds.
  - eapply wpp_part; [by apply part_nested|apply upto_refl|]. intros e ts π' Hu (ts1 & ts2 & a & o & d & -> & Hs & Hd & ->).
    destruct d; [apply wpp_throw; by eapply upto_from|]. step. eexists. split; [exact Hu|]. inversion Hd; subst. rewrite app_nil_r.
    by apply last_rest_nested.
  - exists [view π]. split; [apply upto_one|]. by apply last_rest_name.
  - apply from_refl.
Qed.
Lemma part_array_element π : (left π ≤ m)%nat → part (array_element G array object) (λ ts e, ts ≠ [] ∧ SpellsElem ts e) π.
Proof.
  intros Hn. unfold part, array_element. steps; kinds.
  - eapply wpp_mono; [by apply part_nested| |done]. intros e π' (ts & Hu & ts1 & ts2 & a & o & d & -> & Hs & Hd & ->).
    eexists. split; [exact Hu|]. split; [done|]. by apply elem_nested.
  - eapply wpp_part; [apply part_initializer|apply upto_one|]; [pose proof (left_then_next s π); lia|].
    intros d ts π' Hu Hd. steps. eexists. split; [exact Hu|]. split; [done|]. by apply elem_name_.
  - apply from_refl.
Qed.

Definition elems_so_far (π0 : point) (o : Token) (es : list ArrayPatternElem) (π : point) : Prop :=
  ∃ ts, upto π0 (o :: ts) π ∧ SpellsElems ts es ∧ (left π ≤ m)%nat.
(** After the loop: all but the closing bracket. *)
Definition elems_read (π0 : point) (o : Token) (es : list ArrayPatternElem) (π : point) : Prop :=
  ∃ ts ts' es' last, upto π0 (o :: ts ++ ts') π ∧ SpellsElems ts es' ∧ SpellsLast ts' last ∧ es = es' ++ last.
Lemma elems_end π0 o ts es ts' last π :
  upto π0 (o :: ts) π → SpellsElems ts es → SpellsLast ts' last → upto π0 (o :: ts ++ ts') π → elems_read π0 o (es ++ last) π.
Proof. intros _ He Hl Hu. by exists ts, ts', es, last. Qed.
Lemma array_pattern_at π : (left π ≤ S m)%nat → Type_ (view π) = LBRACKET →
  part (array_pattern G array object) (from_here SpellsArrayPattern π) π.
Proof.
  intros Hn Ho. unfold part, array_pattern. do 2 step. pose proof (upto_one π) as Hu0. pose proof (next_le m π Hn) as Hl0.
  set (o := view π) in *. step.
  apply (wpp_while s (elems_so_far π o) (λ _, left)); [exists []; split_and!; [done|constructor|done]|apply left_bound|].
  intros es π1 (ts & Hu & Hes & Hl). assert (∀ es π2, elems_read π o es π2 → wpp (expect RBRACKET ≫= λ _, mret es)
    (λ es π', ∃ ts, upto π ts π' ∧ from_here SpellsArrayPattern π ts es) (from π) π2) as Hend.
  { intros es2 π2 (ts2 & ts3 & es3 & last & Hu2 & He & Hlast & ->). steps; kinds; [|by eapply upto_from].
    apply upto_next in Hu2. cbn [app] in Hu2. rewrite <- app_assoc in Hu2.
    eexists. split; [exact Hu2|]. eexists. split; [done|]. by apply array_pattern_. }
  step. step. step; kinds; [step|step; [|step]]; kinds.
  - apply Hend. exists ts, [], es, []. rewrite !app_nil_r. by split_and!; [|done|constructor|].
  - apply upto_next in Hu as Hu1. step. step. step. pose proof (left_then_next s π1).
    eapply wpp_part; [by apply (part_array_rest (view π1)); [lia|]|exact Hu1|]. intros e us π2 Hu2 Hone. step. apply Hend.
    exists ts, (view π1 :: us), es, [e]. rewrite <- app_assoc in Hu2. by split_and!.
  - apply upto_next in Hu as Hu1. steps. pose proof (left_then_next s π1). split; [|apply next_left; congruence].
    exists (ts ++ [view π1]). split_and!; [done|by constructor|lia].
  - step. eapply wpp_part_left; [by apply part_array_element|exact Hu|]. intros e us π2 Hu2 Hl2 [Hne He].
    pose proof (upto_le s _ _ _ Hu). specialize (Hl2 Hne). step. step. destruct (kind_is (view π2) COMMA) eqn:Hc; kinds; step.
    + apply upto_next in Hu2 as Hu3. rewrite <- !app_assoc in Hu3. pose proof (left_then_next s π2). split; [|apply round_left; [done|congruence]].
      exists (ts ++ us ++ [view π2]). split_and!; [done|by constructor|lia].
    + apply Hend. exists ts, us, es, [e]. split_and!; [done|done|by constructor|done].
Qed.

Definition target (ts : list Token) (r : Token * option (list ArrayPatternElem) * option (list DestructProp)) : Prop :=
  ∃ ts', ts = r.1.1 :: ts' ∧ SpellsTarget r.1.1 ts' r.1.2 r.2.
Lemma part_target π : (left π ≤ m)%nat → part (pattern_target array object) target π.
Proof.
  intros Hn. unfold part, pattern_target. do 3 step; kinds.
  - step. eapply wpp_part; [by apply part_sub|apply upto_refl|]. intros [a o] ts π' Hu (ts' & -> & Hs). step.
    eexists. split; [exact Hu|]. eexists. split; [done|]. by apply target_nested.
  - steps; kinds; [|apply from_refl]. exists [view π]. split; [apply upto_one|]. exists []. split; [done|]. by apply target_name.
Qed.
Lemma part_object_rest π : part object_rest (λ ts p, ∃ x, ts = [x] ∧ Type_ x = IDENT
  ∧ p = mkProp "" None (Literal x) (posOf x) None None None true) π.
Proof.
  pose proof (upto_one π) as Hu. unfold part, object_rest. steps; kinds; [|by eapply upto_from|apply from_refl].
  exists [view π]. split; [done|]. by exists (view π).
Qed.
Lemma part_computed_key π : (left π ≤ m)%nat → part (computed_key G) (λ ts r, SpellsKey ts r.1 r.2) π.
Proof.
  intros Hn. unfold part, computed_key. do 3 step.
  assert (wpp (self_assignment G) (λ e π', wpp (mret (""%string, Some e)) (λ r π', ∃ ts, upto π ts π' ∧ SpellsKey ts r.1 r.2) (from π) π')
    (from π) π) as He.
  { eapply wpp_part; [eapply good_part; [apply HG|lia]|apply upto_refl|]. intros e ts π' Hu [_ He]. step.
    exists ts. split; [done|]. by apply key_computed. }
  step; kinds; steps; kinds; try done. exists [view π]. split; [apply upto_one|]. by apply key_literal.
Qed.
Lemma part_computed_prop π : (left π ≤ S m)%nat → Type_ (view π) = LBRACKET → part (computed_prop G array object) SpellsProp π.
Proof.
  intros Hn Ho. unfold part, computed_prop. do 2 step. pose proof (upto_one π) as Hu0. pose proof (next_le m π Hn) as Hl0.
  set (o := view π) in *. step.
  eapply wpp_part; [by apply part_computed_key|exact Hu0|]. intros [key ke] ts π1 Hu1 Hk. pose proof (upto_le s _ _ _ Hu1).
  step. step. step; [|by eapply upto_from]. kinds. apply upto_next in Hu1 as Hu2.
  step. step. step; kinds; [|steps; by eapply upto_from].
  apply upto_next in Hu2 as Hu3. step.
  eapply wpp_part; [apply part_target|exact Hu3|]; [pose proof (upto_left s _ _ _ Hu3 ltac:(done)); lia|].
  intros [[u a] obj] ts' π2 Hu4 (us & -> & Ht). cbn [fst snd] in *. pose proof (upto_left s _ _ _ Hu4 ltac:(done)). step.
  eapply wpp_part; [apply part_initializer; lia|exact Hu4|]. intros d ts'' π3 Hu5 Hd. step.
  eexists. split; [exact Hu5|]. cbn [app]. rewrite <- !app_assoc. cbn [app]. by apply prop_computed.
Qed.
Lemma part_keyed_prop π : (left π ≤ S m)%nat → part (keyed_prop G array object) SpellsProp π.
Proof.
  intros Hn. unfold part, keyed_prop. do 3 step; [by step; apply from_refl|]. kinds. pose proof (upto_one π) as Hu0.
  pose proof (next_le m π Hn) as Hl0. set (k := view π) in *. step. step. step. step. set (π1 := next π) in *. clearbody π1.
  step. step; kinds.
  - apply upto_next in Hu0 as Hu1. step. step. pose proof (left_then_next s π1).
    eapply wpp_part; [apply part_target; lia|exact Hu1|]. intros [[u a] obj] ts' π2 Hu4 (us & -> & Ht). cbn [fst snd] in *.
    pose proof (upto_left s _ _ _ Hu4 ltac:(done)). step.
    eapply wpp_part; [apply part_initializer; lia|exact Hu4|]. intros d ts'' π3 Hu5 Hd. step.
    eexists. split; [exact Hu5|]. cbn [app]. by apply prop_keyed.
  - step; [steps; by eapply upto_from|]. kinds. step. step.
    eapply wpp_part; [by apply part_initializer|exact Hu0|]. intros d ts π2 Hu2 Hd. step.
    eexists. split; [exact Hu2|]. by apply prop_shorthand.
Qed.

Definition props_read (π0 : point) (o : Token) (ps : list DestructProp) (π : point) : Prop :=
  ∃ ts, upto π0 (o :: ts) π ∧ (comma_list SpellsProp ts ps
    ∨ ∃ ts' ps' e x, ts = ts' ++ [e; x] ∧ items SpellsProp ts' ps' ∧ Type_ e = ELLIPSIS ∧ Type_ x = IDENT
      ∧ ps = ps' ++ [mkProp "" None (Literal x) (posOf x) None None None true]).
Lemma object_pattern_at π : (left π ≤ S m)%nat → Type_ (view π) = LBRACE →
  part (object_pattern G array object) (from_here SpellsObjectPattern π) π.
Proof.
  intros Hn Ho. unfold part, object_pattern. do 2 step. pose proof (upto_one π) as Hu0. pose proof (next_le m π Hn) as Hl0.
  set (o := view π) in *. step.
  apply (wpp_while s (λ ps π', ∃ ts, upto π (o :: ts) π' ∧ items SpellsProp ts ps) (λ _, left));
    [exists []; split; [done|constructor]|apply left_bound|].
  intros ps π1 (ts & Hu & Hps). assert (∀ ps π2, props_read π o ps π2 → wpp (expect RBRACE ≫= λ _, mret ps)
    (λ ps π', ∃ ts, upto π ts π' ∧ from_here SpellsObjectPattern π ts ps) (from π) π2) as Hend.
  { intros ps2 π2 (ts2 & Hu2 & Hread). steps; kinds; [|by eapply upto_from]. apply upto_next in Hu2. cbn [app] in Hu2.
    eexists. split; [exact Hu2|]. eexists. split; [done|].
    destruct Hread as [Hc|(ts' & ps' & e & x & -> & Hi & He & Hx & ->)]; [by apply object_pattern_|].
    rewrite <- app_assoc. by apply object_pattern_rest. }
  pose proof (upto_left s _ _ _ Hu ltac:(done)) as Hl. step. step. step; kinds; [step|step; [|step]]; kinds.
  - apply Hend. exists ts. split; [done|]. left. by constructor.
  - apply upto_next in Hu as Hu1. step. step. step.
    eapply wpp_part; [apply part_object_rest|exact Hu1|]. intros p us π2 Hu2 (x & -> & Hx & ->). step. apply Hend.
    exists (ts ++ [view π1; x]). split; [by rewrite <- app_assoc in Hu2|]. right. by exists ts, ps, (view π1), x.
  - assert (part (if kind_is (view π1) LBRACKET then computed_prop G array object else keyed_prop G array object)
      (λ ts p, ts ≠ [] ∧ SpellsProp ts p) π1) as Hpart.
    { destruct (kind_is (view π1) LBRACKET) eqn:Hb; kinds; (eapply wpp_mono; [by first [apply part_computed_prop; [lia|]|apply part_keyed_prop; lia]| |done]);
        intros p π2 (us & Hu2 & Hp); (exists us; split_and!; [done|by inversion Hp|done]). }
    eapply wpp_part_left; [exact Hpart|exact Hu|]. intros p us π2 Hu2 Hl2 [Hne Hp]. specialize (Hl2 Hne).
    step. step. destruct (kind_is (view π2) COMMA) eqn:Hc; kinds; step.
    + apply upto_next in Hu2 as Hu3. rewrite <- !app_assoc in Hu3. split; [|apply round_left; [done|congruence]].
      exists (ts ++ us ++ [view π2]). split; [done|by constructor].
    + apply Hend. exists (ts ++ us). split; [done|]. left. by constructor.
Qed.
End patterns.

(** Patterns nest once for each token at most. *)
Lemma patterns_at k π : (left π < k)%nat → (left π ≤ S n)%nat →
  (Type_ (view π) = LBRACKET → part (patterns G k).1 (from_here SpellsArrayPattern π) π)
  ∧ (Type_ (view π) = LBRACE → part (patterns G k).2 (from_here SpellsObjectPattern π) π).
Proof.
  revert π. induction k as [|k IH]; intros π Hk Hn; [lia|]. cbn [patterns fst snd].
  split; intros Ht; (assert (0 < left π)%nat by (apply (left_pos s); congruence));
    [apply (array_pattern_at (pred (left π)))|apply (object_pattern_at (pred (left π)))]; try lia; try done;
    intros π' Hl Ht'; by apply IH; try lia.
Qed.
Lemma part_rounds {A} (m : nat → PM A) P π :
  (∀ k, (left π < k)%nat → part (m k) P π) → part (k ← rounds; m k) P π.
Proof.
  intros H. unfold part, rounds. apply wpp_bind, wpp_gets. intros p [[Hl _] _ _ _ _ _ _]. rewrite (ready_src _ _ (lined_ready _ _ _ Hl)).
  apply H. unfold ParseWp.left. pose proof (left_bound s (modes π) (place π)). lia.
Qed.
Lemma part_parseArrayPatternElems π : (left π ≤ S n)%nat → Type_ (view π) = LBRACKET →
  part (parseArrayPatternElems G) (from_here SpellsArrayPattern π) π.
Proof. intros Hn Ht. apply part_rounds. intros k Hk. by apply patterns_at. Qed.
Lemma part_parseObjectPatternProps π : (left π ≤ S n)%nat → Type_ (view π) = LBRACE →
  part (parseObjectPatternProps G) (from_here SpellsObjectPattern π) π.
Proof. intros Hn Ht. apply part_rounds. intros k Hk. by apply patterns_at. Qed.

(** ** Object literals *)

Lemma wpp_newFuncExpr name fd a g pos (Q : Expr → point → Prop) X π :
  (∀ i src, Q (mkExpr i pos (FunctionExpression name (fn_name_pos fd) fd a g false src false)) π) → wpp (newFuncExpr name fd a g pos) Q X π.
Proof. intros HQ. unfold newFuncExpr. steps. apply HQ. Qed.
Definition method_of (a g : bool) (ts : list Token) (e : Expr) : Prop :=
  ∃ fd i pos src, LFunction "" a g ts fd
    ∧ e = mkExpr i pos (FunctionExpression "" (fn_name_pos (eraseTypeParams fd)) (eraseTypeParams fd) a g true src false).
Lemma part_object_method start a g π : (left π ≤ n)%nat → part (object_method G start a g) (method_of a g) π.
Proof.
  intros Hn. unfold part, object_method, newObjectMethod. do 3 step.
  eapply wpp_part; [eapply (good_part (S n)); [by eapply parseFunctionRest_ok|lia]|apply upto_refl|]. intros fd ts π' Hu [_ Hfd].
  step. apply wpp_newFuncExpr. intros i src. cbn. step. eexists. split; [exact Hu|]. by eexists fd, i, _, src.
Qed.
Lemma part_value π : (left π ≤ n)%nat → part (self_assignment G) (Spells 0) π.
Proof.
  intros Hn. eapply wpp_mono; [apply HG; lia| |done]. intros e π' (ts & Hu & _ & He). by exists ts.
Qed.
(** What is left after a token is read. *)
Lemma left_of π0 ts π : upto π0 ts π → (left π0 ≤ S n)%nat → ts ≠ [] → (left π ≤ n)%nat.
Proof. intros Hu Hn Hne. pose proof (upto_left s _ _ _ Hu Hne). lia. Qed.
(** The tokens from [o] on make a computed name. *)
Lemma wpp_computed_name o π0 ts π (Q : string * option Expr → point → Prop) :
  Type_ o = LBRACKET → upto π0 (ts ++ [o]) π → (left π0 ≤ S n)%nat →
  (∀ key ke ts' π', upto π0 (ts ++ o :: ts') π' → SpellsName (o :: ts') key ke → Q (key, ke) π') →
  wpp (computed_name G) Q (from π0) π.
Proof.
  intros Ho Hu Hn HQ. unfold computed_name. step.
  eapply wpp_part; [apply part_value, (left_of _ _ _ Hu Hn); by destruct ts|exact Hu|]. intros e ts1 π1 Hu1 He.
  step. step. step; [|by eapply upto_from]. kinds. step. apply upto_next in Hu1 as Hu2. rewrite <- !app_assoc in Hu2.
  destruct (wellKnownSymbolMemberName e) as [wk|] eqn:Hwk; (eapply HQ; [exact Hu2|]); [by eapply name_symbol|by apply name_computed].
Qed.

Lemma wpp_object_method start a g π0 ts π (Q : Expr → point → Prop) :
  upto π0 ts π → (left π0 ≤ S n)%nat → ts ≠ [] →
  (∀ fd i pos src ts' π', upto π0 (ts ++ ts') π' → LFunction "" a g ts' fd →
     Q (mkExpr i pos (FunctionExpression "" (fn_name_pos (eraseTypeParams fd)) (eraseTypeParams fd) a g true src false)) π') →
  wpp (object_method G start a g) Q (from π0) π.
Proof.
  intros Hu Hn Hne HQ. eapply wpp_part; [by apply part_object_method, (left_of _ _ _ Hu Hn)|exact Hu|].
  intros e ts' π' Hu' (fd & i & pos & src & Hfd & ->). by eapply HQ.
Qed.
Lemma wpp_value π0 ts π (Q : Expr → point → Prop) : upto π0 ts π → (left π0 ≤ S n)%nat → ts ≠ [] →
  (∀ e ts' π', upto π0 (ts ++ ts') π' → Spells 0 ts' e → Q e π') → wpp (self_assignment G) Q (from π0) π.
Proof. intros Hu Hn Hne HQ. by eapply wpp_part; [by apply part_value, (left_of _ _ _ Hu Hn)|exact Hu|]. Qed.

(** A member without dots. *)
Abbreviation member m π0 π := (wpp m (λ p π', ∃ ts, upto π0 ts π' ∧ ts ≠ [] ∧ SpellsProperty false ts p) (from π0) π).
Lemma member_computed start us a gs g π0 π :
  perhaps_word "async" us a → perhaps STAR gs g → upto π0 (us ++ gs) π → (left π0 ≤ S n)%nat → Type_ (view π) = LBRACKET →
  member (computed_member G start a g) π0 π.
Proof.
  intros Ha Hg Hu Hn Ho. unfold computed_member. step. step. apply upto_next in Hu as Hu1. step.
  eapply wpp_computed_name; [exact Ho|exact Hu1|done|]. intros key ke ts π1 Hu2 Hname.
  assert ((us ++ gs) ++ view π :: ts ≠ []) as Hne by (by destruct us, gs). step. step. step. step; kinds.
  - eapply wpp_object_method; [exact Hu2|done|done|]. intros fd i pos src ts' π2 Hu3 Hfd. step.
    eexists. split; [exact Hu3|]. split; [by destruct us, gs|]. rewrite <- !app_assoc. by apply property_method.
  - destruct a, g; try done. inversion Ha; inversion Hg; subst. cbn [app] in *.
    step. step. step; [|by eapply upto_from]. kinds. apply upto_next in Hu2 as Hu3.
    eapply wpp_value; [exact Hu3|done|done|]. intros e ts' π2 Hu4 He. step. rewrite <- app_assoc in Hu4.
    eexists. split; [exact Hu4|]. split; [done|]. cbn [app]. by eapply (property_value (view π :: ts)).
Qed.
Lemma member_accessor start π : is_word (view π) "get" || is_word (view π) "set" = true → objectMethodNameStart (view (next π)) = true →
  kind_is (view (next π)) STAR = false → (left π ≤ S n)%nat → member (accessor_member G start) π π.
Proof.
  intros Hw Hs Hstar Hn. unfold accessor_member. step. step. pose proof (upto_one π) as Hu. set (w := view π) in *. clearbody w.
  set (π1 := next π) in *. clearbody π1. step. step. step.
  assert (∀ key ke ts π2, upto π (w :: view π1 :: ts) π2 → SpellsName (view π1 :: ts) key ke →
    wpp (object_method G start false false ≫= λ fe, mret (mkProperty key ke (set_name_pos (posOf (view π1)) fe) (Literal w) false false))
      (λ p π', ∃ ts, upto π ts π' ∧ ts ≠ [] ∧ SpellsProperty false ts p) (from π) π2) as Hend.
  { intros key ke ts π2 Hu2 Hname. step. eapply wpp_object_method; [exact Hu2|done|done|]. intros fd i pos src ts' π3 Hu3 Hfd. step.
    eexists. split; [exact Hu3|]. split; [done|]. by apply property_accessor. }
  apply upto_next in Hu as Hu1. step; step; step; kinds.
  - eapply (wpp_computed_name (view π1) π [w]); [done|exact Hu1|done|]. intros key ke ts π2 Hu2 Hname. eapply Hend; [exact Hu2|exact Hname].
  - step. step. step. eapply Hend; [exact Hu1|]. apply name_word. unfold objectMethodNameStart in Hs.
    apply orb_true_iff in Hs as [Hs|Hs]; [done|]. kinds. apply elem_of_cons in Hs as [?|?%list_elem_of_singleton]; congruence.
Qed.
Lemma member_modified start us a gs g π0 π :
  perhaps_word "async" us a → perhaps STAR gs g → upto π0 (us ++ gs) π → (left π0 ≤ S n)%nat →
  member (modified_method G start a g) π0 π.
Proof.
  intros Ha Hg Hu Hn. unfold modified_method. step. step. apply upto_next in Hu as Hu1. step; [|by step; eapply upto_from].
  step. eapply wpp_object_method; [exact Hu1|done|by destruct us, gs|]. intros fd i pos src ts' π2 Hu3 Hfd. step.
  eexists. split; [exact Hu3|]. split; [by destruct us, gs|]. rewrite <- !app_assoc. apply property_method; try done. by apply name_word.
Qed.
Definition named_value (k : Token) (ts : list Token) (r : Expr * bool * bool) : Prop :=
  SpellsProperty false (k :: ts) (mkProperty (propertyKeyText k) None r.1.1 "" r.1.2 r.2).
Lemma wpp_member_value start k π0 π : property_word k = true → upto π0 [k] π → (left π0 ≤ S n)%nat →
  wpp (member_value G start k) (λ r π', ∃ ts, upto π0 (k :: ts) π' ∧ named_value k ts r) (from π0) π.
Proof.
  intros Hk Hu Hn. unfold member_value, named_value. step. step. step; kinds.
  - step. eapply wpp_object_method; [exact Hu|done|done|]. intros fd i pos src ts' π2 Hu3 Hfd. step.
    eexists. split; [exact Hu3|]. by apply (property_method [] false [] false [k]); [constructor|constructor|apply name_word|].
  - apply upto_next in Hu as Hu1. step; kinds; [|step; [by step; eapply upto_from|]; kinds; step; kinds].
    + step. step. step. eapply wpp_value; [exact Hu1|done|done|]. intros e ts' π2 Hu2 He. step.
      eexists. split; [exact Hu2|]. by apply (property_value [k]); [apply name_word|..].
    + step. step. step. eapply wpp_value; [exact Hu1|done|done|]. intros e ts' π2 Hu2 He. steps.
      eexists. split; [exact Hu2|]. unfold propertyKeyText, kind_is. rewrite Heqb1.
      by apply property_default.
    + steps. exists []. split; [exact Hu|]. unfold propertyKeyText, kind_is. rewrite Heqb1. by apply property_shorthand.
Qed.
Lemma member_plain start π : property_word (view π) = true → (left π ≤ S n)%nat → member (plain_member G start) π π.
Proof.
  intros Hk Hn. unfold plain_member. do 3 step.
  eapply wpp_mono; [by apply (wpp_member_value start (view π) π); [|apply upto_one|]| |done].
  intros [[val c] sh] π' (ts & Hu' & Hv). step. eexists. by split_and!; [exact Hu'| |].
Qed.
Lemma member_named start π : (left π ≤ S n)%nat → member (named_member G start) π π.
Proof.
  intros Hn. unfold named_member. pose proof (member_plain start π) as Hend. unfold property_word in Hend.
  steps; try apply from_refl; (apply Hend; [|done]); apply orb_true_iff; auto.
Qed.
Lemma wpp_async_method_ahead (Q : bool → point → Prop) X π :
  (∀ a, (a = true → is_word (view π) "async" = true) → Q a π) → wpp async_method_ahead Q X π.
Proof.
  intros HQ. unfold async_method_ahead, isWord, sameLine.
  change (tok_eqb (Type_ ?t) IDENT && bool_decide (Literal ?t = ?w)) with (is_word t w).
  do 3 step. destruct (is_word (raw _ _ _) _) eqn:Hw; [|by steps; apply HQ].
  rewrite Nat.add_0_r in Hw. rewrite <- (view_raw s π) in Hw; [|by intros He; apply is_word_ident in Hw; congruence..].
  steps; by apply HQ.
Qed.
Lemma name_start_next π t : t = raw s π (place π + 1) → objectMethodNameStart t = true → kind_is t STAR = false →
  objectMethodNameStart (view (next π)) = true ∧ kind_is (view (next π)) STAR = false.
Proof.
  rewrite Nat.add_1_r. intros -> Hs Hstar. destruct (view_cases s (next π)) as [->|[_ ->]]; [by split|done].
Qed.
Lemma part_object_member π : (left π ≤ S n)%nat → part (object_member G) (λ ts p, ts ≠ [] ∧ SpellsProperty false ts p) π.
Proof.
  intros Hn. unfold part, object_member. do 3 step. apply wpp_async_method_ahead. intros a Ha. step.
  assert (∀ us π1, perhaps_word "async" us a → upto π us π1 → wpp (isGen ← match_ [STAR];
    u ← peek;
    if kind_is u LBRACKET then computed_member G (TPos (view π)) a isGen
    else
      accessor ← (if a || isGen then mret false else accessor_ahead u);
      if (accessor : bool) then accessor_member G (TPos (view π))
      else if a || isGen then modified_method G (TPos (view π)) a isGen
      else named_member G (TPos (view π))) (λ p π', ∃ ts, upto π ts π' ∧ ts ≠ [] ∧ SpellsProperty false ts p) (from π) π1) as Hend.
  { intros us π1 Hus Hu. step. eapply wpp_part; [apply part_perhaps|exact Hu|]. intros g gs π2 Hu2 Hg. step. step.
    step; kinds; [by eapply member_computed|]. step. destruct (a || g) eqn:Hag; [step; by eapply member_modified|].
    apply orb_false_iff in Hag as [-> ->]. inversion Hus; inversion Hg; subst. cbn [app] in Hu2.
    assert (∀ m, member m π2 π2 → wpp m (λ p π', ∃ ts, upto π ts π' ∧ ts ≠ [] ∧ SpellsProperty false ts p) (from π) π2) as Hhere.
    { intros m Hm. eapply wpp_part; [exact Hm|exact Hu2|]. eauto. }
    pose proof (upto_le s _ _ _ Hu2). assert (left π2 ≤ S n)%nat by lia.
    unfold accessor_ahead. step; [|step; by apply Hhere, member_named]. step. step.
    destruct (objectMethodNameStart _) eqn:Hs; [|step; by apply Hhere, member_named]. cbn [andb].
    destruct (kind_is _ STAR) eqn:Hstar; [step; by apply Hhere, member_named|]. step. apply Hhere.
    destruct (name_start_next π2 _ eq_refl Hs Hstar) as [??]. by apply member_accessor. }
  destruct a; [|step; by apply (Hend []); [constructor|apply upto_refl]].
  do 3 step. eapply (Hend [view π]); [constructor; by apply Ha|apply upto_one].
Qed.
Lemma part_spread_member π : (left π ≤ S n)%nat → Type_ (view π) = ELLIPSIS →
  part (spread_member G) (λ ts p, ts ≠ [] ∧ SpellsProperty true ts p) π.
Proof.
  intros Hn Ht. unfold part, spread_member. do 3 step.
  eapply wpp_value; [apply upto_one|done|done|]. intros e ts π' Hu He. steps.
  eexists. split; [exact Hu|]. split; [done|]. by apply property_spread.
Qed.

Definition props_so_far (π0 : point) (o : Token) (x : list ObjectProperty * bool) (π : point) : Prop :=
  ∃ ts b, upto π0 (o :: ts) π ∧ SpellsProperties ts x.1 b ∧ x.2 = b && kind_is (view π) RBRACE.
Lemma part_parseObjectLiteral π : (left π ≤ S n)%nat → Type_ (view π) = LBRACE →
  part (parseObjectLiteral G) (λ ts e, ts ≠ [] ∧ Spells 17 ts e) π.
Proof.
  intros Hn Ho. unfold part, parseObjectLiteral. pose proof (upto_one π) as Hu0. do 2 step. set (o := view π) in *. clearbody o. step.
  apply (wpp_while s (props_so_far π o) (λ _, left));
    [exists [], false; split; [done|]; split; [constructor|done]|apply left_bound|].
  intros [ps b0] π1 (ts & b & Hu & Hps & Hb). cbn in Hps, Hb.
  pose proof (left_of _ _ _ Hu Hn ltac:(done)) as Hl. do 3 step; kinds.
  - step. step. step. step; [|by eapply upto_from]. kinds. step. apply upto_next in Hu. eexists. split; [exact Hu|].
    split; [done|]. cbn [fst snd]. rewrite Hb, andb_true_r. by apply spells_object.
  - assert (part (if kind_is (view π1) ELLIPSIS then spread_member G else object_member G)
      (λ ts p, ts ≠ [] ∧ SpellsProperty (kind_is (view π1) ELLIPSIS) ts p) π1) as Hpart.
    { destruct (kind_is (view π1) ELLIPSIS) eqn:He; kinds; [apply part_spread_member; [lia|done]|apply part_object_member; lia]. }
    step. eapply wpp_part_left; [exact Hpart|exact Hu|]. intros p us π2 Hu2 Hl2 [Hne Hp]. specialize (Hl2 Hne).
    apply upto_next in Hu2 as Hu3. rewrite <- !app_assoc in Hu3. cbn [app] in Hu3.
    assert (b0 = false) as ->.
    { rewrite Hb. apply andb_false_iff. right. apply not_true_iff_false. intros Hr%kind_is_eq.
      match goal with H : _ ∉ [RBRACE; EOF] |- _ => apply H; rewrite Hr; by left end. }
    step. step. step; kinds; [step|].
    + set (k := kind_is (view π1) ELLIPSIS) in *.
      assert (props_so_far π o (ps ++ [p], k && kind_is (view (next π2)) RBRACE) (next π2) ∧ (left (next π2) < left π1)%nat) as Hmore.
      { split; [|apply round_left; [done|congruence]]. exists (ts ++ us ++ [view π2]), k. split_and!; [done|by apply properties_snoc with b|done]. }
      destruct k; step; step; exact Hmore.
    + step. step. step. step; [|by eapply upto_from]. kinds. step. eexists. split; [exact Hu3|]. split; [done|].
      by apply spells_object_last with b (kind_is (view π1) ELLIPSIS).
Qed.
End members.
