(* ===== verification/ParseArrow.v ===== *)
(** * Arrow functions: what they consume *)

From S2P Require Import Prelude GoString Diag Token Lexer LexerFacts LexerPos Stream StreamFacts Expr.
From S2P Require Import ParsePrimary ParseExpr Grammar ParseWp ParseRules ParseLists ParseMembers.
Open Scope Z_scope.

Section arrows.
Context `{U : Unicode} {OP : Opaque} (s : string) {L : Languages} {E : Elsewhere} {EO : ElsewhereOk s}.
Context (n : nat) (G : Self) (HG : good_self s n G).
Abbreviation wpp := (wpp s).
Abbreviation upto := (upto s).
Abbreviation view := (view s).
Abbreviation left := (left s).
Abbreviation part := (part s).

(** ** The context of an async function *)

Definition awaiting_at (b : bool) (π : point) : point := if b then at_ctx (ctx_gen π) awaitAsync π else π.
Lemma upto_ctx g a π ts π' :
  upto (at_ctx g a π) ts π' → upto π ts (at_ctx (ctx_gen π) (ctx_await π) π').
Proof. intros (A & P & S & _ & _ & C & D). by repeat split. Qed.
Lemma from_ctx g a π π' : from (at_ctx g a π) π' → from π (at_ctx (ctx_gen π) (ctx_await π) π').
Proof. intros (A & P & _ & _ & C & D). by repeat split. Qed.
Lemma at_point_ctx g a π p : at_point s π p → at_point s (at_ctx g a π) (set_ctx g a p).
Proof. intros [Hs ? ? ? ? ? Ha]. constructor; try done. by apply (stream_ok_same s _ p). Qed.
Lemma part_awaiting {A} b (m : PM A) P π : part m P (awaiting_at b π) → part (awaiting b m) P π.
Proof.
  destruct b; [|done]. intros Hm p Hp. specialize (Hm _ (at_point_ctx (ctx_gen π) awaitAsync π p Hp)). unfold awaiting.
  rewrite (at_gen _ _ _ Hp). destruct (m _) as [[a|e| |] p']; try done; destruct Hm as (π' & Hp' & H); cbn.
  - destruct H as (ts & H & HP). pose proof H as (_ & _ & _ & Hg & _). cbn in Hg.
    exists (at_ctx (ctx_gen π) (ctx_await π) π'). rewrite (at_await _ _ _ Hp), (at_gen _ _ _ Hp'), Hg.
    split; [by apply at_point_ctx|]. exists ts. split; [by eapply upto_ctx|done].
  - pose proof H as (_ & _ & Hg & _). cbn in Hg.
    exists (at_ctx (ctx_gen π) (ctx_await π) π'). rewrite (at_await _ _ _ Hp), (at_gen _ _ _ Hp'), Hg.
    split; [by apply at_point_ctx|]. by eapply from_ctx.
Qed.

(** ** Parameters *)

Lemma part_annotation π : (left π ≤ n)%nat → part (annotation G) (introduced LType COLON) π.
Proof.
  intros Hn. pose proof (upto_refl s π) as Hu. unfold ParseMembers.part, annotation. steps; kinds.
  - eapply (wpp_inner s n); [by eapply parseTypeAnnotation_ok|lia|done|by apply upto_next|]. intros ta ts π' Hu' Ht. steps.
    eexists. split; [exact Hu'|]. by constructor.
  - exists []. split; [done|constructor].
Qed.
Lemma part_default rest π : (left π ≤ n)%nat → part (default_value G rest) (introduced (Spells 0) ASSIGN) π.
Proof.
  intros Hn. pose proof (upto_refl s π) as Hu. unfold ParseMembers.part, default_value.
  assert (∃ ts, upto π ts π ∧ introduced (Spells 0) ASSIGN ts None) as Hnone by (exists []; split; [done|constructor]).
  destruct rest; steps; kinds; [done| |done].
  eapply (wpp_inner s n); [apply HG|lia|done|by apply upto_next|]. intros e ts π' Hu' He. steps.
  eexists. split; [exact Hu'|]. by constructor.
Qed.

Definition spells_param (k : nat) (ts : list Token) (r : Param * bool) : Prop :=
  ∃ ts1 cs b, ts = ts1 ++ cs ∧ ts ≠ [] ∧ SpellsParam k ts1 r.1 ∧ perhaps COMMA cs b.
Lemma part_pattern π : (left π ≤ n)%nat → Type_ (view π) ∈ [LBRACE; LBRACKET] → part (arrow_pattern G)
  (λ ts r, ts ≠ [] ∧ ((∃ a, r = (Some a, None) ∧ SpellsArrayPattern ts a) ∨ ∃ o, r = (None, Some o) ∧ SpellsObjectPattern ts o)) π.
Proof.
  intros Hn Ht. unfold ParseMembers.part, arrow_pattern. steps; kinds.
  - eapply wpp_part; [apply (part_parseObjectPatternProps s n G HG); [lia|done]|apply upto_refl|].
    intros o ts π' Hu (ts' & -> & Ho). steps. eexists. split_and!; [exact Hu|done|right; eauto].
  - apply elem_of_cons in Ht as [?|Ht%list_elem_of_singleton]; [done|].
    eapply wpp_part; [apply (part_parseArrayPatternElems s n G HG); [lia|done]|apply upto_refl|].
    intros o ts π' Hu (ts' & -> & Ho). steps. eexists. split_and!; [exact Hu|done|left; eauto].
Qed.

(** The annotation, the default value and the comma of a parameter. *)
Lemma part_pattern_param ps rest ds π0 π : perhaps ELLIPSIS ds rest → upto π0 ds π → (left π0 ≤ n)%nat →
  Type_ (view π) ∈ [LBRACE; LBRACKET] →
  wpp (pattern_param G ps rest) (λ r π', ∃ ts, upto π0 ts π' ∧ spells_param (length ps) ts r) (from π0) π.
Proof.
  intros Hds Hu Hn Ht. unfold pattern_param. pose proof (upto_le s _ _ _ Hu). step. step. step.
  eapply wpp_part; [apply part_pattern; [lia|done]|exact Hu|]. intros pat us π1 Hu1 [Hne Hpat]. pose proof (upto_le s _ _ _ Hu1). step.
  eapply wpp_part; [apply part_annotation; lia|exact Hu1|]. intros ty ts π2 Hu2 Hty. pose proof (upto_le s _ _ _ Hu2). step.
  eapply wpp_part; [apply part_default; lia|exact Hu2|]. intros d ts' π3 Hu3 Hd. step.
  eapply wpp_part; [apply part_perhaps|exact Hu3|]. intros b cs π4 Hu4 Hcs. step.
  eexists. split; [exact Hu4|]. exists (ds ++ us ++ ts ++ ts'), cs, b. split_and!.
  - by rewrite <- !app_assoc.
  - by destruct ds, us.
  - destruct Hpat as [(a & -> & Ha)|(o & -> & Ho)]; cbn; [by apply param_array|by apply param_object].
  - done.
Qed.
Lemma part_name_param t k rest ds π0 π : perhaps ELLIPSIS ds rest → upto π0 ds π → (left π0 ≤ n)%nat →
  wpp (name_param G t rest) (λ r π', ∃ ts, upto π0 ts π' ∧ spells_param k ts r) (from π0) π.
Proof.
  intros Hds Hu Hn. unfold name_param. step. step. step; [|by eapply upto_from]. kinds. step.
  eapply wpp_part; [apply part_perhaps|by apply upto_next|]. intros opt qs π1 Hu1 Hqs. pose proof (upto_le s _ _ _ Hu1). step.
  eapply wpp_part; [apply part_annotation; lia|exact Hu1|]. intros ty ts π2 Hu2 Hty. pose proof (upto_le s _ _ _ Hu2). step.
  eapply wpp_part; [apply part_default; lia|exact Hu2|]. intros d ts' π3 Hu3 Hd. step.
  eapply wpp_part; [|exact Hu3|].
  { instantiate (1 := λ cs _, ∃ b, perhaps COMMA cs b). unfold ParseMembers.part. destruct rest.
    - step. exists []. split; [apply upto_refl|]. eexists. constructor.
    - eapply wpp_part; [apply part_perhaps|apply upto_refl|]. intros b cs π4 Hu4 Hcs. eauto. }
  intros _ cs π4 Hu4 [b Hcs]. step. eexists. split; [exact Hu4|].
  exists (ds ++ view π :: qs ++ ts ++ ts'), cs, b. split_and!; [|by destruct ds| |done].
  - rewrite <- !app_assoc. cbn [app]. by rewrite <- !app_assoc.
  - cbn. by apply param_name_.
Qed.
Lemma part_param ps π : (left π ≤ n)%nat → part (arrow_param G ps) (spells_param (length ps)) π.
Proof.
  intros Hn. unfold ParseMembers.part, arrow_param. do 3 step. eapply wpp_part; [apply part_perhaps|apply upto_refl|]. intros rest ds π1 Hu1 Hds.
  steps; kinds; [..|by eapply part_name_param]; (eapply part_pattern_param; [done..|]);
    match goal with H : _ = _ |- _ => rewrite H; repeat constructor end.
Qed.
Lemma part_params π : (left π ≤ n)%nat → part (arrow_params G) SpellsParams π.
Proof.
  intros Hn. unfold ParseMembers.part, arrow_params.
  apply (wpp_while s (λ ps π', ∃ ts, upto π ts π' ∧ SpellsParams ts ps) (λ _, left));
    [exists []; split; [apply upto_refl|constructor]|apply left_bound|].
  intros ps π1 (ts & Hu & Hps). pose proof (upto_le s _ _ _ Hu). steps; kinds; [by eauto..|].
  eapply wpp_part_left; [apply part_param; lia|exact Hu|]. intros [p last] us π2 Hu2 Hl (ts1 & cs & b & -> & Hne & Hp & Hcs).
  assert (∃ ts, upto π ts π2 ∧ SpellsParams ts (ps ++ [p])) as Hdone.
  { eexists. split; [exact Hu2|]. by eapply params_snoc. }
  cbn [fst snd]. steps; [done|]. split; [done|]. apply left_less; [done|auto].
Qed.

(** ** Bodies *)

Lemma wpp_no_await ps (Q : unit → point → Prop) (X : point → Prop) π : Q tt π → X π → wpp (no_await ps) Q X π.
Proof.
  intros HQ HX. induction ps as [|[name ppos ty rest d opt a o] ps IH]; cbn [no_await]; steps; [done..|].
  destruct (paramInitAwait d); [by step|done].
Qed.
Lemma wpp_arrow_block ps ret block pos (Q : Expr → point → Prop) X π :
  (∀ i src, Q (mkExpr i pos (ArrowFunction [] [] [] ps ret None (Some block) false src false)) π) →
  wpp (arrow_block ps ret block pos) Q X π.
Proof. intros HQ. unfold arrow_block. steps. apply wpp_keeps; [by intros q|]. steps. apply HQ. Qed.
Lemma wpp_arrow_body ps ret body pos (Q : Expr → point → Prop) X π :
  (∀ i src, Q (mkExpr i pos (ArrowFunction [] [] [] ps ret (Some body) None false src false)) π) →
  wpp (arrow_body ps ret body pos) Q X π.
Proof. intros HQ. unfold arrow_body. steps. apply HQ. Qed.

Definition arrow_of_body (pos : Pos) ps ret (ts : list Token) (e : Expr) : Prop :=
  ∃ body block i src, ts ≠ [] ∧ SpellsBody ts body block ∧ e = mkExpr i pos (ArrowFunction [] [] [] ps ret body block false src false).
Lemma part_arrow_end ps ret pos π : (left π ≤ n)%nat → part (arrow_end G ps ret pos) (arrow_of_body pos ps ret) π.
Proof.
  intros Hn. unfold ParseMembers.part, arrow_end. steps.
  - eapply wpp_part; [eapply (good_part s (S n)); [by eapply parseBlock_ok|lia]|apply upto_refl|]. intros b ts π' Hu [Hne Hb].
    steps; [by eapply upto_from|]. apply wpp_arrow_block. intros i src. exists ts. split; [done|].
    eexists _, _, _, _. split_and!; [done|by apply body_block|done].
  - eapply wpp_part; [eapply good_part; [apply HG|done]|apply upto_refl|]. intros b ts π' Hu [Hne Hb].
    apply wpp_arrow_body. intros i src. exists ts. split; [done|].
    eexists _, _, _, _. split_and!; [done|by apply body_expr|done].
Qed.
Lemma part_arrow_function isAsync o π : (left π ≤ n)%nat →
  part (arrow_function G isAsync (posOf o)) (SpellsArrow o) π.
Proof.
  intros Hn. unfold ParseMembers.part, arrow_function. step.
  eapply wpp_part; [by apply part_params|apply upto_refl|]. intros ps ts π1 Hu1 Hps. step. step.
  step; [|by eapply upto_from]. kinds. apply upto_next in Hu1 as Hu2. pose proof (upto_le s _ _ _ Hu2). step.
  eapply wpp_part; [apply part_annotation; lia|exact Hu2|]. intros ret ts' π2 Hu3 Hret. do 3 step; [by step; eapply upto_from|].
  step. step. step; [|by eapply upto_from]. kinds. apply upto_next in Hu3 as Hu4. pose proof (upto_le s _ _ _ Hu4).
  assert (from π (next π2)) as Hf by (by eapply upto_from). step; [by step|].
  assert (wpp (arrow_end G ps ret (posOf o)) (λ e π', ∃ ts, upto π ts π' ∧ SpellsArrow o ts e) (from π) (next π2)) as Hend.
  { eapply wpp_part; [apply part_arrow_end; lia|exact Hu4|]. intros e us π3 Hu5 (body & block & i & src & Hne & Hb & ->).
    eexists. split; [exact Hu5|]. rewrite <- !app_assoc. cbn [app]. apply arrow_parts; try done.
    by apply negb_false_iff, bool_decide_eq_true in Heqb2. }
  step. step; [|by step]. by apply wpp_no_await.
Qed.
Lemma wpp_parseArrowFunction isAsync π0 ts (Q : Expr → point → Prop) π :
  upto π0 ts π → (left π ≤ S n)%nat →
  (∀ e ts' π', upto π0 (ts ++ view π :: ts') π' → SpellsArrow (view π) ts' e → Q e π') →
  wpp (parseArrowFunction G isAsync) Q (from π0) π.
Proof.
  intros Hu Hn HQ. unfold parseArrowFunction. step. step.
  eapply wpp_part; [apply part_awaiting, part_arrow_function|by apply upto_next|].
  - pose proof (left_pred s (modes π) (place π)). destruct isAsync; unfold ParseWp.left in *; cbn in *; lia.
  - intros e ts' π' Hu' He. eapply HQ; [|done]. by rewrite <- app_assoc in Hu'.
Qed.
End arrows.
