(* ===== verification/ParsePrimaries.v ===== *)
(** * Primary expressions: what they consume *)

From S2P Require Import Prelude GoString Diag Token Lexer LexerFacts LexerPos Stream StreamFacts Expr.
From S2P Require Import ParsePrimary ParseExpr Grammar ParseWp ParseRules ParseLists ParseMembers ParseArrow.
Open Scope Z_scope.

Section primaries.
Context `{U : Unicode} {OP : Opaque} (s : string) {L : Languages} {E : Elsewhere} {EO : ElsewhereOk s}.
Context (n : nat) (G : Self) (HG : good_self s n G).
Abbreviation wpp := (wpp s).
Abbreviation upto := (upto s).
Abbreviation view := (view s).
Abbreviation left := (left s).
Abbreviation part := (part s).
(** What a primary expression consumes from a point on. *)
Abbreviation reads m π := (part m (λ ts e, ts ≠ [] ∧ Spells 17 ts e) π).

(** ** Functions *)

Lemma part_async_name g π : part (async_name g) function_name π.
Proof.
  pose proof (upto_refl s π) as Hu. pose proof (upto_one s π) as Hu1. unfold ParseMembers.part, async_name.
  steps; kinds; try (by eapply upto_from); try (by exists [view π]; split; [|constructor; tauto]).
  exists []. split; [done|constructor].
Qed.
Lemma reads_async_function a π0 π : Type_ (view π) = FUNCTION → is_word a "async" = true → upto π0 [a] π → (left π0 ≤ S n)%nat →
  wpp (async_function G a) (λ e π', ∃ ts, upto π0 ts π' ∧ ts ≠ [] ∧ Spells 17 ts e) (from π0) π.
Proof.
  intros Hf Ha Hu Hn. unfold async_function. step. step. step. apply upto_next in Hu as Hu1.
  eapply wpp_part; [apply part_perhaps|exact Hu1|]. intros g gs π1 Hu2 Hg. step.
  eapply wpp_part; [apply part_async_name|exact Hu2|]. intros name ns π2 Hu3 Hname. step.
  pose proof (upto_le s _ _ _ Hu3).
  eapply wpp_part; [eapply (good_part _ (S n)); [by eapply parseFunctionRest_ok|lia]|exact Hu3|]. intros fd ts π3 Hu4 [_ Hfd].
  apply wpp_newFuncExpr. intros i src. eexists. split; [exact Hu4|]. rewrite <- !app_assoc. cbn [app]. split; [done|].
  by apply spells_async_function.
Qed.
Lemma wpp_set_ctx g a (Q : unit → point → Prop) X π : Q tt (at_ctx g a π) → wpp (modify (set_ctx g a)) Q X π.
Proof. intros HQ. apply (wpp_modify s _ (at_ctx g a π)); [|done]. intros p. by apply at_point_ctx. Qed.
Lemma part_own_name g π : part (function_own_name g) function_name π.
Proof.
  unfold ParseMembers.part, function_own_name. step. apply wpp_get. intros p Hp. rewrite (at_gen _ _ _ Hp), (at_await _ _ _ Hp).
  step. apply wpp_set_ctx. set (πc := at_ctx g awaitFn π).
  assert (∀ name ts πd, upto πc ts πd → function_name ts name → wpp (modify (set_ctx (ctx_gen π) (ctx_await π)))
    (λ _, wpp (mret name) (λ a π', ∃ ts, upto π ts π' ∧ function_name ts a) (from π)) (from π) πd) as Hend.
  { intros name ts πd Hu Hname. apply wpp_set_ctx. step. exists ts. split; [by eapply upto_ctx|done]. }
  steps; kinds; try (eapply Hend; [apply upto_one|constructor; tauto]). eapply Hend; [apply upto_refl|constructor].
Qed.
Lemma reads_function π : Type_ (view π) = FUNCTION → (left π ≤ S n)%nat → reads (parse_function G (view π)) π.
Proof.
  intros Hf Hn. unfold ParseMembers.part, parse_function. step. step. step.
  eapply wpp_part; [apply part_perhaps|apply upto_one|]. intros g gs π1 Hu2 Hg. step.
  eapply wpp_part; [apply part_own_name|exact Hu2|]. intros name ns π2 Hu3 Hname. step. pose proof (upto_le s _ _ _ Hu3).
  eapply wpp_part; [eapply (good_part _ (S n)); [by eapply parseFunctionRest_ok|lia]|exact Hu3|]. intros fd ts π3 Hu4 [_ Hfd].
  apply wpp_newFuncExpr. intros i src. eexists. split; [exact Hu4|]. rewrite <- !app_assoc. cbn [app]. split; [done|].
  by apply spells_function.
Qed.

(** ** Arrow functions *)

Lemma part_async_bare t pos π : (left π ≤ n)%nat → part (async_bare G t pos)
  (λ ts e, ∃ body block i src, SpellsBody ts body block ∧ e = mkExpr i pos (ArrowFunction [] [] [] [bare_param t] None body block true src false)) π.
Proof.
  intros Hn. unfold ParseMembers.part, async_bare. steps.
  - eapply wpp_part; [eapply (good_part _ (S n)); [by eapply parseBlock_ok|lia]|apply upto_refl|]. intros b ts π' Hu [_ Hb].
    steps. exists ts. split; [done|]. eexists _, _, _, _. split; [by apply body_block|done].
  - eapply wpp_part; [eapply good_part; [apply HG|done]|apply upto_refl|]. intros b ts π' Hu [_ Hb]. steps.
    exists ts. split; [done|]. eexists _, _, _, _. split; [by apply body_expr|done].
Qed.
Lemma reads_async π : is_word (view π) "async" = true → (left π ≤ S n)%nat → reads (parseAsyncFunctionOrArrow G (view π)) π.
Proof.
  intros Ha Hn. unfold ParseMembers.part, parseAsyncFunctionOrArrow. step. step. pose proof (upto_one s π) as Hu.
  pose proof (next_le s n π Hn) as Hl. set (a := view π) in *. set (π1 := next π) in *. clearbody a π1. step. step. step; kinds.
  { by eapply reads_async_function. }
  assert (wpp (parseArrowFunction G true ≫= λ e, mret (set_async (Some (TPos a)) e))
    (λ e π', ∃ ts, upto π ts π' ∧ ts ≠ [] ∧ Spells 17 ts e) (from π) π1) as Harrow.
  { step. eapply (wpp_parseArrowFunction s n G HG); [exact Hu|lia|]. intros e ts π' Hu' He. step. eexists. split; [exact Hu'|]. split; [done|].
    by apply spells_async_arrow. }
  step. step. step. destruct (kind_is (view π1) IDENT) eqn:Hi; step; cbv beta; [|done]. cbn [andb].
  destruct (kind_is _ ARROW) eqn:Hw; [|done]. kinds.
  pose proof (view_at s π1 1 _ Hw ltac:(done) ltac:(done)) as Hx. rewrite <- Hx in *. step; [by step; eapply upto_from|].
  apply upto_next in Hu as Hu2. apply upto_next in Hu2.
  do 4 step. eapply wpp_part; [apply part_awaiting, (part_async_bare (view π1) (posOf a))|exact Hu2|].
  - pose proof (left_then_next s π1). pose proof (left_then_next s (next π1)). unfold ParseWp.left in *. cbn in *. lia.
  - intros e ts π' Hu' (body & block & i & src & Hb & ->). eexists. split; [exact Hu'|]. rewrite <- !app_assoc. cbn [app].
    split; [done|]. by apply spells_async_bare_arrow.
Qed.

Lemma name_mode π : Type_ (view π) = IDENT → Type_ (view π) ∉ mode_types.
Proof. intros -> Hin. repeat (apply elem_of_cons in Hin as [?|Hin]; [done|]). by apply elem_of_nil in Hin. Qed.
Lemma wpp_asyncFunctionAhead (Q : bool → point → Prop) X π : (left π ≤ S n)%nat → Type_ (view π) = IDENT →
  (∀ a π', alike s π π' → (a = true → is_word (view π) "async" = true) → Q a π') → wpp (asyncFunctionAhead G) Q X π.
Proof.
  intros Hn Hi HQ. unfold asyncFunctionAhead, isWord, sameLine.
  assert (∀ π', alike s π π' → Q false π') as Hno by (intros; by apply HQ).
  do 3 step. change (tok_eqb (Type_ ?t) IDENT && bool_decide (Literal ?t = ?w)) with (is_word t w).
  destruct (is_word (raw _ _ _) _) eqn:Hw; [|by steps; first [discriminate|apply Hno, alike_refl]].
  rewrite Nat.add_0_r in Hw. rewrite <- (view_raw s π) in Hw; [|by intros He; apply is_word_ident in Hw; congruence..].
  steps; try discriminate; try (by apply HQ; [apply alike_refl|]).
  apply look_parenGroupFollowedByArrowAt with (EO := EO) (n := n); [done|done|by apply name_mode|]. intros. by apply HQ.
Qed.

Lemma part_bare_arrow t π : (left π ≤ n)%nat → part (bare_arrow G t)
  (λ ts e, ∃ body block i src, SpellsBody ts body block ∧
     e = mkExpr i (posOf t) (ArrowFunction [] [] [] [bare_param t] None body block false src false)) π.
Proof.
  intros Hn. unfold ParseMembers.part, bare_arrow. steps.
  - eapply wpp_part; [eapply (good_part _ (S n)); [by eapply parseBlock_ok|lia]|apply upto_refl|]. intros b ts π' Hu [_ Hb].
    apply wpp_arrow_block. intros i src. exists ts. split; [done|]. eexists _, _, _, _. split; [by apply body_block|done].
  - eapply wpp_part; [eapply good_part; [apply HG|done]|apply upto_refl|]. intros b ts π' Hu [_ Hb].
    apply wpp_arrow_body. intros i src. exists ts. split; [done|]. eexists _, _, _, _. split; [by apply body_expr|done].
Qed.
(** What is read from a point alike. *)
Lemma reads_alike {A} (m : PM A) P π π' : alike s π π' → part m P π' →
  wpp m (λ a π'', ∃ ts, upto π ts π'' ∧ P ts a) (from π) π'.
Proof. intros Ha Hm. eapply wpp_part; [exact Hm|eapply alike_upto; [apply upto_refl|exact Ha]|]. intros a ts π'' Hu HP. by exists ts. Qed.
Lemma reads_name π : Type_ (view π) = IDENT → (left π ≤ S n)%nat → reads (parse_name G (view π)) π.
Proof.
  intros Hi Hn. unfold ParseMembers.part, parse_name. step. apply wpp_asyncFunctionAhead; [done..|]. intros b π' Hal Hb.
  rewrite <- (alike_view s π π') in * by done. pose proof (alike_left s π π' Hal) as Hl. rewrite <- Hl in Hn.
  apply (reads_alike _ (λ ts e, ts ≠ [] ∧ Spells 17 ts e) _ _ Hal). clear Hl Hal π. rename π' into π.
  unfold ParseMembers.part. step; [by apply reads_async; [apply Hb|]|]. pose proof (upto_one s π) as Hu. pose proof (next_le s n π Hn).
  step; [by step; apply from_refl|]. do 4 step; step; [by step; eapply upto_from|].
  steps; kinds.
  - apply upto_next in Hu as Hu2. eapply wpp_part; [apply (part_bare_arrow (view π))|exact Hu2|].
    + pose proof (left_then_next s (next π)). lia.
    + intros e ts π' Hu' (body & block & i & src & Hb' & ->). eexists. split; [exact Hu'|]. rewrite <- !app_assoc. cbn [app].
      split; [done|]. apply spells_bare_arrow; try done.
  - exists [view π]. split; [done|]. split; [done|]. apply spells_leaf. unfold leaf_kind. rewrite Hi.
    by match goal with H : bool_decide (Literal _ ∈ _) = false |- _ => rewrite H end.
Qed.

(** ** Parentheses *)

Lemma separated_cons {A} (La : list Token → A → Prop) ts xs : separated La ts xs → xs ≠ [].
Proof. by intros [|? ? ? ? ? ? ? ?]; [|destruct xs0]. Qed.

Definition sequence_of (o : Token) (es : list Expr) (e : Expr) : Prop :=
  ∃ i, e = match es with [e] => e | _ => mkExpr i (posOf o) (SequenceExpression es) end.
Lemma part_sequence o e0 π0 ts0 π : Spells 0 ts0 e0 → upto π0 (o :: ts0) π → (left π ≤ n)%nat →
  wpp (sequence G (posOf o) e0) (λ e π', ∃ ts es, upto π0 (o :: ts) π' ∧ separated (Spells 0) ts es ∧ sequence_of o es e) (from π0) π.
Proof.
  intros He Hu Hn. unfold sequence. do 2 step. destruct (kind_is (view π) COMMA) eqn:Hc.
  2: { step. exists ts0, [e0]. split; [done|]. split; [by constructor|by exists 0%nat]. }
  step.
  apply (wpp_while s (λ es π', ∃ ts, upto π0 (o :: ts) π' ∧ separated (Spells 0) ts es ∧ (left π' ≤ n)%nat
    ∧ (length es = 1%nat → kind_is (view π') COMMA = true)) (λ _, left));
    [exists ts0; split_and!; [done|by constructor|done|done]|apply left_bound|].
  clear He Hu Hc Hn π. intros es π (ts & Hu & Hes & Hn & Hc). steps; kinds.
  - apply upto_next in Hu as Hu2. eapply wpp_part_left; [eapply good_part; [apply HG|]|exact Hu2|].
    + pose proof (left_then_next s π). lia.
    + intros e us π1 Hu3 Hl [Hne He]. steps. pose proof (left_then_next s π). specialize (Hl Hne). split.
      * exists (ts ++ view π :: us). split_and!; [|by constructor|lia|].
        -- rewrite <- app_assoc in Hu3. exact Hu3.
        -- rewrite length_app. cbn. apply separated_cons in Hes. destruct es; [done|]. cbn. lia.
      * apply left_less; [congruence|]. lia.
  - exists ts, es. split_and!; [done..|]. destruct es as [|e [|e' es]]; [by eexists| |by eexists].
    specialize (Hc eq_refl). discriminate.
Qed.
Lemma reads_parenthesized π : Type_ (view π) = LPAREN → (left π ≤ S n)%nat → reads (parenthesized G) π.
Proof.
  intros Ho Hn. pose proof (upto_one s π) as Hu. pose proof (next_le s n π Hn). unfold ParseMembers.part, parenthesized. do 3 step.
  set (o := view π) in *. clearbody o.
  eapply wpp_part; [eapply good_part; [apply HG|done]|exact Hu|]. intros e ts π1 Hu1 [Hne He]. cbn [app] in Hu1. step.
  eapply wpp_mono; [eapply part_sequence; [exact He|exact Hu1|]| |done].
  { pose proof (upto_left s _ _ _ Hu1 ltac:(done)). lia. }
  cbv beta. intros e1 π2 (us & es & Hu2 & Hes & [i He1]). apply upto_next in Hu2 as Hu3. steps; kinds; [|by eapply upto_from].
  apply wpp_keeps; [by intros q|]. step. eapply (wpp_mono _ _ (λ _ π', π' = next π2)).
  - instantiate (1 := from π). destruct (ekind e1); first [by step|by apply wpp_keeps; [intros q|]].
  - intros _ π' ->. step. eexists. split; [exact Hu3|]. split; [done|]. by eapply spells_paren.
  - done.
Qed.
Lemma reads_paren π : Type_ (view π) = LPAREN → (left π ≤ S n)%nat → reads (parse_paren G) π.
Proof.
  intros Ho Hn. unfold ParseMembers.part, parse_paren. step.
  eapply look_isArrow with (n := n) (EO := EO); [done|done| |].
  { rewrite Ho. intros Hin. repeat (apply elem_of_cons in Hin as [?|Hin]; [done|]). by apply elem_of_nil in Hin. }
  intros b π' Hal. rewrite <- (alike_view s π π') in * by done. rewrite <- (alike_left s π π') in Hn by done.
  apply (reads_alike _ (λ ts e, ts ≠ [] ∧ Spells 17 ts e) _ _ Hal). destruct b; [|by apply reads_parenthesized].
  eapply (wpp_parseArrowFunction s n G HG); [apply upto_refl|done|]. intros e ts π2 Hu He. eexists. split; [exact Hu|].
  split; [done|]. by apply spells_arrow.
Qed.

(** ** All of them *)

Lemma reads_leaf π k : leaf_kind (view π) = Some k → reads (advance ≫= λ _, make (posOf (view π)) k) π.
Proof.
  intros Hk. unfold ParseMembers.part. steps. exists [view π]. split; [apply upto_one|]. split; [done|]. by apply spells_leaf.
Qed.
Lemma reads_class π : Type_ (view π) = CLASS → (left π ≤ S n)%nat → reads (parse_class G (view π)) π.
Proof.
  intros Ho Hn. unfold ParseMembers.part, parse_class. step.
  eapply wpp_part; [eapply (good_part _ (S n)); [by eapply parseClassDecl_ok|lia]|apply upto_refl|]. intros d ts π' Hu [Hne Hd].
  destruct (starts_eq (view π) ts) as [ts' ->]; [by eapply upto_starts|by rewrite Ho|by intros [H|H]; rewrite Ho in H| |].
  { rewrite Ho. intros Hin. repeat (apply elem_of_cons in Hin as [?|Hin]; [done|]). by apply elem_of_nil in Hin. }
  steps. eexists. split; [exact Hu|]. split; [done|]. by apply spells_class.
Qed.
Lemma reads_elsewhere (m : PM Expr) La π : (∀ ts e, La ts e → Spells 17 ts e) → good s (S n) m La → (left π ≤ S n)%nat → reads m π.
Proof.
  intros HL Hm Hn. eapply wpp_mono; [by apply Hm| |done]. intros e π' (ts & Hu & Hne & He). eauto.
Qed.
Lemma reads_primary_of π : (left π ≤ S n)%nat → reads (primary_of G (view π)) π.
Proof.
  intros Hn. unfold primary_of. cbv zeta.
  destruct (Type_ (view π)) eqn:Ht; try (by unfold ParseMembers.part; step; apply from_refl);
    try (by apply reads_leaf; unfold leaf_kind; rewrite Ht).
  - by apply reads_name.
  - by apply reads_function.
  - by eapply reads_new.
  - eapply reads_elsewhere; [|by eapply parseImportExpr_ok|done]. apply spells_import.
  - by apply reads_class.
  - by apply reads_paren.
  - by apply (part_parseObjectLiteral s n G HG).
  - by eapply reads_array.
  - by eapply reads_template.
  - unfold ParseMembers.part. steps. exists [view π]. split; [apply upto_one|]. split; [done|]. by apply spells_regex.
Qed.
Lemma good_parsePrimary : good s (S n) (parsePrimary G) (Spells 17).
Proof.
  intros π Hn. unfold parsePrimary. step. apply wpp_peekPrimary. intros t π1 Hr Ht _.
  assert (upto π [] π1) as Hu by (by eapply reread_upto; [apply upto_refl|]).
  rewrite <- (reread_left s π π1 Hr) in Hn.
  assert (t = view π1 → wpp (primary_of G t) (λ e π', ∃ ts, upto π ts π' ∧ ts ≠ [] ∧ Spells 17 ts e) (from π) π1) as Hgo.
  { intros ->. eapply wpp_part; [by apply reads_primary_of|exact Hu|]. intros e ts π' Hu' He. by exists ts. }
  destruct Ht as [Ht|[Ht|Ht]]; [by apply Hgo|..]; unfold primary_of; rewrite Ht; step; by eapply upto_from.
Qed.
End primaries.
