(* ===== verification/ParseCalls.v ===== *)
(** * Calls and member accesses: what they consume *)

From S2P Require Import Prelude GoString Diag Token Lexer LexerFacts LexerPos Stream StreamFacts Expr.
From S2P Require Import ParsePrimary ParseExpr Grammar ParseWp ParseRules ParseLists ParseMembers ParseArrow ParsePrimaries.
Open Scope Z_scope.

Section calls.
Context `{U : Unicode} {OP : Opaque} (s : string) {L : Languages} {E : Elsewhere} {EO : ElsewhereOk s}.
Context (n : nat) (G : Self) (HG : good_self s n G).
Abbreviation wpp := (wpp s).
Abbreviation upto := (upto s).
Abbreviation view := (view s).
Abbreviation left := (left s).
Abbreviation part := (part s).

Lemma part_call_tail cs callee targs opt π : Type_ (view π) = LPAREN → (left π ≤ S n)%nat →
  part (call_tail G cs callee targs opt) (λ ts e, ∃ o ts' args c i src, ts = o :: ts' ++ [c] ∧ Type_ o = LPAREN
    ∧ comma_list SpellsSpread ts' args ∧ Type_ c = RPAREN
    ∧ e = mkExpr i (posOf o) (CallExpression callee args src targs None opt false)) π.
Proof.
  intros Ho Hn. unfold ParseMembers.part, call_tail. do 3 step.
  eapply (wpp_parseArgList s n G HG); [apply upto_one|done|done|]. intros args ts π1 Hu Hargs. apply upto_next in Hu as Hu1.
  steps; kinds; [|by eapply upto_from]. eexists. split; [exact Hu1|]. rewrite <- app_assoc. cbn [app].
  by eexists _, _, _, _, _, _.
Qed.
Lemma part_index_tail object opt π : Type_ (view π) = LBRACKET → (left π ≤ S n)%nat →
  part (index_tail G object opt) (λ ts e, ∃ o ts' x c i, ts = o :: ts' ++ [c] ∧ Type_ o = LBRACKET
    ∧ Spells 0 ts' x ∧ Type_ c = RBRACKET ∧ e = mkExpr i (posOf o) (IndexExpression object x opt false)) π.
Proof.
  intros Ho Hn. unfold ParseMembers.part, index_tail. do 3 step.
  eapply wpp_part; [eapply good_part; [apply HG|by apply next_le]|apply upto_one|]. intros x ts π1 Hu [_ Hx].
  apply upto_next in Hu as Hu1. steps; kinds; [|by eapply upto_from]. eexists. split; [exact Hu1|].
  rewrite <- app_assoc. cbn [app]. by eexists _, _, _, _, _.
Qed.
Lemma part_member_tail object opt π :
  part (member_tail object opt) (λ ts e, ∃ t i, ts = [t] ∧ property_name t
    ∧ e = mkExpr i (posOf t) (MemberExpression object (Literal t) opt false)) π.
Proof.
  unfold ParseMembers.part, member_tail. step. eapply wpp_expectPropertyName; [apply upto_refl|]. intros Hp. steps.
  exists [view π]. split; [apply upto_one|]. by eexists _, _.
Qed.
Lemma part_tagged_tail tag targs π : Type_ (view π) ∈ [TEMPLATE_NO_SUB; TEMPLATE_HEAD] → (left π ≤ S n)%nat →
  part (tagged_tail G tag targs) (λ ts e, ∃ t ts' qs rs es i, ts = t :: ts' ∧ SpellsTemplate t ts' qs rs es
    ∧ e = mkExpr i (posOf t) (TaggedTemplateExpression tag qs rs es targs)) π.
Proof.
  intros Ho Hn. unfold ParseMembers.part, tagged_tail. do 3 step. step; kinds.
  - eapply (wpp_parseTemplateRestRaw s n G HG); [apply upto_one|done|done|]. intros qs rs es ts π1 Hu Hes. steps.
    eexists. split; [exact Hu|]. by eexists _, _, _, _, _, _.
  - steps. exists [view π]. split; [apply upto_one|]. eexists _, [], _, _, _, _. split_and!; [done| |done]. constructor.
    apply elem_of_cons in Ho as [Ho|Ho]; [rewrite Ho; left|]. apply list_elem_of_singleton in Ho. done.
Qed.

(** ** One step of a chain *)

Definition chained (π0 : point) (e : Expr) (π : point) : Prop := ∃ ts, upto π0 ts π ∧ ts ≠ [] ∧ Spells 16 ts e.
Definition stepped (π0 π : point) (r : Expr + Expr) (π' : point) : Prop :=
  match r with inl e => chained π0 e π' ∧ (left π' < left π)%nat | inr e => chained π0 e π' end.

(** A tail consumed after what [ds] consumed. *)
Lemma stepped_tail {m : PM Expr} P π0 ts ds π π1 :
  part m P π1 → upto π0 ts π → upto π0 (ts ++ ds) π1 → (left π1 ≤ left π)%nat → Type_ (view π) ≠ EOF → ts ≠ [] →
  (∀ us e, P us e → us ≠ [] ∧ Spells 16 (ts ++ ds ++ us) e) →
  wpp (m ≫= λ e, mret (inl e)) (stepped π0 π) (from π0) π1.
Proof.
  intros Hm Hu Hu1 Hl He Hne HP. step. eapply wpp_part_left; [exact Hm|exact Hu1|]. intros e us π2 Hu2 Hl2 Hus.
  destruct (HP _ _ Hus) as [Hn Hs]. step. split.
  - eexists. split; [exact Hu2|]. rewrite <- app_assoc. split; [|done]. by destruct ts.
  - specialize (Hl2 Hn). eapply left_less; [done|]. pose proof (left_pos s π He). lia.
Qed.

Lemma lt_mode π : Type_ (view π) = LT → Type_ (raw s π (place π)) ∉ mode_types.
Proof.
  intros H. rewrite <- (view_type s π) by (by rewrite H). rewrite H. intros Hin.
  repeat (apply elem_of_cons in Hin as [?|Hin]; [done|]). by apply elem_of_nil in Hin.
Qed.
Lemma stepped_generic cs π0 ts e π : Type_ (view π) = LT → upto π0 ts π → ts ≠ [] → Spells 16 ts e → (left π ≤ S n)%nat →
  wpp (generic_call G cs e) (stepped π0 π) (from π0) π.
Proof.
  intros Ho Hu Hne He Hn. unfold generic_call. pose proof (upto_one s π) as Hu1.
  assert (∀ π', alike s π π' → chained π0 e π') as Hno by (intros π' Ha; exists ts; split; [by eapply alike_upto|done]).
  step; [step; apply Hno, alike_refl|]. kinds. step. apply wpp_gets. intros p Hp. rewrite (at_place _ _ _ Hp).
  pose proof (at_ahead _ _ _ Hp) as Had. clear p Hp. step. step. step. apply wpp_guess. step. set (πg := at_spec (S (ctx_spec π)) π).
  assert (∀ π', from π π' → wpp (rewind (place π) ≫= λ _, mret (inr e)) (stepped π0 π) (from π0) π') as Hback.
  { intros π' Hf. step. apply wpp_rewind. step. apply Hno, back_alike; [done|done|by apply lt_mode]. }
  apply wpp_attempt. eapply wpp_mono; [eapply (wpp_type_arguments s n G HG _ πg [view π] _ (λ tas π', ∃ ts1, upto πg ts1 π' ∧ type_args ts1 tas));
    [exact (upto_one s πg)|done|done|]| |].
  { intros tas ts1 g π1 Hu2 Hts Hg. exists (view π :: ts1 ++ [g]). split; [exact Hu2|]. by exists (view π), ts1, g. }
  2: { intros π' Hf. step. step. step. apply (wpp_guessed s _ _ π); [by destruct Hf as (_ & _ & _ & _ & _ & ?)|].
       eapply Hback, from_spec, Hf. }
  intros tas πq (ts1 & Hu2 & Hts). assert (ctx_spec πq = S (ctx_spec π)) as Hc by (by destruct Hu2 as (_ & _ & _ & _ & _ & _ & ?)).
  apply upto_spec in Hu2. set (π1 := at_spec (ctx_spec π) πq) in Hu2. assert (from π π1) as Hf by (by eapply upto_from).
  pose proof (upto_trans s _ _ _ _ _ Hu Hu2) as Hu3. pose proof (upto_le s _ _ _ Hu2) as Hl.
  do 2 step. apply wpp_at. step. step. apply (wpp_guessed s _ _ π); [done|]. fold π1. clearbody π1. clear Hc. cbv beta.
  assert (Type_ (view π1) ∈ [TEMPLATE_NO_SUB; TEMPLATE_HEAD] →
    wpp (tagged_tail G e tas ≫= λ e, mret (inl e)) (stepped π0 π) (from π0) π1) as Htag.
  { intros Ht. eapply (stepped_tail _ π0 ts ts1); [apply part_tagged_tail; [done|lia]|done|done|done|by rewrite Ho|done|].
    intros us e' (t & ts' & qs & rs & es & i & -> & Ht' & ->). split; [done|]. by eapply spells_generic_tagged. }
  do 4 step; [step; kinds; apply Htag|].
  - match goal with H : Type_ _ = _ |- _ => rewrite H end. by left.
  - step. destruct (kind_is (view π1) TEMPLATE_HEAD) eqn:Hh; kinds.
    + apply Htag. rewrite Hh. right. by left.
    + step. step. step; [|by apply Hback]. kinds.
      eapply (stepped_tail _ π0 ts ts1); [apply part_call_tail; [done|lia]|done|done|done|by rewrite Ho|done|].
      intros us e' (o & ts' & args & c & i & src & -> & Ho' & Ha & Hc & ->). split; [done|]. by eapply spells_generic_call.
Qed.

(** The forms of a step, after [?.] or not. *)
Section forms.
Context (π0 π π1 : point) (ts ds : list Token) (e : Expr) (opt : bool).
Context (Hu : upto π0 ts π) (Hu1 : upto π0 (ts ++ ds) π1) (Hl : (left π1 ≤ left π)%nat) (Hn : (left π ≤ S n)%nat).
Context (Hne : ts ≠ []) (He : Spells 16 ts e) (Heof : Type_ (view π) ≠ EOF).
Lemma stepped_call cs : perhaps OPTIONAL_DOT ds opt → Type_ (view π1) = LPAREN →
  wpp (call_tail G cs e [] opt ≫= λ e, mret (inl e)) (stepped π0 π) (from π0) π1.
Proof.
  intros Hds Ho. eapply (stepped_tail _ π0 ts ds); [apply part_call_tail; [done|lia]|done..|].
  intros us e' (o & ts' & args & c & i & src & -> & Ho' & Ha & Hc & ->). split; [done|]. by apply spells_call.
Qed.
Lemma stepped_index : perhaps OPTIONAL_DOT ds opt → Type_ (view π1) = LBRACKET →
  wpp (index_tail G e opt ≫= λ e, mret (inl e)) (stepped π0 π) (from π0) π1.
Proof.
  intros Hds Ho. eapply (stepped_tail _ π0 ts ds); [apply part_index_tail; [done|lia]|done..|].
  intros us e' (o & ts' & x & c & i & -> & Ho' & Ha & Hc & ->). split; [done|]. by apply spells_index.
Qed.
Lemma stepped_member d : ds = [d] → Type_ d = (if opt then OPTIONAL_DOT else DOT) →
  wpp (member_tail e opt ≫= λ e, mret (inl e)) (stepped π0 π) (from π0) π1.
Proof.
  intros Hds Hd. eapply (stepped_tail _ π0 ts ds); [apply part_member_tail|done..|].
  intros us e' (t & i & -> & Ht & ->). split; [done|]. rewrite Hds. by apply spells_member.
Qed.
Lemma stepped_tagged : ds = [] → Type_ (view π1) ∈ [TEMPLATE_NO_SUB; TEMPLATE_HEAD] →
  wpp (tagged_tail G e [] ≫= λ e, mret (inl e)) (stepped π0 π) (from π0) π1.
Proof.
  intros Hds Ho. eapply (stepped_tail _ π0 ts ds); [apply part_tagged_tail; [done|lia]|done..|].
  intros us e' (t & ts' & qs & rs & es & i & -> & Ht & ->). split; [done|]. rewrite Hds. by apply spells_tagged.
Qed.
End forms.

Lemma stepped_chain cs π0 ts e π : upto π0 ts π → ts ≠ [] → Spells 16 ts e → (left π ≤ S n)%nat →
  wpp (chain_step G cs e) (stepped π0 π) (from π0) π.
Proof.
  intros Hu Hne He Hn. unfold chain_step. do 2 step.
  assert (stepped π0 π (inr e) π) as Hstop by (by exists ts).
  assert (upto π0 (ts ++ []) π) as Hu0 by (by rewrite app_nil_r). apply upto_next in Hu as Hu1.
  pose proof (left_then_next s π) as Hl. destruct (Type_ (view π)) eqn:Ht; try (by step).
  all: assert (Type_ (view π) ≠ EOF) as Heof by (by rewrite Ht).
  - by apply (stepped_generic cs π0 ts).
  - steps. split; [|by apply next_left]. eexists. split; [exact Hu1|]. split; [by destruct ts|]. by apply spells_non_null.
  - eapply (stepped_call π0 π π ts []); try done. constructor.
  - eapply (stepped_index π0 π π ts []); try done. constructor.
  - do 2 step. by eapply (stepped_member π0 π (next π) ts [view π]).
  - assert (perhaps OPTIONAL_DOT [view π] true) as Hd by (by constructor). do 4 step. step; kinds.
    { by eapply (stepped_call π0 π (next π) ts [view π]). }
    do 2 step. step; kinds.
    + by eapply (stepped_index π0 π (next π) ts [view π]).
    + by eapply (stepped_member π0 π (next π) ts [view π]).
  - eapply (stepped_tagged π0 π π ts []); try done. rewrite Ht. by left.
  - eapply (stepped_tagged π0 π π ts []); try done. rewrite Ht. right. by left.
Qed.

Lemma good_parseCallMember : good s (S n) (parseCallMember G) (Spells 16).
Proof.
  intros π Hn. unfold parseCallMember. do 3 step.
  eapply wpp_part; [eapply good_part; [by eapply good_parsePrimary|done]|apply upto_refl|]. intros e ts π1 Hu [Hne He]. cbn [app] in Hu.
  apply spells_up in He. do 2 step. step; [step; by exists ts|].
  apply (wpp_while s (λ e π', chained π e π') (λ _, left)); [by exists ts|apply left_bound|].
  clear π1 ts e Hu Hne He. intros e π1 (ts & Hu & Hne & He). pose proof (upto_le s _ _ _ Hu).
  eapply wpp_mono; [eapply stepped_chain; [exact Hu|done|done|lia]| |done]. by intros [e'|e'] π2.
Qed.
End calls.
