(* ===== verification/ParseOperators.v ===== *)
(** * Operators: what they consume

    Unary and postfix operators, the levels of binary operators, conditionals,
    [yield] and assignments; then all productions, by induction on their fuel. *)

From S2P Require Import Prelude GoString Diag Token Lexer LexerFacts LexerPos Stream StreamFacts Expr ParsePrimary ParseExpr Grammar.
From S2P Require Import ParseWp ParseRules ParseLists ParseMembers ParseArrow ParsePrimaries ParseCalls.

Open Scope Z_scope.

Section unaries.
Context `{U : Unicode} {OP : Opaque} (s : string) {L : Languages} {E : Elsewhere} {EO : ElsewhereOk s}.
Context (n : nat) (G : Self) (HG : good_self s n G).
Abbreviation wpp := (wpp s).
Abbreviation upto := (upto s).
Abbreviation view := (view s).
Abbreviation left := (left s).
Abbreviation part := (part s).
Abbreviation reads k m π := (part m (λ ts e, ts ≠ [] ∧ Spells k ts e) π).

Lemma good_parsePostfix : good s (S n) (parsePostfix G) (Spells 15).
Proof.
  intros π Hn. unfold parsePostfix. step.
  eapply wpp_part; [eapply good_part; [by eapply good_parseCallMember|done]|apply upto_refl|]. intros e ts π1 Hu [Hne He]. cbn [app] in Hu.
  do 2 step. apply upto_next in Hu as Hu1. steps.
  - by eapply upto_from.
  - kinds. eexists. split; [exact Hu1|]. split; [by destruct ts|]. by apply spells_postfix.
  - exists ts. split; [done|]. split; [done|]. by apply spells_up.
Qed.

(** An operator and its operand. *)
Lemma reads_operator π (k : Token → Expr → PM Expr) :
  (left π ≤ S n)%nat →
  (∀ e ts π', upto π (view π :: ts) π' → Spells 14 ts e →
     wpp (k (view π) e) (λ e π', ∃ ts, upto π ts π' ∧ ts ≠ [] ∧ Spells 14 ts e) (from π) π') →
  reads 14%nat (op ← advance; arg ← self_unary G; k op arg) π.
Proof.
  intros Hn Hk. unfold ParseMembers.part. do 3 step.
  eapply wpp_part; [eapply good_part; [apply HG|by apply next_le]|apply upto_one|]. intros e ts π' Hu [_ He]. by apply (Hk e ts).
Qed.
Lemma reads_unary π f : (left π ≤ S n)%nat → unary_operator (view π) = Some (f (view π)) →
  reads 14%nat (unary_operation G f) π.
Proof.
  intros Hn Hf. apply reads_operator; [done|]. intros e ts π' Hu He. steps. eexists. split; [exact Hu|]. split; [done|].
  by apply spells_unary.
Qed.
Lemma reads_generic_arrow π : (left π ≤ S n)%nat → reads 14%nat (parseGenericArrow G) π.
Proof.
  intros Hn. unfold ParseMembers.part, parseGenericArrow. step.
  eapply wpp_part; [eapply (good_part _ (S n)); [by eapply parseTypeParameterNodes_ok|done]|apply upto_refl|].
  intros tps ts π1 Hu [Hne Ht]. cbn [app] in Hu. pose proof (upto_le s _ _ _ Hu). step.
  eapply (wpp_parseArrowFunction s n G HG); [exact Hu|lia|]. intros e ts' π2 Hu2 He. step. eexists. split; [exact Hu2|].
  split; [by destruct ts|]. by apply spells_generic_arrow.
Qed.
Lemma reads_cast π : Type_ (view π) = LT → (left π ≤ S n)%nat → reads 14%nat (type_assertion G) π.
Proof.
  intros Ho Hn. unfold ParseMembers.part, type_assertion. pose proof (next_le s n π Hn). do 3 step.
  eapply wpp_part; [eapply (good_part _ (S n)); [by eapply parseTypeAnnotation_ok|lia]|apply upto_one|].
  intros ta ts π1 Hu [Hne Ht]. step. step. step; [|by eapply upto_from]. kinds. apply upto_next in Hu as Hu1. step.
  eapply wpp_part; [eapply good_part; [apply HG|]|exact Hu1|].
  { pose proof (upto_left s _ _ _ Hu1 ltac:(by destruct ts)). lia. }
  intros e us π2 Hu2 [_ He]. steps. eexists. split; [exact Hu2|]. rewrite <- !app_assoc. cbn [app]. split; [done|]. by eapply spells_cast.
Qed.

Lemma reads_unary_of π : (left π ≤ S n)%nat → reads 14%nat (unary_of G (view π)) π.
Proof.
  intros Hn. unfold unary_of. destruct (Type_ (view π)) eqn:Ht.
  all: try (by eapply good_part; [|exact Hn]; eapply good_mono; [intros ? ?; apply spells_up|by eapply good_parsePostfix]).
  all: try (by apply reads_unary; [done|unfold unary_operator; rewrite Ht]).
  all: apply reads_operator; [done|]; intros e ts π' Hu He; steps.
  all: try (by eapply upto_from).
  all: eexists; split; [exact Hu|]; split; [done|].
  - by eapply spells_void.
  - by eapply spells_void_effect.
  - by eapply spells_await.
  - kinds. eapply spells_update; [rewrite Ht; by left|done|done].
  - kinds. eapply spells_update; [rewrite Ht; right; by left|done|done].
Qed.
Lemma good_parseUnary : good s (S n) (parseUnary G) (Spells 14).
Proof.
  intros π Hn. unfold parseUnary. do 2 step. step.
  { pose proof (is_word_ident _ _ Heqb) as Hi. eapply wpp_part; [apply (reads_unary π (λ _, "delete"%string)); [done|]|apply upto_refl|].
    - unfold unary_operator. by rewrite Hi, Heqb.
    - intros e ts π' Hu He. by exists ts. }
  step. eapply (wpp_mono _ _ (λ b π', alike s π π')); [| |done].
  { destruct (kind_is (view π) LT) eqn:Hlt; [|step; apply alike_refl]. kinds.
    apply look_genericArrowAhead with (n := n) (EO := EO); [done|done| |done].
    rewrite Hlt. intros Hin. repeat (apply elem_of_cons in Hin as [?|Hin]; [done|]). by apply elem_of_nil in Hin. }
  intros b π1 Hal. rewrite <- (alike_left s π π1) in Hn by done.
  step; [by apply (reads_alike s _ (λ ts e, ts ≠ [] ∧ Spells 14 ts e) _ _ Hal), reads_generic_arrow|].
  do 3 step; kinds; [by apply (reads_alike s _ (λ ts e, ts ≠ [] ∧ Spells 14 ts e) _ _ Hal), reads_cast|].
  do 2 step. by apply (reads_alike s _ (λ ts e, ts ≠ [] ∧ Spells 14 ts e) _ _ Hal), reads_unary_of.
Qed.
Lemma good_parseExponentiation : good s (S n) (parseExponentiation G) (Spells 13).
Proof.
  intros π Hn. unfold parseExponentiation. do 3 step.
  eapply wpp_part; [eapply good_part; [by eapply good_parseUnary|done]|apply upto_refl|]. intros e ts π1 Hu [Hne He]. cbn [app] in Hu.
  do 3 step; [|step; exists ts; split; [done|]; split; [done|]; by apply spells_up]. kinds. cbv zeta.
  step; [step; by eapply upto_from|]. do 3 step. apply upto_next in Hu as Hu1.
  eapply wpp_part; [eapply good_part; [apply HG|]|exact Hu1|].
  { pose proof (upto_left s _ _ _ Hu1 ltac:(by destruct ts)). lia. }
  intros r us π2 Hu2 [_ Hr]. steps. eexists. split; [exact Hu2|]. rewrite <- app_assoc. cbn [app]. split; [by destruct ts|].
  eapply spells_power; [done|by eapply upto_starts| |done|done].
  by match goal with H : negb _ = false |- _ => apply negb_false_iff, bool_decide_eq_true in H end.
Qed.
End unaries.

(** ** Binary operators: what they consume *)

Section binary.
Context `{U : Unicode} {OP : Opaque} (s : string) {L : Languages} {E : Elsewhere} {EO : ElsewhereOk s}.
Context (n : nat) (G : Self) (HG : good_self s n G).
Abbreviation wpp := (wpp s).
Abbreviation upto := (upto s).
Abbreviation view := (view s).
Abbreviation left := (left s).
Abbreviation part := (part s).

(** ** The test for an operator *)

(** It answers whether the token at hand is an operator of the level, which it may read again. *)
Definition tests (operator : PM bool) (k : nat) : Prop := ∀ π (Q : bool → point → Prop) X,
  (∀ b π', reread π π' → (b = true → binary_level_of (view π') = Some k) → Q b π') → wpp operator Q X π.

Definition of_level (k : nat) (types : list TokenType) : Prop := ∀ t, Type_ t ∈ types → binary_level_of t = Some k.
Ltac of_level := intros t Ht; unfold binary_level_of; repeat (apply elem_of_cons in Ht as [->|Ht]; [done|]); by apply elem_of_nil in Ht.
Lemma tests_peek_in k types : of_level k types → tests (peek_in types) k.
Proof. intros Ht π Q X HQ. unfold peek_in. steps. apply HQ; [apply reread_refl|]. intros Hk. apply Ht. by kinds. Qed.
Lemma tests_check k ty : of_level k [ty] → tests (check ty) k.
Proof. intros Ht π Q X HQ. steps. apply HQ; [apply reread_refl|]. intros Hk. apply Ht. kinds. rewrite Hk. by left. Qed.
Lemma tests_operator_in k first types : of_level k (first :: types) → first ≠ YIELD → first ≠ AWAIT → tests (operator_in first types) k.
Proof.
  intros Ht H1 H2 π Q X HQ. unfold operator_in. step. apply wpp_peekOperator. intros t π1 Hr Hv _. step; kinds.
  - step. apply HQ; [done|]. intros _. apply Ht. destruct Hv as [->|[Hv|Hv]]; [rewrite Heqb; by left|congruence..].
  - apply tests_peek_in with k; [intros u Hu; apply Ht; by right|]. intros b π2 Hr2 Hb. apply HQ; [by eapply reread_trans|done].
Qed.

(** ** A level *)

Definition spelled (k : nat) (π0 : point) (e : Expr) (π : point) : Prop := ∃ ts, upto π0 ts π ∧ ts ≠ [] ∧ Spells k ts e.
Lemma level_eof t k : binary_level_of t = Some k → Type_ t ≠ EOF.
Proof. intros H He. unfold binary_level_of, is_word, kind_is in H. by rewrite He in H. Qed.
Lemma good_binary_level operator next k :
  tests operator k → good s (S n) next (Spells (S k)) → good s (S n) (binary_level operator next) (Spells k).
Proof.
  intros Ho Hnext π Hn. unfold binary_level. step.
  eapply wpp_part; [by eapply good_part|apply upto_refl|]. intros e ts π1 Hu [Hne He]. apply spells_up in He.
  apply (wpp_while s (λ e π', spelled k π e π') (λ _, left)); [by exists ts|apply left_bound|].
  clear π1 ts e Hu Hne He. intros e π1 (ts & Hu & Hne & He). step. apply Ho. intros b π2 Hr Hb.
  assert (upto π ts π2) as Hu2 by by eapply reread_upto. pose proof (reread_left s _ _ Hr) as Hl.
  step; [|step; by exists ts]. specialize (Hb eq_refl). pose proof (left_pos s π2 (level_eof _ _ Hb)).
  do 3 step. apply upto_next in Hu2 as Hu3. pose proof (upto_le s _ _ _ Hu3). pose proof (left_then_next s π2).
  eapply wpp_part_left; [eapply good_part; [exact Hnext|lia]|exact Hu3|]. intros r us π3 Hu4 Hl3 [Hne3 Hr3]. specialize (Hl3 Hne3).
  steps. split; [|lia]. eexists. split; [exact Hu4|]. rewrite <- app_assoc. cbn [app]. split; [by destruct ts|]. by apply spells_binary.
Qed.

Lemma good_parseMultiplicative : good s (S n) (parseMultiplicative G) (Spells 12).
Proof. apply good_binary_level; [apply tests_operator_in; [of_level|done|done]|by eapply good_parseExponentiation]. Qed.
Lemma good_parseAdditive : good s (S n) (parseAdditive G) (Spells 11).
Proof. apply good_binary_level; [apply tests_peek_in; of_level|by apply good_parseMultiplicative]. Qed.
Lemma good_parseShift : good s (S n) (parseShift G) (Spells 10).
Proof. apply good_binary_level; [apply tests_operator_in; [of_level|done|done]|by apply good_parseAdditive]. Qed.

(** ** Relational operators *)

Lemma wpp_parseAssertion e π0 ts π : upto π0 ts π → (left π ≤ S n)%nat → ts ≠ [] → Spells 9 ts e →
  wpp (parseAssertion G e) (λ r π', if r.2 : bool then spelled 9 π0 r.1 π' ∧ (left π' < left π)%nat else r.1 = e ∧ π' = π) (from π0) π.
Proof.
  intros Hu Hn Hne He. unfold parseAssertion. do 2 step. step; [by step|].
  assert (Type_ (view π) = IDENT) as Hi.
  { destruct (is_word (view π) "as") eqn:Ha; [by apply is_word_ident in Ha|].
    destruct (is_word (view π) "satisfies") eqn:Hs; [by apply is_word_ident in Hs|]. done. }
  apply orb_false_iff in Heqb as [Hw Hb]. apply upto_next in Hu as Hu1. pose proof (left_then_next s π).
  assert (left (next π) < left π)%nat as Hlt by (apply next_left; by rewrite Hi).
  apply negb_false_iff in Hw.
  assert (∀ w, is_word (view π) w = bool_decide (Literal (view π) = w)) as Hword by (intros w; unfold is_word, kind_is; by rewrite Hi).
  do 3 step. set (t := view π) in *. clearbody t. rewrite <- !Hword.
  assert (∀ e' us π', upto π0 ((ts ++ [t]) ++ us) π' → (left π' ≤ left (next π))%nat → Spells 9 (ts ++ t :: us) e'
    → spelled 9 π0 e' π' ∧ (left π' < left π)%nat) as Hdone.
  { intros e' us π' Hu2 Hl2 He'. split; [|lia]. eexists. split; [exact Hu2|]. rewrite <- app_assoc. split; [by destruct ts|done]. }
  assert (wpp (
    ta ← parseTypeAnnotation G "as";
    (if is_word t "satisfies"
     then assert_ e (λ a, mkAssertion (Const a) (Some ta) (Cast a)) else mret tt) ≫= λ _,
    if is_word t "as" then
      if assertableCall e then mret (with_asserted ta e, true)
      else e ← make (posOf t) (AsExpression e ta); mret (e, true)
    else mret (e, true))
    (λ r π', if r.2 : bool then spelled 9 π0 r.1 π' ∧ (left π' < left π)%nat else r.1 = e ∧ π' = π) (from π0) (next π)) as Htype.
  { step. eapply wpp_part_left; [eapply (good_part _ (S n)); [by eapply parseTypeAnnotation_ok|lia]|exact Hu1|].
    intros ta us π1 Hu2 Hl [Hne2 Ht]. specialize (Hl Hne2). step.
    eapply (wpp_mono _ _ (λ _ π', π' = π1)); [destruct (is_word t "satisfies"); by step| |done]. intros _ π' ->.
    destruct (is_word t "as") eqn:Ha.
    - pose proof (λ i, spells_as ts e t us ta i He Ha Hb Ht) as Hs.
      destruct (assertableCall e); [step|do 3 step]; cbn [fst snd]; (eapply Hdone; [exact Hu2|lia|]); apply (Hs 0%nat) || apply Hs.
    - step. eapply Hdone; [exact Hu2|lia|]. by eapply spells_satisfies. }
  revert Htype. destruct (is_word t "as") eqn:Ha; intros Htype; [|by step].
  do 2 step; [|done]. do 5 step. kinds. apply upto_next in Hu1 as Hu2.
  eapply Hdone; [exact Hu2|apply left_then_next|]. by apply spells_as_const.
Qed.
Lemma wpp_no_assertion e (Q : Expr * bool → point → Prop) X π :
  is_word (view π) "as" || is_word (view π) "satisfies" = false → Q (e, false) π → wpp (parseAssertion G e) Q X π.
Proof. intros H HQ. unfold parseAssertion. do 2 step. rewrite H. cbn [negb orb]. by step. Qed.

(** What a relational expression has read so far: operands, or the name of a brand check. *)
Definition related_by (ts : list Token) (e : Expr) (π : point) : Prop :=
  (ts ≠ [] ∧ Spells 9 ts e)
  ∨ ∃ x j, ts = [x] ∧ e = mkExpr j (posOf x) (Identifier (Literal x)) ∧ Type_ x = PRIVATE_NAME
      ∧ is_word (view π) "in" = true ∧ excluded s π = false.
Definition related (π0 : point) (e : Expr) (π : point) : Prop := ∃ ts, upto π0 ts π ∧ related_by ts e π.
Lemma related_spells ts e π us r i : related_by ts e π → binary_level_of (view π) = Some 9%nat → Spells 10 us r →
  ts ++ view π :: us ≠ [] ∧ Spells 9 (ts ++ view π :: us) (mkExpr i (posOf (view π)) (BinaryExpression (Literal (view π)) e r)).
Proof.
  intros [[Hne He]|(x & j & -> & -> & Hx & Hin & _)] Hb Hr; split.
  - by destruct ts.
  - by apply spells_binary.
  - done.
  - by apply spells_brand.
Qed.

Lemma wpp_relational_operator (Q : bool → point → Prop) X π :
  (∀ b π', reread π π' → (b = true → binary_level_of (view π') = Some 9%nat) →
     (is_word (view π) "in" = true → excluded s π = false → b = true ∧ π' = π) → Q b π') → wpp relational_operator Q X π.
Proof.
  intros HQ. unfold relational_operator. step. apply wpp_peekOperator. intros t π1 Hr Hv Hsame.
  assert (is_word (view π) "in" = true → π1 = π ∧ t = view π) as Hin.
  { intros Hw. apply Hsame. apply is_word_ident in Hw. rewrite Hw. intros Hx.
    repeat (apply elem_of_cons in Hx as [?|Hx]; [done|]). by apply elem_of_nil in Hx. }
  assert (∀ b, b = true → is_word (view π) "in" = true → excluded s π = false → b = true ∧ π1 = π) as Hkeep by (intros b -> Hw _; by destruct (Hin Hw)).
  steps; kinds.
  - apply HQ; [done| |by apply Hkeep]. intros _. unfold binary_level_of.
    destruct Hv as [<-|[Hv|Hv]]; [by rewrite Heqb|congruence..].
  - apply HQ; [done| |by apply Hkeep]. intros _. unfold binary_level_of.
    repeat (apply elem_of_cons in Heqb0 as [->|Heqb0]; [done|]). by apply elem_of_nil in Heqb0.
  - apply HQ; [done| |].
    + intros _. unfold binary_level_of. by rewrite (is_word_ident _ _ Heqb1), Heqb1.
    + intros Hw Hx. destruct (Hin Hw) as [-> _]. by rewrite Hx.
  - apply HQ; [done|done|]. intros Hw _. destruct (Hin Hw) as [-> _]. congruence.
Qed.
Lemma wpp_brand_check (Q : bool → point → Prop) X π :
  Q false π → (Type_ (view π) = PRIVATE_NAME → is_word (view (next π)) "in" = true → excluded s (next π) = false → Q true π) →
  wpp (brand_check (view π)) Q X π.
Proof.
  intros Hno Hyes. unfold brand_check. steps; [|done..]. kinds.
  destruct (excluded s π) eqn:Hx; [done|]. apply Hyes; [done| |].
  - pose proof (view_at s π 1 _ (is_word_ident _ _ Heqb0) ltac:(done) ltac:(done)) as Hv. change (next π) with (set_place (1 + place π) π).
    by rewrite Hv.
  - rewrite excluded_next; [done|]. rewrite <- (view_type s π); by rewrite Heqb.
Qed.

Lemma wpp_related_assertion e π0 π : related π0 e π → (left π0 ≤ S n)%nat →
  wpp (parseAssertion G e) (λ r π', if r.2 : bool then spelled 9 π0 r.1 π' ∧ (left π' < left π)%nat else r.1 = e ∧ π' = π) (from π0) π.
Proof.
  intros (ts & Hu & [[Hne He]|(x & j & -> & -> & Hx & Hin & Hex)]) Hn.
  - pose proof (upto_le s _ _ _ Hu). eapply wpp_parseAssertion; [exact Hu|lia|done|done].
  - apply wpp_no_assertion; [|done].
    unfold is_word in *. apply andb_true_iff in Hin as [-> Hl]. apply bool_decide_eq_true in Hl. by rewrite Hl.
Qed.
Lemma wpp_related_step e π0 π : related π0 e π → (left π0 ≤ S n)%nat → wpp (relational_step G e)
  (λ r π', match r with inl e' => related π0 e' π' ∧ (left π' < left π)%nat | inr e' => spelled 9 π0 e' π' end) (from π0) π.
Proof.
  intros Hrel Hn. unfold relational_step. step. eapply wpp_mono; [by apply wpp_related_assertion| |done].
  intros [e1 [|]] π1; cbn [fst snd].
  { intros [(ts & Hu & Hs) Hl]. step. split; [|done]. exists ts. split; [done|by left]. }
  intros [-> ->]. destruct Hrel as (ts & Hu & Hrel). step. apply wpp_relational_operator. intros b π1 Hr Hb Hbrand.
  assert (related_by ts e π1 ∧ (b = false → ts ≠ [] ∧ Spells 9 ts e)) as [Hrel1 Hstop].
  { destruct Hrel as [H|(x & j & ? & ? & ? & Hin & Hex)]; [by split; [left|]|].
    destruct (Hbrand Hin Hex) as [-> ->]. split; [|done]. right. by exists x, j. }
  assert (upto π0 ts π1) as Hu1 by by eapply reread_upto. pose proof (reread_left s _ _ Hr) as Hl.
  step; [|step; exists ts; split; [done|by apply Hstop]]. specialize (Hb eq_refl). pose proof (left_pos s π1 (level_eof _ _ Hb)).
  pose proof (left_then_next s π1). pose proof (upto_le s _ _ _ Hu). apply upto_next in Hu1 as Hu2. do 5 step.
  eapply wpp_part_left; [eapply good_part; [apply good_parseShift|lia]|exact Hu2|]. intros r us π2 Hu3 Hl3 [Hne3 Hr3].
  specialize (Hl3 Hne3). rewrite <- app_assoc in Hu3. steps; [by eapply upto_from|]. split; [|lia].
  eexists. split; [exact Hu3|]. left. by apply related_spells.
Qed.
Lemma good_parseRelational : good s (S n) (parseRelational G) (Spells 9).
Proof.
  intros π Hn. unfold parseRelational. do 3 step.
  assert (∀ e π1, related π e π1 → wpp (while (relational_step G) e) (spelled 9 π) (from π) π1) as Hloop.
  { intros e π1 Hrel. apply (wpp_while s (related π) (λ _, left)); [done|apply left_bound|]. intros e' π' Hrel'. by apply wpp_related_step. }
  assert (wpp (left ← parseShift G; while (relational_step G) left) (spelled 9 π) (from π) π) as Hshift.
  { step. eapply wpp_part; [eapply good_part; [apply good_parseShift|done]|apply upto_refl|]. intros e ts π1 Hu [Hne He].
    apply Hloop. exists ts. split; [done|]. left. split; [done|]. by apply spells_up. }
  apply wpp_brand_check; [exact Hshift|]. intros Hp Hin Hex. do 4 step. apply Hloop. exists [view π].
  split; [apply upto_one|]. right. by exists (view π), i.
Qed.
Lemma good_parseEquality : good s (S n) (parseEquality G) (Spells 8).
Proof. apply good_binary_level; [apply tests_peek_in; of_level|apply good_parseRelational]. Qed.
Lemma good_parseBitwiseAnd : good s (S n) (parseBitwiseAnd G) (Spells 7).
Proof. apply good_binary_level; [apply tests_check; of_level|apply good_parseEquality]. Qed.
Lemma good_parseBitwiseXor : good s (S n) (parseBitwiseXor G) (Spells 6).
Proof. apply good_binary_level; [apply tests_check; of_level|apply good_parseBitwiseAnd]. Qed.
Lemma good_parseBitwiseOr : good s (S n) (parseBitwiseOr G) (Spells 5).
Proof. apply good_binary_level; [apply tests_check; of_level|apply good_parseBitwiseXor]. Qed.
Lemma good_parseLogicalAnd : good s (S n) (parseLogicalAnd G) (Spells 4).
Proof. apply good_binary_level; [apply tests_check; of_level|apply good_parseBitwiseOr]. Qed.
Lemma good_parseLogicalOr : good s (S n) (parseLogicalOr G) (Spells 3).
Proof. apply good_binary_level; [apply tests_check; of_level|apply good_parseLogicalAnd]. Qed.
Lemma good_parseNullish : good s (S n) (parseNullish G) (Spells 2).
Proof. apply good_binary_level; [apply tests_check; of_level|apply good_parseLogicalOr]. Qed.
End binary.

(** ** Conditionals, [yield] and assignments: what they consume *)

Section assign.
Context `{U : Unicode} {OP : Opaque} (s : string) {L : Languages} {E : Elsewhere} {EO : ElsewhereOk s}.
Context (n : nat) (G : Self) (HG : good_self s n G).
Abbreviation wpp := (wpp s).
Abbreviation upto := (upto s).
Abbreviation view := (view s).
Abbreviation left := (left s).
Abbreviation part := (part s).
Abbreviation reads k m π := (part m (λ ts e, ts ≠ [] ∧ Spells k ts e) π).

(** An assignment expression, once a token has been read. *)
Lemma wpp_operand π0 ts (Q : Expr → point → Prop) π : upto π0 ts π → (left π0 ≤ S n)%nat → ts ≠ [] →
  (∀ e ts' π', upto π0 (ts ++ ts') π' → Spells 0 ts' e → Q e π') → wpp (self_assignment G) Q (from π0) π.
Proof.
  intros Hu Hn Hne HQ. eapply wpp_part; [eapply good_part; [apply HG|]|exact Hu|].
  - pose proof (upto_left s _ _ _ Hu Hne). lia.
  - intros e ts' π' Hu' [_ He]. by eapply HQ.
Qed.
Lemma good_parseTernary : good s (S n) (parseTernary G) (Spells 1).
Proof.
  intros π Hn. unfold parseTernary. step.
  eapply wpp_part; [eapply good_part; [by eapply good_parseNullish|done]|apply upto_refl|]. intros c ts π1 Hu [Hne Hc]. cbn [app] in Hu.
  do 3 step; [|step; exists ts; split; [done|]; split; [done|]; by apply spells_up]. kinds.
  apply upto_next in Hu as Hu1. do 3 step. eapply wpp_operand; [exact Hu1|done|by destruct ts|]. intros a us π2 Hu2 Ha.
  do 2 step. step; [|by eapply upto_from]. kinds. apply upto_next in Hu2 as Hu3. step.
  eapply wpp_operand; [exact Hu3|done|by destruct ts|]. intros b vs π3 Hu4 Hb. steps.
  eexists. split; [exact Hu4|]. rewrite <- !app_assoc. cbn [app]. split; [by destruct ts|]. by apply spells_conditional.
Qed.

(** ** [yield] *)

Lemma wpp_yieldOutside (Q : bool → point → Prop) X π :
  (∀ b, (b = true → Type_ (raw s π (place π)) = YIELD) → Q b π) → wpp yieldExprOutsideGenerator Q X π.
Proof.
  intros HQ. unfold yieldExprOutsideGenerator. step. apply wpp_get. intros p Hp. rewrite (at_place _ _ _ Hp).
  step. apply wpp_at. step; [step; by apply HQ|]. step. apply wpp_at. apply orb_false_iff in Heqb as [Hy _].
  steps; apply HQ; [done|]. intros _. by kinds.
Qed.
Lemma view_is_yield π : Type_ (raw s π (place π)) = YIELD → is_yield (view π).
Proof. intros H. destruct (view_cases s π) as [->|[_ ->]]; [by left|right; eauto]. Qed.
Lemma reads_yield π : is_yield (view π) → (left π ≤ S n)%nat → reads 0%nat (parseYield G) π.
Proof.
  intros Hy Hn. unfold ParseMembers.part, parseYield. do 2 step. cbv zeta. step. apply wpp_get. intros p _.
  step; [step; by eapply (upto_from s), upto_one|]. do 3 step.
  eapply (wpp_part s (if HasPrecedingLineBreak (view (next π)) then mret false else match_ [STAR]) (perhaps STAR)); [|apply upto_one|].
  { destruct (HasPrecedingLineBreak _); [|apply part_perhaps]. unfold ParseMembers.part. step. exists []. split; [apply upto_refl|constructor]. }
  intros d ts π1 Hu Hd.
  assert (∀ i, ∃ us, upto π us π1 ∧ us ≠ [] ∧ Spells 0 us (mkExpr i (posOf (view π)) (YieldExpression None d))) as Hnone.
  { intros i. exists (view π :: ts). split; [done|]. split; [done|]. by apply spells_yield. }
  do 3 step; [by step|]. step; [by step|]. step. eapply wpp_operand; [exact Hu|done|done|]. intros e us π2 Hu2 He. steps.
  eexists. split; [exact Hu2|]. split; [done|]. by apply spells_yield_value.
Qed.

(** ** Assignments *)

Lemma good_parseAssignment : good s (S n) (parseAssignment G) (Spells 0).
Proof.
  intros π Hn. unfold parseAssignment. do 3 step.
  eapply (wpp_mono s _ (λ b π', π' = π ∧ (b = true → is_yield (view π)))); [| |done].
  { step; [step; split; [done|]; intros _; left; by kinds|]. apply wpp_yieldOutside. intros b Hb. split; [done|]. intros ->. by apply view_is_yield, Hb. }
  intros b π' [-> Hb]. step; [by apply reads_yield; [apply Hb|]|]. step.
  eapply wpp_part; [eapply good_part; [by eapply good_parseTernary|done]|apply upto_refl|]. intros l ts π1 Hu [Hne Hl]. cbn [app] in Hu.
  step. apply wpp_peekOperator. intros t π2 Hr Ht _. assert (upto π ts π2) as Hu2 by by eapply reread_upto.
  step; [|step; exists ts; split; [done|]; split; [done|]; by apply spells_up]. kinds.
  assert (t = view π2) as ->.
  { destruct Ht as [?|[Ht|Ht]]; [done|..]; rewrite Ht in *; exfalso;
      repeat match goal with H : _ ∈ _ |- _ => apply elem_of_cons in H as [?|H]; [done|] end; by eapply elem_of_nil. }
  apply upto_next in Hu2 as Hu3. do 3 step. apply wpp_get. intros p _. step; [step; by eapply upto_from|]. step.
  eapply wpp_operand; [exact Hu3|done|by destruct ts|]. intros r us π3 Hu4 Hrr. steps. eexists. split; [exact Hu4|].
  rewrite <- app_assoc. cbn [app]. split; [by destruct ts|].
  kinds. by apply spells_assignment.
Qed.
End assign.

(** ** At the end of the text *)

Section at_end.
Context `{U : Unicode} {OP : Opaque} (s : string) {E : Elsewhere} (G : Self).
Abbreviation view := (view s).

(** No expression starts at the end of the text: a production fails there, before it calls another again. *)
Definition fails_at_end {A} (m : PM A) : Prop := ∀ π (Q : A → point → Prop), Type_ (view π) = EOF → wpp s m Q (from π) π.

Lemma end_bind {A B} (m : PM A) (k : A → PM B) : fails_at_end m → fails_at_end (m ≫= k).
Proof. intros H π Q He. step. by apply H. Qed.
Lemma end_peek {A} (k : Token → PM A) : (∀ t, Type_ t = EOF → fails_at_end (k t)) → fails_at_end (t ← peek; k t).
Proof. intros H π Q He. do 2 step. by apply H. Qed.
Lemma end_check {A} ty (k : bool → PM A) : ty ≠ EOF → fails_at_end (k false) → fails_at_end (b ← check ty; k b).
Proof. intros Ht H π Q He. do 2 step. unfold kind_is. rewrite He. destruct (tok_eqb EOF ty) eqn:Hx; [|by apply H]. by apply tok_eqb_eq in Hx. Qed.

Lemma end_parsePrimary : fails_at_end (parsePrimary G).
Proof.
  intros π Q He. unfold parsePrimary. step. apply wpp_peekPrimary. intros t π' _ _ Hsame.
  destruct Hsame as [-> ->]; [rewrite He; intros H; repeat (apply elem_of_cons in H as [?|H]; [done|]); by apply elem_of_nil in H|].
  unfold primary_of. rewrite He. step. apply from_refl.
Qed.
Lemma end_parseUnary : fails_at_end (parseUnary G).
Proof.
  unfold parseUnary. apply end_peek. intros t He.
  destruct (is_word t "delete") eqn:Hd; [apply is_word_ident in Hd; congruence|].
  destruct (kind_is t LT) eqn:Hl; [apply kind_is_eq in Hl; congruence|].
  enough (fails_at_end (lt ← check LT; if lt : bool then type_assertion G else t ← peek; unary_of G t)) as H.
  { intros π Q Hv. do 2 step. by apply H. }
  apply end_check; [done|]. apply end_peek. intros u Hu. unfold unary_of. rewrite Hu.
  unfold parsePostfix, parseCallMember. apply end_bind, end_peek. intros v _. apply end_bind, end_parsePrimary.
Qed.
Lemma end_parseExponentiation : fails_at_end (parseExponentiation G).
Proof. apply end_peek. intros t _. apply end_bind, end_parseUnary. Qed.
Lemma end_parseRelational : fails_at_end (parseRelational G).
Proof.
  apply end_peek. intros t He. unfold brand_check. destruct (kind_is t PRIVATE_NAME) eqn:Hp; [apply kind_is_eq in Hp; congruence|].
  enough (fails_at_end (left ← parseShift G; while (relational_step G) left)) as H.
  { intros π Q Hv. do 2 step. by apply H. }
  apply end_bind. do 3 apply end_bind. apply end_parseExponentiation.
Qed.
Lemma end_parseAssignment : fails_at_end (parseAssignment G).
Proof.
  apply end_check; [done|]. intros π Q He. step. unfold yieldExprOutsideGenerator. step. apply wpp_get. intros p Hp. rewrite (at_place _ _ _ Hp).
  step. apply wpp_at. assert (raw s π (place π) = view π) as -> by (symmetry; apply view_type; by rewrite He).
  assert (kind_is (view π) YIELD = false) as -> by (apply not_true_iff_false; intros Hy; apply kind_is_eq in Hy; congruence).
  cbn [negb orb]. step. enough (fails_at_end (parseTernary G)) as H by (step; by apply H).
  unfold parseTernary. do 8 apply end_bind. apply end_parseRelational.
Qed.
End at_end.

(** ** The knot *)

Section knot.
Context `{U : Unicode} {OP : Opaque} (s : string) {L : Languages} {E : Elsewhere} {EO : ElsewhereOk s}.

Lemma good_at_end {A} (m : PM A) La : fails_at_end s m → good s 0 m La.
Proof.
  intros H π Hn. apply H. destruct (tok_eqb (Type_ (view s π)) EOF) eqn:He; [by apply tok_eqb_eq|].
  pose proof (left_pos s π ltac:(intros Hx; apply tok_eqb_eq in Hx; congruence)). lia.
Qed.
(** The productions with fuel for one token more than there are do their part. *)
Lemma good_productions n : good_self s n (productions (S n)).
Proof.
  induction n as [|n IH].
  - constructor; apply good_at_end;
      [apply end_parseAssignment|apply end_parseExponentiation|apply end_parseUnary|apply end_parsePrimary].
  - constructor; [by eapply good_parseAssignment|by eapply good_parseExponentiation|by eapply good_parseUnary|by eapply good_parsePrimary].
Qed.
End knot.
