(* ===== verification/ParseProps.v ===== *)
(** * Properties of the parser of expressions *)

From S2P Require Import Prelude GoString Diag Token Lexer LexerFacts LexerPos Ast Stream StreamFacts Expr.
From S2P Require Import ParsePrimary ParseExpr Grammar ParseWp ParseRules ParseLists ParseOperators.
Open Scope Z_scope.

Section props.
Context `{U : Unicode} {OP : Opaque} (s : string) {L : Languages} {E : Elsewhere}.

(** The point a parser starts from. *)
Definition start : point := mkPoint (λ _, ScanDefault) 0 false awaitTop None 0.
Lemma at_start : at_point s start (NewParser s).
Proof. constructor; try done. apply lined_New. Qed.

Lemma wpp_parseExpression {EO : ElsewhereOk s} π :
  wpp s parseExpression (λ e π', ∃ ts, upto s π ts π' ∧ ts ≠ [] ∧ Spells 0 ts e) (from π) π.
Proof.
  unfold parseExpression, rounds. apply wpp_bind, wpp_gets. intros p [[Hl _] _ _ _ _ _ _].
  rewrite (ready_src _ _ (lined_ready _ _ _ Hl)).
  apply (good_assignment s _ _ (good_productions s (S (length (runes_of s))))). apply left_bound.
Qed.

(** C10: the parser of expressions accepts only the language: where it answers
    a tree, the tokens it has read, from the one it was at to the one it stops
    before, spell that tree in the grammar, which says the precedence and
    associativity of every operator, the forms of calls, arrow functions,
    templates, [new], literals and assignments, and what may be assigned to; at least one token is
    read, those before it are as they were, and so is the context. *)
Theorem expression_spells {EO : ElsewhereOk s} π p e p' :
  at_point s π p → parseExpression p = (Ok e, p') →
  ∃ ts π', at_point s π' p' ∧ upto s π ts π' ∧ ts ≠ [] ∧ Spells 0 ts e.
Proof.
  intros Hp He. pose proof (wpp_parseExpression π p Hp) as H. rewrite He in H. destruct H as (π' & Hp' & ts & H). by exists ts, π'.
Qed.

(** C11: the parser of expressions always answers: from any point of any source,
    with the fuel it takes of one step for each rune left and one more, it answers a tree or an
    error, never a panic and never out of fuel: whatever it tries and takes back, every call of a
    production by another, and every round of a loop, has read a token that is there. *)
Theorem expression_total {EO : ElsewhereOk s} π p :
  at_point s π p →
  ∃ r p' π', parseExpression p = (r, p') ∧ at_point s π' p' ∧ from π π' ∧ ((∃ e, r = Ok e) ∨ ∃ d, r = Err d).
Proof.
  intros Hp. pose proof (wpp_parseExpression π p Hp) as H. destruct (parseExpression p) as [[e|d| |] p']; try done.
  - destruct H as (π' & Hp' & ts & Hu & _). exists (Ok e), p', π'. split_and!; [done|done|by eapply upto_from|eauto].
  - destruct H as (π' & Hp' & Hf). exists (Err d), p', π'. split_and!; [done|done|done|eauto].
Qed.
End props.

(** ** An instance

    Types are names, blocks and classes are empty, functions have no parameters. *)

Module Plain.
Instance plain_opaque : Opaque := {|
  BlockStatement := unit; FunctionDeclaration := unit; ClassDeclaration := unit; TypeParameter := string;
  starts_with_use_strict _ := false; fn_src _ := None; fn_name_pos _ := mkPos 0 0; set_class_src _ c := c; tp_name := id; tp_constraint _ := None; tp_default _ := None;
  EraseTypeParams ta _ := ta; eraseTypeParams f := f; NumberKey := id |}.

Section plain.
Context `{U : Unicode}.
(** The given types of tokens in a row. *)
Fixpoint row (types : list TokenType) : PM (list Token) :=
  match types with [] => mret [] | ty :: types => t ← expect ty; ts ← row types; mret (t :: ts) end.
Definition rows {A} (types : list TokenType) (f : list Token → A) : PM A := ts ← row types; mret (f ts).
Definition rows_of {A} (types : list TokenType) (f : list Token → A) (ts : list Token) (a : A) : Prop := map Type_ ts = types ∧ a = f ts.

Definition first_name (ts : list Token) : string := match ts with t :: _ => Literal t | [] => "" end.
Definition name_type (ts : list Token) : TypeAnnotation := mkTypeAnnotation (first_name ts) false "".
Definition empty_object (ts : list Token) : Expr := mkExpr 0 (mkPos 0 0) (ObjectLiteral [] false).
#[local] Existing Instance plain_opaque.
#[export] Instance plain_elsewhere : Elsewhere := {|
  parseType _ := rows [IDENT] (λ _, tt);
  parseTypeAnnotation _ _ := rows [IDENT] name_type;
  parseTypeParameterNodes _ _ := rows [LT; IDENT; GT] (λ ts, [first_name (tail ts)]);
  parseBlock _ := rows [LBRACE; RBRACE] (λ _, tt);
  parseFunctionRest _ _ _ _ _ := rows [LPAREN; RPAREN; LBRACE; RBRACE] (λ _, tt);
  parseClassDecl _ _ := rows [CLASS; LBRACE; RBRACE] (λ _, tt);
  parseImportExpr _ := rows [IMPORT; LPAREN; RPAREN] empty_object |}.
#[export] Instance plain_languages : Languages := {|
  LType := rows_of [IDENT] name_type;
  LTypeParams := rows_of [LT; IDENT; GT] (λ ts, [first_name (tail ts)]);
  LBlock := rows_of [LBRACE; RBRACE] (λ _, tt);
  LFunction _ _ _ := rows_of [LPAREN; RPAREN; LBRACE; RBRACE] (λ _, tt);
  LClass := rows_of [CLASS; LBRACE; RBRACE] (λ _, tt);
  LImport := rows_of [IMPORT; LPAREN; RPAREN] empty_object |}.

Lemma wpp_row s types π : wpp s (row types) (λ ts π', upto s π ts π' ∧ map Type_ ts = types) (from π) π.
Proof.
  revert π. induction types as [|ty types IH]; intros π; cbn [row]; [step; split; [apply upto_refl|done]|].
  step. step. step; [|apply from_refl]. pose proof (upto_next s π [] π (upto_refl s π)) as Hu. cbn [app] in Hu. step.
  eapply wpp_mono; [apply IH| |].
  - intros ts π' [Hu' Hts]. step. split; [exact (upto_trans s _ _ _ _ _ Hu Hu')|]. kinds. cbn. by rewrite Hts, Heqb.
  - intros π' Hf. eapply from_trans; [by eapply upto_from|done].
Qed.
Lemma good_rows {A} s n ty types (f : list Token → A) : good s n (rows (ty :: types) f) (rows_of (ty :: types) f).
Proof.
  intros π _. unfold rows. step. eapply wpp_mono; [apply wpp_row| |done]. intros ts π' [Hu Hts]. step.
  exists ts. split; [done|]. split; [by destruct ts|done].
Qed.
#[export] Instance plain_ok s : ElsewhereOk s.
Proof. constructor; intros; first [apply good_rows|eapply good_mono; [|apply good_rows]; done]. Qed.
End plain.
End Plain.

#[local] Existing Instance ascii_unicode.
#[local] Existing Instances Plain.plain_opaque Plain.plain_elsewhere Plain.plain_languages Plain.plain_ok.

(** What [parseExpression] answers on a source, read from its start. *)
Definition expression_of (s : string) : outcome Diagnostic Expr := (parseExpression (NewParser s)).1.
Definition rest_of (s : string) : Parser := (parseExpression (NewParser s)).2.
(** The kinds of node of a tree, the constructors of its operators and operands, as a check of its shape. *)
Fixpoint shape (e : Expr) : string :=
  match ekind e with
  | Identifier x => x
  | NumberLiteral v => v
  | NullLiteral _ true _ => "void"
  | NullLiteral _ _ true => ""
  | MemberExpression o p _ _ => shape o +:+ "." +:+ p
  | UnaryExpression op a => "(" +:+ op +:+ shape a +:+ ")"
  | BinaryExpression op l r | AssignmentExpression op l r => "(" +:+ shape l +:+ op +:+ shape r +:+ ")"
  | ArrayLiteral es _ => "[" +:+ String.concat "," (map shape es) +:+ "]"
  | SpreadElement a => "..." +:+ shape a
  | CallExpression f args _ _ _ _ _ => shape f +:+ "(" +:+ String.concat "," (map shape args) +:+ ")"
  | AsExpression a ta => "(" +:+ shape a +:+ " as " +:+ Ast.TAName ta +:+ ")"
  | ArrowFunction _ _ _ ps _ (Some b) _ isAsync _ _ =>
      "(" +:+ (if isAsync then "async " else "") +:+ String.concat "," (map (λ p, match p with mkParam x _ _ _ _ _ _ _ => x end) ps)
      +:+ "=>" +:+ shape b +:+ ")"
  | _ => "?"
  end%string.
Definition shape_of (s : string) : option string := match expression_of s with Ok e => Some (shape e) | _ => None end.

Definition sample : string := "o.p = (a, b) => a ?? [1, , ...f<T>(b)] as T".
Lemma expression_spells_witness : ∃ e ts π',
  expression_of sample = Ok e ∧ shape e = "(o.p=(a,b=>(a??([1,,...f(b)] as T))))"%string
  ∧ upto sample start ts π' ∧ ts ≠ [] ∧ Spells 0 ts e.
Proof.
  destruct (parseExpression (NewParser sample)) as [r p'] eqn:Hr.
  assert (r = expression_of sample) as Hx by (unfold expression_of; by rewrite Hr).
  assert (∃ e, expression_of sample = Ok e ∧ shape e = "(o.p=(a,b=>(a??([1,,...f(b)] as T))))"%string) as (e & He & Hs)
    by (eexists; split; vm_compute; reflexivity).
  rewrite He in Hx. subst r. destruct (expression_spells sample start (NewParser sample) e p' (at_start sample) Hr) as (ts & π' & _ & Hu & Hne & Hsp).
  exists e, ts, π'. exact (conj He (conj Hs (conj Hu (conj Hne Hsp)))).
Defined.
Lemma expression_total_witness : ∃ r p' π',
  parseExpression (NewParser "f(x, ") = (r, p') ∧ at_point "f(x, " π' p' ∧ from start π' ∧ ((∃ e, r = Ok e) ∨ ∃ d, r = Err d).
Proof. apply (expression_total "f(x, " start), at_start. Defined.

(** ** What the grammar shows of the code *)

(** An arrow function is a primary expression here, so it may be an operand. *)
Example arrow_operand : shape_of "a + x => x" = Some "(a+(x=>x))"%string.
Proof. vm_compute. reflexivity. Qed.
(** [void 0] of a literal is the node of [undefined], which may be assigned to. *)
Example void_assigned : shape_of "void 0 = 1" = Some "(void=1)"%string.
Proof. vm_compute. reflexivity. Qed.
(** [??] mixes with [||] without parentheses. *)
Example nullish_mixed : shape_of "a ?? b || c" = Some "(a??(b||c))"%string.
Proof. vm_compute. reflexivity. Qed.
(** The parameters of an arrow function need no commas between them. *)
Example parameters_without_comma : shape_of "(a: T b: U) => 1" = Some "(a,b=>1)"%string.
Proof. vm_compute. reflexivity. Qed.
(** After [async] any opening token begins the parameters: a generic async arrow function is not read. *)
Example async_angle : shape_of "async <x) => x" = Some "(async x=>x)"%string ∧ shape_of "async <T>(x) => x" = None.
Proof. by vm_compute. Qed.
(** A type assertion may be the left operand of an exponentiation, as no unary operator may. *)
Example cast_power : shape_of "<T>x ** y" = Some "(x**y)"%string ∧ shape_of "-x ** y" = None.
Proof. by vm_compute. Qed.
