(* ===== verification/Stmt.v ===== *)
(** * Statements, and the state of a parse of them (src/ast/nodes.go, src/parser)

    The nodes parser_stmts.go builds for the control flow and for variables.
    Other declarations are opaque: how one is parsed is not modelled, nor what it holds.  To the state
    of the tokens a parse of statements adds what error recovery keeps. *)

From S2P Require Import Prelude GoString Diag Token Lexer Stream Expr ParsePrimary.
Open Scope Z_scope.

(** A declaration: of functions, classes, types, namespaces, imports, exports. *)
Class Declared := {
  Declaration : Type;
  (** the names imported and their local names, the name of the namespace, the module *)
  NewImportDeclaration : list (string * string) → string → string → Pos → Declaration;
  (** the type a doc comment spells (src/parser/jsdoc_types.go) *)
  jsdocTypeAnnotation : string → option TypeAnnotation }.

Section stmt.
Context `{OP : Opaque} `{D : Declared}.

(** [Ambient] is left out: it is set in declaration files only. *)
Record VarDeclaration := mkVar {
  VKind : string; VName : string; VTypeAnnot : option TypeAnnotation; VInit : option Expr;
  Free : bool; Owned : bool; ValueArr : bool; Definite : bool; NamePos : Pos; VPos : Pos }.

(** A block has its statements and its position; what must be a block in the
    source ([*ast.BlockStatement]) is a pair of them. *)
Unset Elimination Schemes.
Inductive Statement := mkStmt (pos : Pos) (kind : StmtKind)
with StmtKind :=
  | SBlock (Body : list Statement)
  | SExpression (Expression : Expr)
  | SIf (Test : Expr) (Consequent : Block) (Alternate : option Statement)
  | SWhile (Test : Expr) (Body : Block)
  | SDoWhile (Body : Block) (Test : Expr)
  | SFor (Init : option Statement) (Test : option Expr) (Update : list Expr) (Body : Block)
  | SForOf (Kind VarName : string) (ArrayPattern : option (list ArrayPatternElem)) (ObjectPattern : option (list DestructProp))
      (Iterable : Expr) (Body : Block) (Await : bool)
  | SForIn (Kind VarName : string) (Object : Expr) (Body : Block)
  | SSwitch (Discriminant : Expr) (Cases : list SwitchCase)
  | SBreak (Label : string)
  | SContinue (Label : string)
  | SReturn (Value : option Expr)
  | SThrow (Argument : Expr)
  | STry (Body : Block) (Catch : option CatchClause) (Finally : option Block)
  | SLabeled (Label : string) (Body : Statement)
  | SVar (Decl : VarDeclaration)
  | SVarList (Decls : list VarDeclaration)
  | SArrayDestructuring (Kind : string) (Elems : list ArrayPatternElem) (TypeAnnot : option TypeAnnotation) (Init : Expr)
  | SObjectDestructuring (Kind : string) (Props : list DestructProp) (TypeAnnot : option TypeAnnotation) (Init : Expr)
  | SDeclaration (Decl : Declaration)
with Block := mkBlock (BPos : Pos) (BBody : list Statement)
with SwitchCase := mkCase (CTest : option Expr) (CBody : list Statement)
with CatchClause := mkCatch (Param : string) (ParamType : option TypeAnnotation) (CObjectPattern : list DestructProp)
    (CatchBody : Block) (CatchPos : Pos).
Set Elimination Schemes.

Definition spos (st : Statement) : Pos := match st with mkStmt p _ => p end.
Definition skind (st : Statement) : StmtKind := match st with mkStmt _ k => k end.
(** A block as a statement. *)
Definition block_stmt (b : Block) : Statement := match b with mkBlock p ss => mkStmt p (SBlock ss) end.

(** ** The state *)

(** [parser] is the state of the tokens; the others are the parser's fields of
    these names.  [contexts] is a set of bits. *)
Record Recovering := mkRecovering {
  parser : Parser; contexts : Z; scanReported : bool; diags : Diag.List; pendingTopLevel : list Statement }.
Definition NewRecovering (p : Parser) : Recovering := mkRecovering p 0 false (mkList []) [].
Definition set_parser (p : Parser) (r : Recovering) : Recovering :=
  mkRecovering p (contexts r) (scanReported r) (diags r) (pendingTopLevel r).
Definition set_contexts (c : Z) (r : Recovering) : Recovering :=
  mkRecovering (parser r) c (scanReported r) (diags r) (pendingTopLevel r).
Definition set_diags (b : bool) (l : Diag.List) (r : Recovering) : Recovering :=
  mkRecovering (parser r) (contexts r) b l (pendingTopLevel r).
Definition set_pending (ss : list Statement) (r : Recovering) : Recovering :=
  mkRecovering (parser r) (contexts r) (scanReported r) (diags r) ss.

(** What stops a production: [errAborted], or another error. *)
Inductive Stop := Aborted | Failed (e : GoError).

Definition RM : Type → Type := M Recovering Stop.
#[global] Instance RM_ret : MRet RM := M_ret.
#[global] Instance RM_bind : MBind RM := M_bind.

(** An operation on the tokens. *)
Definition lift {A} (m : PM A) : RM A := λ r,
  match m (parser r) with
  | (Ok a, p) => (Ok a, set_parser p r)
  | (Err d, p) => (Err (Failed (EDiagnostic d)), set_parser p r)
  | (Panic, p) => (Panic, set_parser p r) | (OutOfFuel, p) => (OutOfFuel, set_parser p r)
  end.

(** The value and the error a call answers; of the two one is nil. *)
Definition try_ {A} (m : RM A) : RM (A + Stop) := λ r,
  match m r with
  | (Ok a, r) => (Ok (inl a), r)
  | (Err e, r) => (Ok (inr e), r)
  | (Panic, r) => (Panic, r) | (OutOfFuel, r) => (OutOfFuel, r)
  end.

(** A loop, with a round for each rune of the source and two more. *)
Definition repeat_ {L B} (body : L → RM (L + B)) (x : L) : RM B := n ← lift rounds; loop n body x.
End stmt.
