(* ===== verification/Recovery.v ===== *)
(** * Error recovery (src/parser/recovery.go)

    A list of statements catches the error of an element, reports it, and goes on
    at a token that can start an element or ends the list; at a token of
    an enclosing list it gives way.  One definition per function; [parseBlock] and
    the part of [ParseProgram] that reads the program are here too. *)

From S2P Require Import Prelude GoString Diag Token Lexer Stream Expr ParsePrimary Stmt.
Open Scope Z_scope.

(** ** The lists *)

Inductive parsingContext := ctxSourceElements | ctxBlockStatements | ctxSwitchClauseStatements | ctxClassMembers.
#[export] Instance parsingContext_eq_dec : EqDecision parsingContext.
Proof. solve_decision. Defined.
Definition ctx_index (c : parsingContext) : Z :=
  match c with ctxSourceElements => 0 | ctxBlockStatements => 1 | ctxSwitchClauseStatements => 2 | ctxClassMembers => 3 end.
(** The contexts below [ctxCount], in order. *)
Definition all_contexts : list parsingContext :=
  [ctxSourceElements; ctxBlockStatements; ctxSwitchClauseStatements; ctxClassMembers].
Definition opened (ctxs : Z) (c : parsingContext) : bool := negb (Z.land ctxs (Z.shiftl 1 (ctx_index c)) =? 0).

Definition statement_starts : list TokenType :=
  [LBRACE; LET; CONST; VAR; FUNCTION; CLASS; IF; FOR; WHILE; DO; RETURN; BREAK; CONTINUE; THROW; TRY; SWITCH; IMPORT; EXPORT; AT;
   IDENT; NUMBER; BIGINT; STRING; PRIVATE_NAME; TRUE; FALSE; NULL; UNDEFINED; NEW; TYPEOF; VOID; THIS; SUPER; AWAIT; YIELD; LPAREN;
   LBRACKET; TEMPLATE_NO_SUB; TEMPLATE_HEAD; REGEX; SLASH; SLASH_ASSIGN; PLUS; MINUS; NOT; BITNOT; INC; DEC; LT].
Definition isStatementStart (t : TokenType) : bool := existsb (tok_eqb t) statement_starts.
Definition class_member_starts : list TokenType :=
  [IDENT; STRING; NUMBER; BIGINT; LBRACKET; PRIVATE_NAME; AT; STAR; STATIC; PUBLIC; PRIVATE; PROTECTED].
Definition isClassMemberStart (t : TokenType) : bool := existsb (tok_eqb t) class_member_starts || IsKeyword t.

(** [isListTerminator] and [isListElement], of a type of token. *)
Definition terminates (ctx : parsingContext) (t : TokenType) : bool :=
  if tok_eqb t EOF then true
  else match ctx with
       | ctxBlockStatements | ctxClassMembers => tok_eqb t RBRACE
       | ctxSwitchClauseStatements => tok_eqb t RBRACE || tok_eqb t CASE || tok_eqb t DEFAULT
       | ctxSourceElements => false
       end.
Definition starts_element (ctx : parsingContext) (inRecovery : bool) (t : TokenType) : bool :=
  if tok_eqb t SEMICOLON then negb inRecovery
  else match ctx with ctxClassMembers => isClassMemberStart t | _ => isStatementStart t end.

(** ** Reporting *)

(** [sort.SliceStable] by the offset: each one goes after those that are not later. *)
Fixpoint insert_diag (d : Diagnostic) (ds : list Diagnostic) : list Diagnostic :=
  match ds with
  | [] => [d]
  | x :: ds => if Start (DSpan x) <=? Start (DSpan d) then x :: insert_diag d ds else d :: x :: ds
  end.
Definition SliceStable (ds : list Diagnostic) : list Diagnostic := foldl (λ acc d, insert_diag d acc) [] ds.

Definition set_span (start stop : Z) (d : Diagnostic) : Diagnostic :=
  mkDiagnostic (DMessage d) (DText d) (mkSpan (File (DSpan d)) (SPos (DSpan d)) start stop) (DRelated d) (DHint d) (DPayload d).

(** The error the scanner stopped at. *)
Fixpoint scan_error (ts : list Token) : option Diagnostic :=
  match ts with
  | [] => None
  | t :: ts => match TErr t with
               | Some d => if tok_eqb (Type_ t) ILLEGAL then Some d else scan_error ts
               | None => scan_error ts
               end
  end.


Section recovery.
Context `{U : Unicode} `{OP : Opaque} `{D : Declared}.

Definition isListTerminator (ctx : parsingContext) : PM bool := t ← peek; mret (terminates ctx (Type_ t)).
Definition isListElement (ctx : parsingContext) (inRecovery : bool) : PM bool := t ← peek; mret (starts_element ctx inRecovery (Type_ t)).

Definition atElementBoundary : PM bool :=
  t ← peek;
  p ← get;
  if HasPrecedingLineBreak t then mret true
  else match cursor p with
       | O => mret true
       | S i => prev ← at_ i; mret (tok_eqb (Type_ prev) SEMICOLON || tok_eqb (Type_ prev) RBRACE)
       end.

Definition skipGroup : PM unit :=
  while (λ depth : Z,
    t ← advance;
    let depth := depth + bracket (Type_ t) in
    if tok_eqb (Type_ t) EOF || (depth <=? 0) then mret (inr tt)
    else eof ← check EOF; mret (if eof : bool then inr tt else inl depth)) 0.

Definition fillOffset (d : Diagnostic) : RM Diagnostic := λ r,
  if Start (DSpan d) <? 0 then
    match (Offset (Line (SPos (DSpan d))) (Col (SPos (DSpan d))) (lx (parser r))).1 with
    | Ok o => (Ok (set_span (Z.of_nat o) (Z.of_nat o) d), r)
    | _ => (Panic, r)
    end
  else (Ok d, r).

Definition add_all (ds : list Diagnostic) (l : Diag.List) : Diag.List := foldl (λ l d, (Add l d).2) l ds.
(** [add], of the list of diagnostics. *)
Definition insert_in (d : Diagnostic) (l : Diag.List) : Diag.List :=
  match last (items l) with
  | Some e => if Start (DSpan e) <=? Start (DSpan d) then (Add l d).2 else add_all (SliceStable (items l ++ [d])) (mkList [])
  | None => (Add l d).2
  end.
Definition add (d : Diagnostic) : RM unit :=
  d ← fillOffset d;
  modify (λ r, set_diags (scanReported r) (insert_in d (diags r)) r).

Fixpoint each (ds : list Diagnostic) : RM unit :=
  match ds with [] => mret tt | d :: ds => add d ≫= λ _, each ds end.
Definition report (err : Stop) : RM unit :=
  match err with
  | Aborted => mret tt
  | Failed e =>
      r ← get;
      match scan_error (toks (parser r)) with
      | Some d =>
          if scanReported r then mret tt
          else modify (λ r, set_diags true (diags r) r) ≫= λ _, add d
      | None =>
          each (match As e with
                | Some ds => ds
                | None => [plain_error (Error_text e)]
                end)
      end
  end.
Definition scanErrorOr (err : option Stop) : RM (option Stop) :=
  r ← get;
  mret (match scan_error (toks (parser r)) with Some d => Some (Failed (EDiagnostic d)) | None => err end).

(** ** Resynchronising *)

(** Is the token one of an enclosing list, among [cs]? *)
Fixpoint enclosing (ctxs : Z) (ctx : parsingContext) (cs : list parsingContext) : PM bool :=
  match cs with
  | [] => mret false
  | c :: cs =>
      if negb (bool_decide (c = ctx)) && opened ctxs c then
        element ← isListElement c true;
        if (element : bool) then mret true
        else terminator ← isListTerminator c; if (terminator : bool) then mret true else enclosing ctxs ctx cs
      else enclosing ctxs ctx cs
  end.

(** The loop of [recoverList]: whether the list is aborted. *)
Definition resync (ctxs : Z) (ctx : parsingContext) : PM bool :=
  while (λ _ : unit,
    eof ← check EOF;
    if (eof : bool) then mret (inr false)
    else
      terminator ← isListTerminator ctx;
      if (terminator : bool) then mret (inr false)
      else
        boundary ← atElementBoundary;
        if (boundary : bool) then
          element ← isListElement ctx true;
          if (element : bool) then mret (inr false)
          else
            outer ← enclosing ctxs ctx all_contexts;
            if (outer : bool) then mret (inr true) else skipGroup ≫= λ _, mret (inl tt)
        else skipGroup ≫= λ _, mret (inl tt)) tt.

(** An element that failed on its first token is not tried again. *)
Definition skip_failed (ctx : parsingContext) (start : nat) : PM unit :=
  p ← get;
  if (cursor p =? start)%nat then
    terminator ← isListTerminator ctx;
    if (terminator : bool) then mret tt
    else element ← isListElement ctx true; if (element : bool) then skipGroup else mret tt
  else mret tt.

Definition recoverList (ctx : parsingContext) (start : nat) (err : option Stop) : RM (option Stop) :=
  match err with
  | None => mret None
  | Some e =>
      r ← get;
      if (0 <? speculating (parser r))%nat then mret (Some e)
      else
        report e ≫= λ _,
        lift (skip_failed ctx start) ≫= λ _,
        r ← get;
        aborted ← lift (resync (contexts r) ctx);
        mret (if aborted : bool then Some Aborted else None)
  end.

(** [add] answers what it has made of [B], the variables it sets; where it
    answers an error these are as they were. *)
Definition parseStatementList {B} (parseStatement : RM Statement) (ctx : parsingContext) (add : Statement → B → RM B) (b : B)
    : RM (B * option Stop) :=
  saved ← gets contexts;
  modify (λ r, set_contexts (Z.lor (contexts r) (Z.shiftl 1 (ctx_index ctx))) r) ≫= λ _,
  out ← repeat_ (λ b : B,
    terminator ← lift (isListTerminator ctx);
    if (terminator : bool) then mret (inr (b, None))
    else
      r ← get;
      res ← try_ (stmt ← parseStatement; add stmt b);
      match res with
      | inl b => mret (inl b)
      | inr e =>
          err ← recoverList ctx (cursor (parser r)) (Some e);
          mret (match err with None => inl b | Some e => inr (b, Some e) end)
      end) b;
  modify (set_contexts saved) ≫= λ _,
  mret out.

Definition append (stmt : Statement) (body : list Statement) : RM (list Statement) := mret (body ++ [stmt]).
Definition parseBlock (parseStatement : RM Statement) : RM Block :=
  tok ← lift (expect LBRACE);
  '(body, err) ← parseStatementList parseStatement ctxBlockStatements append [];
  match err with
  | Some e => throw e
  | None => lift (expect RBRACE) ≫= λ _, mret (mkBlock (posOf tok) body)
  end.

(** ** The program (src/parser/parser.go, src/parser/parser_require.go) *)

Definition DynamicRequire := unsupported 90012
  "dynamic require(...) with a non-string-literal module path is not supported — use a string-literal path (e.g. require('path')); runtime/lazy module loading is a separate capability".
Definition RequireDestructure := unsupported 90011
  "only simple `{ a, b: c }` destructuring is supported when binding a require('...') import (no defaults, nested patterns, or rest)".
(** [requireCall]: the module, if it is a literal. *)
Definition requireCall (e : Expr) : option (option string) :=
  match ekind e with
  | CallExpression callee args _ _ _ _ _ =>
      match ekind callee with
      | Identifier name =>
          if bool_decide (name = "require"%string) then
            Some (match args with
                  | [arg] => match ekind arg with StringLiteral v => Some v | _ => None end
                  | _ => None
                  end)
          else None
      | _ => None
      end
  | _ => None
  end.
(** The name a property imports, and its local name. *)
Definition import_specifier (p : DestructProp) : option (string * string) :=
  match p with
  | mkProp key _ local _ None None None false => Some (key, local)
  | _ => None
  end.
Definition import_of (stmt : Statement) (specs : list (string * string)) (namespace source : string) : Statement :=
  mkStmt (spos stmt) (SDeclaration (NewImportDeclaration specs namespace source (spos stmt))).
(** A statement whose value is [e]: what it becomes if that is a call of [require]. *)
Definition desugar_call (stmt : Statement) (e : Expr) (import : string → Statement + GoError) : Statement + GoError :=
  match requireCall e with
  | None => inl stmt
  | Some None => inr (EDiagnostic (Diag.New DynamicRequire (mkSpan "" (spos stmt) (-1) (-1)) []))
  | Some (Some source) => import source
  end.
Definition desugarRequire (stmt : Statement) : Statement + GoError :=
  match skind stmt with
  | SVar d =>
      match VInit d with
      | None => inl stmt
      | Some e => desugar_call stmt e (λ source, inl (import_of stmt [] (VName d) source))
      end
  | SObjectDestructuring _ props _ init =>
      desugar_call stmt init (λ source,
        match mapM import_specifier props with
        | Some specs => inl (import_of stmt specs "" source)
        | None => inr (EDiagnostic (Diag.New RequireDestructure (mkSpan "" (spos stmt) (-1) (-1)) []))
        end)
  | SExpression e => desugar_call stmt e (λ source, inl (import_of stmt [] "" source))
  | _ => inl stmt
  end.

(** What the program does with a statement. *)
Definition top_level (stmt : Statement) (body : list Statement) : RM (list Statement) :=
  match desugarRequire stmt with
  | inr e => modify (set_pending []) ≫= λ _, throw (Failed e)
  | inl stmt =>
      pending ← gets pendingTopLevel;
      match pending with
      | [] => mret (body ++ [stmt])
      | _ => modify (set_pending []) ≫= λ _, mret (body ++ [stmt] ++ pending)
      end
  end.
(** The end of that: an error of the scanner the parse got past, and what is reported. *)
Definition program_end (body : list Statement) : RM (list Statement) :=
  err ← scanErrorOr None;
  match err with Some e => report e | None => mret tt end ≫= λ _,
  ds ← gets diags;
  match List_Err ds with Some e => throw (Failed e) | None => mret body end.
(** The statements of [ParseProgram]; the error its list answers is not looked at. *)
Definition program_body (parseStatement : RM Statement) : RM (list Statement) :=
  '(body, _) ← parseStatementList parseStatement ctxSourceElements top_level [];
  program_end body.
End recovery.
