(* ===== verification/DiagList.v ===== *)
(** * The diagnostics of a file, in order

    [Recovery.insert_in] keeps a list that is sorted by offset with no two
    neighbours at one place, and of every diagnostic it is given one at
    its place. *)

From stdpp Require Import sorting.
From S2P Require Import Prelude GoString Diag Token Lexer Stream Recovery.
Open Scope Z_scope.

Definition place_of (d : Diagnostic) : Pos * string := (SPos (DSpan d), File (DSpan d)).
Definition not_after (d e : Diagnostic) : Prop := Start (DSpan d) ≤ Start (DSpan e).
Definition places (ds : list Diagnostic) : list (Pos * string) := place_of <$> ds.

(** No two neighbours are at one place. *)
Fixpoint apart (ds : list Diagnostic) : Prop :=
  match ds with
  | d :: ds => match ds with e :: _ => place_of d ≠ place_of e | [] => True end ∧ apart ds
  | [] => True
  end.
Definition in_order (ds : list Diagnostic) : Prop := StronglySorted not_after ds ∧ apart ds.
(** Each place of [ds] is one of [es]. *)
Definition covers (es ds : list Diagnostic) : Prop := places ds ⊆ places es.

Lemma apart_snoc ds d : apart ds → (∀ e, last ds = Some e → place_of e ≠ place_of d) → apart (ds ++ [d]).
Proof.
  induction ds as [|x ds IH]; intros Ha Hl; [done|]. destruct Ha as [Hx Ha]. destruct ds as [|y ds].
  - split; [by apply Hl|done].
  - split; [done|]. apply IH; [done|]. intros e He. by apply Hl.
Qed.
Lemma sorted_snoc ds d : StronglySorted not_after ds → (∀ e, e ∈ ds → not_after e d) → StronglySorted not_after (ds ++ [d]).
Proof.
  induction 1 as [|x ds Hs IH Hx]; intros Hd; cbn; constructor; [constructor|done| |].
  - apply IH. intros e He. apply Hd. by right.
  - apply Forall_app. split; [done|]. constructor; [apply Hd; by left|done].
Qed.
Lemma sorted_app_inv ds es :
  StronglySorted not_after (ds ++ es) → StronglySorted not_after ds ∧ ∀ d e, d ∈ ds → e ∈ es → not_after d e.
Proof.
  induction ds as [|x ds IH]; cbn; intros H.
  { split; [constructor|]. by intros ? ? ?%elem_of_nil. }
  inversion H as [|? ? Hs Hx]; subst. apply Forall_app in Hx as [Hx1 Hx2]. destruct (IH Hs) as [IH1 IH2].
  split; [by constructor|]. intros d e [-> |Hd]%elem_of_cons He; [|by apply IH2].
  by rewrite Forall_forall in Hx2; apply Hx2.
Qed.
Lemma last_elem {A} (xs : list A) x : last xs = Some x → x ∈ xs.
Proof. intros H. apply last_Some in H as (ys & ->). apply elem_of_app. right. by left. Qed.
Lemma sorted_last ds e x : StronglySorted not_after ds → last ds = Some e → x ∈ ds → not_after x e.
Proof.
  intros Hs Hl Hx. apply last_Some in Hl as (ys & ->). apply elem_of_app in Hx as [Hx|Hx%list_elem_of_singleton].
  - apply sorted_app_inv in Hs as [_ Hs]. apply Hs; [done|by left].
  - subst. unfold not_after. lia.
Qed.

(** ** [List.Add] *)

Lemma Add_cases l d :
  (∃ e, last (items l) = Some e ∧ place_of e = place_of d ∧ (Add l d).2 = l)
  ∨ ((∀ e, last (items l) = Some e → place_of e ≠ place_of d) ∧ items (Add l d).2 = items l ++ [d]).
Proof.
  unfold Add, place_of. destruct (last (items l)) as [e|]; [|right; by split].
  repeat case_bool_decide; cbn; [left; exists e; by split_and!; [|f_equal|]|right; (split; [|done]); intros ? [= <-] [=]; congruence..].
Qed.
Lemma Add_in_order l d :
  in_order (items l) → (∀ e, e ∈ items l → not_after e d) → in_order (items (Add l d).2).
Proof.
  intros [Hs Ha] Hd. destruct (Add_cases l d) as [(e & _ & _ & ->)|[Hl ->]]; [done|].
  split; [by apply sorted_snoc|by apply apart_snoc].
Qed.
Lemma Add_covers l d : covers (items (Add l d).2) (items l ++ [d]).
Proof.
  unfold covers, places. rewrite fmap_app. destruct (Add_cases l d) as [(e & He & Hp & ->)|[_ ->]]; [|by rewrite fmap_app].
  intros x [Hx|Hx%list_elem_of_singleton]%elem_of_app; [done|]. subst x. rewrite <- Hp.
  apply list_elem_of_fmap_2. by apply last_elem.
Qed.
Lemma Add_from l d x : x ∈ items (Add l d).2 → x ∈ items l ∨ x = d.
Proof.
  destruct (Add_cases l d) as [(e & _ & _ & ->)|[_ ->]]; [by left|].
  intros [?|?%list_elem_of_singleton]%elem_of_app; auto.
Qed.

Lemma covers_trans ds es fs : covers fs es → covers es ds → covers fs ds.
Proof. unfold covers. set_solver. Qed.
Lemma covers_app fs ds es ds' : covers fs (ds ++ es) → covers ds ds' → covers fs (ds' ++ es).
Proof. unfold covers, places. rewrite !fmap_app. set_solver. Qed.

Lemma covers_perm fs ds es : ds ≡ₚ es → covers fs ds → covers fs es.
Proof. intros Hp H x (d & -> & Hd)%list_elem_of_fmap. apply H, list_elem_of_fmap_2. by rewrite Hp. Qed.

Lemma add_all_covers ds l : covers (items (add_all ds l)) (items l ++ ds).
Proof.
  revert l. induction ds as [|d ds IH]; intros l; cbn [add_all foldl]; [by rewrite app_nil_r; unfold covers|].
  fold (add_all ds (Add l d).2). pose proof (covers_app _ _ _ _ (IH (Add l d).2) (Add_covers l d)) as H.
  by rewrite <- app_assoc in H.
Qed.
Lemma add_all_order ds l :
  StronglySorted not_after (items l ++ ds) → apart (items l) → in_order (items (add_all ds l)).
Proof.
  revert l. induction ds as [|d ds IH]; intros l Hs Ha; cbn [add_all foldl]; [by rewrite app_nil_r in Hs|].
  apply sorted_app_inv in Hs as Hl. destruct Hl as [Hl Hb]. apply (IH (Add l d).2).
  - destruct (Add_cases l d) as [(e & _ & _ & ->)|[_ ->]]; [|by rewrite <- app_assoc].
    clear IH Ha Hb Hl. induction (items l) as [|x xs IH]; cbn in *; [by inversion Hs|].
    inversion Hs as [|? ? H1 H2]; subst. constructor; [by apply IH|]. apply Forall_app in H2 as [? H2].
    apply Forall_app. split; [done|by inversion H2].
  - apply Add_in_order; [by split|]. intros e He. apply Hb; [done|by left].
Qed.

(** ** The stable sort *)

Lemma insert_diag_perm d ds : insert_diag d ds ≡ₚ d :: ds.
Proof.
  induction ds as [|x ds IH]; [done|]. cbn. destruct (_ <=? _); [|done]. rewrite IH. apply Permutation_swap.
Qed.
Lemma insert_diag_sorted d ds : StronglySorted not_after ds → StronglySorted not_after (insert_diag d ds).
Proof.
  induction 1 as [|x ds Hs IH Hx]; cbn; [by repeat constructor|]. destruct (_ <=? _) eqn:Hle.
  - constructor; [done|]. apply Z.leb_le in Hle. rewrite insert_diag_perm. by constructor.
  - apply Z.leb_gt in Hle. constructor; [by constructor|]. unfold not_after in *. constructor; [lia|].
    eapply Forall_impl; [exact Hx|]. cbn. intros. lia.
Qed.
Lemma SliceStable_spec ds : StronglySorted not_after (SliceStable ds) ∧ SliceStable ds ≡ₚ ds.
Proof.
  unfold SliceStable. assert (∀ acc, StronglySorted not_after acc →
    StronglySorted not_after (foldl (λ acc d, insert_diag d acc) acc ds) ∧ foldl (λ acc d, insert_diag d acc) acc ds ≡ₚ acc ++ ds) as H.
  { induction ds as [|d ds IH]; intros acc Hacc; cbn; [by rewrite app_nil_r|].
    destruct (IH _ (insert_diag_sorted d acc Hacc)) as [H1 H2]. split; [done|]. rewrite H2, insert_diag_perm.
    apply Permutation_middle. }
  apply (H []). constructor.
Qed.
(** A list that is in order is not changed. *)
Lemma insert_diag_last d ds : (∀ e, e ∈ ds → not_after e d) → insert_diag d ds = ds ++ [d].
Proof.
  induction ds as [|x ds IH]; intros H; [done|]. cbn. assert ((Start (DSpan x) <=? Start (DSpan d)) = true) as ->.
  { apply Z.leb_le, H. by left. }
  rewrite IH; [done|]. intros e He. apply H. by right.
Qed.

(** ** [add] *)

Lemma insert_in_covers d l : covers (items (insert_in d l)) (items l ++ [d]).
Proof.
  unfold insert_in. destruct (last (items l)) as [e|]; [|apply Add_covers]. destruct (_ <=? _); [apply Add_covers|].
  eapply covers_perm; [apply SliceStable_spec|]. apply (add_all_covers _ (mkList [])).
Qed.
Lemma insert_in_order d l : in_order (items l) → in_order (items (insert_in d l)).
Proof.
  intros Hl. unfold insert_in. destruct (last (items l)) as [e|] eqn:He.
  - destruct (_ <=? _) eqn:Hle; [|by apply add_all_order; [apply SliceStable_spec|]].
    apply Z.leb_le in Hle. apply Add_in_order; [done|]. intros x Hx.
    destruct Hl as [Hs _]. pose proof (sorted_last _ _ _ Hs He Hx). unfold not_after in *. lia.
  - apply Add_in_order; [done|]. intros x Hx. apply last_None in He. rewrite He in Hx. by apply elem_of_nil in Hx.
Qed.

(** If the offset tells the place, no place occurs twice. *)
Definition told_by_offset (ds : list Diagnostic) : Prop :=
  ∀ d e, d ∈ ds → e ∈ ds → (Start (DSpan d) = Start (DSpan e) ↔ place_of d = place_of e).
Lemma in_order_NoDup ds : in_order ds → told_by_offset ds → NoDup (places ds).
Proof.
  intros [Hs Ha]. induction Hs as [|d ds Hs IH Hd]; intros Ht; cbn; [constructor|]. destruct Ha as [Hn Ha].
  constructor; [|apply IH; [done|]; intros ? ? ? ?; apply Ht; by right].
  intros (x & Hx & Hin)%list_elem_of_fmap. destruct ds as [|e ds]; [by apply elem_of_nil in Hin|].
  assert (Start (DSpan d) = Start (DSpan x)) as Hdx by (apply Ht; [by left|by right|done]).
  apply Hn, Ht; [by left|right; by left|]. inversion Hd as [|? ? Hde _]; subst. unfold not_after in Hde.
  enough (not_after e x) by (unfold not_after in *; lia). apply elem_of_cons in Hin as [-> |Hin]; [unfold not_after; lia|].
  inversion Hs as [|? ? _ He]; subst. rewrite Forall_forall in He. by apply He.
Qed.
