(* ===== verification/RecoverWp.v ===== *)
(** * Reasoning on error recovery

    Besides the point, a production of statements sees [notes]: the state but
    the tokens.  [grows] is what every one keeps: the diagnostics in order, and
    each place reported. *)

From S2P Require Import Prelude GoString Diag Token Lexer LexerFacts LexerPos Stream StreamFacts Expr ParsePrimary ParseWp ParseRules.
From S2P Require Import ParseLists Stmt Recovery DiagList.

Open Scope Z_scope.

Section wpr.
Context `{U : Unicode} `{OP : Opaque} `{D : Declared} (s : string).

Record notes := mkNotes { ncontexts : Z; nreported : bool; ndiags : list Diagnostic; npending : list Statement }.
Definition notes_of (r : Recovering) : notes := mkNotes (contexts r) (scanReported r) (items (diags r)) (pendingTopLevel r).
Definition with_contexts (c : Z) (ν : notes) : notes := mkNotes c (nreported ν) (ndiags ν) (npending ν).
Definition with_pending (ss : list Statement) (ν : notes) : notes := mkNotes (ncontexts ν) (nreported ν) (ndiags ν) ss.

(** Something is reported. *)
Definition noisy (ν : notes) : Prop := ndiags ν ≠ [].
Record grows (ν ν' : notes) : Prop := {
  grows_order : in_order (ndiags ν) → in_order (ndiags ν');
  grows_covers : covers (ndiags ν') (ndiags ν);
  grows_reported : (nreported ν → noisy ν) → nreported ν' → noisy ν' }.
Definition grown (ν ν' : notes) : Prop := grows ν ν' ∧ ncontexts ν' = ncontexts ν.

Lemma grows_refl ν : grows ν ν.
Proof. constructor; auto. by unfold covers. Qed.
Lemma grows_trans ν1 ν2 ν3 : grows ν1 ν2 → grows ν2 ν3 → grows ν1 ν3.
Proof. intros [A1 B1 C1] [A2 B2 C2]. constructor; auto. by eapply covers_trans. Qed.
Lemma grown_refl ν : grown ν ν.
Proof. split; [apply grows_refl|done]. Qed.
Lemma grown_trans ν1 ν2 ν3 : grown ν1 ν2 → grown ν2 ν3 → grown ν1 ν3.
Proof. intros [A1 B1] [A2 B2]. split; [by eapply grows_trans|congruence]. Qed.
Lemma covers_noisy ds es : covers es ds → ds ≠ [] → es ≠ [].
Proof.
  unfold covers, places. intros H Hne ->. destruct ds as [|d ds]; [done|]. cbn in H.
  specialize (H (place_of d) ltac:(by left)). by apply elem_of_nil in H.
Qed.
Lemma grows_noisy ν ν' : grows ν ν' → noisy ν → noisy ν'.
Proof. intros [_ H _]. by apply covers_noisy. Qed.

(** From the point and the notes, [m] answers: a value where [Q] holds, or what
    stops it where [X] does. *)
Definition wpr {A} (m : RM A) (Q : A → point → notes → Prop) (X : Stop → point → notes → Prop) (π : point) (ν : notes) : Prop :=
  ∀ r, at_point s π (parser r) → notes_of r = ν →
    match m r with
    | (Ok a, r') => ∃ π', at_point s π' (parser r') ∧ Q a π' (notes_of r')
    | (Err e, r') => ∃ π', at_point s π' (parser r') ∧ X e π' (notes_of r')
    | _ => False
    end.

Lemma run_bind {A B} (m : RM A) (k : A → RM B) r a r' : m r = (Ok a, r') → (m ≫= k) r = k a r'.
Proof. unfold mbind, RM_bind, M_bind. by intros ->. Qed.
Lemma wpr_ret {A} (a : A) (Q : A → point → notes → Prop) X π ν : Q a π ν → wpr (mret a) Q X π ν.
Proof. intros H r Hr <-. by exists π. Qed.
Lemma wpr_bind {A B} (m : RM A) (k : A → RM B) Q X π ν : wpr m (λ a, wpr (k a) Q X) X π ν → wpr (m ≫= k) Q X π ν.
Proof.
  intros H r Hr Hν. specialize (H r Hr Hν). unfold mbind, RM_bind, M_bind. destruct (m r) as [[a|e| |] r']; try done.
  destruct H as (π' & Hr' & H). by apply H.
Qed.
Lemma wpr_mono {A} (m : RM A) (Q Q' : A → point → notes → Prop) (X X' : Stop → point → notes → Prop) π ν :
  wpr m Q X π ν → (∀ a π' ν', Q a π' ν' → Q' a π' ν') → (∀ e π' ν', X e π' ν' → X' e π' ν') → wpr m Q' X' π ν.
Proof.
  intros H HQ HX r Hr Hν. specialize (H r Hr Hν). destruct (m r) as [[a|e| |] r']; try done; destruct H as (π' & ? & ?); exists π'; auto.
Qed.
Lemma wpr_get (Q : Recovering → point → notes → Prop) X π ν :
  (∀ r, at_point s π (parser r) → notes_of r = ν → Q r π ν) → wpr get Q X π ν.
Proof. intros H r Hr <-. exists π. auto. Qed.
Lemma wpr_gets {A} (f : Recovering → A) (Q : A → point → notes → Prop) X π ν :
  (∀ r, at_point s π (parser r) → notes_of r = ν → Q (f r) π ν) → wpr (gets f) Q X π ν.
Proof. intros H r Hr <-. exists π. auto. Qed.
Lemma wpr_modify f (g : notes → notes) (Q : unit → point → notes → Prop) X π ν :
  (∀ r, parser (f r) = parser r ∧ notes_of (f r) = g (notes_of r)) → Q tt π (g ν) → wpr (modify f) Q X π ν.
Proof. intros H HQ r Hr <-. cbn. destruct (H r) as [-> ->]. by exists π. Qed.
Lemma wpr_throw {A} e (Q : A → point → notes → Prop) (X : Stop → point → notes → Prop) π ν : X e π ν → wpr (throw e) Q X π ν.
Proof. intros H r Hr <-. by exists π. Qed.
Lemma wpr_try {A} (m : RM A) (Q : A + Stop → point → notes → Prop) X π ν :
  wpr m (λ a, Q (inl a)) (λ e, Q (inr e)) π ν → wpr (try_ m) Q X π ν.
Proof. intros H r Hr Hν. specialize (H r Hr Hν). unfold try_. by destruct (m r) as [[a|e| |] r']. Qed.
Lemma wpr_lift {A} (m : PM A) (Q : A → point → notes → Prop) (X : Stop → point → notes → Prop) π ν :
  wpp s m (λ a π', Q a π' ν) (λ π', ∀ d, X (Failed (EDiagnostic d)) π' ν) π → wpr (lift m) Q X π ν.
Proof.
  intros H r Hr <-. specialize (H _ Hr). unfold lift. destruct (m (parser r)) as [[a|e| |] p']; try done; destruct H as (π' & Hp' & H); exists π'; auto.
Qed.
(** Where [m] answers no error. *)
Lemma wpr_lift_ok {A} (m : PM A) (Q : A → point → notes → Prop) X π ν :
  wpp s m (λ a π', Q a π' ν) (λ _, False) π → wpr (lift m) Q X π ν.
Proof. intros H. apply wpr_lift. eapply wpp_mono; [exact H|done|done]. Qed.

Lemma wpr_loop {L B} (I : L → point → notes → Prop) (μ : L → point → nat) (body : L → RM (L + B)) Q X :
  (∀ x π ν, I x π ν →
     wpr (body x) (λ r π' ν', match r with inl x' => I x' π' ν' ∧ (μ x' π' < μ x π)%nat | inr b => Q b π' ν' end) X π ν) →
  ∀ n x π ν, I x π ν → (μ x π < n)%nat → wpr (loop n body x) Q X π ν.
Proof.
  intros Hb n. induction n as [|n IH]; intros x π ν HI Hn; [lia|]. cbn [loop]. apply wpr_bind.
  eapply wpr_mono; [by apply Hb| |done]. intros [x'|b] π' ν'; [|by intros; apply wpr_ret].
  intros [HI' Hlt]. apply IH; [done|lia].
Qed.
Lemma wpr_repeat {L B} (I : L → point → notes → Prop) (μ : L → point → nat) (body : L → RM (L + B)) Q X x π ν :
  I x π ν → (μ x π ≤ S (length (runes_of s)))%nat →
  (∀ x π ν, I x π ν →
     wpr (body x) (λ r π' ν', match r with inl x' => I x' π' ν' ∧ (μ x' π' < μ x π)%nat | inr b => Q b π' ν' end) X π ν) →
  wpr (repeat_ body x) Q X π ν.
Proof.
  intros HI Hμ Hb. unfold repeat_. apply wpr_bind, wpr_lift, wpp_gets. intros p [[Hl _] _ _ _ _ _ _].
  apply (wpr_loop I μ); [done|done|]. rewrite (ready_src _ _ (lined_ready _ _ _ Hl)). lia.
Qed.

(** ** Reporting *)

Lemma Offset_ok L C l : ready s l → ∃ o, Offset L C l = (Ok o, l).
Proof.
  intros Hl. unfold Offset. destruct (_ || _); [by eexists|]. unfold mbind, LexM_bind, M_bind, get. cbv zeta.
  set (i := if (_ <? _)%nat then _ else _). destruct (wf_offs_lookup _ i (ready_wf _ _ Hl)) as [o Ho].
  - cbn. subst i. destruct (_ <? _)%nat eqn:H; bool_cases; lia.
  - exists o. unfold index. cbn in Ho. by rewrite Ho.
Qed.
Lemma set_span_place a b d : place_of (set_span a b d) = place_of d.
Proof. done. Qed.
Lemma wpr_fillOffset d (Q : Diagnostic → point → notes → Prop) X π ν :
  (∀ d', place_of d' = place_of d → Q d' π ν) → wpr (fillOffset d) Q X π ν.
Proof.
  intros HQ r Hr <-. unfold fillOffset. destruct (_ <? 0); [|exists π; auto].
  destruct (Offset_ok (Line (SPos (DSpan d))) (Col (SPos (DSpan d))) (lx (parser r))) as [o ->].
  { apply (lined_ready _ _ _ (proj1 (at_stream _ _ _ Hr))). }
  exists π. auto.
Qed.
(** [ds] are reported too. *)
Definition told (ds : list Diagnostic) (ν ν' : notes) : Prop :=
  grown ν ν' ∧ npending ν' = npending ν ∧ covers (ndiags ν') (ndiags ν ++ ds).
Lemma told_nil ν : told [] ν ν.
Proof. split_and!; [apply grown_refl|done|]. rewrite app_nil_r. by unfold covers. Qed.
Lemma told_trans ds es ν1 ν2 ν3 : told ds ν1 ν2 → told es ν2 ν3 → told (ds ++ es) ν1 ν3.
Proof.
  intros (G1 & P1 & C1) (G2 & P2 & C2). split_and!; [by eapply grown_trans|congruence|].
  rewrite app_assoc. by eapply covers_app.
Qed.
Lemma told_noisy ds ν ν' : told ds ν ν' → ds ≠ [] → noisy ν'.
Proof. intros (_ & _ & C) Hne. eapply covers_noisy; [exact C|]. by destruct (ndiags ν), ds. Qed.

Lemma wpr_add d (Q : unit → point → notes → Prop) X π ν :
  (∀ ν', told [d] ν ν' → nreported ν' = nreported ν → Q tt π ν') → wpr (add d) Q X π ν.
Proof.
  intros HQ. unfold add. apply wpr_bind, wpr_fillOffset. intros d' Hd'.
  apply wpr_modify with (g := λ ν, mkNotes (ncontexts ν) (nreported ν) (items (insert_in d' (mkList (ndiags ν)))) (npending ν)).
  { intros r. split; [done|]. unfold notes_of. cbn. by destruct (diags r). }
  pose proof (insert_in_covers d' (mkList (ndiags ν))) as Hc. cbn [items] in Hc.
  assert (covers (items (insert_in d' (mkList (ndiags ν)))) (ndiags ν ++ [d])) as Hc'.
  { unfold covers, places in *. rewrite fmap_app in *. cbn in *. by rewrite <- Hd'. }
  apply HQ; [|done]. split_and!; [split; [|done]|done|done]. constructor; cbn.
  - apply (insert_in_order d' (mkList (ndiags ν))).
  - unfold covers, places in *. rewrite fmap_app in Hc'. set_solver.
  - intros _ _. eapply covers_noisy; [exact Hc'|]. by destruct (ndiags ν).
Qed.
Lemma wpr_each ds (Q : unit → point → notes → Prop) X π ν :
  (∀ ν', told ds ν ν' → nreported ν' = nreported ν → Q tt π ν') → wpr (each ds) Q X π ν.
Proof.
  revert ν. induction ds as [|d ds IH]; intros ν HQ; cbn [each]; [apply wpr_ret, HQ; [apply told_nil|done]|].
  apply wpr_bind, wpr_add. intros ν1 Ht Hr. apply IH. intros ν2 Ht2 Hr2. apply HQ; [|congruence].
  by apply (told_trans [d] ds _ ν1).
Qed.

(** What an error has [report] say; the scanner's own error comes before any other. *)
Definition diagnostics_of (e : GoError) : list Diagnostic :=
  match As e with
  | Some ds => ds
  | None => [Diag.New otherError (mkSpan "" (mkPos 0 0) (-1) (-1)) [FStr (Error_text e)]]
  end.
Definition says (err : Stop) (scanned : option Diagnostic) (reported : bool) : list Diagnostic :=
  match err, scanned with
  | Aborted, _ => []
  | Failed _, Some d => if reported then [] else [d]
  | Failed e, None => diagnostics_of e
  end.
Lemma report_told err r π :
  at_point s π (parser r) →
  ∃ r', report err r = (Ok tt, r') ∧ at_point s π (parser r')
    ∧ told (says err (scan_error (toks (parser r))) (scanReported r)) (notes_of r) (notes_of r').
Proof.
  intros Hr. destruct err as [|e]; cbn [report says]; [exists r; split_and!; [done|done|apply told_nil]|].
  unfold mbind at 1, RM_bind at 1, M_bind at 1, get at 1.
  destruct (scan_error _) as [d|]; [destruct (scanReported r) eqn:Hre; [exists r; split_and!; [done|done|apply told_nil]|]|].
  - set (r1 := set_diags true (diags r) r).
    pose proof (wpr_add d (λ _ π' ν', π' = π ∧ told [d] (notes_of r1) ν') (λ _ _ _, False) π (notes_of r1) ltac:(by intros) r1 Hr eq_refl) as H.
    change ((modify (λ r, set_diags true (diags r) r) ≫= λ _, add d) r) with (add d r1).
    destruct (add d r1) as [[[]|?| |] r']; try done; [|by destruct H as (? & _ & [])]. destruct H as (π' & Hp' & -> & Ht).
    exists r'. split_and!; [done|done|]. pose proof (told_noisy _ _ _ Ht ltac:(done)) as Hn.
    destruct Ht as ([[A B C] E] & P & T). by split_and!; [split; [constructor|]|..].
  - pose proof (wpr_each (diagnostics_of e) (λ _ π' ν', π' = π ∧ told (diagnostics_of e) (notes_of r) ν') (λ _ _ _, False) π (notes_of r)
      ltac:(by intros) r Hr eq_refl) as H.
    change (match As e with Some ds => ds | None => _ end) with (diagnostics_of e).
    destruct (each _ r) as [[[]|?| |] r']; try done; [|by destruct H as (? & _ & [])]. destruct H as (π' & Hp' & -> & Ht). by exists r'.
Qed.
Lemma wpr_report err (Q : unit → point → notes → Prop) X π ν :
  (∀ r ν', at_point s π (parser r) → notes_of r = ν → told (says err (scan_error (toks (parser r))) (nreported ν)) ν ν' → Q tt π ν') →
  wpr (report err) Q X π ν.
Proof.
  intros HQ r Hr Hν. destruct (report_told err r π Hr) as (r' & -> & Hr' & Ht). exists π. split; [done|]. rewrite Hν in Ht.
  apply (HQ r); [done|done|]. by rewrite <- Hν at 1.
Qed.
End wpr.

(** ** Where a list goes on after an error

    [skips] is the search of [recoverList]: from token group to token group up to the
    first place where the list can resume, or has to give way. *)

Section rules.
Context `{U : Unicode} `{OP : Opaque} (s : string).
Abbreviation wpp := (wpp s).
Abbreviation upto := (upto s).
Abbreviation view := (view s).
Abbreviation left := (left s).

Definition kind_at (π : point) : TokenType := Type_ (view π).
(** A list element can start here. *)
Definition boundary (π : point) : bool :=
  HasPrecedingLineBreak (view π)
  || match place π with
     | O => true
     | S i => tok_eqb (Type_ (raw s π i)) SEMICOLON || tok_eqb (Type_ (raw s π i)) RBRACE
     end.
Definition ends_list (ctx : parsingContext) (π : point) : bool := terminates ctx (kind_at π).
Definition element_at (ctx : parsingContext) (π : point) : bool := starts_element ctx true (kind_at π).
(** The list resumes: at its end, or where an element starts. *)
Definition resumes (ctx : parsingContext) (π : point) : bool := ends_list ctx π || boundary π && element_at ctx π.
(** It gives way: at a token of an enclosing list. *)
Definition outer_at (ctxs : Z) (ctx : parsingContext) (π : point) (c : parsingContext) : bool :=
  negb (bool_decide (c = ctx)) && opened ctxs c && (element_at c π || ends_list c π).
Definition gives_way (ctxs : Z) (ctx : parsingContext) (π : point) : bool :=
  negb (resumes ctx π) && boundary π && existsb (outer_at ctxs ctx π) all_contexts.

(** The depth of brackets that tokens leave open. *)
Definition depth (ts : list Token) : Z := foldr (λ t d, bracket (Type_ t) + d) 0 ts.
Lemma depth_app ts us : depth (ts ++ us) = depth ts + depth us.
Proof. unfold depth. induction ts as [|t ts IH]; cbn in *; [done|]. rewrite IH. lia. Qed.
Definition open_ended (ts : list Token) : Prop := ∀ us vs, ts = us ++ vs → us ≠ [] → 0 < depth us.
(** A token, or a bracketed group whole, where the text does not end before. *)
Definition group (ts : list Token) (π' : point) : Prop :=
  ∃ us t, ts = us ++ [t] ∧ open_ended us ∧ (depth ts ≤ 0 ∨ kind_at π' = EOF).

Inductive skips (ctxs : Z) (ctx : parsingContext) : point → point → Prop :=
  | skips_here π : skips ctxs ctx π π
  | skips_on π ts π1 π2 :
      resumes ctx π = false → gives_way ctxs ctx π = false → upto π ts π1 → group ts π1 → skips ctxs ctx π1 π2 →
      skips ctxs ctx π π2.

Lemma open_ended_snoc ts t : open_ended ts → 0 < depth (ts ++ [t]) → open_ended (ts ++ [t]).
Proof.
  intros Ho Hd us vs Heq Hne. destruct vs as [|v vs _] using rev_ind; [by rewrite app_nil_r in Heq; subst|].
  rewrite app_assoc in Heq. apply app_inj_tail in Heq as [-> _]. by eapply Ho.
Qed.
Lemma wpp_while_ok {L B} (I : L → point → Prop) (body : L → PM (L + B)) (Q : B → point → Prop) x π :
  I x π →
  (∀ x π, I x π → wpp (body x) (λ r π', match r with inl x' => I x' π' ∧ (left π' < left π)%nat | inr b => Q b π' end) (λ _, False) π) →
  wpp (while body x) Q (λ _, False) π.
Proof. intros HI Hb. apply (wpp_while s I (λ _, left)); [done|apply left_bound|done]. Qed.

Lemma wpp_skipGroup (Q : unit → point → Prop) π :
  kind_at π ≠ EOF → (∀ ts π', upto π ts π' → ts ≠ [] → group ts π' → Q tt π') → wpp skipGroup Q (λ _, False) π.
Proof.
  intros He HQ. unfold skipGroup.
  apply (wpp_while_ok (λ d π', ∃ ts, upto π ts π' ∧ d = depth ts ∧ open_ended ts ∧ kind_at π' ≠ EOF)).
  { exists []. split_and!; [apply upto_refl|done| |done]. intros us vs Heq. by destruct us. }
  intros d π1 (ts & Hu & -> & Ho & Hk). step. step. cbv zeta. pose proof (upto_next s _ _ _ Hu) as Hu'.
  assert (depth (ts ++ [view π1]) = depth ts + bracket (Type_ (view π1))) as Hd by (rewrite depth_app; cbn; lia).
  assert (depth (ts ++ [view π1]) ≤ 0 ∨ kind_at (next π1) = EOF → Q tt (next π1)) as Hend.
  { intros H. eapply HQ; [exact Hu'|by destruct ts|]. by exists ts, (view π1). }
  rewrite <- Hd. step.
  - step. apply Hend. left. kinds. apply orb_true_iff in Heqb as [H|H]; bool_cases; [|done]. by apply tok_eqb_eq in H.
  - bool_cases. step. step. step. destruct (kind_is (view (next π1)) EOF) eqn:Hk'; kinds.
    + apply Hend. by right.
    + split; [exists (ts ++ [view π1]); split_and!; [done|done|by apply open_ended_snoc|done]|].
      assert (upto π1 [view π1] (next π1)) as H1 by (apply (upto_next s _ []), upto_refl).
      apply upto_left in H1; [|done]. pose proof (left_pos s π1 Hk). lia.
Qed.

Lemma wpp_isListTerminator ctx (Q : bool → point → Prop) X π : Q (ends_list ctx π) π → wpp (isListTerminator ctx) Q X π.
Proof. intros HQ. unfold isListTerminator. step. step. by step. Qed.
Lemma wpp_isListElement ctx (Q : bool → point → Prop) X π : Q (element_at ctx π) π → wpp (isListElement ctx true) Q X π.
Proof. intros HQ. unfold isListElement. step. step. by step. Qed.
Lemma wpp_atElementBoundary (Q : bool → point → Prop) X π : Q (boundary π) π → wpp atElementBoundary Q X π.
Proof.
  intros HQ. unfold atElementBoundary, boundary in *. step. step. step. apply wpp_get. intros p Hp. rewrite (at_place _ _ _ Hp).
  destruct (HasPrecedingLineBreak _); [by step|]. destruct (place π) as [|i]; [by step|]. step. apply wpp_at. by step.
Qed.
Lemma wpp_enclosing ctxs ctx cs (Q : bool → point → Prop) X π :
  Q (existsb (outer_at ctxs ctx π) cs) π → wpp (enclosing ctxs ctx cs) Q X π.
Proof.
  induction cs as [|c cs IH]; cbn [enclosing existsb]; intros HQ; [by step|]. unfold outer_at in HQ at 1.
  destruct (negb _ && _); cbn [andb orb] in HQ; [|by apply IH]. step. apply wpp_isListElement.
  destruct (element_at c π); cbn [orb] in HQ; [by step|]. step. apply wpp_isListTerminator.
  destruct (ends_list c π); cbn [orb] in HQ; [by step|by apply IH].
Qed.

Lemma eof_ends ctx π : kind_at π = EOF → ends_list ctx π = true.
Proof. unfold ends_list. by intros ->. Qed.
Lemma resumes_ends ctx π : ends_list ctx π = true → resumes ctx π = true.
Proof. unfold resumes. by intros ->. Qed.

Lemma wpp_resync ctxs ctx (Q : bool → point → Prop) π :
  (∀ b π', skips ctxs ctx π π' → (if b : bool then gives_way ctxs ctx π' = true else resumes ctx π' = true) → Q b π') →
  wpp (resync ctxs ctx) Q (λ _, False) π.
Proof.
  intros HQ. apply (wpp_while_ok (λ _ π', ∀ π2, skips ctxs ctx π' π2 → skips ctxs ctx π π2)); [done|].
  intros [] π1 HI. pose proof (HI π1 (skips_here _ _ _)) as Hs.
  step. step. destruct (kind_is (view π1) EOF) eqn:Hk; kinds; [step; by apply HQ; [|apply resumes_ends, eof_ends]|].
  step. apply wpp_isListTerminator. destruct (ends_list ctx π1) eqn:He; [step; by apply HQ; [|apply resumes_ends]|].
  assert (resumes ctx π1 = false → gives_way ctxs ctx π1 = false → wpp (skipGroup ≫= λ _, mret (inl tt))
    (λ r π', match r with inl _ => (∀ π2, skips ctxs ctx π' π2 → skips ctxs ctx π π2) ∧ (left π' < left π1)%nat | inr b => Q b π' end)
    (λ _, False) π1) as Hskip.
  { intros Hr Hg. step. apply wpp_skipGroup; [done|]. intros ts π2 Hu Hne Hgr. step. split.
    - intros π3 H3. by eapply HI, skips_on.
    - apply upto_left in Hu; [|done]. pose proof (left_pos s π1 Hk). lia. }
  step. apply wpp_atElementBoundary. unfold resumes, gives_way, resumes in *. rewrite He in *. cbn [orb] in *.
  destruct (boundary π1) eqn:Hb; cbn [andb negb] in *; [|by apply Hskip].
  step. apply wpp_isListElement. destruct (element_at ctx π1) eqn:Hel; cbn [negb andb] in *.
  { step. apply HQ; [done|]. unfold resumes. by rewrite He, Hb, Hel. }
  step. apply wpp_enclosing. destruct (existsb _ _) eqn:Hx; [|by apply Hskip].
  step. apply HQ; [done|]. unfold gives_way, resumes. by rewrite He, Hb, Hel, Hx.
Qed.

Lemma skips_from ctxs ctx π π' : skips ctxs ctx π π' → from π π'.
Proof. induction 1 as [|π ts π1 π2 _ _ Hu _ _ IH]; [apply from_refl|]. eapply from_trans; [by eapply upto_from|done]. Qed.

(** The element that failed where it starts is passed. *)
Definition passes (ctx : parsingContext) (start : nat) (π π' : point) : Prop :=
  if (place π =? start)%nat && negb (ends_list ctx π) && element_at ctx π then ∃ ts, upto π ts π' ∧ ts ≠ [] ∧ group ts π' else π' = π.
Lemma wpp_skip_failed ctx start (Q : unit → point → Prop) π :
  (∀ π', passes ctx start π π' → Q tt π') → wpp (skip_failed ctx start) Q (λ _, False) π.
Proof.
  unfold passes. intros HQ. unfold skip_failed. step. apply wpp_get. intros p Hp. rewrite (at_place _ _ _ Hp).
  destruct (_ =? _)%nat; cbn [andb] in HQ; [|step; by apply HQ]. step. apply wpp_isListTerminator.
  destruct (ends_list ctx π) eqn:He; cbn [andb negb] in HQ; [step; by apply HQ|]. step. apply wpp_isListElement.
  destruct (element_at ctx π); [|step; by apply HQ]. apply wpp_skipGroup; [|eauto].
  intros Hk. by rewrite (eof_ends ctx π Hk) in He.
Qed.
(** A list that resumes has passed a token, or ends. *)
Lemma resumed_progress ctxs ctx start π π1 π' :
  (start ≤ place π)%nat → passes ctx start π π1 → skips ctxs ctx π1 π' → resumes ctx π' = true →
  from π π' ∧ (ends_list ctx π' = true ∨ (start < place π')%nat).
Proof.
  intros Hl Hp Hs Hr. pose proof (skips_from _ _ _ _ Hs) as Hf. unfold passes in Hp.
  destruct (_ && _) eqn:Hc.
  - destruct Hp as (ts & Hu & Hne & _). split; [eapply from_trans; [by eapply upto_from|done]|]. right.
    destruct Hu as (_ & Hpl & _), Hf as (_ & Hle & _). destruct ts; [done|]. cbn in Hpl. lia.
  - subst π1. split; [done|]. apply andb_false_iff in Hc. rewrite andb_false_iff in Hc. destruct Hs as [π|π ts π1 π2 Hn _ Hu [us [t [-> _]]] Hs].
    + unfold resumes in Hr. destruct (ends_list ctx π) eqn:He; [by left|]. right. cbn in Hr. apply andb_true_iff in Hr as [_ Hel].
      rewrite Hel in Hc. destruct Hc as [[Hc|Hc]|Hc]; bool_cases; try done. lia.
    + right. destruct Hu as (_ & Hpl & _). apply skips_from in Hs as (_ & Hle & _). rewrite length_app in Hpl. cbn in Hpl. lia.
Qed.
Lemma gave_way_from ctxs ctx start π π1 π' : passes ctx start π π1 → skips ctxs ctx π1 π' → from π π'.
Proof.
  intros Hp Hs. apply skips_from in Hs. unfold passes in Hp. destruct (_ && _); [|by subst].
  destruct Hp as (ts & Hu & _). eapply from_trans; [by eapply upto_from|done].
Qed.
End rules.
