(* ===== verification/RecoverLists.v ===== *)
(** * Lists of statements

    [sound] is what a production of statements promises: it consumes a sentence
    of its language, unless something is reported, and where it fails it
    says why.  A list of sound statements reads on to its end or to a token of
    an enclosing list, whatever fails in it; a block of them is sound too. *)

From S2P Require Import Prelude GoString Diag Token Lexer LexerFacts LexerPos Stream StreamFacts Expr ParsePrimary Stmt Recovery DiagList.
From S2P Require Import ParseWp ParseRules ParseLists RecoverWp.
Open Scope Z_scope.

Section lists.
Context `{U : Unicode} `{OP : Opaque} `{D : Declared} (s : string).
Abbreviation wpr := (wpr s).
Abbreviation wpp := (wpp s).
Abbreviation upto := (upto s).
Abbreviation view := (view s).
Abbreviation left := (left s).

Definition quiet (ν : notes) : Prop := ndiags ν = [].
(** That the scanner's error has been reported is true. *)
Definition heard (ν : notes) : Prop := nreported ν → noisy ν.
(** What stops a production has been reported, or will be. *)
Definition tells (e : Stop) (ν : notes) : Prop := match e with Aborted => noisy ν | Failed e => diagnostics_of e ≠ [] end.

Lemma grown_heard ν ν' : grown ν ν' → heard ν → heard ν'.
Proof. intros [[_ _ H] _] Hh. exact (H Hh). Qed.
Lemma grown_noisy ν ν' : grown ν ν' → noisy ν → noisy ν'.
Proof. intros [H _]. by apply grows_noisy. Qed.
Lemma grown_quiet ν ν' : grown ν ν' → quiet ν' → quiet ν.
Proof.
  unfold quiet. intros H Hq. destruct (ndiags ν) eqn:Hd; [done|]. exfalso. apply (grown_noisy _ _ H); [|done]. unfold noisy. by rewrite Hd.
Qed.
Lemma tells_grown e ν ν' : grown ν ν' → tells e ν → tells e ν'.
Proof. destruct e; [apply grown_noisy|done]. Qed.
Lemma told_grown ds ν ν' : told ds ν ν' → grown ν ν'.
Proof. by intros [H _]. Qed.

Lemma from_less π π' : from π π' → (place π < place π')%nat → (left π' ≤ pred (left π))%nat.
Proof.
  intros (A & _ & _) Hl. unfold ParseWp.left. rewrite (agree_left s _ _ _ A). etransitivity; [|apply left_pred].
  by apply left_mono.
Qed.
Lemma from_spec0 π π' : from π π' → ctx_spec π' = ctx_spec π.
Proof. by intros (_ & _ & _ & _ & _ & ?). Qed.

(** ** Recovering *)

(** How a list answers an error of an element. *)
Definition recovered (ctxs : Z) (ctx : parsingContext) (err : option Stop) (π' : point) : Prop :=
  match err with
  | None => resumes s ctx π' = true
  | Some Aborted => gives_way s ctxs ctx π' = true
  | Some (Failed _) => False
  end.
Lemma wpr_recoverList ctx start e (Q : option Stop → point → notes → Prop) X π ν :
  ctx_spec π = O → heard ν → tells e ν →
  (∀ err π1 π' ν', grown ν ν' → noisy ν' → passes s ctx start π π1 → skips s (ncontexts ν) ctx π1 π' →
     recovered (ncontexts ν) ctx err π' → Q err π' ν') →
  wpr (recoverList ctx start (Some e)) Q X π ν.
Proof.
  intros Hsp Hh Ht HQ. unfold recoverList. apply wpr_bind, wpr_get. intros r Hr Hν.
  rewrite (at_speculating _ _ _ Hr), Hsp. change (0 <? 0)%nat with false. cbv iota.
  apply wpr_bind, wpr_report. intros r1 ν1 _ _ Hs. pose proof (told_grown _ _ _ Hs) as Hg.
  assert (noisy ν1) as Hn.
  { destruct e as [|e]; [by apply (grown_noisy _ _ Hg)|]. cbn in Ht. cbn [says] in Hs.
    destruct (scan_error _); [|by apply (told_noisy _ _ _ Hs)].
    destruct (nreported ν) eqn:Hre; [|by apply (told_noisy _ _ _ Hs)]. apply (grown_noisy _ _ Hg), Hh. by rewrite Hre. }
  apply wpr_bind, wpr_lift_ok, wpp_skip_failed. intros π1 Hp. apply wpr_bind, wpr_get. intros r2 _ Hν2.
  replace (contexts r2) with (ncontexts ν) by (destruct Hg as [_ <-]; by rewrite <- Hν2).
  apply wpr_bind, wpr_lift_ok, wpp_resync. intros b π' Hsk Hb. apply wpr_ret.
  eapply HQ; [done|done|done|done|]. by destruct b.
Qed.

(** ** Productions *)

Definition sound {A} (n : nat) (m : RM A) (L : list Token → A → Prop) : Prop := ∀ π ν,
  (left π ≤ n)%nat → ctx_spec π = O → heard ν →
  wpr m (λ a π' ν', grown ν ν' ∧ ∃ ts, upto π ts π' ∧ ts ≠ [] ∧ (quiet ν' → L ts a))
    (λ e π' ν', grown ν ν' ∧ from π π' ∧ tells e ν') π ν.

(** A production of the tokens alone. *)
Lemma sound_lift {A} n (m : PM A) (L : list Token → A → Prop) : good s n m L → sound n (lift m) L.
Proof.
  intros Hm π ν Hn _ Hh. apply wpr_lift. eapply wpp_mono; [by apply Hm| |].
  - intros a π' (ts & Hu & Hne & HL). split; [apply grown_refl|]. by exists ts.
  - intros π' Hf d. split_and!; [apply grown_refl|done|done].
Qed.
Lemma sound_mono {A} n (m : RM A) (L L' : list Token → A → Prop) :
  (∀ ts a, L ts a → L' ts a) → sound n m L → sound n m L'.
Proof.
  intros HL H π ν Hn Hc Hh. eapply wpr_mono; [by apply H| |done]. intros a π' ν' (Hg & ts & ? & ? & ?). split; [done|]. exists ts. auto.
Qed.

(** ** The list *)

Section list.
Context {B : Type} (n : nat) (parseStatement : RM Statement) (L : list Token → Statement → Prop).
Context (add : Statement → B → RM B) (Added : Statement → B → B → Prop).
Context (Hstatement : sound n parseStatement L).
(** What is made of a statement. *)
Context (Hadd : ∀ st b π ν, wpr (add st b) (λ b' π' ν', π' = π ∧ grown ν ν' ∧ Added st b b')
  (λ e π' ν', π' = π ∧ grown ν ν' ∧ tells e ν') π ν).

Fixpoint adds (sts : list Statement) (b b' : B) : Prop :=
  match sts with [] => b' = b | st :: sts => ∃ b1, Added st b b1 ∧ adds sts b1 b' end.
Lemma adds_snoc sts st b b1 b2 : adds sts b b1 → Added st b1 b2 → adds (sts ++ [st]) b b2.
Proof.
  revert b. induction sts as [|st' sts IH]; intros b H1 H2; cbn in *; [subst; by exists b2|].
  destruct H1 as (b' & H & H1). exists b'. split; [done|]. by apply IH.
Qed.

(** All that was read is statements, one after the other. *)
Definition all_read (π : point) (b b' : B) (π' : point) : Prop :=
  ∃ tss sts, upto π (concat tss) π' ∧ Forall2 L tss sts ∧ adds sts b b'.
Lemma all_read_refl π b : all_read π b b π.
Proof. exists [], []. split_and!; [apply upto_refl|constructor|done]. Qed.
Lemma all_read_snoc π b b1 π1 ts st b2 π2 :
  all_read π b b1 π1 → upto π1 ts π2 → L ts st → Added st b1 b2 → all_read π b b2 π2.
Proof.
  intros (tss & sts & Hu & HF & Ha) Hu' HL Hst. exists (tss ++ [ts]), (sts ++ [st]). split_and!.
  - rewrite concat_app. cbn. rewrite app_nil_r. by eapply upto_trans.
  - by apply Forall2_app; [|constructor].
  - by eapply adds_snoc.
Qed.

Definition inside (ctx : parsingContext) (ν : notes) : Z := Z.lor (ncontexts ν) (Z.shiftl 1 (ctx_index ctx)).
Definition list_answers (ctx : parsingContext) (π : point) (ν : notes) (b : B) (out : B * option Stop) (π' : point) (ν' : notes) : Prop :=
  match out.2 with
  | None => ends_list s ctx π' = true ∧ (quiet ν' → all_read π b out.1 π')
  | Some e => tells e ν' ∧ gives_way s (inside ctx ν) ctx π' = true
  end.

(** One round. *)
Lemma wpr_element (Q : B + Stop → point → notes → Prop) X π ν b :
  (left π ≤ n)%nat → ctx_spec π = O → heard ν →
  (∀ b' ts st π' ν', grown ν ν' → upto π ts π' → ts ≠ [] → (quiet ν' → L ts st) → Added st b b' → Q (inl b') π' ν') →
  (∀ e π' ν', grown ν ν' → from π π' → tells e ν' → Q (inr e) π' ν') →
  wpr (try_ (stmt ← parseStatement; add stmt b)) Q X π ν.
Proof.
  intros Hn Hc Hh HQ HX. apply wpr_try, wpr_bind. eapply wpr_mono; [by apply Hstatement| |intros e π' ν' (? & ? & ?); by apply HX].
  intros st π1 ν1 (Hg & ts & Hu & Hne & HL). eapply wpr_mono; [apply Hadd| |].
  - intros b' π' ν' (-> & Hg' & Ha). eapply HQ; [by eapply grown_trans|done|done| |done].
    intros Hq. by apply HL, (grown_quiet _ _ Hg').
  - intros e π' ν' (-> & Hg' & Ht). apply HX; [by eapply grown_trans|by eapply upto_from|done].
Qed.
Lemma wpr_parseStatementList ctx (Q : B * option Stop → point → notes → Prop) X b π ν :
  (left π ≤ n)%nat → ctx_spec π = O → heard ν →
  (∀ out π' ν', grown ν ν' → from π π' → list_answers ctx π ν b out π' ν' → Q out π' ν') →
  wpr (parseStatementList parseStatement ctx add b) Q X π ν.
Proof.
  intros Hn Hc Hh HQ. unfold parseStatementList. apply wpr_bind, wpr_gets. intros r0 _ Hr0.
  assert (contexts r0 = ncontexts ν) as -> by (by rewrite <- Hr0).
  apply wpr_bind, (wpr_modify s _ (λ ν, with_contexts (inside ctx ν) ν)); [done|]. set (ν1 := with_contexts _ ν).
  assert (∀ ν', grown ν1 ν' → grown ν (with_contexts (ncontexts ν) ν')) as Hback by (intros ν' [[A B' C] _]; by split; [constructor|]).
  apply wpr_bind, (wpr_repeat s (λ b' π' ν', grown ν1 ν' ∧ from π π' ∧ (quiet ν' → all_read π b b' π'))
    (λ _ π', if ends_list s ctx π' then O else left π')).
  { split_and!; [apply grown_refl|apply from_refl|intros _; apply all_read_refl]. }
  { destruct (ends_list s ctx π); [lia|apply left_bound]. }
  intros b' π1 ν2 (Hg & Hf & Hq). apply wpr_bind, wpr_lift_ok, wpp_isListTerminator.
  destruct (ends_list s ctx π1) eqn:He.
  { apply wpr_ret, wpr_bind, (wpr_modify s _ (with_contexts (ncontexts ν))); [done|]. apply wpr_ret, HQ; [by apply Hback|done|by split]. }
  assert (0 < left π1)%nat as Hpos by (apply left_pos; intros Hk; by rewrite (eof_ends s ctx π1 Hk) in He).
  pose proof (from_left s _ _ Hf) as Hle. pose proof (from_spec0 _ _ Hf) as Hc1.
  assert (heard ν2) as Hh2 by (by apply (grown_heard _ _ Hg)).
  apply wpr_bind, wpr_get. intros r Hr _. rewrite (at_place _ _ _ Hr). clear r Hr.
  apply wpr_bind, wpr_element; [lia|by rewrite Hc1|done| |].
  - intros b2 ts st π2 ν3 Hg2 Hu Hne HL Ha. apply wpr_ret. split_and!; [by eapply grown_trans| | |].
    + eapply from_trans; [done|by eapply upto_from].
    + intros Hq3. eapply all_read_snoc; [apply Hq, (grown_quiet _ _ Hg2)|..]; eauto.
    + apply upto_left in Hu; [|done]. destruct (ends_list s ctx π2); lia.
  - intros e π2 ν3 Hg2 Hf2 Ht. apply wpr_bind, wpr_recoverList; [rewrite (from_spec0 _ _ Hf2); congruence|by apply (grown_heard _ _ Hg2)|done|].
    intros err π3 π' ν' Hg3 Hnoisy Hp Hs Hrec. pose proof (grown_trans _ _ _ Hg2 Hg3) as Hg'.
    pose proof (grown_trans _ _ _ Hg Hg') as Hg''. apply wpr_ret.
    assert (from π π') as Hf' by (eapply from_trans; [done|]; eapply from_trans; [done|]; by eapply gave_way_from).
    destruct err as [[|e']|]; [|done|].
    + apply wpr_bind, (wpr_modify s _ (with_contexts (ncontexts ν))); [done|]. apply wpr_ret, HQ; [by apply Hback|done|].
      split; [done|]. cbn in Hrec. destruct (grown_trans _ _ _ Hg Hg2) as [_ Hcx]. by rewrite Hcx in Hrec.
    + destruct (resumed_progress s _ _ (place π1) _ _ _ ltac:(by destruct Hf2 as (_ & ? & _)) Hp Hs Hrec) as [Hf3 Hpr].
      split_and!; [done|done|by intros ?%Hnoisy|]. destruct (ends_list s ctx π') eqn:He'; [done|]. destruct Hpr as [?|Hpr]; [done|].
      pose proof (from_less π1 π' (from_trans _ _ _ Hf2 Hf3) Hpr). lia.
Qed.
End list.
End lists.
