(* ===== verification/ParseStmt.v ===== *)
(** * Statements (src/parser/parser_stmts.go)

    The statements of control flow and the declarations of variables, one
    definition per method.  A production that reads no list of statements is one of
    the tokens.  A statement inside another is parsed by [self]; [statements] ties
    the knot.  Other declarations and decorators are parsed by [Declarations]. *)

From S2P Require Import Prelude GoString Diag Token Lexer Stream Expr Jsdoc ParsePrimary ParseExpr Stmt Recovery.
Open Scope Z_scope.

(** ** Messages (src/diag/messages.go) *)

Definition DeclInSingleStatement := syntax 1156 "'%s' declarations can only be declared inside a block".
Definition ExpectedOfDestructure := syntax 1005 "expected 'of' after a for-of destructuring pattern, got %s".
Definition ExpectedCaseOrDefault := syntax 1130 "expected 'case' or 'default' in switch".
Definition ExpectedCatchFinally := syntax 1472 "try statement requires at least a catch or finally clause".
Definition ForAwaitNotForIn := syntax 1005 "'for await' requires a for-of loop, not for-in".
Definition ForAwaitNotForOf := syntax 1005 "'for await' requires a for-of loop over an async iterable".
Definition LineBreakAfterThrow := syntax 1142 "line break not allowed after 'throw'".
Definition DecoratorsNotValid := syntax 1206 "decorators can only be applied to a class declaration or its members".

Definition DefiniteNeedsAnnotation := syntax 1264 "Declarations with definite assignment assertions must also have type annotations.".
Definition DefiniteWithInitializer := syntax 1263 "Declarations with initializers cannot also have definite assignment assertions.".
Definition ConstMustBeInitialized := syntax 1155 "'const' declaration '%s' must be initialized".
Definition annotation_message (code : Z) (text : string) : Message := mkMessage code Error Unsupported PhaseParse text.
Definition PureNotFunction := annotation_message 91001 "@pure applies only to a function — '%s' is not a function binding".
Definition PureAsyncGenExpr := annotation_message 91002 "@pure cannot be applied to an async or generator function expression ('%s')".
Definition PureAsyncArrow := annotation_message 91002 "@pure cannot be applied to an async arrow function ('%s')".
Definition FreeOwnedSingleVar := annotation_message 91006
  "@free/@owned applies to a single-variable declaration — annotate one variable per declaration statement".
Definition FreeOwnedExclusive := annotation_message 91007
  "@free and @owned are mutually exclusive on '%s' — @free frees at block exit, @owned at last use; pick one".
Definition ValueSingleVar := annotation_message 91008
  "@value applies to a single-variable declaration — annotate one variable per declaration statement".
Definition ValueWithFreeOwned := annotation_message 91009 "@value cannot be combined with @free/@owned on '%s'".

Definition set_noInFrom (o : option nat) (p : Parser) : Parser :=
  mkParser (lx p) (toks p) (states p) (rescans p) (cursor p) (psrc p) (blanks p) (docAt p) (pdoc p) (inGen p) (inGenParams p)
    (awaitCtx p) o (speculating p) (parenLiterals p) (bareArrow p) (assertions p) (made p).

(** The methods for declarations: parseVarDecl (with or without its
    semicolon), parseArrayDestructuring and parseObjectDestructuring, which are
    modelled below; and those that are not: parseFunctionDecl (async or not), parseClassDecl (abstract or not), parseEnumDeclaration,
    parseImportDeclaration, parseImportEquals, parseExportDeclaration, parseInterfaceDecl,
    parseTypeAliasDecl, parseNamespaceDecl and parseAmbientDeclaration. *)
Inductive DeclKind :=
  | VarDecl (consumeSemi : bool) | ArrayDestructuring | ObjectDestructuring | FunctionDecl (isAsync : bool)
  | ClassDecl (isAbstract : bool) | EnumDecl | ImportDecl | ImportEquals | ExportDecl | InterfaceDecl | TypeAliasDecl
  | NamespaceDecl | AmbientDecl.

Section parse_stmt.
Context `{U : Unicode} {OP : Opaque} {D : Declared} {E : Elsewhere}.

Class Declarations := {
  parseDeclaration : RM Statement → DeclKind → RM Statement;
  Decorators : Type;
  parseDecorators : RM Statement → RM Decorators;
  (** [unwrapClassDecl], and the class with its decorators *)
  decorate : Decorators → Statement → option Statement }.
Context {DS : Declarations}.

(** ** Statements of tokens *)

(** The operations of [Elsewhere], with the expressions in them. *)
Definition outside {A} (m : Self → PM A) : PM A := n ← rounds; m (productions n).
(** [(] [test] [)]. *)
Definition parenthesized : PM Expr :=
  expect LPAREN ≫= λ _, e ← parseExpression; expect RPAREN ≫= λ _, mret e.

Definition parseReturnStatement : PM Statement :=
  tok ← advance;
  t ← peek;
  val ← (if HasPrecedingLineBreak t || kind_in t [SEMICOLON; RBRACE; EOF] then mret None
         else e ← parseExpression; mret (Some e));
  parseSemicolon ≫= λ _, mret (mkStmt (posOf tok) (SReturn val)).

(** The label of a break or continue, on its line. *)
Definition parseLabel : PM string :=
  t ← peek;
  if kind_is t IDENT && negb (HasPrecedingLineBreak t) then l ← advance; mret (Literal l) else mret ""%string.
Definition parseBreakStatement : PM Statement :=
  tok ← advance; label ← parseLabel; parseSemicolon ≫= λ _, mret (mkStmt (posOf tok) (SBreak label)).
Definition parseContinueStatement : PM Statement :=
  tok ← advance; label ← parseLabel; parseSemicolon ≫= λ _, mret (mkStmt (posOf tok) (SContinue label)).

Definition parseThrowStatement : PM Statement :=
  tok ← advance;
  nt ← peek;
  if HasPrecedingLineBreak nt then errAt nt LineBreakAfterThrow []
  else
    arg ← parseExpression;
    parseSemicolon ≫= λ _, mret (mkStmt (posOf tok) (SThrow arg)).

(** Expressions after commas. *)
Definition more_expressions (es : list Expr) : PM (list Expr) :=
  while (λ es,
    comma ← match_ [COMMA];
    if (comma : bool) then e ← parseExpression; mret (inl (es ++ [e])) else mret (inr es)) es.
Definition parseExpressionStatement : PM Statement :=
  e ← parseExpression;
  comma ← check COMMA;
  e ← (if comma : bool then es ← more_expressions [e]; make (epos e) (SequenceExpression es) else mret e);
  parseSemicolon ≫= λ _, mret (mkStmt (epos e) (SExpression e)).

Definition rejectLexicalDecl : PM unit :=
  tok ← peek;
  match Type_ tok with
  | CONST => errAt tok DeclInSingleStatement [FStr "const"]
  | LET =>
      next ← peekNth 1;
      if kind_is next LBRACKET || (negb (HasPrecedingLineBreak next) && kind_in next [IDENT; LBRACE])
      then errAt tok DeclInSingleStatement [FStr "let"] else mret tt
  | _ => mret tt
  end.
(** [&&]: [b] is not looked at where [a] is false. *)
Definition and_also (a b : PM bool) : PM bool := x ← a; if (x : bool) then b else mret false.
Definition next_is (n : nat) (typ : TokenType) : PM bool := t ← peekNth n; mret (kind_is t typ).
(** [async function] and [abstract class], on a line. *)
Definition modified (word : string) (typ : TokenType) : PM bool := and_also (isWord 0 word) (and_also (next_is 1 typ) (sameLine 1)).
(** The declarations that are never a single statement. *)
Definition rejectDeclaration (inIf : bool) : PM unit :=
  tok ← peek;
  if kind_is tok CLASS then errAt tok DeclInSingleStatement [FStr "class"]
  else
    generator ← (if kind_is tok FUNCTION then star ← next_is 1 STAR; mret (star || negb inIf) else mret false);
    if (generator : bool) then errAt tok DeclInSingleStatement [FStr "function"]
    else
      async ← modified "async" FUNCTION;
      if (async : bool) then errAt tok DeclInSingleStatement [FStr "function"] else mret tt.

(** ** Declarations of variables *)

Definition clear_pdoc (p : Parser) : Parser :=
  mkParser (lx p) (toks p) (states p) (rescans p) (cursor p) (psrc p) (blanks p) (docAt p) None (inGen p) (inGenParams p)
    (awaitCtx p) (noInFrom p) (speculating p) (parenLiterals p) (bareArrow p) (assertions p) (made p).
Definition takeDoc : PM (option Comment) := p ← get; modify clear_pdoc ≫= λ _, mret (pdoc p).
Definition doc_tag (doc : option Comment) (tag : string) : bool := match doc with Some c => HasTag c tag | None => false end.
(** The annotation, or the type of the doc comment in its place. *)
Definition doc_type (doc : option Comment) (ta : option TypeAnnotation) : option TypeAnnotation :=
  match doc with
  | Some c => if bool_decide (GetType c = ""%string) then ta else jsdocTypeAnnotation (GetType c)
  | None => ta
  end.

(** A [!] after the name. *)
Definition definite_mark (kind : string) : PM bool :=
  bang ← (if bool_decide (kind = "const"%string) then mret false else check NOT);
  if (bang : bool) then
    t ← advance;
    colon ← check COLON;
    if (colon : bool) then mret true else errAt t DefiniteNeedsAnnotation []
  else mret false.
(** What a tag [@pure] marks. *)
Definition pure_function (nameTok : Token) (e : Expr) : PM Expr :=
  match ekind e with
  | ArrowFunction tps cs ds ps ret body block isAsync src _ =>
      if isAsync then errAt nameTok PureAsyncArrow [FStr (Literal nameTok)]
      else mret (with_kind (ArrowFunction tps cs ds ps ret body block isAsync src true) e)
  | FunctionExpression name npos fd isAsync isGen m src _ =>
      if isAsync || isGen then errAt nameTok PureAsyncGenExpr [FStr (Literal nameTok)]
      else mret (with_kind (FunctionExpression name npos fd isAsync isGen m src true) e)
  | _ => errAt nameTok PureNotFunction [FStr (Literal nameTok)]
  end.
Definition var_init (kind : string) (nameTok : Token) (doc : option Comment) : PM (option Expr) :=
  assign ← match_ [ASSIGN];
  if (assign : bool) then
    e ← parseExpression;
    e ← (if doc_tag doc "pure" then pure_function nameTok e else mret e);
    mret (Some e)
  else if bool_decide (kind = "const"%string) then errAt nameTok ConstMustBeInitialized [FStr (Literal nameTok)]
  else mret None.
Definition parseOneVarDeclarator (kind : string) (pos : Pos) (doc : option Comment) : PM VarDeclaration :=
  nameTok ← expectBindingName;
  definite ← definite_mark kind;
  ta ← outside annotation;
  init ← var_init kind nameTok doc;
  if definite && match init with Some _ => true | None => false end then errAt nameTok DefiniteWithInitializer []
  else mret (mkVar kind (Literal nameTok) (doc_type doc ta) init false false false definite (posOf nameTok) pos).

(** The tags [@free], [@owned] and [@value], set on the only variable. *)
Definition mark_first (free owned value : bool) (ds : list VarDeclaration) : list VarDeclaration :=
  match ds with
  | mkVar k n ta i _ _ _ d np p :: ds => mkVar k n ta i free owned value d np p :: ds
  | [] => []
  end.
Definition apply_tags (doc : option Comment) (pos : Pos) (name : string) (ds : list VarDeclaration) : PM (list VarDeclaration) :=
  let free := doc_tag doc "free" in
  let owned := doc_tag doc "owned" in
  let value := doc_tag doc "value" in
  let several := (1 <? length ds)%nat in
  if free && owned then errAtPos pos FreeOwnedExclusive [FStr name]
  else if (free || owned) && several then errAtPos pos FreeOwnedSingleVar []
  else if value && (free || owned) then errAtPos pos ValueWithFreeOwned [FStr name]
  else if value && several then errAtPos pos ValueSingleVar []
  else mret (mark_first free owned value ds).
Definition parseVarDecl (consumeSemi : bool) : PM Statement :=
  doc ← takeDoc;
  tok ← advance;
  first ← parseOneVarDeclarator (Literal tok) (posOf tok) doc;
  decls ← while (λ ds,
    comma ← match_ [COMMA];
    if (comma : bool) then
      declTok ← peek;
      d ← parseOneVarDeclarator (Literal tok) (posOf declTok) None;
      mret (inl (ds ++ [d]))
    else mret (inr ds)) [first];
  decls ← apply_tags doc (posOf tok) (VName first) decls;
  (if consumeSemi then parseSemicolon else mret tt) ≫= λ _,
  mret (mkStmt (posOf tok) (match decls with [d] => SVar d | _ => SVarList decls end)).

(** The type, the value and the semicolon of a destructuring. *)
Definition destructured : PM (option TypeAnnotation * Expr) :=
  ta ← outside annotation;
  expect ASSIGN ≫= λ _,
  init ← parseExpression;
  parseSemicolon ≫= λ _,
  mret (ta, init).
Definition parseArrayDestructuring : PM Statement :=
  tok ← advance;
  elems ← outside parseArrayPatternElems;
  '(ta, init) ← destructured;
  mret (mkStmt (posOf tok) (SArrayDestructuring (Literal tok) elems ta init)).
Definition parseObjectDestructuring : PM Statement :=
  tok ← advance;
  props ← outside parseObjectPatternProps;
  '(ta, init) ← destructured;
  mret (mkStmt (posOf tok) (SObjectDestructuring (Literal tok) props ta init)).

(** ** Statements of statements *)

Section self.
Context (self : RM Statement).

Definition parseSingleStatement (inIf : bool) : RM Block :=
  brace ← lift (check LBRACE);
  if (brace : bool) then parseBlock self
  else
    tok ← lift peek;
    lift rejectLexicalDecl ≫= λ _,
    lift (rejectDeclaration inIf) ≫= λ _,
    stmt ← self;
    mret (mkBlock (posOf tok) [stmt]).
Definition parseBlockOrStatement : RM Block := parseSingleStatement false.
Definition parseIfBody : RM Block := parseSingleStatement true.

Definition parseLabeledStatement : RM Statement :=
  tok ← lift advance;
  lift (expect COLON) ≫= λ _,
  lift rejectLexicalDecl ≫= λ _,
  body ← self;
  mret (mkStmt (posOf tok) (SLabeled (Literal tok) body)).

(** [else if] goes round: [n] bounds how often. *)
Fixpoint parseIf (n : nat) : RM Statement :=
  match n with
  | O => λ r, (OutOfFuel, r)
  | S n =>
      tok ← lift advance;
      test ← lift parenthesized;
      cons ← parseIfBody;
      else_ ← lift (check ELSE);
      if (else_ : bool) then
        lift advance ≫= λ _,
        elseIf ← lift (check IF);
        alt ← (if elseIf : bool then parseIf n else b ← parseIfBody; mret (block_stmt b));
        mret (mkStmt (posOf tok) (SIf test cons (Some alt)))
      else mret (mkStmt (posOf tok) (SIf test cons None))
  end.
Definition parseIfStatement : RM Statement := n ← lift rounds; parseIf n.

Definition parseWhileStatement : RM Statement :=
  tok ← lift advance;
  test ← lift parenthesized;
  body ← parseBlockOrStatement;
  mret (mkStmt (posOf tok) (SWhile test body)).

Definition parseDoWhileStatement : RM Statement :=
  tok ← lift advance;
  body ← parseBlockOrStatement;
  lift (expect WHILE) ≫= λ _,
  test ← lift parenthesized;
  lift (match_ [SEMICOLON]) ≫= λ _,
  mret (mkStmt (posOf tok) (SDoWhile body test)).

(** ** For *)

(** What comes after [of] or [in]. *)
Definition for_tail : RM (Expr * Block) :=
  e ← lift parseExpression;
  lift (expect RPAREN) ≫= λ _,
  body ← parseBlockOrStatement;
  mret (e, body).
Definition parseForOfBody (pos : Pos) (isAwait : bool) : RM Statement :=
  kindTok ← lift advance;
  nameTok ← lift (expect IDENT);
  lift advance ≫= λ _,
  '(iterable, body) ← for_tail;
  mret (mkStmt pos (SForOf (Literal kindTok) (Literal nameTok) None None iterable body isAwait)).
Definition parseForInBody (pos : Pos) : RM Statement :=
  kindTok ← lift advance;
  nameTok ← lift (expect IDENT);
  lift advance ≫= λ _,
  '(object, body) ← for_tail;
  mret (mkStmt pos (SForIn (Literal kindTok) (Literal nameTok) object body)).
Definition parseForOfPatternBody (pos : Pos) (isAwait : bool) : RM Statement :=
  kindTok ← lift advance;
  bracket ← lift (check LBRACKET);
  '(elems, props) ← (if bracket : bool then elems ← lift (outside parseArrayPatternElems); mret (Some elems, None)
                     else props ← lift (outside parseObjectPatternProps); mret (None, Some props));
  tok ← lift peek;
  if is_word tok "of" then
    lift advance ≫= λ _,
    '(iterable, body) ← for_tail;
    mret (mkStmt pos (SForOf (Literal kindTok) "" elems props iterable body isAwait))
  else lift (errAt tok ExpectedOfDestructure [FTok (Type_ tok)]).

Definition variable_kinds : list TokenType := [LET; CONST; VAR].
(** The first part of a [for] of three, where [in] is no operator. *)
Definition for_init : RM (option Statement) :=
  semi ← lift (check SEMICOLON);
  if (semi : bool) then mret None
  else
    p ← lift get;
    lift (modify (set_noInFrom (Some (cursor p)))) ≫= λ _,
    res ← try_ (t ← lift peek;
                if kind_in t variable_kinds then lift (parseVarDecl false)
                else e ← lift parseExpression; mret (mkStmt (epos e) (SExpression e)));
    lift (modify (set_noInFrom (noInFrom p))) ≫= λ _,
    match res with inl st => mret (Some st) | inr e => throw e end.
(** An expression, unless the token is there. *)
Definition unless (typ : TokenType) : PM (option Expr) :=
  there ← check typ;
  if (there : bool) then mret None else e ← parseExpression; mret (Some e).
Definition for_update : PM (list Expr) :=
  there ← check RPAREN;
  if (there : bool) then mret [] else e ← parseExpression; more_expressions [e].

Inductive ForForm := ForOf | ForIn | ForOfPattern | ForThree.
Definition for_form : PM ForForm :=
  t ← peek;
  if kind_in t variable_kinds then
    t2 ← peekNth 2;
    if is_word t2 "of" then mret ForOf
    else if is_word t2 "in" then mret ForIn
    else t1 ← peekNth 1; mret (if kind_in t1 [LBRACKET; LBRACE] then ForOfPattern else ForThree)
  else mret ForThree.
Definition parseForStatement : RM Statement :=
  tok ← lift advance;
  let pos := posOf tok in
  isAwait ← lift (check AWAIT);
  (if isAwait : bool then lift advance ≫= λ _, mret tt else mret tt) ≫= λ _,
  lift (expect LPAREN) ≫= λ _,
  form ← lift for_form;
  match form with
  | ForOf => parseForOfBody pos isAwait
  | ForIn => if (isAwait : bool) then lift (errAtPos pos ForAwaitNotForIn []) else parseForInBody pos
  | ForOfPattern => parseForOfPatternBody pos isAwait
  | ForThree =>
      if (isAwait : bool) then lift (errAtPos pos ForAwaitNotForOf [])
      else
        init ← for_init;
        lift (expect SEMICOLON) ≫= λ _,
        test ← lift (unless SEMICOLON);
        lift (expect SEMICOLON) ≫= λ _,
        update ← lift for_update;
        lift (expect RPAREN) ≫= λ _,
        body ← parseBlockOrStatement;
        mret (mkStmt pos (SFor init test update body))
  end.

(** ** Switch and try *)

Definition case_head : PM (option Expr) :=
  t ← peek;
  if kind_is t CASE then advance ≫= λ _, e ← parseExpression; expect COLON ≫= λ _, mret (Some e)
  else if kind_is t DEFAULT then advance ≫= λ _, expect COLON ≫= λ _, mret None
  else errAt t ExpectedCaseOrDefault [].
Definition parseSwitchStatement : RM Statement :=
  tok ← lift advance;
  disc ← lift parenthesized;
  lift (expect LBRACE) ≫= λ _,
  cases ← repeat_ (λ cases,
    t ← lift peek;
    if kind_in t [RBRACE; EOF] then mret (inr cases)
    else
      test ← lift case_head;
      '(body, err) ← parseStatementList self ctxSwitchClauseStatements append [];
      match err with
      | Some e => throw e
      | None => mret (inl (cases ++ [mkCase test body]))
      end) [];
  lift (expect RBRACE) ≫= λ _,
  mret (mkStmt (posOf tok) (SSwitch disc cases)).

Definition catch_prop : PM DestructProp :=
  keyTok ← expect IDENT;
  colon ← check COLON;
  localTok ← (if colon : bool then advance ≫= λ _, expect IDENT else mret keyTok);
  assign ← match_ [ASSIGN];
  dflt ← (if assign : bool then e ← parseExpression; mret (Some e) else mret None);
  mret (mkProp (Literal keyTok) None (Literal localTok) (posOf localTok) dflt None None false).
Definition catch_pattern : PM (list DestructProp) :=
  advance ≫= λ _,
  props ← while (λ props,
    t ← peek;
    if kind_in t [RBRACE; EOF] then mret (inr props)
    else
      prop ← catch_prop;
      comma ← match_ [COMMA];
      mret (if comma : bool then inl (props ++ [prop]) else inr (props ++ [prop]))) [];
  expect RBRACE ≫= λ _, mret props.
(** The binding of a [catch]: its name, type and pattern. *)
Definition catch_binding : PM (string * option TypeAnnotation * list DestructProp) :=
  paren ← check LPAREN;
  if (paren : bool) then
    advance ≫= λ _,
    brace ← check LBRACE;
    '(name, pattern) ← (if brace : bool then ps ← catch_pattern; mret (""%string, ps)
                        else t ← expect IDENT; mret (Literal t, []));
    colon ← check COLON;
    ta ← (if colon : bool then advance ≫= λ _, ta ← outside (λ G, parseTypeAnnotation G "ts"); mret (Some ta) else mret None);
    expect RPAREN ≫= λ _,
    mret (name, ta, pattern)
  else mret (""%string, None, []).
Definition parseTryStatement : RM Statement :=
  tok ← lift advance;
  body ← parseBlock self;
  catches ← lift (check CATCH);
  catch ← (if catches : bool then
    catchTok ← lift advance;
    '(name, ta, pattern) ← lift catch_binding;
    cbody ← parseBlock self;
    mret (Some (mkCatch name ta pattern cbody (posOf catchTok)))
  else mret None);
  finallies ← lift (check FINALLY);
  finally ← (if finallies : bool then lift advance ≫= λ _, b ← parseBlock self; mret (Some b) else mret None);
  match catch, finally with
  | None, None => t ← lift peek; lift (errAt t ExpectedCatchFinally [])
  | _, _ => mret (mkStmt (posOf tok) (STry body catch finally))
  end.

(** ** The statement *)

Definition parseDecorated : RM Statement :=
  decs ← parseDecorators self;
  t ← lift peek;
  stmt ← self;
  match decorate decs stmt with
  | None => lift (errAtPos (posOf t) DecoratorsNotValid [])
  | Some stmt => mret stmt
  end.
Definition parseEmpty : PM Statement := advance ≫= λ _, mret (mkStmt (mkPos 0 0) (SBlock [])).
Definition parseDebugger : PM Statement :=
  t ← peek; advance ≫= λ _, parseSemicolon ≫= λ _, mret (mkStmt (posOf t) (SBlock [])).

(** The declaration a statement is, if its first tokens make it one. *)
Definition declaration_here (t : Token) : PM (option DeclKind) :=
  match Type_ t with
  | LET | CONST | VAR =>
      t1 ← peekNth 1;
      mret (Some (if kind_is t CONST && is_word t1 "enum" then EnumDecl
                  else if kind_is t1 LBRACKET then ArrayDestructuring
                  else if kind_is t1 LBRACE then ObjectDestructuring else VarDecl true))
  | FUNCTION => mret (Some (FunctionDecl false))
  | CLASS => mret (Some (ClassDecl false))
  | IMPORT =>
      t1 ← peekNth 1;
      if kind_in t1 [DOT; LPAREN] then mret None
      else equals ← and_also (next_is 1 IDENT) (next_is 2 ASSIGN); mret (Some (if equals : bool then ImportEquals else ImportDecl))
  | EXPORT => mret (Some ExportDecl)
  | IDENT =>
      if is_word t "interface" then name ← next_is 1 IDENT; mret (if name : bool then Some InterfaceDecl else None)
      else if is_word t "type" then name ← next_is 1 IDENT; mret (if name : bool then Some TypeAliasDecl else None)
      else if is_word t "enum" then mret (Some EnumDecl)
      else if is_word t "namespace" then name ← next_is 1 IDENT; mret (if name : bool then Some NamespaceDecl else None)
      else if is_word t "module" then
        name ← and_also (next_is 1 IDENT) (t2 ← peekNth 2; mret (kind_in t2 [LBRACE; DOT]));
        mret (if name : bool then Some NamespaceDecl else None)
      else if is_word t "declare" then mret (Some AmbientDecl)
      else mret None
  | _ => mret None
  end.

Definition declares (k : DeclKind) : RM Statement :=
  match k with
  | VarDecl consumeSemi => lift (parseVarDecl consumeSemi)
  | ArrayDestructuring => lift parseArrayDestructuring
  | ObjectDestructuring => lift parseObjectDestructuring
  | _ => parseDeclaration self k
  end.

(** What starts with a name or another token that starts no other statement. *)
Definition parseOther (t : Token) : RM Statement :=
  if is_word t "debugger" then lift parseDebugger
  else
    label ← (if kind_is t IDENT then lift (next_is 1 COLON) else mret false);
    if (label : bool) then parseLabeledStatement else lift parseExpressionStatement.
Definition parseStatement : RM Statement :=
  async ← lift (modified "async" FUNCTION);
  if (async : bool) then lift advance ≫= λ _, parseDeclaration self (FunctionDecl true)
  else
    abstract ← lift (modified "abstract" CLASS);
    if (abstract : bool) then lift advance ≫= λ _, parseDeclaration self (ClassDecl true)
    else
      t ← lift peek;
      decl ← lift (declaration_here t);
      match decl with
      | Some k => declares k
      | None =>
          match Type_ t with
          | AT => parseDecorated
          | RETURN => lift parseReturnStatement
          | FOR => parseForStatement
          | DO => parseDoWhileStatement
          | WHILE => parseWhileStatement
          | IF => parseIfStatement
          | SWITCH => parseSwitchStatement
          | BREAK => lift parseBreakStatement
          | CONTINUE => lift parseContinueStatement
          | THROW => lift parseThrowStatement
          | TRY => parseTryStatement
          | LBRACE => b ← parseBlock self; mret (block_stmt b)
          | SEMICOLON => lift parseEmpty
          | _ => parseOther t
          end
      end.
End self.

(** Each statement inside another starts after a token of it. *)
Fixpoint statements (n : nat) : RM Statement :=
  match n with O => λ r, (OutOfFuel, r) | S n => parseStatement (statements n) end.
(** The statement parser the lists of the program call. *)
Definition statement : RM Statement := n ← lift rounds; statements n.

(** The statements of [ParseProgram], from a source. *)
Definition parseProgram (src : string) : outcome Stop (list Statement) * Recovering :=
  program_body statement (NewRecovering (NewParser src)).
End parse_stmt.
