(* ===== verification/StmtGrammar.v ===== *)
(** * The grammar of statements

    What the parser of statements accepts, said without the parser, over the
    grammar of expressions and patterns.  Declarations that are not of variables,
    and decorators, are languages of their own, left open.  A semicolon may be left
    out here; where it may be depends on the token that follows, and is said by
    [parseSemicolon]. *)

From S2P Require Import Prelude GoString Diag Token LexerPos Stream Expr Jsdoc ParsePrimary ParseExpr Stmt Recovery ParseStmt Grammar.
Open Scope Z_scope.

(** The languages of what is parsed elsewhere. *)
Class StmtLanguages `{OP : Opaque} `{D : Declared} `{E : Elsewhere} `{DS : !Declarations} := {
  LDeclaration : DeclKind → list Token → Statement → Prop;
  LDecorators : list Token → Decorators → Prop }.

Section grammar.
Context `{U : Unicode} {OP : Opaque} {D : Declared} {E : Elsewhere} {DS : Declarations}.
Context {L : Languages} {SL : StmtLanguages}.

(** ** Parts *)

Definition semicolon (ts : list Token) : Prop := ∃ b, perhaps SEMICOLON ts b.
(** [(] an expression [)]. *)
Definition condition (ts : list Token) (e : Expr) : Prop :=
  ∃ o ts' c, ts = o :: ts' ++ [c] ∧ Type_ o = LPAREN ∧ Spells 0 ts' e ∧ Type_ c = RPAREN.
Definition optional {A} (La : list Token → A → Prop) (ts : list Token) (x : option A) : Prop :=
  (ts = [] ∧ x = None) ∨ ∃ a, La ts a ∧ x = Some a.
Definition label (ts : list Token) (l : string) : Prop :=
  (ts = [] ∧ l = ""%string) ∨ ∃ t, ts = [t] ∧ Type_ t = IDENT ∧ l = Literal t.
(** Expressions with commas between them; two or more are a sequence. *)
Definition sequence_expr (ts : list Token) (e : Expr) : Prop :=
  Spells 0 ts e ∨ ∃ i e0 e1 es, separated (Spells 0) ts (e0 :: e1 :: es) ∧ e = mkExpr i (epos e0) (SequenceExpression (e0 :: e1 :: es)).
Definition case_label (ts : list Token) (test : option Expr) : Prop :=
  (∃ t ts' e c, ts = t :: ts' ++ [c] ∧ Type_ t = CASE ∧ Spells 0 ts' e ∧ Type_ c = COLON ∧ test = Some e)
  ∨ ∃ t c, ts = [t; c] ∧ Type_ t = DEFAULT ∧ Type_ c = COLON ∧ test = None.
Definition declares_variable (t : Token) : Prop := Type_ t ∈ variable_kinds.

(** One name of the pattern of a [catch]. *)
Definition catch_name (ts : list Token) (p : DestructProp) : Prop :=
  ∃ k ts1 l ts2 d, ts = k :: ts1 ++ ts2 ∧ Type_ k = IDENT
    ∧ ((ts1 = [] ∧ l = k) ∨ ∃ c, ts1 = [c; l] ∧ Type_ c = COLON ∧ Type_ l = IDENT)
    ∧ introduced (Spells 0) ASSIGN ts2 d ∧ p = mkProp (Literal k) None (Literal l) (posOf l) d None None false.
Definition catch_target (ts : list Token) (name : string) (ps : list DestructProp) : Prop :=
  (∃ t, ts = [t] ∧ Type_ t = IDENT ∧ name = Literal t ∧ ps = [])
  ∨ ∃ o ts' c, ts = o :: ts' ++ [c] ∧ Type_ o = LBRACE ∧ comma_list catch_name ts' ps ∧ Type_ c = RBRACE ∧ name = ""%string.
Definition binding (ts : list Token) (b : string * option TypeAnnotation * list DestructProp) : Prop :=
  (ts = [] ∧ b = (""%string, None, []))
  ∨ ∃ o ts1 ts2 c name ta ps, ts = o :: ts1 ++ ts2 ++ [c] ∧ Type_ o = LPAREN ∧ catch_target ts1 name ps
      ∧ introduced LType COLON ts2 ta ∧ Type_ c = RPAREN ∧ b = (name, ta, ps).

(** ** Variables *)

Definition binding_name (t : Token) (name : string) : Prop :=
  (Type_ t = IDENT ∧ name = Literal t) ∨ (Type_ t = UNDEFINED ∧ name = "undefined"%string).
(** A function that is not async, nor a generator, marked pure. *)
Definition marked_pure (e e' : Expr) : Prop :=
  (∃ tps cs ds ps ret body block src b, ekind e = ArrowFunction tps cs ds ps ret body block false src b
     ∧ e' = with_kind (ArrowFunction tps cs ds ps ret body block false src true) e)
  ∨ ∃ name npos fd m src b, ekind e = FunctionExpression name npos fd false false m src b
     ∧ e' = with_kind (FunctionExpression name npos fd false false m src true) e.
(** The value, as the doc comment of the declaration has it. *)
Definition initial (doc : option Comment) (ts : list Token) (init : option Expr) : Prop :=
  ∃ e, introduced (Spells 0) ASSIGN ts e
    ∧ match e with
      | Some e => if doc_tag doc "pure" then ∃ e', marked_pure e e' ∧ init = Some e' else init = Some e
      | None => init = None
      end.
(** A name, a [!], a type and a value: a constant has a value; with [!] there is a
    type and no value, and the variable is not constant. *)
Definition declarator (kind : string) (pos : Pos) (doc : option Comment) (ts : list Token) (d : VarDeclaration) : Prop :=
  ∃ x name ts0 definite ts1 ta ts2 init,
    ts = x :: ts0 ++ ts1 ++ ts2 ∧ binding_name x name ∧ perhaps NOT ts0 definite ∧ introduced LType COLON ts1 ta ∧ initial doc ts2 init
    ∧ (kind = "const"%string → init ≠ None) ∧ (definite = true → kind ≠ "const"%string ∧ ta ≠ None ∧ init = None)
    ∧ d = mkVar kind name (doc_type doc ta) init false false false definite (posOf x) pos.
(** The doc comment is of the first. *)
Inductive declarators (kind : string) (pos : Pos) (doc : option Comment) : list Token → list VarDeclaration → Prop :=
  | declarators_one ts d : declarator kind pos doc ts d → declarators kind pos doc ts [d]
  | declarators_more ts ds c ts' d :
      declarators kind pos doc ts ds → Type_ c = COMMA → declarator kind (NamePos d) None ts' d →
      declarators kind pos doc (ts ++ c :: ts') (ds ++ [d]).
(** At most one of the tags [@free], [@owned] and [@value], and then one variable. *)
Definition tagged (doc : option Comment) (ds ds' : list VarDeclaration) : Prop :=
  let free := doc_tag doc "free" in let owned := doc_tag doc "owned" in let value := doc_tag doc "value" in
  free && owned = false ∧ value && (free || owned) = false ∧ (free || owned || value = true → length ds = 1%nat)
  ∧ ds' = mark_first free owned value ds.
Definition variables (consumeSemi : bool) (ts : list Token) (st : Statement) : Prop :=
  ∃ doc t ts1 ds ds' ts2, ts = t :: ts1 ++ ts2 ∧ declares_variable t ∧ declarators (Literal t) (posOf t) doc ts1 ds ∧ tagged doc ds ds'
    ∧ (if consumeSemi then semicolon ts2 else ts2 = [])
    ∧ st = mkStmt (posOf t) (match ds' with [d] => SVar d | _ => SVarList ds' end).

(** A pattern in brackets or braces. *)
Definition introduced_pattern (ts : list Token) (elems : option (list ArrayPatternElem)) (props : option (list DestructProp)) : Prop :=
  (∃ es, SpellsArrayPattern ts es ∧ elems = Some es ∧ props = None) ∨ ∃ ps, SpellsObjectPattern ts ps ∧ props = Some ps ∧ elems = None.
(** The type, the value and the semicolon. *)
Definition bound_to (ts : list Token) (r : option TypeAnnotation * Expr) : Prop :=
  ∃ ts1 ta a ts2 e ts3, ts = ts1 ++ a :: ts2 ++ ts3 ∧ introduced LType COLON ts1 ta ∧ Type_ a = ASSIGN ∧ Spells 0 ts2 e
    ∧ semicolon ts3 ∧ r = (ta, e).
Definition array_destructuring (ts : list Token) (st : Statement) : Prop :=
  ∃ t ts1 es ts2 ta e, ts = t :: ts1 ++ ts2 ∧ declares_variable t ∧ SpellsArrayPattern ts1 es ∧ bound_to ts2 (ta, e)
    ∧ st = mkStmt (posOf t) (SArrayDestructuring (Literal t) es ta e).
Definition object_destructuring (ts : list Token) (st : Statement) : Prop :=
  ∃ t ts1 ps ts2 ta e, ts = t :: ts1 ++ ts2 ∧ declares_variable t ∧ SpellsObjectPattern ts1 ps ∧ bound_to ts2 (ta, e)
    ∧ st = mkStmt (posOf t) (SObjectDestructuring (Literal t) ps ta e).
Definition declaration (k : DeclKind) : list Token → Statement → Prop :=
  match k with
  | VarDecl consumeSemi => variables consumeSemi
  | ArrayDestructuring => array_destructuring
  | ObjectDestructuring => object_destructuring
  | _ => LDeclaration k
  end.

(** ** What holds statements *)

Section holds.
Context (S : list Token → Statement → Prop).

Definition block_of (ts : list Token) (b : Block) : Prop :=
  ∃ o tss sts c, ts = o :: concat tss ++ [c] ∧ Type_ o = LBRACE ∧ Forall2 S tss sts ∧ Type_ c = RBRACE ∧ b = mkBlock (posOf o) sts.
(** A statement that is no block of its own is no [const], class or, outside an
    [if], function. *)
Definition stands_alone (inIf : bool) (ts : list Token) : Prop :=
  ∀ t ts', ts = t :: ts' → Type_ t ≠ CONST ∧ Type_ t ≠ CLASS ∧ (Type_ t = FUNCTION → inIf = true).
Definition body_of (inIf : bool) (ts : list Token) (b : Block) : Prop :=
  block_of ts b ∨ ∃ pos st, S ts st ∧ stands_alone inIf ts ∧ b = mkBlock pos [st].
Definition alternative (ts : list Token) (alt : Statement) : Prop :=
  (S ts alt ∧ ∃ t ts', ts = t :: ts' ∧ Type_ t = IF) ∨ ∃ b, body_of true ts b ∧ alt = block_stmt b.
Definition for_first (ts : list Token) (init : option Statement) : Prop :=
  optional (λ ts st, variables false ts st ∨ ∃ e, Spells 0 ts e ∧ st = mkStmt (epos e) (SExpression e)) ts init.
(** After [of] or [in]: an expression, [)] and the body. *)
Definition iterates (ts : list Token) (e : Expr) (b : Block) : Prop :=
  ∃ ts1 c ts2, ts = ts1 ++ c :: ts2 ∧ Spells 0 ts1 e ∧ Type_ c = RPAREN ∧ body_of false ts2 b.
Definition switch_case (ts : list Token) (cs : SwitchCase) : Prop :=
  ∃ ts1 test tss sts, ts = ts1 ++ concat tss ∧ case_label ts1 test ∧ Forall2 S tss sts ∧ cs = mkCase test sts.
Definition catches (ts : list Token) (c : CatchClause) : Prop :=
  ∃ t ts1 name ta ps ts2 b, ts = t :: ts1 ++ ts2 ∧ Type_ t = CATCH ∧ binding ts1 (name, ta, ps) ∧ block_of ts2 b
    ∧ c = mkCatch name ta ps b (posOf t).
End holds.

(** ** Statements *)

Unset Elimination Schemes.
Inductive Sentence : list Token → Statement → Prop :=
  | st_block ts b : block_of Sentence ts b → Sentence ts (block_stmt b)
  | st_empty t : Type_ t = SEMICOLON → Sentence [t] (mkStmt (mkPos 0 0) (SBlock []))
  | st_debugger t ts : is_word t "debugger" = true → semicolon ts → Sentence (t :: ts) (mkStmt (posOf t) (SBlock []))
  | st_expression ts e ts' : sequence_expr ts e → semicolon ts' → Sentence (ts ++ ts') (mkStmt (epos e) (SExpression e))
  | st_if t ts1 test ts2 b :
      Type_ t = IF → condition ts1 test → body_of Sentence true ts2 b →
      Sentence (t :: ts1 ++ ts2) (mkStmt (posOf t) (SIf test b None))
  | st_if_else t ts1 test ts2 b u ts3 alt :
      Type_ t = IF → condition ts1 test → body_of Sentence true ts2 b → Type_ u = ELSE → alternative Sentence ts3 alt →
      Sentence (t :: ts1 ++ ts2 ++ u :: ts3) (mkStmt (posOf t) (SIf test b (Some alt)))
  | st_while t ts1 test ts2 b :
      Type_ t = WHILE → condition ts1 test → body_of Sentence false ts2 b →
      Sentence (t :: ts1 ++ ts2) (mkStmt (posOf t) (SWhile test b))
  | st_do_while t ts1 b w ts2 test ts3 :
      Type_ t = DO → body_of Sentence false ts1 b → Type_ w = WHILE → condition ts2 test → semicolon ts3 →
      Sentence (t :: ts1 ++ w :: ts2 ++ ts3) (mkStmt (posOf t) (SDoWhile b test))
  | st_for t o ts0 init s1 ts1 test s2 ts2 update c ts3 b :
      Type_ t = FOR → Type_ o = LPAREN → for_first ts0 init → Type_ s1 = SEMICOLON → optional (Spells 0) ts1 test →
      Type_ s2 = SEMICOLON → (ts2 = [] ∧ update = [] ∨ separated (Spells 0) ts2 update) → Type_ c = RPAREN →
      body_of Sentence false ts3 b →
      Sentence (t :: o :: ts0 ++ s1 :: ts1 ++ s2 :: ts2 ++ c :: ts3) (mkStmt (posOf t) (SFor init test update b))
  | st_for_of t ts0 await o k x w ts e b :
      Type_ t = FOR → perhaps AWAIT ts0 await → Type_ o = LPAREN → declares_variable k → Type_ x = IDENT → 
      is_word w "of" = true → iterates Sentence ts e b →
      Sentence (t :: ts0 ++ o :: k :: x :: w :: ts) (mkStmt (posOf t) (SForOf (Literal k) (Literal x) None None e b await))
  | st_for_of_pattern t ts0 await o k ts1 elems props w ts e b :
      Type_ t = FOR → perhaps AWAIT ts0 await → Type_ o = LPAREN → declares_variable k →
      introduced_pattern ts1 elems props →
      is_word w "of" = true → iterates Sentence ts e b →
      Sentence (t :: ts0 ++ o :: k :: ts1 ++ w :: ts) (mkStmt (posOf t) (SForOf (Literal k) "" elems props e b await))
  | st_for_in t o k x w ts e b :
      Type_ t = FOR → Type_ o = LPAREN → declares_variable k → Type_ x = IDENT → is_word w "in" = true → iterates Sentence ts e b →
      Sentence (t :: o :: k :: x :: w :: ts) (mkStmt (posOf t) (SForIn (Literal k) (Literal x) e b))
  | st_switch t ts1 disc o css cases c :
      Type_ t = SWITCH → condition ts1 disc → Type_ o = LBRACE → Forall2 (switch_case Sentence) css cases → Type_ c = RBRACE →
      Sentence (t :: ts1 ++ o :: concat css ++ [c]) (mkStmt (posOf t) (SSwitch disc cases))
  | st_break t ts l ts' : Type_ t = BREAK → label ts l → semicolon ts' → Sentence (t :: ts ++ ts') (mkStmt (posOf t) (SBreak l))
  | st_continue t ts l ts' : Type_ t = CONTINUE → label ts l → semicolon ts' → Sentence (t :: ts ++ ts') (mkStmt (posOf t) (SContinue l))
  | st_return t ts v ts' : Type_ t = RETURN → optional (Spells 0) ts v → semicolon ts' → Sentence (t :: ts ++ ts') (mkStmt (posOf t) (SReturn v))
  | st_throw t ts e ts' : Type_ t = THROW → Spells 0 ts e → semicolon ts' → Sentence (t :: ts ++ ts') (mkStmt (posOf t) (SThrow e))
  | st_try t ts1 b ts2 catch ts3 finally :
      Type_ t = TRY → block_of Sentence ts1 b → optional (catches Sentence) ts2 catch →
      introduced (block_of Sentence) FINALLY ts3 finally → (catch ≠ None ∨ finally ≠ None) →
      Sentence (t :: ts1 ++ ts2 ++ ts3) (mkStmt (posOf t) (STry b catch finally))
  | st_labeled t c ts st :
      Type_ t = IDENT → Type_ c = COLON → Sentence ts st → Sentence (t :: c :: ts) (mkStmt (posOf t) (SLabeled (Literal t) st))
  | st_declaration k ts st : declaration k ts st → Sentence ts st
  | st_modified t k ts st :
      (is_word t "async" = true ∧ k = FunctionDecl true ∨ is_word t "abstract" = true ∧ k = ClassDecl true) →
      LDeclaration k ts st → Sentence (t :: ts) st
  | st_decorated ts decs ts' st st' :
      LDecorators ts decs → Sentence ts' st → decorate decs st = Some st' → Sentence (ts ++ ts') st'.
Set Elimination Schemes.

(** A program: statements one after the other. *)
Definition Program (ts : list Token) (sts : list Statement) : Prop := ∃ tss, ts = concat tss ∧ Forall2 Sentence tss sts.
End grammar.
