(* ===== verification/StmtRules.v ===== *)
(** * Statements of tokens, and rules for statements of statements

    First what the productions consume that read no statement: expression
    statements, jumps, the parts in parentheses, and the bindings of a [catch].
    Then the rules by which the others are proved. *)

From S2P Require Import Prelude GoString Diag Token Lexer LexerFacts LexerPos Stream StreamFacts Expr ParsePrimary ParseExpr Grammar.
From S2P Require Import ParseWp ParseRules ParseLists ParseMembers ParseArrow ParsePrimaries ParseOperators Stmt Recovery DiagList RecoverWp.
From S2P Require Import RecoverLists ParseStmt StmtGrammar.

Open Scope Z_scope.

Section tokens.
Context `{U : Unicode} {OP : Opaque} {D : Declared} (s : string) {L : Languages} {E : Elsewhere} {DS : Declarations}.
Context {SL : StmtLanguages} {EO : ElsewhereOk s}.
Abbreviation wpp := (wpp s).
Abbreviation upto := (upto s).
Abbreviation view := (view s).
Abbreviation left := (left s).
Abbreviation part := (part s).

Lemma good_outside {A} k (m : Self → PM A) (La : list Token → A → Prop) :
  (∀ n G, good_self s n G → good s (S n) (m G) La) → good s k (outside m) La.
Proof.
  intros Hm π _. unfold outside, rounds. apply wpp_bind, wpp_gets. intros p [[Hl _] _ _ _ _ _ _].
  rewrite (ready_src _ _ (lined_ready _ _ _ Hl)). eapply Hm; [by apply good_productions|].
  pose proof (left_bound s (modes π) (place π)). unfold ParseWp.left. lia.
Qed.
Lemma part_outside {A} (m : Self → PM A) P π :
  (∀ n G, good_self s n G → (left π ≤ S n)%nat → part (m G) P π) → part (outside m) P π.
Proof. intros Hm. apply part_rounds. intros [|k] Hk; [lia|]. apply (Hm k); [by apply good_productions|lia]. Qed.
Lemma good_parseExpression k : good s k parseExpression (Spells 0).
Proof.
  intros π _. unfold parseExpression, rounds. apply wpp_bind, wpp_gets. intros p [[Hl _] _ _ _ _ _ _].
  rewrite (ready_src _ _ (lined_ready _ _ _ Hl)).
  apply (good_assignment s _ _ (good_productions s (S (length (runes_of s))))). apply left_bound.
Qed.
(** An expression comes next. *)
Lemma wpp_expression π0 ts (Q : Expr → point → Prop) π :
  upto π0 ts π → (∀ e ts' π', upto π0 (ts ++ ts') π' → ts' ≠ [] → Spells 0 ts' e → (left π' ≤ pred (left π))%nat → Q e π') →
  wpp parseExpression Q (from π0) π.
Proof.
  intros Hu HQ. eapply wpp_part_left; [eapply good_part; [apply good_parseExpression|done]|exact Hu|].
  intros e ts' π' Hu' Hl [Hne He]. by eapply HQ; [done..|apply Hl].
Qed.

Lemma part_parseSemicolon π : part parseSemicolon (λ ts _, semicolon ts) π.
Proof.
  unfold ParseMembers.part, parseSemicolon, canParseSemicolon. steps; kinds.
  - exists [view π]. split; [apply upto_one|]. exists true. by constructor.
  - exists []. split; [apply upto_refl|]. exists false. constructor.
  - apply from_refl.
Qed.
(** What ends with a semicolon. *)
Lemma wpp_semicolon {A} (a : A) π0 ts (Q : A → point → Prop) π :
  upto π0 ts π → (∀ ts' π', upto π0 (ts ++ ts') π' → semicolon ts' → Q a π') →
  wpp (parseSemicolon ≫= λ _, mret a) Q (from π0) π.
Proof.
  intros Hu HQ. step. eapply wpp_part; [apply part_parseSemicolon|exact Hu|]. intros u ts' π' Hu' Hs. step. by eapply HQ.
Qed.
Lemma part_parenthesized π : part parenthesized condition π.
Proof.
  unfold ParseMembers.part, parenthesized. steps; [|apply from_refl]. kinds. eapply wpp_expression; [apply upto_one|].
  intros e ts π1 Hu _ He _. steps; kinds; [|by eapply upto_from]. eexists. split; [eapply upto_next, Hu|].
  by eexists (view π), ts, (view π1).
Qed.
Lemma part_parseLabel π : part parseLabel label π.
Proof.
  unfold ParseMembers.part, parseLabel. steps; kinds.
  - exists [view π]. split; [apply upto_one|]. right. by eexists.
  - exists []. split; [apply upto_refl|by left].
Qed.

(** ** Statements *)

(** What is a statement, from a point on. *)
Definition states (m : PM Statement) (π : point) : Prop := part m (λ ts st, ts ≠ [] ∧ Sentence ts st) π.

Lemma states_return π : Type_ (view π) = RETURN → states parseReturnStatement π.
Proof.
  intros Ht. unfold states, ParseMembers.part, parseReturnStatement. do 4 step. set (t := view π) in *. pose proof (upto_one s π) as Hu. fold t in Hu.
  assert (∀ ts v π', upto π ([t] ++ ts) π' → optional (Spells 0) ts v →
    wpp (parseSemicolon ≫= λ _, mret (mkStmt (posOf t) (SReturn v))) (λ st π', ∃ ts, upto π ts π' ∧ ts ≠ [] ∧ Sentence ts st) (from π) π') as Hend.
  { intros ts v π' Hu' Hv. eapply wpp_semicolon; [exact Hu'|]. intros ts' π2 Hu2 Hs. eexists. split; [exact Hu2|]. split; [done|].
    rewrite <- app_assoc. cbn [app]. by apply st_return. }
  do 2 step.
  - step. apply (Hend []); [exact Hu|by left].
  - eapply wpp_bind, wpp_expression; [exact Hu|]. intros e ts π1 Hu1 _ He _. step. eapply Hend; [exact Hu1|]. right. by eexists.
Qed.
Lemma states_break π : Type_ (view π) = BREAK → states parseBreakStatement π.
Proof.
  intros Ht. unfold states, ParseMembers.part, parseBreakStatement. do 3 step. eapply wpp_part; [apply part_parseLabel|apply upto_one|].
  intros l ts π1 Hu Hl. eapply wpp_semicolon; [exact Hu|]. intros ts' π2 Hu2 Hs. eexists. split; [exact Hu2|]. split; [done|].
  rewrite <- app_assoc. cbn [app]. by apply st_break.
Qed.
Lemma states_continue π : Type_ (view π) = CONTINUE → states parseContinueStatement π.
Proof.
  intros Ht. unfold states, ParseMembers.part, parseContinueStatement. do 3 step. eapply wpp_part; [apply part_parseLabel|apply upto_one|].
  intros l ts π1 Hu Hl. eapply wpp_semicolon; [exact Hu|]. intros ts' π2 Hu2 Hs. eexists. split; [exact Hu2|]. split; [done|].
  rewrite <- app_assoc. cbn [app]. by apply st_continue.
Qed.
Lemma states_throw π : Type_ (view π) = THROW → states parseThrowStatement π.
Proof.
  intros Ht. unfold states, ParseMembers.part, parseThrowStatement. pose proof (upto_one s π) as Hu. do 4 step. step; [step; by eapply upto_from|].
  step. eapply wpp_expression; [exact Hu|]. intros e ts π1 Hu1 _ He _. eapply wpp_semicolon; [exact Hu1|]. intros ts' π2 Hu2 Hs.
  eexists. split; [exact Hu2|]. split; [done|]. rewrite <- app_assoc. cbn [app]. by apply st_throw.
Qed.
Lemma states_empty π : Type_ (view π) = SEMICOLON → states parseEmpty π.
Proof.
  intros Ht. unfold states, ParseMembers.part, parseEmpty. steps. eexists. split; [apply upto_one|]. split; [done|by apply st_empty].
Qed.
Lemma states_debugger π : is_word (view π) "debugger" = true → states parseDebugger π.
Proof.
  intros Ht. unfold states, ParseMembers.part, parseDebugger. do 4 step. eapply wpp_semicolon; [apply upto_one|]. intros ts' π2 Hu2 Hs.
  eexists. split; [exact Hu2|]. split; [done|]. by apply st_debugger.
Qed.

(** ** Expression statements *)

Lemma wpp_more_expressions es π0 ts ts1 (Q : list Expr → point → Prop) π :
  upto π0 (ts ++ ts1) π → ts1 ≠ [] → separated (Spells 0) ts1 es →
  (∀ ts2 es' π', upto π0 (ts ++ ts2) π' → ts2 ≠ [] → separated (Spells 0) ts2 (es ++ es') → (kind_is (view π) COMMA = true → es' ≠ []) → Q (es ++ es') π') →
  wpp (more_expressions es) Q (from π0) π.
Proof.
  intros Hu Hne Hs HQ. unfold more_expressions.
  apply (wpp_while s (λ es1 π', ∃ ts2 es2, es1 = es ++ es2 ∧ upto π0 (ts ++ ts2) π' ∧ ts2 ≠ [] ∧ separated (Spells 0) ts2 es1
    ∧ (es2 = [] → π' = π)) (λ _, left));
    [exists ts1, []; rewrite app_nil_r; done|apply left_bound|].
  intros es1 π1 (ts2 & es2 & -> & Hu2 & Hne2 & Hs2 & H2). step. step. step; kinds.
  - eapply wpp_bind, wpp_expression; [by eapply upto_next|]. intros e ts3 π2 Hu3 _ He Hl. step. split.
    + exists (ts2 ++ view π1 :: ts3), (es2 ++ [e]). rewrite !app_assoc. split_and!; [done| |by destruct ts2| |by destruct es2].
      * rewrite <- !app_assoc in *. exact Hu3.
      * by constructor.
    + pose proof (left_then_next s π1). apply left_less; [congruence|]. lia.
  - step. eapply HQ; [done|done|done|]. intros Hc ->. rewrite H2 in Heqb by done. by apply kind_is_eq in Hc.
Qed.
Lemma states_expression π : states parseExpressionStatement π.
Proof.
  unfold states, ParseMembers.part, parseExpressionStatement. eapply wpp_bind, wpp_expression; [apply upto_refl|]. cbn [app].
  intros e ts π1 Hu Hne He _. do 4 step.
  - eapply wpp_bind, (wpp_more_expressions _ _ [] ts); [exact Hu|done|by constructor|]. cbn [app].
    intros ts2 es π2 Hu2 Hne2 Hs Hmore. specialize (Hmore Heqb). destruct es as [|e1 es]; [done|]. step. cbv beta.
    eapply wpp_semicolon; [exact Hu2|]. intros ts' π3 Hu3 Hsc. eexists. split; [exact Hu3|].
    split; [by destruct ts2|]. apply st_expression; [|done]. right. by eexists _, _, _, _.
  - step. eapply wpp_semicolon; [exact Hu|]. intros ts' π3 Hu3 Hsc. eexists. split; [exact Hu3|]. split; [by destruct ts|].
    apply st_expression; [by left|done].
Qed.

(** ** Looking ahead *)

Lemma wpp_next_is k typ (Q : bool → point → Prop) X π : Q (kind_is (raw s π (place π + k)) typ) π → wpp (next_is k typ) Q X π.
Proof. intros HQ. unfold next_is. step. step. by step. Qed.
Lemma wpp_isWord k w (Q : bool → point → Prop) X π : Q (is_word (raw s π (place π + k)) w) π → wpp (isWord k w) Q X π.
Proof. intros HQ. unfold isWord. step. step. by step. Qed.
Lemma wpp_sameLine k (Q : bool → point → Prop) X π : (∀ b, Q b π) → wpp (sameLine k) Q X π.
Proof. intros HQ. unfold sameLine. step. step. by step. Qed.
Lemma wpp_and_also (a b : PM bool) (Q : bool → point → Prop) X π : wpp a (λ x : bool, if x then wpp b Q X else Q false) X π → wpp (and_also a b) Q X π.
Proof. intros H. unfold and_also. step. eapply wpp_mono; [exact H| |done]. intros [] π' HQ; [done|by step]. Qed.
(** A word that is shown is read. *)
Lemma word_view π w : is_word (raw s π (place π)) w = true → is_word (view π) w = true.
Proof.
  intros H. apply is_word_ident in H as Ht. rewrite view_raw by (by rewrite Ht). done.
Qed.
Lemma wpp_modified w typ (Q : bool → point → Prop) X π :
  (∀ b : bool, (b → is_word (view π) w = true) → Q b π) → wpp (modified w typ) Q X π.
Proof.
  intros HQ. unfold modified. apply wpp_and_also, wpp_isWord. destruct (is_word (raw s π (place π + 0)) w) eqn:Hw; [|by apply HQ].
  rewrite Nat.add_0_r in Hw. apply wpp_and_also, wpp_next_is. apply word_view in Hw.
  destruct (kind_is _ typ); [apply wpp_sameLine; intros b; by apply HQ|by apply HQ].
Qed.
(** The declarations of variables begin as such. *)
Definition begins (k : DeclKind) (π : point) : Prop :=
  match k with
  | VarDecl _ => declares_variable (view π)
  | ArrayDestructuring => declares_variable (view π) ∧ Type_ (raw s π (place π + 1)) = LBRACKET
  | ObjectDestructuring => declares_variable (view π) ∧ Type_ (raw s π (place π + 1)) = LBRACE
  | _ => True
  end.
Lemma begins_variable t1 (enum : bool) π : t1 = raw s π (place π + 1) → declares_variable (view π) →
  begins (if enum then EnumDecl else if kind_is t1 LBRACKET then ArrayDestructuring
          else if kind_is t1 LBRACE then ObjectDestructuring else VarDecl true) π.
Proof.
  intros -> Hv. destruct enum; [exact I|]. destruct (kind_is _ LBRACKET) eqn:H1; [kinds; by split|].
  destruct (kind_is _ LBRACE) eqn:H2; [kinds; by split|exact Hv].
Qed.
Lemma wpp_declaration_here (Q : option DeclKind → point → Prop) X π :
  (∀ o, match o with Some k => begins k π | None => True end → Q o π) → wpp (declaration_here (view π)) Q X π.
Proof.
  intros HQ.
  assert (∀ enum : bool, declares_variable (view π) → wpp (t1 ← peekNth 1; mret (Some (if enum && is_word t1 "enum" then EnumDecl
    else if kind_is t1 LBRACKET then ArrayDestructuring else if kind_is t1 LBRACE then ObjectDestructuring else VarDecl true))) Q X π) as Hvar.
  { intros enum Hv. step. step. step. apply HQ. by apply begins_variable. }
  assert (∀ b k, match k with Some k => begins k π | None => True end → Q (if b : bool then k else None) π) as Hif.
  { intros [] k Hk; by apply HQ. }
  unfold declaration_here. destruct (Type_ (view π)) eqn:Ht; try (step; apply HQ; exact I);
    try (apply (Hvar (kind_is (view π) CONST)); unfold declares_variable; rewrite Ht; repeat constructor).
  - repeat first [apply Hif; exact I|apply HQ; exact I|apply wpp_and_also|apply wpp_next_is|step; cbv beta
      |match goal with |- (if ?b then _ else _) _ => destruct b end].
  - step. step. step; [step; apply HQ; exact I|].
    assert (∀ b : bool, Q (Some (if b then ImportEquals else ImportDecl)) π) as Hi by (intros []; apply HQ; exact I).
    step. apply wpp_and_also, wpp_next_is. destruct (kind_is _ _); [apply wpp_next_is; step; apply Hi|step; exact (Hi false)].
Qed.
Lemma wpp_for_form (Q : ForForm → point → Prop) X π :
  (∀ f, match f with
        | ForThree => True
        | ForOf => declares_variable (view π) ∧ is_word (raw s π (place π + 2)) "of" = true
        | ForIn => declares_variable (view π) ∧ is_word (raw s π (place π + 2)) "in" = true
        | ForOfPattern => declares_variable (view π) ∧ Type_ (raw s π (place π + 1)) ∈ [LBRACKET; LBRACE]
        end → Q f π) →
  wpp for_form Q X π.
Proof.
  intros HQ. unfold for_form. steps; kinds; apply HQ; try done. destruct (kind_in _ _) eqn:H; [|done]. kinds. done.
Qed.

(** ** What may not stand alone *)

Lemma wpp_rejectLexicalDecl (Q : unit → point → Prop) (X : point → Prop) π :
  X π → (Type_ (view π) ≠ CONST → Q tt π) → wpp rejectLexicalDecl Q X π.
Proof.
  intros HX HQ. unfold rejectLexicalDecl. step. step. destruct (Type_ (view π)) eqn:Ht; try (step; by apply HQ); [|by step].
  do 3 step; [by step|step; by apply HQ].
Qed.
Lemma wpp_rejectDeclaration inIf (Q : unit → point → Prop) (X : point → Prop) π :
  X π → (Type_ (view π) ≠ CLASS → (Type_ (view π) = FUNCTION → inIf = true) → Q tt π) → wpp (rejectDeclaration inIf) Q X π.
Proof.
  intros HX HQ. unfold rejectDeclaration. do 3 step; [by step|]. kinds. step.
  assert (∀ b : bool, (b = false → Type_ (view π) = FUNCTION → inIf = true) → wpp (if b then errAt (view π) DeclInSingleStatement [FStr "function"]
    else async ← modified "async" FUNCTION; if (async : bool) then errAt (view π) DeclInSingleStatement [FStr "function"] else mret tt) Q X π) as Hrest.
  { intros [] Hb; [by step|]. step. apply wpp_modified. intros [] _; [by step|]. step. apply HQ; auto. }
  step; kinds.
  - step. apply wpp_next_is. step. apply Hrest. intros H _. kinds. done.
  - step. by apply (Hrest false).
Qed.
Lemma starts_kind u t ts : starts u (t :: ts) → Type_ t ∈ [CONST; CLASS; FUNCTION] → Type_ u = Type_ t.
Proof.
  intros H Ht. inversion H as [|? Hm|? ? Hm|? ? _ Hm]; subst; [done|..]; exfalso.
  - repeat (apply elem_of_cons in Ht as [?|Ht]; [done|]). by apply elem_of_nil in Ht.
  - destruct Hm as [Hm|Hm]; rewrite Hm in Ht; repeat (apply elem_of_cons in Ht as [?|Ht]; [done|]); by apply elem_of_nil in Ht.
  - repeat (apply elem_of_cons in Ht as [He|Ht]; [rewrite He in Hm; repeat (apply elem_of_cons in Hm as [?|Hm]; [done|]); by apply elem_of_nil in Hm|]).
    by apply elem_of_nil in Ht.
Qed.
Lemma stands inIf π ts π' :
  upto π ts π' → Type_ (view π) ≠ CONST → Type_ (view π) ≠ CLASS → (Type_ (view π) = FUNCTION → inIf = true) → stands_alone inIf ts.
Proof.
  intros Hu H1 H2 H3 t ts' ->. pose proof (upto_starts s _ _ _ Hu ltac:(done)) as Hs. pose proof (starts_kind _ _ _ Hs) as H.
  split_and!; [intros Ht; apply H1|intros Ht; apply H2|intros Ht; apply H3]; rewrite H; try done; rewrite Ht; repeat constructor.
Qed.

(** ** Parts of statements *)

Lemma part_optional (typ : TokenType) π : part (unless typ) (optional (Spells 0)) π.
Proof.
  unfold ParseMembers.part, unless. do 3 step.
  - step. exists []. split; [apply upto_refl|by left].
  - step. eapply wpp_expression; [apply upto_refl|]. intros e ts π' Hu _ He _. step. exists ts. split; [done|]. right. by eexists.
Qed.
Lemma part_for_update π : part for_update (λ ts es, ts = [] ∧ es = [] ∨ separated (Spells 0) ts es) π.
Proof.
  unfold ParseMembers.part, for_update. do 3 step.
  - step. exists []. split; [apply upto_refl|by left].
  - step. eapply wpp_expression; [apply upto_refl|]. cbn [app]. intros e ts π' Hu Hne He _.
    eapply (wpp_more_expressions _ _ [] ts); [exact Hu|done|by constructor|]. intros ts2 es π2 Hu2 _ Hs _. exists ts2. split; [done|]. by right.
Qed.
Lemma part_case_head π : part case_head (λ ts test, ts ≠ [] ∧ case_label ts test) π.
Proof.
  unfold ParseMembers.part, case_head. pose proof (upto_one s π) as Hu. do 3 step; kinds.
  - do 3 step. eapply wpp_expression; [exact Hu|]. intros e ts π' Hu' _ He _. do 2 step. step; [|by eapply upto_from]. kinds. step.
    eexists. split; [eapply upto_next, Hu'|]. split; [done|]. left. by eexists (view π), ts, e, (view π').
  - step; [|step; apply from_refl]. kinds. do 4 step. step; [|by eapply upto_from]. kinds. step. eexists. split; [eapply upto_next, Hu|]. split; [done|].
    right. by eexists _, _.
Qed.

(** ** The binding of a catch *)

Lemma part_catch_prop π : part catch_prop (λ ts p, ts ≠ [] ∧ catch_name ts p) π.
Proof.
  unfold ParseMembers.part, catch_prop. step. step. step; [|apply from_refl]. pose proof (upto_one s π) as Hu. kinds.
  set (k := view π) in *. clearbody k.
  assert (∀ ts1 l π1, upto π (k :: ts1) π1 → ((ts1 = [] ∧ l = k) ∨ ∃ c, ts1 = [c; l] ∧ Type_ c = COLON ∧ Type_ l = IDENT) →
    wpp (assign ← match_ [ASSIGN]; dflt ← (if assign : bool then e ← parseExpression; mret (Some e) else mret None);
         mret (mkProp (Literal k) None (Literal l) (posOf l) dflt None None false))
      (λ p π', ∃ ts, upto π ts π' ∧ ts ≠ [] ∧ catch_name ts p) (from π) π1) as Hrest.
  { intros ts1 l π1 Hu1 Hl. step. step. step; kinds.
    - do 2 step. eapply wpp_expression; [by eapply upto_next|]. intros e ts2 π2 Hu2 _ He _. do 2 step.
      eexists. split; [exact Hu2|]. split; [done|]. exists k, ts1, l, (view π1 :: ts2), (Some e).
      split_and!; [by rewrite <- !app_assoc|done|done|by constructor|done].
    - step. step. step. eexists. split; [exact Hu1|]. split; [done|]. exists k, ts1, l, [], None.
      split_and!; [by rewrite app_nil_r|done|done|constructor|done]. }
  step. step. do 2 step; kinds.
  - step. step. apply upto_next in Hu as Hu1. step. step; [|by eapply upto_from]. kinds. apply upto_next in Hu1 as Hu2.
    eapply (Hrest [view (next π); view (next (next π))]); [exact Hu2|]. right. by eexists.
  - step. apply (Hrest [] k); [exact Hu|by left].
Qed.
Lemma part_catch_pattern π : Type_ (view π) = LBRACE →
  part catch_pattern (λ ts ps, ∃ o ts' c, ts = o :: ts' ++ [c] ∧ Type_ o = LBRACE ∧ comma_list catch_name ts' ps ∧ Type_ c = RBRACE) π.
Proof.
  intros Ho. unfold ParseMembers.part, catch_pattern. pose proof (upto_one s π) as Hu. set (o := view π) in *. do 3 step.
  assert (∀ ts ps π1, upto π ([o] ++ ts) π1 → comma_list catch_name ts ps → wpp (expect RBRACE ≫= λ _, mret ps)
    (λ ps π', ∃ ts, upto π ts π' ∧ ∃ o ts' c, ts = o :: ts' ++ [c] ∧ Type_ o = LBRACE ∧ comma_list catch_name ts' ps ∧ Type_ c = RBRACE)
    (from π) π1) as Hend.
  { intros ts ps π1 Hu1 Hps. step. step. step; [|by eapply upto_from]. kinds. step. eexists. split; [eapply upto_next, Hu1|].
    exists o, ts, (view π1). done. }
  apply (wpp_while s (λ ps π', ∃ ts, upto π ([o] ++ ts) π' ∧ Grammar.items catch_name ts ps) (λ _, left));
    [exists []; split; [exact Hu|constructor]|apply left_bound|].
  intros ps π1 (ts & Hu1 & Hps). do 3 step; kinds.
  - step. eapply Hend; [exact Hu1|by constructor].
  - step. eapply wpp_part_left; [apply part_catch_prop|exact Hu1|]. intros p ts2 π2 Hu2 Hl [Hne Hp]. specialize (Hl Hne).
    rewrite <- app_assoc in Hu2. step. step. step; kinds.
    + step. apply upto_next in Hu2. rewrite <- !app_assoc in Hu2. split; [eexists; split; [exact Hu2|by constructor]|].
      apply round_left; [done|congruence].
    + step. eapply Hend; [exact Hu2|by constructor].
Qed.
Lemma part_catch_binding π : part catch_binding binding π.
Proof.
  unfold ParseMembers.part, catch_binding. do 3 step; [|step; exists []; split; [apply upto_refl|by left]]. kinds.
  pose proof (upto_one s π) as Hu. set (o := view π) in *. clearbody o. do 2 step.
  assert (∀ name ps ts1 π1, upto π ([o] ++ ts1) π1 → catch_target ts1 name ps →
    wpp (colon ← check COLON;
         ta ← (if colon : bool then advance ≫= λ _, ta ← outside (λ G, parseTypeAnnotation G "ts"); mret (Some ta) else mret None);
         expect RPAREN ≫= λ _, mret (name, ta, ps))
      (λ b π', ∃ ts, upto π ts π' ∧ binding ts b) (from π) π1) as Hrest.
  { intros name ps ts1 π1 Hu1 Hc.
    assert (∀ ts2 ta π2, upto π ([o] ++ ts1 ++ ts2) π2 → introduced LType COLON ts2 ta →
      wpp (expect RPAREN ≫= λ _, mret (name, ta, ps)) (λ b π', ∃ ts, upto π ts π' ∧ binding ts b) (from π) π2) as Hend.
    { intros ts2 ta π2 Hu2 Ht. step. step. step; [|by eapply upto_from]. kinds. step. eexists. split; [eapply upto_next, Hu2|]. right.
      exists o, ts1, ts2, (view π2), name, ta, ps. split_and!; [by rewrite <- !app_assoc|done..]. }
    do 4 step; kinds.
    - do 3 step. eapply wpp_part; [eapply good_part; [eapply good_outside; intros n G HG; by eapply parseTypeAnnotation_ok|done]|by eapply upto_next|].
      intros ta ts2 π2 Hu2 [_ Ht]. step. rewrite <- !app_assoc in Hu2. eapply Hend; [exact Hu2|by constructor].
    - step. eapply (Hend []); [by rewrite app_nil_r|constructor]. }
  step. step. do 2 step; kinds.
  - step. eapply wpp_part; [by apply part_catch_pattern|exact Hu|]. intros ps ts1 π1 Hu1 (o' & ts' & c & -> & H1 & H2 & H3). step.
    eapply Hrest; [exact Hu1|]. right. by eexists o', ts', c.
  - step. step. step; [|by eapply upto_from]. kinds. step. eapply (Hrest _ _ [_]); [eapply upto_next, Hu|]. left. by eexists.
Qed.
End tokens.

(** ** Rules for statements of statements

    [DeclarationsOk] is what is asked of the declarations.  A statement is
    proved sound from a point [π0] on: [got] says what has been consumed and
    reported since, and the rules advance it by a token, a part, a statement, a
    block or a list of statements. *)

Section rules.
Context `{U : Unicode} {OP : Opaque} {D : Declared} (s : string) {L : Languages} {E : Elsewhere} {DS : Declarations}.
Context {SL : StmtLanguages} {EO : ElsewhereOk s}.
Abbreviation wpp := (wpp s).
Abbreviation wpr := (wpr s).
Abbreviation upto := (upto s).
Abbreviation view := (view s).
Abbreviation left := (left s).
Abbreviation sound := (sound s).

Class DeclarationsOk := {
  parseDeclaration_ok n self k : sound n self Sentence → sound (S n) (parseDeclaration self k) (LDeclaration k);
  parseDecorators_ok n self : sound n self Sentence → sound (S n) (parseDecorators self) LDecorators }.

Lemma sound_le {A} n n' (m : RM A) (La : list Token → A → Prop) : (n' ≤ n)%nat → sound n m La → sound n' m La.
Proof. intros Hn H π ν Hl. apply H. lia. Qed.
Lemma quiet_or ν : quiet ν ∨ noisy ν.
Proof. unfold quiet, noisy. destruct (ndiags ν); [by left|by right]. Qed.
(** What lies between two points has been read. *)
Lemma from_upto π π' : from π π' → ∃ ts, upto π ts π'.
Proof.
  intros (A & Hl & C). exists ((λ j, shown (StreamFacts.reading s (modes π') j)) <$> seq (place π) (place π' - place π)).
  split_and!; [done|rewrite length_fmap, length_seq; lia| |done].
  assert (∀ k i, spans s (modes π') i ((λ j, shown (StreamFacts.reading s (modes π') j)) <$> seq i k)) as H; [|apply H].
  induction k as [|k IH]; intros i; [done|]. split; [by left|apply IH].
Qed.

(** ** From a point on *)

Section from_point.
Context (n : nat) (self : RM Statement) (Hself : sound n self Sentence).
Context (π0 : point) (ν0 : notes) (Hn : (left π0 ≤ S n)%nat) (Hc : ctx_spec π0 = O) (Hh : heard ν0).

Definition got (ts : list Token) (π : point) (ν : notes) : Prop := upto π0 ts π ∧ grown ν0 ν.
Definition stops (e : Stop) (π : point) (ν : notes) : Prop := grown ν0 ν ∧ from π0 π ∧ tells e ν.
Definition answers {A} (La : list Token → A → Prop) (a : A) (π : point) (ν : notes) : Prop :=
  grown ν0 ν ∧ ∃ ts, upto π0 ts π ∧ ts ≠ [] ∧ (quiet ν → La ts a).

Lemma got_start : got [] π0 ν0.
Proof. split; [apply upto_refl|apply grown_refl]. Qed.
Lemma got_next ts π ν : got ts π ν → got (ts ++ [view π]) (next π) ν.
Proof. intros [Hu Hg]. split; [by apply upto_next|done]. Qed.
Lemma got_upto ts ts' π π' ν ν' : got ts π ν → upto π ts' π' → grown ν ν' → got (ts ++ ts') π' ν'.
Proof. intros [Hu Hg] Hu' Hg'. split; [by eapply upto_trans|by eapply grown_trans]. Qed.
Lemma got_left ts π ν : got ts π ν → ts ≠ [] → (left π ≤ n)%nat.
Proof. intros [Hu _] Hne. apply upto_left in Hu; [|done]. lia. Qed.
Lemma got_le ts π ν : got ts π ν → (left π ≤ S n)%nat.
Proof. intros [Hu _]. apply upto_le in Hu. lia. Qed.
Lemma got_spec ts π ν : got ts π ν → ctx_spec π = O.
Proof. intros [Hu _]. apply upto_from in Hu. by rewrite (from_spec0 _ _ Hu). Qed.
Lemma got_heard ts π ν : got ts π ν → heard ν.
Proof. intros [_ Hg]. by apply (grown_heard _ _ Hg). Qed.
Lemma got_answers {A} (La : list Token → A → Prop) a ts π ν : got ts π ν → ts ≠ [] → (quiet ν → La ts a) → answers La a π ν.
Proof. intros [Hu Hg] Hne HL. split; [done|]. by exists ts. Qed.
Lemma got_stops ts e π π' ν ν' : got ts π ν → grown ν ν' → from π π' → tells e ν' → stops e π' ν'.
Proof.
  intros [Hu Hg] Hg' Hf Ht. split_and!; [by eapply grown_trans| |done]. eapply from_trans; [by eapply upto_from|done].
Qed.

(** A production of tokens. *)
Lemma wpr_pm {A} (m : PM A) ts (Q : A → point → notes → Prop) π ν :
  got ts π ν → wpp m (λ a π', Q a π' ν) (from π0) π → wpr (lift m) Q stops π ν.
Proof.
  intros [_ Hg] Hm. apply wpr_lift. eapply wpp_mono; [exact Hm|done|]. intros π' Hf d. by split_and!.
Qed.
Lemma wpr_part {A} (m : PM A) P ts (Q : A → point → notes → Prop) π ν :
  part s m P π → got ts π ν → (∀ a ts' π', got (ts ++ ts') π' ν → P ts' a → Q a π' ν) → wpr (lift m) Q stops π ν.
Proof.
  intros Hm Hg HQ. eapply wpr_pm; [exact Hg|]. eapply wpp_part; [exact Hm|apply Hg|]. intros a ts' π' Hu HP. eapply HQ; [|done].
  split; [done|apply Hg].
Qed.
Lemma wpr_sub {A} k (m : RM A) (La : list Token → A → Prop) ts (Q : A → point → notes → Prop) π ν :
  sound k m La → got ts π ν → (left π ≤ k)%nat →
  (∀ a ts' π' ν', got (ts ++ ts') π' ν' → upto π ts' π' → ts' ≠ [] → (quiet ν' → La ts' a) → (quiet ν' → quiet ν) → Q a π' ν') →
  wpr m Q stops π ν.
Proof.
  intros Hm Hg Hk HQ. eapply wpr_mono; [apply Hm; [done|by eapply got_spec|by eapply got_heard]| |].
  - intros a π' ν' (Hg' & ts' & Hu & Hne & HL). eapply HQ; [by eapply got_upto|done|done|done|by apply grown_quiet].
  - intros e π' ν' (Hg' & Hf & Ht). by eapply got_stops.
Qed.
Lemma wpr_self ts (Q : Statement → point → notes → Prop) π ν :
  got ts π ν → ts ≠ [] →
  (∀ st ts' π' ν', got (ts ++ ts') π' ν' → ts' ≠ [] → (quiet ν' → Sentence ts' st) → (quiet ν' → quiet ν) → Q st π' ν') →
  wpr self Q stops π ν.
Proof. intros Hg Hne HQ. eapply wpr_sub; [exact Hself|done|by eapply got_left|]. intros st ts' π' ν' ? _ ? ? ?. by eapply HQ. Qed.

(** The same, bound. *)
Lemma then_advance {B} ts (k : Token → RM B) Q π ν :
  got ts π ν → (got (ts ++ [view π]) (next π) ν → wpr (k (view π)) Q stops (next π) ν) → wpr (lift advance ≫= k) Q stops π ν.
Proof. intros Hg HQ. apply wpr_bind. eapply wpr_pm; [exact Hg|]. step. by apply HQ, got_next. Qed.
Lemma then_expect {B} typ ts (k : Token → RM B) Q π ν :
  got ts π ν → (Type_ (view π) = typ → got (ts ++ [view π]) (next π) ν → wpr (k (view π)) Q stops (next π) ν) →
  wpr (lift (expect typ) ≫= k) Q stops π ν.
Proof.
  intros Hg HQ. apply wpr_bind. eapply wpr_pm; [exact Hg|]. step. step; [|by eapply upto_from, Hg]. kinds. by apply HQ; [|apply got_next].
Qed.
Lemma then_check {B} typ ts (k : bool → RM B) Q π ν :
  got ts π ν → wpr (k (kind_is (view π) typ)) Q stops π ν → wpr (lift (check typ) ≫= k) Q stops π ν.
Proof. intros Hg HQ. apply wpr_bind. eapply wpr_pm; [exact Hg|]. by step. Qed.
Lemma then_peek {B} ts (k : Token → RM B) Q π ν :
  got ts π ν → wpr (k (view π)) Q stops π ν → wpr (lift peek ≫= k) Q stops π ν.
Proof. intros Hg HQ. apply wpr_bind. eapply wpr_pm; [exact Hg|]. by step. Qed.
Lemma then_part {A B} (m : PM A) P ts (k : A → RM B) Q π ν :
  got ts π ν → part s m P π → (∀ a ts' π', got (ts ++ ts') π' ν → P ts' a → wpr (k a) Q stops π' ν) → wpr (lift m ≫= k) Q stops π ν.
Proof. intros Hg Hm HQ. apply wpr_bind. by eapply wpr_part. Qed.
Lemma then_expression {B} ts (k : Expr → RM B) Q π ν :
  got ts π ν → (∀ e ts' π', got (ts ++ ts') π' ν → ts' ≠ [] → Spells 0 ts' e → wpr (k e) Q stops π' ν) →
  wpr (lift parseExpression ≫= k) Q stops π ν.
Proof. intros Hg HQ. eapply then_part; [exact Hg|eapply good_part; [by apply good_parseExpression|done]|]. intros e ts' π' Hg' [? ?]. by eapply HQ. Qed.
Lemma then_sub {A B} k0 (m : RM A) (La : list Token → A → Prop) ts (k : A → RM B) Q π ν :
  sound k0 m La → got ts π ν → (left π ≤ k0)%nat →
  (∀ a ts' π' ν', got (ts ++ ts') π' ν' → ts' ≠ [] → (quiet ν' → La ts' a) → (quiet ν' → quiet ν) → wpr (k a) Q stops π' ν') →
  wpr (m ≫= k) Q stops π ν.
Proof. intros Hm Hg Hk HQ. apply wpr_bind. eapply wpr_sub; [done..|]. intros a ts' π' ν' ? _ ? ? ?. by eapply HQ. Qed.

(** A list of statements. *)
Lemma wpr_list ctx ts (Q : list Statement * option Stop → point → notes → Prop) π ν :
  got ts π ν → ts ≠ [] →
  (∀ body ts' π' ν', got (ts ++ ts') π' ν' → ends_list s ctx π' = true →
     (quiet ν' → ∃ tss, ts' = concat tss ∧ Forall2 Sentence tss body) → (quiet ν' → quiet ν) → (left π' ≤ left π)%nat → Q (body, None) π' ν') →
  (∀ body e π' ν', stops e π' ν' → Q (body, Some e) π' ν') →
  wpr (parseStatementList self ctx append []) Q stops π ν.
Proof.
  intros Hg Hne HQ HX. apply (wpr_parseStatementList s n self Sentence append (λ st b b', b' = b ++ [st])); [done| | | | |].
  - intros st b π1 ν1. apply wpr_ret. split_and!; [done|apply grown_refl|done].
  - by eapply got_left.
  - by eapply got_spec.
  - by eapply got_heard.
  - intros [body [e|]] π' ν' Hg' Hf Ha; unfold list_answers in Ha; cbn in Ha; pose proof (from_left s _ _ Hf) as Hl.
    + destruct Ha as [Ht _]. apply HX. by eapply got_stops.
    + destruct Ha as [He Hq]. destruct (quiet_or ν') as [Hqt|Hns].
      * destruct (Hq Hqt) as (tss & sts & Hu & HF & Ha). assert (∀ b, adds (λ st b b', b' = b ++ [st]) sts b body → body = b ++ sts) as Hadds.
        { clear. induction sts as [|st sts IH]; cbn; intros b; [intros ->; by rewrite app_nil_r|]. intros (b1 & -> & H).
          apply IH in H. by rewrite <- app_assoc in H. }
        apply Hadds in Ha. cbn in Ha. subst body. eapply HQ; [by eapply got_upto|done|intros _; by exists tss|by apply grown_quiet|done].
      * apply from_upto in Hf as [ts' Hu]. eapply HQ; [by eapply got_upto|done|by intros ?|by intros ?|done].
Qed.
End from_point.

(** ** Blocks and bodies *)

Section holds.
Context (n : nat) (self : RM Statement) (Hself : sound n self Sentence).

(** A production from a point on. *)
Definition runs {A} (m : RM A) (La : list Token → A → Prop) (π : point) (ν : notes) : Prop :=
  wpr m (answers π ν La) (stops π ν) π ν.
Lemma sound_runs {A} k (m : RM A) (La : list Token → A → Prop) :
  (∀ π ν, (left π ≤ k)%nat → ctx_spec π = O → heard ν → runs m La π ν) ↔ sound k m La.
Proof. done. Qed.

Lemma sound_block : sound (S n) (parseBlock self) (block_of Sentence).
Proof.
  intros π ν Hn Hc Hh. pose proof (got_start π ν) as Hg. unfold parseBlock. apply wpr_bind. eapply wpr_pm; [exact Hg|]. step.
  step; [|apply from_refl]. kinds. apply got_next in Hg. cbn [app] in Hg. set (o := view π) in *.
  eapply wpr_bind, (wpr_list n self Hself π ν Hn Hc Hh); [exact Hg|done| |].
  - intros body ts π' ν' Hg' _ Hb _ _. apply wpr_bind. eapply wpr_pm; [exact Hg'|]. step; step; [|destruct Hg' as [Hu _]; by eapply upto_from].
    kinds. apply wpr_ret. eapply got_answers; [by apply got_next|by destruct ts|]. intros Hq. destruct (Hb Hq) as (tss & -> & HF).
    exists o, tss, body, (view π'). split_and!; [by rewrite <- app_assoc|done..].
  - intros body e π' ν' Hs. by apply wpr_throw.
Qed.
Lemma sound_single inIf : sound n (parseSingleStatement self inIf) (body_of Sentence inIf).
Proof.
  intros π ν Hn Hc Hh. pose proof (got_start π ν) as Hg. unfold parseSingleStatement. apply wpr_bind. eapply wpr_pm; [exact Hg|]. step.
  destruct (kind_is (view π) LBRACE) eqn:Hb.
  - eapply wpr_mono; [apply (sound_block π ν); [lia|done|done]| |done]. intros b π' ν' (Hg' & ts & Hu & Hne & HL). split; [done|].
    exists ts. split_and!; [done|done|]. intros Hq. left. by apply HL.
  - apply wpr_bind. eapply wpr_pm; [exact Hg|]. step. apply wpr_bind. eapply wpr_pm; [exact Hg|]. apply wpp_rejectLexicalDecl; [apply from_refl|].
    intros H1. apply wpr_bind. eapply wpr_pm; [exact Hg|]. apply wpp_rejectDeclaration; [apply from_refl|]. intros H2 H3. apply wpr_bind.
    eapply wpr_mono; [by apply Hself| |done]. intros st π' ν' (Hg' & ts & Hu & Hne & HL). apply wpr_ret. split; [done|]. exists ts.
    split_and!; [done|done|]. intros Hq. right. exists (posOf (view π)), st. split_and!; [by apply HL|by eapply stands|done].
Qed.
End holds.
End rules.
