(* ===== verification/VarRules.v ===== *)
(** * Declarations of variables: what they consume

    The names, types and values of declarations, the tags of their doc comments,
    and the destructuring declarations. *)

From S2P Require Import Prelude GoString Diag Token Lexer LexerFacts LexerPos Stream StreamFacts Expr Jsdoc ParsePrimary ParseExpr Grammar.
From S2P Require Import ParseWp ParseRules ParseLists ParseMembers ParseArrow Stmt Recovery ParseStmt StmtGrammar StmtRules.
Open Scope Z_scope.

Section variables.
Context `{U : Unicode} {OP : Opaque} {D : Declared} (s : string) {L : Languages} {E : Elsewhere} {DS : Declarations}.
Context {SL : StmtLanguages} {EO : ElsewhereOk s}.
Abbreviation wpp := (wpp s).
Abbreviation upto := (upto s).
Abbreviation view := (view s).
Abbreviation left := (left s).
Abbreviation part := (part s).

(** ** Parts *)

Lemma wpp_takeDoc (Q : option Comment → point → Prop) X π : (∀ doc, Q doc π) → wpp takeDoc Q X π.
Proof.
  intros HQ. unfold takeDoc. step. apply wpp_get. intros p Hp. step. apply wpp_keeps; [by intros q|]. by step.
Qed.
(** Where there is a colon there is a type. *)
Lemma part_annotated π :
  part (outside annotation) (λ ts ta, introduced LType COLON ts ta ∧ (Type_ (view π) = COLON → ta ≠ None)) π.
Proof.
  apply (part_outside s (L := L)). intros n G HG Hn. pose proof (upto_refl s π) as Hu. unfold ParseMembers.part, annotation. steps; kinds.
  - eapply wpp_part; [eapply good_part; [by eapply parseTypeAnnotation_ok|]|by apply upto_next|].
    { pose proof (left_then_next s π). lia. }
    intros ta ts π' Hu' [_ Ht]. step. eexists. split; [exact Hu'|]. split; [by constructor|done].
  - exists []. split; [done|]. split; [constructor|by intros ?].
Qed.
Lemma part_binding_name π :
  part expectBindingName (λ ts t, ts = [view π] ∧ binding_name (view π) (Literal t) ∧ posOf t = posOf (view π)) π.
Proof.
  pose proof (upto_one s π) as Hu. unfold ParseMembers.part, expectBindingName. change (tok_eqb (Type_ ?t) UNDEFINED) with (kind_is t UNDEFINED).
  steps; kinds; [..|apply from_refl];
    (exists [view π]; split_and!; try done); [by right|by left].
Qed.
(** With a [!] there is a colon. *)
Lemma wpp_definite_mark kind π0 ts (Q : bool → point → Prop) π :
  upto π0 ts π →
  (∀ b ts' π', upto π0 (ts ++ ts') π' → perhaps NOT ts' b → (b = true → kind ≠ "const"%string ∧ Type_ (view π') = COLON) → Q b π') →
  wpp (definite_mark kind) Q (from π0) π.
Proof.
  intros Hu HQ. assert (Q false π) as Hno by (apply (HQ _ []); [by rewrite app_nil_r|constructor|done]).
  unfold definite_mark. step. destruct (bool_decide _) eqn:Hk; [by steps|]. apply bool_decide_eq_false in Hk.
  steps; kinds; [|by eapply upto_from, upto_next|done].
  eapply (HQ _ [view π]); [by apply upto_next|by constructor|done].
Qed.
Lemma wpp_pure_function t e (Q : Expr → point → Prop) (X : point → Prop) π :
  X π → (∀ e', marked_pure e e' → Q e' π) → wpp (pure_function t e) Q X π.
Proof.
  intros HX HQ. unfold pure_function. destruct (ekind e) eqn:He; try (by step); (step; [by step|]); kinds; subst; step; apply HQ.
  - left. by eexists _, _, _, _, _, _, _, _, _.
  - right. by eexists _, _, _, _, _, _.
Qed.
Lemma part_var_init kind t doc π :
  part (var_init kind t doc) (λ ts init, initial doc ts init ∧ (kind = "const"%string → init ≠ None)) π.
Proof.
  unfold ParseMembers.part, var_init. do 3 step; kinds.
  - eapply wpp_bind, wpp_expression; [exact EO|by apply upto_next, upto_refl|]. intros e ts π' Hu _ He _.
    step. step.
    + apply wpp_pure_function; [by eapply upto_from|]. intros e' Hp. step. eexists. split; [exact Hu|]. split; [|done].
      exists (Some e). split; [by constructor|]. rewrite Heqb0. by exists e'.
    + step. step. eexists. split; [exact Hu|]. split; [|done]. exists (Some e). split; [by constructor|]. by rewrite Heqb0.
  - destruct (bool_decide _) eqn:Hk; [step; apply from_refl|]. apply bool_decide_eq_false in Hk. step.
    exists []. split; [apply upto_refl|]. split; [exists None; split; [constructor|done]|done].
Qed.

(** ** Declarators *)

Lemma part_declarator kind pos doc π :
  part (parseOneVarDeclarator kind pos doc) (λ ts d, ts ≠ [] ∧ declarator kind pos doc ts d ∧ NamePos d = posOf (view π)) π.
Proof.
  unfold ParseMembers.part, parseOneVarDeclarator. step.
  eapply wpp_part; [apply part_binding_name|apply upto_refl|]. intros t ? π1 Hu1 (-> & Hx & Hpos). step.
  eapply wpp_definite_mark; [exact Hu1|]. intros b ts0 π2 Hu2 Hb Hdef. step.
  eapply wpp_part; [apply part_annotated|exact Hu2|]. intros ta ts1 π3 Hu3 [Hta Hsome]. step.
  eapply wpp_part; [apply part_var_init|exact Hu3|]. intros init ts2 π4 Hu4 [Hinit Hconst].
  destruct (b && _) eqn:Hbad; [step; by eapply upto_from|]. step. rewrite <- !app_assoc in Hu4.
  eexists. split; [exact Hu4|]. split_and!; [done| |done]. exists (view π), (Literal t), ts0, b, ts1, ta, ts2, init.
  rewrite Hpos. split_and!; try done.
  intros ->. destruct (Hdef eq_refl). split_and!; [done|by apply Hsome|by destruct init].
Qed.

(** ** Declarations *)

Lemma wpp_apply_tags doc pos name ds (Q : list VarDeclaration → point → Prop) (X : point → Prop) π :
  ds ≠ [] → X π → (∀ ds', tagged doc ds ds' → Q ds' π) → wpp (apply_tags doc pos name ds) Q X π.
Proof.
  intros Hds HX HQ. unfold apply_tags. cbv zeta. specialize (HQ (mark_first (doc_tag doc "free") (doc_tag doc "owned") (doc_tag doc "value") ds)).
  unfold tagged in HQ. assert ((1 <? length ds)%nat = false → length ds = 1%nat) as Hone.
  { intros Hl%Nat.ltb_ge. destruct ds as [|? [|??]]; cbn in *; done || lia. }
  destruct (doc_tag doc "free"), (doc_tag doc "owned"), (doc_tag doc "value"), (1 <? length ds)%nat; cbn [andb orb] in *;
    step; try done; apply HQ; by auto.
Qed.
Lemma part_parseVarDecl b π : declares_variable (view π) → part (parseVarDecl b) (λ ts st, ts ≠ [] ∧ variables b ts st) π.
Proof.
  intros Hv. unfold ParseMembers.part, parseVarDecl. step. apply wpp_takeDoc. intros doc. do 2 step.
  pose proof (upto_one s π) as Hu. set (t := view π) in *. clearbody t. step.
  eapply wpp_part; [apply part_declarator|exact Hu|]. intros d ts1 π1 Hu1 (_ & Hd & _). step.
  apply (wpp_while s (λ ds π', ∃ ts, upto π (t :: ts) π' ∧ declarators (Literal t) (posOf t) doc ts ds) (λ _, left));
    [exists ts1; split; [done|by constructor]|apply left_bound|].
  intros ds π2 (ts2 & Hu2 & Hds). do 3 step; kinds.
  - do 2 step. apply upto_next in Hu2 as Hu3. step.
    eapply wpp_part_left; [apply part_declarator|exact Hu3|]. intros d2 ts3 π3 Hu4 Hl (Hne & Hd2 & Hpos). specialize (Hl Hne). step. split.
    + exists (ts2 ++ view π2 :: ts3). split; [by rewrite <- !app_assoc in Hu4|]. rewrite <- Hpos in Hd2. by constructor.
    + pose proof (left_then_next s π2). apply left_less; [congruence|]. lia.
  - step. step. apply wpp_apply_tags; [by inversion Hds; [|destruct ds0]|by eapply upto_from|]. intros ds' Htag. step.
    eapply (wpp_part s _ (λ ts _, if b then semicolon ts else ts = [])); [|exact Hu2|].
    { destruct b; [apply part_parseSemicolon|]. unfold ParseMembers.part. step. exists []. split; [apply upto_refl|done]. }
    intros _ ts3 π3 Hu3 Hsemi. step. eexists. split; [exact Hu3|]. split; [done|]. by exists doc, t, ts2, ds, ds', ts3.
Qed.

Lemma part_destructured π : part destructured bound_to π.
Proof.
  unfold ParseMembers.part, destructured. step. eapply wpp_part; [apply part_annotated|apply upto_refl|]. cbn [app].
  intros ta ts1 π1 Hu1 [Hta _]. do 2 step. step; [|by eapply upto_from]. kinds. step. apply upto_next in Hu1 as Hu2.
  eapply wpp_expression; [exact EO|exact Hu2|]. intros e ts2 π2 Hu3 _ He _. eapply wpp_semicolon; [exact Hu3|]. intros ts3 π3 Hu4 Hs.
  eexists. split; [exact Hu4|]. exists ts1, ta, (view π1), ts2, e, ts3. split_and!; try done. by rewrite <- !app_assoc.
Qed.
(** The pattern that comes after the keyword. *)
Lemma opening_next π typ : typ ∈ [LBRACKET; LBRACE] → Type_ (raw s π (place π + 1)) = typ → Type_ (view (next π)) = typ.
Proof.
  intros Hid Ht. rewrite Nat.add_1_r in Ht. change (Type_ (raw s (next π) (place (next π))) = typ) in Ht.
  rewrite view_raw; [done|..]; intros He; rewrite He in Ht; subst typ;
    by repeat (apply elem_of_cons in Hid as [?|Hid]; [done|]); apply elem_of_nil in Hid.
Qed.
Lemma part_array_pattern π : Type_ (view π) = LBRACKET → part (outside parseArrayPatternElems) SpellsArrayPattern π.
Proof.
  intros Ht. apply (part_outside s (L := L)). intros n G HG Hn.
  eapply wpp_mono; [by apply (part_parseArrayPatternElems s n G HG)| |done].
  intros a π' (ts & Hu & ts' & -> & Ha). by exists (view π :: ts').
Qed.
Lemma part_object_pattern π : Type_ (view π) = LBRACE → part (outside parseObjectPatternProps) SpellsObjectPattern π.
Proof.
  intros Ht. apply (part_outside s (L := L)). intros n G HG Hn.
  eapply wpp_mono; [by apply (part_parseObjectPatternProps s n G HG)| |done].
  intros a π' (ts & Hu & ts' & -> & Ha). by exists (view π :: ts').
Qed.
Lemma part_parseArrayDestructuring π :
  declares_variable (view π) → Type_ (raw s π (place π + 1)) = LBRACKET →
  part parseArrayDestructuring (λ ts st, ts ≠ [] ∧ array_destructuring ts st) π.
Proof.
  intros Hv Ht. unfold ParseMembers.part, parseArrayDestructuring. do 3 step.
  eapply wpp_part; [apply part_array_pattern, (opening_next _ LBRACKET); [by left|done]|apply upto_one|].
  intros es ts1 π1 Hu1 Hes. step. eapply wpp_part; [apply part_destructured|exact Hu1|]. intros [ta e] ts2 π2 Hu2 Hb. step.
  eexists. split; [exact Hu2|]. split; [done|]. by exists (view π), ts1, es, ts2, ta, e.
Qed.
Lemma part_parseObjectDestructuring π :
  declares_variable (view π) → Type_ (raw s π (place π + 1)) = LBRACE →
  part parseObjectDestructuring (λ ts st, ts ≠ [] ∧ object_destructuring ts st) π.
Proof.
  intros Hv Ht. unfold ParseMembers.part, parseObjectDestructuring. do 3 step.
  eapply wpp_part; [apply part_object_pattern, (opening_next _ LBRACE); [by right; left|done]|apply upto_one|].
  intros ps ts1 π1 Hu1 Hps. step. eapply wpp_part; [apply part_destructured|exact Hu1|]. intros [ta e] ts2 π2 Hu2 Hb. step.
  eexists. split; [exact Hu2|]. split; [done|]. by exists (view π), ts1, ps, ts2, ta, e.
Qed.
End variables.
