(* ===== verification/StmtSound.v ===== *)
(** * Statements of statements: what they consume

    One lemma for each statement: it is a [Sentence], unless something is reported. *)

From S2P Require Import Prelude GoString Diag Token Lexer LexerFacts LexerPos Stream StreamFacts Expr.
From S2P Require Import ParsePrimary ParseExpr Stmt Recovery DiagList ParseStmt Grammar StmtGrammar ParseWp ParseRules ParseLists ParseMembers ParseArrow.
From S2P Require Import ParsePrimaries RecoverWp RecoverLists StmtRules VarRules.
Open Scope Z_scope.

(** The token lists read and spelled are the same. *)
Ltac same_tokens := rewrite <- ?app_assoc; cbn [app]; rewrite <- ?app_assoc, ?app_nil_r; reflexivity.
(** The production ends here: [c] is the rule of the grammar. *)
Ltac sentence c :=
  apply wpr_ret; eapply got_answers; [eassumption| |
    intros ?Hq; eapply cast; [eapply c; try (by eauto)|same_tokens]];
  try (match goal with |- _ ≠ [] => let H := fresh in intros H; by repeat (apply app_eq_nil in H as [H _]) end).

Section sound.
Context `{U : Unicode} {OP : Opaque} {D : Declared} (s : string) {L : Languages} {E : Elsewhere} {DS : Declarations}.
Context {SL : StmtLanguages} {EO : ElsewhereOk s} {OKD : DeclarationsOk s}.
Abbreviation wpp := (wpp s).
Abbreviation wpr := (wpr s).
Abbreviation upto := (upto s).
Abbreviation view := (view s).
Abbreviation left := (left s).
Abbreviation sound := (sound s).
Abbreviation got := (got s).
Abbreviation runs := (runs s).

Context (n : nat) (self : RM Statement) (Hself : sound n self Sentence).

Section from_point.
Context (π : point) (ν : notes) (Hn : (left π ≤ S n)%nat) (Hc : ctx_spec π = O) (Hh : heard ν).

Lemma got_view : got π ν [view π] (next π) ν.
Proof. apply (got_next s π ν []), got_start. Qed.

Lemma then_body {B} inIf ts (k : Block → RM B) Q π1 ν1 :
  got π ν ts π1 ν1 → ts ≠ [] →
  (∀ b ts' π' ν', got π ν (ts ++ ts') π' ν' → ts' ≠ [] → (quiet ν' → body_of Sentence inIf ts' b) → (quiet ν' → quiet ν1) →
     wpr (k b) Q (stops π ν) π' ν') →
  wpr (parseSingleStatement self inIf ≫= k) Q (stops π ν) π1 ν1.
Proof.
  intros Hg Hne. eapply (then_sub s π ν Hc Hh); [exact (sound_single s n self Hself inIf)|exact Hg|].
  exact (got_left s n π ν Hn Hc _ _ _ Hg Hne).
Qed.
Lemma then_block {B} ts (k : Block → RM B) Q π1 ν1 :
  got π ν ts π1 ν1 →
  (∀ b ts' π' ν', got π ν (ts ++ ts') π' ν' → ts' ≠ [] → (quiet ν' → block_of Sentence ts' b) → (quiet ν' → quiet ν1) →
     wpr (k b) Q (stops π ν) π' ν') →
  wpr (parseBlock self ≫= k) Q (stops π ν) π1 ν1.
Proof.
  intros Hg. eapply (then_sub s π ν Hc Hh); [exact (sound_block s n self Hself)|exact Hg|].
  exact (got_le s n π ν Hn Hc _ _ _ Hg).
Qed.
Lemma then_self {B} ts (k : Statement → RM B) Q π1 ν1 :
  got π ν ts π1 ν1 → ts ≠ [] →
  (∀ st ts' π' ν', got π ν (ts ++ ts') π' ν' → ts' ≠ [] → (quiet ν' → Sentence ts' st) → (quiet ν' → quiet ν1) →
     wpr (k st) Q (stops π ν) π' ν') →
  wpr (self ≫= k) Q (stops π ν) π1 ν1.
Proof.
  intros Hg Hne. eapply (then_sub s π ν Hc Hh); [exact Hself|exact Hg|]. exact (got_left s n π ν Hn Hc _ _ _ Hg Hne).
Qed.

Lemma runs_while : Type_ (view π) = WHILE → runs (parseWhileStatement self) Sentence π ν.
Proof.
  intros Ht. eapply then_advance; [apply got_start|]. cbn [app]. intros Hg1.
  eapply then_part; [exact Hg1|by apply part_parenthesized|]. intros test ts1 π1 Hg2 Hcond.
  eapply then_body; [exact Hg2|done|]. intros b ts2 π2 ν2 Hg3 Hne Hb _. sentence st_while.
Qed.
Lemma runs_do_while : Type_ (view π) = DO → runs (parseDoWhileStatement self) Sentence π ν.
Proof.
  intros Ht. eapply then_advance; [apply got_start|]. cbn [app]. intros Hg1.
  eapply then_body; [exact Hg1|done|]. intros b ts1 π1 ν1 Hg2 Hne Hb _.
  eapply then_expect; [exact Hg2|]. intros Hw Hg3.
  eapply then_part; [exact Hg3|by apply part_parenthesized|]. intros test ts2 π2 Hg4 Hcond.
  eapply (then_part s π ν _ (λ ts _, semicolon ts)); [exact Hg4| |].
  { unfold ParseMembers.part. step. step; kinds; [exists [view π2]; split; [apply upto_one|]; exists true; by constructor|].
    exists []. split; [apply upto_refl|]. exists false. constructor. }
  intros _ ts3 π3 Hg5 Hsemi. sentence st_do_while.
Qed.
Lemma runs_labeled : Type_ (view π) = IDENT → runs (parseLabeledStatement self) Sentence π ν.
Proof.
  intros Ht. eapply then_advance; [apply got_start|]. cbn [app]. intros Hg1. eapply then_expect; [exact Hg1|]. intros Hcolon Hg2.
  apply wpr_bind. eapply wpr_pm; [exact Hg2|]. apply wpp_rejectLexicalDecl; [by eapply upto_from, Hg2|]. intros _.
  eapply then_self; [exact Hg2|done|]. intros st ts π1 ν1 Hg3 Hne Hst _. sentence st_labeled.
Qed.

(** ** For *)

Lemma then_iterates {B} (k : Expr * Block → RM B) Q ts π1 ν1 :
  got π ν ts π1 ν1 → ts ≠ [] →
  (∀ e b ts' π' ν', got π ν (ts ++ ts') π' ν' → (quiet ν' → iterates Sentence ts' e b) → (quiet ν' → quiet ν1) →
     wpr (k (e, b)) Q (stops π ν) π' ν') →
  wpr (for_tail self ≫= k) Q (stops π ν) π1 ν1.
Proof.
  intros Hg Hne HQ. apply wpr_bind. eapply then_expression; [exact EO|exact Hg|]. intros e ts1 π2 Hg2 _ He.
  eapply then_expect; [exact Hg2|]. intros Hp Hg3. eapply then_body; [exact Hg3|by destruct ts|].
  intros b ts2 π3 ν3 Hg4 _ Hb Hq. apply wpr_ret. eapply HQ; [|intros H; exists ts1, (view π2), ts2; split_and!; by eauto|done].
  by rewrite <- !app_assoc in Hg4.
Qed.
(** A token that was looked at, now read. *)
Lemma ahead_word π1 w : is_word (raw s (next (next π1)) (place π1 + 2)) w = true → is_word (view (next (next π1))) w = true.
Proof.
  intros H. apply word_view. cbn [next place set_place]. by replace (S (S (place π1))) with (place π1 + 2)%nat by lia.
Qed.

Section for_parts.
Context (t o : Token) (ts0 : list Token) (await : bool) (π1 : point) (ν1 : notes).
Context (Hg : got π ν (t :: ts0 ++ [o]) π1 ν1) (Ht : Type_ t = FOR) (Hawait : perhaps AWAIT ts0 await) (Ho : Type_ o = LPAREN).
Context (Hk : declares_variable (view π1)).

Lemma runs_for_of : is_word (raw s π1 (place π1 + 2)) "of" = true →
  wpr (parseForOfBody self (posOf t) await) (answers s π ν Sentence) (stops π ν) π1 ν1.
Proof.
  intros Hw. eapply then_advance; [exact Hg|]. intros Hg1. eapply then_expect; [exact Hg1|]. intros Hx Hg2.
  eapply then_advance; [exact Hg2|]. intros Hg3. apply ahead_word in Hw.
  eapply then_iterates; [exact Hg3|done|]. intros e b ts π2 ν2 Hg4 Hit _. sentence st_for_of.
Qed.
Lemma runs_for_in : await = false → is_word (raw s π1 (place π1 + 2)) "in" = true →
  wpr (parseForInBody self (posOf t)) (answers s π ν Sentence) (stops π ν) π1 ν1.
Proof.
  intros Ha Hw. eapply then_advance; [exact Hg|]. intros Hg1. eapply then_expect; [exact Hg1|]. intros Hx Hg2.
  eapply then_advance; [exact Hg2|]. intros Hg3. apply ahead_word in Hw.
  eapply then_iterates; [exact Hg3|done|]. intros e b ts π2 ν2 Hg4 Hit _. subst await. inversion Hawait; subst. sentence st_for_in.
Qed.
Lemma runs_for_of_pattern : Type_ (raw s π1 (place π1 + 1)) ∈ [LBRACKET; LBRACE] →
  wpr (parseForOfPatternBody self (posOf t) await) (answers s π ν Sentence) (stops π ν) π1 ν1.
Proof.
  intros Hopen. pose proof (opening_next s π1 _ Hopen eq_refl) as Hview. eapply then_advance; [exact Hg|]. intros Hg1. eapply then_check; [exact Hg1|]. apply wpr_bind.
  assert (∀ ts1 elems props π2, got π ν ((t :: ts0 ++ [o]) ++ [view π1] ++ ts1) π2 ν1 → introduced_pattern ts1 elems props →
    wpr (tok ← lift peek;
         if is_word tok "of" then lift advance ≫= λ _, '(iterable, body) ← for_tail self;
           mret (mkStmt (posOf t) (SForOf (Literal (view π1)) "" elems props iterable body await))
         else lift (errAt tok ExpectedOfDestructure [FTok (Type_ tok)])) (answers s π ν Sentence) (stops π ν) π2 ν1) as Hrest.
  { intros ts1 elems props π2 Hg2 Hp. eapply then_peek; [exact Hg2|]. destruct (is_word (view π2) "of") eqn:Hw.
    - eapply then_advance; [exact Hg2|]. intros Hg3. eapply then_iterates; [exact Hg3|done|]. intros e b ts π3 ν3 Hg4 Hit _.
      sentence st_for_of_pattern.
    - eapply wpr_pm; [exact Hg2|]. step. by eapply upto_from, Hg2. }
  destruct (kind_is _ _) eqn:Hbr; kinds.
  - eapply then_part; [exact Hg1|by apply part_array_pattern|].
    intros es ts1 π2 Hg2 Hp. apply wpr_ret. eapply Hrest; [by rewrite <- app_assoc in Hg2|left; by exists es].
  - assert (Type_ (view (next π1)) = LBRACE) as Hb.
    { rewrite <- Hview in Hopen. apply elem_of_cons in Hopen as [?|?%list_elem_of_singleton]; [done|done]. }
    eapply then_part; [exact Hg1|by apply part_object_pattern|].
    intros ps ts1 π2 Hg2 Hp. apply wpr_ret. eapply Hrest; [by rewrite <- app_assoc in Hg2|right; by exists ps].
Qed.
End for_parts.

(** The first part of a [for], with [in] no operator. *)
Definition with_in (o : option nat) (π : point) : point := mkPoint (modes π) (place π) (ctx_gen π) (ctx_await π) o (ctx_spec π).
Lemma wpp_set_noInFrom o (Q : unit → point → Prop) X π1 : Q tt (with_in o π1) → wpp (modify (set_noInFrom o)) Q X π1.
Proof.
  apply wpp_modify. intros p [Hs ? ? ? ? ? Ha]. constructor; try done. by apply (stream_ok_same s _ p).
Qed.
Lemma upto_in o π1 ts π2 : upto (with_in o π1) ts π2 → upto π1 ts (with_in (ctx_in π1) π2).
Proof. intros (A & P & S & ? & ? & _ & ?). by repeat split. Qed.
Lemma from_in o π1 π2 : from (with_in o π1) π2 → from π1 (with_in (ctx_in π1) π2).
Proof. intros (A & P & ? & ? & _ & ?). by repeat split. Qed.
Definition first_part (ts : list Token) (st : Statement) : Prop :=
  variables false ts st ∨ ∃ e, Spells 0 ts e ∧ st = mkStmt (epos e) (SExpression e).
Lemma sound_first :
  sound (S n) (t ← lift peek; if kind_in t variable_kinds then lift (parseVarDecl false)
               else e ← lift parseExpression; mret (mkStmt (epos e) (SExpression e))) first_part.
Proof.
  intros π1 ν1 Hn1 Hc1 Hh1. eapply then_peek; [apply got_start|]. destruct (kind_in _ _) eqn:Hk; kinds.
  - eapply wpr_part; [by apply part_parseVarDecl|apply got_start|]. cbn [app]. intros st ts π' Hg [Hne Hst].
    eapply got_answers; [exact Hg|done|]. intros _. by left.
  - eapply then_expression; [exact EO|apply got_start|]. cbn [app]. intros e ts π' Hg Hne He. apply wpr_ret.
    eapply got_answers; [exact Hg|done|]. intros _. right. by eexists.
Qed.
Lemma then_for_init {B} (k : option Statement → RM B) Q ts π1 ν1 :
  got π ν ts π1 ν1 →
  (∀ init ts' π' ν', got π ν (ts ++ ts') π' ν' → (quiet ν' → for_first ts' init) → (quiet ν' → quiet ν1) → wpr (k init) Q (stops π ν) π' ν') →
  wpr (for_init ≫= k) Q (stops π ν) π1 ν1.
Proof.
  intros Hg HQ. unfold for_init. apply wpr_bind. eapply then_check; [exact Hg|]. destruct (kind_is _ _).
  { apply wpr_ret. eapply (HQ _ []); [by rewrite app_nil_r|by left|done]. }
  apply wpr_bind. eapply wpr_pm; [exact Hg|]. apply wpp_get. intros p Hp. rewrite (at_place _ _ _ Hp), (at_in _ _ _ Hp). clear p Hp.
  apply wpr_bind. eapply wpr_pm; [exact Hg|]. apply wpp_set_noInFrom. set (π2 := with_in _ π1). apply wpr_bind, wpr_try.
  eapply wpr_mono; [apply (sound_first π2 ν1); [exact (got_le s n π ν Hn Hc _ _ _ Hg)|exact (got_spec s π ν Hc _ _ _ Hg)|exact (got_heard s π ν Hh _ _ _ Hg)]| |].
  - intros st π3 ν3 (Hg3 & ts3 & Hu & _ & HL). apply upto_in in Hu. pose proof (got_upto s π ν _ _ _ _ _ _ Hg Hu Hg3) as Hg4.
    apply wpr_bind, wpr_lift_ok, wpp_set_noInFrom. apply wpr_ret. eapply HQ; [exact Hg4| |by apply grown_quiet].
    intros Hq. right. exists st. split; [by apply HL|done].
  - intros e π3 ν3 (Hg3 & Hf & Ht). apply from_in in Hf. apply wpr_bind, wpr_lift_ok, wpp_set_noInFrom.
    apply wpr_throw. exact (got_stops s π ν _ _ _ _ _ _ Hg Hg3 Hf Ht).
Qed.

Lemma runs_for_three t o π1 ν1 : got π ν [t; o] π1 ν1 → Type_ t = FOR → Type_ o = LPAREN →
  wpr (init ← for_init;
       lift (expect SEMICOLON) ≫= λ _, test ← lift (unless SEMICOLON);
       lift (expect SEMICOLON) ≫= λ _, update ← lift for_update;
       lift (expect RPAREN) ≫= λ _, body ← parseBlockOrStatement self;
       mret (mkStmt (posOf t) (SFor init test update body))) (answers s π ν Sentence) (stops π ν) π1 ν1.
Proof.
  intros Hg Ht Ho. eapply then_for_init; [exact Hg|]. intros init ts0 π2 ν2 Hg2 Hinit Hq.
  eapply then_expect; [exact Hg2|]. intros Hs1 Hg3. eapply then_part; [exact Hg3|by apply part_optional|]. intros test ts1 π3 Hg4 Htest.
  eapply then_expect; [exact Hg4|]. intros Hs2 Hg5. eapply then_part; [exact Hg5|by apply part_for_update|]. intros update ts2 π4 Hg6 Hup.
  eapply then_expect; [exact Hg6|]. intros Hp Hg7. eapply then_body; [exact Hg7|done|]. intros b ts3 π5 ν5 Hg8 _ Hb Hq5.
  sentence (st_for t o ts0 init (view π2) ts1 test (view π3) ts2 update (view π4) ts3 b).
Qed.
Lemma runs_for : Type_ (view π) = FOR → runs (parseForStatement self) Sentence π ν.
Proof.
  intros Ht. eapply then_advance; [apply got_start|]. cbn [app]. intros Hg1. cbv zeta. eapply then_check; [exact Hg1|]. set (t := view π) in *.
  set (πa := if kind_is (view (next π)) AWAIT then next (next π) else next π).
  set (ts0 := if kind_is (view (next π)) AWAIT then [view (next π)] else []).
  assert (got π ν (t :: ts0) πa ν ∧ perhaps AWAIT ts0 (kind_is (view (next π)) AWAIT)) as [Hg2 Hawait].
  { subst πa ts0. destruct (kind_is _ _) eqn:Hk; kinds; [split; [apply (got_next s π ν [t]), Hg1|by constructor]|split; [done|constructor]]. }
  apply wpr_bind. apply wpr_mono with (Q := λ _ π' ν', π' = πa ∧ ν' = ν) (X := stops π ν); [| |done].
  { subst πa. destruct (kind_is _ _); [|by apply wpr_ret]. eapply then_advance; [exact Hg1|]. intros _. by apply wpr_ret. }
  intros _ π' ν' [-> ->]. eapply then_expect; [exact Hg2|]. intros Ho Hg3. set (await := kind_is _ AWAIT) in *. clearbody πa ts0 await.
  apply wpr_bind. eapply wpr_pm; [exact Hg3|]. apply wpp_for_form. intros f Hf. cbn [app] in Hg3. destruct f.
  - destruct Hf as [Hk Hw]. by eapply runs_for_of.
  - destruct Hf as [Hk Hw]. destruct await eqn:Ha.
    + eapply wpr_pm; [exact Hg3|]. step. by eapply upto_from, Hg3.
    + by eapply runs_for_in.
  - destruct Hf as [Hk Hopen]. by eapply runs_for_of_pattern.
  - destruct await eqn:Ha.
    + eapply wpr_pm; [exact Hg3|]. step. by eapply upto_from, Hg3.
    + inversion Hawait; subst. by eapply runs_for_three.
Qed.

(** ** Switch *)

Lemma runs_switch : Type_ (view π) = SWITCH → runs (parseSwitchStatement self) Sentence π ν.
Proof.
  intros Ht. eapply then_advance; [apply got_start|]. cbn [app]. intros Hg1.
  eapply then_part; [exact Hg1|by apply part_parenthesized|]. intros disc ts1 π1 Hg2 Hcond.
  eapply then_expect; [exact Hg2|]. intros Ho Hg3.
  set (ts := ([view π] ++ ts1) ++ [view π1]) in *. assert (ts ≠ []) as Hne by done.
  apply wpr_bind, (wpr_repeat s (λ cases π' ν', ∃ ts', got π ν (ts ++ ts') π' ν'
    ∧ (quiet ν' → ∃ css, ts' = concat css ∧ Forall2 (switch_case Sentence) css cases)) (λ _, left)).
  { exists []. rewrite app_nil_r. split; [done|]. intros _. by exists []. }
  { apply left_bound. }
  intros cases π2 ν2 (ts2 & Hg4 & Hcases). assert (ts ++ ts2 ≠ []) as Hne2 by (by destruct ts).
  eapply then_peek; [exact Hg4|]. destruct (kind_in (view π2) _) eqn:Hk; kinds.
  - apply wpr_ret. eapply then_expect; [exact Hg4|]. intros Hc' Hg5. subst ts. apply wpr_ret. eapply got_answers; [exact Hg5|done|].
    intros Hq. destruct (Hcases Hq) as (css & -> & HF). eapply cast; [by eapply st_switch|same_tokens].
  - apply wpr_bind. eapply wpr_pm; [exact Hg4|]. eapply wpp_part_left; [by apply part_case_head|apply Hg4|].
    intros test ts3 π3 Hu5 Hl3 [Hne3 Htest]. specialize (Hl3 Hne3). assert (got π ν ((ts ++ ts2) ++ ts3) π3 ν2) as Hg5 by (split; [done|apply Hg4]).
    assert (0 < left π2)%nat as Hpos by (apply left_pos; intros H; rewrite H in Hk; apply Hk; right; by left). apply wpr_bind.
    eapply (wpr_list s n self Hself π ν Hn Hc Hh); [exact Hg5|by destruct ts| |].
    + intros body ts4 π4 ν4 Hg6 _ Hb Hq Hl4. apply wpr_ret. split; [|lia].
      exists (ts2 ++ ts3 ++ ts4). split; [by rewrite <- !app_assoc in *|]. intros Hq4. destruct (Hb Hq4) as (tss & -> & HF).
      destruct (Hcases (Hq Hq4)) as (css & -> & HF'). exists (css ++ [ts3 ++ concat tss]). split.
      * rewrite concat_app. cbn. by rewrite app_nil_r.
      * apply Forall2_app; [done|]. constructor; [|constructor]. by exists ts3, test, tss, body.
    + intros body e π4 ν4 Hs. by apply wpr_throw.
Qed.

(** ** Try *)

Lemma then_catch {B} (k : option CatchClause → RM B) Q ts π1 ν1 :
  got π ν ts π1 ν1 →
  (∀ catch ts' π' ν', got π ν (ts ++ ts') π' ν' → (quiet ν' → optional (catches Sentence) ts' catch) → (quiet ν' → quiet ν1) →
     wpr (k catch) Q (stops π ν) π' ν') →
  wpr (catches ← lift (check CATCH);
       catch ← (if catches : bool then
         catchTok ← lift advance; '(name, ta, pattern) ← lift catch_binding; cbody ← parseBlock self;
         mret (Some (mkCatch name ta pattern cbody (posOf catchTok))) else mret None);
       k catch) Q (stops π ν) π1 ν1.
Proof.
  intros Hg HQ. eapply then_check; [exact Hg|]. apply wpr_bind. destruct (kind_is _ _) eqn:Hk; kinds.
  - eapply then_advance; [exact Hg|]. intros Hg1. eapply then_part; [exact Hg1|by apply part_catch_binding|]. intros [[name ta] ps] ts1 π2 Hg2 Hb.
    eapply then_block; [exact Hg2|]. intros b ts2 π3 ν3 Hg3 _ Hbl Hq. apply wpr_ret.
    eapply (HQ _ (view π1 :: ts1 ++ ts2)); [by rewrite <- !app_assoc in Hg3| |done]. intros Hq3. right. eexists. split; [|done].
    exists (view π1), ts1, name, ta, ps, ts2, b. split_and!; by auto.
  - apply wpr_ret. eapply (HQ _ []); [by rewrite app_nil_r|by left|done].
Qed.
Lemma then_finally {B} (k : option Block → RM B) Q ts π1 ν1 :
  got π ν ts π1 ν1 →
  (∀ finally ts' π' ν', got π ν (ts ++ ts') π' ν' → (quiet ν' → introduced (block_of Sentence) FINALLY ts' finally) → (quiet ν' → quiet ν1) →
     wpr (k finally) Q (stops π ν) π' ν') →
  wpr (finallies ← lift (check FINALLY);
       finally ← (if finallies : bool then lift advance ≫= λ _, b ← parseBlock self; mret (Some b) else mret None);
       k finally) Q (stops π ν) π1 ν1.
Proof.
  intros Hg HQ. eapply then_check; [exact Hg|]. apply wpr_bind. destruct (kind_is _ _) eqn:Hk; kinds.
  - eapply then_advance; [exact Hg|]. intros Hg1. eapply then_block; [exact Hg1|]. intros b ts2 π3 ν3 Hg3 _ Hbl Hq. apply wpr_ret.
    eapply (HQ _ (view π1 :: ts2)); [by rewrite <- !app_assoc in Hg3| |done]. intros Hq3. constructor; auto.
  - apply wpr_ret. eapply (HQ _ []); [by rewrite app_nil_r|constructor|done].
Qed.
Lemma runs_try : Type_ (view π) = TRY → runs (parseTryStatement self) Sentence π ν.
Proof.
  intros Ht. eapply then_advance; [apply got_start|]. cbn [app]. intros Hg1. eapply then_block; [exact Hg1|]. intros b ts1 π1 ν1 Hg2 Hne Hb _.
  eapply then_catch; [exact Hg2|]. intros catch ts2 π2 ν2 Hg3 Hcatch Hq2.
  eapply then_finally; [exact Hg3|]. intros finally ts3 π3 ν3 Hg4 Hfin Hq3.
  assert (catch ≠ None ∨ finally ≠ None → wpr (mret (mkStmt (posOf (view π)) (STry b catch finally))) (answers s π ν Sentence) (stops π ν) π3 ν3) as Hend.
  { intros Hsome. sentence st_try. }
  destruct catch as [c|]; [by apply Hend; left|]. destruct finally as [f|]; [by apply Hend; right|].
  eapply then_peek; [exact Hg4|]. eapply wpr_pm; [exact Hg4|]. step. by eapply upto_from, Hg4.
Qed.

(** ** Decorators *)

Lemma runs_decorated : Type_ (view π) = AT → runs (parseDecorated self) Sentence π ν.
Proof.
  intros Ht. eapply (then_sub s π ν Hc Hh); [by apply (parseDecorators_ok s n self)|apply got_start|done|]. cbn [app].
  intros decs ts1 π1 ν1 Hg1 Hne Hd _. eapply then_peek; [exact Hg1|]. eapply then_self; [exact Hg1|done|].
  intros st ts2 π2 ν2 Hg2 Hne2 Hst Hq. destruct (decorate decs st) as [st'|] eqn:Hdec.
  - sentence st_decorated.
  - eapply wpr_pm; [exact Hg2|]. step. by eapply upto_from, Hg2.
Qed.

(** ** The statement *)

Lemma runs_lift (m : PM Statement) : states s m π → runs (lift m) Sentence π ν.
Proof.
  intros Hm. eapply wpr_part; [exact Hm|apply got_start|]. cbn [app]. intros st ts π' Hg [Hne Hst]. by eapply got_answers.
Qed.
Lemma runs_block : runs (b ← parseBlock self; mret (block_stmt b)) Sentence π ν.
Proof.
  eapply then_block; [apply got_start|]. cbn [app]. intros b ts π' ν' Hg Hne Hb _. apply wpr_ret. eapply got_answers; [exact Hg|done|].
  intros Hq. apply st_block. by apply Hb.
Qed.
End from_point.

(** ** If *)

Definition if_sentence (ts : list Token) (st : Statement) : Prop := Sentence ts st ∧ ∃ t ts', ts = t :: ts' ∧ Type_ t = IF.
Lemma runs_parseIf m π ν :
  (left π ≤ S n)%nat → ctx_spec π = O → heard ν → (left π < m)%nat → Type_ (view π) = IF → runs (parseIf self m) if_sentence π ν.
Proof.
  revert π ν. induction m as [|m IH]; intros π ν Hn Hc Hh Hm Ht; [lia|]. cbn [parseIf].
  assert (0 < left π)%nat as Hpos by (apply left_pos; by rewrite Ht).
  eapply then_advance; [apply got_start|]. cbn [app]. intros Hg1. set (t := view π) in *.
  eapply then_part; [exact Hg1|by apply part_parenthesized|]. intros test ts1 π1 Hg2 Hcond.
  eapply (then_body π ν Hn Hc Hh); [exact Hg2|done|]. intros b ts2 π2 ν2 Hg3 _ Hb Hq2.
  eapply then_check; [exact Hg3|]. destruct (kind_is _ _) eqn:He; kinds.
  2: { apply wpr_ret. eapply got_answers; [exact Hg3|done|]. intros Hq. split; [|by eexists _, _].
       eapply cast; [eapply st_if; eauto|same_tokens]. }
  eapply then_advance; [exact Hg3|]. intros Hg4. set (u := view π2) in *.
  assert (∀ alt ts3 π3 ν3, got π ν ((([t] ++ ts1) ++ ts2) ++ [u] ++ ts3) π3 ν3 → (quiet ν3 → alternative Sentence ts3 alt) → (quiet ν3 → quiet ν2) →
    wpr (mret (mkStmt (posOf t) (SIf test b (Some alt)))) (answers s π ν if_sentence) (stops π ν) π3 ν3) as Hend.
  { intros alt ts3 π3 ν3 Hg5 Halt Hq3. apply wpr_ret. eapply got_answers; [exact Hg5|done|]. intros Hq. split; [|by eexists _, _].
    eapply cast; [apply (st_if_else t ts1 test ts2 b u ts3 alt); auto|same_tokens]. }
  eapply then_check; [exact Hg4|]. apply wpr_bind. destruct (kind_is (view (next π2)) IF) eqn:Hi; kinds.
  - assert (left (next π2) ≤ n)%nat as Hl by (by apply (got_left s n π ν Hn Hc _ _ _ Hg4)).
    assert (left (next π2) < left π)%nat as Hl2.
    { destruct Hg4 as [Hu _]. apply upto_left in Hu; [|done]. lia. }
    eapply wpr_mono; [apply (IH (next π2) ν2); [lia|exact (got_spec s π ν Hc _ _ _ Hg4)|exact (got_heard s π ν Hh _ _ _ Hg4)|lia|done]| |].
    + intros alt π3 ν3 (Hg5 & ts3 & Hu & _ & Halt). eapply Hend; [|intros Hq; left; by apply Halt|by apply grown_quiet].
      pose proof (got_upto s π ν _ _ _ _ _ _ Hg4 Hu Hg5) as H. by rewrite <- !app_assoc in *.
    + intros e π3 ν3 (Hg5 & Hf & Hte). exact (got_stops s π ν _ _ _ _ _ _ Hg4 Hg5 Hf Hte).
  - eapply (then_body π ν Hn Hc Hh); [exact Hg4|done|]. intros b' ts3 π3 ν3 Hg5 _ Hb' Hq3. apply wpr_ret. eapply Hend; [|intros Hq; right; by eauto|done].
    by rewrite <- !app_assoc in *.
Qed.
Lemma runs_if π ν :
  (left π ≤ S n)%nat → ctx_spec π = O → heard ν → Type_ (view π) = IF → runs (parseIfStatement self) Sentence π ν.
Proof.
  intros Hn Hc Hh Ht. unfold StmtRules.runs, parseIfStatement. apply wpr_bind, wpr_lift, wpp_gets. intros p [[Hl _] _ _ _ _ _ _].
  rewrite (ready_src _ _ (lined_ready _ _ _ Hl)). eapply wpr_mono; [apply runs_parseIf; try done| |done].
  - pose proof (left_bound s (modes π) (place π)). unfold ParseWp.left. lia.
  - intros st π' ν' (Hg & ts & Hu & Hne & HL). split; [done|]. exists ts. split_and!; [done|done|]. intros Hq. by apply HL.
Qed.

(** ** The statement *)

Definition statement_words : list TokenType :=
  [AT; RETURN; FOR; DO; WHILE; IF; SWITCH; BREAK; CONTINUE; THROW; TRY; LBRACE; SEMICOLON].
Lemma words_match {R} ty (a1 a2 a3 a4 a5 a6 a7 a8 a9 a10 a11 a12 a13 c : R) :
  ty ∉ statement_words →
  match ty with
  | AT => a1 | RETURN => a2 | FOR => a3 | DO => a4 | WHILE => a5 | IF => a6 | SWITCH => a7 | BREAK => a8
  | CONTINUE => a9 | THROW => a10 | TRY => a11 | LBRACE => a12 | SEMICOLON => a13 | _ => c
  end = c.
Proof. destruct ty; try done; intros H; exfalso; apply H; repeat constructor. Qed.
Lemma sound_parseOther π ν :
  (left π ≤ S n)%nat → ctx_spec π = O → heard ν → runs (parseOther self (view π)) Sentence π ν.
Proof.
  intros Hn Hc Hh. unfold parseOther, StmtRules.runs. destruct (is_word (view π) "debugger") eqn:Hw; [by apply runs_lift, states_debugger|].
  apply wpr_bind. apply wpr_mono with (Q := λ b π' ν', π' = π ∧ ν' = ν ∧ (b = true → Type_ (view π) = IDENT)) (X := stops π ν); [| |done].
  - destruct (kind_is (view π) IDENT) eqn:Hk; kinds; [|by apply wpr_ret]. eapply wpr_pm; [apply got_start|]. by apply wpp_next_is.
  - intros b π' ν' (-> & -> & Hb). destruct b; [apply runs_labeled; auto|by apply runs_lift, states_expression].
Qed.
Lemma sound_declares k π ν :
  (left π ≤ S n)%nat → ctx_spec π = O → heard ν → begins s k π → runs (declares self k) Sentence π ν.
Proof.
  intros Hn Hc Hh Hk.
  assert (∀ m, part s m (λ ts st, ts ≠ [] ∧ declaration k ts st) π → runs (lift m) Sentence π ν) as Hlift.
  { intros m Hm. eapply wpr_part; [exact Hm|apply got_start|]. cbn [app]. intros st ts π' Hg [Hne Hst].
    eapply got_answers; [exact Hg|done|]. intros _. by apply (st_declaration k). }
  assert ((∀ ts st, LDeclaration k ts st → declaration k ts st) → runs (parseDeclaration self k) Sentence π ν) as Hother.
  { intros Hd. eapply wpr_mono; [by apply (parseDeclaration_ok s n self)| |done]. intros st π' ν' (Hg & ts & Hu & Hne & HL). split; [done|].
    exists ts. split_and!; [done|done|]. intros Hq. apply (st_declaration k), Hd. by apply HL. }
  destruct k; cbn [declares declaration] in *; [| | |by apply Hother ..].
  - apply Hlift. by apply part_parseVarDecl.
  - apply Hlift. destruct Hk. by apply part_parseArrayDestructuring.
  - apply Hlift. destruct Hk. by apply part_parseObjectDestructuring.
Qed.
Lemma sound_parseStatement : sound (S n) (parseStatement self) Sentence.
Proof.
  intros π ν Hn Hc Hh. unfold parseStatement.
  assert (∀ k, (is_word (view π) "async" = true ∧ k = FunctionDecl true ∨ is_word (view π) "abstract" = true ∧ k = ClassDecl true) →
    runs (lift advance ≫= λ _, parseDeclaration self k) Sentence π ν) as Hmod.
  { intros k Hk. eapply then_advance; [apply got_start|]. cbn [app]. intros Hg1.
    eapply (wpr_sub s π ν Hc Hh); [by apply (parseDeclaration_ok s n self)|exact Hg1| |].
    - pose proof (got_left s n π ν Hn Hc _ _ _ Hg1 ltac:(done)). lia.
    - intros st ts π' ν' Hg _ Hne HL _. eapply got_answers; [exact Hg|done|]. intros Hq. eapply st_modified; [exact Hk|by apply HL]. }
  apply wpr_bind. eapply wpr_pm; [apply got_start|]. apply wpp_modified. intros [] Hw; [apply Hmod; left; by split; [apply Hw|]|]. clear Hw.
  apply wpr_bind. eapply wpr_pm; [apply got_start|]. apply wpp_modified. intros [] Hw; [apply Hmod; right; by split; [apply Hw|]|]. clear Hw Hmod.
  eapply then_peek; [apply got_start|]. apply wpr_bind. eapply wpr_pm; [apply got_start|]. apply wpp_declaration_here.
  intros [k|] Hk; [by apply sound_declares|clear Hk].
  destruct (decide (Type_ (view π) ∈ statement_words)) as [Hin|Hout]; [|rewrite words_match by done; by apply sound_parseOther].
  repeat (apply elem_of_cons in Hin as [Ht|Hin]; [rewrite Ht|]); [..|by apply elem_of_nil in Hin].
  - by apply runs_decorated.
  - by apply runs_lift, states_return.
  - by apply runs_for.
  - by apply runs_do_while.
  - by apply runs_while.
  - by apply runs_if.
  - by apply runs_switch.
  - by apply runs_lift, states_break.
  - by apply runs_lift, states_continue.
  - by apply runs_lift, states_throw.
  - by apply runs_try.
  - by apply runs_block.
  - by apply runs_lift, states_empty.
Qed.
End sound.

(** ** The knot *)

Section knot.
Context `{U : Unicode} {OP : Opaque} {D : Declared} (s : string) {L : Languages} {E : Elsewhere} {DS : Declarations}.
Context {SL : StmtLanguages} {EO : ElsewhereOk s} {OKD : DeclarationsOk s}.
Abbreviation view := (view s).
Abbreviation left := (left s).
Abbreviation sound := (sound s).

(** At the end of the text no other statement is asked for. *)
Lemma runs_at_end self π ν : Type_ (view π) = EOF → runs s (parseStatement self) Sentence π ν.
Proof.
  intros Ht. unfold StmtRules.runs, parseStatement.
  assert (∀ w, is_word (view π) w = false) as Hw by (intros w; unfold is_word, kind_is; by rewrite Ht).
  apply wpr_bind. eapply wpr_pm; [apply got_start|]. apply wpp_modified. intros [] H; [by rewrite Hw in H; specialize (H I)|]. clear H.
  apply wpr_bind. eapply wpr_pm; [apply got_start|]. apply wpp_modified. intros [] H; [by rewrite Hw in H; specialize (H I)|]. clear H.
  eapply then_peek; [apply got_start|]. apply wpr_bind. eapply wpr_pm; [apply got_start|]. unfold declaration_here. rewrite Ht. step.
  cbv beta iota. unfold parseOther. rewrite Hw. assert (kind_is (view π) IDENT = false) as -> by (unfold kind_is; by rewrite Ht).
  apply wpr_bind, wpr_ret. by apply runs_lift, states_expression.
Qed.
Lemma sound_statements n : sound n (statements (S n)) Sentence.
Proof.
  induction n as [|n IH]; [|by apply sound_parseStatement].
  intros π ν Hn _ _. apply runs_at_end. destruct (decide (Type_ (view π) = EOF)) as [|Hne]; [done|]. apply (left_pos s) in Hne. lia.
Qed.
Lemma sound_statement n : sound n statement Sentence.
Proof.
  intros π ν _ Hc Hh. unfold statement. apply wpr_bind, wpr_lift, wpp_gets. intros p [[Hl _] _ _ _ _ _ _].
  rewrite (ready_src _ _ (lined_ready _ _ _ Hl)). apply (sound_statements (S (length (runes_of s)))); [|done|done].
  apply left_bound.
Qed.
End knot.
