(* ===== verification/StmtProps.v ===== *)
(** * Properties of the parser of statements and of its error recovery *)

From S2P Require Import Prelude GoString Diag Token Lexer LexerFacts LexerPos Ast Stream StreamFacts Expr.
From S2P Require Import ParsePrimary ParseExpr Stmt Recovery DiagList ParseStmt Grammar StmtGrammar ParseWp ParseRules ParseLists.
From S2P Require Import RecoverWp RecoverLists StmtRules VarRules StmtSound ParseProps.
Open Scope Z_scope.

(** ** Recovery *)

Section recovery.
Context `{U : Unicode} {OP : Opaque} {D : Declared} (s : string).

(** C15: an error a list recovers from is reported and the list goes on where it
    should: the element that failed on its first token, though it could start there,
    is passed; then tokens and whole bracketed groups are skipped up to the first place
    that ends the list or, after a line break, a semicolon or a brace, starts an
    element of it, and the list resumes; or up to the first such place
    where an element or the end of an enclosing list stands, and it gives way. *)
Theorem recoverList_resumes ctx start e r π :
  at_point s π (parser r) → ctx_spec π = O → heard (notes_of r) → tells e (notes_of r) →
  ∃ err r' π1 π', recoverList ctx start (Some e) r = (Ok err, r') ∧ at_point s π' (parser r')
    ∧ passes s ctx start π π1 ∧ skips s (contexts r) ctx π1 π' ∧ recovered s (contexts r) ctx err π'
    ∧ contexts r' = contexts r ∧ Diag.items (diags r') ≠ [].
Proof.
  intros Hp Hc Hh Ht. pose proof (wpr_recoverList s ctx start e (λ err π' ν', ∃ π1, grown (notes_of r) ν' ∧ noisy ν' ∧ passes s ctx start π π1
    ∧ skips s (contexts r) ctx π1 π' ∧ recovered s (contexts r) ctx err π') (λ _ _ _, False) π (notes_of r) Hc Hh Ht) as H.
  specialize (H ltac:(intros err π1 π' ν' ? ? ? ? ?; by exists π1) r Hp eq_refl).
  destruct (recoverList ctx start (Some e) r) as [[err|e'| |] r']; try done.
  - destruct H as (π' & Hp' & π1 & [_ Hcx] & Hn & H1 & H2 & H3). exists err, r', π1, π'. by split_and!.
  - by destruct H as (? & _ & []).
Qed.

(** C16: reporting an error keeps the list of diagnostics sorted by offset with no two
    neighbours at one place, and loses no place: each place reported before, and
    each place of the error, or of the scanner's error that is behind it, has a diagnostic. *)
Theorem report_in_order err r π :
  at_point s π (parser r) →
  ∃ r', report err r = (Ok tt, r')
    ∧ (in_order (Diag.items (diags r)) → in_order (Diag.items (diags r')))
    ∧ covers (Diag.items (diags r')) (Diag.items (diags r) ++ says err (scan_error (toks (parser r))) (scanReported r))
    ∧ contexts r' = contexts r ∧ pendingTopLevel r' = pendingTopLevel r.
Proof.
  intros Hp. destruct (report_told s err r π Hp) as (r' & Hr & _ & [[Ho _ _] Hcx] & Hpe & Hco). exists r'. by split_and!.
Qed.

(** ** The list of the program *)

(** An error of [desugarRequire] has a diagnostic. *)
Lemma desugarRequire_tells st e : desugarRequire st = inr e → diagnostics_of e ≠ [].
Proof.
  unfold desugarRequire, desugar_call. intros H. repeat case_match; by simplify_eq.
Qed.
Definition top_added (st : Statement) (b b' : list Statement) : Prop :=
  ∃ st' pending, desugarRequire st = inl st' ∧ b' = b ++ st' :: pending.
Lemma wpr_top_level st b π ν :
  wpr s (top_level st b) (λ b' π' ν', π' = π ∧ grown ν ν' ∧ top_added st b b') (λ e π' ν', π' = π ∧ grown ν ν' ∧ tells e ν') π ν.
Proof.
  assert (∀ ss, grown ν (with_pending ss ν)) as Hg by (intros ss; split; [constructor; [done|by unfold covers|done]|done]).
  unfold top_level. destruct (desugarRequire st) as [st'|e] eqn:Hst.
  - apply wpr_bind, wpr_gets. intros r _ _. destruct (pendingTopLevel r) as [|p ps].
    + apply wpr_ret. split_and!; [done|apply grown_refl|by exists st', []].
    + apply wpr_bind, (wpr_modify s _ (with_pending [])); [done|]. apply wpr_ret. split_and!; [done|done|by exists st', (p :: ps)].
  - apply wpr_bind, (wpr_modify s _ (with_pending [])); [done|]. apply wpr_throw. split_and!; [done|done|]. by eapply desugarRequire_tells.
Qed.
Lemma toplevel_list n (parse : RM Statement) (L : list Token → Statement → Prop) r π :
  sound s n parse L →
  at_point s π (parser r) → (left s π ≤ n)%nat → ctx_spec π = O → contexts r = 0 → heard (notes_of r) →
  ∃ body r' π', parseStatementList parse ctxSourceElements top_level [] r = (Ok (body, None), r')
    ∧ at_point s π' (parser r') ∧ from π π' ∧ kind_at s π' = EOF ∧ grown (notes_of r) (notes_of r')
    ∧ (quiet (notes_of r') → all_read s L top_added π [] body π').
Proof.
  intros Hs Hp Hn Hc Hcx Hh.
  pose proof (wpr_parseStatementList s n parse L top_level top_added Hs wpr_top_level ctxSourceElements
    (λ out π' ν', grown (notes_of r) ν' ∧ from π π' ∧ list_answers s L top_added ctxSourceElements π (notes_of r) [] out π' ν') (λ _ _ _, False)
    [] π (notes_of r) Hn Hc Hh ltac:(by intros) r Hp eq_refl) as H.
  destruct (parseStatementList _ _ _ _ r) as [[[body err]|e| |] r']; try done; [|by destruct H as (? & _ & [])].
  destruct H as (π' & Hp' & Hg & Hf & Ha). unfold list_answers in Ha. cbn in Ha. destruct err as [e|].
  - destruct Ha as [_ Ha]. exfalso. unfold gives_way, inside in Ha. change (ncontexts (notes_of r)) with (contexts r) in Ha. rewrite Hcx in Ha. apply andb_true_iff in Ha as [_ (c & _ & Hout)%existsb_exists].
    unfold outer_at in Hout. apply andb_true_iff in Hout as [[Hne Hop]%andb_true_iff _]. by destruct c.
  - destruct Ha as [He Ha]. exists body, r', π'. split_and!; try done. unfold ends_list, terminates in He.
    destruct (tok_eqb (kind_at s π') EOF) eqn:Heof; [by apply tok_eqb_eq|done].
Qed.
(** C14: the list of the program's statements reaches the end of the text, whatever
    statements fail and wherever they stop, and gives way to no other list: the error
    it answers, which [ParseProgram] does not look at, is nil. *)
Theorem toplevel_reaches_end n (parse : RM Statement) (L : list Token → Statement → Prop) r π :
  sound s n parse L →
  at_point s π (parser r) → (left s π ≤ n)%nat → ctx_spec π = O → contexts r = 0 → heard (notes_of r) →
  ∃ body r' π', parseStatementList parse ctxSourceElements top_level [] r = (Ok (body, None), r')
    ∧ at_point s π' (parser r') ∧ from π π' ∧ kind_at s π' = EOF.
Proof.
  intros Hs Hp Hn Hc Hcx Hh. destruct (toplevel_list n parse L r π) as (body & r' & π' & H1 & H2 & H3 & H4 & _); [done..|].
  by exists body, r', π'.
Qed.
End recovery.

(** ** Programs *)

Section programs.
Context `{U : Unicode} {OP : Opaque} {D : Declared} {L : Languages} {E : Elsewhere} {DS : Declarations} {SL : StmtLanguages}.

(** What [ParseProgram] answers of its list. *)
Definition reads_program (src : string) (body : list Statement) (r : Recovering) : Prop :=
  ∃ ts sts π, at_point src π (parser r) ∧ upto src start ts π ∧ kind_at src π = EOF
    ∧ Program ts sts ∧ adds top_added sts [] body ∧ scan_error (toks (parser r)) = None ∧ Diag.items (diags r) = [].
Definition reports (src : string) (ds : list Diagnostic) (r : Recovering) : Prop :=
  ∃ π, at_point src π (parser r) ∧ from start π ∧ kind_at src π = EOF ∧ ds = Diag.items (diags r) ∧ ds ≠ [] ∧ in_order ds.
Lemma program_end_answers src body r π :
  at_point src π (parser r) → heard (notes_of r) → in_order (Diag.items (diags r)) →
  ∃ r', at_point src π (parser r')
    ∧ ((program_end body r = (Ok body, r') ∧ r' = r ∧ scan_error (toks (parser r)) = None ∧ Diag.items (diags r) = [])
       ∨ (program_end body r = (Err (Failed (EErrors (Diag.items (diags r')))), r') ∧ Diag.items (diags r') ≠ []
          ∧ in_order (Diag.items (diags r')))).
Proof.
  intros Hp Hh Ho.
  assert (∃ r', at_point src π (parser r') ∧ in_order (Diag.items (diags r')) ∧ (match scan_error (toks (parser r)) with Some _ => Diag.items (diags r') ≠ [] | None => r' = r end)
    ∧ program_end body r = (ds ← gets diags; match List_Err ds with Some e => throw (Failed e) | None => mret body end) r') as (r' & Hp' & Ho' & Hs & ->).
  { unfold program_end. rewrite (run_bind _ _ r (option_map (λ d, Failed (EDiagnostic d)) (scan_error (toks (parser r)))) r) by
      (unfold scanErrorOr, mbind, RM_bind, M_bind, get, mret, RM_ret, M_ret; by destruct (scan_error _)).
    destruct (scan_error (toks (parser r))) as [d|] eqn:Hsc; [|exists r; by split_and!].
    destruct (report_told src (Failed (EDiagnostic d)) r π Hp) as (r' & Hr & Hp' & Ht). exists r'.
    cbn [option_map]. rewrite (run_bind _ _ _ _ _ Hr). split_and!; [done| | |done].
    - destruct Ht as [[[H _ _] _] _]. by apply H.
    - rewrite Hsc in Ht. cbn [says] in Ht. destruct (scanReported r) eqn:Hre; [|by apply (told_noisy _ _ _ Ht)].
      destruct Ht as [Hg _]. apply (grown_noisy _ _ Hg), Hh. cbn. by rewrite Hre. }
  exists r'. split; [done|]. unfold mbind, RM_bind, M_bind, gets, List_Err. destruct (Diag.items (diags r')) as [|d ds] eqn:Hd; cbn.
  - left. destruct (scan_error _); [done|]. by subst r'.
  - by right.
Qed.
Lemma program_answers (src : string) {EO : ElsewhereOk src} {OKD : DeclarationsOk src} :
  ∃ out r, parseProgram src = (out, r)
    ∧ ((∃ body, out = Ok body ∧ reads_program src body r) ∨ ∃ ds, out = Err (Failed (EErrors ds)) ∧ reports src ds r).
Proof.
  unfold parseProgram, program_body. set (r0 := NewRecovering (NewParser src)).
  destruct (toplevel_list src (S (length (runes_of src))) statement Sentence r0 start) as (body & r1 & π & Hl & Hp & Hf & Hk & Hg & Hread);
    [by apply sound_statement|apply at_start|apply left_bound|done|done|by intros []|].
  assert (in_order (Diag.items (diags r1))) as Ho by (destruct Hg as [[Ho _ _] _]; apply Ho; by split; [constructor|]).
  rewrite (run_bind _ _ _ _ _ Hl).
  destruct (program_end_answers src body r1 π Hp ltac:(apply (grown_heard _ _ Hg); by intros []) Ho) as (r & Hp' & [(He & -> & Hs & Hd)|(He & Hd & Ho')]);
    rewrite He.
  - exists (Ok body), r1. split; [done|]. left. exists body. split; [done|]. destruct (Hread Hd) as (tss & sts & Hu & HF & Ha).
    exists (concat tss), sts, π. split_and!; [done|done|done|by exists tss|done..].
  - eexists _, r. split; [done|]. right. eexists. split; [done|]. by exists π.
Qed.

(** C12: the parser of programs accepts only the language: where [ParseProgram]
    reports nothing, the tokens from the first to the end of the text are
    statements of the grammar one after the other, its body is what [desugarRequire]
    makes of each in turn, with the declarations that go after it, and the scanner has read everything. *)
Theorem program_spells (src : string) {EO : ElsewhereOk src} {OKD : DeclarationsOk src} body r :
  parseProgram src = (Ok body, r) → reads_program src body r.
Proof.
  intros H. destruct (program_answers src) as (out & r' & H' & Hr). rewrite H in H'. simplify_eq.
  destruct Hr as [(body' & [= ->] & Hr)|(ds & ? & _)]; done.
Qed.
(** C13: the parser of programs always answers, a body or diagnostics, and has then
    read to the end of the text: no statement, no recovery and no nesting
    makes it panic or go round for ever.  The diagnostics are sorted by offset,
    no two neighbours at one place; if offsets tell places, no place occurs twice. *)
Theorem program_total (src : string) {EO : ElsewhereOk src} {OKD : DeclarationsOk src} :
  ∃ out r, parseProgram src = (out, r)
    ∧ ((∃ body, out = Ok body)
       ∨ ∃ ds, out = Err (Failed (EErrors ds)) ∧ reports src ds r ∧ (told_by_offset ds → NoDup (places ds))).
Proof.
  destruct (program_answers src) as (out & r & H & [(body & -> & _)|(ds & -> & Hr)]); eexists _, r; (split; [done|]).
  - left. by eexists.
  - right. exists ds. split_and!; [done|done|]. intros Ht. destruct Hr as (π & _ & _ & _ & _ & _ & Ho). by apply in_order_NoDup.
Qed.
End programs.

(** ** An instance

    A declaration is a token and a name, a decorator is [@] and a name; expressions are those of [Plain]. *)

Module PlainStmt.
#[local] Existing Instances Plain.plain_opaque Plain.plain_elsewhere Plain.plain_languages Plain.plain_ok.
Instance plain_declared : Declared :=
  {| Declaration := string; NewImportDeclaration specs ns src pos :=
       (src +:+ " " +:+ ns +:+ String.concat "," (map (λ p, p.1 +:+ " as " +:+ p.2) specs))%string; jsdocTypeAnnotation _ := None |}.
Section plain.
Context `{U : Unicode}.
Definition declared (typs : list TokenType) : PM Statement :=
  t ← advance; n ← expect IDENT; mret (mkStmt (posOf t) (SDeclaration (Literal n))).
Definition declared_by (ts : list Token) (st : Statement) : Prop :=
  ∃ t n, ts = [t; n] ∧ Type_ n = IDENT ∧ st = mkStmt (posOf t) (SDeclaration (Literal n)).
#[export] Instance plain_declarations : Declarations :=
  {| parseDeclaration self k := lift (declared []); Decorators := unit;
     parseDecorators self := lift (Plain.rows [AT; IDENT] (λ _, tt)); decorate _ st := Some st |}.
#[export] Instance plain_stmt_languages : StmtLanguages :=
  {| LDeclaration k := declared_by; LDecorators := Plain.rows_of [AT; IDENT] (λ _, tt) |}.
Lemma good_declared s n : good s n (declared []) declared_by.
Proof.
  intros π _. unfold declared. pose proof (upto_next s π [] π (upto_refl s π)) as Hu. do 4 step. step; [|by eapply upto_from].
  kinds. step. eexists. split; [eapply upto_next, Hu|]. split; [done|]. by eexists _, _.
Qed.
#[export] Instance plain_stmt_ok s : DeclarationsOk s.
Proof.
  constructor; [intros; apply sound_lift, good_declared|intros; apply sound_lift, Plain.good_rows].
Qed.
End plain.
End PlainStmt.
#[local] Existing Instance ascii_unicode.
#[local] Existing Instances Plain.plain_opaque Plain.plain_elsewhere Plain.plain_languages Plain.plain_ok.
#[local] Existing Instances PlainStmt.plain_declared PlainStmt.plain_declarations PlainStmt.plain_stmt_languages PlainStmt.plain_stmt_ok.

Definition good_program : string := "if (a) { b; } else for (let x of y) z(x)
t: while (c) { break t }
switch (v) { case 1: a; default: }
try { f() } catch (e) { } finally { }
let w, v!: T; const u = { a, ...b, c: [1] }; let [x = 1, , ...y]: T = z
var { p: [q = 2], 'k': { r }, ...rest } = v
@d class C
require('m'); const n = require('o'); let { a, b: c } = require('p')".
Definition bad_program : string := "a = ;
b = 1
{ c d; e
  f g (h i
  j k) }
let 1; m".
Definition answer (src : string) : outcome Stop (list Statement) * list Diagnostic :=
  let (o, r) := parseProgram src in (o, Diag.items (diags r)).
Definition kinds_of (sts : list Statement) : list string :=
  map (λ st, match skind st with
    | SBlock ss => "block" +:+ itoa (Z.of_nat (length ss)) | SExpression _ => "expression" | SIf _ _ (Some _) => "if-else" | SIf _ _ None => "if"
    | SWhile _ _ => "while" | SDoWhile _ _ => "do" | SFor _ _ _ _ => "for" | SForOf _ _ _ _ _ _ _ => "for-of" | SForIn _ _ _ _ => "for-in"
    | SSwitch _ cs => "switch" +:+ itoa (Z.of_nat (length cs)) | SBreak l => "break" | SContinue l => "continue" | SReturn _ => "return"
    | SThrow _ => "throw" | STry _ _ _ => "try" | SLabeled l _ => l +:+ ":" | SVar d => VKind d +:+ " " +:+ VName d
    | SVarList ds => "variables" +:+ itoa (Z.of_nat (length ds)) | SArrayDestructuring k es _ _ => k +:+ " []" +:+ itoa (Z.of_nat (length es))
    | SObjectDestructuring k ps _ _ => k +:+ " {}" +:+ itoa (Z.of_nat (length ps)) | SDeclaration d => "declares " +:+ d end)%string sts.

(** What is read of [good_program]; a lone [;] is an empty block, [require] an import. *)
Definition good_kinds : list string :=
  ["if-else"; "t:"; "switch2"; "try"; "variables2"; "const u"; "let []3"; "var {}3"; "declares C";
   "declares m "; "declares o n"; "declares p a as a,b as c"]%string.
Lemma program_spells_witness : ∃ body r,
  parseProgram good_program = (Ok body, r) ∧ kinds_of body = good_kinds ∧ reads_program good_program body r.
Proof.
  destruct (parseProgram good_program) as [out r] eqn:H.
  assert (out = (answer good_program).1) as Hx by (unfold answer; by rewrite H).
  assert (∃ body, (answer good_program).1 = Ok body ∧ kinds_of body = good_kinds) as (body & Hb & Hk) by (eexists; split; vm_compute; reflexivity).
  rewrite Hb in Hx. subst out. exists body, r. exact (conj eq_refl (conj Hk (program_spells good_program body r H))).
Defined.
Lemma program_total_witness : ∃ out r, parseProgram bad_program = (out, r)
  ∧ ((∃ body, out = Ok body)
     ∨ ∃ ds, out = Err (Failed (EErrors ds)) ∧ reports bad_program ds r ∧ (told_by_offset ds → NoDup (places ds))).
Proof. exact (program_total bad_program). Defined.
Lemma toplevel_reaches_end_witness : ∃ body r' π',
  parseStatementList statement ctxSourceElements top_level [] (NewRecovering (NewParser bad_program)) = (Ok (body, None), r')
  ∧ at_point bad_program π' (parser r') ∧ from start π' ∧ kind_at bad_program π' = EOF.
Proof.
  apply (toplevel_reaches_end bad_program (S (length (runes_of bad_program))) statement Sentence _ start).
  - apply sound_statement; apply _.
  - apply at_start.
  - apply left_bound.
  - reflexivity.
  - reflexivity.
  - intros [].
Defined.

(** A list that failed at its first token, and one that gives way. *)
Definition stray : string := "a (b; c) d
; e".
Lemma recoverList_resumes_witness : ∃ err r' π1 π',
  recoverList ctxSourceElements 0 (Some (Failed (EOther "bad"))) (NewRecovering (NewParser stray)) = (Ok err, r')
  ∧ at_point stray π' (parser r') ∧ passes stray ctxSourceElements 0 start π1 ∧ skips stray 0 ctxSourceElements π1 π'
  ∧ recovered stray 0 ctxSourceElements err π' ∧ contexts r' = 0 ∧ Diag.items (diags r') ≠ [].
Proof.
  apply (recoverList_resumes stray ctxSourceElements 0 (Failed (EOther "bad")) (NewRecovering (NewParser stray)) start).
  - apply at_start.
  - reflexivity.
  - intros [].
  - discriminate.
Defined.
Lemma report_in_order_witness : ∃ r', report (Failed (EOther "bad")) (NewRecovering (NewParser stray)) = (Ok tt, r')
  ∧ (in_order [] → in_order (Diag.items (diags r')))
  ∧ covers (Diag.items (diags r')) (diagnostics_of (EOther "bad")) ∧ contexts r' = 0 ∧ pendingTopLevel r' = [].
Proof. apply (report_in_order stray (Failed (EOther "bad")) (NewRecovering (NewParser stray)) start), at_start. Defined.

(** Each error is reported, once, in order, and the list goes on after it; the
    line of [m], past the bracketed group, is parsed. *)
Example bad_reported : map Diagnostic_Error (answer bad_program).2 =
  ["1:5: unexpected token ; in expression"; "3:5: expected ';', got IDENT"; "4:5: expected ';', got IDENT";
   "6:5: expected IDENT, got NUMBER"]%string.
Proof. vm_compute. reflexivity. Qed.
(** An unreadable character is reported in place of what it causes. *)
Example scanner_first : map Diagnostic_Error (answer "f(x # b").2 = ["1:5: unexpected character '#'"]%string.
Proof. vm_compute. reflexivity. Qed.
(** [declare], which is no reserved word, begins an ambient declaration whatever
    comes next; [type] does so before a name only. *)
Definition declaration_of (src : string) : outcome Diagnostic (option DeclKind) := ((t ← peek; declaration_here t) (NewParser src)).1.
Example declare_call : declaration_of "declare(x)" = Ok (Some AmbientDecl) ∧ declaration_of "type = x" = Ok None.
Proof. by vm_compute. Qed.

(** What declarations are refused. *)
Example refused : map (λ src, map (λ d, String.substring 0 30 (Diagnostic_Error d)) (answer src).2)
  ["const a"; "let x! = 1"; "let x!: T = 1"; "let { f() {} } = x"; "const { a = 1 } = require('m')"; "const a = require(b)"]%string =
  [["1:7: 'const' declaration 'a' m"]; ["1:6: Declarations with definit"]; ["1:5: Declarations with initial"];
   ["1:8: expected }, got ("]; ["1:1: only simple `{ a, b: c }`"]; ["1:1: dynamic require(...) with"]]%string.
Proof. vm_compute. reflexivity. Qed.
(** A computed key is no name to import: what is imported is the empty name. *)
Example require_computed : kinds_of match (answer "const { [k]: a } = require('m')").1 with Ok body => body | _ => [] end
  = ["declares m  as a"]%string.
Proof. vm_compute. reflexivity. Qed.
(** An object has a word for a key where a pattern may not. *)
Example reserved_key : map (λ src, length (answer src).2) ["x = { default: d, if: e }"; "let { default: d } = x"]%string = [0%nat; 1%nat].
Proof. vm_compute. reflexivity. Qed.
(** The error of a rest element has no place: it is reported before those that come first. *)
Example rest_initializer_first : map (λ d, (Diagnostic_Error d, Start (DSpan d))) (answer "let a = ;
let [...[a] = 1] = x").2
  = [("2:9: a rest element cannot have an initializer", 0); ("1:9: unexpected token ; in expression", 8)]%string.
Proof. vm_compute. reflexivity. Qed.
